(* ===== verification/_CoqProject ===== *)
-Q . S2P
Prelude.v
CharConv.v
Resp.v
Parser.v
ParserCorrect.v
Binary.v
Crc32.v
Disk.v
Wal.v
WalCorrect.v
WalProps.v
Store.v
StoreInv.v
StoreSpec.v
StoreCorrect.v
StoreTheorems.v
StoreProps.v
StoreTimed.v
StoreShared.v
Snapshot.v
SnapshotCorrect.v
Engine.v
EngineSpec.v
EngineCorrect.v
EngineProps.v
Stats.v
Registry.v
RegistryProps.v
ThreadPool.v
Socket.v
Connect.v
Ownership.v
Reactor.v
ServerCommands.v
Server.v
ServerFollows.v
ServerHistory.v
ServerInv.v
ServerSteps.v
ServerConn.v
ServerLoop.v
ServerDrain.v
ServerRun.v
ServerEnd.v
ServerProps.v
ServerLinear.v
ServerDurable.v
ServerWake.v
ServerWired.v
Cli.v
Benchmark.v
ServerMain.v
