(* ===== verification/Prelude.v ===== *)
(** * NovaCache: a verification development

    NovaCache is an in-memory key-value server that speaks RESP2 and keeps its
    data across restarts with a write-ahead log and snapshots.  This library
    models the program's logic in [src/] and proves the properties that
    make it correct.

    ** The program and how its parts interact

    - The I/O thread of the server ([src/server/server.cpp]) waits for events of
      the reactor ([src/net/reactor.cpp]), accepts connections and reads bytes
      from them ([src/net/socket.cpp]), hands the bytes to the RESP2 parser
      ([src/protocol/parser.cpp]), gives the requests of a connection to the
      worker pool ([src/util/thread_pool.cpp]) one at a time, and writes the
      encoded replies ([src/protocol/encoder.cpp]) in order.
    - A worker runs the command registry ([src/commands/registry.cpp]) on a
      request.  The registry checks the name and the number of arguments and
      calls the store ([src/store/store.cpp]), directly or, for a mutation of a
      server with persistence, through the persistence engine
      ([src/persistence/engine.cpp]).
    - The engine appends the mutation to the log ([src/persistence/wal.cpp]),
      syncs it with [fsync = always], and then applies it to the store.  It
      writes snapshots ([src/persistence/snapshot.cpp]) and rotates the log, and
      at the start it rebuilds the store from the snapshot and the log.  Both
      files use the binary format of [include/novacache/persistence/binary.hpp]
      and the checksum of [src/persistence/crc32.cpp].

    ** Files

    - [Prelude]: bytes, machine integers, exceptions and the error monad, shared
      lemmas and automation.
    - [CharConv]: [std::to_chars] and [std::from_chars] in base ten.
    - [Resp], [Parser]: [RespValue] and [encode]; [ParserLimits], [parse_value]
      and the class [RespParser] ([feed], [next], its buffer).  [ParserCorrect]:
      the theorems, with [drain] and [receive] for a connection's loop over
      [feed] and [next].
    - [Binary], [Crc32]: the little-endian writers and readers, with the
      interface [Codec] that the formats are built on; the checksum and its
      bitwise definition.
    - [Disk]: the monad [Exec] of stateful code with exceptions, in which a
      computation that throws keeps the changes it had made, and [Os], the
      outcomes of the system calls of an operation, which may fail or write a
      part only.
    - [Wal], [WalCorrect], [WalProps]: [WalWriter] with its file; the executions
      of a log in which every operation returned ([wal_run]) and every crash
      ([crash_image]).
    - [Store]: [Store] with its shards and counters, one definition per method;
      [StoreInv]: the invariant [wf]; [StoreSpec]: the abstract map with
      deadlines; [StoreCorrect], [StoreTheorems]: the refinement; [StoreProps]:
      the claims; [StoreTimed]: the store under clocks that are read in any order;
      [StoreShared]: [keys] with other threads between its sections.
    - [Snapshot], [SnapshotCorrect]: the format, [write_snapshot] and
      [read_snapshot].
    - [Engine]: [PersistenceEngine] on a [World] of log, snapshot files and store;
      [EngineSpec]: the persistent map and its mutations; [EngineCorrect]: the
      lives of an engine ([lifetime]) and their invariant; [EngineProps]: the
      claims.
    - [Stats]: the counters and the text of [INFO].
    - [Registry]: the table of commands, the handlers and [execute];
      [RegistryProps]: the meaning of a request ([interpret]) and the claims.
    - [ThreadPool]: [ThreadPool]'s critical sections, the sleeping of its workers
      and the notifications, and their interleavings.
    - [Socket]: the meaning of the results of [recv], [send] and [accept];
      [Connect]: the lookup of addresses, [connect] and [listen] with the open
      descriptors; [Ownership]: the objects of class [Socket], their moves and
      their ends.
    - [Reactor]: [KqueueReactor] with the filters and the wake-up event of the
      queue, and [wait].
    - [Server]: [Server] with its connections, completions, workers and
      surroundings, one definition per method; [ServerCommands]: what a command
      may do to the store and what it may throw; [ServerInv]: the histories of a
      connection and the invariant; [ServerSteps] (workers), [ServerConn]
      (strands and reading), [ServerLoop] (writing, interests, closing),
      [ServerDrain] (completions), [ServerRun] (the event loop) and [ServerEnd]
      (constructor, shutdown): every method keeps the invariant; [ServerProps]:
      the claims.
    - [ServerFollows]: one walk through the methods of the server for every
      relation between states that their primitive steps keep ([Steps]), on
      which the next ones are built.  [ServerHistory]: what a run did to the store
      and the engine, as a list of steps; [ServerLinear]: linearizability;
      [ServerDurable]: crashes of the whole server; [ServerWake]: the iterations
      of the loop ([loop_top]) and the wake-ups; [ServerWired]: the connections
      and the filters of the kernel.
    - [Cli], [ServerMain], [Benchmark]: the programs of [apps/].

    ** What the theorems show

    - Protocol ([ParserCorrect]): parsing an encoded value gives it back and
      consumes exactly its bytes; a verdict does not change when more bytes
      arrive; the requests decoded do not depend on how the stream is cut into
      reads; accepted values respect the limits.
    - Store ([StoreProps]): every operation implements the operation of the same
      name on a map of live keys, whatever the number of shards, the hash and
      the iteration orders; the invariant, with the exact memory estimate, holds
      in every reachable state; expired keys are invisible from their deadline
      on; active expiry removes expired keys only and counts them exactly; the
      read in two critical sections is atomic; the order of the locks of
      multi-key commands cannot deadlock, with other threads or with themselves.
      [StoreShared]: what [KEYS] promises
      when other threads change the store between its visits of the shards, and
      that it is not atomic ([keys_not_atomic]).
    - Log ([WalProps]): after a crash, recovery gives a prefix of the records
      that contains all the synced ones; a damaged record cuts the log there;
      recovery terminates and repairs the file.
    - Snapshots ([SnapshotCorrect]): the round trip, atomic replacement, and the
      refusal of a damaged file.
    - Persistence ([EngineProps]), for an engine that began on an empty data
      directory and whose operations have returned: a crash after any of them
      loses at most the part of the history that was not synced, and nothing with
      [fsync = always]; interrupting a snapshot is harmless; a clean shutdown
      is recovered exactly.  The history is recovered completely unless an
      [EXPIRE] superseded a deadline that is due at the restart ([settled]).  Two
      theorems show, for every such engine, how acknowledged data is lost
      otherwise: [restart_forgets_write] and [replay_forgets_extension].
    - Commands ([RegistryProps]): every request gets the reply of the command
      it denotes, on the abstract map; bad requests change nothing; a mutation
      is acknowledged only when its record is in the log; replies encode; the
      check of [EXPIRE] keeps deadlines in 64 bits, but for the time that passes
      after it.
    - Worker pool ([ThreadPool]): bounded queue, order, no lost notification (the
      pool comes to rest only when every accepted job has run), and a shutdown
      that reaches every sleeping worker, runs every accepted job and ends.
    - Server ([ServerProps]): for every behaviour of the kernel, the clocks, the
      scheduling of the workers and the other clients, each client's commands are
      executed in order and its replies are sent in order, and an idle connection
      has been answered in full; a strand runs one
      command at a time and the counters are exact; connections and buffered
      output are bounded; [run] ends, and the only undefined behaviour that may
      end it is the overflow of a deadline.
    - The whole server: the commands of all the connections together, [KEYS] and
      [INFO] apart, got the replies of one map ([ServerLinear]), also when they
      have read the clocks in another order than they took effect; a crash between
      two steps of a run that began on an empty data directory loses nothing that
      was synced ([ServerDurable]), by the simulation of the run's steps by the
      life of an engine; no completion is left behind when
      the I/O thread waits ([ServerWake]); the kernel watches exactly what the
      connections need ([ServerWired]).
    - Reactor and sockets ([Reactor], [Connect], [Ownership]): the table of
      interests is the kernel's, events are merged per descriptor, no descriptor
      is lost when a socket is made, and every descriptor has one owner and is
      closed once.
    - Programs ([Cli], [ServerMain]): a session of the client is faithful; the
      server program is safe for every command line, from its arguments to its
      exit status.
    - Defects, as theorems about the code as it is:
      [restart_forgets_write] (the log restarts its numbering below
      the snapshot's offset), [replay_forgets_extension] (replaying an
      [EXPIRE] that is due removes a key that a later one extended),
      [wal_length_check_wraps] (the length check of recovery is computed in
      32 bits) and [expire_deadline_overflows] (the store reads the clock again
      after the check of the lifetime).  As single executions that are run:
      [restart_drops_acknowledged_write], [replay_drops_extended_key],
      [failed_rotation_drops_acknowledged_write] (a log whose rotation
      failed has no header, and what is appended to it is lost),
      [saturation_strands_requests]
      (pipelined requests that arrive while the queue is full are not decoded when
      it is empty again),
      [saturation_deafens_connection] (a connection that meets a full queue is
      not watched when it is empty again), [failed_remove_deafens] (a descriptor whose removal from
      the reactor failed is not watched when it is used again),
      [half_closed_stays_open] (a connection half-closed with a command in
      flight stays open), [protocol_error_overtakes] (a protocol error is
      sent before earlier replies) and [cli_rejects_large_replies].

    ** Modelling decisions

    - Integers are [Z]; where the source's width matters the wrap-around is
      written ([u32], [u64], ...).  [char] and [std::byte] are [Byte.byte].
    - An exception is a value of [result]; undefined behaviour that the source can
      reach is the exception [undefined_behaviour], which no code catches.  An
      exception that leaves a worker is [terminate]; undefined behaviour on a
      worker stays what it is.
    - Deadlines are computed in [Z].  For [EXPIRE], the only command that sets
      them, the model says when the 64-bit arithmetic of the source would overflow
      ([expire_overflows], [durable_expire_overflows]), and [cmd_expire] is then
      undefined ([deadline_overflow]).
    - What the C++ implementation leaves open - [std::hash], [sizeof(Entry)], the
      iteration order of unordered containers - is the class [Platform];
      [PlatformOk] says that an iteration visits every element once.
    - The clocks have the units of the target platform: nanoseconds for
      [steady_clock], microseconds for [system_clock].  An operation is given the
      readings of its calls to [now] ([Clock]).  The theorems on persistence take
      one instant per operation ([frozen]) and clocks that advance together
      within one process ([tick_ok]), since deadlines are carried from one
      clock to the other; the theorems on the store alone do not.
    - The mutexes of the log, the engine and each shard make their critical
      sections atomic, so that an operation is the composition of its sections.
      [get_two_sections_atomic], [keys_between_sections] and
      [multi_key_locking_deadlock_free] treat what happens between the sections
      of the store.
    - A crash keeps every byte that was synced, and of the rest any prefix
      ([crash_image]); what a restarted process finds is on the disk.  A rename
      replaces a file atomically.
    - The server is a computation of the I/O thread on its state.  What it does
      not decide is the [Script] of the state: the results of its system calls,
      the readings of its clocks, the readings of the flag that [stop] sets, and
      the turns that the workers and the [everysec] thread of the engine take
      before each of its critical sections on the queue and the completions and
      before its wait.  A worker takes a job, runs it, queues its completion and
      wakes the reactor up in four turns; a number that is no worker's is a turn
      of the engine's thread ([fsync_turn]).  The theorems hold for every script
      in which [send] of some bytes does not return 0 and random numbers are in
      their range ([admissible]), so for every interleaving at that grain.  A
      command runs in one turn: those on one key decide in one critical section of
      the store ([get_two_sections_atomic]), those on several keys hold all their
      locks, and a mutation holds the mutex of the engine; they may have read the
      clocks before it, and the script may give them in any order.  Only [KEYS]
      visits the shards one by one: for it the turn is too coarse, [StoreShared]
      treats it, and [server_linearizable] leaves it out.  A worker that waits may
      go on whenever its condition holds, which includes the runs in which it is
      notified.  [conn_order] and
      [new_descriptor], with [KernelOk], stand for the iteration of
      [connections_] and the descriptors of [accept].  A reference to a
      connection is its descriptor, and using it after the connection was erased
      is [undefined_behaviour].  The trace records what happened.  The theorems
      of [ServerLinear] and [ServerDurable] ask for more instants in the script
      than the run uses ([envs (script s') ≠ []]), so that no command runs at the
      instant that stands for the end of the script.
    - The event of the wake-ups is pending from [wakeup] until a wait returns it;
      a wait is interrupted by signals any number of times, and a time that
      [kevent] does not accept is an error, which [no_lost_wakeup] excludes.
    - The identifiers of connections and the sequence numbers of requests are
      unbounded; 2^64 of them are not used up.
    - Fuel: the loops of the server are given one unit more than the results of
      the system calls that are left ([read_loop], [write_loop], [accept_loop],
      [run_loop]), than the bytes in the buffer ([queue_parsed_commands]), than
      the completions that can still come ([drain_loop], [pending_work]) and than
      the turns a worker can still take ([join_thread]).  Running out of it
      is [undefined_behaviour], so [run_ends_defined] shows that it is enough.
    - Fuel of the rest: [parse_value] takes one unit per nested call, and
      [parse_value_recursive_equation] shows that the length of the input is
      enough; [scan] takes [scan_fuel], two more than the length of the file,
      which [wal_recovery_repairs] shows is never used up below 4 GiB; 20 digits
      are enough for [to_chars] on 64 bits.

    ** What is not modelled

    - What the destructor of a server whose [run] threw does while workers are
      still running: [destroy_server] is its body alone.
    - Lives of an engine in which an operation has thrown, and those that go on
      after a restart, in the theorems on [lifetime] and [wal_run]; the
      definitions cover them, and the defects above are such lives.
    - The position of the log file after an [lseek] that failed: writes go to the
      end of the file.
    - The overflow of deadlines that are read from a snapshot or a log
      ([from_unix_ms], [set]) and of the intervals of the configuration.
    - The effect of [shutdown(2)] on the calls of a listener or of a peer, which
      is any of the results that a script may hold.
    - The [fsync] of the data directory after a rename, whose errors the source
      ignores; allocation failures; the text of error messages that quote
      [errno].
    - Declarations without a body: the class interfaces of the headers.

    ** Plan

    Remaining: the conditions under which a client is certain to be answered
    (a liveness theorem for the event loop, on scripts in which the workers and
    the kernel are fair and the queue does not fill), and the sections of the
    commands on one key as separate turns of the workers. *)

From Stdlib Require Export ZArith Lia ZifyBool Strings.Byte Strings.String.
From stdpp Require Export base list gmap strings sorting.

#[export] Set Default Goal Selector "!".
#[export] Set Warnings "-clear-no-such-hyp".
Open Scope Z_scope.

(** ** Bytes

    [char], [std::byte] and [std::uint8_t] are all [Byte.byte]; a
    [std::string] or [std::string_view] is a list of them. *)

Abbreviation byte := Byte.byte.
Abbreviation bytes := (list Byte.byte).

#[export] Instance byte_eq_decision : EqDecision byte := Byte.byte_eq_dec.

#[export] Instance byte_countable : Countable byte :=
  inj_countable Byte.to_N Byte.of_N Byte.of_to_N.

(** The value of a byte as an unsigned integer, and the conversion
    [static_cast<std::uint8_t>] of an integer, which keeps the low eight bits. *)
Definition byte_val (b : byte) : Z := Z.of_N (Byte.to_N b).

Definition byte_of (z : Z) : byte :=
  match Byte.of_N (Z.to_N (z mod 256)) with Some b => b | None => Byte.x00 end.

Lemma byte_val_range b : 0 <= byte_val b < 256.
Proof. unfold byte_val. pose proof (Byte.to_N_bounded b). lia. Qed.

Lemma byte_val_of z : byte_val (byte_of z) = z mod 256.
Proof.
  unfold byte_val, byte_of. pose proof (Z.mod_pos_bound z 256 eq_refl) as Hr.
  destruct (Byte.of_N (Z.to_N (z mod 256))) as [b|] eqn:E.
  - apply Byte.to_of_N in E. rewrite E. lia.
  - apply Byte.of_N_None_iff in E. lia.
Qed.

#[export] Instance byte_val_inj : Inj (=) (=) byte_val.
Proof.
  intros a b H. unfold byte_val in H. apply N2Z.inj in H.
  pose proof (Byte.of_to_N a) as Ha. pose proof (Byte.of_to_N b) as Hb. congruence.
Qed.

Lemma byte_of_val b : byte_of (byte_val b) = b.
Proof. apply (inj byte_val). rewrite byte_val_of. apply Z.mod_small, byte_val_range. Qed.

(** A C++ string literal. *)
Definition str (s : string) : bytes := list_byte_of_string s.

Definition CR : byte := Byte.x0d.
Definition LF : byte := Byte.x0a.
Definition crlf : bytes := [CR; LF].

(** [size()] of a string or a vector. *)
Definition len {A} (l : list A) : Z := Z.of_nat (length l).

(** ** Machine integers: the conversions to a width, and the wrap-around of
    unsigned arithmetic at that width. *)
Definition u16 (z : Z) : Z := z mod 2 ^ 16.
Definition u32 (z : Z) : Z := z mod 2 ^ 32.
Definition u64 (z : Z) : Z := z mod 2 ^ 64.
Definition i64 (z : Z) : Z := (z + 2 ^ 63) mod 2 ^ 64 - 2 ^ 63.

Definition is_u32 (z : Z) : Prop := 0 <= z < 2 ^ 32.
Definition is_u64 (z : Z) : Prop := 0 <= z < 2 ^ 64.
Definition is_i64 (z : Z) : Prop := - 2 ^ 63 <= z < 2 ^ 63.

#[export] Instance is_u32_dec z : Decision (is_u32 z).
Proof. unfold is_u32. apply _. Defined.
#[export] Instance is_u64_dec z : Decision (is_u64 z).
Proof. unfold is_u64. apply _. Defined.
#[export] Instance is_i64_dec z : Decision (is_i64 z).
Proof. unfold is_i64. apply _. Defined.

Lemma u32_id z : is_u32 z → u32 z = z.
Proof. apply Z.mod_small. Qed.
Lemma u64_id z : is_u64 z → u64 z = z.
Proof. apply Z.mod_small. Qed.
Lemma u64_range z : is_u64 (u64 z).
Proof. apply Z.mod_pos_bound. reflexivity. Qed.
Lemma i64_id z : is_i64 z → i64 z = z.
Proof. intros H. unfold i64, is_i64 in *. rewrite Z.mod_small; lia. Qed.
Lemma i64_u64 z : is_i64 z → i64 (u64 z) = z.
Proof.
  intros H. unfold i64, u64. rewrite Z.add_mod_idemp_l by lia.
  apply (i64_id z H).
Qed.

(** ** Exceptions

    A C++ function that may throw returns a [result]: the value, or the
    exception it throws.  [undefined_behaviour] is no exception a handler can
    catch: it marks an execution that the language gives no meaning to, and
    neither is [terminate]: the call of [std::terminate] for an exception that
    leaves a thread. *)
Inductive exn :=
| runtime_error (what : string)
| invalid_argument (what : string)
| system_error (operation : string)
| filesystem_error (what : string)
| undefined_behaviour (what : string)
| terminate.

#[export] Instance exn_eq_decision : EqDecision exn.
Proof. solve_decision. Defined.

Inductive result (A : Type) :=
| Ok (a : A)
| Throw (e : exn).
Arguments Ok {A} _.
Arguments Throw {A} _.

Definition bind {A B} (m : result A) (k : A → result B) : result B :=
  match m with Ok a => k a | Throw e => Throw e end.

Declare Scope cpp_scope.
Delimit Scope cpp_scope with cpp.
Notation "'let!' x ':=' m 'in' k" := (bind m (λ x, k))
  (at level 10, x pattern, m at level 100, k at level 200,
   format "'[v' 'let!'  x  ':='  m  'in' '/' k ']'") : cpp_scope.
Notation "'throw' e" := (Throw e) (at level 100) : cpp_scope.
Open Scope cpp_scope.

Lemma bind_ok {A B} (m : result A) (k : A → result B) b :
  bind m k = Ok b ↔ ∃ a, m = Ok a ∧ k a = Ok b.
Proof. destruct m; simpl; split; [eauto|intros (? & [=] & ?); congruence|done|intros (? & ? & ?); done]. Qed.

Definition is_ok {A} (m : result A) : bool :=
  match m with Ok _ => true | Throw _ => false end.

(** ** Automation

    [len_simpl] pushes [length] through the list operations and leaves the
    arithmetic to [lia]; [invert_binds] opens a hypothesis about a chain of
    calls that did not throw. *)
Create HintDb nova.
Create Rewrite HintDb nova_len.

#[export] Hint Rewrite @length_app @length_drop @length_take @length_fmap @length_nil
  @length_cons @length_insert @length_replicate @length_reverse : nova_len.

Ltac len_simpl := unfold len in *; autorewrite with nova_len in *; simpl length in *.
Ltac len_solve := len_simpl; lia.

Ltac invert_binds :=
  repeat match goal with
  | H : bind _ _ = Ok _ |- _ => apply bind_ok in H as (? & ? & ?)
  | H : Throw _ = Ok _ |- _ => discriminate H
  | H : Ok _ = Ok _ |- _ => injection H as H
  end.

(** Case analysis on the condition of the [if] that the goal is stuck on. *)
Ltac cond_case :=
  match goal with
  | |- context [if ?c then _ else _] => destruct c eqn:?
  end.

(** ** Lists *)

Lemma len_nonneg {A} (l : list A) : 0 <= len l.
Proof. unfold len. lia. Qed.
Lemma len_app {A} (l k : list A) : len (l ++ k) = len l + len k.
Proof. len_solve. Qed.
Lemma len_cons {A} (x : A) l : len (x :: l) = 1 + len l.
Proof. len_solve. Qed.
Lemma len_nil {A} : len (@nil A) = 0.
Proof. reflexivity. Qed.
#[export] Hint Resolve len_nonneg : nova.

Lemma drop_length_app {A} (l k : list A) n : n = length l → drop n (l ++ k) = k.
Proof. intros ->. apply drop_app_length. Qed.
Lemma take_length_app {A} (l k : list A) n : n = length l → take n (l ++ k) = l.
Proof. intros ->. apply take_app_length. Qed.

(** [substr(pos, count)], for a position inside the view. *)
Definition substr {A} (s : list A) (pos count : Z) : list A :=
  take (Z.to_nat count) (drop (Z.to_nat pos) s).

(** [operator[]] inside the view; the model never reads outside it. *)
Definition at_ (s : bytes) (i : Z) : byte := nth (Z.to_nat i) s Byte.x00.
