(* ===== verification/CharConv.v ===== *)
(** * Decimal conversions of the C++ standard library

    [std::to_chars] and [std::from_chars] in base ten, as the encoder, the
    parser and the command registry call them on 64-bit integers. *)

From S2P Require Import Prelude.

(** ** [std::to_chars] *)

Definition digit_char (d : Z) : byte := byte_of (48 + d).

(** The decimal digits of [z], most significant first, put before [acc]. *)
Fixpoint digits (fuel : nat) (z : Z) (acc : bytes) : bytes :=
  match fuel with
  | O => acc
  | S fuel' =>
      let acc' := digit_char (z mod 10) :: acc in
      if z / 10 =? 0 then acc' else digits fuel' (z / 10) acc'
  end.

(** A 64-bit integer has at most twenty digits. *)
Definition to_digits (z : Z) : bytes := digits 20 z [].

Definition to_chars (z : Z) : bytes :=
  if z <? 0 then "-"%byte :: to_digits (- z) else to_digits z.

(** ** [std::from_chars] *)

Definition is_digit (b : byte) : bool := (48 <=? byte_val b) && (byte_val b <=? 57).

Fixpoint digit_prefix (text : bytes) : bytes :=
  match text with
  | c :: text' => if is_digit c then c :: digit_prefix text' else []
  | [] => []
  end.

Definition digits_value (ds : bytes) : Z :=
  fold_left (λ acc d, 10 * acc + (byte_val d - 48)) ds 0.

(** [ec] and [ptr] of a [std::from_chars_result], with the value that is
    written when [ec] is zero; [ptr] counts the characters matched. *)
Inductive from_chars_result :=
| fc_ok (value : Z) (ptr : nat)
| fc_invalid_argument
| fc_result_out_of_range (ptr : nat).

(** A minus sign is part of the pattern for a signed type only. *)
Definition from_chars (signed : bool) (lo hi : Z) (text : bytes) : from_chars_result :=
  let neg := match text with c :: _ => signed && bool_decide (c = "-"%byte) | [] => false end in
  let body := if neg then tail text else text in
  let ds := digit_prefix body in
  let ptr := (length ds + if neg then 1 else 0)%nat in
  let value := if neg then - digits_value ds else digits_value ds in
  if bool_decide (ds = []) then fc_invalid_argument
  else if (lo <=? value) && (value <=? hi) then fc_ok value ptr
  else fc_result_out_of_range ptr.

Definition from_chars_i64 : bytes → from_chars_result := from_chars true (- 2 ^ 63) (2 ^ 63 - 1).

(** ** The two are inverse *)

Lemma byte_val_digit d : 0 <= d < 10 → byte_val (digit_char d) = 48 + d.
Proof. intros. unfold digit_char. rewrite byte_val_of. apply Z.mod_small. lia. Qed.

Lemma is_digit_digit d : 0 <= d < 10 → is_digit (digit_char d) = true.
Proof. intros. unfold is_digit. rewrite byte_val_digit by done. lia. Qed.

Lemma digits_value_cons_app ds rest z :
  fold_left (λ acc d, 10 * acc + (byte_val d - 48)) (ds ++ rest) z =
  fold_left (λ acc d, 10 * acc + (byte_val d - 48)) rest
    (fold_left (λ acc d, 10 * acc + (byte_val d - 48)) ds z).
Proof. apply fold_left_app. Qed.

(** Reading [digits fuel z acc] from the left reaches the value [z] before
    [acc], when there is fuel for every digit. *)
Lemma digits_read fuel z acc :
  0 <= z < 10 ^ Z.of_nat fuel →
  digits_value (digits fuel z acc) =
    fold_left (λ a d, 10 * a + (byte_val d - 48)) acc (if (0 <? Z.of_nat fuel) then z else 0).
Proof.
  revert z acc. induction fuel as [|fuel IH]; intros z acc Hz; [done|].
  replace (Z.of_nat (S fuel)) with (Z.succ (Z.of_nat fuel)) in * by lia.
  rewrite Z.pow_succ_r in Hz by lia. cbn [digits].
  replace (0 <? Z.succ (Z.of_nat fuel)) with true by lia.
  pose proof (Z.mod_pos_bound z 10 eq_refl). pose proof (Z.div_mod z 10).
  destruct (z / 10 =? 0) eqn:E.
  - unfold digits_value. simpl. f_equal. rewrite byte_val_digit by lia. lia.
  - assert (0 < z / 10 < 10 ^ Z.of_nat fuel) by nia.
    rewrite IH by lia. assert ((0 <? Z.of_nat fuel) = true) as ->.
    { destruct fuel; [simpl in *; lia|lia]. }
    simpl. f_equal. rewrite byte_val_digit by lia. lia.
Qed.

Lemma digits_are_digits fuel z acc :
  0 <= z → Forall (λ c, is_digit c = true) acc →
  Forall (λ c, is_digit c = true) (digits fuel z acc).
Proof.
  revert z acc. induction fuel as [|fuel IH]; intros z acc Hz Hacc; [done|]. simpl.
  pose proof (Z.mod_pos_bound z 10 eq_refl).
  assert (Forall (λ c, is_digit c = true) (digit_char (z mod 10) :: acc)).
  { constructor; [by apply is_digit_digit|done]. }
  cond_case; [done|]. apply IH; [|done]. apply Z.div_pos; lia.
Qed.

Lemma digits_nonempty fuel z acc : acc ≠ [] ∨ fuel ≠ O → digits fuel z acc ≠ [].
Proof.
  revert z acc. induction fuel as [|fuel IH]; intros z acc H; simpl; [naive_solver|].
  cond_case; [done|]. apply IH. by left.
Qed.

Lemma digits_length fuel z acc :
  (length (digits fuel z acc) <= length acc + fuel)%nat.
Proof.
  revert z acc. induction fuel as [|fuel IH]; intros z acc; simpl; [lia|].
  cond_case; simpl; [lia|]. etrans; [apply IH|]. simpl. lia.
Qed.

Lemma digit_prefix_all ds : Forall (λ c, is_digit c = true) ds → digit_prefix ds = ds.
Proof. induction 1 as [|c ds Hc _ IH]; simpl; [done|]. by rewrite Hc, IH. Qed.

Lemma to_digits_digits z : 0 <= z → Forall (λ c, is_digit c = true) (to_digits z).
Proof. intros. by apply digits_are_digits. Qed.

Lemma to_digits_nonempty z : to_digits z ≠ [].
Proof. apply digits_nonempty. by right. Qed.

Lemma to_digits_value z : 0 <= z < 2 ^ 64 → digits_value (to_digits z) = z.
Proof. intros H. unfold to_digits. rewrite digits_read; [done|]. simpl. lia. Qed.

(** Every character of a printed integer is a digit or the minus sign. *)
Lemma to_chars_charset z :
  Forall (λ c, is_digit c = true ∨ c = "-"%byte) (to_chars z).
Proof.
  assert (∀ y, 0 <= y → Forall (λ c, is_digit c = true ∨ c = "-"%byte) (to_digits y)) as D.
  { intros y Hy. eapply Forall_impl; [by apply to_digits_digits|]. auto. }
  unfold to_chars. cond_case; [constructor; [by right|]|]; apply D; lia.
Qed.

Lemma to_chars_nonempty z : to_chars z ≠ [].
Proof. unfold to_chars. cond_case; [done|]. apply to_digits_nonempty. Qed.

(** The first character is never the plus sign that the parsers reject. *)
Lemma to_chars_front z c rest : to_chars z = c :: rest → c ≠ "+"%byte.
Proof.
  intros E. pose proof (to_chars_charset z) as H. rewrite E in H.
  apply Forall_cons in H as [[Hd| ->] _]; [|done]. by intros ->.
Qed.

Lemma to_chars_length z : (length (to_chars z) <= 21)%nat.
Proof.
  unfold to_chars, to_digits. cond_case.
  - pose proof (digits_length 20 (- z) []) as H. cbn [length] in *. lia.
  - pose proof (digits_length 20 z []) as H. cbn [length] in *. lia.
Qed.

Lemma from_to_chars_i64 z :
  is_i64 z → from_chars_i64 (to_chars z) = fc_ok z (length (to_chars z)).
Proof.
  intros Hz. unfold is_i64 in Hz. unfold from_chars_i64, from_chars, to_chars.
  destruct (z <? 0) eqn:E.
  - rewrite (bool_decide_eq_true_2 ("-"%byte = _)) by done. cbn [andb tail length].
    rewrite digit_prefix_all by (apply to_digits_digits; lia).
    rewrite bool_decide_eq_false_2 by apply to_digits_nonempty.
    rewrite to_digits_value by lia.
    cond_case; [|lia]. f_equal; lia.
  - destruct (to_digits z) as [|c ds] eqn:Eds; [by apply to_digits_nonempty in Eds|].
    pose proof (to_digits_digits z ltac:(lia)) as Hds. rewrite Eds in Hds.
    assert (c ≠ "-"%byte) as Hc.
    { apply Forall_cons in Hds as [Hc _]. by intros ->. }
    rewrite (bool_decide_eq_false_2 (c = _)) by done. cbn [andb].
    rewrite (digit_prefix_all _ Hds), bool_decide_eq_false_2 by done.
    rewrite <- Eds, to_digits_value by lia.
    cond_case; [|lia]. f_equal; lia.
Qed.

Lemma from_chars_range signed lo hi text v n :
  from_chars signed lo hi text = fc_ok v n → lo <= v <= hi.
Proof. unfold from_chars. repeat cond_case; intros [=]; subst; lia. Qed.

Arguments to_digits : simpl never.
Arguments to_chars : simpl never.
Arguments from_chars : simpl never.
Arguments from_chars_i64 : simpl never.
