(* ===== verification/Resp.v ===== *)
(** * RESP2 values and their encoder

    [include/novacache/protocol/resp_value.hpp] and
    [src/protocol/encoder.cpp].  [wire] is the reference encoding that the
    encoder is compared with, and [line_safe] says which values have one. *)

From S2P Require Import Prelude CharConv.

(** ** Values *)

#[warnings="-register-all"]
Inductive RespValue :=
| SimpleString (value : bytes)
| Error (value : bytes)
| Integer (value : Z)
| BulkString (value : option bytes)
| Array (value : option (list RespValue)).

(** The induction principle that goes through the elements of an array. *)
Section RespValue_induction.
Context (P : RespValue → Prop).
Hypothesis HSimple : ∀ s, P (SimpleString s).
Hypothesis HError : ∀ s, P (Error s).
Hypothesis HInteger : ∀ z, P (Integer z).
Hypothesis HBulk : ∀ o, P (BulkString o).
Hypothesis HNull : P (Array None).
Hypothesis HArray : ∀ vs, Forall P vs → P (Array (Some vs)).

Fixpoint RespValue_rect' (v : RespValue) : P v :=
  match v with
  | SimpleString s => HSimple s
  | Error s => HError s
  | Integer z => HInteger z
  | BulkString o => HBulk o
  | Array None => HNull
  | Array (Some vs) =>
      HArray vs
        ((fix go (vs : list RespValue) : Forall P vs :=
            match vs with
            | [] => Forall_nil_2 P
            | v :: vs' => Forall_cons_2 P v vs' (RespValue_rect' v) (go vs')
            end) vs)
  end.
End RespValue_induction.

(** ** The encoder *)

(** Both number helpers print into a buffer of 32 characters. *)
Definition append_number (value : Z) (output : bytes) : result bytes :=
  if len (to_chars value) <=? 32 then Ok (output ++ to_chars value)
  else throw runtime_error "failed to encode RESP integer".

Definition append_size (value : Z) (output : bytes) : result bytes :=
  if len (to_chars value) <=? 32 then Ok (output ++ to_chars value)
  else throw runtime_error "failed to encode RESP length".

Definition is_line_break (c : byte) : bool := bool_decide (c = CR) || bool_decide (c = LF).

Definition append_line (prefix : byte) (value output : bytes) : result bytes :=
  if existsb is_line_break value
  then throw invalid_argument "RESP line values cannot contain CR or LF"
  else Ok (output ++ [prefix] ++ value ++ crlf).

Fixpoint append_encoded (value : RespValue) (output : bytes) : result bytes :=
  match value with
  | SimpleString simple => append_line "+" simple output
  | Error error => append_line "-" error output
  | Integer integer =>
      let! output := append_number integer (output ++ str ":") in
      Ok (output ++ crlf)
  | BulkString None => Ok (output ++ str "$-1" ++ crlf)
  | BulkString (Some bulk) =>
      let! output := append_size (len bulk) (output ++ str "$") in
      Ok (output ++ crlf ++ bulk ++ crlf)
  | Array None => Ok (output ++ str "*-1" ++ crlf)
  | Array (Some items) =>
      let! output := append_size (len items) (output ++ str "*") in
      (fix append_items (items : list RespValue) (output : bytes) : result bytes :=
         match items with
         | [] => Ok output
         | item :: items' =>
             let! output := append_encoded item output in append_items items' output
         end) items (output ++ crlf)
  end.

Definition encode (value : RespValue) : result bytes := append_encoded value [].

(** The loop over the elements, named for the proofs. *)
Fixpoint append_items (items : list RespValue) (output : bytes) : result bytes :=
  match items with
  | [] => Ok output
  | item :: items' => let! output := append_encoded item output in append_items items' output
  end.

Lemma append_encoded_array items output :
  append_encoded (Array (Some items)) output =
  let! output := append_size (len items) (output ++ str "*") in append_items items (output ++ crlf).
Proof. reflexivity. Qed.

(** ** The reference encoding *)

Fixpoint wire (v : RespValue) : bytes :=
  match v with
  | SimpleString s => str "+" ++ s ++ crlf
  | Error s => str "-" ++ s ++ crlf
  | Integer z => str ":" ++ to_chars z ++ crlf
  | BulkString None => str "$-1" ++ crlf
  | BulkString (Some s) => str "$" ++ to_chars (len s) ++ crlf ++ s ++ crlf
  | Array None => str "*-1" ++ crlf
  | Array (Some vs) => str "*" ++ to_chars (len vs) ++ crlf ++ flat_map wire vs
  end.

Definition line_free (s : bytes) : bool := negb (existsb is_line_break s).

(** No simple string or error inside the value contains a line break. *)
Fixpoint line_safe (v : RespValue) : bool :=
  match v with
  | SimpleString s | Error s => line_free s
  | Integer _ | BulkString _ | Array None => true
  | Array (Some vs) => forallb line_safe vs
  end.

(** ** What the encoder computes *)

Lemma append_number_ok z output : append_number z output = Ok (output ++ to_chars z).
Proof.
  unfold append_number, len. pose proof (to_chars_length z). cond_case; [done|lia].
Qed.

Lemma append_size_ok z output : append_size z output = Ok (output ++ to_chars z).
Proof.
  unfold append_size, len. pose proof (to_chars_length z). cond_case; [done|lia].
Qed.

Lemma append_line_spec prefix value output :
  append_line prefix value output =
  if line_free value then Ok (output ++ [prefix] ++ value ++ crlf)
  else throw invalid_argument "RESP line values cannot contain CR or LF".
Proof. unfold append_line, line_free. by destruct (existsb _ _). Qed.

(** The encoder appends the reference encoding, or throws when a line value
    inside contains a line break. *)
Lemma append_encoded_spec v output :
  append_encoded v output =
  if line_safe v then Ok (output ++ wire v)
  else throw invalid_argument "RESP line values cannot contain CR or LF".
Proof.
  revert output. induction v as [s|s|z|o| |vs IH] using RespValue_rect'; intros output.
  - apply append_line_spec.
  - apply append_line_spec.
  - simpl. rewrite append_number_ok. simpl. by rewrite <- !app_assoc.
  - destruct o as [s|]; [|done]. cbn [append_encoded]. rewrite append_size_ok. simpl.
    by rewrite <- !app_assoc.
  - done.
  - rewrite append_encoded_array, append_size_ok. cbn [bind line_safe wire].
    rewrite <- !app_assoc.
    assert (∀ out, append_items vs out =
      if forallb line_safe vs then Ok (out ++ flat_map wire vs)
      else throw invalid_argument "RESP line values cannot contain CR or LF") as ->.
    { induction IH as [|v vs Hv _ IHvs]; intros out; simpl; [by rewrite app_nil_r|].
      rewrite Hv. destruct (line_safe v); simpl; [|done].
      rewrite IHvs. by rewrite <- app_assoc. }
    by destruct (forallb _ _); rewrite <- ?app_assoc.
Qed.
