(* ===== verification/Parser.v ===== *)
(** * The incremental RESP2 parser

    [include/novacache/protocol/parser.hpp] and [src/protocol/parser.cpp].
    The recursion of [parse_value] through [parse_array] is cut by fuel, one
    unit per nested call; every nested call works on a strictly shorter
    suffix, so that one unit per byte of input is enough ([parse_value_eq]
    is the equation of the source, with no fuel in it). *)

From S2P Require Import Prelude CharConv Resp.

(** ** Data *)

Inductive ParseStatus := complete | incomplete | malformed | oversized | too_deep.

#[export] Instance ParseStatus_eq_decision : EqDecision ParseStatus.
Proof. solve_decision. Defined.

Record ParserLimits := {
  max_bulk_size : Z;
  max_array_size : Z;
  max_depth : Z;
  max_buffer_size : Z;
}.

Definition default_limits : ParserLimits := {|
  max_bulk_size := 8 * 1024 * 1024;
  max_array_size := 1024;
  max_depth := 32;
  max_buffer_size := 16 * 1024 * 1024;
|}.

Record LineResult := {
  line_status : ParseStatus;
  line_value : bytes;
  line_next : Z;
  line_message : string;
}.

Record ValueResult := {
  val_status : ParseStatus;
  val_value : option RespValue;
  val_consumed : Z;
  val_message : string;
}.

Definition line_fail (status : ParseStatus) (message : string) : LineResult :=
  {| line_status := status; line_value := []; line_next := 0; line_message := message |}.

Definition val_fail (status : ParseStatus) (message : string) : ValueResult :=
  {| val_status := status; val_value := None; val_consumed := 0; val_message := message |}.

(** The value of [return {};]. *)
Definition val_incomplete : ValueResult := val_fail incomplete "".

Definition val_complete (v : RespValue) (consumed : Z) : ValueResult :=
  {| val_status := complete; val_value := Some v; val_consumed := consumed; val_message := "" |}.

(** ** One frame *)

(** The loop of [read_line]: [rest] is the part of [input] from [index] on. *)
Fixpoint read_line_loop (input : bytes) (start index : Z) (rest : bytes) : LineResult :=
  match rest with
  | [] => line_fail incomplete ""
  | c :: rest' =>
      if bool_decide (c = LF)
      then line_fail malformed "line feed without preceding carriage return"
      else if negb (bool_decide (c = CR)) then read_line_loop input start (index + 1) rest'
      else match rest' with
           | [] => line_fail incomplete ""
           | d :: _ =>
               if negb (bool_decide (d = LF))
               then line_fail malformed "carriage return not followed by line feed"
               else {| line_status := complete;
                       line_value := substr input start (index - start);
                       line_next := index + 2;
                       line_message := "" |}
           end
  end.

Definition read_line (input : bytes) (start : Z) : LineResult :=
  read_line_loop input start start (drop (Z.to_nat start) input).

Definition parse_integer (text : bytes) : option Z :=
  match text with
  | [] => None
  | c :: _ =>
      if bool_decide (c = "+"%byte) then None
      else match from_chars_i64 text with
           | fc_ok value ptr => if bool_decide (ptr = length text) then Some value else None
           | _ => None
           end
  end.

Definition parse_line_value (input : bytes) (is_error : bool) : ValueResult :=
  let line := read_line input 1 in
  if bool_decide (line_status line ≠ complete) then val_fail (line_status line) (line_message line)
  else if is_error then val_complete (Error (line_value line)) (line_next line)
  else val_complete (SimpleString (line_value line)) (line_next line).

Definition parse_resp_integer (input : bytes) : ValueResult :=
  let line := read_line input 1 in
  if bool_decide (line_status line ≠ complete) then val_fail (line_status line) (line_message line)
  else match parse_integer (line_value line) with
       | None => val_fail malformed "invalid or overflowing integer"
       | Some value => val_complete (Integer value) (line_next line)
       end.

Definition size_max : Z := 2 ^ 64 - 1.

Definition parse_bulk (input : bytes) (limits : ParserLimits) : ValueResult :=
  let line := read_line input 1 in
  if bool_decide (line_status line ≠ complete) then val_fail (line_status line) (line_message line)
  else match parse_integer (line_value line) with
  | None => val_fail malformed "invalid or overflowing bulk length"
  | Some length =>
      if length =? -1 then val_complete (BulkString None) (line_next line)
      else if length <? 0 then val_fail malformed "illegal negative bulk length"
      else if length >? max_bulk_size limits
      then val_fail oversized "bulk string exceeds configured limit"
      else if length >? size_max
      then val_fail oversized "bulk string length is not representable"
      else if length >? len input - line_next line then val_incomplete
      else
        let payload_end := line_next line + length in
        if payload_end =? len input then val_incomplete
        else if negb (bool_decide (at_ input payload_end = CR))
        then val_fail malformed "bulk payload lacks terminating CRLF"
        else if payload_end + 1 =? len input then val_incomplete
        else if negb (bool_decide (at_ input (payload_end + 1) = LF))
        then val_fail malformed "bulk payload lacks terminating CRLF"
        else val_complete (BulkString (Some (substr input (line_next line) length)))
               (payload_end + 2)
  end.

(** [parse_array] and [parse_value] are mutually recursive; the calls of
    [parse_value] are the argument [parse]. *)
Section Recursion.
Context (parse : bytes → Z → ValueResult).

(** The element loop: [count] elements are still to be read. *)
Fixpoint parse_items (input : bytes) (depth : Z) (count : nat) (consumed : Z)
    (values : list RespValue) : ValueResult :=
  match count with
  | O => val_complete (Array (Some values)) consumed
  | S count' =>
      let item := parse (drop (Z.to_nat consumed) input) (depth + 1) in
      match val_status item, val_value item with
      | complete, Some value =>
          parse_items input depth count' (consumed + val_consumed item) (values ++ [value])
      | status, _ => val_fail status (val_message item)
      end
  end.

Definition parse_array (input : bytes) (depth : Z) (limits : ParserLimits) : ValueResult :=
  let line := read_line input 1 in
  if bool_decide (line_status line ≠ complete) then val_fail (line_status line) (line_message line)
  else match parse_integer (line_value line) with
  | None => val_fail malformed "invalid or overflowing array length"
  | Some length =>
      if length <? -1 then val_fail malformed "illegal negative array length"
      else if depth >=? max_depth limits
      then val_fail too_deep "array nesting exceeds configured limit"
      else if length =? -1 then val_complete (Array None) (line_next line)
      else if length >? max_array_size limits
      then val_fail oversized "array exceeds configured element limit"
      else if length >? size_max
      then val_fail oversized "array length is not representable"
      else parse_items input depth (Z.to_nat length) (line_next line) []
  end.

Definition parse_value_body (limits : ParserLimits) (input : bytes) (depth : Z) : ValueResult :=
  match input with
  | [] => val_incomplete
  | c :: _ =>
      if bool_decide (c = "+"%byte) then parse_line_value input false
      else if bool_decide (c = "-"%byte) then parse_line_value input true
      else if bool_decide (c = ":"%byte) then parse_resp_integer input
      else if bool_decide (c = "$"%byte) then parse_bulk input limits
      else if bool_decide (c = "*"%byte) then parse_array input depth limits
      else val_fail malformed "unknown RESP type prefix"
  end.
End Recursion.

Fixpoint parse_value_fuel (fuel : nat) (limits : ParserLimits) (input : bytes) (depth : Z)
    : ValueResult :=
  match fuel with
  | O => val_incomplete
  | S fuel' => parse_value_body (parse_value_fuel fuel' limits) limits input depth
  end.

Definition parse_value (limits : ParserLimits) (input : bytes) (depth : Z) : ValueResult :=
  parse_value_fuel (S (length input)) limits input depth.

(** ** The buffer *)

Record Parser := {
  limits_ : ParserLimits;
  buffer_ : bytes;
  buffer_oversized_ : bool;
}.

(** [Parser::limits]. *)
Definition parser_limits (p : Parser) : ParserLimits := limits_ p.

Record ParseResult := {
  result_status : ParseStatus;
  result_value : option RespValue;
  result_message : string;
}.

Definition new_parser (limits : ParserLimits) : Parser :=
  {| limits_ := limits; buffer_ := []; buffer_oversized_ := false |}.

Definition feed (p : Parser) (data : bytes) : ParseStatus * Parser :=
  if buffer_oversized_ p then (oversized, p)
  else if (len (buffer_ p) >? max_buffer_size (limits_ p)) ||
          (len data >? max_buffer_size (limits_ p) - len (buffer_ p))
  then (oversized,
        {| limits_ := limits_ p; buffer_ := buffer_ p; buffer_oversized_ := true |})
  else (incomplete,
        {| limits_ := limits_ p; buffer_ := buffer_ p ++ data; buffer_oversized_ := false |}).

Definition next (p : Parser) : ParseResult * Parser :=
  if buffer_oversized_ p
  then ({| result_status := oversized; result_value := None;
           result_message := "parser buffer exceeds configured limit" |}, p)
  else
    let result := parse_value (limits_ p) (buffer_ p) 0 in
    ({| result_status := val_status result; result_value := val_value result;
        result_message := val_message result |},
     if bool_decide (val_status result = complete)
     then {| limits_ := limits_ p;
             buffer_ := drop (Z.to_nat (val_consumed result)) (buffer_ p);
             buffer_oversized_ := buffer_oversized_ p |}
     else p).

Definition reset (p : Parser) : Parser :=
  {| limits_ := limits_ p; buffer_ := []; buffer_oversized_ := false |}.

Definition buffered_bytes (p : Parser) : Z := len (buffer_ p).

(** ** Lines *)

Lemma line_free_cons c s :
  line_free (c :: s) = negb (is_line_break c) && line_free s.
Proof. unfold line_free. simpl. by rewrite negb_orb. Qed.

Lemma not_line_break c : is_line_break c = false ↔ c ≠ CR ∧ c ≠ LF.
Proof.
  unfold is_line_break. rewrite orb_false_iff, !bool_decide_eq_false. done.
Qed.

(** The loop stops at the first line break and answers there. *)
Lemma read_line_loop_line input start l : ∀ index tl,
  line_free l = true →
  read_line_loop input start index (l ++ crlf ++ tl) =
  {| line_status := complete; line_value := substr input start (index + len l - start);
     line_next := index + len l + 2; line_message := "" |}.
Proof.
  induction l as [|c l IH]; intros index tl Hl.
  - rewrite len_nil. simpl. f_equal; [f_equal; lia|lia].
  - rewrite line_free_cons in Hl. apply andb_true_iff in Hl as [Hc Hl].
    apply negb_true_iff, not_line_break in Hc as [HCR HLF].
    cbn [app read_line_loop].
    rewrite !bool_decide_eq_false_2 by done. cbn [negb].
    rewrite IH by done. rewrite len_cons. f_equal; [f_equal; lia|lia].
Qed.

Lemma read_line_complete_inv input start rest : ∀ index,
  line_status (read_line_loop input start index rest) = complete →
  ∃ l tl, rest = l ++ crlf ++ tl ∧ line_free l = true.
Proof.
  induction rest as [|c rest IH]; intros index; cbn [read_line_loop]; [done|].
  case_bool_decide as HLF; [done|]. case_bool_decide as HCR; cbn [negb].
  - destruct rest as [|d rest]; [done|]. case_bool_decide; [|done].
    subst. intros _. by exists [], rest.
  - intros H. destruct (IH _ H) as (l & tl & -> & Hl). exists (c :: l), tl. split; [done|].
    rewrite line_free_cons, Hl, andb_true_r. apply negb_true_iff. by apply not_line_break.
Qed.

Lemma read_line_loop_app input more start rest : ∀ index,
  0 <= start <= index → index + len rest = len input →
  line_status (read_line_loop input start index rest) ≠ incomplete →
  read_line_loop (input ++ more) start index (rest ++ more) =
  read_line_loop input start index rest.
Proof.
  induction rest as [|c rest IH]; intros index Hs Hi; cbn [read_line_loop app]; [done|].
  rewrite len_cons in Hi. pose proof (len_nonneg rest).
  case_bool_decide; [done|]. case_bool_decide; cbn [negb].
  - destruct rest as [|d rest]; [done|]. cbn [app]. case_bool_decide; cbn [negb]; [|done].
    intros _. f_equal. unfold substr.
    rewrite drop_app_le, take_app_le by len_solve. done.
  - intros Hst. apply IH; [lia|lia|done].
Qed.

(** [read_line(input, 1)] after the type byte of a frame. *)
Lemma read_line_frame c l tl :
  line_free l = true →
  read_line (c :: l ++ crlf ++ tl) 1 =
  {| line_status := complete; line_value := l; line_next := len l + 3; line_message := "" |}.
Proof.
  intros Hl. unfold read_line.
  change (drop (Z.to_nat 1) (c :: l ++ crlf ++ tl)) with (l ++ crlf ++ tl).
  rewrite read_line_loop_line by done. f_equal; [|lia].
  unfold substr. change (drop (Z.to_nat 1) (c :: l ++ crlf ++ tl)) with (l ++ crlf ++ tl).
  apply take_length_app. len_solve.
Qed.

Lemma read_line_frame_inv c input :
  line_status (read_line (c :: input) 1) = complete →
  ∃ l tl, input = l ++ crlf ++ tl ∧ line_free l = true.
Proof. intros H. by eapply read_line_complete_inv in H. Qed.

Lemma read_line_frame_app c input more :
  line_status (read_line (c :: input) 1) ≠ incomplete →
  read_line ((c :: input) ++ more) 1 = read_line (c :: input) 1.
Proof.
  intros H. unfold read_line in *.
  change (drop (Z.to_nat 1) (c :: input)) with input in *.
  change (drop (Z.to_nat 1) ((c :: input) ++ more)) with (input ++ more).
  apply read_line_loop_app; [lia|by rewrite len_cons|done].
Qed.

Lemma parse_integer_to_chars z : is_i64 z → parse_integer (to_chars z) = Some z.
Proof.
  intros Hz. unfold parse_integer.
  destruct (to_chars z) as [|c cs] eqn:E; [by apply to_chars_nonempty in E|].
  rewrite bool_decide_eq_false_2 by (by eapply to_chars_front).
  rewrite <- E, from_to_chars_i64, bool_decide_eq_true_2 by done. done.
Qed.

Lemma parse_integer_range text z : parse_integer text = Some z → is_i64 z.
Proof.
  unfold parse_integer. destruct text as [|c text]; [done|]. case_bool_decide; [done|].
  destruct (from_chars_i64 _) as [v n| |] eqn:E; [|done|done].
  case_bool_decide; [|done]. intros [= ->].
  apply from_chars_range in E. unfold is_i64. lia.
Qed.

Lemma to_chars_line_free z : line_free (to_chars z) = true.
Proof.
  unfold line_free. apply negb_true_iff. apply not_true_is_false.
  rewrite existsb_exists. intros (c & Hin & Hc).
  pose proof (to_chars_charset z) as HF. rewrite List.Forall_forall in HF.
  apply HF in Hin. unfold is_line_break in Hc.
  apply orb_true_iff in Hc as [Hc|Hc]; apply bool_decide_eq_true in Hc; subst c; naive_solver.
Qed.
