(* ===== verification/ParserCorrect.v ===== *)
(** * Correctness of the RESP2 parser

    Bounds and termination of [parse_value], its stability when more bytes
    arrive, the round trip with the encoder, and the independence of the
    decoded sequence from the way the input is cut into reads. *)

From S2P Require Import Prelude CharConv Resp Parser.

(** ** Bounds *)

(** A complete result carries a value and consumes a non-empty part of the input. *)
Definition good (input : bytes) (r : ValueResult) : Prop :=
  val_status r = complete → is_Some (val_value r) ∧ 0 < val_consumed r <= len input.

Lemma good_fail input st msg : st ≠ complete → good input (val_fail st msg).
Proof. by intros ? ?. Qed.

Lemma good_complete input v n : 0 < n <= len input → good input (val_complete v n).
Proof. intros ? _. split; [by eexists|done]. Qed.
#[export] Hint Resolve good_fail good_complete : nova.

(** What a complete header line says about the frame it opens. *)
Lemma header_cases c input :
  line_status (read_line (c :: input) 1) ≠ complete ∨
  ∃ l tl, input = l ++ crlf ++ tl ∧ line_free l = true ∧
    read_line (c :: input) 1 =
    {| line_status := complete; line_value := l; line_next := len l + 3; line_message := "" |}.
Proof.
  destruct (decide (line_status (read_line (c :: input) 1) = complete)) as [H|H]; [right|by left].
  destruct (read_line_frame_inv _ _ H) as (l & tl & -> & Hl).
  exists l, tl. split_and!; [done|done|by apply read_line_frame].
Qed.

(** Case analysis on the header line of a frame: its failure, or its content. *)
Ltac header_case :=
  match goal with
  | |- context [read_line (?c :: ?input) 1] =>
      destruct (header_cases c input) as [?Hst|(?l & ?tl & -> & ?Hl & ->)];
      [rewrite (bool_decide_eq_true_2 (_ ≠ complete)) by done
      |cbn [line_status line_value line_next line_message];
       rewrite (bool_decide_eq_false_2 (_ ≠ complete)) by (intros Hne; by apply Hne)]
  end.

Lemma frame_len c l tl : len (c :: l ++ crlf ++ tl) = len l + 3 + len tl.
Proof. unfold crlf. len_solve. Qed.

Lemma parse_line_value_good c input e : good (c :: input) (parse_line_value (c :: input) e).
Proof.
  unfold parse_line_value. header_case; [auto with nova|].
  pose proof (len_nonneg l). pose proof (len_nonneg tl).
  destruct e; apply good_complete; rewrite frame_len; lia.
Qed.

Lemma parse_resp_integer_good c input : good (c :: input) (parse_resp_integer (c :: input)).
Proof.
  unfold parse_resp_integer. header_case; [auto with nova|].
  pose proof (len_nonneg l). pose proof (len_nonneg tl).
  destruct (parse_integer _); [apply good_complete; rewrite frame_len; lia|auto with nova].
Qed.

Lemma parse_bulk_good c input limits : good (c :: input) (parse_bulk (c :: input) limits).
Proof.
  unfold parse_bulk. header_case; [auto with nova|].
  pose proof (len_nonneg l). pose proof (len_nonneg tl). rewrite frame_len.
  destruct (parse_integer _) as [n|]; [|auto with nova].
  repeat cond_case; try (by auto with nova); apply good_complete; rewrite frame_len; lia.
Qed.

Section Items.
Context (parse : bytes → Z → ValueResult).

Lemma parse_items_good input depth count : ∀ consumed values,
  (∀ i d, (length i < length input)%nat → good i (parse i d)) →
  0 < consumed <= len input →
  good input (parse_items parse input depth count consumed values).
Proof.
  induction count as [|count IH]; intros consumed values Hgood Hc; cbn [parse_items].
  - by apply good_complete.
  - assert (length (drop (Z.to_nat consumed) input) < length input)%nat as Hlt by len_solve.
    specialize (Hgood _ (depth + 1) Hlt) as Hitem.
    destruct (val_status (parse _ _)) eqn:Est; [|by apply good_fail..].
    destruct (Hitem Est) as [[v ->] Hn]. apply IH; [done|].
    revert Hn. len_solve.
Qed.

Lemma parse_array_good c input depth limits :
  (∀ i d, (length i < length (c :: input))%nat → good i (parse i d)) →
  good (c :: input) (parse_array parse (c :: input) depth limits).
Proof.
  intros Hgood. unfold parse_array. header_case; [auto with nova|].
  pose proof (len_nonneg l). pose proof (len_nonneg tl).
  destruct (parse_integer _) as [n|]; [|auto with nova].
  repeat cond_case; try (by auto with nova).
  - apply good_complete. rewrite frame_len. lia.
  - apply parse_items_good; [done|]. rewrite frame_len. lia.
Qed.

Lemma parse_value_body_good limits input depth :
  (∀ i d, (length i < length input)%nat → good i (parse i d)) →
  good input (parse_value_body parse limits input depth).
Proof.
  intros Hgood. destruct input as [|c input]; [by apply good_fail|].
  cbn [parse_value_body]. repeat case_bool_decide;
    auto using parse_line_value_good, parse_resp_integer_good, parse_bulk_good,
      parse_array_good, good_fail.
Qed.
End Items.

Lemma parse_value_fuel_good limits fuel : ∀ input depth,
  good input (parse_value_fuel fuel limits input depth).
Proof.
  induction fuel as [|fuel IH]; intros input depth; [by apply good_fail|].
  apply parse_value_body_good. auto.
Qed.

Lemma parse_value_good limits input depth : good input (parse_value limits input depth).
Proof. apply parse_value_fuel_good. Qed.

(** ** Termination: the fuel is never the reason for a result *)

Lemma parse_items_ext p1 p2 input depth count : ∀ consumed values,
  (∀ i d, (length i < length input)%nat → p1 i d = p2 i d ∧ good i (p1 i d)) →
  0 < consumed <= len input →
  parse_items p1 input depth count consumed values =
  parse_items p2 input depth count consumed values.
Proof.
  induction count as [|count IH]; intros consumed values Heq Hc; cbn [parse_items]; [done|].
  assert (length (drop (Z.to_nat consumed) input) < length input)%nat as Hlt by len_solve.
  destruct (Heq _ (depth + 1) Hlt) as [<- Hitem].
  destruct (val_status (p1 _ _)) eqn:Est; [|done..].
  destruct (Hitem Est) as [[v ->] Hn]. apply IH; [done|]. revert Hn. len_solve.
Qed.

Lemma parse_value_body_ext p1 p2 limits input depth :
  (∀ i d, (length i < length input)%nat → p1 i d = p2 i d ∧ good i (p1 i d)) →
  parse_value_body p1 limits input depth = parse_value_body p2 limits input depth.
Proof.
  intros Heq. destruct input as [|c input]; [done|]. cbn [parse_value_body].
  repeat (case_bool_decide; [done|]). case_bool_decide; [|done].
  unfold parse_array. header_case; [done|].
  pose proof (len_nonneg l). pose proof (len_nonneg tl).
  destruct (parse_integer _); [|done]. repeat cond_case; try done.
  apply parse_items_ext; [done|]. rewrite frame_len. lia.
Qed.

Lemma parse_value_fuel_enough limits n : ∀ m input depth,
  (length input < n)%nat → (length input < m)%nat →
  parse_value_fuel n limits input depth = parse_value_fuel m limits input depth.
Proof.
  induction n as [|n IH]; intros m input depth Hn Hm; [lia|]. destruct m as [|m]; [lia|].
  apply parse_value_body_ext. intros i d Hi. split; [apply IH; lia|apply parse_value_fuel_good].
Qed.

(** The recursive equation of the source: [parse_value] calls itself. *)
Lemma parse_value_eq limits input depth :
  parse_value limits input depth = parse_value_body (parse_value limits) limits input depth.
Proof.
  unfold parse_value at 1. cbn [parse_value_fuel]. apply parse_value_body_ext.
  intros i d Hi. split; [|apply parse_value_fuel_good].
  apply parse_value_fuel_enough; lia.
Qed.

(** ** Stability: a verdict does not change when more bytes arrive *)

Lemma at_app_l (s more : bytes) i : 0 <= i < len s → at_ (s ++ more) i = at_ s i.
Proof. intros Hi. unfold at_. apply app_nth1. len_solve. Qed.

Lemma at_app_r (s more : bytes) i : 0 <= i → at_ (s ++ more) (len s + i) = at_ more i.
Proof.
  intros Hi. unfold at_. replace (Z.to_nat (len s + i)) with (length s + Z.to_nat i)%nat by len_solve.
  apply app_nth2_plus.
Qed.

Lemma substr_app_r (s more : bytes) n : substr (s ++ more) (len s) n = substr more 0 n.
Proof. unfold substr. rewrite drop_length_app by len_solve. done. Qed.

Lemma substr_app_l (s more : bytes) pos n :
  0 <= pos → 0 <= n → pos + n <= len s → substr (s ++ more) pos n = substr s pos n.
Proof. intros. unfold substr. rewrite drop_app_le, take_app_le by len_solve. done. Qed.

(** Opens a frame whose verdict is not [incomplete], before and after the
    arrival of more bytes. *)
Ltac header_app_case :=
  match goal with
  | |- context [read_line ((?c :: ?input) ++ ?more) 1] =>
      destruct (decide (line_status (read_line (c :: input) 1) = incomplete)) as [?E|?E];
      [ match goal with H : _ ≠ incomplete |- _ => exfalso; apply H end;
        rewrite (bool_decide_eq_true_2 (_ ≠ complete)) by (by rewrite E); exact E
      | rewrite (read_line_frame_app c input more E); clear E ]
  end.

Lemma parse_line_value_app c input more e :
  val_status (parse_line_value (c :: input) e) ≠ incomplete →
  parse_line_value ((c :: input) ++ more) e = parse_line_value (c :: input) e.
Proof. unfold parse_line_value. intros H. by header_app_case. Qed.

Lemma parse_resp_integer_app c input more :
  val_status (parse_resp_integer (c :: input)) ≠ incomplete →
  parse_resp_integer ((c :: input) ++ more) = parse_resp_integer (c :: input).
Proof. unfold parse_resp_integer. intros H. by header_app_case. Qed.

Lemma parse_bulk_app c input more limits :
  val_status (parse_bulk (c :: input) limits) ≠ incomplete →
  parse_bulk ((c :: input) ++ more) limits = parse_bulk (c :: input) limits.
Proof.
  unfold parse_bulk. intros H. header_app_case. revert H. header_case; [done|].
  rewrite len_app, frame_len.
  pose proof (len_nonneg l). pose proof (len_nonneg tl). pose proof (len_nonneg more).
  destruct (parse_integer _) as [n|]; [|done].
  destruct (n =? -1); [done|]. destruct (n <? 0) eqn:?; [done|].
  destruct (n >? max_bulk_size limits); [done|]. destruct (n >? size_max); [done|].
  destruct (n >? len l + 3 + len tl - (len l + 3)) eqn:?; [done|].
  destruct (len l + 3 + n =? len l + 3 + len tl) eqn:?; [done|].
  replace (n >? _) with false by lia.
  replace (len l + 3 + n =? len l + 3 + len tl + len more) with false by lia.
  rewrite at_app_l by (rewrite frame_len; lia).
  destruct (bool_decide (at_ _ (len l + 3 + n) = CR)); cbn [negb]; [|done].
  destruct (len l + 3 + n + 1 =? len l + 3 + len tl) eqn:?; [done|].
  replace (len l + 3 + n + 1 =? _) with false by lia.
  rewrite at_app_l by (rewrite frame_len; lia).
  rewrite substr_app_l by (rewrite ?frame_len; lia). done.
Qed.

Section ItemsApp.
Context (parse : bytes → Z → ValueResult) (more : bytes).

(** What the element loop needs from the nested calls. *)
Definition stable_below (n : nat) : Prop := ∀ i d, (length i < n)%nat →
  good i (parse i d) ∧
  (val_status (parse i d) ≠ incomplete → parse (i ++ more) d = parse i d).

Lemma parse_items_app input depth count : ∀ consumed values,
  stable_below (length input) →
  0 < consumed <= len input →
  val_status (parse_items parse input depth count consumed values) ≠ incomplete →
  parse_items parse (input ++ more) depth count consumed values =
  parse_items parse input depth count consumed values.
Proof.
  induction count as [|count IH]; intros consumed values Hs Hc; cbn [parse_items]; [done|].
  assert (length (drop (Z.to_nat consumed) input) < length input)%nat as Hlt by len_solve.
  destruct (Hs _ (depth + 1) Hlt) as [Hitem Happ].
  rewrite drop_app_le by len_solve. intros Hst.
  destruct (decide (val_status (parse (drop (Z.to_nat consumed) input) (depth + 1)) = incomplete))
    as [E|E]; [by rewrite E in Hst|].
  rewrite Happ by done. destruct (val_status _) eqn:Est; try done.
  destruct (Hitem Est) as [[v Hv] Hn]. rewrite Hv in *. apply IH; [done| |done].
  revert Hn. len_solve.
Qed.

Lemma parse_value_body_app limits input depth :
  stable_below (length input) →
  val_status (parse_value_body parse limits input depth) ≠ incomplete →
  parse_value_body parse limits (input ++ more) depth =
  parse_value_body parse limits input depth.
Proof.
  intros Hs. destruct input as [|c input]; [done|].
  change (parse_value_body parse limits ((c :: input) ++ more) depth) with
    (parse_value_body parse limits (c :: (input ++ more)) depth).
  cbn [parse_value_body].
  change (c :: input ++ more) with ((c :: input) ++ more).
  repeat (case_bool_decide;
    [auto using parse_line_value_app, parse_resp_integer_app, parse_bulk_app|]);
    [|done].
  unfold parse_array. intros Hst. header_app_case. revert Hst. header_case; [done|].
  pose proof (len_nonneg l). pose proof (len_nonneg tl).
  destruct (parse_integer _) as [n|]; [|done]. repeat (cond_case; [done|]).
  apply parse_items_app; [done|]. rewrite frame_len. lia.
Qed.
End ItemsApp.

Lemma parse_value_stable limits more n : ∀ input depth,
  (length input < n)%nat →
  val_status (parse_value limits input depth) ≠ incomplete →
  parse_value limits (input ++ more) depth = parse_value limits input depth.
Proof.
  induction n as [|n IH]; intros input depth Hn; [lia|]. rewrite !parse_value_eq.
  apply parse_value_body_app. intros i d Hi. split; [apply parse_value_good|]. apply IH. lia.
Qed.

Lemma parse_value_app limits input more depth :
  val_status (parse_value limits input depth) ≠ incomplete →
  parse_value limits (input ++ more) depth = parse_value limits input depth.
Proof. apply (parse_value_stable _ _ (S (length input))). lia. Qed.

(** ** Round trip with the encoder *)

(** The values a parser with these limits accepts at nesting [depth]. *)
Fixpoint fits (limits : ParserLimits) (depth : Z) (v : RespValue) : bool :=
  match v with
  | SimpleString s | Error s => line_free s
  | Integer z => bool_decide (is_i64 z)
  | BulkString None => true
  | BulkString (Some s) => (len s <=? max_bulk_size limits) && (len s <? 2 ^ 63)
  | Array None => depth <? max_depth limits
  | Array (Some vs) =>
      (depth <? max_depth limits) && (len vs <=? max_array_size limits) && (len vs <? 2 ^ 63) &&
      forallb (fits limits (depth + 1)) vs
  end.

Lemma len_is_i64 {A} (l : list A) : len l < 2 ^ 63 → is_i64 (len l).
Proof. pose proof (len_nonneg l). unfold is_i64. lia. Qed.

Lemma parse_bulk_wire limits s rest :
  len s <= max_bulk_size limits → len s < 2 ^ 63 →
  parse_bulk ("$"%byte :: to_chars (len s) ++ crlf ++ s ++ crlf ++ rest) limits =
  val_complete (BulkString (Some s)) (len (to_chars (len s)) + 3 + len s + 2).
Proof.
  intros Hm Hi. pose proof (len_nonneg s). pose proof (len_nonneg rest).
  unfold parse_bulk. rewrite read_line_frame by apply to_chars_line_free.
  cbn [line_status line_value line_next].
  rewrite (bool_decide_eq_false_2 (_ ≠ complete)) by (intros Hne; by apply Hne).
  rewrite parse_integer_to_chars by (by apply len_is_i64).
  set (pre := "$"%byte :: to_chars (len s) ++ crlf).
  assert (len (to_chars (len s)) + 3 = len pre) as -> by (unfold pre, crlf; len_solve).
  replace ("$"%byte :: _ ++ _) with (pre ++ s ++ crlf ++ rest)
    by (unfold pre; simpl; by rewrite <- !app_assoc).
  assert (∀ i, 0 <= i → at_ (pre ++ s ++ crlf ++ rest) (len pre + len s + i) = at_ (crlf ++ rest) i)
    as Hat.
  { intros i ?. rewrite <- Z.add_assoc, !at_app_r by lia. done. }
  pose proof (Hat 0 ltac:(lia)) as Hat0. rewrite Z.add_0_r in Hat0. rewrite Hat0, (Hat 1) by lia.
  rewrite substr_app_r, substr_app_l by lia. unfold substr at 1. rewrite take_ge by len_solve.
  change (bool_decide (at_ (crlf ++ rest) 0 = CR)) with true.
  change (bool_decide (at_ (crlf ++ rest) 1 = LF)) with true.
  rewrite !len_app. change (len crlf) with 2. unfold size_max.
  repeat (cond_case; [lia|]). done.
Qed.

(** Opens a frame that starts with a known line. *)
Ltac known_header :=
  rewrite read_line_frame by first [apply to_chars_line_free | done];
  cbn [line_status line_value line_next];
  rewrite (bool_decide_eq_false_2 (_ ≠ complete)) by (intros Hne; by apply Hne).

Lemma parse_items_wire limits input depth rest vs : ∀ consumed acc,
  Forall (λ v, ∀ rest, parse_value limits (wire v ++ rest) (depth + 1) =
                       val_complete v (len (wire v))) vs →
  0 <= consumed <= len input →
  drop (Z.to_nat consumed) input = flat_map wire vs ++ rest →
  parse_items (parse_value limits) input depth (length vs) consumed acc =
  val_complete (Array (Some (acc ++ vs))) (consumed + len (flat_map wire vs)).
Proof.
  induction vs as [|v vs IH]; intros consumed acc Hvs Hc Hdrop; cbn [length parse_items flat_map].
  - rewrite app_nil_r. f_equal. change (len []) with 0. lia.
  - cbn [flat_map] in Hdrop. rewrite <- app_assoc in Hdrop. rewrite Hdrop.
    apply Forall_cons in Hvs as [-> Hvs]. cbn [val_status val_value val_consumed val_complete].
    pose proof (len_nonneg (wire v)) as Hw.
    assert (len (wire v) + consumed <= len input).
    { apply (f_equal len) in Hdrop. revert Hdrop. rewrite !len_app.
      pose proof (len_nonneg (flat_map wire vs)). pose proof (len_nonneg rest). len_solve. }
    rewrite IH.
    + rewrite <- app_assoc, len_app. f_equal. lia.
    + done.
    + lia.
    + replace (Z.to_nat (consumed + len (wire v))) with (Z.to_nat consumed + length (wire v))%nat
        by len_solve.
      rewrite <- drop_drop, Hdrop. apply drop_length_app. done.
Qed.

Lemma parse_value_wire limits v : ∀ depth rest,
  fits limits depth v = true →
  parse_value limits (wire v ++ rest) depth = val_complete v (len (wire v)).
Proof.
  induction v as [s|s|z|o| |vs IH] using RespValue_rect'; intros depth rest Hf;
    rewrite parse_value_eq; cbn [fits] in Hf.
  - cbn [wire]. rewrite <- !app_assoc.
    change (parse_line_value ("+"%byte :: s ++ crlf ++ rest) false = val_complete (SimpleString s)
      (len ("+"%byte :: s ++ crlf))).
    unfold parse_line_value. known_header. f_equal. unfold crlf. len_solve.
  - cbn [wire]. rewrite <- !app_assoc.
    change (parse_line_value ("-"%byte :: s ++ crlf ++ rest) true = val_complete (Error s)
      (len ("-"%byte :: s ++ crlf))).
    unfold parse_line_value. known_header. f_equal. unfold crlf. len_solve.
  - apply bool_decide_eq_true in Hf. cbn [wire]. rewrite <- !app_assoc.
    change (parse_resp_integer (":"%byte :: to_chars z ++ crlf ++ rest) = val_complete (Integer z)
      (len (":"%byte :: to_chars z ++ crlf))).
    unfold parse_resp_integer. known_header. rewrite parse_integer_to_chars by done.
    f_equal. unfold crlf. len_solve.
  - destruct o as [s|].
    + cbn [wire]. rewrite <- !app_assoc.
      change (parse_bulk ("$"%byte :: to_chars (len s) ++ crlf ++ s ++ crlf ++ rest) limits =
        val_complete (BulkString (Some s)) (len ("$"%byte :: to_chars (len s) ++ crlf ++ s ++ crlf))).
      rewrite parse_bulk_wire by lia. f_equal. unfold crlf. len_solve.
    + change (parse_bulk ("$"%byte :: str "-1" ++ crlf ++ rest) limits =
        val_complete (BulkString None) 5).
      unfold parse_bulk. by known_header.
  - change (parse_array (parse_value limits) ("*"%byte :: str "-1" ++ crlf ++ rest) depth limits =
      val_complete (Array None) 5).
    unfold parse_array. known_header. change (parse_integer (str "-1")) with (Some (-1)).
    cbn match. cond_case; [lia|]. cond_case; [lia|]. done.
  - repeat (apply andb_true_iff in Hf as [Hf ?]).
    cbn [wire]. rewrite <- !app_assoc.
    change (parse_array (parse_value limits)
        ("*"%byte :: to_chars (len vs) ++ crlf ++ flat_map wire vs ++ rest) depth limits =
      val_complete (Array (Some vs))
        (len ("*"%byte :: to_chars (len vs) ++ crlf ++ flat_map wire vs))).
    unfold parse_array. known_header.
    pose proof (len_nonneg vs).
    rewrite parse_integer_to_chars by (apply len_is_i64; lia).
    unfold size_max. repeat (cond_case; [lia|]).
    replace (Z.to_nat (len vs)) with (length vs) by len_solve.
    rewrite (parse_items_wire _ _ _ rest).
    + f_equal. unfold crlf. len_solve.
    + rewrite List.Forall_forall in IH |- *. intros v Hv rest'. apply IH; [done|].
      rewrite forallb_forall in *. auto.
    + pose proof (len_nonneg (to_chars (len vs))). unfold crlf. len_solve.
    + rewrite !app_comm_cons, (app_assoc (_ :: _)). apply drop_length_app. unfold crlf. len_solve.
Qed.

(** ** Decoding a byte stream *)

(** Takes frames off the front of [buf] until the parser stops: the values, the
    status it stopped with and the bytes it left. *)
Fixpoint decode_fuel (fuel : nat) (limits : ParserLimits) (buf : bytes)
    : list RespValue * ParseStatus * bytes :=
  match fuel with
  | O => ([], incomplete, buf)
  | S fuel' =>
      let r := parse_value limits buf 0 in
      match val_status r, val_value r with
      | complete, Some v =>
          let '(vs, st, rest) := decode_fuel fuel' limits (drop (Z.to_nat (val_consumed r)) buf) in
          (v :: vs, st, rest)
      | st, _ => ([], st, buf)
      end
  end.

Definition decode (limits : ParserLimits) (buf : bytes) : list RespValue * ParseStatus * bytes :=
  decode_fuel (S (length buf)) limits buf.

Lemma decode_fuel_enough limits n : ∀ m buf,
  (length buf < n)%nat → (length buf < m)%nat →
  decode_fuel n limits buf = decode_fuel m limits buf.
Proof.
  induction n as [|n IH]; intros m buf Hn Hm; [lia|]. destruct m as [|m]; [lia|].
  cbn [decode_fuel]. pose proof (parse_value_good limits buf 0) as Hg.
  destruct (val_status _) eqn:Est; [|done..]. destruct (Hg Est) as [[v ->] Hc].
  rewrite (IH m); [done|len_solve..].
Qed.

Lemma decode_eq limits buf :
  decode limits buf =
  let r := parse_value limits buf 0 in
  match val_status r, val_value r with
  | complete, Some v =>
      let '(vs, st, rest) := decode limits (drop (Z.to_nat (val_consumed r)) buf) in
      (v :: vs, st, rest)
  | st, _ => ([], st, buf)
  end.
Proof.
  unfold decode at 1. cbn [decode_fuel]. pose proof (parse_value_good limits buf 0) as Hg.
  destruct (val_status _) eqn:Est; [|done..]. destruct (Hg Est) as [[v ->] Hc].
  unfold decode. rewrite (decode_fuel_enough _ _ (S (length (drop (Z.to_nat
    (val_consumed (parse_value limits buf 0))) buf)))); [done|len_solve..].
Qed.

Lemma decode_app_fuel limits more n : ∀ buf,
  (length buf < n)%nat →
  decode limits (buf ++ more) =
  let '(vs, st, rest) := decode limits buf in
  if bool_decide (st = incomplete)
  then let '(ws, st', rest') := decode limits (rest ++ more) in (vs ++ ws, st', rest')
  else (vs, st, rest ++ more).
Proof.
  induction n as [|n IH]; intros buf Hn; [lia|].
  rewrite (decode_eq limits buf). cbn zeta.
  destruct (decide (val_status (parse_value limits buf 0) = incomplete)) as [E|E].
  { rewrite E. rewrite bool_decide_eq_true_2 by done.
    by destruct (decode limits (buf ++ more)) as [[??]?]. }
  rewrite decode_eq. cbn zeta. rewrite (parse_value_app _ _ _ _ E).
  pose proof (parse_value_good limits buf 0) as Hg.
  destruct (val_status _) eqn:Est; [|done|by rewrite bool_decide_eq_false_2..].
  destruct (Hg Est) as [[v ->] Hc].
  rewrite drop_app_le by len_solve. rewrite IH by len_solve.
  destruct (decode limits (drop _ buf)) as [[vs st] rest].
  case_bool_decide; [|done]. by destruct (decode limits (rest ++ more)) as [[??]?].
Qed.

Lemma decode_app limits buf more :
  decode limits (buf ++ more) =
  let '(vs, st, rest) := decode limits buf in
  if bool_decide (st = incomplete)
  then let '(ws, st', rest') := decode limits (rest ++ more) in (vs ++ ws, st', rest')
  else (vs, st, rest ++ more).
Proof. apply (decode_app_fuel _ _ (S (length buf))). lia. Qed.

(** What is left after an [incomplete] verdict holds no frame. *)
Lemma decode_rest_fuel limits n : ∀ buf vs rest,
  (length buf < n)%nat → decode limits buf = (vs, incomplete, rest) →
  decode limits rest = ([], incomplete, rest) ∧ (length rest <= length buf)%nat.
Proof.
  induction n as [|n IH]; intros buf vs rest Hn; [lia|]. rewrite decode_eq. cbn zeta.
  pose proof (parse_value_good limits buf 0) as Hg.
  destruct (val_status (parse_value limits buf 0)) eqn:Est; try done.
  - destruct (Hg Est) as [[v ->] Hc].
    destruct (decode limits (drop _ buf)) as [[ws st] rest'] eqn:E. intros [= <- -> ->].
    apply IH in E as [E Hl]; [|len_solve]. split; [done|]. len_solve.
  - intros [= <- <-]. split; [|done]. rewrite decode_eq. cbn zeta. by rewrite Est.
Qed.

Lemma decode_rest limits buf vs rest :
  decode limits buf = (vs, incomplete, rest) →
  decode limits rest = ([], incomplete, rest) ∧ (length rest <= length buf)%nat.
Proof. apply (decode_rest_fuel _ (S (length buf))). lia. Qed.

(** The encodings of several values, one after the other, decode to them. *)
Lemma decode_wires limits vs rest :
  forallb (fits limits 0) vs = true →
  decode limits (flat_map wire vs ++ rest) =
  let '(ws, st, rest') := decode limits rest in (vs ++ ws, st, rest').
Proof.
  induction vs as [|v vs IH]; intros Hf; cbn [flat_map app].
  - by destruct (decode limits rest) as [[??]?].
  - cbn [forallb] in Hf. apply andb_true_iff in Hf as [Hv Hvs].
    rewrite <- app_assoc, decode_eq. cbn zeta. rewrite parse_value_wire by done.
    cbn [val_complete val_status val_value val_consumed].
    rewrite drop_length_app by len_solve. rewrite IH by done.
    by destruct (decode limits rest) as [[??]?].
Qed.

(** *** The parser object, fed by a socket *)

(** The loop of [Server::queue_parsed_commands] on the parser: [next] until it
    does not complete a frame. *)
Fixpoint drain (fuel : nat) (p : Parser) : list RespValue * ParseStatus * Parser :=
  match fuel with
  | O => ([], incomplete, p)
  | S fuel' =>
      let '(r, p') := next p in
      match result_status r, result_value r with
      | complete, Some v => let '(vs, st, q) := drain fuel' p' in (v :: vs, st, q)
      | st, _ => ([], st, p')
      end
  end.

(** One [feed] per read, each followed by the loop above, until a failure. *)
Fixpoint receive (p : Parser) (chunks : list bytes) : list RespValue * ParseStatus * Parser :=
  match chunks with
  | [] => ([], incomplete, p)
  | chunk :: chunks' =>
      let '(fed, p1) := feed p chunk in
      if bool_decide (fed ≠ incomplete) then ([], fed, p1)
      else
        let '(vs, st, p2) := drain (S (length (buffer_ p1))) p1 in
        if bool_decide (st ≠ incomplete) then (vs, st, p2)
        else let '(ws, st', p3) := receive p2 chunks' in (vs ++ ws, st', p3)
  end.

Definition parser_with (limits : ParserLimits) (buf : bytes) : Parser :=
  {| limits_ := limits; buffer_ := buf; buffer_oversized_ := false |}.

Lemma drain_decode limits fuel : ∀ buf,
  drain fuel (parser_with limits buf) =
  let '(vs, st, rest) := decode_fuel fuel limits buf in (vs, st, parser_with limits rest).
Proof.
  induction fuel as [|fuel IH]; intros buf; [done|]. cbn [drain decode_fuel].
  unfold next. cbn [buffer_oversized_ parser_with limits_ buffer_].
  pose proof (parse_value_good limits buf 0) as Hg.
  destruct (val_status _) eqn:Est; cbn [result_status result_value].
  - destruct (Hg Est) as [[v ->] Hc]. rewrite bool_decide_eq_true_2 by done.
    change {| limits_ := limits; buffer_ := ?b; buffer_oversized_ := false |} with
      (parser_with limits b).
    rewrite IH. by destruct (decode_fuel _ _ _) as [[??]?].
  - done.
  - done.
  - done.
  - done.
Qed.

Lemma receive_decode limits chunks : ∀ buf vs st p,
  decode limits buf = ([], incomplete, buf) →
  len buf + len (concat chunks) <= max_buffer_size limits →
  receive (parser_with limits buf) chunks = (vs, st, p) →
  ∃ rest, decode limits (buf ++ concat chunks) = (vs, st, rest) ∧
          (st = incomplete → p = parser_with limits rest).
Proof.
  induction chunks as [|chunk chunks IH]; intros buf vs st p Hbuf Hlen; cbn [receive concat].
  - intros [= <- <- <-]. rewrite app_nil_r. eauto.
  - cbn [concat] in Hlen. rewrite len_app in Hlen.
    pose proof (len_nonneg buf). pose proof (len_nonneg chunk).
    pose proof (len_nonneg (concat chunks)).
    unfold feed. cbn [buffer_oversized_ parser_with limits_ buffer_].
    cond_case; [lia|]. rewrite bool_decide_eq_false_2 by naive_solver.
    cbn [buffer_].
    change {| limits_ := limits; buffer_ := ?b; buffer_oversized_ := false |} with
      (parser_with limits b).
    rewrite drain_decode. fold (decode limits (buf ++ chunk)).
    rewrite app_assoc, (decode_app limits (buf ++ chunk)).
    destruct (decode limits (buf ++ chunk)) as [[us st1] rest1] eqn:E1.
    destruct (decide (st1 = incomplete)) as [->|Hst].
    + rewrite bool_decide_eq_false_2 by naive_solver. rewrite bool_decide_eq_true_2 by done.
      destruct (receive (parser_with limits rest1) chunks) as [[ws st2] p2] eqn:E2.
      intros [= <- <- <-]. apply decode_rest in E1 as [Hr Hl].
      apply IH in E2 as (rest & E2 & Hp); [|done|len_solve].
      rewrite E2. eauto.
    + rewrite bool_decide_eq_true_2 by done. intros [= <- <- <-].
      rewrite bool_decide_eq_false_2 by done. naive_solver.
Qed.

(** ** Limits are enforced *)

Lemma len_substr (s : bytes) pos n :
  0 <= pos → 0 <= n → pos + n <= len s → len (substr s pos n) = n.
Proof. intros. unfold substr. len_solve. Qed.

(** A complete result holds a value the limits allow. *)
Definition within (limits : ParserLimits) (depth : Z) (r : ValueResult) : Prop :=
  ∀ v, val_status r = complete → val_value r = Some v → fits limits depth v = true.

Lemma within_fail limits depth st msg : within limits depth (val_fail st msg).
Proof. by intros v _ [=]. Qed.
Lemma within_complete limits depth v n :
  fits limits depth v = true → within limits depth (val_complete v n).
Proof. by intros ? ? _ [= <-]. Qed.
#[export] Hint Resolve within_fail within_complete : nova.

Lemma parse_bulk_within limits depth c input :
  within limits depth (parse_bulk (c :: input) limits).
Proof.
  unfold parse_bulk. header_case; [auto with nova|].
  pose proof (len_nonneg l). pose proof (len_nonneg tl).
  destruct (parse_integer _) as [n|] eqn:En; [|auto with nova].
  apply parse_integer_range in En. unfold is_i64 in En. rewrite frame_len.
  repeat cond_case; try (by auto with nova). apply within_complete. cbn [fits].
  rewrite len_substr; [lia|lia|lia|rewrite frame_len; lia].
Qed.

Lemma parse_items_within limits parse input depth count : ∀ consumed values,
  (∀ i, within limits (depth + 1) (parse i (depth + 1))) →
  depth < max_depth limits →
  len values + Z.of_nat count <= max_array_size limits →
  len values + Z.of_nat count < 2 ^ 63 →
  forallb (fits limits (depth + 1)) values = true →
  within limits depth (parse_items parse input depth count consumed values).
Proof.
  induction count as [|count IH]; intros consumed values Hp Hd Hm Hi Hv; cbn [parse_items].
  - apply within_complete. cbn [fits]. rewrite Hv. lia.
  - destruct (val_status _) eqn:Est; [|auto with nova..].
    destruct (val_value _) as [v|] eqn:Ev; [|auto with nova].
    pose proof (Hp _ v Est Ev) as Hfit. pose proof (len_app values [v]) as Hl.
    change (len [v]) with 1 in Hl. apply IH; [done|done|lia|lia|].
    rewrite forallb_app. cbn [forallb]. by rewrite Hv, Hfit.
Qed.

Lemma parse_value_body_within limits parse input depth :
  (∀ i d, within limits d (parse i d)) →
  within limits depth (parse_value_body parse limits input depth).
Proof.
  intros Hp. destruct input as [|c input]; [apply within_fail|]. cbn [parse_value_body].
  repeat case_bool_decide; auto using parse_bulk_within with nova.
  - unfold parse_line_value. header_case; auto with nova.
  - unfold parse_line_value. header_case; auto with nova.
  - unfold parse_resp_integer. header_case; [auto with nova|].
    destruct (parse_integer _) as [n|] eqn:En; [|auto with nova]. apply within_complete.
    apply bool_decide_eq_true. by eapply parse_integer_range.
  - unfold parse_array. header_case; [auto with nova|].
    destruct (parse_integer _) as [n|] eqn:En; [|auto with nova].
    apply parse_integer_range in En. unfold is_i64 in En.
    repeat cond_case; try (by auto with nova).
    + apply within_complete. cbn [fits]. lia.
    + apply parse_items_within; [done|lia|rewrite len_nil; lia|rewrite len_nil; lia|done].
Qed.

Lemma parse_value_within limits input depth :
  within limits depth (parse_value limits input depth).
Proof.
  unfold parse_value. generalize (S (length input)) as fuel. intros fuel.
  revert input depth. induction fuel as [|fuel IH]; intros input depth; [apply within_fail|].
  by apply parse_value_body_within.
Qed.

(** ** The properties *)

(** C7. Round trip: whatever the encoder prints for a value that respects the
    parser's limits, the parser reads back as that value, consuming exactly the
    printed bytes, whatever follows them in the buffer. *)
Theorem parse_encode_roundtrip limits depth v e rest :
  encode v = Ok e → fits limits depth v = true →
  parse_value limits (e ++ rest) depth = val_complete v (len e).
Proof.
  unfold encode. rewrite append_encoded_spec. destruct (line_safe v); [|done].
  intros [= <-] Hf. by apply parse_value_wire.
Qed.

Definition demo_request : RespValue :=
  Array (Some [BulkString (Some (str "SET")); BulkString (Some (str "demo"));
               BulkString (Some (str "value"))]).

Lemma parse_encode_roundtrip_witness :
  ∃ e, encode demo_request = Ok e ∧
    parse_value default_limits (e ++ str "*1") 0 = val_complete demo_request (len e).
Proof.
  eexists. split; [vm_compute; reflexivity|].
  apply parse_encode_roundtrip; vm_compute; reflexivity.
Defined.

(** Fragmentation: a pipeline of encoded requests, cut into reads in any
    way, is decoded into exactly those requests in wire order, and leaves an
    empty buffer. *)
Theorem pipelined_stream_decodes limits vs es chunks :
  Forall2 (λ v e, encode v = Ok e ∧ fits limits 0 v = true) vs es →
  concat chunks = concat es → len (concat es) <= max_buffer_size limits →
  receive (new_parser limits) chunks = (vs, incomplete, new_parser limits).
Proof.
  intros Hes Hc Hl.
  assert (concat es = flat_map wire vs ∧ forallb (fits limits 0) vs = true) as [Hw Hf].
  { clear Hc Hl. induction Hes as [|v e vs es [He Hv] _ [IHc IH]]; [done|].
    cbn [concat flat_map forallb]. rewrite IHc, IH.
    unfold encode in He. rewrite append_encoded_spec in He.
    destruct (line_safe v); [|done]. injection He as <-. by rewrite Hv. }
  destruct (receive (new_parser limits) chunks) as [[ws st] p] eqn:E.
  apply (receive_decode limits chunks []) in E as (rest & E & Hp); [|done|by rewrite Hc].
  rewrite Hc, Hw in E. cbn [app] in E. rewrite <- (app_nil_r (flat_map _ _)) in E.
  rewrite decode_wires in E by done. cbn in E. rewrite app_nil_r in E.
  injection E as -> <- <-. by rewrite Hp.
Qed.

Lemma pipelined_stream_decodes_witness :
  receive (new_parser default_limits)
    [str "*1" ++ [CR]; [LF] ++ str "$4" ++ crlf ++ str "PI"; str "NG" ++ crlf ++ str "*-"; str "1" ++ crlf]
  = ([Array (Some [BulkString (Some (str "PING"))]); Array None], incomplete,
     new_parser default_limits).
Proof.
  apply (pipelined_stream_decodes default_limits _
    [str "*1" ++ crlf ++ str "$4" ++ crlf ++ str "PING" ++ crlf; str "*-1" ++ crlf]).
  - repeat constructor.
  - reflexivity.
  - vm_compute. discriminate.
Defined.

(** C9. Chunking independence: two ways of cutting one byte stream into reads give
    the same values and the same final status, for malformed streams and streams
    with an oversized part as well, when the whole stream is no longer than
    [max_buffer_size]. (A longer one may be rejected by [feed] when it arrives in
    one piece and accepted in several.) *)
Theorem receive_chunking_independent limits chunks1 chunks2 :
  concat chunks1 = concat chunks2 → len (concat chunks1) <= max_buffer_size limits →
  fst (receive (new_parser limits) chunks1) = fst (receive (new_parser limits) chunks2).
Proof.
  intros Hc Hl.
  destruct (receive (new_parser limits) chunks1) as [[vs st] p] eqn:E1.
  destruct (receive (new_parser limits) chunks2) as [[ws st'] p'] eqn:E2.
  apply (receive_decode limits chunks1 []) in E1 as (rest & E1 & _); [|done|done].
  apply (receive_decode limits chunks2 []) in E2 as (rest' & E2 & _); [|done|by rewrite <- Hc].
  rewrite Hc in E1. rewrite E1 in E2. simpl. congruence.
Qed.

Lemma receive_chunking_independent_witness :
  fst (receive (new_parser default_limits) [str "+OK" ++ crlf ++ str "?"]) =
  fst (receive (new_parser default_limits) [str "+O"; str "K" ++ [CR]; [LF]; str "?"]).
Proof.
  apply receive_chunking_independent; [reflexivity|]. vm_compute. discriminate.
Defined.

(** Stability: once the parser has a verdict other than [incomplete] on a
    buffer, the verdict, the value, the number of bytes consumed and the
    message stay the same however many bytes are appended. *)
Theorem parse_verdict_stable limits input more depth :
  val_status (parse_value limits input depth) ≠ incomplete →
  parse_value limits (input ++ more) depth = parse_value limits input depth.
Proof. apply parse_value_app. Qed.

Lemma parse_verdict_stable_witness :
  parse_value default_limits (str "$x" ++ crlf ++ str "+OK") 0 =
  val_fail malformed "invalid or overflowing bulk length".
Proof.
  rewrite app_assoc. rewrite (parse_verdict_stable default_limits (str "$x" ++ crlf));
    [vm_compute; reflexivity|vm_compute; discriminate].
Defined.

(** A frame that has not arrived completely is never rejected nor accepted:
    every proper prefix of an encoding is [incomplete]. *)
Theorem parse_prefix_incomplete limits depth v e pre suf :
  encode v = Ok e → fits limits depth v = true → e = pre ++ suf → suf ≠ [] →
  val_status (parse_value limits pre depth) = incomplete.
Proof.
  intros He Hf -> Hsuf.
  destruct (decide (val_status (parse_value limits pre depth) = incomplete)) as [|Hne]; [done|].
  exfalso. apply parse_value_app with (more := suf) in Hne as Happ.
  unfold encode in He. rewrite append_encoded_spec in He.
  destruct (line_safe v); [|done]. injection He as He. cbn [app] in He.
  pose proof (parse_value_wire limits v depth [] Hf) as Hw. rewrite app_nil_r, He in Hw.
  rewrite Hw in Happ. pose proof (parse_value_good limits pre depth) as Hg. rewrite <- Happ in Hg.
  destruct (Hg eq_refl) as [_ Hc]. cbn [val_consumed val_complete] in Hc. rewrite len_app in Hc.
  destruct suf; [done|]. rewrite len_cons in Hc. pose proof (len_nonneg suf). lia.
Qed.

Lemma parse_prefix_incomplete_witness :
  val_status (parse_value default_limits (str "*3" ++ crlf ++ str "$3" ++ crlf ++ str "SE") 0)
  = incomplete.
Proof.
  apply (parse_prefix_incomplete default_limits 0 demo_request
    (wire demo_request) _ (drop 10 (wire demo_request)));
    [reflexivity|vm_compute; reflexivity|reflexivity|vm_compute; discriminate].
Defined.

(** C38. Limits and bounds: a value the parser completes respects every
    configured limit (bulk size, element count, nesting depth, 64-bit
    integers, no line break in a line), and consumes at least one byte and no
    more than the buffer holds. *)
Theorem parse_respects_limits limits input depth :
  val_status (parse_value limits input depth) = complete →
  ∃ v, val_value (parse_value limits input depth) = Some v ∧ fits limits depth v = true ∧
       0 < val_consumed (parse_value limits input depth) <= len input.
Proof.
  intros Hst. destruct (parse_value_good limits input depth Hst) as [[v Hv] Hc].
  exists v. split_and!; [done| |lia|lia]. by eapply parse_value_within.
Qed.

Lemma parse_respects_limits_witness :
  ∃ v, val_value (parse_value default_limits (str ":42" ++ crlf) 0) = Some v ∧
       fits default_limits 0 v = true ∧
       0 < val_consumed (parse_value default_limits (str ":42" ++ crlf) 0) <= len (str ":42" ++ crlf).
Proof. apply parse_respects_limits. vm_compute. reflexivity. Defined.

(** Termination: the fuel of the model is never what ends a parse; the
    function satisfies the mutually recursive equation of the source, in which
    [parse_array] calls [parse_value] itself on every element. *)
Theorem parse_value_recursive_equation limits input depth :
  parse_value limits input depth = parse_value_body (parse_value limits) limits input depth.
Proof. apply parse_value_eq. Qed.

(** The encoder prints the reference encoding of every value whose simple
    strings and errors are free of line breaks, and throws
    [std::invalid_argument] on every other value. *)
Theorem encode_spec v :
  encode v = if line_safe v then Ok (wire v)
             else throw invalid_argument "RESP line values cannot contain CR or LF".
Proof. apply append_encoded_spec. Qed.
