(* ===== verification/Binary.v ===== *)
(** * The little-endian binary format

    [include/novacache/persistence/binary.hpp].  A writer appends to its
    output; a reader takes the bytes it needs off the front of a view, or
    throws when they are missing.  [Codec] is what a writer/reader pair
    promises to the WAL and the snapshot formats that are built from it. *)

From S2P Require Import Prelude.

(** ** Writers *)

Definition low_byte (value shift : Z) : byte := byte_of (Z.land (Z.shiftr value shift) 0xff).

Definition append_u8 (out : bytes) (value : Z) : bytes := out ++ [byte_of value].

Definition append_u16 (out : bytes) (value : Z) : bytes :=
  out ++ [low_byte value 0; low_byte value 8].

Definition append_u32 (out : bytes) (value : Z) : bytes :=
  out ++ [low_byte value 0; low_byte value 8; low_byte value 16; low_byte value 24].

Definition append_u64 (out : bytes) (value : Z) : bytes :=
  out ++ [low_byte value 0; low_byte value 8; low_byte value 16; low_byte value 24;
          low_byte value 32; low_byte value 40; low_byte value 48; low_byte value 56].

(** A negative number is converted to [std::uint64_t] first. *)
Definition append_i64 (out : bytes) (value : Z) : bytes := append_u64 out (u64 value).

Definition append_bytes (out : bytes) (value : bytes) : bytes :=
  append_u32 out (u32 (len value)) ++ value.

(** ** Readers *)

Definition byte_at (input : bytes) (i shift : Z) : Z := Z.shiftl (byte_val (at_ input i)) shift.

Definition read_u8 (input : bytes) : result (Z * bytes) :=
  if len input <? 1 then throw runtime_error "truncated input while reading u8"
  else Ok (byte_val (at_ input 0), drop 1 input).

Definition read_u16 (input : bytes) : result (Z * bytes) :=
  if len input <? 2 then throw runtime_error "truncated input while reading u16"
  else Ok (u16 (Z.lor (byte_at input 0 0) (byte_at input 1 8)), drop 2 input).

Definition read_u32 (input : bytes) : result (Z * bytes) :=
  if len input <? 4 then throw runtime_error "truncated input while reading u32"
  else Ok (Z.lor (Z.lor (Z.lor (byte_at input 0 0) (byte_at input 1 8)) (byte_at input 2 16))
             (byte_at input 3 24),
           drop 4 input).

(** The loop over [index], which is eight times unrolled by evaluation. *)
Fixpoint read_u64_loop (input : bytes) (index : Z) (todo : nat) (value : Z) : Z :=
  match todo with
  | O => value
  | S todo' => read_u64_loop input (index + 1) todo' (Z.lor value (byte_at input index (8 * index)))
  end.

Definition read_u64 (input : bytes) : result (Z * bytes) :=
  if len input <? 8 then throw runtime_error "truncated input while reading u64"
  else Ok (read_u64_loop input 0 8 0, drop 8 input).

Definition read_i64 (input : bytes) : result (Z * bytes) :=
  let! (value, input) := read_u64 input in Ok (i64 value, input).

Definition read_bytes (input : bytes) : result (bytes * bytes) :=
  let! (length, input) := read_u32 input in
  if len input <? length then throw runtime_error "truncated input while reading bytes"
  else Ok (substr input 0 length, drop (Z.to_nat length) input).

(** A loop that reads [count] items with [read] and collects them in order. *)
Fixpoint read_many {A} (read : bytes → result (A * bytes)) (count : nat) (input : bytes)
    : result (list A * bytes) :=
  match count with
  | O => Ok ([], input)
  | S count' =>
      let! (item, input) := read input in
      let! (items, input) := read_many read count' input in
      Ok (item :: items, input)
  end.

(** ** The contract of a writer/reader pair

    Reading what was written gives the value back and leaves the view at the
    byte after it. *)
Class Codec {A} (put : bytes → A → bytes) (get : bytes → result (A * bytes)) (valid : A → Prop) := {
  put_appends out a : put out a = out ++ put [] a;
  get_put a rest : valid a → get (put [] a ++ rest) = Ok (a, rest);
}.

(** *** Bytes of an integer *)

Fixpoint le_bytes (n : nat) (v : Z) : bytes :=
  match n with
  | O => []
  | S n' => byte_of v :: le_bytes n' (v / 256)
  end.

Fixpoint le_value (l : bytes) : Z :=
  match l with
  | [] => 0
  | b :: l' => byte_val b + 256 * le_value l'
  end.

Lemma le_value_bytes n : ∀ v, le_value (le_bytes n v) = v mod 256 ^ Z.of_nat n.
Proof.
  induction n as [|n IH]; intros v; [by rewrite Z.mod_1_r|].
  cbn [le_bytes le_value]. rewrite IH, byte_val_of.
  rewrite Nat2Z.inj_succ, Z.pow_succ_r by lia.
  rewrite Z.rem_mul_r by lia. done.
Qed.

Lemma low_byte_div v s : 0 <= s → low_byte v s = byte_of (v / 2 ^ s).
Proof.
  intros Hs. unfold low_byte. apply (inj byte_val). rewrite !byte_val_of.
  rewrite Z.shiftr_div_pow2 by lia. change 255 with (Z.ones 8). rewrite Z.land_ones by lia.
  change (2 ^ 8) with 256. by rewrite Z.mod_mod.
Qed.

Lemma lor_shiftl_add k a b : 0 <= k → 0 <= a < 2 ^ k → Z.lor a (Z.shiftl b k) = a + 2 ^ k * b.
Proof.
  intros Hk Ha. pose proof (Z.add_lor_land a (Z.shiftl b k)) as Hadd.
  assert (Z.land a (Z.shiftl b k) = 0) as Hland.
  { apply Z.bits_inj'. intros i Hi. rewrite Z.land_spec, Z.bits_0.
    destruct (decide (i < k)); [rewrite Z.shiftl_spec_low by lia; apply andb_false_r|].
    assert (Z.testbit a i = false) as ->; [|done].
    destruct (decide (a = 0)) as [->|]; [apply Z.bits_0|].
    apply Z.bits_above_log2; [lia|]. apply Z.lt_le_trans with k; [|lia].
    apply Z.log2_lt_pow2; lia. }
  rewrite Hland, Z.shiftl_mul_pow2 in Hadd by lia. rewrite Z.shiftl_mul_pow2 by lia. lia.
Qed.

Lemma append_u16_le out v : append_u16 out v = out ++ le_bytes 2 v.
Proof. unfold append_u16. rewrite !low_byte_div by lia. by rewrite Z.div_1_r. Qed.

Lemma append_u32_le out v : append_u32 out v = out ++ le_bytes 4 v.
Proof.
  unfold append_u32. rewrite !low_byte_div by lia. cbn [le_bytes].
  rewrite Z.div_1_r, !Z.div_div by lia. done.
Qed.

Lemma append_u64_le out v : append_u64 out v = out ++ le_bytes 8 v.
Proof.
  unfold append_u64. rewrite !low_byte_div by lia. cbn [le_bytes].
  rewrite Z.div_1_r, !Z.div_div by lia. done.
Qed.

(** Replaces every byte of the view by its value, with its range. *)
Ltac byte_ranges :=
  repeat match goal with
  | |- context [byte_val ?b] =>
      let v := fresh "v" in let H := fresh "H" in
      pose proof (byte_val_range b) as H; set (v := byte_val b) in *; clearbody v
  end.

Lemma read_u16_le b0 b1 rest : read_u16 (b0 :: b1 :: rest) = Ok (le_value [b0; b1], rest).
Proof.
  unfold read_u16. cond_case; [len_solve|]. do 2 f_equal.
  unfold byte_at. cbn [le_value].
  change (at_ _ 0) with b0. change (at_ _ 1) with b1. byte_ranges.
  rewrite Z.shiftl_0_r, lor_shiftl_add by lia.
  unfold u16. rewrite Z.mod_small; [lia|]. change (2 ^ 16) with 65536. lia.
Qed.

Lemma read_u32_le b0 b1 b2 b3 rest :
  read_u32 (b0 :: b1 :: b2 :: b3 :: rest) = Ok (le_value [b0; b1; b2; b3], rest).
Proof.
  unfold read_u32. cond_case; [len_solve|]. do 2 f_equal.
  unfold byte_at. cbn [le_value].
  change (at_ _ 0) with b0. change (at_ _ 1) with b1. change (at_ _ 2) with b2.
  change (at_ _ 3) with b3. byte_ranges.
  rewrite Z.shiftl_0_r, (lor_shiftl_add 8), (lor_shiftl_add 16), (lor_shiftl_add 24) by lia. lia.
Qed.

Lemma read_u64_loop_le input l : ∀ index value,
  0 <= index → 0 <= value < 2 ^ (8 * index) →
  (∀ i b, l !! i = Some b → at_ input (index + Z.of_nat i) = b) →
  read_u64_loop input index (length l) value = value + 2 ^ (8 * index) * le_value l.
Proof.
  induction l as [|b l IH]; intros index value Hi Hv Hl; cbn [length read_u64_loop le_value]; [lia|].
  assert (at_ input index = b) as Hb by (rewrite <- (Hl O b eq_refl); f_equal; lia).
  unfold byte_at. rewrite Hb, lor_shiftl_add by lia. pose proof (byte_val_range b).
  assert (2 ^ (8 * (index + 1)) = 2 ^ (8 * index) * 256) as Hpow.
  { replace (8 * (index + 1)) with (8 * index + 8) by lia. by rewrite Z.pow_add_r by lia. }
  rewrite IH; [rewrite Hpow; lia|lia|nia|].
  intros i b' Hb'. rewrite <- (Hl (S i) b' Hb'). f_equal. lia.
Qed.

Lemma read_u64_le l rest :
  length l = 8%nat → read_u64 (l ++ rest) = Ok (le_value l, rest).
Proof.
  intros Hl. unfold read_u64. cond_case; [len_solve|]. do 2 f_equal.
  - rewrite <- Hl, (read_u64_loop_le _ l 0 0); [lia|lia|lia|].
    intros i b Hb. unfold at_. rewrite Z.add_0_l, Nat2Z.id.
    apply lookup_app_l_Some with (l2 := rest) in Hb. by apply nth_lookup_Some.
  - by apply drop_length_app.
Qed.

Lemma length_le_bytes n : ∀ v, length (le_bytes n v) = n.
Proof. induction n; intros v; simpl; congruence. Qed.
#[export] Hint Rewrite length_le_bytes : nova_len.

(** A reader that returns has read the bytes its writer would write. *)
Lemma le_value_range l : 0 <= le_value l < 256 ^ Z.of_nat (length l).
Proof.
  induction l as [|b l IH]; [done|]. cbn [le_value length]. pose proof (byte_val_range b).
  rewrite Nat2Z.inj_succ, Z.pow_succ_r by lia. nia.
Qed.

Lemma le_bytes_value l : le_bytes (length l) (le_value l) = l.
Proof.
  induction l as [|b l IH]; [done|]. cbn [le_value length le_bytes]. pose proof (byte_val_range b).
  f_equal.
  - apply (inj byte_val). rewrite byte_val_of. rewrite Z.mul_comm, Z.mod_add by lia.
    apply Z.mod_small. lia.
  - rewrite Z.mul_comm, Z.div_add by lia. rewrite Z.div_small by lia. done.
Qed.

Lemma read_u16_inv input v rest :
  read_u16 input = Ok (v, rest) → input = append_u16 [] v ++ rest ∧ 0 <= v < 2 ^ 16.
Proof.
  destruct input as [|b0 [|b1 input]]; [done..|]. rewrite read_u16_le. intros [= <- <-].
  rewrite append_u16_le. pose proof (le_value_range [b0; b1]). pose proof (le_bytes_value [b0; b1]) as Hb.
  cbn [le_value length] in H, Hb. by rewrite Hb.
Qed.

Lemma read_u32_inv input v rest :
  read_u32 input = Ok (v, rest) → input = append_u32 [] v ++ rest ∧ is_u32 v.
Proof.
  destruct input as [|b0 [|b1 [|b2 [|b3 input]]]]; [done..|]. rewrite read_u32_le. intros [= <- <-].
  rewrite append_u32_le. pose proof (le_value_range [b0; b1; b2; b3]). pose proof (le_bytes_value [b0; b1; b2; b3]) as Hb.
  cbn [le_value length] in H, Hb. by rewrite Hb.
Qed.

Lemma u32_of_bytes l : length l = 4%nat → ∃ v, l = append_u32 [] v ∧ is_u32 v.
Proof.
  intros Hl. exists (le_value l). rewrite append_u32_le, <- Hl. pose proof (le_value_range l) as Hr.
  rewrite Hl in Hr. by rewrite le_bytes_value.
Qed.

Lemma read_u64_inv input v rest :
  read_u64 input = Ok (v, rest) → input = append_u64 [] v ++ rest ∧ is_u64 v.
Proof.
  intros E. assert (8 <= len input) as Hl by (unfold read_u64 in E; destruct (len input <? 8) eqn:?; [done|lia]).
  rewrite <- (take_drop 8 input) in E |- *.
  assert (length (take 8 input) = 8%nat) as H8 by len_solve.
  rewrite read_u64_le in E by done. injection E as <- <-.
  pose proof (le_value_range (take 8 input)) as Hr. pose proof (le_bytes_value (take 8 input)) as Hb.
  rewrite H8 in Hr, Hb. rewrite append_u64_le, Hb. done.
Qed.

(** *** Instances *)

#[export] Instance u8_codec : Codec append_u8 read_u8 (λ v, 0 <= v < 256).
Proof.
  split; [done|]. intros v rest Hv. unfold append_u8, read_u8. cond_case; [len_solve|].
  change (at_ _ 0) with (byte_of v). rewrite byte_val_of, Z.mod_small by lia. done.
Qed.

#[export] Instance u16_codec : Codec append_u16 read_u16 (λ v, 0 <= v < 2 ^ 16).
Proof.
  split; [done|]. intros v rest Hv. rewrite append_u16_le. cbn [app le_bytes].
  rewrite read_u16_le. change [_; _] with (le_bytes 2 v).
  rewrite le_value_bytes, Z.mod_small; [done|]. simpl. lia.
Qed.

#[export] Instance u32_codec : Codec append_u32 read_u32 is_u32.
Proof.
  split; [done|]. intros v rest Hv. rewrite append_u32_le. cbn [app le_bytes].
  rewrite read_u32_le. change [_; _; _; _] with (le_bytes 4 v).
  rewrite le_value_bytes, Z.mod_small; [done|]. apply Hv.
Qed.

#[export] Instance u64_codec : Codec append_u64 read_u64 is_u64.
Proof.
  split; [done|]. intros v rest Hv. rewrite append_u64_le. cbn [app].
  rewrite read_u64_le by apply length_le_bytes. rewrite le_value_bytes, Z.mod_small; [done|]. apply Hv.
Qed.

#[export] Instance i64_codec : Codec append_i64 read_i64 is_i64.
Proof.
  split; [done|]. intros v rest Hv. unfold append_i64, read_i64.
  rewrite get_put by apply u64_range. cbn [bind]. by rewrite i64_u64.
Qed.

#[export] Instance bytes_codec : Codec append_bytes read_bytes (λ s, len s < 2 ^ 32).
Proof.
  split.
  - intros out s. unfold append_bytes. rewrite (put_appends (put := append_u32) out). by rewrite app_assoc.
  - intros s rest Hs. pose proof (len_nonneg s).
    assert (is_u32 (len s)) as Hu by (unfold is_u32; lia).
    unfold append_bytes, read_bytes. rewrite u32_id, <- app_assoc, get_put by done. cbn [bind].
    pose proof (len_nonneg rest).
    cond_case; [rewrite len_app in *; lia|]. unfold substr. change (drop (Z.to_nat 0) ?l) with l.
    rewrite take_length_app, drop_length_app by len_solve. done.
Qed.

Section Many.
Context {A} (put : bytes → A → bytes) (get : bytes → result (A * bytes)) (valid : A → Prop).
Context `{!Codec put get valid}.

(** A loop that appends its items one after the other is read back by
    [read_many]. *)
Lemma put_many items : ∀ out, fold_left put items out = out ++ fold_left put items [].
Proof.
  induction items as [|a items IH]; intros out; simpl; [by rewrite app_nil_r|].
  rewrite (IH (put out a)), (IH (put [] a)), (put_appends (put := put) out a). by rewrite app_assoc.
Qed.

Lemma read_many_put items : ∀ rest,
  Forall valid items →
  read_many get (length items) (fold_left put items [] ++ rest) = Ok (items, rest).
Proof.
  induction items as [|a items IH]; intros rest Hv; [done|]. cbn [length read_many fold_left].
  apply Forall_cons in Hv as [Ha Hv].
  rewrite put_many, <- app_assoc, get_put by done. cbn [bind]. by rewrite IH.
Qed.
End Many.
