(* ===== verification/Crc32.v ===== *)
(** * CRC-32

    [src/persistence/crc32.cpp]: the table-driven IEEE CRC-32, compared with
    the bit-at-a-time definition, and what it detects. *)

From S2P Require Import Prelude.

(** ** The table *)

(** The body of the inner loop over the bits. *)
Definition crc_bit (crc : Z) : Z :=
  if negb (Z.land crc 1 =? 0) then Z.lxor 0xEDB88320 (Z.shiftr crc 1) else Z.shiftr crc 1.

Definition crc_entry (index : Z) : Z := Nat.iter 8 crc_bit index.

Definition crc_table : list Z := map (λ i, crc_entry (Z.of_nat i)) (seq 0 256).

(** ** The checksum *)

(** [~crc] on a [std::uint32_t]. *)
Definition not32 (crc : Z) : Z := Z.lxor crc 0xFFFFFFFF.

Definition crc_step (crc : Z) (b : byte) : Z :=
  let index := Z.land (Z.lxor crc (byte_val b)) 0xff in
  Z.lxor (nth (Z.to_nat index) crc_table 0) (Z.shiftr crc 8).

Definition crc32_update (crc : Z) (data : bytes) : Z :=
  not32 (fold_left crc_step data (not32 crc)).

Definition crc32 (data : bytes) : Z := crc32_update 0 data.

(** ** The reference: one bit at a time, no table *)

Definition crc_step_bitwise (crc : Z) (b : byte) : Z := Nat.iter 8 crc_bit (Z.lxor crc (byte_val b)).

Definition crc32_bitwise (data : bytes) : Z :=
  not32 (fold_left crc_step_bitwise data (not32 0)).

(** ** Linearity *)

Lemma crc_bit_testbit a :
  crc_bit a = Z.lxor (if Z.testbit a 0 then 0xEDB88320 else 0) (Z.shiftr a 1).
Proof.
  unfold crc_bit. assert (Z.land a 1 = Z.b2z (Z.testbit a 0)) as ->.
  { change 1 with (Z.ones 1) at 1. rewrite Z.land_ones by lia. rewrite Z.bit0_mod. done. }
  by destruct (Z.testbit a 0).
Qed.

Lemma lxor_shuffle a b c d : Z.lxor (Z.lxor a b) (Z.lxor c d) = Z.lxor (Z.lxor a c) (Z.lxor b d).
Proof.
  rewrite !Z.lxor_assoc. f_equal. rewrite <- !Z.lxor_assoc. f_equal. apply Z.lxor_comm.
Qed.

Lemma crc_bit_lxor a b : crc_bit (Z.lxor a b) = Z.lxor (crc_bit a) (crc_bit b).
Proof.
  rewrite !crc_bit_testbit, Z.shiftr_lxor, Z.lxor_spec, lxor_shuffle. f_equal.
  by destruct (Z.testbit a 0), (Z.testbit b 0).
Qed.

Lemma crc_bits_lxor n a b :
  Nat.iter n crc_bit (Z.lxor a b) = Z.lxor (Nat.iter n crc_bit a) (Nat.iter n crc_bit b).
Proof. induction n as [|n IH]; [done|]. simpl. by rewrite IH, crc_bit_lxor. Qed.

(** Bits that are shifted out as zeros leave only the shift. *)
Lemma crc_bits_shiftl n a : Nat.iter n crc_bit (Z.shiftl a (Z.of_nat n)) = a.
Proof.
  induction n as [|n IH]; [by rewrite Z.shiftl_0_r|].
  rewrite Nat.iter_succ_r. rewrite crc_bit_testbit.
  rewrite Z.shiftl_spec_low by lia. rewrite Z.lxor_0_l.
  rewrite Z.shiftr_shiftl_l by lia. replace (Z.of_nat (S n) - 1) with (Z.of_nat n) by lia. done.
Qed.

Lemma split_low_byte x : x = Z.lxor (Z.land x 0xff) (Z.shiftl (Z.shiftr x 8) 8).
Proof.
  apply Z.bits_inj'. intros i Hi. change 0xff with (Z.ones 8).
  rewrite Z.lxor_spec, Z.land_spec, Z.shiftl_spec by lia.
  destruct (decide (i < 8)).
  - rewrite Z.ones_spec_low, (Z.testbit_neg_r _ (i - 8)) by lia. by rewrite andb_true_r, xorb_false_r.
  - rewrite Z.ones_spec_high by lia. rewrite Z.shiftr_spec by lia.
    rewrite andb_false_r, xorb_false_l. f_equal. lia.
Qed.

Lemma low_byte_range x : 0 <= Z.land x 0xff < 256.
Proof. change 0xff with (Z.ones 8). rewrite Z.land_ones by lia. apply Z.mod_pos_bound. lia. Qed.

Lemma crc_table_nth i : 0 <= i < 256 → nth (Z.to_nat i) crc_table 0 = crc_entry i.
Proof.
  intros Hi. unfold crc_table.
  rewrite (nth_indep _ 0 (crc_entry (Z.of_nat 0))).
  - rewrite (map_nth (λ i, crc_entry (Z.of_nat i)) _ 0%nat), seq_nth by lia. f_equal. lia.
  - rewrite length_map, length_seq. lia.
Qed.

Lemma byte_shiftr8 b : Z.shiftr (byte_val b) 8 = 0.
Proof. rewrite Z.shiftr_div_pow2 by lia. apply Z.div_small, byte_val_range. Qed.

(** One table lookup does eight steps of the bitwise loop. *)
Lemma crc_step_is_bitwise crc b : crc_step crc b = crc_step_bitwise crc b.
Proof.
  unfold crc_step, crc_step_bitwise. rewrite crc_table_nth by apply low_byte_range.
  rewrite (split_low_byte (Z.lxor crc (byte_val b))) at 2.
  rewrite crc_bits_lxor. change 8 with (Z.of_nat 8) at 2. rewrite crc_bits_shiftl.
  rewrite Z.shiftr_lxor, byte_shiftr8, Z.lxor_0_r. done.
Qed.

(** ** Ranges *)

Lemma lxor_range a b n : 0 <= n → 0 <= a < 2 ^ n → 0 <= b < 2 ^ n → 0 <= Z.lxor a b < 2 ^ n.
Proof.
  intros Hn Ha Hb. split; [apply Z.lxor_nonneg; lia|].
  destruct (decide (Z.lxor a b = 0)) as [->|]; [lia|].
  assert (0 <= Z.lxor a b) by (apply Z.lxor_nonneg; lia).
  apply Z.log2_lt_pow2; [lia|].
  assert (∀ x, 0 <= x < 2 ^ n → 0 < n → Z.log2 x < n) as Hlog.
  { intros x Hx Hn'. destruct (decide (x = 0)) as [->|]; [done|]. apply Z.log2_lt_pow2; lia. }
  destruct (decide (n = 0)) as [->|].
  { assert (a = 0) by lia. assert (b = 0) by lia. subst. done. }
  pose proof (Z.log2_lxor a b ltac:(lia) ltac:(lia)).
  pose proof (Hlog a Ha ltac:(lia)). pose proof (Hlog b Hb ltac:(lia)). lia.
Qed.

Lemma not32_range c : is_u32 c → is_u32 (not32 c).
Proof. intros H. apply lxor_range; [lia|done|lia]. Qed.

Lemma crc_table_range i : (i < 256)%nat → is_u32 (nth i crc_table 0).
Proof.
  intros Hi.
  assert (forallb (λ z, bool_decide (is_u32 z)) crc_table = true) as H by (vm_compute; reflexivity).
  rewrite forallb_forall in H. apply (bool_decide_eq_true_1 (is_u32 _)), H, nth_In.
  unfold crc_table. by rewrite length_map, length_seq.
Qed.

Lemma crc_step_range crc b : is_u32 crc → is_u32 (crc_step crc b).
Proof.
  intros H. unfold crc_step. pose proof (low_byte_range (Z.lxor crc (byte_val b))).
  apply lxor_range; [lia|apply crc_table_range; lia|].
  unfold is_u32 in H. rewrite Z.shiftr_div_pow2 by lia. split; [apply Z.div_pos; lia|].
  apply Z.div_lt_upper_bound; lia.
Qed.

Lemma crc_fold_range data : ∀ crc, is_u32 crc → is_u32 (fold_left crc_step data crc).
Proof. induction data as [|b data IH]; intros crc H; simpl; auto using crc_step_range. Qed.

Lemma crc32_range data : is_u32 (crc32 data).
Proof. apply not32_range, crc_fold_range, not32_range. unfold is_u32. lia. Qed.

Lemma land_lxor_l a b c : Z.land (Z.lxor a b) c = Z.lxor (Z.land a c) (Z.land b c).
Proof.
  apply Z.bits_inj'. intros i _. rewrite !Z.land_spec, !Z.lxor_spec, !Z.land_spec.
  by destruct (Z.testbit a i), (Z.testbit b i), (Z.testbit c i).
Qed.

(** ** Injectivity of one step *)

(** The top bytes of the table entries are pairwise different. *)
Lemma crc_table_top_nodup : NoDup (map (λ z, Z.shiftr z 24) crc_table).
Proof. apply (bool_decide_unpack _). vm_compute. exact I. Qed.

Lemma crc_table_top_inj i j :
  (i < 256)%nat → (j < 256)%nat →
  Z.shiftr (nth i crc_table 0) 24 = Z.shiftr (nth j crc_table 0) 24 → i = j.
Proof.
  intros Hi Hj H. pose proof crc_table_top_nodup as Hnd. rewrite NoDup_ListNoDup in Hnd.
  assert (length (map (λ z, Z.shiftr z 24) crc_table) = 256%nat) as Hl
    by (unfold crc_table; by rewrite !length_map, length_seq).
  apply (proj1 (NoDup_nth _ 0) Hnd); [lia|lia|].
  by rewrite !(map_nth (λ z, Z.shiftr z 24) crc_table 0).
Qed.

Lemma shiftr_top c : is_u32 c → Z.shiftr (Z.shiftr c 8) 24 = 0.
Proof.
  intros H. rewrite Z.shiftr_shiftr by lia. rewrite Z.shiftr_div_pow2 by lia.
  apply Z.div_small. apply H.
Qed.

(** The checksum register and the byte that entered it are determined by the
    register after the step, together with either one of them. *)
Lemma crc_step_inj c c' b b' :
  is_u32 c → is_u32 c' → crc_step c b = crc_step c' b' →
  Z.land (Z.lxor c (byte_val b)) 0xff = Z.land (Z.lxor c' (byte_val b')) 0xff ∧
  Z.shiftr c 8 = Z.shiftr c' 8.
Proof.
  intros Hc Hc' H. unfold crc_step in H.
  pose proof (low_byte_range (Z.lxor c (byte_val b))) as Hi.
  pose proof (low_byte_range (Z.lxor c' (byte_val b'))) as Hj.
  set (i := Z.land (Z.lxor c (byte_val b)) 255) in *.
  set (j := Z.land (Z.lxor c' (byte_val b')) 255) in *.
  assert (i = j) as Hij.
  { apply (f_equal (λ z, Z.shiftr z 24)) in H. rewrite !Z.shiftr_lxor, !shiftr_top in H by done.
    rewrite !Z.lxor_0_r in H. apply crc_table_top_inj in H; lia. }
  split; [done|]. rewrite Hij in H.
  apply (f_equal (Z.lxor (nth (Z.to_nat j) crc_table 0))) in H.
  by rewrite <- !Z.lxor_assoc, !Z.lxor_nilpotent, !Z.lxor_0_l in H.
Qed.

Lemma crc_step_inj_crc c c' b :
  is_u32 c → is_u32 c' → crc_step c b = crc_step c' b → c = c'.
Proof.
  intros Hc Hc' H. apply crc_step_inj in H as [Hlow Hhigh]; [|done|done].
  rewrite (split_low_byte c), (split_low_byte c'), Hhigh. f_equal.
  rewrite !land_lxor_l in Hlow. rewrite Z.lxor_comm, (Z.lxor_comm (Z.land c' _)) in Hlow.
  apply (f_equal (Z.lxor (Z.land (byte_val b) 255))) in Hlow.
  by rewrite <- !Z.lxor_assoc, !Z.lxor_nilpotent, !Z.lxor_0_l in Hlow.
Qed.

Lemma crc_step_inj_byte c b b' : is_u32 c → crc_step c b = crc_step c b' → b = b'.
Proof.
  intros Hc H. apply crc_step_inj in H as [Hlow _]; [|done|done].
  rewrite !land_lxor_l in Hlow.
  apply (f_equal (Z.lxor (Z.land c 255))) in Hlow.
  rewrite <- !Z.lxor_assoc, !Z.lxor_nilpotent, !Z.lxor_0_l in Hlow.
  change 255 with (Z.ones 8) in Hlow. rewrite !Z.land_ones in Hlow by lia.
  rewrite !Z.mod_small in Hlow by apply byte_val_range. by apply (inj byte_val).
Qed.

Lemma crc_fold_inj data : ∀ c c',
  is_u32 c → is_u32 c' → fold_left crc_step data c = fold_left crc_step data c' → c = c'.
Proof.
  induction data as [|b data IH]; intros c c' Hc Hc' H; simpl in H; [done|].
  apply IH in H; [|by apply crc_step_range..]. by apply crc_step_inj_crc in H.
Qed.

Lemma not32_inj a b : not32 a = not32 b → a = b.
Proof.
  unfold not32. intros H. apply (f_equal (λ z, Z.lxor z 0xFFFFFFFF)) in H.
  by rewrite !Z.lxor_assoc, !Z.lxor_nilpotent, !Z.lxor_0_r in H.
Qed.

Lemma crc32_single_byte pre b b' post :
  crc32 (pre ++ b :: post) = crc32 (pre ++ b' :: post) → b = b'.
Proof.
  unfold crc32, crc32_update. intros H. apply not32_inj in H.
  rewrite !fold_left_app in H. cbn [fold_left] in H.
  assert (is_u32 (fold_left crc_step pre (not32 0))) as Hr.
  { apply crc_fold_range, not32_range. unfold is_u32. lia. }
  apply crc_fold_inj in H; [|by apply crc_step_range..]. by apply crc_step_inj_byte in H.
Qed.

(** ** The properties *)

(** The table-driven checksum equals the bit-at-a-time definition of the
    IEEE CRC-32 on every input. *)
Theorem crc32_table_equivalence data : crc32 data = crc32_bitwise data.
Proof.
  unfold crc32, crc32_update, crc32_bitwise. f_equal. generalize (not32 0) as c.
  induction data as [|b data IH]; intros c; simpl; [done|]. by rewrite crc_step_is_bitwise, IH.
Qed.

(** The standard check value. *)
Example crc32_check_value : crc32 (str "123456789") = 0xCBF43926.
Proof. vm_compute. reflexivity. Qed.

(** Two inputs that differ in one byte have different checksums, so a
    corrupted byte in a WAL record or a snapshot is always detected. *)
Theorem crc32_detects_byte_corruption pre b b' post :
  b ≠ b' → crc32 (pre ++ b :: post) ≠ crc32 (pre ++ b' :: post).
Proof. intros Hne H. by apply crc32_single_byte in H. Qed.

Lemma crc32_detects_byte_corruption_witness :
  crc32 (str "N" ++ Byte.x41 :: str "va") ≠ crc32 (str "N" ++ Byte.x42 :: str "va").
Proof. apply crc32_detects_byte_corruption. discriminate. Defined.

(** Updating a checksum with the next part of the data is the checksum of
    the whole. *)
Theorem crc32_update_app a b : crc32_update (crc32 a) b = crc32 (a ++ b).
Proof.
  unfold crc32, crc32_update. rewrite fold_left_app. unfold not32 at 2 3.
  rewrite Z.lxor_assoc, Z.lxor_nilpotent, Z.lxor_0_r. done.
Qed.
