(* ===== verification/Disk.v ===== *)
(** * Files and system calls

    The persistence layer works on files through system calls that can fail at
    any point.  An operation is a computation on a state that may throw and
    that keeps, when it throws, the changes it had made: [Exec].  [Os] says how
    the system calls of one operation end. *)

From S2P Require Import Prelude.

(** ** Stateful code with exceptions *)

Definition Exec (S A : Type) : Type := S → result A * S.

Definition ret {S A} (a : A) : Exec S A := λ s, (Ok a, s).
Definition raise {S A} (e : exn) : Exec S A := λ s, (Throw e, s).
Definition gets {S A} (f : S → A) : Exec S A := λ s, (Ok (f s), s).
Definition modify {S} (f : S → S) : Exec S unit := λ s, (Ok tt, f s).

Definition exec_bind {S A B} (m : Exec S A) (k : A → Exec S B) : Exec S B :=
  λ s, match m s with (Ok a, s') => k a s' | (Throw e, s') => (Throw e, s') end.

(** A function of the pure error monad, called from stateful code. *)
Definition lift {S A} (r : result A) : Exec S A := λ s, (r, s).

(** A computation on a part of the state. *)
Definition zoom {S T A} (get : S → T) (put : T → S → S) (m : Exec T A) : Exec S A :=
  λ s, let '(r, t) := m (get s) in (r, put t s).

Notation "'do!' x ':=' m 'in' k" := (exec_bind m (λ x, k))
  (at level 10, x pattern, m at level 100, k at level 200,
   format "'[v' 'do!'  x  ':='  m  'in' '/' k ']'") : cpp_scope.
Notation "m ';;' k" := (exec_bind m (λ _, k)) (at level 100, k at level 200, right associativity) : cpp_scope.

Lemma exec_bind_ok {S A B} (m : Exec S A) (k : A → Exec S B) s b s' :
  exec_bind m k s = (Ok b, s') ↔ ∃ a s1, m s = (Ok a, s1) ∧ k a s1 = (Ok b, s').
Proof.
  unfold exec_bind. destruct (m s) as [[a|e] s1]; split.
  - eauto.
  - by intros (? & ? & [= -> ->] & ?).
  - done.
  - by intros (? & ? & [=] & ?).
Qed.

(** The value of a step that does not throw. *)
Lemma exec_bind_step {S A B} (m : Exec S A) (k : A → Exec S B) s a s1 :
  m s = (Ok a, s1) → exec_bind m k s = k a s1.
Proof. intros E. unfold exec_bind. by rewrite E. Qed.

(** A sequence, applied to a state. *)
Lemma exec_bind_seq {S A B} (m : Exec S A) (k : A → Exec S B) s :
  exec_bind m k s = match m s with (Ok a, s') => k a s' | (Throw e, s') => (Throw e, s') end.
Proof. done. Qed.

Lemma exec_bind_gets {S A B} (f : S → A) (k : A → Exec S B) s : exec_bind (gets f) k s = k (f s) s.
Proof. done. Qed.

(** ** System calls *)

(** How one call of [write(2)] ends. *)
Inductive SysWrite :=
| wrote_all
| wrote (count : nat)
| interrupted
| write_failed.

#[export] Instance SysWrite_eq_decision : EqDecision SysWrite.
Proof. solve_decision. Defined.

(** The outcomes of the system calls of one operation: [sys_ok] by the name the
    source gives to the call site, and the successive [write(2)] calls of a
    [write_all].  A list that ends stands for a process that stops there. *)
Record Os := {
  sys_ok : string → bool;
  os_writes : string → list SysWrite;
}.

(** No call fails. *)
Definition calm : Os := {| sys_ok := λ _, true; os_writes := λ _, [wrote_all] |}.

Definition sys {S} (os : Os) (operation : string) : Exec S unit :=
  if sys_ok os operation then ret tt else raise (system_error operation).

(** A call of the filesystem library, whose failure it reports by an exception
    of its own. *)
Definition fs {S} (os : Os) (operation : string) : Exec S unit :=
  if sys_ok os operation then ret tt else raise (filesystem_error operation).

(** [write_all]: the contents of the file after the calls. *)
Fixpoint write_all (short : string) (calls : list SysWrite) (file pending : bytes)
    : result unit * bytes :=
  match pending with
  | [] => (Ok tt, file)
  | _ :: _ =>
      match calls with
      | [] | write_failed :: _ => (Throw (system_error "write"), file)
      | interrupted :: calls' => write_all short calls' file pending
      | wrote O :: _ => (Throw (runtime_error short), file)
      | wrote n :: calls' => write_all short calls' (file ++ take n pending) (drop n pending)
      | wrote_all :: calls' => write_all short calls' (file ++ pending) []
      end
  end.

(** A [write_all] that returns has written everything, and one that throws has
    written a proper part, whatever the calls did. *)
Lemma write_all_prefix short calls : ∀ file pending r file',
  write_all short calls file pending = (r, file') →
  ∃ done rest, pending = done ++ rest ∧ file' = file ++ done ∧ (r = Ok tt ↔ rest = []).
Proof.
  induction calls as [|c calls IH]; intros file [|b pending] r file';
    cbn [write_all].
  - intros [= <- <-]. exists [], []. by rewrite !app_nil_r.
  - intros [= <- <-]. exists [], (b :: pending). by rewrite app_nil_r.
  - intros [= <- <-]. exists [], []. by rewrite !app_nil_r.
  - set (p := b :: pending). assert (p ≠ []) as Hp by done. clearbody p. destruct c as [|n| |].
    + intros E. destruct (IH _ _ _ _ E) as (d & rest & Hd & -> & Hr).
      symmetry in Hd. apply app_nil in Hd as [-> ->]. exists p, []. by rewrite !app_nil_r.
    + destruct n as [|n].
      * intros [= <- <-]. exists [], p. by rewrite app_nil_r.
      * intros E. destruct (IH _ _ _ _ E) as (d & rest & Hd & -> & Hr).
        exists (take (S n) p ++ d), rest. rewrite <- !app_assoc, <- Hd. split_and!; [|done|done].
        symmetry. apply take_drop.
    + intros E. by apply IH.
    + intros [= <- <-]. exists [], p. by rewrite app_nil_r.
Qed.

(** Enough calls that write something finish the job. *)
Lemma write_all_progress short calls : ∀ file pending,
  Forall (λ c, match c with wrote O | write_failed => False | _ => True end) calls →
  (length pending <= length (filter (λ c, c ≠ interrupted) calls))%nat →
  write_all short calls file pending = (Ok tt, file ++ pending).
Proof.
  induction calls as [|c calls IH]; intros file [|b pending] Hc Hl;
    cbn [write_all]; try by rewrite app_nil_r.
  - simpl in Hl. lia.
  - apply Forall_cons in Hc as [Hhd Hc]. destruct c as [|[|n]| |]; try done.
    + rewrite IH; [by rewrite app_nil_r|done|simpl; lia].
    + rewrite IH; [|done|].
      * by rewrite <- app_assoc, take_drop.
      * rewrite filter_cons_True in Hl by done. rewrite length_drop. simpl in *. lia.
    + rewrite filter_cons_False in Hl by naive_solver. by apply IH.
Qed.

(** Opens an operation into the system calls and the updates it makes. *)
Ltac exec_unfold :=
  unfold sys, fs, zoom, lift, exec_bind, gets, modify, raise, ret; cbn [calm sys_ok os_writes].

(** ** Operations that return

    A system call that does not fail has one effect, so that an operation that
    returns does what it does when nothing fails. *)
Definition as_calm {S A} (m mc : Exec S A) : Prop := ∀ s a s', m s = (Ok a, s') → mc s = (Ok a, s').

Lemma as_calm_refl {S A} (m : Exec S A) : as_calm m m.
Proof. intros s a s'. done. Qed.

Lemma as_calm_bind {S A B} (m mc : Exec S A) (k kc : A → Exec S B) :
  as_calm m mc → (∀ a, as_calm (k a) (kc a)) → as_calm (exec_bind m k) (exec_bind mc kc).
Proof.
  intros Hm Hk s b s'. rewrite !exec_bind_ok. intros (a & s1 & E1 & E2).
  exists a, s1. split; [by apply Hm|by apply Hk].
Qed.

Lemma as_calm_sys {S} os operation : as_calm (S := S) (sys os operation) (sys calm operation).
Proof. intros s a s'. unfold sys. by destruct (sys_ok os operation). Qed.
Lemma as_calm_fs {S} os operation : as_calm (S := S) (fs os operation) (fs calm operation).
Proof. intros s a s'. unfold fs. by destruct (sys_ok os operation). Qed.

Lemma write_all_ok short calls file pending file' :
  write_all short calls file pending = (Ok tt, file') → file' = file ++ pending.
Proof.
  intros E. destruct (write_all_prefix _ _ _ _ _ _ E) as (d & rest & -> & -> & Hr).
  by rewrite (proj1 Hr eq_refl), app_nil_r.
Qed.

Lemma write_all_calm short file pending :
  write_all short [wrote_all] file pending = (Ok tt, file ++ pending).
Proof. destruct pending; cbn [write_all]; by rewrite ?app_nil_r. Qed.

#[export] Hint Resolve as_calm_refl as_calm_sys as_calm_fs : nova.

(** Walks through an operation; the calls it makes are solved by [nova]. *)
Ltac as_calm :=
  repeat first
    [ apply as_calm_bind; [|intros ?]
    | apply as_calm_refl
    | solve [auto with nova]
    | match goal with |- as_calm (match ?x with _ => _ end) _ => destruct x end
    | match goal with |- as_calm (let '(_, _) := ?x in _) _ => destruct x end ].

(** ** A program logic

    [wp fails m Q s]: from [s], the computation [m] returns a value and a state
    that satisfy [Q], or throws an exception in a state that [fails] allows. *)
Definition wp {S A} (fails : exn → S → Prop) (m : Exec S A) (Q : A → S → Prop) (s : S) : Prop :=
  match m s with (Ok a, s') => Q a s' | (Throw e, s') => fails e s' end.

Section Wp.
Context {S : Type} (fails : exn → S → Prop).

Lemma wp_mono {A} (m : Exec S A) (Q Q' : A → S → Prop) s :
  wp fails m Q s → (∀ a s', Q a s' → Q' a s') → wp fails m Q' s.
Proof. unfold wp. destruct (m s) as [[a|e] s']; auto. Qed.

Lemma wp_and {A} (m : Exec S A) (fails' : exn → S → Prop) (Q Q' : A → S → Prop) s :
  wp fails m Q s → wp fails' m Q' s → wp fails m (λ a s', Q a s' ∧ Q' a s') s.
Proof. unfold wp. by destruct (m s) as [[a|e] s']. Qed.

Lemma wp_bind {A B} (m : Exec S A) (k : A → Exec S B) Q s :
  wp fails m (λ a s', wp fails (k a) Q s') s → wp fails (exec_bind m k) Q s.
Proof. unfold wp, exec_bind. by destruct (m s) as [[a|e] s']. Qed.

(** The rule of sequencing with an intermediate assertion. *)
Lemma wp_seq {A B} (m : Exec S A) (k : A → Exec S B) (R : A → S → Prop) Q s :
  wp fails m R s → (∀ a s', R a s' → wp fails (k a) Q s') → wp fails (exec_bind m k) Q s.
Proof. intros Hm Hk. apply wp_bind. by eapply wp_mono. Qed.

(** Sequencing is associative. *)
Lemma wp_assoc {A B D} (m : Exec S A) (k : A → Exec S B) (k' : B → Exec S D) Q s :
  wp fails (exec_bind (exec_bind m k) k') Q s → wp fails (exec_bind m (λ a, exec_bind (k a) k')) Q s.
Proof. unfold wp, exec_bind. by destruct (m s) as [[a|e] s']. Qed.

Lemma wp_ret {A} (a : A) (Q : A → S → Prop) s : Q a s → wp fails (ret a) Q s.
Proof. done. Qed.

Lemma wp_gets {A} (f : S → A) (Q : A → S → Prop) s : Q (f s) s → wp fails (gets f) Q s.
Proof. done. Qed.

Lemma wp_modify (f : S → S) (Q : unit → S → Prop) s : Q tt (f s) → wp fails (modify f) Q s.
Proof. done. Qed.

Lemma wp_raise {A} e (Q : A → S → Prop) s : fails e s → wp fails (raise e) Q s.
Proof. done. Qed.

Lemma wp_lift {A} (a : A) (Q : A → S → Prop) s : Q a s → wp fails (lift (Ok a)) Q s.
Proof. done. Qed.

(** From the outcome of a computation back to the logic. *)
Lemma wp_run {A} (m : Exec S A) Q s : wp fails m Q s ↔
  (∀ a s', m s = (Ok a, s') → Q a s') ∧ (∀ e s', m s = (Throw e, s') → fails e s').
Proof. unfold wp. destruct (m s) as [[a|e] s']; naive_solver. Qed.
End Wp.

(** ** Computations that leave a part of the state alone *)

(** [m] does not change [f], whatever its outcome. *)
Definition keeps {S A B} (f : S → B) (m : Exec S A) : Prop := ∀ s, f (snd (m s)) = f s.

Section Keeps.
Context {S B : Type} (f : S → B).

Lemma keeps_ret {A} (a : A) : keeps f (ret a).
Proof. done. Qed.
Lemma keeps_gets {A} (g : S → A) : keeps f (gets g).
Proof. done. Qed.
Lemma keeps_raise {A} e : keeps f (@raise S A e).
Proof. done. Qed.
Lemma keeps_lift {A} (r : result A) : keeps f (lift r).
Proof. done. Qed.
Lemma keeps_modify g : (∀ s, f (g s) = f s) → keeps f (modify g).
Proof. done. Qed.
Lemma keeps_zoom {T A} (get : S → T) (put : T → S → S) (m : Exec T A) :
  (∀ s t, f (put t s) = f s) → keeps f (zoom get put m).
Proof. intros Hp s. unfold zoom. destruct (m (get s)). apply Hp. Qed.
Lemma keeps_bind {A A'} (m : Exec S A) (k : A → Exec S A') :
  keeps f m → (∀ a, keeps f (k a)) → keeps f (exec_bind m k).
Proof.
  intros Hm Hk s. unfold exec_bind. specialize (Hm s). destruct (m s) as [[a|e] s']; [|done]. by rewrite (Hk a s').
Qed.
End Keeps.

#[export] Hint Resolve keeps_ret keeps_gets keeps_raise keeps_lift : nova.

Ltac keep :=
  repeat first
    [ solve [auto with nova]
    | match goal with |- keeps _ (exec_bind _ _) => apply keeps_bind; [|intros ?] end
    | match goal with |- keeps _ (match ?x with _ => _ end) => destruct x end
    | match goal with |- keeps _ (let '(_, _) := ?x in _) => destruct x end
    | match goal with |- keeps _ (zoom _ _ _) => apply keeps_zoom; done end
    | match goal with |- keeps _ (modify _) => apply keeps_modify; done end ].
