(* ===== verification/Wal.v ===== *)
(** * The write-ahead log

    [include/novacache/persistence/wal.hpp] and [src/persistence/wal.cpp].  The
    state of a [WalWriter] is kept with its file: the bytes the file holds and
    the bytes it held at the last [fsync].  The file position is always the end
    of the file, where every write of the source puts it. *)

From S2P Require Import Prelude Binary Crc32 Disk.

(** ** Data *)

(** [WalOpcode] is an enumeration over [std::uint16_t]: the conversion from a
    number read back gives any of its values. *)
Abbreviation WalOpcode := Z (only parsing).
Definition op_set : WalOpcode := 1.
Definition op_del : WalOpcode := 2.
Definition op_expire : WalOpcode := 3.

Record WalRecord := {
  offset : Z;
  opcode : WalOpcode;
  payload : bytes;
}.

#[export] Instance WalRecord_eq_decision : EqDecision WalRecord.
Proof. solve_decision. Defined.

Definition magic : bytes := str "NCWAL" ++ [Byte.x00; Byte.x00; Byte.x00].
Definition version : Z := 1.

Record WalWriter := {
  fd_ : bool;
  last_offset_ : Z;
  wal_file : bytes;
  wal_synced : bytes;
}.

(** [WalWriter::WalWriter] on a file left by an earlier process. *)
Definition new_wal (file : bytes) : WalWriter :=
  {| fd_ := false; last_offset_ := 0; wal_file := file; wal_synced := file |}.

Definition set_fd (b : bool) (w : WalWriter) : WalWriter :=
  {| fd_ := b; last_offset_ := last_offset_ w; wal_file := wal_file w; wal_synced := wal_synced w |}.
Definition set_last (n : Z) (w : WalWriter) : WalWriter :=
  {| fd_ := fd_ w; last_offset_ := n; wal_file := wal_file w; wal_synced := wal_synced w |}.
Definition set_file (f : bytes) (w : WalWriter) : WalWriter :=
  {| fd_ := fd_ w; last_offset_ := last_offset_ w; wal_file := f; wal_synced := wal_synced w |}.
(** The effect of a successful [fsync]. *)
Definition mark_synced (w : WalWriter) : WalWriter :=
  {| fd_ := fd_ w; last_offset_ := last_offset_ w; wal_file := wal_file w; wal_synced := wal_file w |}.

(** ** Writing *)

Definition encode_record_body (offset : Z) (opcode : WalOpcode) (payload : bytes) : bytes :=
  append_u16 (append_u64 [] offset) opcode ++ payload.

Definition ensure_open_unlocked : Exec WalWriter unit :=
  do! fd := gets fd_ in if fd then ret tt else raise (runtime_error "WAL is not open").

Definition close_unlocked : Exec WalWriter unit := modify (set_fd false).

(** [WalWriter::~WalWriter]. *)
Definition destroy_wal : Exec WalWriter unit := close_unlocked.

(** [WalWriter::last_offset]. *)
Definition wal_last_offset : Exec WalWriter Z := gets last_offset_.

Definition wal_write_all (os : Os) (site : string) (data : bytes) : Exec WalWriter unit :=
  λ w, let '(r, f) := write_all "short write to WAL" (os_writes os site) (wal_file w) data in
       (r, set_file f w).

Definition header_bytes : bytes := append_u32 (append_u32 magic version) 0.

(** The file is empty when the header is written.  Writes go to the end of the
    file: the position that a failed [lseek] leaves behind is not modelled. *)
Definition write_header_unlocked (os : Os) : Exec WalWriter unit :=
  sys os "lseek(WAL header)" ;;
  wal_write_all os "header" header_bytes ;;
  sys os "lseek(WAL after header)".

Definition record_bytes (body : bytes) : bytes :=
  append_u32 (append_u32 [] (u32 (len body)) ++ body) (crc32 body).

Definition append (os : Os) (opcode : WalOpcode) (payload : bytes) : Exec WalWriter Z :=
  ensure_open_unlocked ;;
  do! last := gets last_offset_ in
  let offset := u64 (last + 1) in
  let body := encode_record_body offset opcode payload in
  wal_write_all os "record" (record_bytes body) ;;
  modify (set_last offset) ;;
  ret offset.

Definition sync (os : Os) : Exec WalWriter unit :=
  ensure_open_unlocked ;;
  sys os "fsync(WAL)" ;;
  modify mark_synced.

Definition truncate_after (os : Os) (last_included_offset : Z) : Exec WalWriter unit :=
  ensure_open_unlocked ;;
  sys os "ftruncate(WAL rotate)" ;;
  modify (set_file []) ;;
  write_header_unlocked os ;;
  modify (set_last last_included_offset) ;;
  sys os "fsync(WAL rotate)" ;;
  modify mark_synced.

(** ** Recovery *)

(** What ends the loop over the records: the loop's condition or one of its
    [break]s, with the records read and the end of the valid part. *)
Record ScanEnd := { scanned : list WalRecord; valid_end : Z }.

(** The loop of [open_and_recover], with [last_offset_] as its second result.
    [length + 4U] and [4U + length + 4U] are computed in 32 bits. *)
Fixpoint scan (fuel : nat) (cursor : bytes) (valid_end last : Z) (records : list WalRecord)
    : result ScanEnd * Z :=
  let stop := (Ok {| scanned := records; valid_end := valid_end |}, last) in
  match fuel with
  | O => (Throw (undefined_behaviour "out of fuel"), last)
  | S fuel' =>
      if len cursor <? 4 then stop
      else
        match read_u32 cursor with
        | Throw _ => stop
        | Ok (length, probe) =>
            if (length <? 10) || (len probe <? u32 (length + 4)) then stop
            else if len probe <? length
            then (Throw (undefined_behaviour "remove_prefix past the end of the view"), last)
            else
              let body := substr probe 0 length in
              match read_u32 (drop (Z.to_nat length) probe) with
              | Throw e => (Throw e, last)
              | Ok (expected_crc, _) =>
                  if negb (expected_crc =? crc32 body) then stop
                  else
                    match (let! (offset, view) := read_u64 body in
                           let! (opcode, view) := read_u16 view in
                           Ok {| offset := offset; opcode := opcode; payload := view |}) with
                    | Throw e => (Throw e, last)
                    | Ok record =>
                        if offset record <=? last
                        then (Throw (runtime_error "WAL offsets are not strictly increasing"), last)
                        else
                          let consumed := u32 (4 + length + 4) in
                          scan fuel' (drop (Z.to_nat consumed) cursor) (valid_end + consumed)
                            (offset record) (records ++ [record])
                    end
              end
        end
  end.

(** An iteration takes bytes off the cursor, or the next one throws. *)
Definition scan_fuel (cursor : bytes) : nat := S (S (length cursor)).

Definition starts_with (s prefix : bytes) : bool := bool_decide (take (length prefix) s = prefix).

Definition restart_wal (os : Os) (truncate_site : option string) : Exec WalWriter (list WalRecord) :=
  match truncate_site with
  | Some site => sys os site ;; modify (set_file [])
  | None => ret tt
  end ;;
  write_header_unlocked os ;;
  modify (set_last 0) ;;
  ret [].

Definition open_and_recover (os : Os) : Exec WalWriter (list WalRecord) :=
  fs os "create_directories(WAL)" ;;
  sys os "open(WAL)" ;;
  modify (set_fd true) ;;
  sys os "lseek(WAL end)" ;;
  do! file := gets wal_file in
  let size := len file in
  if size =? 0 then restart_wal os None
  else if size <? 16 then restart_wal os (Some "ftruncate(WAL short)")
  else
    sys os "lseek(WAL start)" ;;
    sys os "read(WAL)" ;;
    if negb (starts_with file magic) || (len file <? 16)
    then restart_wal os (Some "ftruncate(WAL bad magic)")
    else
      do! (file_version, cursor) := lift (read_u32 (drop 8 file)) in
      do! (_, cursor) := lift (read_u32 cursor) in
      if negb (file_version =? version) then raise (runtime_error "unsupported WAL version")
      else
        let '(r, last) := scan (scan_fuel cursor) cursor 16 0 [] in
        modify (set_last last) ;;
        do! e := lift r in
        (if negb (size =? valid_end e)
         then sys os "ftruncate(WAL tail)" ;;
              modify (set_file (take (Z.to_nat (valid_end e)) file)) ;;
              sys os "fsync(WAL truncate)" ;;
              modify mark_synced
         else ret tt) ;;
        sys os "lseek(WAL resume)" ;;
        ret (scanned e).

(** ** Payloads *)

Definition encode_set_payload (key value : bytes) (expiry_unix_ms : option Z) : bytes :=
  let payload := append_bytes (append_bytes [] key) value in
  let payload := append_u8 payload (if bool_decide (is_Some expiry_unix_ms) then 1 else 0) in
  match expiry_unix_ms with Some ms => append_i64 payload ms | None => payload end.

Definition encode_del_payload (keys : list bytes) : bytes :=
  fold_left append_bytes keys (append_u32 [] (u32 (len keys))).

Definition encode_expire_payload (key : bytes) (expiry_unix_ms : Z) : bytes :=
  append_i64 (append_bytes [] key) expiry_unix_ms.
