(* ===== verification/WalCorrect.v ===== *)
(** * Properties of the write-ahead log

    What recovery reads from the image of a log, from a log with a torn tail
    and from a log with a damaged record; how appends, syncs and crashes move
    between such logs; the frames of the payloads. *)

From S2P Require Import Prelude Binary Crc32 Disk Wal.

(** ** Images of logs *)

Definition body_of (r : WalRecord) : bytes := encode_record_body (offset r) (opcode r) (payload r).
Definition record_image (r : WalRecord) : bytes := record_bytes (body_of r).
Definition image (recs : list WalRecord) : bytes := concat (map record_image recs).

(** The bytes of a log that holds these records. *)
Definition log (recs : list WalRecord) : bytes := header_bytes ++ image recs.

(** A record whose frame does not wrap around 32 bits. *)
Definition valid_record (r : WalRecord) : Prop :=
  is_u64 (offset r) ∧ 0 <= opcode r < 2 ^ 16 ∧ len (payload r) < 2 ^ 32 - 18.

Fixpoint increasing (last : Z) (recs : list WalRecord) : Prop :=
  match recs with
  | [] => True
  | r :: recs' => last < offset r ∧ increasing (offset r) recs'
  end.

Fixpoint last_of (last : Z) (recs : list WalRecord) : Z :=
  match recs with [] => last | r :: recs' => last_of (offset r) recs' end.

#[export] Instance valid_record_dec r : Decision (valid_record r).
Proof. unfold valid_record. apply _. Defined.

Lemma body_of_eq r : body_of r = append_u64 [] (offset r) ++ append_u16 [] (opcode r) ++ payload r.
Proof.
  unfold body_of, encode_record_body. by rewrite (put_appends (put := append_u16)), <- app_assoc.
Qed.

Lemma record_bytes_eq body :
  record_bytes body = append_u32 [] (u32 (len body)) ++ body ++ append_u32 [] (crc32 body).
Proof. unfold record_bytes. by rewrite (put_appends (put := append_u32)), <- app_assoc. Qed.

Lemma len_body r : len (body_of r) = 10 + len (payload r).
Proof. rewrite body_of_eq, append_u64_le, append_u16_le. len_solve. Qed.

Lemma len_record body : len (record_bytes body) = 8 + len body.
Proof. rewrite record_bytes_eq, !append_u32_le. len_solve. Qed.

Lemma len_header : len header_bytes = 16.
Proof. reflexivity. Qed.

Lemma body_u32 r : valid_record r → is_u32 (len (body_of r)).
Proof. intros (_ & _ & Hp). rewrite len_body. pose proof (len_nonneg (payload r)). unfold is_u32. lia. Qed.

Lemma image_cons r recs : image (r :: recs) = record_image r ++ image recs.
Proof. done. Qed.

Lemma image_app a b : image (a ++ b) = image a ++ image b.
Proof. unfold image. by rewrite map_app, concat_app. Qed.

Lemma log_app a b : log (a ++ b) = log a ++ image b.
Proof. unfold log. by rewrite image_app, app_assoc. Qed.

Lemma length_image recs : (length recs <= length (image recs))%nat.
Proof.
  induction recs as [|r recs IH]; [done|]. rewrite image_cons, length_app. simpl.
  pose proof (len_record (body_of r)) as Hl. rewrite len_body in Hl. unfold record_image, len in *. lia.
Qed.

Lemma increasing_app last a b :
  increasing last (a ++ b) ↔ increasing last a ∧ increasing (last_of last a) b.
Proof. revert last. induction a as [|r a IH]; intros last; simpl; [naive_solver|]. rewrite IH. naive_solver. Qed.

Lemma last_of_app last a b : last_of last (a ++ b) = last_of (last_of last a) b.
Proof. revert last. induction a as [|r a IH]; intros last; simpl; auto. Qed.

Lemma last_of_ge last recs : increasing last recs → last <= last_of last recs.
Proof. revert last. induction recs as [|r recs IH]; intros last; simpl; [lia|]. intros [? H%IH]. lia. Qed.

(** ** The scan *)

(** The fields of a body are read back. *)
Lemma read_body r :
  valid_record r →
  (let! (offset, view) := read_u64 (body_of r) in
   let! (opcode, view) := read_u16 view in
   Ok {| offset := offset; opcode := opcode; payload := view |}) = Ok r.
Proof.
  intros (Ho & Hc & _). rewrite body_of_eq. rewrite get_put by done. cbn [bind].
  rewrite get_put by done. by destruct r.
Qed.

Lemma scan_frame fuel body rest ve last acc :
  is_u32 (len body) → 10 <= len body < 2 ^ 32 - 8 →
  scan (S fuel) (record_bytes body ++ rest) ve last acc =
  match (let! (offset, view) := read_u64 body in
         let! (opcode, view) := read_u16 view in
         Ok {| offset := offset; opcode := opcode; payload := view |}) with
  | Throw e => (Throw e, last)
  | Ok record =>
      if offset record <=? last
      then (Throw (runtime_error "WAL offsets are not strictly increasing"), last)
      else scan fuel rest (ve + len (record_bytes body)) (offset record) (acc ++ [record])
  end.
Proof.
  intros Hu Hl. cbn [scan]. pose proof (len_nonneg rest) as Hr.
  assert (len (record_bytes body ++ rest) = 8 + len body + len rest) as Hlen
    by (rewrite len_app, len_record; lia).
  cond_case; [lia|]. rewrite record_bytes_eq, <- !app_assoc, u32_id by done.
  rewrite get_put by done.
  assert (len (body ++ append_u32 [] (crc32 body) ++ rest) = len body + 4 + len rest) as Hp.
  { rewrite !len_app, append_u32_le. len_solve. }
  rewrite Hp, (u32_id (len body + 4)) by (unfold is_u32; lia).
  replace ((len body <? 10) || (len body + 4 + len rest <? len body + 4)) with false by lia.
  replace (len body + 4 + len rest <? len body) with false by lia.
  unfold substr. change (drop (Z.to_nat 0) ?l) with l.
  rewrite take_length_app, drop_length_app by len_solve.
  rewrite get_put by apply crc32_range. rewrite Z.eqb_refl. cbn [negb].
  destruct (let! (offset, view) := read_u64 body in _) as [record|e]; [|done].
  cond_case; [done|].
  rewrite (u32_id (4 + len body + 4)) by (unfold is_u32; lia).
  rewrite len_app, len_app, append_u32_le, (append_u32_le [] (crc32 body)). do 2 f_equal.
  - rewrite !app_assoc, <- app_assoc, <- app_assoc. rewrite app_assoc, app_assoc.
    apply drop_length_app. len_solve.
  - len_solve.
Qed.

Lemma scan_record fuel r rest ve last acc :
  valid_record r → last < offset r →
  scan (S fuel) (record_image r ++ rest) ve last acc =
  scan fuel rest (ve + len (record_image r)) (offset r) (acc ++ [r]).
Proof.
  intros Hv Hlt. unfold record_image. rewrite scan_frame.
  - rewrite read_body by done. by replace (offset r <=? last) with false by lia.
  - by apply body_u32.
  - rewrite len_body. destruct Hv as (_ & _ & ?). pose proof (len_nonneg (payload r)). lia.
Qed.

Lemma scan_records recs : ∀ fuel rest ve last acc,
  Forall valid_record recs → increasing last recs →
  scan (length recs + fuel) (image recs ++ rest) ve last acc =
  scan fuel rest (ve + len (image recs)) (last_of last recs) (acc ++ recs).
Proof.
  induction recs as [|r recs IH]; intros fuel rest ve last acc Hv Hi.
  - cbn [length Nat.add]. by rewrite app_nil_r, Z.add_0_r.
  - apply Forall_cons in Hv as [Hr Hv]. destruct Hi as [Hlt Hi].
    rewrite image_cons, <- app_assoc. cbn [length Nat.add last_of].
    rewrite scan_record, IH by done. rewrite len_app. f_equal; [lia|]. by rewrite <- app_assoc.
Qed.

(** A part of a frame that lacks at least its last byte stops the scan. *)
Lemma scan_torn fuel r torn more ve last acc :
  valid_record r → record_image r = torn ++ more → more ≠ [] →
  scan (S fuel) torn ve last acc = (Ok {| scanned := acc; valid_end := ve |}, last).
Proof.
  intros Hv Heq Hmore. pose proof (body_u32 r Hv) as Hu.
  destruct Hv as (_ & _ & Hp). pose proof (len_body r) as Hb. pose proof (len_nonneg (payload r)).
  assert (0 < len more) as Hm by (destruct more; [done|len_solve]).
  cbn [scan]. cond_case; [done|].
  unfold record_image in Heq. rewrite record_bytes_eq, u32_id in Heq by done.
  pose proof (f_equal len Heq) as Hlen. rewrite !len_app, !append_u32_le in Hlen.
  assert (∃ probe, torn = append_u32 [] (len (body_of r)) ++ probe) as [probe ->].
  { exists (drop 4 torn). rewrite <- (take_drop 4 torn) at 1. f_equal.
    apply (f_equal (take 4)) in Heq. rewrite take_length_app in Heq by (by rewrite append_u32_le).
    rewrite take_app_le in Heq by len_solve. done. }
  rewrite get_put by done.
  assert (len probe < len (body_of r) + 4) as Hprobe.
  { rewrite len_app, append_u32_le in Hlen. len_solve. }
  rewrite u32_id by (unfold is_u32; lia).
  replace ((len (body_of r) <? 10) || (len probe <? len (body_of r) + 4)) with true by lia. done.
Qed.

(** ** Recovery of an image *)

(** What follows the complete records is no record: the loop stops there. *)
Definition stops (tail : bytes) : Prop :=
  ∀ fuel ve last acc, scan (S fuel) tail ve last acc = (Ok {| scanned := acc; valid_end := ve |}, last).

Lemma stops_nil : stops [].
Proof. done. Qed.

Lemma stops_torn r torn more :
  valid_record r → record_image r = torn ++ more → more ≠ [] → stops torn.
Proof. intros Hr Heq Hm fuel ve last acc. by apply (scan_torn fuel r torn more). Qed.

Lemma scan_log recs torn :
  Forall valid_record recs → increasing 0 recs → stops torn →
  scan (scan_fuel (image recs ++ torn)) (image recs ++ torn) 16 0 [] =
  (Ok {| scanned := recs; valid_end := len (log recs) |}, last_of 0 recs).
Proof.
  intros Hv Hi Ht. unfold scan_fuel. pose proof (length_image recs) as Hl.
  replace (S (S (length (image recs ++ torn))))
    with (length recs + S (S (length (image recs ++ torn)) - length recs))%nat
    by (rewrite length_app; lia).
  rewrite scan_records by done. unfold log. by rewrite len_app, len_header, Ht.
Qed.

(** A step of an operation that succeeds when nothing fails. *)
Lemma sys_calm {S} operation (s : S) : sys calm operation s = (Ok tt, s).
Proof. done. Qed.

(** A header whose reserved field holds any number. *)
Definition header_with (reserved : Z) : bytes := append_u32 (append_u32 magic version) reserved.

Lemma len_header_with reserved : len (header_with reserved) = 16.
Proof. unfold header_with. rewrite !append_u32_le. len_solve. Qed.

(** Opening a file with a header, in terms of the scan. *)
Lemma open_scan reserved cursor synced :
  is_u32 reserved → let file := header_with reserved ++ cursor in
  open_and_recover calm {| fd_ := false; last_offset_ := 0; wal_file := file; wal_synced := synced |} =
  match scan (scan_fuel cursor) cursor 16 0 [] with
  | (Ok e, last) =>
      (Ok (scanned e),
       if 16 + len cursor =? valid_end e
       then {| fd_ := true; last_offset_ := last; wal_file := file; wal_synced := synced |}
       else let cut := take (Z.to_nat (valid_end e)) file in
            {| fd_ := true; last_offset_ := last; wal_file := cut; wal_synced := cut |})
  | (Throw e, last) =>
      (Throw e, {| fd_ := true; last_offset_ := last; wal_file := file; wal_synced := synced |})
  end.
Proof.
  intros Hres file. unfold open_and_recover. exec_unfold. cbn [wal_file set_fd].
  assert (len file = 16 + len cursor) as Hlen by (unfold file; by rewrite len_app, len_header_with).
  pose proof (len_nonneg cursor). rewrite !Hlen.
  replace (16 + len cursor =? 0) with false by lia. replace (16 + len cursor <? 16) with false by lia.
  assert (starts_with file magic = true) as -> by (by apply bool_decide_true). cbn [negb orb].
  assert (drop 8 file = append_u32 [] version ++ append_u32 [] reserved ++ cursor) as -> by done.
  rewrite get_put by (unfold is_u32, version; lia). cbn [bind]. rewrite get_put by done.
  rewrite Z.eqb_refl. cbn [negb]. destruct (scan _ _ _ _ _) as [[e|e] last]; [|done].
  by destruct (16 + len cursor =? valid_end e).
Qed.

Lemma open_image reserved recs torn synced :
  is_u32 reserved → Forall valid_record recs → increasing 0 recs → stops torn →
  let h := header_with reserved in
  open_and_recover calm {| fd_ := false; last_offset_ := 0;
                           wal_file := h ++ image recs ++ torn; wal_synced := synced |} =
  (Ok recs, {| fd_ := true; last_offset_ := last_of 0 recs; wal_file := h ++ image recs;
               wal_synced := if decide (torn = []) then synced else h ++ image recs |}).
Proof.
  intros Hres Hv Hi Ht h. unfold h. rewrite open_scan, scan_log by done. cbn [scanned valid_end].
  unfold log. rewrite !len_app, len_header. case_decide as Htorn.
  - subst torn. replace (16 + (len (image recs) + len []) =? _) with true by (rewrite len_nil; lia).
    by rewrite app_nil_r.
  - assert (0 < len torn) by (destruct torn; [done|rewrite len_cons; pose proof (len_nonneg torn); lia]).
    replace (16 + (len (image recs) + len torn) =? _) with false by lia.
    rewrite app_assoc, take_length_app; [done|]. pose proof (len_header_with reserved) as Hh.
    rewrite length_app. unfold len in *. lia.
Qed.

Lemma open_log recs torn synced :
  Forall valid_record recs → increasing 0 recs → stops torn →
  open_and_recover calm {| fd_ := false; last_offset_ := 0; wal_file := log recs ++ torn;
                           wal_synced := synced |} =
  (Ok recs, {| fd_ := true; last_offset_ := last_of 0 recs; wal_file := log recs;
               wal_synced := if decide (torn = []) then synced else log recs |}).
Proof.
  intros Hv Hi Ht. unfold log. rewrite <- app_assoc.
  apply (open_image 0 recs torn synced); [unfold is_u32; lia|done..].
Qed.

(** A file shorter than a header starts a new log. *)
Lemma open_short file synced :
  len file < 16 →
  open_and_recover calm {| fd_ := false; last_offset_ := 0; wal_file := file; wal_synced := synced |} =
  (Ok [], {| fd_ := true; last_offset_ := 0; wal_file := log []; wal_synced := synced |}).
Proof.
  intros Hs. unfold open_and_recover, restart_wal, write_header_unlocked, wal_write_all.
  exec_unfold. cbn [wal_file set_fd].
  destruct (len file =? 0) eqn:E.
  - assert (file = []) as -> by (destruct file; [done|rewrite len_cons in E; pose proof (len_nonneg file); lia]).
    rewrite write_all_calm. done.
  - replace (len file <? 16) with true by lia. cbn [wal_file set_file].
    rewrite write_all_calm. done.
Qed.

(** A prefix of an image is an image followed by a part of the next frame. *)
Lemma prefix_image recs : ∀ c,
  Forall valid_record recs → c `prefix_of` image recs →
  ∃ m torn, (m <= length recs)%nat ∧ c = image (take m recs) ++ torn ∧ stops torn ∧
    ((m < length recs)%nat → (length c < length (image (take (S m) recs)))%nat).
Proof.
  induction recs as [|r recs IH]; intros c Hv [z Hz].
  - symmetry in Hz. apply app_nil in Hz as [-> _]. exists 0%nat, []. split_and!; [done|done|apply stops_nil|].
    cbn [length]. lia.
  - apply Forall_cons in Hv as [Hr Hv]. rewrite image_cons in Hz. symmetry in Hz.
    destruct (decide (length c < length (record_image r))%nat) as [Hlt|Hge].
    + exists 0%nat, c. split_and!; [lia|done| |].
      2: { intros _. cbn [take]. rewrite image_cons, length_app. lia. }
      apply (stops_torn r c (drop (length c) (record_image r))); [done| |].
      * rewrite <- (take_drop (length c) (record_image r)) at 1. f_equal.
        apply (f_equal (take (length c))) in Hz.
        rewrite take_length_app, take_app_le in Hz by lia. done.
      * intros Hd. apply (f_equal length) in Hd. rewrite length_drop in Hd. cbn [length] in Hd. lia.
    + destruct (IH (drop (length (record_image r)) c) Hv) as (m & torn & Hm & Hc & Ht & Hl).
      { exists z. apply (f_equal (drop (length (record_image r)))) in Hz.
        rewrite drop_app_le, drop_length_app in Hz by lia. done. }
      exists (S m), torn. split_and!; [simpl; lia| |done|].
      * cbn [take]. rewrite image_cons, <- app_assoc, <- Hc.
        rewrite <- (take_drop (length (record_image r)) c) at 1. f_equal.
        apply (f_equal (take (length (record_image r)))) in Hz.
        rewrite take_app_le, take_length_app in Hz by lia. done.
      * cbn [length]. intros Hml. cbn [take]. rewrite image_cons, length_app. cbn [take] in Hl.
        rewrite length_drop in Hl. lia.
Qed.

(** ** The scan of an arbitrary file *)

Lemma read_fields_fuel body :
  (let! (offset, view) := read_u64 body in
   let! (opcode, view) := read_u16 view in
   Ok {| offset := offset; opcode := opcode; payload := view |}) ≠
  Throw (undefined_behaviour "out of fuel").
Proof. unfold read_u64, read_u16. cond_case; [done|]. cbn [bind]. by cond_case. Qed.

(** The fuel of the loop is enough for every file. *)
Lemma scan_terminates fuel : ∀ cursor ve last acc,
  (length cursor + 2 <= fuel)%nat →
  fst (scan fuel cursor ve last acc) ≠ Throw (undefined_behaviour "out of fuel").
Proof.
  induction fuel as [|fuel IH]; intros cursor ve last acc Hf; [lia|]. cbn [scan].
  destruct (len cursor <? 4) eqn:E0; [done|].
  destruct (read_u32 cursor) as [[n probe]|] eqn:E1; [|done].
  destruct ((n <? 10) || (len probe <? u32 (n + 4))) eqn:E2; [done|].
  destruct (len probe <? n) eqn:E3; [done|].
  destruct (read_u32 (drop (Z.to_nat n) probe)) as [[crc rest]|e] eqn:E4.
  2: { cbn [fst]. intros [= ->]. unfold read_u32 in E4. by destruct (len (drop (Z.to_nat n) probe) <? 4). }
  destruct (negb (crc =? crc32 (substr probe 0 n))) eqn:E5; [done|].
  pose proof (read_fields_fuel (substr probe 0 n)) as E6'.
  destruct (let! (offset, view) := read_u64 (substr probe 0 n) in _) as [record|e] eqn:E6;
    [clear E6'|naive_solver].
  destruct (offset record <=? last) eqn:E7; [done|].
  destruct (decide (u32 (4 + n + 4) = 0)) as [->|H0].
  - (* a frame of 2^32 bytes: the next iteration reads the same record *)
    change (drop (Z.to_nat 0) cursor) with cursor. destruct fuel as [|fuel]; [lia|].
    cbn [scan]. rewrite E0, E1, E2, E3, E4, E5, E6. by rewrite Z.leb_refl.
  - apply IH. pose proof (Z.mod_pos_bound (4 + n + 4) (2 ^ 32) ltac:(lia)). unfold u32 in *.
    rewrite length_drop. len_simpl. lia.
Qed.

Lemma read_fields_inv body record :
  (let! (offset, view) := read_u64 body in
   let! (opcode, view) := read_u16 view in
   Ok {| offset := offset; opcode := opcode; payload := view |}) = Ok record →
  body = body_of record ∧ is_u64 (offset record) ∧ 0 <= opcode record < 2 ^ 16.
Proof.
  intros E. apply bind_ok in E as ([o v1] & E1 & E). apply bind_ok in E as ([c v2] & E2 & [= <-]).
  apply read_u64_inv in E1 as [-> Ho]. apply read_u16_inv in E2 as [-> Hc].
  by rewrite body_of_eq.
Qed.

(** Every record the scan accepts is the frame its writer would write. *)
Lemma scan_any fuel : ∀ cursor ve last acc e last',
  len cursor < 2 ^ 32 - 4 → scan fuel cursor ve last acc = (Ok e, last') →
  ∃ recs rest, cursor = image recs ++ rest ∧ Forall valid_record recs ∧ increasing last recs ∧
    scanned e = acc ++ recs ∧ valid_end e = ve + len (image recs) ∧ last' = last_of last recs.
Proof.
  induction fuel as [|fuel IH]; intros cursor ve last acc e last' Hlen; cbn [scan]; [done|].
  assert (∀ e' l, (Ok {| scanned := acc; valid_end := ve |}, last) = (Ok e', l) →
    ∃ recs rest, cursor = image recs ++ rest ∧ Forall valid_record recs ∧ increasing last recs ∧
    scanned e' = acc ++ recs ∧ valid_end e' = ve + len (image recs) ∧ l = last_of last recs) as Hstop.
  { intros e' l [= <- <-]. exists [], cursor. rewrite app_nil_r. split_and!; try done.
    cbn [valid_end]. change (len (image [])) with 0. lia. }
  cond_case; [apply Hstop|]. destruct (read_u32 cursor) as [[n probe]|] eqn:E1; [|apply Hstop].
  apply read_u32_inv in E1 as [-> Hn]. rewrite len_app, append_u32_le in Hlen.
  cond_case; [apply Hstop|]. cond_case; [done|].
  destruct (read_u32 (drop (Z.to_nat n) probe)) as [[crc rest]|] eqn:E4; [|done].
  apply read_u32_inv in E4 as [Erest Hcrc]. cond_case; [apply Hstop|].
  destruct (let! (offset, view) := read_u64 (substr probe 0 n) in _) as [record|] eqn:E6; [|done].
  apply read_fields_inv in E6 as (Hbody & Ho & Hc). cond_case; [done|]. intros Hscan.
  assert (probe = body_of record ++ append_u32 [] (crc32 (body_of record)) ++ rest) as Hprobe.
  { rewrite <- (take_drop (Z.to_nat n) probe) at 1. change (take (Z.to_nat n) probe) with (substr probe 0 n).
    rewrite Erest, Hbody. do 3 f_equal. rewrite <- Hbody. lia. }
  assert (len (body_of record) = n) as Hbl.
  { rewrite <- Hbody. unfold substr. change (drop (Z.to_nat 0) probe) with probe.
    unfold is_u32 in Hn. unfold len in *. rewrite length_take. lia. }
  assert (len probe = n + 4 + len rest) as Hpl.
  { rewrite Hprobe, !len_app, append_u32_le. len_solve. }
  pose proof (len_nonneg rest). cbn [app] in Hlen. change (len (le_bytes 4 n)) with 4 in Hlen.
  assert (append_u32 [] n ++ probe = record_image record ++ rest) as Heq.
  { unfold record_image. rewrite record_bytes_eq, Hbl, u32_id, Hprobe, <- !app_assoc by done. done. }
  assert (Z.to_nat (u32 (4 + n + 4)) = length (record_image record)) as Hcons.
  { rewrite u32_id by (unfold is_u32 in *; lia). pose proof (len_record (body_of record)) as Hr.
    unfold record_image, len in *. lia. }
  assert (valid_record record) as Hv.
  { split; [done|]. split; [done|]. rewrite len_body in Hbl. lia. }
  rewrite Heq in Hscan |- *. rewrite (drop_length_app _ _ _ Hcons) in Hscan.
  assert (len rest < 2 ^ 32 - 4) as Hrest by lia.
  destruct (IH _ _ _ _ _ _ Hrest Hscan) as (recs & rest' & -> & Hvs & Hi & Hs & Hve & ->).
  exists (record :: recs), rest'. rewrite image_cons, <- app_assoc. split_and!; try done.
  - by constructor.
  - cbn [increasing]. split; [lia|done].
  - by rewrite Hs, <- app_assoc.
  - rewrite Hve, len_app. pose proof (Z.mod_pos_bound (4 + n + 4) (2 ^ 32) ltac:(lia)).
    unfold u32, len in *. lia.
Qed.

(** ** Damaged records *)

Lemma scan_bad_crc fuel body crc rest ve last acc :
  is_u32 (len body) → 10 <= len body < 2 ^ 32 - 8 → is_u32 crc → crc ≠ crc32 body →
  scan (S fuel) (append_u32 [] (len body) ++ body ++ append_u32 [] crc ++ rest) ve last acc =
  (Ok {| scanned := acc; valid_end := ve |}, last).
Proof.
  intros Hu Hl Hcrc Hne. cbn [scan]. pose proof (len_nonneg rest).
  cond_case; [done|]. rewrite get_put by done.
  assert (len (body ++ append_u32 [] crc ++ rest) = len body + 4 + len rest) as Hp.
  { rewrite !len_app, append_u32_le. len_solve. }
  rewrite Hp, (u32_id (len body + 4)) by (unfold is_u32; lia).
  replace ((len body <? 10) || (len body + 4 + len rest <? len body + 4)) with false by lia.
  replace (len body + 4 + len rest <? len body) with false by lia.
  unfold substr. change (drop (Z.to_nat 0) ?l) with l.
  rewrite take_length_app, drop_length_app by len_solve.
  rewrite get_put by done. by replace (crc =? crc32 body) with false by lia.
Qed.

(** ** Opening an arbitrary file *)

(** No execution of the operation runs out of fuel. *)
Definition has_fuel {A} (m : Exec WalWriter A) : Prop :=
  ∀ w, fst (m w) ≠ Throw (undefined_behaviour "out of fuel").

Lemma has_fuel_bind {A B} (m : Exec WalWriter A) (k : A → Exec WalWriter B) :
  has_fuel m → (∀ a, has_fuel (k a)) → has_fuel (exec_bind m k).
Proof.
  intros Hm Hk w. unfold exec_bind. specialize (Hm w). destruct (m w) as [[a|e] w']; [apply Hk|].
  cbn [fst] in *. intros [= ->]. by apply Hm.
Qed.

Lemma has_fuel_sys os op : has_fuel (sys os op).
Proof. intros w. unfold sys. by destruct (sys_ok os op). Qed.
Lemma has_fuel_fs os op : has_fuel (fs os op).
Proof. intros w. unfold fs. by destruct (sys_ok os op). Qed.

Lemma has_fuel_write os site data : has_fuel (wal_write_all os site data).
Proof.
  intros w. unfold wal_write_all. destruct (write_all _ _ _ _) as [r f] eqn:E. cbn [fst].
  intros ->. revert E. generalize (wal_file w) as file. revert data.
  induction (os_writes os site) as [|c cs IH]; intros [|b data] file; cbn [write_all]; try done.
  destruct c as [|[|n]| |]; try done; apply IH.
Qed.

Lemma has_fuel_read_u32 input : has_fuel (lift (read_u32 input)).
Proof. intros w. unfold lift, read_u32. by cond_case. Qed.

Lemma has_fuel_scan fuel cursor ve last acc :
  (length cursor + 2 <= fuel)%nat → has_fuel (lift (fst (scan fuel cursor ve last acc))).
Proof. intros Hf w. by apply scan_terminates. Qed.

Lemma has_fuel_restart os site : has_fuel (restart_wal os site).
Proof.
  unfold restart_wal, write_header_unlocked.
  repeat first [apply has_fuel_bind; [|intros ?] | apply has_fuel_sys | apply has_fuel_write
               | destruct site | by intros ?].
Qed.

Lemma open_fuel os file r w :
  open_and_recover os (new_wal file) = (r, w) → r ≠ Throw (undefined_behaviour "out of fuel").
Proof.
  assert (has_fuel (open_and_recover os)) as H.
  { unfold open_and_recover.
    repeat first
      [ apply has_fuel_restart | apply has_fuel_bind; [|intros ?] | apply has_fuel_sys | apply has_fuel_fs
      | apply has_fuel_read_u32 | assumption | by intros ?
      | match goal with
        | |- has_fuel (if ?c then _ else _) => destruct c
        | |- has_fuel (let '(_, _) := scan _ ?c ?ve ?last ?acc in _) =>
            pose proof (has_fuel_scan (scan_fuel c) c ve last acc ltac:(unfold scan_fuel; lia));
            destruct (scan (scan_fuel c) c ve last acc); cbn [fst] in *
        | |- has_fuel (let '(_, _) := ?p in _) => destruct p
        end ]. }
  intros E. specialize (H (new_wal file)). by rewrite E in H.
Qed.

Lemma read_header file v c1 reserved c2 :
  starts_with file magic = true →
  read_u32 (drop 8 file) = Ok (v, c1) → read_u32 c1 = Ok (reserved, c2) →
  is_u32 reserved ∧ (v = version → file = header_with reserved ++ c2).
Proof.
  intros Hm E1 E2. apply bool_decide_eq_true in Hm. apply read_u32_inv in E1 as [E1 _].
  apply read_u32_inv in E2 as [-> Hr]. split; [done|]. intros ->.
  rewrite <- (take_drop 8 file), E1. change 8%nat with (length magic). rewrite Hm.
  unfold header_with. rewrite (put_appends (put := append_u32) (append_u32 magic version)).
  rewrite (put_appends (put := append_u32) magic), <- !app_assoc. done.
Qed.

(** What an opening that returns leaves behind. *)
Lemma open_shape file recs w :
  len file < 2 ^ 32 → open_and_recover calm (new_wal file) = (Ok recs, w) →
  ∃ reserved, is_u32 reserved ∧ Forall valid_record recs ∧ increasing 0 recs ∧
    last_offset_ w = last_of 0 recs ∧ wal_file w = header_with reserved ++ image recs.
Proof.
  intros Hlen. destruct (decide (len file < 16)) as [Hs|Hs].
  { unfold new_wal. rewrite open_short by done. intros [= <- <-]. exists 0. by split_and!. }
  unfold open_and_recover. exec_unfold. cbn [wal_file set_fd new_wal].
  replace (len file =? 0) with false by lia. replace (len file <? 16) with false by lia.
  destruct (starts_with file magic) eqn:Em; cbn [negb orb].
  2: { unfold restart_wal, write_header_unlocked, wal_write_all. exec_unfold. rewrite write_all_calm.
       intros [= <- <-]. exists 0. by split_and!. }
  destruct (read_u32 (drop 8 file)) as [[v c1]|] eqn:E1; [|done].
  destruct (read_u32 c1) as [[reserved c2]|] eqn:E2; [|done].
  destruct (read_header _ _ _ _ _ Em E1 E2) as [Hr Hfile].
  destruct (v =? version) eqn:Ev; cbn [negb]; [|done].
  specialize (Hfile ltac:(lia)).
  destruct (scan (scan_fuel c2) c2 16 0 []) as [[e|] last'] eqn:Es; [|done].
  assert (len file = 16 + len c2) as Hl2 by (by rewrite Hfile, len_app, len_header_with).
  apply scan_any in Es as (recs' & rest & -> & Hv & Hi & Hscan & Hve & ->); [|lia].
  rewrite len_app in Hl2. intros H. exists reserved. split; [done|].
  destruct (len file =? valid_end e) eqn:Eq; cbn [negb] in H; injection H as <- <-; rewrite Hscan.
  - cbn [wal_file set_last set_fd new_wal last_offset_].
    assert (rest = []) as -> by (destruct rest; [done|]; rewrite len_cons in Hl2; pose proof (len_nonneg rest); lia).
    rewrite app_nil_r in Hfile. by split_and!.
  - split_and!; try done.
    cbn [wal_file mark_synced set_file]. rewrite Hfile, app_assoc. apply take_length_app.
    rewrite Hve. pose proof (len_header_with reserved) as Hh. len_solve.
Qed.

(** ** A damaged frame *)

Lemma open_log_length pre field probe :
  Forall valid_record pre → increasing 0 pre →
  2 ^ 32 - 4 <= field < 2 ^ 32 → 4 <= len probe < field →
  fst (open_and_recover calm (new_wal (log pre ++ append_u32 [] field ++ probe))) =
  Throw (undefined_behaviour "remove_prefix past the end of the view").
Proof.
  intros Hv Hi Hl Hp. unfold log, new_wal. rewrite <- app_assoc.
  rewrite (open_scan 0) by (unfold is_u32; lia).
  set (tail := append_u32 [] field ++ probe). unfold scan_fuel. pose proof (length_image pre).
  replace (S (S (length (image pre ++ tail))))
    with (length pre + S (S (length (image pre ++ tail)) - length pre))%nat
    by (rewrite length_app; lia).
  rewrite scan_records by done. cbn [scan]. unfold tail.
  replace (len (append_u32 [] field ++ probe) <? 4) with false
    by (rewrite append_u32_le; len_simpl; lia).
  rewrite get_put by (unfold is_u32; lia).
  assert (u32 (field + 4) = field + 4 - 2 ^ 32) as ->.
  { unfold u32. rewrite <- (Z.mod_add (field + 4) (-1)) by lia. rewrite Z.mod_small; lia. }
  replace ((field <? 10) || (len probe <? field + 4 - 2 ^ 32)) with false by lia.
  replace (len probe <? field) with true by lia. done.
Qed.

(** A frame whose byte [i], after the length field, was changed still frames a
    body of that length, with a checksum that does not match. *)
Lemma damaged_frame r i b :
  valid_record r → (4 <= i < length (record_image r))%nat → record_image r !! i ≠ Some b →
  ∃ body crc, <[i := b]> (record_image r) = append_u32 [] (len body) ++ body ++ append_u32 [] crc ∧
    len body = len (body_of r) ∧ is_u32 crc ∧ crc ≠ crc32 body.
Proof.
  intros Hv Hi Hb. unfold record_image in *. rewrite record_bytes_eq, u32_id in * by (by apply body_u32).
  set (lenf := append_u32 [] (len (body_of r))) in *. assert (length lenf = 4%nat) as Hl4 by done.
  pose proof (crc32_range (body_of r)) as Hc.
  rewrite lookup_app_r in Hb by lia. rewrite insert_app_r_alt by lia. rewrite Hl4 in *.
  destruct (decide (i - 4 < length (body_of r))%nat) as [Hin|Hin].
  - rewrite lookup_app_l in Hb by done. rewrite insert_app_l by done.
    apply lookup_lt_is_Some in Hin as Hb0. destruct Hb0 as [b0 Hb0].
    exists (<[(i - 4)%nat := b]> (body_of r)), (crc32 (body_of r)).
    assert (len (<[(i - 4)%nat := b]> (body_of r)) = len (body_of r)) as Hlen by (unfold len; by rewrite length_insert).
    rewrite Hlen. split_and!; [done|done|done|]. intros Heq.
    rewrite <- (take_drop_middle _ _ _ Hb0) in Heq at 1.
    rewrite insert_take_drop in Heq by done. apply crc32_single_byte in Heq. congruence.
  - rewrite lookup_app_r in Hb by lia. rewrite insert_app_r_alt by lia.
    set (j := (i - 4 - length (body_of r))%nat) in *.
    assert (j < 4)%nat as Hj by (rewrite !length_app, (append_u32_le [] (crc32 _)) in Hi; len_simpl; lia).
    destruct (u32_of_bytes (<[j := b]> (append_u32 [] (crc32 (body_of r))))) as (crc & Hcrc & Hu).
    { by rewrite length_insert. }
    exists (body_of r), crc. rewrite Hcrc. split_and!; [done|done|done|]. intros ->.
    rewrite <- Hcrc in Hb. apply Hb. rewrite list_lookup_insert_eq; [done|]. done.
Qed.
