(* ===== verification/WalProps.v ===== *)
(** * Durability of the write-ahead log

    Executions of a log - opening, appending, syncing, rotating, crashing and
    recovering, each with any outcome of its system calls - and what recovery
    gives back. *)

From S2P Require Import Prelude Binary Crc32 Disk Wal WalCorrect.

(** ** Operations that return *)

Lemma wal_write_all_calm os site data :
  as_calm (wal_write_all os site data) (wal_write_all calm site data).
Proof.
  intros w [] w'. unfold wal_write_all.
  destruct (write_all _ (os_writes os site) _ _) as [r f] eqn:E. intros [= -> <-].
  apply write_all_ok in E as ->. cbn [os_writes calm]. by rewrite write_all_calm.
Qed.
#[export] Hint Resolve wal_write_all_calm : nova.

Lemma write_header_calm os : as_calm (write_header_unlocked os) (write_header_unlocked calm).
Proof. unfold write_header_unlocked. as_calm. Qed.
#[export] Hint Resolve write_header_calm : nova.

Lemma restart_calm os site : as_calm (restart_wal os site) (restart_wal calm site).
Proof. unfold restart_wal. as_calm. Qed.
#[export] Hint Resolve restart_calm : nova.

Lemma append_calm os c p : as_calm (append os c p) (append calm c p).
Proof. unfold append. as_calm. Qed.

Lemma sync_calm os : as_calm (sync os) (sync calm).
Proof. unfold sync. as_calm. Qed.

Lemma truncate_calm os n : as_calm (truncate_after os n) (truncate_after calm n).
Proof. unfold truncate_after. as_calm. Qed.

Lemma open_calm os : as_calm (open_and_recover os) (open_and_recover calm).
Proof. unfold open_and_recover. as_calm. Qed.

(** The effect of an operation that returns. *)
Lemma append_ok os c p w o w' :
  append os c p w = (Ok o, w') →
  o = u64 (last_offset_ w + 1) ∧ fd_ w = true ∧
  w' = {| fd_ := true; last_offset_ := o;
          wal_file := wal_file w ++ record_image {| offset := o; opcode := c; payload := p |};
          wal_synced := wal_synced w |}.
Proof.
  intros E%append_calm. revert E. unfold append, ensure_open_unlocked, wal_write_all. exec_unfold.
  destruct (fd_ w) eqn:Hfd; [|done]. rewrite write_all_calm.
  intros [= <- <-]. split_and!; try done. unfold set_last, set_file. cbn [fd_ wal_file wal_synced].
  by rewrite Hfd.
Qed.

Lemma sync_ok os w u w' : sync os w = (Ok u, w') → fd_ w = true ∧ w' = mark_synced w.
Proof.
  intros E%sync_calm. revert E. unfold sync, ensure_open_unlocked. exec_unfold.
  destruct (fd_ w) eqn:Hfd; [|done]. by intros [= <- <-].
Qed.

Lemma truncate_ok os n w u w' :
  truncate_after os n w = (Ok u, w') →
  w' = {| fd_ := true; last_offset_ := n; wal_file := log []; wal_synced := log [] |}.
Proof.
  intros E%truncate_calm. revert E.
  unfold truncate_after, ensure_open_unlocked, write_header_unlocked, wal_write_all. exec_unfold.
  destruct (fd_ w) eqn:Hfd; [|done]. rewrite write_all_calm.
  intros [= <- <-]. unfold mark_synced, set_last, set_file. cbn [fd_ wal_file]. by rewrite Hfd.
Qed.

(** ** Executions *)

(** What a crash leaves of a log that only grew since the last [fsync]: at
    least the synced bytes, and any part of the rest. *)
Definition crash_image (w : WalWriter) (c : bytes) : Prop :=
  wal_synced w `prefix_of` c ∧ c `prefix_of` wal_file w.

(** [wal_run w recs n]: an execution led to [w]; since the last rotation the
    records [recs] were acknowledged, and the first [n] of them were synced.  An
    operation that throws does not extend an execution: what is left of its file
    is seen by a crash only. *)
Inductive wal_run : WalWriter → list WalRecord → nat → Prop :=
| run_create os recs w :
    open_and_recover os (new_wal []) = (Ok recs, w) → wal_run w recs 0
| run_append os w recs n c p o w' :
    wal_run w recs n → 0 <= c < 2 ^ 16 → len p < 2 ^ 32 - 18 → last_offset_ w + 1 < 2 ^ 64 →
    append os c p w = (Ok o, w') →
    wal_run w' (recs ++ [{| offset := o; opcode := c; payload := p |}]) n
| run_sync os w recs n u w' :
    wal_run w recs n → sync os w = (Ok u, w') → wal_run w' recs (length recs)
| run_rotate os w recs n u w' :
    wal_run w recs n → truncate_after os (last_offset_ w) w = (Ok u, w') → wal_run w' [] 0
| run_crash os w recs n c recs' w' :
    wal_run w recs n → crash_image w c → open_and_recover os (new_wal c) = (Ok recs', w') →
    wal_run w' recs' (length recs').

Record wal_inv (w : WalWriter) (recs : list WalRecord) (n : nat) : Prop := {
  inv_open : fd_ w = true;
  inv_file : wal_file w = log recs;
  inv_valid : Forall valid_record recs;
  inv_increasing : increasing 0 recs;
  inv_last : last_of 0 recs <= last_offset_ w;
  inv_u64 : is_u64 (last_offset_ w);
  inv_count : (n <= length recs)%nat;
  inv_synced : wal_synced w `prefix_of` wal_file w;
  inv_durable : n ≠ 0%nat → log (take n recs) `prefix_of` wal_synced w;
}.

Lemma last_of_u64 recs : Forall valid_record recs → is_u64 (last_of 0 recs).
Proof.
  intros Hv. assert (∀ last, is_u64 last → is_u64 (last_of last recs)) as H.
  { induction Hv as [|r recs Hr _ IH]; intros last Hl; [done|]. cbn [last_of]. apply IH, Hr. }
  apply H. unfold is_u64. lia.
Qed.

Lemma log_prefix recs a b : (a <= b)%nat → log (take a recs) `prefix_of` log (take b recs).
Proof.
  intros Hab. exists (image (drop a (take b recs))). rewrite <- log_app.
  rewrite <- (take_drop a (take b recs)) at 1. by rewrite take_take, Nat.min_l.
Qed.

(** A part of a log, at least as long as the part known to be synced, is
    recovered to a prefix of its records. *)
Lemma recover_prefix recs n synced c :
  Forall valid_record recs → increasing 0 recs → (n <= length recs)%nat →
  (n ≠ 0%nat → log (take n recs) `prefix_of` c) → c `prefix_of` log recs →
  ∃ m s', (n <= m <= length recs)%nat ∧
    open_and_recover calm {| fd_ := false; last_offset_ := 0; wal_file := c; wal_synced := synced |} =
      (Ok (take m recs), {| fd_ := true; last_offset_ := last_of 0 (take m recs);
                            wal_file := log (take m recs); wal_synced := s' |}) ∧
    (s' = synced ∧ (len c < 16 ∧ m = 0%nat ∨ c = log (take m recs)) ∨ s' = log (take m recs)).
Proof.
  intros Hv Hi Hn Hd Hc. destruct (decide (len c < 16)) as [Hs|Hs].
  - assert (n = 0%nat) as ->.
    { destruct n; [done|]. destruct Hd as [z ->]; [done|]. unfold log in Hs.
      rewrite !len_app, len_header in Hs. pose proof (len_nonneg (image (take (S n) recs))).
      pose proof (len_nonneg z). lia. }
    exists 0%nat, synced. rewrite open_short by done. split_and!; [lia|lia|done|]. left. split; [done|]. by left.
  - destruct Hc as [z Hz]. unfold log in Hz.
    assert (∃ c', c = header_bytes ++ c' ∧ c' `prefix_of` image recs) as (c' & -> & Hc').
    { exists (drop 16 c). assert (take 16 c = header_bytes) as Ht.
      { apply (f_equal (take 16)) in Hz. rewrite take_length_app, take_app_le in Hz by (first [done|len_solve]).
        done. }
      rewrite <- Ht, take_drop. split; [done|]. exists z.
      apply (f_equal (drop 16)) in Hz. rewrite drop_length_app, drop_app_le in Hz by (first [done|len_solve]).
      done. }
    destruct (prefix_image recs c' Hv Hc') as (m & torn & Hm & -> & Ht & Hl).
    assert (Forall valid_record (take m recs)) as Hvm by (by apply Forall_take).
    assert (increasing 0 (take m recs)) as Him.
    { rewrite <- (take_drop m recs) in Hi. by apply increasing_app in Hi as [? _]. }
    rewrite app_assoc. fold (log (take m recs)).
    exists m, (if decide (torn = []) then synced else log (take m recs)).
    rewrite open_log by done. split_and!; [|done|done|].
    + destruct (decide (n <= m)%nat) as [|Hnm]; [done|].
      destruct (log_prefix recs (S m) n) as [z1 E1]; [lia|]. destruct Hd as [z2 E2]; [lia|].
      rewrite E1 in E2. apply (f_equal length) in E2. unfold log in E2.
      specialize (Hl ltac:(lia)). rewrite !length_app in E2. rewrite length_app in Hl. lia.
    + case_decide; [left|right]; [|done]. split; [done|]. right. subst. by rewrite app_nil_r.
Qed.

Lemma new_record_valid w c p :
  0 <= c < 2 ^ 16 → len p < 2 ^ 32 - 18 → is_u64 (last_offset_ w) → last_offset_ w + 1 < 2 ^ 64 →
  let r := {| offset := u64 (last_offset_ w + 1); opcode := c; payload := p |} in
  valid_record r ∧ offset r = last_offset_ w + 1.
Proof.
  intros Hc Hp Hu Ho r. unfold valid_record, r. cbn [offset opcode payload].
  rewrite u64_id by (unfold is_u64 in *; lia). unfold is_u64 in *. lia.
Qed.

Lemma increasing_snoc recs r :
  increasing 0 recs → last_of 0 recs < offset r → increasing 0 (recs ++ [r]).
Proof. intros Hi Hr. apply increasing_app. done. Qed.

Lemma wal_run_inv w recs n : wal_run w recs n → wal_inv w recs n.
Proof.
  induction 1 as [os recs w E|os w recs n c p o w' _ IH Hc Hp Ho E|os w recs n u w' _ IH E
                 |os w recs n u w' _ IH E|os w recs n c recs' w' _ IH Hc E].
  - apply open_calm in E. unfold new_wal in E. rewrite open_short in E by done. injection E as <- <-.
    split; cbn; try done. apply prefix_nil.
  - apply append_ok in E as (-> & Hfd & ->). destruct IH as [H1 H2 H3 H4 H5 H6 H7 H8 H9].
    destruct (new_record_valid w c p Hc Hp H6 Ho) as [Hv Hoff]. cbn [offset] in Hoff.
    set (r := {| offset := _; opcode := c; payload := p |}) in *.
    split; cbn [fd_ wal_file wal_synced last_offset_].
    + done.
    + rewrite H2, log_app. unfold image. cbn [map concat]. by rewrite app_nil_r.
    + by apply Forall_app_2; [|constructor].
    + apply increasing_snoc; [done|]. cbn [offset r]. lia.
    + rewrite last_of_app. cbn [last_of offset r]. lia.
    + apply u64_range.
    + rewrite length_app. lia.
    + by apply prefix_app_r.
    + intros Hn. rewrite take_app_le by lia. by apply H9.
  - apply sync_ok in E as (Hfd & ->). destruct IH as [H1 H2 H3 H4 H5 H6 H7 H8 H9].
    split; cbn [mark_synced fd_ wal_file wal_synced last_offset_]; try done.
    intros _. by rewrite take_ge, H2 by lia.
  - apply truncate_ok in E as ->. destruct IH as [H1 H2 H3 H4 H5 H6 H7 H8 H9].
    split; cbn; try done. unfold is_u64 in *. lia.
  - apply open_calm in E. destruct IH as [H1 H2 H3 H4 H5 H6 H7 H8 H9], Hc as [Hc1 Hc2].
    rewrite H2 in Hc2. unfold new_wal in E.
    destruct (recover_prefix recs n c c H3 H4 H7) as (m & s' & Hm & E' & Hs');
      [intros Hn; etrans; [by apply H9|done]|done|].
    rewrite E' in E. injection E as <- <-.
    split; cbn [fd_ wal_file wal_synced last_offset_]; try done.
    + by apply Forall_take.
    + rewrite <- (take_drop m recs) in H4. by apply increasing_app in H4 as [? _].
    + apply last_of_u64. by apply Forall_take.
    + destruct Hs' as [[-> [[Hl ->] | ->]] | ->]; [|done..].
      destruct Hc2 as [z Hz]. unfold log in *. exists (take (length header_bytes - length c) z).
      rewrite app_nil_r in *. apply (f_equal (take (length header_bytes))) in Hz.
      rewrite take_length_app, take_app_ge in Hz by (first [done|unfold len in *; simpl; lia]). done.
    + intros Hn. rewrite take_ge by lia.
      destruct Hs' as [[-> [[_ ->] | ->]] | ->]; [done|done|done].
Qed.

(** Opening the file of a log again. *)
Lemma wal_reopen w recs n :
  wal_run w recs n →
  increasing 0 recs ∧
  open_and_recover calm (new_wal (wal_file w)) =
    (Ok recs, {| fd_ := true; last_offset_ := last_of 0 recs; wal_file := wal_file w;
                 wal_synced := wal_file w |}).
Proof.
  intros Hrun. destruct (wal_run_inv w recs n Hrun) as [_ H2 H3 H4 _ _ _ _ _].
  split; [done|]. unfold new_wal. rewrite H2. rewrite <- (app_nil_r (log recs)) at 1.
  by rewrite open_log by (first [done|apply stops_nil]).
Qed.

(** Opening what an interrupted rotation left. *)
Lemma open_header_part c :
  c `prefix_of` header_bytes → ∃ w, open_and_recover calm (new_wal c) = (Ok [], w).
Proof.
  intros Hp. destruct (recover_prefix [] 0 c c) as (m & s' & Hm & E & _); [constructor|done|lia|done| |].
  - unfold log. by apply prefix_app_r.
  - rewrite take_nil in E. eauto.
Qed.

(** ** Claims *)

(** C6. Crash safety of the log. Take an execution of appends, syncs, rotations,
    crashes and recoveries in which every one of them returned, with records of
    less than 2^32 - 18 bytes and offsets below 2^64 ([wal_run]), and let one more
    append, the last one, be cut short anywhere - by an error, an interrupted
    call, a partial write or the end of the process. After a crash that keeps at
    least the synced bytes, recovery gives a prefix of the acknowledged records,
    then possibly the new one: no synced record is lost, none is invented, changed
    or reordered, and the file is a well-formed log of the records returned.
    Appending again after an append or a rotation that failed is not covered, and
    does lose records: [failed_rotation_drops_acknowledged_write]. *)
Theorem wal_crash_recovery os w recs n c p r w' image_ :
  wal_run w recs n → 0 <= c < 2 ^ 16 → len p < 2 ^ 32 - 18 → last_offset_ w + 1 < 2 ^ 64 →
  append os c p w = (r, w') → crash_image w' image_ →
  let issued := recs ++ [{| offset := last_offset_ w + 1; opcode := c; payload := p |}] in
  ∃ m w'', (n <= m <= length issued)%nat ∧
    open_and_recover calm (new_wal image_) = (Ok (take m issued), w'') ∧
    wal_file w'' = log (take m issued).
Proof.
  intros Hrun Hc Hp Ho E [Hi1 Hi2] issued. destruct (wal_run_inv w recs n Hrun) as [H1 H2 H3 H4 H5 H6 H7 H8 H9].
  destruct (new_record_valid w c p Hc Hp H6 Ho) as [Hv Hoff]. cbn [offset] in Hoff.
  assert (wal_file w' `prefix_of` log issued ∧ wal_synced w' = wal_synced w) as [Hf Hs].
  { revert E. unfold append, ensure_open_unlocked, wal_write_all. exec_unfold. rewrite H1.
    destruct (write_all _ (os_writes os "record") _ _) as [res f] eqn:Ew. intros E.
    apply write_all_prefix in Ew as (d & rest & Hd & -> & _).
    assert (log issued = wal_file w ++ d ++ rest) as Hlog.
    { rewrite <- Hd, H2. unfold issued. rewrite log_app. f_equal. unfold image. cbn [map concat].
      rewrite app_nil_r, Hoff. done. }
    destruct res; injection E as _ <-; cbn [wal_file set_file set_last wal_synced]; rewrite Hlog, app_assoc;
      (split; [by exists rest|done]). }
  rewrite Hoff in Hv. subst issued. set (issued := recs ++ _) in *.
  destruct (recover_prefix issued n image_ image_) as (m & s' & Hm & E' & _).
  - by apply Forall_app_2; [|constructor].
  - apply increasing_snoc; [done|]. cbn [offset]. lia.
  - unfold issued. rewrite length_app. lia.
  - intros Hn. unfold issued. rewrite take_app_le by lia. etrans; [by apply H9|]. by rewrite <- Hs.
  - by etrans.
  - eexists m, _. unfold new_wal. rewrite E'. split_and!; [lia|lia|done|done].
Qed.

(** Nothing is lost without a crash: closing a log in any state an
    execution reaches and opening it again gives back exactly the acknowledged
    records, in order, with strictly increasing offsets, and leaves the file as
    it was. *)
Theorem wal_reopen_roundtrip w recs n :
  wal_run w recs n →
  increasing 0 recs ∧
  open_and_recover calm (new_wal (wal_file w)) =
    (Ok recs, {| fd_ := true; last_offset_ := last_of 0 recs; wal_file := wal_file w;
                 wal_synced := wal_file w |}).
Proof. apply wal_reopen. Qed.

(** C30. Recovery is total on files and repairs what it opens: on every file
    smaller than 4 GiB the loop ends, and when it returns, the offsets are
    strictly increasing, the file left behind is a well-formed log of exactly
    the records returned, and opening it again changes nothing. *)
Theorem wal_recovery_repairs os file r w :
  len file < 2 ^ 32 → open_and_recover os (new_wal file) = (r, w) →
  r ≠ Throw (undefined_behaviour "out of fuel") ∧
  ∀ recs, r = Ok recs →
    increasing 0 recs ∧ last_offset_ w = last_of 0 recs ∧
    ∃ reserved, is_u32 reserved ∧ wal_file w = header_with reserved ++ image recs ∧
    ∃ w', open_and_recover calm (new_wal (wal_file w)) = (Ok recs, w') ∧ wal_file w' = wal_file w.
Proof.
  intros Hlen E. split; [by eapply open_fuel|]. intros recs ->. apply open_calm in E.
  destruct (open_shape file recs w Hlen E) as (reserved & Hr & Hv & Hi & Hl & Hf).
  split_and!; [done|done|]. exists reserved. split_and!; [done|done|].
  pose proof (open_image reserved recs [] (wal_file w) Hr Hv Hi stops_nil) as E'.
  rewrite app_nil_r in E'. unfold new_wal. rewrite Hf in E' |- *. rewrite E'. eauto.
Qed.

(** C24. A damaged record is never replayed.  When one byte of a record's
    contents or checksum has changed, recovery keeps exactly the records before
    it and cuts the log there. *)
Theorem wal_damaged_record_cut pre r post i b :
  Forall valid_record (pre ++ [r]) → increasing 0 pre →
  (4 <= i < length (record_image r))%nat → record_image r !! i ≠ Some b →
  ∃ w, open_and_recover calm (new_wal (log pre ++ <[i := b]> (record_image r) ++ post)) = (Ok pre, w) ∧
       wal_file w = log pre.
Proof.
  intros Hv Hi Hrange Hb. apply Forall_app in Hv as [Hvp [Hr _]%Forall_cons].
  destruct (damaged_frame r i b Hr Hrange Hb) as (body & crc & -> & Hl & Hcrc & Hne).
  unfold new_wal. rewrite open_log; [eauto|done|done|].
  intros fuel ve last acc. rewrite <- !app_assoc. apply scan_bad_crc; [| |done|done]; rewrite Hl.
  - by apply body_u32.
  - rewrite len_body. destruct Hr as (_ & _ & ?). pose proof (len_nonneg (payload r)). lia.
Qed.

(** C35. The length check of the recovery loop computes [length + 4U] in 32 bits:
    a damaged length field of 2^32 - 4 or more passes it and the loop removes
    more bytes than the view has, which is undefined behaviour. *)
Theorem wal_length_check_wraps pre field probe :
  Forall valid_record pre → increasing 0 pre →
  2 ^ 32 - 4 <= field < 2 ^ 32 → 4 <= len probe < field →
  fst (open_and_recover calm (new_wal (log pre ++ append_u32 [] field ++ probe))) =
  Throw (undefined_behaviour "remove_prefix past the end of the view").
Proof. apply open_log_length. Qed.

(** ** The hypotheses at a concrete log *)

Definition demo_payload : bytes := encode_set_payload (str "k") (str "v") None.
Definition demo_record : WalRecord := {| offset := 1; opcode := op_set; payload := demo_payload |}.

(** A log that holds one synced record. *)
Definition demo_wal : WalWriter :=
  {| fd_ := true; last_offset_ := 1; wal_file := log [demo_record]; wal_synced := log [demo_record] |}.

Lemma demo_wal_run : wal_run demo_wal [demo_record] 1.
Proof.
  apply (run_sync calm {| fd_ := true; last_offset_ := 1; wal_file := log [demo_record]; wal_synced := [] |}
    [demo_record] 0 tt); [|vm_compute; reflexivity].
  apply (run_append calm {| fd_ := true; last_offset_ := 0; wal_file := log []; wal_synced := [] |} [] 0
    op_set demo_payload 1); [|split; [done|reflexivity]|reflexivity..|vm_compute; reflexivity].
  apply (run_create calm). vm_compute. reflexivity.
Qed.

(** The second append writes four bytes and then fails: the synced record is
    recovered, and nothing of the other one. *)
Lemma wal_crash_recovery_witness :
  ∃ m w'', (1 <= m <= 2)%nat ∧
    open_and_recover calm (new_wal (log [demo_record] ++ take 4 (record_image demo_record))) =
      (Ok (take m [demo_record; {| offset := 2; opcode := op_set; payload := demo_payload |}]), w'').
Proof.
  set (os := {| sys_ok := λ _, true; os_writes := λ _, [interrupted; wrote 4; write_failed] |}).
  destruct (wal_crash_recovery os demo_wal [demo_record] 1 op_set demo_payload
    (Throw (system_error "write"))
    {| fd_ := true; last_offset_ := 1; wal_file := log [demo_record] ++ take 4 (record_image demo_record);
       wal_synced := log [demo_record] |}
    (log [demo_record] ++ take 4 (record_image demo_record)) demo_wal_run)
    as (m & w'' & Hm & E & _).
  - split; [done|reflexivity].
  - reflexivity.
  - reflexivity.
  - vm_compute. reflexivity.
  - split; [by eexists|done].
  - exists m, w''. split; [exact Hm|exact E].
Defined.

Lemma wal_reopen_roundtrip_witness :
  fst (open_and_recover calm (new_wal (wal_file demo_wal))) = Ok [demo_record].
Proof. rewrite (proj2 (wal_reopen_roundtrip demo_wal [demo_record] 1 demo_wal_run)). reflexivity. Defined.

(** A log followed by four bytes that are no record. *)
Lemma wal_recovery_repairs_witness :
  let file := log [demo_record] ++ str "oops" in
  ∃ w, open_and_recover calm (new_wal file) = (Ok [demo_record], w) ∧ last_offset_ w = 1 ∧
       ∃ w', open_and_recover calm (new_wal (wal_file w)) = (Ok [demo_record], w').
Proof.
  intros file.
  destruct (open_and_recover calm (new_wal file)) as [r w] eqn:E.
  destruct (wal_recovery_repairs calm file r w ltac:(reflexivity) E) as [_ H].
  assert (r = Ok [demo_record]) as -> by (apply (f_equal fst) in E; vm_compute in E; symmetry; exact E).
  destruct (H _ eq_refl) as (_ & Hl & _ & _ & _ & w' & E' & _).
  exists w. split; [reflexivity|]. split; [exact Hl|]. exists w'. exact E'.
Defined.

Lemma wal_damaged_record_cut_witness :
  ∃ w, open_and_recover calm (new_wal (log [] ++ <[14%nat := Byte.xff]> (record_image demo_record) ++ []))
         = (Ok [], w) ∧ wal_file w = log [].
Proof.
  apply (wal_damaged_record_cut [] demo_record [] 14 Byte.xff).
  - apply (bool_decide_unpack _). vm_compute. exact I.
  - exact I.
  - vm_compute. lia.
  - vm_compute. discriminate.
Defined.

Lemma wal_length_check_wraps_witness :
  fst (open_and_recover calm (new_wal (log [] ++ append_u32 [] (2 ^ 32 - 1) ++ str "torn"))) =
  Throw (undefined_behaviour "remove_prefix past the end of the view").
Proof.
  apply (wal_length_check_wraps [] (2 ^ 32 - 1) (str "torn")); [constructor|exact I|lia|vm_compute; done].
Defined.
