(* ===== verification/Store.v ===== *)
(** * The sharded store

    [include/novacache/store/{value,clock,store}.hpp] and
    [src/store/store.cpp].  Every operation of [Store] is the sequential
    composition of its critical sections; [get_shared]/[get_exclusive] and
    their like are the two sections of an operation that takes the shared lock
    first and the exclusive one only for an expired entry. *)

From S2P Require Import Prelude.

(** ** Data *)

Abbreviation StringList := (list bytes).
Abbreviation StringSet := (gset bytes).

Inductive Value :=
| VString (stored : bytes)
| VInt (stored : Z)
| VList (stored : StringList)
| VSet (stored : StringSet).

#[export] Instance Value_eq_decision : EqDecision Value.
Proof. solve_decision. Defined.

(** One instant, as the two clocks read it: [std::chrono::steady_clock] in
    nanoseconds and [std::chrono::system_clock] in microseconds (the units of
    the standard library of the target platform). *)
Record Tick := { mono : Z; wall : Z }.

(** The clock of an operation: the instants of its successive readings. *)
Definition Clock : Type := nat → Tick.

(** The clock seen after the first [n] readings. *)
Definition later (n : nat) (clk : Clock) : Clock := λ i, clk (n + i)%nat.

(** The clock that stands still, as the tests' manual clock does. *)
Definition frozen (t : Tick) : Clock := λ _, t.

(** [mono + (wall_b - wall_a)]: microseconds are converted to nanoseconds. *)
Definition wall_to_mono (d : Z) : Z := d * 1000.

Definition seconds_to_wall (s : Z) : Z := s * 1000000.

(** [duration_cast<seconds>] of a steady-clock duration truncates. *)
Definition mono_to_seconds (d : Z) : Z := Z.quot d 1000000000.

Record Entry := {
  value : Value;
  expires_at : option Z;
  expires_at_wall : option Z;
  stored_bytes : Z;
}.

#[export] Instance Entry_eq_decision : EqDecision Entry.
Proof. solve_decision. Defined.

Record PersistedEntry := {
  pkey : bytes;
  pvalue : Value;
  pexpiry_wall : option Z;
}.

Inductive KeysStatus := keys_ok | unsupported_pattern.

Record KeysResult := {
  keys_status : KeysStatus;
  keys_keys : list bytes;
}.

(** What the implementation leaves open: [std::hash], [sizeof(Entry)] and the
    iteration orders of the unordered containers. *)
Class Platform := {
  std_hash : bytes → Z;
  sizeof_Entry : Z;
  map_order : gmap bytes Entry → list (bytes * Entry);
  set_order : gset bytes → list bytes;
}.

(** What the language promises about them: an iteration visits every element
    of the container exactly once. *)
Class PlatformOk `{Platform} := {
  map_order_perm m : map_order m ≡ₚ map_to_list m;
  set_order_perm s : set_order s ≡ₚ elements s;
}.

Record Store := {
  shards_ : list (gmap bytes Entry);
  approximate_memory_ : Z;
  expired_keys_ : Z;
}.

Section Operations.
Context `{Platform}.

(** ** Helpers of the class *)

(** [Store::Store]. *)
Definition new_store (shard_count : Z) : result Store :=
  if shard_count =? 0 then throw invalid_argument "store shard count must be greater than zero"
  else Ok {| shards_ := replicate (Z.to_nat shard_count) ∅;
             approximate_memory_ := 0; expired_keys_ := 0 |}.

Definition shard_index (s : Store) (key : bytes) : nat :=
  Z.to_nat (std_hash key mod len (shards_ s)).

Definition shard_at (s : Store) (i : nat) : gmap bytes Entry := default ∅ (shards_ s !! i).

Definition shard_for (s : Store) (key : bytes) : gmap bytes Entry := shard_at s (shard_index s key).

(** [shard.entries.find(key)] in the shard of [key]. *)
Definition find (s : Store) (key : bytes) : option Entry := shard_for s key !! key.

Definition estimate_bytes (key : bytes) (v : Value) : Z :=
  u64 (len key + sizeof_Entry +
       match v with
       | VString stored => len stored
       | VInt _ => 8
       | VList stored => foldr (λ item total, len item + total) 0 stored
       | VSet stored => foldr (λ item total, len item + total) 0 (set_order stored)
       end).

Definition is_expired (e : Entry) (now : Z) : bool :=
  match expires_at e with Some t => t <=? now | None => false end.

Definition set_shard (s : Store) (i : nat) (m : gmap bytes Entry) : Store :=
  {| shards_ := <[i := m]> (shards_ s);
     approximate_memory_ := approximate_memory_ s; expired_keys_ := expired_keys_ s |}.

Definition sub_memory (s : Store) (n : Z) : Store :=
  {| shards_ := shards_ s;
     approximate_memory_ := u64 (approximate_memory_ s - n); expired_keys_ := expired_keys_ s |}.

Definition add_memory (s : Store) (n : Z) : Store :=
  {| shards_ := shards_ s;
     approximate_memory_ := u64 (approximate_memory_ s + n); expired_keys_ := expired_keys_ s |}.

Definition add_expired (s : Store) (n : Z) : Store :=
  {| shards_ := shards_ s;
     approximate_memory_ := approximate_memory_ s; expired_keys_ := u64 (expired_keys_ s + n) |}.

(** [shard.entries.erase(iterator)] with the memory it gives back. *)
Definition erase_at (s : Store) (i : nat) (key : bytes) (e : Entry) : Store :=
  set_shard (sub_memory s (stored_bytes e)) i (delete key (shard_at s i)).

Definition erase_expired_locked (s : Store) (i : nat) (key : bytes) (e : Entry) (now : Z)
    : bool * Store :=
  if negb (is_expired e now) then (false, s)
  else (true, add_expired (erase_at s i key e) 1).

(** ** Single-key operations *)

(** The deadline is computed in [Z].  From a command, [set] has no deadline; from
    an entry of a snapshot it has one that may be any 64-bit number of
    milliseconds, for which the source's arithmetic may overflow: that is not
    modelled.  For [expire_at] see [expire_at_overflows]. *)
Definition set (clk : Clock) (s : Store) (key : bytes) (v : Value) (expiry_wall : option Z) : Store :=
  let i := shard_index s key in
  let bytes := estimate_bytes key v in
  let now := mono (clk 0%nat) in
  let wall_now := wall (clk 1%nat) in
  let store_entry (expires : option Z) :=
    let entry := {| value := v; expires_at := expires; expires_at_wall := expiry_wall;
                    stored_bytes := bytes |} in
    let s1 :=
      match shard_at s i !! key with
      | Some old =>
          let s0 := if is_expired old now then add_expired s 1 else s in
          sub_memory s0 (stored_bytes old)
      | None => s
      end in
    add_memory (set_shard s1 i (<[key := entry]> (shard_at s1 i))) bytes in
  match expiry_wall with
  | Some w =>
      if w <=? wall_now
      then match shard_at s i !! key with
           | Some old => add_expired (erase_at s i key old) 1
           | None => s
           end
      else store_entry (Some (now + wall_to_mono (w - wall_now)))
  | None => store_entry None
  end.

(** The section under the shared lock: an answer, or [None] to go on. *)
Definition get_shared (s : Store) (key : bytes) (now : Z) : option (option Value) :=
  match find s key with
  | None => Some None
  | Some e => if negb (is_expired e now) then Some (Some (value e)) else None
  end.

(** The section under the exclusive lock. *)
Definition get_exclusive (s : Store) (key : bytes) (now : Z) : option Value * Store :=
  match find s key with
  | None => (None, s)
  | Some e =>
      let '(erased, s') := erase_expired_locked s (shard_index s key) key e now in
      if erased then (None, s') else (Some (value e), s')
  end.

Definition get (clk : Clock) (s : Store) (key : bytes) : option Value * Store :=
  let now := mono (clk 0%nat) in
  match get_shared s key now with
  | Some answer => (answer, s)
  | None => get_exclusive s key now
  end.

Definition del (clk : Clock) (s : Store) (key : bytes) : bool * Store :=
  match find s key with
  | None => (false, s)
  | Some e =>
      let i := shard_index s key in
      let '(erased, s') := erase_expired_locked s i key e (mono (clk 0%nat)) in
      if erased then (false, s') else (true, erase_at s' i key e)
  end.

Definition exists_shared (s : Store) (key : bytes) (now : Z) : option bool :=
  match find s key with
  | None => Some false
  | Some e => if negb (is_expired e now) then Some true else None
  end.

Definition exists_exclusive (s : Store) (key : bytes) (now : Z) : bool * Store :=
  match find s key with
  | None => (false, s)
  | Some e =>
      let '(erased, s') := erase_expired_locked s (shard_index s key) key e now in
      (negb erased, s')
  end.

Definition exists_ (clk : Clock) (s : Store) (key : bytes) : bool * Store :=
  let now := mono (clk 0%nat) in
  match exists_shared s key now with
  | Some answer => (answer, s)
  | None => exists_exclusive s key now
  end.

Definition expire_at (clk : Clock) (s : Store) (key : bytes) (expiry_wall : option Z)
    : bool * Store :=
  match find s key with
  | None => (false, s)
  | Some e =>
      let i := shard_index s key in
      let '(erased, s') := erase_expired_locked s i key e (mono (clk 0%nat)) in
      if erased then (false, s')
      else match expiry_wall with
      | None => (true, erase_at s' i key e)
      | Some w =>
          if w <=? wall (clk 1%nat) then (true, erase_at s' i key e)
          else
            let expires := mono (clk 2%nat) + wall_to_mono (w - wall (clk 3%nat)) in
            let entry := {| value := value e; expires_at := Some expires;
                            expires_at_wall := Some w; stored_bytes := stored_bytes e |} in
            (true, set_shard s' i (<[key := entry]> (shard_at s' i)))
      end
  end.

Definition expire (clk : Clock) (s : Store) (key : bytes) (ttl : Z) : bool * Store :=
  if ttl <=? 0 then expire_at (later 1 clk) s key (Some (wall (clk 0%nat)))
  else expire_at (later 1 clk) s key (Some (wall (clk 0%nat) + seconds_to_wall ttl)).

(** The instants are 64-bit counts.  The definitions compute deadlines without a
    bound; these say when an operation computes a value that does not fit, which
    has no defined meaning. *)
Definition expire_at_overflows (clk : Clock) (s : Store) (key : bytes) (w : Z) : bool :=
  match find s key with
  | None => false
  | Some e =>
      if is_expired e (mono (clk 0%nat)) || (w <=? wall (clk 1%nat)) then false
      else
        let d := w - wall (clk 3%nat) in
        negb (forallb (λ z, bool_decide (is_i64 z)) [d; wall_to_mono d; mono (clk 2%nat) + wall_to_mono d])
  end.

Definition expire_overflows (clk : Clock) (s : Store) (key : bytes) (ttl : Z) : bool :=
  if ttl <=? 0 then expire_at_overflows (later 1 clk) s key (wall (clk 0%nat))
  else
    let w := wall (clk 0%nat) + seconds_to_wall ttl in
    negb (forallb (λ z, bool_decide (is_i64 z)) [seconds_to_wall ttl; w]) ||
    expire_at_overflows (later 1 clk) s key w.

Definition ttl_shared (s : Store) (key : bytes) (now : Z) : option Z :=
  match find s key with
  | None => Some (-2)
  | Some e =>
      match expires_at e with
      | None => Some (-1)
      | Some t => if t >? now then Some (mono_to_seconds (t - now)) else None
      end
  end.

Definition ttl_exclusive (s : Store) (key : bytes) (now : Z) : Z * Store :=
  match find s key with
  | None => (-2, s)
  | Some e =>
      match expires_at e with
      | None => (-1, s)
      | Some t =>
          let '(erased, s') := erase_expired_locked s (shard_index s key) key e now in
          if erased then (-2, s') else (mono_to_seconds (t - now), s')
      end
  end.

Definition ttl (clk : Clock) (s : Store) (key : bytes) : Z * Store :=
  let now := mono (clk 0%nat) in
  match ttl_shared s key now with
  | Some answer => (answer, s)
  | None => ttl_exclusive s key now
  end.

Definition expiry_wall_time (clk : Clock) (s : Store) (key : bytes) : option Z * Store :=
  let now := mono (clk 0%nat) in
  match find s key with
  | None => (None, s)
  | Some e =>
      if negb (is_expired e now) then (expires_at_wall e, s)
      else
        let '(erased, s') := erase_expired_locked s (shard_index s key) key e now in
        if erased then (None, s') else (expires_at_wall e, s')
  end.

(** ** Operations on several keys *)

(** [std::unique]: drops every element equal to its predecessor. *)
Fixpoint std_unique (l : list nat) : list nat :=
  match l with
  | [] => []
  | x :: l' =>
      match l' with
      | y :: _ => if bool_decide (x = y) then std_unique l' else x :: std_unique l'
      | [] => [x]
      end
  end.

(** The mutexes of a vector of shards are ordered as their indices. *)
Definition lock_mutexes_in_order (mutexes : list nat) : list nat :=
  std_unique (merge_sort Nat.le mutexes).

(** The locks [del_many] and [exists_many] take, in the order they take them. *)
Definition locks_of (s : Store) (keys : list bytes) : list nat :=
  lock_mutexes_in_order (map (shard_index s) keys).

Fixpoint del_loop (now : Z) (s : Store) (keys : list bytes) (removed : Z) : Z * Store :=
  match keys with
  | [] => (removed, s)
  | key :: keys' =>
      match find s key with
      | None => del_loop now s keys' removed
      | Some e =>
          let i := shard_index s key in
          let '(erased, s') := erase_expired_locked s i key e now in
          if erased then del_loop now s' keys' removed
          else del_loop now (erase_at s' i key e) keys' (removed + 1)
      end
  end.

Definition del_many (clk : Clock) (s : Store) (keys : list bytes) : Z * Store :=
  match keys with [] => (0, s) | _ => del_loop (mono (clk 0%nat)) s keys 0 end.

Fixpoint exists_loop (now : Z) (s : Store) (keys : list bytes) (count : Z) : Z * Store :=
  match keys with
  | [] => (count, s)
  | key :: keys' =>
      match find s key with
      | None => exists_loop now s keys' count
      | Some e =>
          let '(erased, s') := erase_expired_locked s (shard_index s key) key e now in
          if erased then exists_loop now s' keys' count else exists_loop now s' keys' (count + 1)
      end
  end.

Definition exists_many (clk : Clock) (s : Store) (keys : list bytes) : Z * Store :=
  match keys with [] => (0, s) | _ => exists_loop (mono (clk 0%nat)) s keys 0 end.

(** ** Operations on all keys *)

(** The loop over the entries of one shard that [keys] and
    [export_snapshot_entries] share: an expired entry is erased and counted,
    another one is collected. *)
Fixpoint sweep_entries {A} (collect : bytes → Entry → A) (now : Z) (i : nat)
    (entries : list (bytes * Entry)) (s : Store) (out : list A) : list A * Store :=
  match entries with
  | [] => (out, s)
  | (key, e) :: entries' =>
      if is_expired e now
      then sweep_entries collect now i entries' (add_expired (erase_at s i key e) 1) out
      else sweep_entries collect now i entries' s (out ++ [collect key e])
  end.

Fixpoint sweep_shards {A} (collect : bytes → Entry → A) (now : Z) (indices : list nat)
    (s : Store) (out : list A) : list A * Store :=
  match indices with
  | [] => (out, s)
  | i :: indices' =>
      let '(out', s') := sweep_entries collect now i (map_order (shard_at s i)) s out in
      sweep_shards collect now indices' s' out'
  end.

(** [operator<] on strings compares bytes as unsigned numbers. *)
Fixpoint bytes_leb (a b : bytes) : bool :=
  match a, b with
  | [], _ => true
  | _ :: _, [] => false
  | x :: a', y :: b' =>
      (byte_val x <? byte_val y) || (byte_val x =? byte_val y) && bytes_leb a' b'
  end.

Definition bytes_le (a b : bytes) : Prop := bytes_leb a b = true.

#[export] Instance bytes_le_dec : RelDecision bytes_le.
Proof. intros a b. unfold bytes_le. apply _. Defined.

Definition keys (clk : Clock) (s : Store) (pattern : bytes) : KeysResult * Store :=
  if negb (bool_decide (pattern = str "*"))
  then ({| keys_status := unsupported_pattern; keys_keys := [] |}, s)
  else
    let '(result, s') :=
      sweep_shards (λ key _, key) (mono (clk 0%nat)) (seq 0 (length (shards_ s))) s [] in
    ({| keys_status := keys_ok; keys_keys := merge_sort bytes_le result |}, s').

Definition export_snapshot_entries (clk : Clock) (s : Store) : list PersistedEntry * Store :=
  sweep_shards
    (λ key e, {| pkey := key; pvalue := value e; pexpiry_wall := expires_at_wall e |})
    (mono (clk 0%nat)) (seq 0 (length (shards_ s))) s [].

(** [dist(rng)] at the [attempt]-th sample of shard [i], for a distribution
    over [0 .. size - 1]; [None] is an iterator advanced past the end. *)
Fixpoint sample_loop (rand : nat → nat → nat → nat) (now : Z) (i attempt : nat) (todo : nat)
    (s : Store) (expired : Z) : option (Z * Store) :=
  match todo with
  | O => Some (expired, s)
  | S todo' =>
      let entries := shard_at s i in
      match map_order entries !! rand i attempt (size entries) with
      | None => None
      | Some (key, e) =>
          let '(erased, s') := erase_expired_locked s i key e now in
          sample_loop rand now i (S attempt) todo' s' (if erased then expired + 1 else expired)
      end
  end.

Fixpoint expire_shards (rand : nat → nat → nat → nat) (now : Z) (samples_per_shard : nat)
    (indices : list nat) (s : Store) (expired : Z) : option (Z * Store) :=
  match indices with
  | [] => Some (expired, s)
  | i :: indices' =>
      if bool_decide (shard_at s i = ∅) then expire_shards rand now samples_per_shard indices' s expired
      else
        let samples := Nat.min samples_per_shard (size (shard_at s i)) in
        match sample_loop rand now i 0 samples s expired with
        | None => None
        | Some (expired', s') => expire_shards rand now samples_per_shard indices' s' expired'
        end
  end.

Definition active_expire_cycle (rand : nat → nat → nat → nat) (clk : Clock) (s : Store)
    (samples_per_shard : nat) : option (Z * Store) :=
  if bool_decide (samples_per_shard = 0%nat) then Some (0, s)
  else expire_shards rand (mono (clk 0%nat)) samples_per_shard (seq 0 (length (shards_ s))) s 0.

Definition clear (s : Store) : Store :=
  {| shards_ := map (λ _, ∅) (shards_ s); approximate_memory_ := 0;
     expired_keys_ := expired_keys_ s |}.

Definition import_snapshot_entry (clk : Clock) (s : Store) (entry : PersistedEntry) : Store :=
  set clk s (pkey entry) (pvalue entry) (pexpiry_wall entry).

Definition shard_count (s : Store) : Z := len (shards_ s).

Definition approximate_memory (s : Store) : Z := approximate_memory_ s.
Definition expired_keys (s : Store) : Z := expired_keys_ s.
End Operations.
