(* ===== verification/StoreInv.v ===== *)
(** * The invariant of the store and its primitive updates

    A key lives in the shard its hash selects, and nowhere else; the memory
    counter is the sum of the sizes of the stored entries; an entry has a
    monotonic deadline exactly when it has a wall-clock one.  Every operation
    is a sequence of the updates treated here. *)

From S2P Require Import Prelude Store.

Section Invariant.
Context `{PO : PlatformOk}.

(** ** The invariant *)

Definition shard_bytes (m : gmap bytes Entry) : Z := map_fold (λ _ e acc, stored_bytes e + acc) 0 m.

Definition total_bytes (shards : list (gmap bytes Entry)) : Z :=
  foldr (λ m acc, shard_bytes m + acc) 0 shards.

Definition entry_ok (k : bytes) (e : Entry) : Prop :=
  stored_bytes e = estimate_bytes k (value e) ∧
  (is_Some (expires_at e) ↔ is_Some (expires_at_wall e)).

Record wf (s : Store) : Prop := {
  wf_shards : shards_ s ≠ [];
  wf_home : ∀ i k e, shard_at s i !! k = Some e → i = shard_index s k;
  wf_entry : ∀ i k e, shard_at s i !! k = Some e → entry_ok k e;
  wf_memory : approximate_memory_ s = u64 (total_bytes (shards_ s));
}.

(** ** Lookups *)

Lemma shard_index_lt s k : shards_ s ≠ [] → (shard_index s k < length (shards_ s))%nat.
Proof.
  intros Hs. unfold shard_index, len. destruct (shards_ s) as [|m l]; [done|].
  pose proof (Z.mod_pos_bound (std_hash k) (Z.of_nat (length (m :: l))) ltac:(simpl; lia)). lia.
Qed.

Lemma shard_at_set s i m j :
  (i < length (shards_ s))%nat →
  shard_at (set_shard s i m) j = if decide (j = i) then m else shard_at s j.
Proof.
  intros Hi. unfold shard_at, set_shard. cbn [shards_]. case_decide.
  - subst. by rewrite list_lookup_insert_eq.
  - by rewrite list_lookup_insert_ne.
Qed.

Lemma shard_index_set s i m k : shard_index (set_shard s i m) k = shard_index s k.
Proof. unfold shard_index, len, set_shard. cbn [shards_]. by rewrite length_insert. Qed.

Lemma find_set_shard s k m k' :
  shards_ s ≠ [] →
  (∀ k'', k'' ≠ k → m !! k'' = shard_for s k !! k'') →
  find (set_shard s (shard_index s k) m) k' = if decide (k' = k) then m !! k else find s k'.
Proof.
  intros Hs Hm. unfold find, shard_for. rewrite shard_index_set.
  rewrite shard_at_set by (by apply shard_index_lt).
  case_decide as Hi; case_decide as Hk; subst; [done| |done|done].
  rewrite Hm by done. unfold shard_for. by rewrite Hi.
Qed.

(** ** The memory counter *)

Lemma shard_bytes_delete m k e :
  m !! k = Some e → shard_bytes m = stored_bytes e + shard_bytes (delete k m).
Proof. intros Hk. unfold shard_bytes. apply (map_fold_delete_L (λ _ e acc, stored_bytes e + acc)); [|done]. intros. lia. Qed.

Lemma shard_bytes_insert m k e :
  m !! k = None → shard_bytes (<[k := e]> m) = stored_bytes e + shard_bytes m.
Proof. intros Hk. unfold shard_bytes. apply (map_fold_insert_L (λ _ e acc, stored_bytes e + acc)); [|done]. intros. lia. Qed.

Lemma shard_bytes_replace m k e e' :
  m !! k = Some e →
  shard_bytes (<[k := e']> m) = shard_bytes m - stored_bytes e + stored_bytes e'.
Proof.
  intros Hk. rewrite <- insert_delete_eq, shard_bytes_insert by apply lookup_delete_eq.
  rewrite (shard_bytes_delete m k e Hk). lia.
Qed.

Lemma total_bytes_insert l i m m0 :
  l !! i = Some m0 → total_bytes (<[i := m]> l) = total_bytes l - shard_bytes m0 + shard_bytes m.
Proof.
  revert i. induction l as [|x l IH]; intros [|i] Hi; simpl in *; [done|done| |].
  - injection Hi as ->. lia.
  - rewrite (IH _ Hi). lia.
Qed.

Lemma total_bytes_set s i m :
  (i < length (shards_ s))%nat →
  total_bytes (shards_ (set_shard s i m)) =
  total_bytes (shards_ s) - shard_bytes (shard_at s i) + shard_bytes m.
Proof.
  intros Hi. apply lookup_lt_is_Some in Hi as [m0 Hm0]. unfold set_shard, shard_at. cbn [shards_].
  rewrite Hm0. by apply total_bytes_insert.
Qed.

Lemma u64_sub_idemp a b : u64 (u64 a - b) = u64 (a - b).
Proof. unfold u64. by rewrite Zminus_mod_idemp_l. Qed.
Lemma u64_add_idemp a b : u64 (u64 a + b) = u64 (a + b).
Proof. unfold u64. by rewrite Zplus_mod_idemp_l. Qed.

(** ** Counting an expired key *)

Lemma find_add_expired s n k : find (add_expired s n) k = find s k.
Proof. done. Qed.

Lemma wf_add_expired s n : wf s → wf (add_expired s n).
Proof. intros []. by split. Qed.

(** ** Writing a shard back *)

Lemma wf_set_shard s s1 i m :
  wf s → shards_ s1 = shards_ s → (i < length (shards_ s))%nat →
  (∀ k e, m !! k = Some e → i = shard_index s k ∧ entry_ok k e) →
  approximate_memory_ s1 = u64 (total_bytes (shards_ s) - shard_bytes (shard_at s i) + shard_bytes m) →
  wf (set_shard s1 i m).
Proof.
  intros Hwf Hsh Hi Hm Hmem.
  assert (∀ j, shard_at s1 j = shard_at s j) as Hat by (intros; unfold shard_at; by rewrite Hsh).
  assert (∀ k, shard_index s1 k = shard_index s k) as Hix
    by (intros; unfold shard_index; by rewrite Hsh).
  split.
  - intros Hn. apply (f_equal length) in Hn. unfold set_shard in Hn. cbn [shards_] in Hn.
    rewrite length_insert, Hsh in Hn. simpl in Hn. lia.
  - intros j k e. rewrite shard_at_set by (by rewrite Hsh). rewrite shard_index_set, Hix, Hat.
    case_decide as Hj; [subst j; intros He; by apply Hm in He as [? _]|]. apply Hwf.
  - intros j k e. rewrite shard_at_set by (by rewrite Hsh). rewrite Hat.
    case_decide; [intros He; by apply Hm in He as [_ ?]|]. apply (wf_entry s Hwf).
  - rewrite total_bytes_set by (by rewrite Hsh). rewrite Hat, Hsh. exact Hmem.
Qed.

(** ** Erasing an entry *)

Lemma find_erase s k e k' :
  shards_ s ≠ [] → find (erase_at s (shard_index s k) k e) k' =
  if decide (k' = k) then None else find s k'.
Proof.
  intros Hs. unfold erase_at.
  change (shard_index s k) with (shard_index (sub_memory s (stored_bytes e)) k).
  rewrite find_set_shard; [|done|].
  - by rewrite lookup_delete_eq.
  - intros k'' Hk. by rewrite lookup_delete_ne.
Qed.

Lemma wf_erase s k e : wf s → find s k = Some e → wf (erase_at s (shard_index s k) k e).
Proof.
  intros Hwf Hk. unfold erase_at.
  apply (wf_set_shard s); [done|done|apply shard_index_lt, Hwf| |].
  - intros k' e' He'. apply lookup_delete_Some in He' as [_ He'].
    split; [by eapply wf_home|by eapply wf_entry].
  - unfold sub_memory. cbn [approximate_memory_]. rewrite (wf_memory s Hwf), u64_sub_idemp.
    rewrite (shard_bytes_delete (shard_at s _) k e Hk). f_equal. lia.
Qed.

Lemma shard_index_erase s i k e k' : shard_index (erase_at s i k e) k' = shard_index s k'.
Proof. unfold erase_at. by rewrite shard_index_set. Qed.

Lemma shard_at_erase_ne s i k e j : j ≠ i → shard_at (erase_at s i k e) j = shard_at s j.
Proof.
  intros Hj. unfold erase_at, shard_at, set_shard. cbn [shards_ sub_memory].
  by rewrite list_lookup_insert_ne.
Qed.

Lemma length_shards_erase s i k e : length (shards_ (erase_at s i k e)) = length (shards_ s).
Proof. unfold erase_at, set_shard. cbn [shards_ sub_memory]. apply length_insert. Qed.

(** ** Storing an entry *)

(** What [set] and [expire_at] do to the shards and the memory counter. *)
Definition put_entry (s : Store) (k : bytes) (e : Entry) : Store :=
  let old := match find s k with Some e0 => stored_bytes e0 | None => 0 end in
  set_shard (add_memory (sub_memory s old) (stored_bytes e)) (shard_index s k)
    (<[k := e]> (shard_for s k)).

Lemma find_put s k e k' :
  shards_ s ≠ [] → find (put_entry s k e) k' = if decide (k' = k) then Some e else find s k'.
Proof.
  intros Hs. unfold put_entry. set (s1 := add_memory _ _).
  change (shard_index s k) with (shard_index s1 k). rewrite find_set_shard; [|done|].
  - by rewrite lookup_insert_eq.
  - intros k'' Hk. by rewrite lookup_insert_ne.
Qed.

Lemma wf_put s k e : wf s → entry_ok k e → wf (put_entry s k e).
Proof.
  intros Hwf He. unfold put_entry.
  apply (wf_set_shard s); [done|done|apply shard_index_lt, Hwf| |].
  - intros k' e' Hk'. apply lookup_insert_Some in Hk' as [[<- <-]|[_ Hk']]; [done|].
    split; [by eapply wf_home|by eapply wf_entry].
  - unfold sub_memory, add_memory. cbn [approximate_memory_].
    rewrite u64_add_idemp, (wf_memory s Hwf). unfold find, shard_for.
    destruct (shard_at s (shard_index s k) !! k) as [e0|] eqn:E.
    + rewrite (shard_bytes_replace _ _ e0) by done.
      replace (u64 _ - stored_bytes e0 + stored_bytes e)
        with (u64 (total_bytes (shards_ s)) + (stored_bytes e - stored_bytes e0)) by lia.
      rewrite u64_add_idemp. f_equal. lia.
    + rewrite shard_bytes_insert by done. rewrite Z.sub_0_r, u64_add_idemp. f_equal. lia.
Qed.
End Invariant.
