(* ===== verification/StoreSpec.v ===== *)
(** * The store as a map with deadlines

    The abstract contract of [Store]: at an instant, a finite map from keys to
    live cells.  There are no shards in it, no lazy or active deletion and no
    counters.  [run_refines] relates every operation of the implementation to
    the operation of the same name on the map. *)

From S2P Require Import Prelude Store StoreInv.

(** ** The abstract state *)

Record Cell := {
  cell_value : Value;
  cell_deadline : option Z;
  cell_wall : option Z;
}.

Definition cell_of (e : Entry) : Cell :=
  {| cell_value := value e; cell_deadline := expires_at e; cell_wall := expires_at_wall e |}.

(** The cell of an entry, unless its deadline has passed. *)
Definition live (now : Z) (e : Entry) : option Cell :=
  if is_expired e now then None else Some (cell_of e).

Definition contents (s : Store) : gmap bytes Entry := ⋃ shards_ s.

(** What a client can observe of the store at the instant [now]. *)
Definition view (now : Z) (s : Store) : gmap bytes Cell := omap (live now) (contents s).

(** ** The abstract operations *)

Definition cell_due (now : Z) (c : Cell) : bool :=
  match cell_deadline c with Some t => t <=? now | None => false end.

Definition spec_put (now : Z) (m : gmap bytes Cell) (k : bytes) (c : Cell) : gmap bytes Cell :=
  if cell_due now c then delete k m else <[k := c]> m.

(** A cell whose absolute deadline [w] is turned into a monotonic one with the
    clock readings [now] and [wall_now]. *)
Definition timed_cell (v : Value) (now wall_now w : Z) : Cell :=
  {| cell_value := v; cell_deadline := Some (now + wall_to_mono (w - wall_now)); cell_wall := Some w |}.

Definition spec_set (clk : Clock) (m : gmap bytes Cell) (k : bytes) (v : Value) (w : option Z)
    : gmap bytes Cell :=
  match w with
  | None => <[k := {| cell_value := v; cell_deadline := None; cell_wall := None |}]> m
  | Some w =>
      if w <=? wall (clk 1%nat) then delete k m
      else <[k := timed_cell v (mono (clk 0%nat)) (wall (clk 1%nat)) w]> m
  end.

Definition spec_expire_at (clk : Clock) (m : gmap bytes Cell) (k : bytes) (w : option Z)
    : bool * gmap bytes Cell :=
  match m !! k with
  | None => (false, m)
  | Some c =>
      match w with
      | None => (true, delete k m)
      | Some w =>
          if w <=? wall (clk 1%nat) then (true, delete k m)
          else (true, spec_put (mono (clk 0%nat)) m k
                        (timed_cell (cell_value c) (mono (clk 2%nat)) (wall (clk 3%nat)) w))
      end
  end.

Definition spec_ttl (now : Z) (m : gmap bytes Cell) (k : bytes) : Z :=
  match m !! k with
  | None => -2
  | Some c => match cell_deadline c with None => -1 | Some t => mono_to_seconds (t - now) end
  end.

(** The keys of the map, each one once, in the order of their bytes. *)
Definition spec_keys (m : gmap bytes Cell) : list bytes := merge_sort bytes_le (elements (dom m)).

Definition spec_delete_all (m : gmap bytes Cell) (ks : list bytes) : gmap bytes Cell :=
  filter (λ p, p.1 ∉ ks) m.

(** The number of distinct keys of the map among [ks]. *)
Definition spec_count_distinct (m : gmap bytes Cell) (ks : list bytes) : Z :=
  Z.of_nat (size (dom m ∩ list_to_set ks)).

(** The number of positions of [ks] that hold a key of the map. *)
Definition spec_count (m : gmap bytes Cell) (ks : list bytes) : Z :=
  len (filter (λ k, is_Some (m !! k)) ks).

(** ** Operations and replies *)

Inductive Op :=
| OpSet (k : bytes) (v : Value) (w : option Z)
| OpGet (k : bytes)
| OpDel (k : bytes)
| OpDelMany (ks : list bytes)
| OpExists (k : bytes)
| OpExistsMany (ks : list bytes)
| OpExpire (k : bytes) (ttl : Z)
| OpExpireAt (k : bytes) (w : option Z)
| OpTtl (k : bytes)
| OpExpiryWallTime (k : bytes)
| OpKeys (pattern : bytes)
| OpClear.

Inductive Reply :=
| RNothing
| RValue (v : option Value)
| RBool (b : bool)
| RInt (z : Z)
| RWall (w : option Z)
| RKeys (status : KeysStatus) (ks : list bytes).

(** The instant at which the operation tests deadlines. *)
Definition op_now (op : Op) (clk : Clock) : Z :=
  match op with OpExpire _ _ => mono (clk 1%nat) | _ => mono (clk 0%nat) end.

Definition spec (op : Op) (clk : Clock) (m : gmap bytes Cell) : Reply * gmap bytes Cell :=
  match op with
  | OpSet k v w => (RNothing, spec_set clk m k v w)
  | OpGet k => (RValue (cell_value <$> m !! k), m)
  | OpDel k => (RBool (bool_decide (is_Some (m !! k))), delete k m)
  | OpDelMany ks => (RInt (spec_count_distinct m ks), spec_delete_all m ks)
  | OpExists k => (RBool (bool_decide (is_Some (m !! k))), m)
  | OpExistsMany ks => (RInt (spec_count m ks), m)
  | OpExpire k ttl =>
      let '(b, m') := spec_expire_at (later 1 clk) m k
        (Some (wall (clk 0%nat) + if ttl <=? 0 then 0 else seconds_to_wall ttl)) in
      (RBool b, m')
  | OpExpireAt k w => let '(b, m') := spec_expire_at clk m k w in (RBool b, m')
  | OpTtl k => (RInt (spec_ttl (mono (clk 0%nat)) m k), m)
  | OpExpiryWallTime k => (RWall (m !! k ≫= cell_wall), m)
  | OpKeys pattern =>
      if bool_decide (pattern = str "*") then (RKeys keys_ok (spec_keys m), m)
      else (RKeys unsupported_pattern [], m)
  | OpClear => (RNothing, ∅)
  end.

Section Refinement.
Context `{PO : PlatformOk}.

(** The implementation's operation of that name. *)
Definition run (op : Op) (clk : Clock) (s : Store) : Reply * Store :=
  match op with
  | OpSet k v w => (RNothing, set clk s k v w)
  | OpGet k => let '(r, s') := get clk s k in (RValue r, s')
  | OpDel k => let '(r, s') := del clk s k in (RBool r, s')
  | OpDelMany ks => let '(r, s') := del_many clk s ks in (RInt r, s')
  | OpExists k => let '(r, s') := exists_ clk s k in (RBool r, s')
  | OpExistsMany ks => let '(r, s') := exists_many clk s ks in (RInt r, s')
  | OpExpire k t => let '(r, s') := expire clk s k t in (RBool r, s')
  | OpExpireAt k w => let '(r, s') := expire_at clk s k w in (RBool r, s')
  | OpTtl k => let '(r, s') := ttl clk s k in (RInt r, s')
  | OpExpiryWallTime k => let '(r, s') := expiry_wall_time clk s k in (RWall r, s')
  | OpKeys p => let '(r, s') := keys clk s p in (RKeys (keys_status r) (keys_keys r), s')
  | OpClear => (RNothing, clear s)
  end.

(** ** The view and the primitive updates *)

Lemma contents_lookup s k : wf s → contents s !! k = find s k.
Proof.
  intros Hwf. unfold contents. apply option_eq. intros e. rewrite lookup_union_list_Some.
  - split.
    + intros (m & Hm & Hk). apply list_elem_of_lookup in Hm as [i Hi].
      unfold find, shard_for.
      assert (shard_at s i !! k = Some e) as He by (unfold shard_at; by rewrite Hi).
      by rewrite <- (wf_home s Hwf i k e He).
    + intros Hk. pose proof (shard_index_lt s k (wf_shards s Hwf)) as Hi.
      apply lookup_lt_is_Some in Hi as [m Hm]. exists m.
      split; [by eapply list_elem_of_lookup_2|].
      revert Hk. unfold find, shard_for, shard_at. by rewrite Hm.
  - intros i j m m' Hij Hi Hj. apply map_disjoint_spec. intros k' e1 e2 H1 H2. apply Hij.
    rewrite (wf_home s Hwf i k' e1), (wf_home s Hwf j k' e2); [done| |];
      unfold shard_at; by rewrite ?Hi, ?Hj.
Qed.

Lemma view_lookup now s k : wf s → view now s !! k = find s k ≫= live now.
Proof. intros Hwf. unfold view. by rewrite lookup_omap, contents_lookup. Qed.

Lemma view_add_expired now s n : view now (add_expired s n) = view now s.
Proof. done. Qed.

Lemma view_erase now s k e :
  wf s → find s k = Some e → view now (erase_at s (shard_index s k) k e) = delete k (view now s).
Proof.
  intros Hwf Hk. apply map_eq. intros k'. rewrite lookup_delete.
  rewrite !view_lookup, find_erase; [|apply Hwf|done|by apply wf_erase].
  repeat case_decide; subst; simpl; congruence.
Qed.

Lemma view_put now s k e :
  wf s → entry_ok k e →
  view now (put_entry s k e) =
  match live now e with Some c => <[k := c]> (view now s) | None => delete k (view now s) end.
Proof.
  intros Hwf He. apply map_eq. intros k'.
  rewrite view_lookup, find_put; [|apply Hwf|by apply wf_put].
  destruct (live now e) eqn:El; rewrite ?lookup_insert, ?lookup_delete, view_lookup by done;
    repeat case_decide; subst; try congruence; by simpl.
Qed.

(** Erasing an expired entry is not observable. *)
Lemma view_erase_expired now s k e :
  wf s → find s k = Some e → is_expired e now = true →
  view now (erase_at s (shard_index s k) k e) = view now s.
Proof.
  intros Hwf Hk He. rewrite view_erase by done. apply delete_id.
  rewrite view_lookup, Hk by done. simpl. unfold live. by rewrite He.
Qed.

Lemma erase_expired_spec now s k e :
  wf s → find s k = Some e →
  ∃ s', erase_expired_locked s (shard_index s k) k e now = (is_expired e now, s') ∧
        wf s' ∧ view now s' = view now s ∧ (is_expired e now = false → s' = s).
Proof.
  intros Hwf Hk. unfold erase_expired_locked. destruct (is_expired e now) eqn:He; simpl; eexists;
    (split; [done|]).
  - split_and!; [by apply wf_add_expired, wf_erase|by apply view_erase_expired|done].
  - split_and!; done.
Qed.
End Refinement.
