(* ===== verification/StoreCorrect.v ===== *)
(** * Correctness of the store

    Each operation against the abstract map of [StoreSpec], the preservation
    of the invariant, and the consequences a client relies on. *)

From S2P Require Import Prelude Store StoreInv StoreSpec.

Section Correct.
Context `{PO : PlatformOk}.

(** ** States that differ in the counter of expired keys only *)

Lemma wf_same a b :
  shards_ a = shards_ b → approximate_memory_ a = approximate_memory_ b → wf b → wf a.
Proof.
  intros Hs Hm [H1 H2 H3 H4]. split.
  - by rewrite Hs.
  - intros i k e. unfold shard_at, shard_index. rewrite Hs. apply H2.
  - intros i k e. unfold shard_at. rewrite Hs. apply H3.
  - by rewrite Hm, Hs.
Qed.

Lemma view_same now a b : shards_ a = shards_ b → view now a = view now b.
Proof. intros Hs. unfold view, contents. by rewrite Hs. Qed.

(** ** Operations on one key *)

Lemma live_none_expired now s k :
  wf s → view now s !! k = None ↔ match find s k with None => True | Some e => is_expired e now = true end.
Proof.
  intros Hwf. rewrite view_lookup by done. destruct (find s k) as [e|]; simpl; [|done].
  unfold live. by destruct (is_expired e now).
Qed.

(** A key as the implementation finds it: absent, expired or live. *)
Lemma find_cases now s k :
  wf s →
  (find s k = None ∧ view now s !! k = None) ∨
  (∃ e, find s k = Some e ∧ is_expired e now = true ∧ view now s !! k = None) ∨
  (∃ e, find s k = Some e ∧ is_expired e now = false ∧ view now s !! k = Some (cell_of e)).
Proof.
  intros Hwf. rewrite view_lookup by done. destruct (find s k) as [e|]; simpl; [|by left].
  right. unfold live. destruct (is_expired e now) eqn:E; [left|right]; eauto.
Qed.

(** Splits on what is found for [k] in [s], and runs [erase_expired_locked]. *)
Ltac find_case now s k Hwf :=
  destruct (find_cases now s k Hwf) as [[?Hf ?Hv]|[(?e & ?Hf & ?He & ?Hv)|(?e & ?Hf & ?He & ?Hv)]];
  rewrite ?Hf, ?Hv; cbn iota beta;
  try (match goal with
       | He : is_expired ?e now = ?b |- _ =>
           destruct (erase_expired_spec now s k e Hwf Hf) as (?s' & ?Heq & ?Hwf' & ?Hview & ?Hsame);
           rewrite ?He, ?Heq, ?He in *; cbn iota beta
       end).

Lemma get_refines clk s k :
  wf s → let now := mono (clk 0%nat) in
  ∃ s', get clk s k = (cell_value <$> view now s !! k, s') ∧ wf s' ∧ view now s' = view now s.
Proof.
  intros Hwf now. unfold get, get_shared, get_exclusive. fold now.
  find_case now s k Hwf; simpl; eauto.
Qed.

Lemma del_refines clk s k :
  wf s → let now := mono (clk 0%nat) in
  ∃ s', del clk s k = (bool_decide (is_Some (view now s !! k)), s') ∧ wf s' ∧
        view now s' = delete k (view now s).
Proof.
  intros Hwf now. unfold del. fold now. find_case now s k Hwf.
  - exists s. by rewrite delete_id.
  - exists s'. by rewrite Hview, delete_id.
  - rewrite (Hsame eq_refl). eexists. split; [done|].
    split; [by apply wf_erase|by apply view_erase].
Qed.

Lemma exists_refines clk s k :
  wf s → let now := mono (clk 0%nat) in
  ∃ s', exists_ clk s k = (bool_decide (is_Some (view now s !! k)), s') ∧ wf s' ∧
        view now s' = view now s.
Proof.
  intros Hwf now. unfold exists_, exists_shared, exists_exclusive. fold now.
  find_case now s k Hwf; simpl; eauto.
Qed.

Lemma ttl_refines clk s k :
  wf s → let now := mono (clk 0%nat) in
  ∃ s', ttl clk s k = (spec_ttl now (view now s) k, s') ∧ wf s' ∧ view now s' = view now s.
Proof.
  intros Hwf now. unfold ttl, ttl_shared, ttl_exclusive, spec_ttl. fold now.
  find_case now s k Hwf; [eauto| |].
  - unfold is_expired in He. destruct (expires_at e) as [t|] eqn:Et; [|done].
    replace (t >? now) with false by lia. eauto.
  - unfold is_expired in He. simpl. destruct (expires_at e) as [t|] eqn:Et; [|eauto].
    replace (t >? now) with true by lia. eauto.
Qed.

Lemma expiry_wall_time_refines clk s k :
  wf s → let now := mono (clk 0%nat) in
  ∃ s', expiry_wall_time clk s k = (view now s !! k ≫= cell_wall, s') ∧ wf s' ∧
        view now s' = view now s.
Proof.
  intros Hwf now. unfold expiry_wall_time. fold now. find_case now s k Hwf; simpl; eauto.
Qed.

Lemma set_refines clk s k v w :
  wf s → let now := mono (clk 0%nat) in
  wf (set clk s k v w) ∧ view now (set clk s k v w) = spec_set clk (view now s) k v w.
Proof.
  intros Hwf now.
  (* the branch that stores an entry *)
  assert (∀ ex, (is_Some ex ↔ is_Some w) →
    let e := {| value := v; expires_at := ex; expires_at_wall := w;
                stored_bytes := estimate_bytes k v |} in
    let s1 := match find s k with
              | Some old => sub_memory (if is_expired old now then add_expired s 1 else s)
                              (stored_bytes old)
              | None => s end in
    let r := add_memory (set_shard s1 (shard_index s k)
               (<[k := e]> (shard_at s1 (shard_index s k)))) (estimate_bytes k v) in
    wf r ∧ view now r =
      match live now e with Some c => <[k := c]> (view now s) | None => delete k (view now s) end)
    as Hstore.
  { intros ex Hex e s1 r.
    assert (entry_ok k e) as Hok by done.
    assert (shards_ r = shards_ (put_entry s k e)) as Hsh.
    { unfold r, s1, put_entry. destruct (find s k) as [e0|]; [by destruct (is_expired e0 now)|done]. }
    assert (approximate_memory_ r = approximate_memory_ (put_entry s k e)) as Hmem.
    { unfold r, s1, put_entry. destruct (find s k) as [e0|]; simpl.
      - by destruct (is_expired e0 now).
      - by rewrite Z.sub_0_r, u64_add_idemp. }
    split; [by apply (wf_same _ _ Hsh Hmem), wf_put|].
    rewrite (view_same now _ _ Hsh). by apply view_put. }
  unfold set, spec_set. fold now. fold (shard_for s k). fold (find s k).
  destruct w as [w|].
  - destruct (w <=? wall (clk 1%nat)) eqn:Ew.
    + find_case now s k Hwf.
      * by rewrite delete_id.
      * by split; [apply wf_add_expired, wf_erase|apply view_erase].
      * by split; [apply wf_add_expired, wf_erase|apply view_erase].
    + destruct (Hstore (Some (now + wall_to_mono (w - wall (clk 1%nat))))) as [Hw' Hv']; [done|].
      split; [apply Hw'|]. rewrite Hv'. unfold live, is_expired. cbn [expires_at].
      unfold wall_to_mono. cond_case; [lia|done].
  - by apply Hstore.
Qed.

Lemma expire_at_refines clk s k w :
  wf s → let now := mono (clk 0%nat) in
  ∃ s', expire_at clk s k w = (fst (spec_expire_at clk (view now s) k w), s') ∧ wf s' ∧
        view now s' = snd (spec_expire_at clk (view now s) k w).
Proof.
  intros Hwf now. unfold expire_at, spec_expire_at. fold now. find_case now s k Hwf; [eauto|eauto|].
  rewrite (Hsame eq_refl).
  assert (wf (erase_at s (shard_index s k) k e) ∧
    view now (erase_at s (shard_index s k) k e) = delete k (view now s)) as [Hwe Hve]
    by (split; [by apply wf_erase|by apply view_erase]).
  destruct w as [w|]; [|eauto]. destruct (w <=? wall (clk 1%nat)) eqn:Ew; [eauto|].
  eexists. split; [done|]. simpl.
  set (e' := {| value := value e; expires_at := _; expires_at_wall := _; stored_bytes := _ |}).
  assert (entry_ok k e') as Hok by (split; [by apply (wf_entry s Hwf) in Hf as [? _]|done]).
  set (r := set_shard _ _ _).
  assert (shards_ r = shards_ (put_entry s k e')) as Hsh by done.
  assert (approximate_memory_ r = approximate_memory_ (put_entry s k e')) as Hmem.
  { unfold put_entry. rewrite Hf. simpl. rewrite u64_add_idemp, (wf_memory s Hwf).
    replace (_ - _ + _) with (u64 (total_bytes (shards_ s))) by lia.
    symmetry. apply u64_id, u64_range. }
  split; [by apply (wf_same _ _ Hsh Hmem), wf_put|].
  rewrite (view_same now _ _ Hsh), view_put by done. unfold spec_put, live, cell_due, is_expired.
  cbn. by destruct (_ <=? now).
Qed.

Lemma expire_refines clk s k t :
  wf s → let now := mono (clk 1%nat) in
  ∃ s', run (OpExpire k t) clk s = (fst (spec (OpExpire k t) clk (view now s)), s') ∧ wf s' ∧
        view now s' = snd (spec (OpExpire k t) clk (view now s)).
Proof.
  intros Hwf now. cbn [run spec]. unfold expire.
  destruct (t <=? 0); rewrite ?Z.add_0_r;
    match goal with |- context [expire_at _ s k ?w] =>
      destruct (expire_at_refines (later 1 clk) s k w Hwf) as (s' & -> & ? & ?) end;
    exists s'; change (mono (later 1 clk 0%nat)) with now in *;
    by destruct (spec_expire_at _ _ _ _).
Qed.

(** ** Operations on several keys *)

Lemma count_distinct_cons m k ks :
  spec_count_distinct m (k :: ks) =
  (if decide (is_Some (m !! k)) then 1 else 0) + spec_count_distinct (delete k m) ks.
Proof.
  unfold spec_count_distinct. rewrite list_to_set_cons, dom_delete_L.
  case_decide as Hk.
  - assert (dom m ∩ ({[k]} ∪ list_to_set ks) = {[k]} ∪ (dom m ∖ {[k]}) ∩ list_to_set ks) as ->.
    { apply elem_of_dom in Hk. apply set_eq. intros x. destruct (decide (x = k)); set_solver. }
    rewrite size_union by set_solver. rewrite size_singleton. lia.
  - assert (dom m ∩ ({[k]} ∪ list_to_set ks) = (dom m ∖ {[k]}) ∩ list_to_set ks) as ->; [|lia].
    rewrite <- elem_of_dom in Hk. set_solver.
Qed.

Lemma delete_all_cons m k ks : spec_delete_all m (k :: ks) = spec_delete_all (delete k m) ks.
Proof.
  unfold spec_delete_all. apply map_eq. intros k'. apply option_eq. intros c.
  rewrite !map_lookup_filter_Some, lookup_delete_Some. simpl. set_solver.
Qed.

Lemma delete_all_nil m : spec_delete_all m [] = m.
Proof.
  unfold spec_delete_all. apply map_filter_id. intros. simpl. set_solver.
Qed.

Lemma count_distinct_nil m : spec_count_distinct m [] = 0.
Proof. unfold spec_count_distinct. by rewrite list_to_set_nil, intersection_empty_r_L. Qed.

Lemma del_loop_refines now ks : ∀ s removed,
  wf s →
  ∃ s', del_loop now s ks removed = (removed + spec_count_distinct (view now s) ks, s') ∧ wf s' ∧
        view now s' = spec_delete_all (view now s) ks.
Proof.
  induction ks as [|k ks IH]; intros s removed Hwf; cbn [del_loop].
  - exists s. by rewrite count_distinct_nil, delete_all_nil, Z.add_0_r.
  - rewrite count_distinct_cons, delete_all_cons. find_case now s k Hwf.
    + rewrite delete_id by done. destruct (IH s removed Hwf) as (s' & -> & ?).
      exists s'. case_decide as Hs; [by destruct Hs|]. done.
    + rewrite delete_id by done. destruct (IH s' removed Hwf') as (s'' & -> & ?).
      rewrite Hview in *. exists s''. case_decide as Hs; [by destruct Hs|]. done.
    + rewrite (Hsame eq_refl).
      destruct (IH (erase_at s (shard_index s k) k e) (removed + 1)) as (s'' & -> & ? & Hv');
        [by apply wf_erase|].
      rewrite view_erase in * by done. exists s''. case_decide as Hs; [|by destruct Hs].
      split; [f_equal; lia|done].
Qed.

Lemma exists_loop_refines now ks : ∀ s count,
  wf s →
  ∃ s', exists_loop now s ks count = (count + spec_count (view now s) ks, s') ∧ wf s' ∧
        view now s' = view now s.
Proof.
  induction ks as [|k ks IH]; intros s count Hwf; cbn [exists_loop].
  - exists s. by rewrite Z.add_0_r.
  - unfold spec_count. find_case now s k Hwf.
    + rewrite filter_cons_False by (rewrite Hv; by intros []). by apply IH.
    + rewrite filter_cons_False by (rewrite Hv; by intros []).
      destruct (IH s' count Hwf') as (s'' & -> & ? & ?). exists s''. by rewrite Hview in *.
    + rewrite filter_cons_True by (by rewrite Hv). rewrite (Hsame eq_refl).
      destruct (IH s (count + 1) Hwf) as (s'' & -> & ? & ?). exists s''.
      split; [|done]. rewrite len_cons. unfold spec_count. f_equal. lia.
Qed.

Lemma del_many_refines clk s ks :
  wf s → let now := mono (clk 0%nat) in
  ∃ s', del_many clk s ks = (spec_count_distinct (view now s) ks, s') ∧ wf s' ∧
        view now s' = spec_delete_all (view now s) ks.
Proof.
  intros Hwf now. unfold del_many. destruct ks as [|k ks].
  - exists s. by rewrite count_distinct_nil, delete_all_nil.
  - by apply del_loop_refines.
Qed.

Lemma exists_many_refines clk s ks :
  wf s → let now := mono (clk 0%nat) in
  ∃ s', exists_many clk s ks = (spec_count (view now s) ks, s') ∧ wf s' ∧
        view now s' = view now s.
Proof.
  intros Hwf now. unfold exists_many. destruct ks as [|k ks]; [by exists s|].
  by apply exists_loop_refines.
Qed.

(** ** Sweeps over all keys *)

Definition is_live (now : Z) (p : bytes * Entry) : Prop := is_expired p.2 now = false.
#[export] Instance is_live_dec now p : Decision (is_live now p).
Proof. unfold is_live. apply _. Defined.

Lemma shard_at_length s i k e : shard_at s i !! k = Some e → (i < length (shards_ s))%nat.
Proof.
  unfold shard_at. intros He. apply lookup_lt_is_Some.
  destruct (shards_ s !! i); [done|]. cbn [default] in He. by apply lookup_empty_Some in He.
Qed.

Lemma home_find s i k e :
  wf s → shard_at s i !! k = Some e → i = shard_index s k ∧ find s k = Some e.
Proof. intros Hwf He. pose proof (wf_home s Hwf i k e He) as ->. done. Qed.

Lemma shard_at_erase_eq s i k e :
  (i < length (shards_ s))%nat → shard_at (erase_at s i k e) i = delete k (shard_at s i).
Proof.
  intros Hi. unfold erase_at. rewrite shard_at_set by done. by rewrite decide_True.
Qed.

Lemma sweep_entries_spec {A} (collect : bytes → Entry → A) now i entries : ∀ s out,
  wf s → NoDup entries.*1 → (∀ k e, (k, e) ∈ entries → shard_at s i !! k = Some e) →
  ∃ s', sweep_entries collect now i entries s out =
          (out ++ map (uncurry collect) (filter (is_live now) entries), s') ∧
        wf s' ∧ view now s' = view now s ∧
        length (shards_ s') = length (shards_ s) ∧
        (∀ j, j ≠ i → shard_at s' j = shard_at s j).
Proof.
  induction entries as [|[k e] entries IH]; intros s out Hwf Hnd Hin; cbn [sweep_entries].
  - exists s. by rewrite app_nil_r.
  - rewrite fmap_cons in Hnd. apply NoDup_cons in Hnd as [Hk Hnd].
    assert (shard_at s i !! k = Some e) as Hke by (apply Hin; left).
    destruct (home_find s i k e Hwf Hke) as [Hi Hf].
    destruct (is_expired e now) eqn:He.
    + rewrite filter_cons_False by (unfold is_live; simpl; by rewrite He).
      destruct (IH (add_expired (erase_at s i k e) 1) out) as (s' & -> & Hw' & Hv' & Hl' & Hj').
      * rewrite Hi. by apply wf_add_expired, wf_erase.
      * done.
      * intros k' e' Hin'. change (shard_at (add_expired ?x 1) i) with (shard_at x i).
        rewrite shard_at_erase_eq by (by eapply shard_at_length). rewrite lookup_delete_ne.
        { apply Hin. by right. }
        intros <-. apply Hk. apply list_elem_of_fmap. by exists (k, e').
      * exists s'. split_and!; [done|done| | |].
        -- rewrite Hv', view_add_expired, Hi. by apply view_erase_expired.
        -- rewrite Hl'. apply length_shards_erase.
        -- intros j Hj. rewrite Hj' by done. by apply shard_at_erase_ne.
    + rewrite filter_cons_True by done. cbn [map uncurry].
      destruct (IH s (out ++ [collect k e])) as (s' & -> & ?); [done|done| |].
      * intros k' e' Hin'. apply Hin. by right.
      * exists s'. by rewrite <- app_assoc.
Qed.

(** The live entries in the order the sweep meets them. *)
Definition live_entries (now : Z) (s : Store) (indices : list nat) : list (bytes * Entry) :=
  indices ≫= λ i, filter (is_live now) (map_order (shard_at s i)).

Lemma map_order_elem m k e : (k, e) ∈ map_order m ↔ m !! k = Some e.
Proof. by rewrite map_order_perm, elem_of_map_to_list. Qed.

Lemma map_order_nodup m : NoDup (map_order m).*1.
Proof. rewrite map_order_perm. apply NoDup_fst_map_to_list. Qed.

Lemma sweep_shards_spec {A} (collect : bytes → Entry → A) now indices : ∀ s out,
  wf s → NoDup indices →
  ∃ s', sweep_shards collect now indices s out =
          (out ++ map (uncurry collect) (live_entries now s indices), s') ∧
        wf s' ∧ view now s' = view now s ∧ length (shards_ s') = length (shards_ s).
Proof.
  induction indices as [|i indices IH]; intros s out Hwf Hnd; cbn [sweep_shards].
  - exists s. by rewrite app_nil_r.
  - apply NoDup_cons in Hnd as [Hi Hnd].
    destruct (sweep_entries_spec collect now i (map_order (shard_at s i)) s out)
      as (s1 & -> & Hw1 & Hv1 & Hl1 & Hj1);
      [done|apply map_order_nodup|by intros; apply map_order_elem|].
    destruct (IH s1 (out ++ map (uncurry collect) (filter (is_live now) (map_order (shard_at s i)))))
      as (s2 & -> & Hw2 & Hv2 & Hl2); [done|done|].
    exists s2. split_and!; [|done|congruence|congruence].
    rewrite <- app_assoc, <- map_app. do 3 f_equal. unfold live_entries. rewrite bind_cons. f_equal.
    apply Forall_bind_ext, Forall_forall. intros j Hj. rewrite Hj1; [done|]. by intros ->.
Qed.

(** Over all the shards, the sweep meets the live part of the contents. *)
Lemma live_entries_perm now s :
  wf s →
  live_entries now s (seq 0 (length (shards_ s))) ≡ₚ map_to_list (filter (is_live now) (contents s)).
Proof.
  intros Hwf. apply NoDup_Permutation.
  - apply NoDup_bind; [| |apply NoDup_seq].
    + intros i j [k e] _ _. rewrite !list_elem_of_filter, !map_order_elem. intros [_ Hi] [_ Hj].
      by rewrite (wf_home s Hwf i k e Hi), (wf_home s Hwf j k e Hj).
    + intros i _. apply NoDup_filter, (NoDup_fmap_1 fst), map_order_nodup.
  - apply NoDup_map_to_list.
  - intros [k e]. rewrite elem_of_map_to_list, map_lookup_filter_Some, contents_lookup by done.
    unfold live_entries. rewrite list_elem_of_bind. split.
    + intros (i & Hin & Hi). apply list_elem_of_filter in Hin as [Hl Hk].
      apply map_order_elem in Hk. split; [|done]. by eapply home_find.
    + intros [Hf Hl]. exists (shard_index s k). split.
      * apply list_elem_of_filter. split; [done|]. by apply map_order_elem.
      * apply elem_of_seq. pose proof (shard_index_lt s k (wf_shards s Hwf)). lia.
Qed.

Lemma view_filter now s : view now s = cell_of <$> filter (is_live now) (contents s).
Proof.
  apply map_eq. intros k. unfold view. rewrite lookup_omap, lookup_fmap, map_lookup_filter.
  destruct (contents s !! k) as [e|]; simpl; [|done]. unfold live, is_live.
  destruct (is_expired e now) eqn:He; cbn.
  - rewrite option_guard_False; [done|]. simpl. by rewrite He.
  - by rewrite option_guard_True.
Qed.

#[export] Instance bytes_le_total : Total bytes_le.
Proof.
  intros a. unfold bytes_le. induction a as [|x a IH]; intros [|y b]; simpl; [auto..|].
  specialize (IH b). lia.
Qed.

#[export] Instance bytes_le_trans : Transitive bytes_le.
Proof.
  intros a. unfold bytes_le. induction a as [|x a IH]; intros [|y b] [|z c]; simpl; try done.
  intros H1 H2. specialize (IH b c). lia.
Qed.

#[export] Instance bytes_le_antisymm : AntiSymm (=) bytes_le.
Proof.
  intros a. unfold bytes_le. induction a as [|x a IH]; intros [|y b]; simpl; try done.
  intros H1 H2. assert (byte_val x = byte_val y) as Hv by lia. apply (inj byte_val) in Hv as ->.
  f_equal. apply IH; lia.
Qed.

Lemma merge_sort_perm l1 l2 : l1 ≡ₚ l2 → merge_sort bytes_le l1 = merge_sort bytes_le l2.
Proof.
  intros Hp. apply (StronglySorted_unique bytes_le); [apply StronglySorted_merge_sort; apply _..|].
  by rewrite !merge_sort_Permutation.
Qed.

Lemma keys_refines clk s p :
  wf s → let now := mono (clk 0%nat) in
  ∃ s', run (OpKeys p) clk s = (fst (spec (OpKeys p) clk (view now s)), s') ∧ wf s' ∧
        view now s' = snd (spec (OpKeys p) clk (view now s)).
Proof.
  intros Hwf now. cbn [run spec]. unfold keys. fold now. case_bool_decide; cbn [negb]; [|by exists s].
  destruct (sweep_shards_spec (λ key _, key) now (seq 0 (length (shards_ s))) s [])
    as (s' & -> & Hw & Hv & _); [done|apply NoDup_seq|].
  exists s'. split; [|done]. cbn [keys_status keys_keys fst app]. do 2 f_equal.
  unfold spec_keys. apply merge_sort_perm.
  rewrite live_entries_perm by done. rewrite view_filter, dom_fmap_L.
  set (m := filter _ _). apply NoDup_Permutation.
  - rewrite (map_ext _ fst) by (by intros []). apply NoDup_fst_map_to_list.
  - apply NoDup_elements.
  - intros k. rewrite elem_of_elements, elem_of_dom.
    rewrite (map_ext _ fst) by (by intros []). rewrite list_elem_of_fmap. split.
    + intros ([k' e] & -> & Hin). apply elem_of_map_to_list in Hin. by exists e.
    + intros [e He]. exists (k, e). split; [done|]. by apply elem_of_map_to_list.
Qed.

Definition spec_export (m : gmap bytes Cell) : list PersistedEntry :=
  map (λ p, {| pkey := p.1; pvalue := cell_value p.2; pexpiry_wall := cell_wall p.2 |})
    (map_to_list m).

Lemma export_refines clk s :
  wf s → let now := mono (clk 0%nat) in
  ∃ es s', export_snapshot_entries clk s = (es, s') ∧ wf s' ∧ view now s' = view now s ∧
           es ≡ₚ spec_export (view now s).
Proof.
  intros Hwf now. unfold export_snapshot_entries. fold now.
  edestruct (sweep_shards_spec (λ key e, {| pkey := key; pvalue := value e;
      pexpiry_wall := expires_at_wall e |}) now (seq 0 (length (shards_ s))) s [])
    as (s' & -> & Hw & Hv & _); [done|apply NoDup_seq|].
  do 2 eexists. split; [done|]. split_and!; [done|done|]. cbn [app].
  rewrite live_entries_perm by done. unfold spec_export. rewrite view_filter, map_to_list_fmap.
  rewrite map_map. apply reflexive_eq, map_ext. by intros [].
Qed.

Lemma clear_refines now s : wf s → wf (clear s) ∧ view now (clear s) = ∅.
Proof.
  intros Hwf. assert (∀ i, shard_at (clear s) i = ∅) as Hat.
  { intros i. unfold shard_at, clear. cbn [shards_]. rewrite list_lookup_fmap.
    by destruct (shards_ s !! i). }
  assert (wf (clear s)) as Hc.
  { split.
    - pose proof (wf_shards s Hwf). unfold clear. cbn [shards_]. by destruct (shards_ s).
    - intros i k e. rewrite Hat. intros He. by apply lookup_empty_Some in He.
    - intros i k e. rewrite Hat. intros He. by apply lookup_empty_Some in He.
    - unfold clear. cbn [shards_ approximate_memory_]. induction (shards_ s); [done|].
      cbn [map total_bytes foldr]. done. }
  split; [done|]. apply map_eq. intros k. rewrite view_lookup by done.
  unfold find, shard_for. rewrite Hat, lookup_empty. by rewrite lookup_empty.
Qed.

(** ** Every operation refines the abstract one *)

Lemma run_refines_spec op clk s :
  wf s → let now := op_now op clk in
  ∃ s', run op clk s = (fst (spec op clk (view now s)), s') ∧ wf s' ∧
        view now s' = snd (spec op clk (view now s)).
Proof.
  intros Hwf now. destruct op as [k v w|k|k|ks|k|ks|k t|k w|k|k|p|].
  - exists (set clk s k v w). split; [done|]. by apply set_refines.
  - cbn. destruct (get_refines clk s k Hwf) as (s' & -> & ? & ?). by exists s'.
  - cbn. destruct (del_refines clk s k Hwf) as (s' & -> & ? & ?). by exists s'.
  - cbn. destruct (del_many_refines clk s ks Hwf) as (s' & -> & ? & ?). by exists s'.
  - cbn. destruct (exists_refines clk s k Hwf) as (s' & -> & ? & ?). by exists s'.
  - cbn. destruct (exists_many_refines clk s ks Hwf) as (s' & -> & ? & ?). by exists s'.
  - by apply expire_refines.
  - cbn. destruct (expire_at_refines clk s k w Hwf) as (s' & -> & ? & ?). exists s'.
    change now with (mono (clk 0%nat)). by destruct (spec_expire_at _ _ _ _).
  - cbn. destruct (ttl_refines clk s k Hwf) as (s' & -> & ? & ?). by exists s'.
  - cbn. destruct (expiry_wall_time_refines clk s k Hwf) as (s' & -> & ? & ?). by exists s'.
  - by apply keys_refines.
  - exists (clear s). split; [done|]. by apply clear_refines.
Qed.
End Correct.
