(* ===== verification/StoreTheorems.v ===== *)
(** * The properties of the store

    Reachable states, the refinement of the abstract map, the invisibility of
    shards and of lazy and active deletion, deadlines, and the locking
    discipline. *)

From S2P Require Import Prelude Store StoreInv StoreSpec StoreCorrect.

Section ActiveExpiry.
Context `{PO : PlatformOk}.

(** ** The active expiry cycle *)

(** [std::uniform_int_distribution{0, n - 1}] gives a number below [n]. *)
Definition rand_ok (rand : nat → nat → nat → nat) : Prop :=
  ∀ i attempt n, (0 < n)%nat → (rand i attempt n < n)%nat.

Definition total_entries (s : Store) : nat := sum_list_with size (shards_ s).

Lemma sum_list_insert (l : list (gmap bytes Entry)) i m m0 :
  l !! i = Some m0 →
  (sum_list_with size (<[i := m]> l) + size m0 = sum_list_with size l + size m)%nat.
Proof.
  revert i. induction l as [|x l IH]; intros [|i] Hi; simpl in *; [done|done| |].
  - injection Hi as ->. lia.
  - specialize (IH _ Hi). lia.
Qed.

Lemma total_entries_erase s k e :
  wf s → find s k = Some e →
  (total_entries (erase_at s (shard_index s k) k e) + 1 = total_entries s)%nat.
Proof.
  intros Hwf Hf. unfold total_entries, erase_at, set_shard. cbn [shards_ sub_memory].
  pose proof (shard_index_lt s k (wf_shards s Hwf)) as Hi.
  apply lookup_lt_is_Some in Hi as [m0 Hm0].
  unfold find, shard_for, shard_at in Hf. rewrite Hm0 in Hf. cbn in Hf.
  unfold shard_at. rewrite Hm0. cbn [default from_option id].
  pose proof (sum_list_insert _ _ (delete k m0) _ Hm0) as Hsum.
  pose proof (map_size_delete_Some k m0 (mk_is_Some _ _ Hf)) as Hsz.
  assert (size m0 ≠ 0%nat) as Hne.
  { intros H0. apply map_size_empty_inv in H0. subst. by rewrite lookup_empty in Hf. }
  lia.
Qed.

Section Cycle.
Context (rand : nat → nat → nat → nat) (now : Z).
Hypothesis Hrand : rand_ok rand.

(** What a round of sampling leaves unchanged, and what it removes. *)
Definition expired_from (s s' : Store) (n : nat) : Prop :=
  wf s' ∧ view now s' = view now s ∧ length (shards_ s') = length (shards_ s) ∧
  (total_entries s' + n = total_entries s)%nat.

Lemma expired_from_trans s1 s2 s3 n m :
  expired_from s1 s2 n → expired_from s2 s3 m → expired_from s1 s3 (n + m).
Proof.
  intros (? & Hv1 & Hl1 & ?) (? & Hv2 & Hl2 & ?).
  split_and!; [done|congruence|congruence|lia].
Qed.

Lemma sample_step s i attempt :
  wf s → (0 < size (shard_at s i))%nat →
  ∃ k e s' (n : nat),
    map_order (shard_at s i) !! rand i attempt (size (shard_at s i)) = Some (k, e) ∧
    erase_expired_locked s i k e now = (bool_decide (n = 1%nat), s') ∧ (n <= 1)%nat ∧
    expired_from s s' n ∧ (size (shard_at s i) <= size (shard_at s' i) + 1)%nat.
Proof.
  intros Hwf Hsz.
  assert (length (map_order (shard_at s i)) = size (shard_at s i)) as Hlen.
  { rewrite (Permutation_length (map_order_perm _)). apply length_map_to_list. }
  pose proof (Hrand i attempt _ Hsz) as Hr. rewrite <- Hlen in Hr at 2.
  apply lookup_lt_is_Some in Hr as [[k e] Hke]. exists k, e.
  assert (shard_at s i !! k = Some e) as He.
  { apply map_order_elem. by eapply list_elem_of_lookup_2. }
  destruct (home_find s i k e Hwf He) as [Hi Hf].
  unfold erase_expired_locked. destruct (is_expired e now) eqn:Hexp; cbn [negb].
  - eexists _, 1%nat. split_and!; [done|done|lia| |].
    + rewrite Hi. split_and!; [by apply wf_add_expired, wf_erase|by apply view_erase_expired| |].
      * apply length_shards_erase.
      * by apply total_entries_erase.
    + change (shard_at (add_expired ?x 1) i) with (shard_at x i).
      rewrite shard_at_erase_eq by (by eapply shard_at_length).
      rewrite (map_size_delete_Some _ _ (mk_is_Some _ _ He)). lia.
  - exists s, 0%nat. split_and!; try done; lia.
Qed.

Lemma sample_loop_ok i todo : ∀ s attempt expired,
  wf s → (todo <= size (shard_at s i))%nat →
  ∃ n s', sample_loop rand now i attempt todo s expired = Some (expired + Z.of_nat n, s') ∧
          expired_from s s' n.
Proof.
  induction todo as [|todo IH]; intros s attempt expired Hwf Hsz; cbn [sample_loop].
  - exists 0%nat, s. split; [by rewrite Z.add_0_r|]. split_and!; first [done|lia].
  - destruct (sample_step s i attempt Hwf) as (k & e & s1 & n1 & -> & -> & Hn1 & Hs1 & Hsz1); [lia|].
    pose proof Hs1 as (Hwf1 & _).
    destruct (IH s1 (S attempt) (if bool_decide (n1 = 1%nat) then expired + 1 else expired))
      as (n2 & s2 & -> & Hs2); [done|lia|].
    exists (n1 + n2)%nat, s2. split; [|by eapply expired_from_trans].
    do 2 f_equal. case_bool_decide; lia.
Qed.

Lemma expire_shards_ok samples indices : ∀ s expired,
  wf s →
  ∃ n s', expire_shards rand now samples indices s expired = Some (expired + Z.of_nat n, s') ∧
          expired_from s s' n.
Proof.
  induction indices as [|i indices IH]; intros s expired Hwf; cbn [expire_shards].
  - exists 0%nat, s. split; [by rewrite Z.add_0_r|]. split_and!; first [done|lia].
  - case_bool_decide; [by apply IH|].
    destruct (sample_loop_ok i (Nat.min samples (size (shard_at s i))) s 0 expired)
      as (n1 & s1 & -> & Hs1); [done|lia|]. pose proof Hs1 as (Hwf1 & _).
    destruct (IH s1 (expired + Z.of_nat n1) Hwf1) as (n2 & s2 & -> & Hs2).
    exists (n1 + n2)%nat, s2. split; [do 2 f_equal; lia|by eapply expired_from_trans].
Qed.
End Cycle.

Lemma active_expire_ok rand clk s samples :
  rand_ok rand → wf s →
  ∃ n s', active_expire_cycle rand clk s samples = Some (Z.of_nat n, s') ∧
          expired_from (mono (clk 0%nat)) s s' n.
Proof.
  intros Hr Hwf. unfold active_expire_cycle. case_bool_decide.
  - exists 0%nat, s. split_and!; first [done|lia].
  - by apply (expire_shards_ok rand (mono (clk 0%nat)) Hr samples _ s 0).
Qed.
End ActiveExpiry.

(** ** Reachable states *)

Section Reachable.
Context `{PO : PlatformOk}.

(** The states a store goes through: construction, then any sequence of
    operations, of expiry cycles and of snapshot exports. *)
Inductive reachable : Store → Prop :=
| reach_new n s : 0 <= n → new_store n = Ok s → reachable s
| reach_op s op clk r s' : reachable s → run op clk s = (r, s') → reachable s'
| reach_expire s rand clk samples n s' :
    reachable s → rand_ok rand → active_expire_cycle rand clk s samples = Some (n, s') → reachable s'
| reach_export s clk es s' :
    reachable s → export_snapshot_entries clk s = (es, s') → reachable s'.

Lemma wf_new n s : 0 <= n → new_store n = Ok s → wf s.
Proof.
  unfold new_store. intros Hn. cond_case; [done|]. intros [= <-].
  assert (∀ i, shard_at {| shards_ := replicate (Z.to_nat n) ∅; approximate_memory_ := 0;
                           expired_keys_ := 0 |} i = ∅) as Hat.
  { intros i. unfold shard_at. cbn [shards_].
    destruct (replicate (Z.to_nat n) (∅ : gmap bytes Entry) !! i) eqn:E; [|done].
    by apply lookup_replicate in E as [-> _]. }
  split; cbn [shards_ approximate_memory_].
  - destruct (Z.to_nat n) eqn:E; [lia|done].
  - intros i k e. rewrite Hat. intros He. by apply lookup_empty_Some in He.
  - intros i k e. rewrite Hat. intros He. by apply lookup_empty_Some in He.
  - generalize (Z.to_nat n) as m. induction m as [|m IH]; [done|].
    cbn [replicate total_bytes foldr]. unfold shard_bytes. rewrite map_fold_empty. done.
Qed.

Lemma reachable_wf s : reachable s → wf s.
Proof.
  induction 1 as [n s Hn Hs|s op clk r s' _ IH Hrun|s rand clk samples n s' _ IH Hr Hrun
                 |s clk es s' _ IH Hrun].
  - by eapply wf_new.
  - destruct (run_refines_spec op clk s IH) as (s1 & E & Hw & _). rewrite E in Hrun. congruence.
  - destruct (active_expire_ok rand clk s samples Hr IH) as (m & s1 & E & Hw & _).
    rewrite E in Hrun. congruence.
  - destruct (export_refines clk s IH) as (es' & s1 & E & Hw & _). rewrite E in Hrun. congruence.
Qed.

Lemma shard_bytes_union m1 m2 :
  m1 ##ₘ m2 → shard_bytes (m1 ∪ m2) = shard_bytes m1 + shard_bytes m2.
Proof.
  intros Hd. unfold shard_bytes.
  rewrite (map_fold_disj_union (λ (_ : bytes) e acc, stored_bytes e + acc)) by (first [done|intros; lia]).
  generalize (map_fold (λ (_ : bytes) e acc, stored_bytes e + acc) 0 m2) as b. intros b. clear Hd.
  induction m1 as [|k e m Hk Hf IH] using map_first_key_ind.
  - by rewrite !map_fold_empty.
  - rewrite !(map_fold_insert_L (λ (_ : bytes) e acc, stored_bytes e + acc))
      by (first [done|intros; lia]). lia.
Qed.

(** The sum of the sizes over the shards is the sum over the whole contents. *)
Lemma total_bytes_contents s : wf s → total_bytes (shards_ s) = shard_bytes (contents s).
Proof.
  intros Hwf.
  assert (map_disjoint_list (shards_ s)) as Hd.
  { intros i j m m' Hij Hi Hj. apply map_disjoint_spec. intros k e1 e2 H1 H2. apply Hij.
    rewrite (wf_home s Hwf i k e1), (wf_home s Hwf j k e2); [done| |];
      unfold shard_at; by rewrite ?Hi, ?Hj. }
  unfold contents. revert Hd. generalize (shards_ s) as l. clear.
  induction l as [|m l IH]; intros Hd; [done|].
  apply map_disjoint_list_cons in Hd as [Hm Hd]. cbn [total_bytes foldr].
  fold (total_bytes l). rewrite (IH Hd).
  change (⋃ (m :: l)) with (m ∪ ⋃ l). symmetry. apply shard_bytes_union.
  by apply map_disjoint_union_list_r.
Qed.

Definition estimated_size (m : gmap bytes Entry) : Z :=
  map_fold (λ k e acc, estimate_bytes k (value e) + acc) 0 m.

Lemma shard_bytes_estimated m :
  (∀ k e, m !! k = Some e → entry_ok k e) → shard_bytes m = estimated_size m.
Proof.
  unfold shard_bytes, estimated_size. induction m as [|k e m Hk Hf IH] using map_first_key_ind; intros Hok.
  - by rewrite !map_fold_empty.
  - rewrite (map_fold_insert_L (λ (_ : bytes) e acc, stored_bytes e + acc)) by (first [done|intros; lia]).
    rewrite (map_fold_insert_L (λ (k : bytes) e acc, estimate_bytes k (value e) + acc)) by (first [done|intros; lia]).
    rewrite IH.
    + destruct (Hok k e) as [-> _]; [apply lookup_insert_eq|done].
    + intros k' e' Hk'. apply Hok. rewrite lookup_insert_ne; [done|]. intros ->. congruence.
Qed.
End Reachable.

(** ** Executions *)

(** The abstract map when time has advanced to [now]. *)
Definition expire_view (now : Z) (m : gmap bytes Cell) : gmap bytes Cell :=
  filter (λ p, cell_due now p.2 = false) m.

Fixpoint spec_trace (tr : list (Op * Clock)) (m : gmap bytes Cell) : list Reply :=
  match tr with
  | [] => []
  | (op, clk) :: tr' =>
      let '(r, m') := spec op clk (expire_view (op_now op clk) m) in r :: spec_trace tr' m'
  end.

(** The instants of a trace do not go back. *)
Fixpoint timed (last : Z) (tr : list (Op * Clock)) : Prop :=
  match tr with
  | [] => True
  | (op, clk) :: tr' => last <= op_now op clk ∧ timed (op_now op clk) tr'
  end.

Section Traces.
Context `{PO : PlatformOk}.

Fixpoint run_trace (tr : list (Op * Clock)) (s : Store) : list Reply :=
  match tr with
  | [] => []
  | (op, clk) :: tr' => let '(r, s') := run op clk s in r :: run_trace tr' s'
  end.

Lemma view_later now now' s : now <= now' → view now' s = expire_view now' (view now s).
Proof.
  intros Hle. apply map_eq. intros k. unfold expire_view, view.
  rewrite map_lookup_filter, !lookup_omap.
  destruct (contents s !! k) as [e|]; [|done]. simpl. unfold live, is_expired.
  destruct (expires_at e) as [t|] eqn:Et.
  - destruct (t <=? now) eqn:E1; destruct (t <=? now') eqn:E2; cbn; [done|lia| |].
    + rewrite option_guard_False; [done|]. unfold cell_due. cbn. by rewrite Et, E2.
    + rewrite option_guard_True; [done|]. unfold cell_due. cbn. by rewrite Et, E2.
  - cbn. rewrite option_guard_True; [done|]. unfold cell_due. cbn. by rewrite Et.
Qed.

Lemma run_trace_spec tr : ∀ last s,
  wf s → timed last tr → run_trace tr s = spec_trace tr (view last s).
Proof.
  induction tr as [|[op clk] tr IH]; intros last s Hwf Ht; [done|]. cbn [run_trace spec_trace].
  destruct Ht as [Hl Ht]. destruct (run_refines_spec op clk s Hwf) as (s' & -> & Hwf' & Hv').
  rewrite <- (view_later last (op_now op clk) s Hl).
  destruct (spec op clk (view (op_now op clk) s)) as [r m'] eqn:E. cbn [fst snd] in *.
  f_equal. rewrite (IH _ _ Hwf' Ht), Hv'. done.
Qed.

Lemma view_new now n s : 0 <= n → new_store n = Ok s → view now s = ∅.
Proof.
  intros Hn Hs. pose proof (wf_new n s Hn Hs) as Hwf. apply map_eq. intros k.
  rewrite view_lookup, lookup_empty by done. unfold new_store in Hs.
  destruct (n =? 0); [done|]. injection Hs as <-. unfold find, shard_for, shard_at. cbn [shards_].
  set (i := shard_index _ k). destruct (replicate _ _ !! i) eqn:E; [|done].
  apply lookup_replicate in E as [-> _]. done.
Qed.
End Traces.

(** ** Locks *)

Lemma std_unique_elem x l : x ∈ std_unique l ↔ x ∈ l.
Proof.
  induction l as [|a l IH]; [done|]. cbn [std_unique]. destruct l as [|b l]; [done|].
  case_bool_decide as E; [subst|]; rewrite ?elem_of_cons in *; naive_solver.
Qed.

Lemma std_unique_sorted l : StronglySorted Nat.le l → StronglySorted Nat.lt (std_unique l).
Proof.
  induction 1 as [|a l Hs IH Ha]; [constructor|]. cbn [std_unique].
  destruct l as [|b l]; [repeat constructor|]. case_bool_decide as E; [done|].
  constructor; [done|]. rewrite Forall_forall in Ha |- *. intros x Hx.
  apply (proj1 (std_unique_elem x (b :: l))) in Hx.
  assert (a <= b)%nat by (apply Ha; left).
  apply StronglySorted_inv in Hs as [_ Hb]. rewrite Forall_forall in Hb.
  apply elem_of_cons in Hx as [->|Hx]; [lia|]. specialize (Hb x Hx). lia.
Qed.

Lemma lock_order_spec l :
  StronglySorted Nat.lt (lock_mutexes_in_order l) ∧ ∀ x, x ∈ lock_mutexes_in_order l ↔ x ∈ l.
Proof.
  unfold lock_mutexes_in_order. split.
  - apply std_unique_sorted, StronglySorted_merge_sort; [apply _|]. intros a b. lia.
  - intros x. by rewrite std_unique_elem, merge_sort_Permutation.
Qed.

(** A thread inside a multi-key command: the shard locks it holds and the ones
    it has still to take, in order. *)
Record LockThread := { held : list nat; wanted : list nat }.

(** A thread takes its next lock when no thread holds it - itself included: a
    [std::shared_mutex] is not recursive - or, having them all, finishes and
    releases them. *)
Inductive lock_step : list LockThread → list LockThread → Prop :=
| lock_acquire pre t post l rest :
    wanted t = l :: rest → (∀ t', t' ∈ pre ++ t :: post → l ∉ held t') →
    lock_step (pre ++ t :: post) (pre ++ {| held := held t ++ [l]; wanted := rest |} :: post)
| lock_release pre t post :
    wanted t = [] → lock_step (pre ++ t :: post) (pre ++ post).

(** The thread follows the order of [lock_mutexes_in_order]. *)
Definition ordered_thread (t : LockThread) : Prop := StronglySorted Nat.lt (held t ++ wanted t).

Lemma ordered_wanted_max t h l rest :
  ordered_thread t → h ∈ held t → wanted t = l :: rest → (h < l)%nat.
Proof.
  unfold ordered_thread. intros Hs Hh Hw. rewrite Hw in Hs. revert Hs Hh.
  induction (held t) as [|a hs IH]; cbn [app]; intros Hs Hh; [by apply not_elem_of_nil in Hh|].
  apply StronglySorted_inv in Hs as [Hs Ha]. rewrite Forall_forall in Ha.
  apply elem_of_cons in Hh as [->|Hh]; [|by apply IH].
  apply Ha. apply elem_of_app. right. left.
Qed.

(** Among threads that all want a lock, one wants the highest. *)
Lemma highest_wanted ts :
  ts ≠ [] → (∀ t, t ∈ ts → wanted t ≠ []) →
  ∃ t l rest, t ∈ ts ∧ wanted t = l :: rest ∧
    ∀ t' l' rest', t' ∈ ts → wanted t' = l' :: rest' → (l' <= l)%nat.
Proof.
  induction ts as [|a ts IH]; intros Hne Hw; [done|].
  destruct (wanted a) as [|la ra] eqn:Ea; [by destruct (Hw a); [left|]|].
  destruct ts as [|b ts].
  - exists a, la, ra. split_and!; [left|done|]. intros t' l' rest' Ht' E.
    apply list_elem_of_singleton in Ht' as ->. rewrite Ea in E. injection E as -> _. lia.
  - destruct IH as (t & l & rest & Hin & Et & Hmax); [done|intros t Ht; apply Hw; by right|].
    destruct (decide (la <= l)%nat).
    + exists t, l, rest. split_and!; [by right|done|]. intros t' l' rest' Ht' E.
      apply elem_of_cons in Ht' as [->|Ht']; [|by eapply Hmax].
      rewrite Ea in E. injection E as -> _. done.
    + exists a, la, ra. split_and!; [left|done|]. intros t' l' rest' Ht' E.
      apply elem_of_cons in Ht' as [->|Ht'].
      * rewrite Ea in E. injection E as -> _. lia.
      * specialize (Hmax t' l' rest' Ht' E). lia.
Qed.

Lemma ordered_threads_progress ts :
  ts ≠ [] → Forall ordered_thread ts → ∃ ts', lock_step ts ts'.
Proof.
  intros Hne Hord. rewrite Forall_forall in Hord.
  destruct (decide (Exists (λ t, wanted t = []) ts)) as [He|Hn].
  { apply Exists_exists in He as (t & Hin & Ht).
    apply list_elem_of_split in Hin as (pre & post & ->). eexists. by apply lock_release. }
  destruct (highest_wanted ts Hne) as (t & l & rest & Hin & Et & Hmax).
  { intros t Ht E. apply Hn, Exists_exists. eauto. }
  apply list_elem_of_split in Hin as (pre & post & ->).
  eexists. eapply lock_acquire; [done|]. intros t' Hin' Hl.
  destruct (wanted t') as [|l' rest'] eqn:E'; [apply Hn, Exists_exists; eauto|].
  specialize (Hmax t' l' rest' Hin' E').
  pose proof (ordered_wanted_max t' l l' rest' (Hord t' Hin') Hl E'). lia.
Qed.

Lemma lock_step_ordered ts ts' :
  lock_step ts ts' → Forall ordered_thread ts → Forall ordered_thread ts'.
Proof.
  intros [pre t post l rest Hw _|pre t post Hw]; rewrite !Forall_app, ?Forall_cons; [|naive_solver].
  intros (? & Ht & ?). split_and!; [done| |done]. unfold ordered_thread in *. cbn [held wanted].
  rewrite <- app_assoc. cbn [app]. by rewrite <- Hw.
Qed.

(** The steps that are left. *)
Definition lock_work (ts : list LockThread) : nat := sum_list_with (λ t, S (length (wanted t))) ts.

Lemma lock_step_work ts ts' : lock_step ts ts' → (lock_work ts' < lock_work ts)%nat.
Proof.
  unfold lock_work. intros [pre t post l rest Hw _|pre t post Hw]; rewrite !sum_list_with_app; simpl; rewrite Hw; simpl; lia.
Qed.

(** ** Lookups after [set] *)

Section SetFacts.
Context `{PO : PlatformOk}.

Lemma find_set_other clk s k v w k' :
  wf s → k' ≠ k → find (set clk s k v w) k' = find s k'.
Proof.
  intros Hwf Hk. pose proof (wf_shards s Hwf) as Hs.
  assert (∀ s1 e, shards_ s1 = shards_ s →
    find (set_shard s1 (shard_index s k) (<[k := e]> (shard_at s1 (shard_index s k)))) k' = find s k')
    as Hput.
  { intros s1 e Hsh. assert (shard_index s k = shard_index s1 k) as Hi
      by (unfold shard_index; by rewrite Hsh).
    rewrite Hi, find_set_shard by (rewrite ?Hsh; first [done|intros; by rewrite lookup_insert_ne]).
    rewrite decide_False by done. unfold find, shard_for, shard_at, shard_index. by rewrite Hsh. }
  assert (∀ e0, find (erase_at s (shard_index s k) k e0) k' = find s k') as Herase.
  { intros e0. rewrite find_erase by done. by rewrite decide_False. }
  unfold set. change (find (add_memory ?x ?n) k') with (find x k').
  destruct w as [w|]; [destruct (w <=? _)|]; destruct (shard_at s (shard_index s k) !! k) as [e0|];
    try done; change (find (add_expired ?x ?n) k') with (find x k') || idtac;
    change (find (add_memory ?x ?n) k') with (find x k') || idtac;
    first [by apply Herase | apply Hput]; try done; by destruct (is_expired e0 _).
Qed.

Lemma view_some_find now s k c :
  wf s → view now s !! k = Some c → ∃ e, find s k = Some e ∧ cell_of e = c ∧ is_expired e now = false.
Proof.
  intros Hwf. rewrite view_lookup by done. destruct (find s k) as [e|]; [|done]. simpl.
  unfold live. destruct (is_expired e now) eqn:E; [done|]. intros [= <-]. eauto.
Qed.

(** What [get] answers when the key is stored. *)
Lemma get_found clk s k e :
  wf s → find s k = Some e →
  fst (get clk s k) = if is_expired e (mono (clk 0%nat)) then None else Some (value e).
Proof.
  intros Hwf Hf. destruct (get_refines clk s k Hwf) as (s' & -> & _). cbn [fst].
  rewrite view_lookup, Hf by done. simpl. unfold live. by destruct (is_expired e _).
Qed.
Lemma get_absent clk s k : wf s → find s k = None → fst (get clk s k) = None.
Proof. intros _ Hf. unfold get, get_shared. by rewrite Hf. Qed.

(** The entry under the key after [set]. *)
Lemma find_set_same clk s k v w :
  wf s →
  find (set clk s k v w) k =
  match w with
  | Some w' =>
      if w' <=? wall (clk 1%nat) then None
      else Some {| value := v; expires_at := Some (mono (clk 0%nat) + wall_to_mono (w' - wall (clk 1%nat)));
                   expires_at_wall := Some w'; stored_bytes := estimate_bytes k v |}
  | None => Some {| value := v; expires_at := None; expires_at_wall := None;
                    stored_bytes := estimate_bytes k v |}
  end.
Proof.
  intros Hwf. pose proof (wf_shards s Hwf) as Hs.
  assert (∀ s1 e n, shards_ s1 = shards_ s →
    find (add_memory (set_shard s1 (shard_index s k) (<[k := e]> (shard_at s1 (shard_index s k)))) n) k
      = Some e) as Hput.
  { intros s1 e n Hsh. change (find (add_memory ?x ?m) k) with (find x k).
    assert (shard_index s k = shard_index s1 k) as Hi by (unfold shard_index; by rewrite Hsh).
    rewrite Hi, find_set_shard by (rewrite ?Hsh; first [done|intros; by rewrite lookup_insert_ne]).
    rewrite decide_True by done. apply lookup_insert_eq. }
  unfold set. destruct w as [w|]; [destruct (w <=? _)|];
    destruct (shard_at s (shard_index s k) !! k) as [e0|] eqn:E0;
    try (apply Hput; first [done|by destruct (is_expired e0 _)]); [|done].
  change (find (add_expired ?x ?n) k) with (find x k).
  rewrite find_erase by done. by rewrite decide_True.
Qed.
End SetFacts.

(** ** A concrete platform for the examples *)

Definition demo_platform : Platform := {|
  std_hash := foldr (λ b acc, byte_val b + acc) 0;
  sizeof_Entry := 96;
  map_order := map_to_list;
  set_order := elements;
|}.

Lemma demo_platform_ok : @PlatformOk demo_platform.
Proof. by split. Qed.

Definition demo_tick (seconds : Z) : Tick :=
  {| mono := seconds * 1000000000; wall := (1700000000 + seconds) * 1000000 |}.

Definition demo_store (shards : nat) : Store :=
  {| shards_ := replicate shards ∅; approximate_memory_ := 0; expired_keys_ := 0 |}.

Lemma demo_store_wf shards : (shards ≠ 0)%nat → @wf demo_platform (demo_store shards).
Proof.
  intros Hn. apply (@wf_new demo_platform) with (Z.of_nat shards); [lia|].
  unfold new_store. cond_case; [lia|]. by rewrite Nat2Z.id.
Qed.
