(* ===== verification/StoreProps.v ===== *)
(** * Properties of the store

    The statements a client of [Store] relies on: the store is a map with
    deadlines, whatever the number of shards; its invariant holds in every
    reachable state; expired keys are invisible although they are deleted late;
    the two-section reads and the multi-key lock order are safe. *)

From S2P Require Import Prelude Store StoreInv StoreSpec StoreCorrect StoreTheorems.

(** ** Refinement *)

(** C5. Every operation of the sharded store implements the operation of the
    same name on the abstract map of live keys: its reply is the reply of the
    map, the map afterwards is the abstract result, and the invariant is
    kept. *)
Theorem store_step_refines `{PlatformOk} op clk s :
  wf s →
  ∃ s', run op clk s = (fst (spec op clk (view (op_now op clk) s)), s') ∧ wf s' ∧
        view (op_now op clk) s' = snd (spec op clk (view (op_now op clk) s)).
Proof. apply run_refines_spec. Qed.

(** C17. The replies of a whole execution do not depend on the number of shards,
    on the hash function, on the iteration orders of the containers or on when
    expired entries are physically removed: from an empty store, two
    configurations give the same replies to the same timed requests, those of
    the abstract map. *)
Theorem sharding_invisible (P1 P2 : Platform) (O1 : @PlatformOk P1) (O2 : @PlatformOk P2)
    n1 n2 s1 s2 last tr :
  0 <= n1 → 0 <= n2 → new_store n1 = Ok s1 → new_store n2 = Ok s2 → timed last tr →
  @run_trace P1 tr s1 = spec_trace tr ∅ ∧ @run_trace P2 tr s2 = spec_trace tr ∅.
Proof.
  intros Hn1 Hn2 H1 H2 Ht. split.
  - rewrite <- (@view_new P1 last n1 s1 Hn1 H1).
    apply run_trace_spec; [by apply (@wf_new P1 n1)|done].
  - rewrite <- (@view_new P2 last n2 s2 Hn2 H2).
    apply run_trace_spec; [by apply (@wf_new P2 n2)|done].
Qed.

(** C22. In every state the store can reach - by operations, active expiry and
    snapshot exports - a key is stored in the shard of its hash only, and the
    memory counter equals the estimate of what is stored, so that it can
    neither drift nor go below zero. *)
Theorem store_invariant_reachable `{PlatformOk} s :
  reachable s →
  (∀ i k e, shard_at s i !! k = Some e → i = shard_index s k) ∧
  approximate_memory_ s = u64 (estimated_size (contents s)).
Proof.
  intros Hr. pose proof (reachable_wf s Hr) as Hwf. split; [apply Hwf|].
  rewrite (wf_memory s Hwf), total_bytes_contents by done. f_equal.
  apply shard_bytes_estimated. intros k e. rewrite contents_lookup by done. apply (wf_entry s Hwf).
Qed.

(** ** Deadlines *)

(** A key is absent for every reader from the instant of its deadline on,
    although its entry may still be stored: [get], [exists], [ttl], [del],
    [expiry_wall_time] answer as for a missing key and [keys] does not list
    it. *)
Theorem expired_key_absent `{PlatformOk} clk s k e :
  wf s → find s k = Some e → is_expired e (mono (clk 0%nat)) = true →
  fst (get clk s k) = None ∧ fst (exists_ clk s k) = false ∧ fst (ttl clk s k) = -2 ∧
  fst (del clk s k) = false ∧ fst (expiry_wall_time clk s k) = None ∧
  k ∉ keys_keys (fst (keys clk s (str "*"))).
Proof.
  intros Hwf Hf He. set (now := mono (clk 0%nat)).
  assert (view now s !! k = None) as Hv.
  { apply live_none_expired; [done|]. by rewrite Hf. }
  destruct (get_refines clk s k Hwf) as (? & -> & _), (exists_refines clk s k Hwf) as (? & -> & _),
    (ttl_refines clk s k Hwf) as (? & -> & _), (del_refines clk s k Hwf) as (? & -> & _),
    (expiry_wall_time_refines clk s k Hwf) as (? & -> & _).
  fold now. unfold spec_ttl. rewrite Hv. split_and!; [done..|].
  destruct (run_refines_spec (OpKeys (str "*")) clk s Hwf) as (s' & E & _).
  cbn [run spec op_now] in E. rewrite bool_decide_true in E by done.
  destruct (keys clk s (str "*")) as [r s0]. cbn [fst] in *. injection E as _ -> _.
  unfold spec_keys. rewrite merge_sort_Permutation, elem_of_elements, elem_of_dom. fold now.
  rewrite Hv. by intros [? [=]].
Qed.

(** What [set] stores, [get] gives back, until the deadline: a value set
    without a deadline is always there; one set with the wall-clock deadline
    [w] is there exactly while the monotonic clock has advanced by less than
    the distance to [w]; one set with a deadline not in the future is absent;
    and every other key is as before. *)
Theorem set_then_get `{PlatformOk} clk clk' s k v w :
  wf s → let s' := set clk s k v w in
  fst (get clk' s' k) =
    match w with
    | None => Some v
    | Some w =>
        if (wall (clk 1%nat) <? w) &&
           (mono (clk' 0%nat) <? mono (clk 0%nat) + wall_to_mono (w - wall (clk 1%nat)))
        then Some v else None
    end ∧
  ∀ k', k' ≠ k → fst (get clk' s' k') = fst (get clk' s k').
Proof.
  intros Hwf s'. destruct (set_refines clk s k v w Hwf) as [Hwf' _]. fold s' in Hwf'. split.
  - pose proof (find_set_same clk s k v w Hwf) as Hf. fold s' in Hf. destruct w as [w|].
    + destruct (w <=? wall (clk 1%nat)) eqn:Hw.
      * replace (wall (clk 1%nat) <? w) with false by lia. by apply get_absent.
      * replace (wall (clk 1%nat) <? w) with true by lia.
        rewrite (get_found _ _ _ _ Hwf' Hf). unfold is_expired. cbn [expires_at value].
        rewrite Z.leb_antisym. cbn [andb]. by destruct (_ <? _).
    + by rewrite (get_found _ _ _ _ Hwf' Hf).
  - intros k' Hk'. pose proof (find_set_other clk s k v w k' Hwf Hk') as Ho. fold s' in Ho.
    destruct (find s k') as [e|] eqn:Ef.
    + by rewrite !(get_found _ _ _ e).
    + by rewrite !get_absent.
Qed.

(** [EXPIRE] with a positive lifetime, then [TTL]: with the clocks standing
    still, a live key reports exactly its new lifetime; later, the whole
    seconds that remain; and from the deadline on, the key is absent. *)
Theorem expire_then_ttl `{PlatformOk} t t' s k c ttl_s :
  wf s → view (mono t) s !! k = Some c → 0 < ttl_s → mono t <= mono t' →
  let '(set_, s') := expire (frozen t) s k ttl_s in
  set_ = true ∧
  fst (ttl (frozen t) s' k) = ttl_s ∧
  fst (ttl (frozen t') s' k) =
    (if mono t' <? mono t + ttl_s * 1000000000
     then (mono t + ttl_s * 1000000000 - mono t') / 1000000000 else -2).
Proof.
  intros Hwf Hv Httl Ht.
  destruct (run_refines_spec (OpExpire k ttl_s) (frozen t) s Hwf) as (s' & E & Hwf' & Hv').
  cbn [run spec op_now frozen] in E, Hv'. unfold later in E, Hv'. cbn [frozen] in E, Hv'.
  destruct (expire (frozen t) s k ttl_s) as [b s0]. revert E Hv'. unfold spec_expire_at, seconds_to_wall, frozen.
  rewrite Hv. replace (ttl_s <=? 0) with false by lia.
  replace (wall t + ttl_s * 1000000 <=? wall t) with false by lia.
  unfold spec_put, cell_due, timed_cell, wall_to_mono. cbn [cell_deadline].
  replace (wall t + ttl_s * 1000000 - wall t) with (ttl_s * 1000000) by lia.
  replace (mono t + ttl_s * 1000000 * 1000 <=? mono t) with false by lia.
  cbn [fst snd]. intros [= -> ->] Hv'. split; [done|].
  destruct (ttl_refines (λ _, t) s' k Hwf') as (? & -> & _),
    (ttl_refines (λ _, t') s' k Hwf') as (? & -> & _).
  cbn [fst]. rewrite (view_later (mono t) (mono t') s' Ht), Hv'. unfold spec_ttl, expire_view.
  rewrite lookup_insert_eq, map_lookup_filter, lookup_insert_eq. cbn [cell_deadline]. simpl.
  unfold mono_to_seconds, cell_due. cbn [cell_deadline]. split.
  - rewrite <- (Z.quot_mul ttl_s 1000000000) at 2 by lia. f_equal. lia.
  - destruct (mono t' <? mono t + ttl_s * 1000000000) eqn:Hlt.
    + rewrite option_guard_True by lia. simpl. rewrite Z.quot_div_nonneg by lia. f_equal. lia.
    + rewrite option_guard_False; [done|]. lia.
Qed.

(** ** Listings and background deletion *)

(** [KEYS *] lists exactly the keys that are live at that instant, each one
    once, in the order of their bytes; any other pattern is refused. *)
Theorem keys_lists_live_keys `{PlatformOk} clk s :
  wf s →
  (∀ pattern, pattern ≠ str "*" →
     keys clk s pattern = ({| keys_status := unsupported_pattern; keys_keys := [] |}, s)) ∧
  keys_status (fst (keys clk s (str "*"))) = keys_ok ∧
  StronglySorted bytes_le (keys_keys (fst (keys clk s (str "*")))) ∧
  NoDup (keys_keys (fst (keys clk s (str "*")))) ∧
  ∀ k, k ∈ keys_keys (fst (keys clk s (str "*"))) ↔ fst (exists_ clk s k) = true.
Proof.
  intros Hwf. split.
  { intros p Hp. unfold keys. by rewrite bool_decide_false. }
  destruct (run_refines_spec (OpKeys (str "*")) clk s Hwf) as (s' & E & _).
  cbn [run spec op_now] in E. rewrite bool_decide_true in E by done.
  destruct (keys clk s (str "*")) as [r s0]. cbn [fst] in *. injection E as -> -> _.
  unfold spec_keys. split_and!.
  - done.
  - apply StronglySorted_merge_sort; apply _.
  - rewrite merge_sort_Permutation. apply NoDup_elements.
  - intros k. rewrite merge_sort_Permutation, elem_of_elements, elem_of_dom.
    destruct (exists_refines clk s k Hwf) as (? & -> & _). cbn [fst].
    by rewrite bool_decide_eq_true.
Qed.

(** A cycle of active expiry stays inside the containers for every choice
    of the random samples, removes only expired entries - what clients observe
    is unchanged - and returns exactly the number of entries it removed. *)
Theorem active_expiry_safe `{PlatformOk} rand clk s samples :
  rand_ok rand → wf s →
  ∃ n s', active_expire_cycle rand clk s samples = Some (Z.of_nat n, s') ∧ wf s' ∧
          view (mono (clk 0%nat)) s' = view (mono (clk 0%nat)) s ∧
          (total_entries s' + n = total_entries s)%nat.
Proof.
  intros Hr Hwf. destruct (active_expire_ok rand clk s samples Hr Hwf) as (n & s' & -> & ? & ? & _ & ?).
  by exists n, s'.
Qed.

(** ** Concurrency *)

(** C39. [get] takes the shared lock, and then the exclusive one when it saw an
    expired entry; other threads may change the store in between.  Whatever
    they do, the answer is the one an uninterrupted [get] gives at the state of
    the critical section that decided, and deleting the expired entry does not
    change what can be observed at the instant of the request. *)
Theorem get_two_sections_atomic `{PlatformOk} now s1 s2 k :
  wf s1 → wf s2 →
  match get_shared s1 k now with
  | Some answer => answer = cell_value <$> view now s1 !! k
  | None =>
      view now s1 !! k = None ∧
      let '(answer, s') := get_exclusive s2 k now in
      answer = cell_value <$> view now s2 !! k ∧ wf s' ∧ view now s' = view now s2
  end.
Proof.
  intros Hwf1 Hwf2. unfold get_shared.
  destruct (find_cases now s1 k Hwf1) as [[-> ->]|[(e & -> & -> & ->)|(e & -> & -> & ->)]];
    cbn [negb]; [done| |done].
  split; [done|]. unfold get_exclusive.
  destruct (find_cases now s2 k Hwf2) as [[-> ->]|[(e2 & Hf & Hx & ->)|(e2 & Hf & Hx & ->)]]; [done| |];
    rewrite Hf; destruct (erase_expired_spec now s2 k e2 Hwf2 Hf) as (s' & -> & ? & ? & _);
    rewrite Hx; done.
Qed.

(** C26. Commands on several keys never deadlock: they take the locks of the
    shards of their keys in increasing order, each one once - a lock that the
    thread holds already would block it for ever too - so that any set of such
    commands, stopped at any point of their acquisitions, can go on, and none is
    left after at most [lock_work] steps. *)
Theorem multi_key_locking_deadlock_free `{PlatformOk} s (requests : list (list bytes)) ts :
  rtc lock_step (map (λ ks, {| held := []; wanted := locks_of s ks |}) requests) ts →
  (∀ ks k, ks ∈ requests → k ∈ ks → shard_index s k ∈ locks_of s ks) ∧
  (ts = [] ∨ ∃ ts', lock_step ts ts') ∧
  (∀ ts', lock_step ts ts' → (lock_work ts' < lock_work ts)%nat).
Proof.
  intros Hsteps. split.
  { intros ks k _ Hk. apply lock_order_spec. apply list_elem_of_fmap. eauto. }
  split; [|apply lock_step_work].
  assert (Forall ordered_thread ts) as Hord.
  { assert (Forall ordered_thread (map (λ ks, {| held := []; wanted := locks_of s ks |}) requests))
      as Hinit by (apply Forall_fmap, Forall_true; intros ks; apply (proj1 (lock_order_spec _))).
    revert Hinit. induction Hsteps as [|? ? ? Hst _ IH]; [done|]. intros Hinit.
    by apply IH, (lock_step_ordered _ _ Hst). }
  destruct (decide (ts = [])) as [->|Hne]; [by left|right]. by apply ordered_threads_progress.
Qed.

(** ** The hypotheses at concrete stores *)

Definition demo_key : bytes := str "user:1".
Definition demo_value : Value := VString (str "ada").

(** One shard, and a key that expires ten seconds after instant 0. *)
Definition demo_expiring : Store :=
  @set demo_platform (frozen (demo_tick 0)) (demo_store 1) demo_key demo_value
    (Some (wall (demo_tick 10))).

Lemma demo_expiring_wf : @wf demo_platform demo_expiring.
Proof. apply (@set_refines demo_platform). by apply demo_store_wf. Qed.

Definition demo_trace : list (Op * Clock) :=
  [ (OpSet demo_key demo_value (Some (wall (demo_tick 10))), frozen (demo_tick 0));
    (OpGet demo_key, frozen (demo_tick 9));
    (OpTtl demo_key, frozen (demo_tick 9));
    (OpExistsMany [demo_key; demo_key], frozen (demo_tick 9));
    (OpKeys (str "*"), frozen (demo_tick 9));
    (OpGet demo_key, frozen (demo_tick 10)) ].

(** What the abstract map answers to it. *)
Example demo_trace_replies :
  spec_trace demo_trace ∅ =
  [ RNothing; RValue (Some demo_value); RInt 1; RInt 2; RKeys keys_ok [demo_key]; RValue None ].
Proof. vm_compute. reflexivity. Qed.

Lemma store_step_refines_witness :
  ∃ s', @run demo_platform (OpDelMany [demo_key; demo_key]) (frozen (demo_tick 3)) demo_expiring
          = (RInt 1, s') ∧ view (mono (demo_tick 3)) s' = ∅.
Proof.
  destruct (@store_step_refines demo_platform demo_platform_ok (OpDelMany [demo_key; demo_key])
    (frozen (demo_tick 3)) demo_expiring demo_expiring_wf) as (s' & E & _ & V).
  exists s'. split; [rewrite E|etransitivity; [exact V|]]; vm_compute; reflexivity.
Defined.

Lemma sharding_invisible_witness :
  @run_trace demo_platform demo_trace (demo_store 1) =
  @run_trace demo_platform demo_trace (demo_store 16).
Proof.
  destruct (sharding_invisible demo_platform demo_platform demo_platform_ok demo_platform_ok
    1 16 (demo_store 1) (demo_store 16) 0 demo_trace) as [E1 E2]; [lia|lia|reflexivity..| |].
  - vm_compute. repeat split; intros; discriminate.
  - congruence.
Defined.

Lemma store_invariant_reachable_witness :
  approximate_memory_ demo_expiring = @estimated_size demo_platform (contents demo_expiring) ∧
  approximate_memory_ demo_expiring = 105.
Proof.
  split; [|vm_compute; reflexivity].
  rewrite (proj2 (@store_invariant_reachable demo_platform demo_platform_ok demo_expiring
    (reach_op _ (OpSet demo_key demo_value (Some (wall (demo_tick 10)))) (frozen (demo_tick 0)) RNothing _
      (reach_new 1 (demo_store 1) ltac:(lia) eq_refl) eq_refl))).
  vm_compute. reflexivity.
Defined.

Lemma expired_key_absent_witness :
  fst (@get demo_platform (frozen (demo_tick 10)) demo_expiring demo_key) = None ∧
  is_Some (@find demo_platform demo_expiring demo_key).
Proof.
  split; [|vm_compute; eauto].
  destruct (@find demo_platform demo_expiring demo_key) as [e|] eqn:E; [|vm_compute in E; discriminate].
  apply (@expired_key_absent demo_platform demo_platform_ok (frozen (demo_tick 10)) demo_expiring demo_key e
    demo_expiring_wf E).
  vm_compute in E. injection E as <-. vm_compute. reflexivity.
Defined.

Lemma set_then_get_witness :
  fst (@get demo_platform (frozen (demo_tick 9)) demo_expiring demo_key) = Some demo_value.
Proof.
  unfold demo_expiring.
  rewrite (proj1 (@set_then_get demo_platform demo_platform_ok (frozen (demo_tick 0))
    (frozen (demo_tick 9)) (demo_store 1) demo_key demo_value (Some (wall (demo_tick 10)))
    (demo_store_wf 1 ltac:(done)))).
  vm_compute. reflexivity.
Defined.

Lemma expire_then_ttl_witness :
  let '(b, s') := @expire demo_platform (frozen (demo_tick 2)) demo_expiring demo_key 100 in
  b = true ∧ fst (@ttl demo_platform (frozen (demo_tick 2)) s' demo_key) = 100 ∧
  fst (@ttl demo_platform (frozen (demo_tick 50)) s' demo_key) = 52.
Proof.
  apply (@expire_then_ttl demo_platform demo_platform_ok (demo_tick 2) (demo_tick 50) demo_expiring
    demo_key (timed_cell demo_value 0 (wall (demo_tick 0)) (wall (demo_tick 10))) 100 demo_expiring_wf);
    vm_compute; first [reflexivity|discriminate].
Defined.

Lemma keys_lists_live_keys_witness :
  keys_keys (fst (@keys demo_platform (frozen (demo_tick 1)) demo_expiring (str "*"))) = [demo_key] ∧
  fst (@exists_ demo_platform (frozen (demo_tick 1)) demo_expiring demo_key) = true.
Proof.
  split; [vm_compute; reflexivity|].
  apply (proj2 (proj2 (proj2 (proj2 (@keys_lists_live_keys demo_platform demo_platform_ok
    (frozen (demo_tick 1)) demo_expiring demo_expiring_wf))))).
  vm_compute. left.
Defined.

Lemma active_expiry_safe_witness :
  ∃ n s', @active_expire_cycle demo_platform (λ _ _ _, 0%nat) (frozen (demo_tick 11)) demo_expiring 4
            = Some (Z.of_nat n, s') ∧ (total_entries s' + n = 1)%nat.
Proof.
  destruct (@active_expiry_safe demo_platform demo_platform_ok (λ _ _ _, 0%nat) (frozen (demo_tick 11))
    demo_expiring 4 ltac:(intros ? ? ? ?; lia) demo_expiring_wf) as (n & s' & E & _ & _ & T).
  exists n, s'. split; [exact E|]. rewrite T. vm_compute. reflexivity.
Defined.

Lemma get_two_sections_atomic_witness :
  @get_shared demo_platform demo_expiring demo_key (mono (demo_tick 10)) = None ∧
  fst (@get_exclusive demo_platform (demo_store 1) demo_key (mono (demo_tick 10))) = None.
Proof.
  assert (@get_shared demo_platform demo_expiring demo_key (mono (demo_tick 10)) = None) as E
    by (vm_compute; reflexivity).
  split; [exact E|].
  pose proof (@get_two_sections_atomic demo_platform demo_platform_ok (mono (demo_tick 10)) demo_expiring
    (demo_store 1) demo_key demo_expiring_wf (demo_store_wf 1 ltac:(done))) as T.
  rewrite E in T. destruct T as [_ T].
  destruct (@get_exclusive demo_platform (demo_store 1) demo_key (mono (demo_tick 10))) as [a s'].
  destruct T as [-> _]. vm_compute. reflexivity.
Defined.

Lemma multi_key_locking_deadlock_free_witness :
  @locks_of demo_platform (demo_store 4) [str "b"; str "a"; str "f"; str "b"] = [1; 2]%nat ∧
  ∃ ts', lock_step
    [{| held := []; wanted := @locks_of demo_platform (demo_store 4) [str "b"; str "a"; str "f"; str "b"] |}]
    ts'.
Proof.
  split; [vm_compute; reflexivity|].
  destruct (@multi_key_locking_deadlock_free demo_platform demo_platform_ok (demo_store 4)
    [[str "b"; str "a"; str "f"; str "b"]] _ (rtc_refl _ _)) as [_ [[E|E] _]]; [discriminate|exact E].
Defined.
