(* ===== verification/StoreTimed.v ===== *)
(** * The store under clocks in any order

    A command reads the clock before it takes the lock of its shard, and so two
    commands may act in one order and have read the clock in the other.  The map
    of live keys at one instant ([view]) then says too little: an entry whose
    deadline has passed at the instant of one command is still there for a
    command with an earlier one, until some operation erases it.  Here the
    abstract state is the map of all the cells, with those whose deadline has
    passed, and the operations are described on it for every order of the
    instants. *)

From S2P Require Import Prelude Store StoreInv StoreSpec StoreCorrect StoreTheorems.

(** ** The abstract state *)

(** All the cells of the store. *)
Definition cells (s : Store) : gmap bytes Cell := cell_of <$> contents s.

(** The cells whose deadline has passed at [now]. *)
Definition lingering (now : Z) (m : gmap bytes Cell) : gmap bytes Cell := filter (λ p, cell_due now p.2 = true) m.

(** The live cells after an operation on the live cells [v]: those of [spec],
    but an [EXPIRE] may give a deadline that has passed already. *)
Definition expire_outcome (clk : Clock) (v : gmap bytes Cell) (k : bytes) (w : Z) : gmap bytes Cell :=
  match v !! k with
  | None => v
  | Some c =>
      if w <=? wall (clk 1%nat) then delete k v
      else <[k := timed_cell (cell_value c) (mono (clk 2%nat)) (wall (clk 3%nat)) w]> v
  end.

Definition outcome (op : Op) (clk : Clock) (v : gmap bytes Cell) : gmap bytes Cell :=
  match op with
  | OpExpire k ttl =>
      expire_outcome (later 1 clk) v k (wall (clk 0%nat) + if ttl <=? 0 then 0 else seconds_to_wall ttl)
  | OpExpireAt k (Some w) => expire_outcome clk v k w
  | _ => snd (spec op clk v)
  end.

(** An operation at its instant: the live cells change as [outcome] says, the
    others linger, unless a new cell takes their place. *)
Definition after (op : Op) (clk : Clock) (m : gmap bytes Cell) : gmap bytes Cell :=
  let now := op_now op clk in outcome op clk (expire_view now m) ∪ lingering now m.

(** [m'] is [m] without some cells whose deadline has passed at an instant of
    [read]. *)
Definition fades (read : Z → Prop) (m m' : gmap bytes Cell) : Prop :=
  ∀ k, m' !! k = m !! k ∨ (m' !! k = None ∧ ∃ c now, m !! k = Some c ∧ read now ∧ cell_due now c = true).

Lemma fades_refl read m : fades read m m.
Proof. intros k. by left. Qed.

Lemma fades_trans (read read' : Z → Prop) m1 m2 m3 :
  (∀ t, read t → read' t) → fades read m1 m2 → fades read' m2 m3 → fades read' m1 m3.
Proof.
  intros Hr H12 H23 k. destruct (H12 k) as [E|(E & c & t & Hc & Ht & Hd)].
  - destruct (H23 k) as [E'|(E' & c & t & Hc & Ht & Hd)]; [left; congruence|].
    right. split; [done|]. exists c, t. by rewrite <- E.
  - right. split; [|exists c, t; eauto]. destruct (H23 k) as [E'|[E' _]]; congruence.
Qed.

Lemma fades_weaken (read read' : Z → Prop) m m' : (∀ t, read t → read' t) → fades read m m' → fades read' m m'.
Proof. intros Hr Hf k. destruct (Hf k) as [E|(E & c & t & Hc & Ht & Hd)]; [by left|]. right. split; [done|]. exists c, t. auto. Qed.

Section Timed.
Context `{PO : PlatformOk}.

(** ** Operations that only erase *)

(** No shard has an entry that it did not have. *)
Definition shrinks (s s' : Store) : Prop :=
  length (shards_ s') = length (shards_ s) ∧ ∀ i, shard_at s' i ⊆ shard_at s i.

#[export] Instance shrinks_preorder : PreOrder shrinks.
Proof.
  split; [by intros s; split|]. intros s1 s2 s3 [L1 H1] [L2 H2]. split; [congruence|]. intros i. transitivity (shard_at s2 i); auto.
Qed.

Lemma shrinks_find s s' k e : shrinks s s' → find s' k = Some e → find s k = Some e.
Proof.
  intros [Hl Hs]. unfold find, shard_for.
  replace (shard_index s' k) with (shard_index s k) by (unfold shard_index, len; by rewrite Hl).
  intros He. eapply lookup_weaken; [exact He|apply Hs].
Qed.

Lemma shrinks_erase s i k e : shrinks s (erase_at s i k e).
Proof.
  split; [apply length_shards_erase|]. intros j. destruct (decide (j = i)) as [->|Hne]; [|by rewrite shard_at_erase_ne].
  unfold erase_at, shard_at at 1, set_shard. cbn [shards_ sub_memory].
  destruct (decide (i < length (shards_ s))%nat) as [Hi|Hi].
  - rewrite list_lookup_insert_eq by done. cbn. apply delete_subseteq.
  - rewrite list_insert_ge by lia. done.
Qed.

Lemma shrinks_same s s' : shards_ s' = shards_ s → shrinks s s'.
Proof. intros E. unfold shrinks, shard_at. by rewrite E. Qed.

Lemma shrinks_expired s i k e now b s' : erase_expired_locked s i k e now = (b, s') → shrinks s s'.
Proof.
  unfold erase_expired_locked. cond_case; intros [= _ <-]; [done|].
  etrans; [apply shrinks_erase|]. by apply shrinks_same.
Qed.

(** Runs an operation of one key that erases at most that key. *)
Ltac shrinking :=
  repeat match goal with
  | |- context [match ?x with _ => _ end] =>
      lazymatch x with context [match _ with _ => _ end] => fail | _ => destruct x eqn:?; cbn [snd] end
  end;
  repeat match goal with E : erase_expired_locked _ _ _ _ _ = _ |- _ => apply shrinks_expired in E end;
  first [done | assumption | etrans; [eassumption|apply shrinks_erase]].

Lemma shrinks_del_loop now ks : ∀ s n, shrinks s (snd (del_loop now s ks n)).
Proof.
  induction ks as [|k ks IH]; intros s n; cbn [del_loop]; [done|]. destruct (find s k) as [e|]; [|apply IH].
  destruct (erase_expired_locked _ _ _ _ _) as [b s1] eqn:E. apply shrinks_expired in E.
  destruct b; (etrans; [exact E|]); [apply IH|]. etrans; [apply shrinks_erase|apply IH].
Qed.

Lemma shrinks_exists_loop now ks : ∀ s n, shrinks s (snd (exists_loop now s ks n)).
Proof.
  induction ks as [|k ks IH]; intros s n; cbn [exists_loop]; [done|]. destruct (find s k) as [e|]; [|apply IH].
  destruct (erase_expired_locked _ _ _ _ _) as [b s1] eqn:E. apply shrinks_expired in E.
  destruct b; (etrans; [exact E|]); apply IH.
Qed.

Lemma shrinks_sweep_entries {A} (f : bytes → Entry → A) now i es : ∀ s out,
  shrinks s (snd (sweep_entries f now i es s out)).
Proof.
  induction es as [|[k e] es IH]; intros s out; cbn [sweep_entries]; [done|].
  destruct (is_expired e now); [|apply IH]. etrans; [|apply IH]. etrans; [apply shrinks_erase|]. by apply shrinks_same.
Qed.

Lemma shrinks_sweep_shards {A} (f : bytes → Entry → A) now ixs : ∀ s out,
  shrinks s (snd (sweep_shards f now ixs s out)).
Proof.
  induction ixs as [|i ixs IH]; intros s out; cbn [sweep_shards]; [done|].
  pose proof (shrinks_sweep_entries f now i (map_order (shard_at s i)) s out) as H1.
  destruct (sweep_entries _ _ _ _ _ _) as [out' s']. etrans; [exact H1|apply IH].
Qed.

Lemma shrinks_samples rand now i todo : ∀ attempt s n n' s',
  sample_loop rand now i attempt todo s n = Some (n', s') → shrinks s s'.
Proof.
  induction todo as [|todo IH]; intros attempt s n n' s'; cbn [sample_loop]; [by intros [= _ <-]|].
  destruct (map_order _ !! _) as [[k e]|]; [|done]. destruct (erase_expired_locked _ _ _ _ _) as [b s1] eqn:E.
  apply shrinks_expired in E. intros Hs. etrans; [exact E|]. by eapply IH.
Qed.

Lemma shrinks_active rand clk s n n' s' : active_expire_cycle rand clk s n = Some (n', s') → shrinks s s'.
Proof.
  unfold active_expire_cycle. case_bool_decide; [by intros [= _ <-]|]. generalize 0 at 1 as m.
  generalize (seq 0 (length (shards_ s))) as ixs. intros ixs. revert s.
  induction ixs as [|i ixs IH]; intros s m; cbn [expire_shards]; [by intros [= _ <-]|].
  case_bool_decide; [apply IH|]. destruct (sample_loop _ _ _ _ _ _ _) as [[n1 s1]|] eqn:E; [|done].
  apply shrinks_samples in E. intros Hs. etrans; [exact E|]. by eapply IH.
Qed.

(** ** The cells and the view *)

Lemma cells_lookup s k : wf s → cells s !! k = cell_of <$> find s k.
Proof. intros Hwf. unfold cells. by rewrite lookup_fmap, contents_lookup. Qed.

Lemma view_cells now s : view now s = expire_view now (cells s).
Proof.
  apply map_eq. intros k. unfold view, expire_view, cells. rewrite lookup_omap, map_lookup_filter, lookup_fmap.
  destruct (contents s !! k) as [e|]; [|done]. cbn. unfold live, is_expired, cell_due. cbn.
  destruct (expires_at e) as [t|]; [|done]. by destruct (t <=? now).
Qed.

Lemma lookup_expire_view now m k c : expire_view now m !! k = Some c ↔ m !! k = Some c ∧ cell_due now c = false.
Proof. unfold expire_view. by rewrite map_lookup_filter_Some. Qed.

Lemma lookup_lingering now m k c : lingering now m !! k = Some c ↔ m !! k = Some c ∧ cell_due now c = true.
Proof. unfold lingering. by rewrite map_lookup_filter_Some. Qed.

(** Erasing what cannot be seen at [now]. *)
Lemma erase_fades now s s' :
  wf s → wf s' → shrinks s s' → view now s' = view now s → fades (eq now) (cells s) (cells s').
Proof.
  intros Hwf Hwf' Hsh Hv k. rewrite !cells_lookup by done. destruct (find s' k) as [e|] eqn:Ef.
  - left. by rewrite (shrinks_find _ _ _ _ Hsh Ef).
  - destruct (find s k) as [e|] eqn:Ek; [|by left]. right. split; [done|]. exists (cell_of e), now.
    split; [done|]. split; [done|]. apply (f_equal (.!! k)) in Hv. rewrite !view_lookup, Ef, Ek in Hv by done.
    cbn in Hv. unfold live, is_expired in Hv. unfold cell_due. cbn. destruct (expires_at e) as [t|]; [|done].
    by destruct (t <=? now).
Qed.

(** ** Operations *)

(** An entry that an operation leaves and that cannot be seen at its instant was
    there before, or is the one whose deadline it has just set. *)
Lemma expire_at_origin clk s k w k' e :
  wf s → find (snd (expire_at clk s k (Some w))) k' = Some e →
  find s k' = Some e ∨ expire_outcome clk (view (mono (clk 0%nat)) s) k w !! k' = Some (cell_of e).
Proof.
  intros Hwf. unfold expire_at, expire_outcome.
  destruct (find_cases (mono (clk 0%nat)) s k Hwf) as [[Hf Hv]|[(e0 & Hf & He & Hv)|(e0 & Hf & He & Hv)]];
    rewrite Hf; [by left|..]; unfold erase_expired_locked; rewrite He, ?Hv; cbn [negb snd]; cbv iota beta.
  - intros Hk. left. eapply shrinks_find; [|exact Hk]. etrans; [apply shrinks_erase|]. by apply shrinks_same.
  - destruct (w <=? wall (clk 1%nat)); cbn [snd].
    + intros Hk. left. eapply shrinks_find; [apply shrinks_erase|exact Hk].
    + rewrite find_set_shard; [|apply Hwf|intros k'' Hne; by rewrite lookup_insert_ne].
      case_decide as Hk; [|by left]. subst k'. rewrite !lookup_insert_eq. intros [= <-]. by right.
Qed.

Lemma set_origin clk s k v w k' e :
  wf s → find (set clk s k v w) k' = Some e → is_expired e (mono (clk 0%nat)) = true → find s k' = Some e.
Proof.
  intros Hwf Hf He. destruct (decide (k' = k)) as [->|Hne]; [|by rewrite find_set_other in Hf by done].
  exfalso. destruct (set_refines clk s k v w Hwf) as [Hwf' Hv]. apply (f_equal (.!! k)) in Hv.
  rewrite view_lookup, Hf in Hv by done. cbn in Hv. unfold live in Hv. rewrite He in Hv. unfold spec_set in Hv.
  revert Hf. unfold set. destruct w as [w|].
  - destruct (w <=? wall (clk 1%nat)); [|by rewrite lookup_insert_eq in Hv].
    fold (shard_for s k). fold (find s k). destruct (find s k) as [e0|] eqn:Ek; [|by rewrite Ek].
    change (find (add_expired ?x ?n) k) with (find x k). rewrite find_erase by apply Hwf. by rewrite decide_True.
  - by rewrite lookup_insert_eq in Hv.
Qed.

Lemma run_origin op clk s k e :
  wf s → find (snd (run op clk s)) k = Some e → is_expired e (op_now op clk) = true →
  find s k = Some e ∨ outcome op clk (view (op_now op clk) s) !! k = Some (cell_of e).
Proof.
  intros Hwf Hf He.
  assert (shrinks s (snd (run op clk s)) → find s k = Some e ∨ outcome op clk (view (op_now op clk) s) !! k = Some (cell_of e))
    as Hshrink by (intros Hsh; left; by eapply shrinks_find).
  destruct op as [k0 v w|k0|k0|ks|k0|ks|k0 n|k0 [w|]|k0|k0|p|]; cbn [run snd op_now outcome] in *.
  - left. by eapply set_origin.
  - apply Hshrink. unfold get, get_shared, get_exclusive. shrinking.
  - apply Hshrink. unfold del. shrinking.
  - apply Hshrink. unfold del_many. destruct ks as [|k1 ks]; [done|].
    pose proof (shrinks_del_loop (mono (clk 0%nat)) (k1 :: ks) s 0). by destruct (del_loop _ _ _ _).
  - apply Hshrink. unfold exists_, exists_shared, exists_exclusive. shrinking.
  - apply Hshrink. unfold exists_many. destruct ks as [|k1 ks]; [done|].
    pose proof (shrinks_exists_loop (mono (clk 0%nat)) (k1 :: ks) s 0). by destruct (exists_loop _ _ _ _).
  - revert Hf. unfold expire. destruct (n <=? 0); rewrite ?Z.add_0_r; intros Hf;
      apply (expire_at_origin (later 1 clk)); try done;
      match goal with |- find (snd (expire_at ?c ?s ?k ?w)) _ = _ => by destruct (expire_at c s k w) end.
  - apply (expire_at_origin clk); [done|]. by destruct (expire_at _ _ _ _).
  - apply Hshrink. unfold expire_at. shrinking.
  - apply Hshrink. unfold ttl, ttl_shared, ttl_exclusive. shrinking.
  - apply Hshrink. unfold expiry_wall_time. shrinking.
  - apply Hshrink. unfold keys. cond_case; [done|].
    pose proof (shrinks_sweep_shards (λ key _, key) (mono (clk 0%nat)) (seq 0 (length (shards_ s))) s []).
    by destruct (sweep_shards _ _ _ _ _).
  - apply Hshrink. split; [apply length_map|]. intros i. unfold shard_at, clear. cbn [shards_].
    rewrite list_lookup_fmap. destruct (shards_ s !! i); cbn; [apply map_empty_subseteq|done].
Qed.

(** What can be seen of the outcome is the result of [spec]. *)
Lemma expire_outcome_view clk v k w :
  expire_view (mono (clk 0%nat)) v = v →
  expire_view (mono (clk 0%nat)) (expire_outcome clk v k w) = snd (spec_expire_at clk v k (Some w)).
Proof.
  intros Hv. unfold expire_outcome, spec_expire_at. destruct (v !! k) as [c|]; [|done].
  destruct (w <=? wall (clk 1%nat)); cbn [snd].
  - unfold expire_view in *. by rewrite map_filter_delete, Hv.
  - unfold spec_put. destruct (cell_due (mono (clk 0%nat)) (timed_cell _ _ _ _)) eqn:Ed; cbn [snd]; unfold expire_view in *.
    + rewrite map_filter_insert_False by (cbn [snd]; by rewrite Ed). by rewrite map_filter_delete, Hv.
    + rewrite map_filter_insert_True by done. by rewrite Hv.
Qed.

(** It is what the store shows afterwards, but for an [EXPIRE]. *)
Lemma outcome_cases op clk s :
  wf s → let now := op_now op clk in
  outcome op clk (view now s) = view now (snd (run op clk s)) ∨
  ∃ clk' k w, now = mono (clk' 0%nat) ∧ outcome op clk (view now s) = expire_outcome clk' (view now s) k w ∧
    view now (snd (run op clk s)) = snd (spec_expire_at clk' (view now s) k (Some w)).
Proof.
  intros Hwf now. destruct (run_refines_spec op clk s Hwf) as (s' & E & Hwf' & Hv). rewrite E. cbn [snd].
  fold now in Hv. destruct op as [k0 v w|k0|k0|ks|k0|ks|k0 n|k0 [w|]|k0|k0|p|]; try (left; by symmetry); right.
  - exists (later 1 clk), k0, (wall (clk 0%nat) + if n <=? 0 then 0 else seconds_to_wall n).
    split; [done|]. split; [done|]. rewrite Hv. cbn [spec]. by destruct (spec_expire_at _ _ _ _).
  - exists clk, k0, w. split; [done|]. split; [done|]. rewrite Hv. cbn [spec]. by destruct (spec_expire_at _ _ _ _).
Qed.

Lemma run_view op clk s :
  wf s → let now := op_now op clk in
  view now (snd (run op clk s)) = expire_view now (outcome op clk (view now s)).
Proof.
  intros Hwf. cbv zeta. destruct (outcome_cases op clk s Hwf) as [-> |(clk' & k & w & Hn & -> & ->)].
  - by apply view_later.
  - rewrite Hn. symmetry. apply expire_outcome_view. symmetry. by apply view_later.
Qed.

(** Where an operation leaves an entry that cannot be seen, it has put nothing. *)
Lemma outcome_over_due op clk s k c c' :
  wf s → let now := op_now op clk in
  cells (snd (run op clk s)) !! k = Some c → cell_due now c = true → view now s !! k = None →
  outcome op clk (view now s) !! k = Some c' → False.
Proof.
  intros Hwf. cbv zeta. intros Hc Hd Hv.
  destruct (outcome_cases op clk s Hwf) as [-> |(clk' & k1 & w & _ & -> & _)]; set (now := op_now op clk) in *.
  - rewrite view_cells, lookup_expire_view. intros [? ?]. congruence.
  - unfold expire_outcome. destruct (view now s !! k1) as [c1|] eqn:E1; [|congruence].
    destruct (w <=? _); [|destruct (decide (k = k1)) as [->|]].
    + rewrite lookup_delete_Some. intros [_ ?]. congruence.
    + congruence.
    + rewrite lookup_insert_ne by done. congruence.
Qed.

(** Every operation does to the cells what [after] says, and may erase cells
    whose deadline has passed at its instant. *)
Lemma run_fades op clk s :
  wf s → fades (eq (op_now op clk)) (after op clk (cells s)) (cells (snd (run op clk s))).
Proof.
  intros Hwf k. pose proof (run_view op clk s Hwf) as Hv. cbv zeta in Hv. unfold after. rewrite <- view_cells.
  pose proof (run_origin op clk s k) as Ho. pose proof (outcome_over_due op clk s k) as Hover. cbv zeta in Hover.
  destruct (run_refines_spec op clk s Hwf) as (s' & E & Hwf' & _). rewrite E in Hv, Ho, Hover |- *. cbn [snd] in *.
  set (now := op_now op clk) in *. set (v := outcome op clk (view now s)) in *.
  apply (f_equal (.!! k)) in Hv. rewrite view_cells in Hv. rewrite lookup_union.
  destruct (cells s' !! k) as [c|] eqn:Ec.
  - left. destruct (cell_due now c) eqn:Ed.
    + rewrite cells_lookup in Ec by done. destruct (find s' k) as [e|] eqn:Ef; [|done]. injection Ec as <-.
      destruct (Ho e Hwf eq_refl Ed) as [Hk|Hk]; [|by rewrite Hk; destruct (lingering _ _ !! k)].
      assert (cells s !! k = Some (cell_of e)) as Hc by (by rewrite cells_lookup, Hk).
      rewrite (proj2 (lookup_lingering _ _ _ _) (conj Hc Ed)). destruct (v !! k) as [c'|] eqn:Ev; [|done].
      exfalso. eapply Hover; [done|done|exact Ed| |done].
      destruct (view now s !! k) as [c1|] eqn:E1; [|done]. rewrite view_cells in E1.
      apply lookup_expire_view in E1 as [? ?]. congruence.
    + assert (v !! k = Some c) as ->; [|by destruct (lingering _ _ !! k)].
      assert (expire_view now (cells s') !! k = Some c) as Hc by (by apply lookup_expire_view).
      rewrite Hv in Hc. by apply lookup_expire_view in Hc as [? _].
  - destruct (v !! k) as [c|] eqn:Ev.
    + right. split; [done|]. exists c, now. split; [by destruct (lingering _ _ !! k)|]. split; [done|].
      destruct (cell_due now c) eqn:Ed; [done|].
      assert (expire_view now v !! k = Some c) as Hc by (by apply lookup_expire_view).
      rewrite <- Hv in Hc. apply lookup_expire_view in Hc as [? _]. congruence.
    + destruct (lingering now (cells s) !! k) as [c|] eqn:El; [|by left]. right. split; [done|].
      exists c, now. split; [done|]. split; [done|]. by apply lookup_lingering in El as [_ ?].
Qed.

Lemma cells_new n s : new_store n = Ok s → cells s = ∅.
Proof.
  unfold new_store. destruct (n =? 0); [done|]. intros [= <-]. unfold cells, contents. cbn [shards_].
  apply map_eq. intros k. rewrite lookup_fmap, lookup_empty, fmap_None.
  induction (Z.to_nat n) as [|i IH]; cbn [replicate union_list foldr]; [apply lookup_empty|].
  rewrite map_empty_union || rewrite (left_id_L ∅ (∪)). exact IH.
Qed.
End Timed.
