(* ===== verification/StoreShared.v ===== *)
(** * [KEYS] between other threads

    [Store::keys] locks one shard at a time: other threads may change the store
    between two of its critical sections.  Here the sections are separate steps,
    interleaved with the operations of the other threads. *)

From S2P Require Import Prelude Store StoreInv StoreSpec StoreCorrect StoreTheorems.

(** A call of [keys] in progress: the store, the shards that are left, the keys
    collected so far and, for the statements only, the states in which its
    sections found the store. *)
Record Sweep := MkSweep {
  sw_store : Store;
  sw_todo : list nat;
  sw_out : list bytes;
  sw_found : list Store;
}.

Section Shared.
Context `{PO : PlatformOk}.

(** The next section of [keys], which took its instant [now] before the first
    one, or what other threads do in between: anything that keeps the invariant
    and the number of shards, as every operation does ([operation_interferes]). *)
Inductive sweep_step (now : Z) : relation Sweep :=
| sweep_section s i todo out found out' s' :
    sweep_entries (λ key _, key) now i (map_order (shard_at s i)) s out = (out', s') →
    sweep_step now (MkSweep s (i :: todo) out found) (MkSweep s' todo out' (found ++ [s]))
| sweep_others s s' todo out found :
    wf s' → length (shards_ s') = length (shards_ s) →
    sweep_step now (MkSweep s todo out found) (MkSweep s' todo out found).

Definition sweep_start (s : Store) : Sweep := MkSweep s (seq 0 (length (shards_ s))) [] [].

(** ** Operations keep the shards *)

Lemma length_set_shard s i m : length (shards_ (set_shard s i m)) = length (shards_ s).
Proof. apply length_insert. Qed.
Lemma length_erase_expired s i k e now b s' :
  erase_expired_locked s i k e now = (b, s') → length (shards_ s') = length (shards_ s).
Proof. unfold erase_expired_locked. cond_case; intros [= _ <-]; [done|]. apply length_shards_erase. Qed.

Ltac same_shards :=
  repeat first
    [ done
    | rewrite length_shards_erase
    | rewrite length_set_shard
    | match goal with
      | E : erase_expired_locked _ _ _ _ _ = (_, ?s') |- context [shards_ ?s'] => rewrite (length_erase_expired _ _ _ _ _ _ _ E)
      | |- context [match ?x with _ => _ end] => destruct x eqn:?
      end
    | progress cbn [snd shards_ add_memory sub_memory add_expired] ].

Lemma length_expire_at clk s k w : length (shards_ (snd (expire_at clk s k w))) = length (shards_ s).
Proof. unfold expire_at. same_shards. Qed.

Lemma length_loops now ks : ∀ s n,
  length (shards_ (snd (del_loop now s ks n))) = length (shards_ s) ∧
  length (shards_ (snd (exists_loop now s ks n))) = length (shards_ s).
Proof.
  induction ks as [|k ks IH]; intros s n; cbn [del_loop exists_loop]; [done|].
  destruct (find s k) as [e|]; [|apply IH]. destruct (erase_expired_locked s _ k e now) as [b s'] eqn:E.
  apply length_erase_expired in E as Hl. destruct b; rewrite ?(proj1 (IH _ _)), ?(proj2 (IH _ _)); split; same_shards.
Qed.

Lemma run_length op clk s : wf s → length (shards_ (snd (run op clk s))) = length (shards_ s).
Proof.
  intros Hwf. destruct op as [k v w|k|k|ks|k|ks|k n|k w|k|k|p|]; cbn [run].
  - unfold set. same_shards.
  - assert (length (shards_ (snd (get clk s k))) = length (shards_ s)) as Hl by (unfold get, get_exclusive; same_shards).
    by destruct (get clk s k).
  - assert (length (shards_ (snd (del clk s k))) = length (shards_ s)) as Hl by (unfold del; same_shards).
    by destruct (del clk s k).
  - unfold del_many. destruct ks as [|k ks]; [done|]. rewrite <- (proj1 (length_loops (mono (clk 0%nat)) (k :: ks) s 0)).
    by destruct (del_loop _ _ _ _).
  - assert (length (shards_ (snd (exists_ clk s k))) = length (shards_ s)) as Hl by (unfold exists_, exists_exclusive; same_shards).
    by destruct (exists_ clk s k).
  - unfold exists_many. destruct ks as [|k ks]; [done|]. rewrite <- (proj2 (length_loops (mono (clk 0%nat)) (k :: ks) s 0)).
    by destruct (exists_loop _ _ _ _).
  - unfold expire. cond_case.
    + rewrite <- (length_expire_at (later 1 clk) s k (Some (wall (clk 0%nat)))). by destruct (expire_at _ _ _ _).
    + rewrite <- (length_expire_at (later 1 clk) s k (Some (wall (clk 0%nat) + seconds_to_wall n))).
      by destruct (expire_at _ _ _ _).
  - rewrite <- (length_expire_at clk s k w). by destruct (expire_at _ _ _ _).
  - assert (length (shards_ (snd (ttl clk s k))) = length (shards_ s)) as Hl by (unfold ttl, ttl_exclusive; same_shards).
    by destruct (ttl clk s k).
  - assert (length (shards_ (snd (expiry_wall_time clk s k))) = length (shards_ s)) as Hl by (unfold expiry_wall_time; same_shards).
    by destruct (expiry_wall_time clk s k).
  - unfold keys. cond_case; [done|].
    destruct (sweep_shards_spec (λ key _, key) (mono (clk 0%nat)) (seq 0 (length (shards_ s))) s [])
      as (s' & -> & _ & _ & Hl); [done|apply NoDup_seq|done].
  - unfold clear. cbn. by rewrite length_map.
Qed.

Lemma operation_interferes now op clk s todo out found :
  wf s → sweep_step now (MkSweep s todo out found) (MkSweep (snd (run op clk s)) todo out found).
Proof.
  intros Hwf. constructor; [|by apply run_length]. destruct (run_refines_spec op clk s Hwf) as (s' & -> & ? & _). done.
Qed.

(** ** What a call has collected *)

Definition shard_keys (now : Z) (i : nat) (s : Store) : list bytes :=
  (filter (is_live now) (map_order (shard_at s i))).*1.

Record sweeping (n : nat) (now : Z) (w : Sweep) : Prop := {
  si_wf : wf (sw_store w);
  si_shards : length (shards_ (sw_store w)) = n;
  si_found : Forall (λ s, wf s ∧ length (shards_ s) = n) (sw_found w);
  si_todo : seq 0 n = seq 0 (length (sw_found w)) ++ sw_todo w;
  si_out : sw_out w = concat (imap (shard_keys now) (sw_found w));
}.

Lemma seq_split n m i todo : seq 0 n = seq 0 m ++ i :: todo → i = m ∧ seq 0 n = seq 0 (S m) ++ todo.
Proof.
  intros E. assert (i = m) as ->.
  { assert (seq 0 n !! m = Some i) as Hi by (rewrite E, lookup_app_r; rewrite length_seq; [|done]; by rewrite Nat.sub_diag).
    apply lookup_seq in Hi as [-> _]. done. }
  split; [done|]. rewrite seq_S, <- app_assoc. exact E.
Qed.

Lemma step_sweeping n now w w' : sweep_step now w w' → sweeping n now w → sweeping n now w'.
Proof.
  intros Hstep [H1 H2 H3 H4 H5]. destruct Hstep as [s i todo out found out' s' E|s s' todo out found Hwf Hl];
    cbn [sw_store sw_todo sw_out sw_found] in *.
  - destruct (sweep_entries_spec (λ key _, key) now i (map_order (shard_at s i)) s out)
      as (s1 & E1 & Hw1 & _ & Hl1 & _); [done|apply map_order_nodup|by intros; apply map_order_elem|].
    rewrite E in E1. injection E1 as -> ->. apply seq_split in H4 as [-> H4].
    split; cbn [sw_store sw_todo sw_out sw_found]; [done|congruence| | |].
    + apply Forall_app. split; [done|]. by apply Forall_singleton.
    + rewrite length_app. cbn [length]. by rewrite Nat.add_1_r.
    + rewrite imap_app, concat_app. cbn [imap concat]. rewrite app_nil_r, H5. f_equal.
      unfold shard_keys. cbn. rewrite Nat.add_0_r. apply map_ext. by intros [].
  - split; cbn [sw_store sw_todo sw_out sw_found]; [done|congruence|done..].
Qed.

Lemma sweeping_end s now w : wf s → rtc (sweep_step now) (sweep_start s) w → sweeping (length (shards_ s)) now w.
Proof.
  intros Hwf Hs. assert (sweeping (length (shards_ s)) now (sweep_start s)) as Hi by (split; cbn; auto).
  induction Hs as [|w1 w2 w3 H1 _ IH]; [done|]. by apply IH, (step_sweeping _ _ _ _ H1).
Qed.

Lemma shard_index_length s s' k : length (shards_ s') = length (shards_ s) → shard_index s' k = shard_index s k.
Proof. intros Hl. unfold shard_index, len. by rewrite Hl. Qed.

Lemma elem_of_shard_keys now i s k :
  wf s → k ∈ shard_keys now i s ↔ i = shard_index s k ∧ is_Some (view now s !! k).
Proof.
  intros Hwf. unfold shard_keys. rewrite list_elem_of_fmap, view_lookup by done. split.
  - intros ([k' e] & -> & [Hl Hin]%list_elem_of_filter). apply map_order_elem in Hin.
    destruct (home_find s i k' e Hwf Hin) as [-> Hf]. split; [done|]. cbn [fst]. rewrite Hf. cbn. unfold live.
    unfold is_live in Hl. cbn in Hl. rewrite Hl. by eexists.
  - intros [-> [c Hc]]. destruct (find s k) as [e|] eqn:Hf; [|done]. cbn in Hc. exists (k, e). split; [done|].
    apply list_elem_of_filter. split; [|by apply map_order_elem]. unfold is_live. cbn. revert Hc. unfold live.
    by destruct (is_expired e now).
Qed.

(** A key has been collected exactly when it was live in the state in which its
    shard was visited. *)
Lemma elem_of_collected n now s w k :
  sweeping n now w → length (shards_ s) = n →
  k ∈ sw_out w ↔ ∃ f, sw_found w !! shard_index s k = Some f ∧ is_Some (view now f !! k).
Proof.
  intros [_ _ Hf _ ->] Hn. rewrite list_elem_of_In, in_concat. setoid_rewrite <- list_elem_of_In. split.
  - intros (l & Hl & Hk). apply elem_of_lookup_imap in Hl as (i & f & -> & Hi).
    rewrite Forall_lookup in Hf. destruct (Hf i f Hi) as [Hwf Hlen]. apply elem_of_shard_keys in Hk as [-> Hk]; [|done].
    exists f. split; [|done]. by rewrite <- (shard_index_length s f) by congruence.
  - intros (f & Hi & Hk). exists (shard_keys now (shard_index s k) f). split; [by apply elem_of_lookup_imap_2|].
    rewrite Forall_lookup in Hf. destruct (Hf _ f Hi) as [Hwf Hlen]. apply elem_of_shard_keys; [done|].
    split; [|done]. symmetry. apply shard_index_length. congruence.
Qed.

Lemma NoDup_collected n now l : ∀ j,
  Forall (λ s, wf s ∧ length (shards_ s) = n) l → NoDup (concat (imap (λ i, shard_keys now (j + i)) l)).
Proof.
  induction l as [|s l IH]; intros j Hall; [constructor|]. apply Forall_cons in Hall as [[Hwf Hn] Hall].
  rewrite imap_cons. cbn [concat]. apply NoDup_app. split_and!.
  - unfold shard_keys. eapply sublist_NoDup; [apply (map_order_nodup (shard_at s (j + 0)))|].
    apply fmap_sublist, sublist_filter.
  - intros k Hk Hin. apply elem_of_shard_keys in Hk as [Hj _]; [|done].
    apply list_elem_of_In, in_concat in Hin as (ks & Hks & Hin). apply list_elem_of_In in Hks, Hin.
    apply elem_of_lookup_imap in Hks as (i & f & -> & Hi). rewrite Forall_lookup in Hall.
    destruct (Hall i f Hi) as [Hwf' Hn']. apply elem_of_shard_keys in Hin as [Hj' _]; [|done].
    rewrite (shard_index_length s f) in Hj' by congruence. cbn in Hj'. lia.
  - rewrite (imap_ext _ (λ i, shard_keys now (S j + i))); [by apply IH|]. intros i f _. cbn. f_equal. lia.
Qed.

(** C25. [KEYS] between other threads: whatever the other threads do between the
    visits of the shards, no key is listed twice, and a key is listed exactly
    when it was live - at the instant the call read before its first visit - in
    the state which the visit of the key's own shard found; in particular a key
    that was live in all the states the visits found is listed, and when the
    others did not change what can be observed, the keys listed are those of the
    map. *)
Theorem keys_between_sections s now w :
  wf s → rtc (sweep_step now) (sweep_start s) w → sw_todo w = [] →
  let ks := merge_sort bytes_le (sw_out w) in
  NoDup ks ∧
  (∀ k, k ∈ ks ↔ ∃ f, sw_found w !! shard_index s k = Some f ∧ is_Some (view now f !! k)) ∧
  (∀ k, (∀ f, f ∈ sw_found w → is_Some (view now f !! k)) → k ∈ ks) ∧
  (Forall (λ f, view now f = view now s) (sw_found w) → ks = spec_keys (view now s)).
Proof.
  intros Hwf Hs Hend ks. pose proof (sweeping_end s now w Hwf Hs) as Hw.
  assert (NoDup (sw_out w)) as Hnd.
  { rewrite (si_out _ _ _ Hw). apply (NoDup_collected (length (shards_ s)) now _ 0), Hw. }
  assert (length (sw_found w) = length (shards_ s)) as Hlen.
  { pose proof (si_todo _ _ _ Hw) as Ht. rewrite Hend, app_nil_r in Ht. apply (f_equal length) in Ht.
    by rewrite !length_seq in Ht. }
  assert (∀ k, ∃ f, sw_found w !! shard_index s k = Some f) as Hvisit.
  { intros k. apply lookup_lt_is_Some. rewrite Hlen. by apply shard_index_lt, wf_shards. }
  assert (∀ k, k ∈ ks ↔ ∃ f, sw_found w !! shard_index s k = Some f ∧ is_Some (view now f !! k)) as Hks.
  { intros k. rewrite <- (elem_of_collected _ now s w k Hw eq_refl). unfold ks. by rewrite merge_sort_Permutation. }
  split_and!.
  - unfold ks. by rewrite merge_sort_Permutation.
  - exact Hks.
  - intros k Hall. apply Hks. destruct (Hvisit k) as [f Hf]. exists f. split; [done|].
    by eapply Hall, list_elem_of_lookup_2.
  - intros Hsame. apply merge_sort_perm, NoDup_Permutation; [done|apply NoDup_elements|].
    intros k. rewrite elem_of_elements, elem_of_dom, (elem_of_collected _ now s w k Hw eq_refl).
    rewrite Forall_lookup in Hsame. split.
    + intros (f & Hf & Hk). by rewrite <- (Hsame _ _ Hf).
    + intros Hk. destruct (Hvisit k) as [f Hf]. exists f. by rewrite (Hsame _ _ Hf).
Qed.
End Shared.

(** ** Concrete executions *)

#[local] Existing Instance demo_platform.
#[local] Existing Instance demo_platform_ok.

(** Two shards, to which another thread adds "b" and then "a", of shard 0 and of
    shard 1. *)
Definition shared_0 : Store := demo_store 2.
Definition shared_1 : Store := snd (run (OpSet (str "b") (VString (str "1")) None) (frozen (demo_tick 1)) shared_0).
Definition shared_2 : Store := snd (run (OpSet (str "a") (VString (str "2")) None) (frozen (demo_tick 2)) shared_1).

(** A [KEYS] that visits shard 0 before the two and shard 1 after them. *)
Definition shared_end : Sweep := MkSweep shared_2 [] [str "a"] [shared_0; shared_2].

Lemma shared_wf : wf shared_0 ∧ wf shared_1 ∧ wf shared_2.
Proof.
  assert (wf shared_0) as H0 by (by apply demo_store_wf).
  assert (∀ op clk s, wf s → wf (snd (run op clk s))) as Hrun.
  { intros op clk s Hs. destruct (run_refines_spec op clk s Hs) as (s' & -> & Hs' & _). done. }
  split_and!; [done|by apply Hrun|by apply Hrun, Hrun].
Qed.

Lemma shared_steps : rtc (sweep_step (mono (demo_tick 1))) (sweep_start shared_0) shared_end.
Proof.
  destruct shared_wf as (H0 & H1 & H2).
  eapply rtc_l; [eapply sweep_section; vm_compute; reflexivity|].
  eapply rtc_l; [apply (sweep_others _ _ shared_1); [exact H1|reflexivity]|].
  eapply rtc_l; [apply (sweep_others _ _ shared_2); [exact H2|reflexivity]|].
  eapply rtc_l; [eapply sweep_section; vm_compute; reflexivity|]. apply rtc_refl.
Qed.

Lemma keys_between_sections_witness :
  ∃ f, [shared_0; shared_2] !! shard_index shared_0 (str "a") = Some f ∧ is_Some (view (mono (demo_tick 1)) f !! str "a").
Proof.
  destruct shared_wf as (H0 & _ & _).
  destruct (keys_between_sections shared_0 (mono (demo_tick 1)) shared_end H0 shared_steps eq_refl) as (_ & Hlive & _).
  apply (Hlive (str "a")). vm_compute. left.
Defined.

(** [KEYS] is not atomic: it may list a key without listing one that the same
    client had stored before it.  The keys listed are then those of the store at
    no moment. *)
Theorem keys_not_atomic :
  let now := mono (demo_tick 1) in
  rtc (sweep_step now) (sweep_start shared_0) shared_end ∧ sw_todo shared_end = [] ∧
  merge_sort bytes_le (sw_out shared_end) = [str "a"] ∧
  (λ s, spec_keys (view now s)) <$> [shared_0; shared_1; shared_2] = [[]; [str "b"]; [str "a"; str "b"]].
Proof. split; [exact shared_steps|]. by vm_compute. Qed.
