(* ===== verification/Snapshot.v ===== *)
(** * Snapshots

    [include/novacache/persistence/snapshot.hpp] and
    [src/persistence/snapshot.cpp]: the file format, the write to a temporary
    file followed by a rename, and the checked read. *)

From S2P Require Import Prelude Binary Crc32 Disk Store StoreInv.

(** ** Times *)

(** [duration_cast<milliseconds>] of a wall-clock time truncates. *)
Definition to_unix_ms (time : Z) : Z := Z.quot time 1000.

(** Computed in [Z]: the overflow of the source's multiplication, for a file with
    a deadline beyond [2 ^ 63] microseconds, is not modelled. *)
Definition from_unix_ms (millis : Z) : Z := millis * 1000.

(** ** The format *)

Definition snapshot_magic : bytes := str "NCSNP" ++ [Byte.x00; Byte.x00; Byte.x00].
Definition snapshot_version : Z := 1.

Record SnapshotHeader := {
  wal_offset : Z;
  entry_count : Z;
}.

#[export] Instance SnapshotHeader_eq_decision : EqDecision SnapshotHeader.
Proof. solve_decision. Defined.

#[export] Instance PersistedEntry_eq_decision : EqDecision PersistedEntry.
Proof. solve_decision. Defined.

Section Format.
Context `{Platform}.

Definition append_value (out : bytes) (v : Value) : bytes :=
  match v with
  | VString stored => append_bytes (append_u8 out 0) stored
  | VInt stored => append_i64 (append_u8 out 1) stored
  | VList stored =>
      fold_left append_bytes stored (append_u32 (append_u8 out 2) (u32 (len stored)))
  | VSet stored =>
      fold_left append_bytes (set_order stored)
        (append_u32 (append_u8 out 3) (u32 (Z.of_nat (size stored))))
  end.

Definition append_entry (body : bytes) (entry : PersistedEntry) : bytes :=
  let body := append_value (append_bytes body (pkey entry)) (pvalue entry) in
  let body := append_u8 body (if bool_decide (is_Some (pexpiry_wall entry)) then 1 else 0) in
  match pexpiry_wall entry with
  | Some w => append_i64 body (to_unix_ms w)
  | None => body
  end.

(** The contents of the file, without and with its checksum. *)
Definition snapshot_content (wal_offset : Z) (entries : list PersistedEntry) : bytes :=
  let body := append_u32 snapshot_magic snapshot_version in
  let body := append_u64 body wal_offset in
  let body := append_u64 body (u64 (len entries)) in
  fold_left append_entry entries body.

Definition snapshot_body (wal_offset : Z) (entries : list PersistedEntry) : bytes :=
  let body := snapshot_content wal_offset entries in append_u32 body (crc32 body).
End Format.

Definition read_value (input : bytes) : result (Value * bytes) :=
  let! (type, input) := read_u8 input in
  if type =? 0 then let! (stored, input) := read_bytes input in Ok (VString stored, input)
  else if type =? 1 then let! (stored, input) := read_i64 input in Ok (VInt stored, input)
  else if type =? 2 then
    let! (count, input) := read_u32 input in
    let! (items, input) := read_many read_bytes (Z.to_nat count) input in
    Ok (VList items, input)
  else if type =? 3 then
    let! (count, input) := read_u32 input in
    let! (items, input) := read_many read_bytes (Z.to_nat count) input in
    Ok (VSet (list_to_set items), input)
  else throw runtime_error "unknown snapshot value type".

Definition read_entry (cursor : bytes) : result (PersistedEntry * bytes) :=
  let! (key, cursor) := read_bytes cursor in
  let! (v, cursor) := read_value cursor in
  let! (flag, cursor) := read_u8 cursor in
  if negb (flag =? 0)
  then let! (ms, cursor) := read_i64 cursor in
       Ok ({| pkey := key; pvalue := v; pexpiry_wall := Some (from_unix_ms ms) |}, cursor)
  else Ok ({| pkey := key; pvalue := v; pexpiry_wall := None |}, cursor).

(** The part of [SnapshotStore::read] inside its [try] block; [reserved] is
    whether the memory for the entries could be reserved. *)
Definition read_content (reserved : bool) (file : bytes)
    : result (option (SnapshotHeader * list PersistedEntry)) :=
  let content := take (length file - 4) file in
  let trailer := drop (length file - 4) file in
  let! (expected, _) := read_u32 trailer in
  if negb (crc32 content =? expected) then Ok None
  else
    let cursor := drop 8 content in
    let! (v, cursor) := read_u32 cursor in
    if negb (v =? snapshot_version) then Ok None
    else
      let! (wal_offset, cursor) := read_u64 cursor in
      let! (entry_count, cursor) := read_u64 cursor in
      if negb reserved then throw runtime_error "vector::reserve"
      else
        let! (entries, cursor) := read_many read_entry (Z.to_nat entry_count) cursor in
        if negb (bool_decide (cursor = [])) then Ok None
        else Ok (Some ({| wal_offset := wal_offset; entry_count := entry_count |}, entries)).

(** ** The files *)

(** The snapshot file and the temporary one next to it. *)
Record SnapshotFiles := {
  final_file : option bytes;
  temp_file : option bytes;
}.

Definition set_temp (f : option bytes) (d : SnapshotFiles) : SnapshotFiles :=
  {| final_file := final_file d; temp_file := f |}.

(** [rename(2)] replaces the target in one step. *)
Definition rename_temp (d : SnapshotFiles) : SnapshotFiles :=
  {| final_file := temp_file d; temp_file := None |}.

Definition snapshot_write_all (os : Os) (data : bytes) : Exec SnapshotFiles unit :=
  λ d, let '(r, f) := write_all "short write to snapshot" (os_writes os "snapshot")
                        (default [] (temp_file d)) data in
       (r, set_temp (Some f) d).

(** [SnapshotStore::write]; the [fsync] of the directory ignores its errors. *)
Definition write_snapshot `{Platform} (os : Os) (wal_offset : Z) (entries : list PersistedEntry)
    : Exec SnapshotFiles unit :=
  fs os "create_directories(snapshot)" ;;
  sys os "open(snapshot tmp)" ;;
  modify (set_temp (Some [])) ;;
  snapshot_write_all os (snapshot_body wal_offset entries) ;;
  sys os "fsync(snapshot tmp)" ;;
  sys os "close(snapshot tmp)" ;;
  fs os "rename snapshot" ;;
  modify rename_temp.

(** [SnapshotStore::read]. *)
Definition read_snapshot (os : Os) (d : SnapshotFiles)
    : option (SnapshotHeader * list PersistedEntry) :=
  match final_file d with
  | None => None
  | Some file =>
      if negb (sys_ok os "open(snapshot)") || negb (sys_ok os "lseek(snapshot)") ||
         negb (sys_ok os "read(snapshot)") then None
      else if (len file <? 8 + 4 + 8 + 8 + 4) ||
              negb (bool_decide (take (length snapshot_magic) file = snapshot_magic)) then None
      else
        match read_content (sys_ok os "reserve(snapshot entries)") file with
        | Ok loaded => loaded
        | Throw _ => None
        end
  end.
