(* ===== verification/SnapshotCorrect.v ===== *)
(** * Properties of snapshots

    The writers and readers of the format are a [Codec]; a snapshot is read
    back up to the milliseconds of its deadlines, replaces the previous one
    atomically, and is refused when any of its bytes has changed. *)

From S2P Require Import Prelude Binary Crc32 Disk Store StoreInv StoreTheorems Snapshot.

Section Codecs.
Context `{PO : PlatformOk}.

(** ** Values *)

(** The sizes and numbers that the fields of the format can hold. *)
Definition valid_value (v : Value) : Prop :=
  match v with
  | VString stored => len stored < 2 ^ 32
  | VInt stored => is_i64 stored
  | VList stored => len stored < 2 ^ 32 ∧ Forall (λ s, len s < 2 ^ 32) stored
  | VSet stored =>
      Z.of_nat (size stored) < 2 ^ 32 ∧ Forall (λ s, len s < 2 ^ 32) (elements stored)
  end.

#[export] Instance valid_value_dec v : Decision (valid_value v).
Proof. destruct v; cbn; apply _. Defined.

(** A counted sequence of byte strings, as lists and sets are written. *)
Definition put_counted (out : bytes) (items : list bytes) : bytes :=
  fold_left append_bytes items (append_u32 out (u32 (len items))).

Definition get_counted (input : bytes) : result (list bytes * bytes) :=
  let! (count, input) := read_u32 input in read_many read_bytes (Z.to_nat count) input.

#[export] Instance counted_codec :
  Codec put_counted get_counted (λ l, len l < 2 ^ 32 ∧ Forall (λ s, len s < 2 ^ 32) l).
Proof.
  split.
  - intros out items. unfold put_counted. rewrite !(put_many append_bytes _ _ _ (append_u32 _ _)).
    by rewrite (put_appends (put := append_u32) out), <- app_assoc.
  - intros items rest [Hl Hs]. unfold put_counted, get_counted. pose proof (len_nonneg items).
    assert (is_u32 (len items)) as Hu by (unfold is_u32; lia).
    rewrite (put_many append_bytes _ _ _ (append_u32 _ _)), u32_id, <- app_assoc, get_put by done.
    cbn [bind]. unfold len. rewrite Nat2Z.id. by apply (read_many_put append_bytes read_bytes _).
Qed.

Lemma set_order_length s : length (set_order s) = size s.
Proof. by rewrite (Permutation_length (set_order_perm s)). Qed.

Lemma set_order_set s : list_to_set (set_order s) = s.
Proof. apply set_eq. intros x. by rewrite elem_of_list_to_set, set_order_perm, elem_of_elements. Qed.

(** [append_value] through its parts. *)
Lemma append_value_eq out v :
  append_value out v =
  match v with
  | VString stored => append_bytes (append_u8 out 0) stored
  | VInt stored => append_i64 (append_u8 out 1) stored
  | VList stored => put_counted (append_u8 out 2) stored
  | VSet stored => put_counted (append_u8 out 3) (set_order stored)
  end.
Proof.
  destruct v; try done. unfold append_value, put_counted, len. by rewrite set_order_length.
Qed.

(** A tagged part: the tag, then what the part's writer writes. *)
Lemma tagged_app {A} (put : bytes → A → bytes) {read valid} `{!Codec put read valid} out tag a :
  put (append_u8 out tag) a = out ++ append_u8 [] tag ++ put [] a.
Proof. rewrite (put_appends (append_u8 out tag)). unfold append_u8. by rewrite <- app_assoc. Qed.

Lemma read_counted {B} (k : list bytes → B) (input : bytes) :
  (let! (count, input) := read_u32 input in
   let! (items, input) := read_many read_bytes (Z.to_nat count) input in
   Ok (k items, input)) =
  (let! (items, input) := get_counted input in Ok (k items, input)).
Proof. unfold get_counted. by destruct (read_u32 input) as [[]|]. Qed.

#[export] Instance value_codec : Codec append_value read_value valid_value.
Proof.
  split.
  - intros out v. rewrite !append_value_eq.
    destruct v; [rewrite !(tagged_app append_bytes)|rewrite !(tagged_app append_i64)
                |rewrite !(tagged_app put_counted)..]; by rewrite app_nil_l.
  - intros v rest Hv. rewrite append_value_eq. unfold read_value.
    destruct v as [s|z|l|s];
      [rewrite (tagged_app append_bytes)|rewrite (tagged_app append_i64)
      |rewrite (tagged_app put_counted)..];
      rewrite app_nil_l, <- app_assoc, get_put by lia; cbn [bind Z.eqb Pos.eqb].
    + by rewrite get_put.
    + by rewrite get_put.
    + rewrite read_counted. by rewrite get_put.
    + rewrite read_counted, get_put; [cbn [bind]; by rewrite set_order_set|].
      destruct Hv as [Hn Hs]. unfold len. rewrite set_order_length, set_order_perm. done.
Qed.

(** ** Entries *)

Definition valid_entry (e : PersistedEntry) : Prop :=
  len (pkey e) < 2 ^ 32 ∧ valid_value (pvalue e) ∧
  match pexpiry_wall e with Some w => is_i64 (to_unix_ms w) | None => True end.

#[export] Instance valid_entry_dec e : Decision (valid_entry e).
Proof. unfold valid_entry. destruct (pexpiry_wall e); apply _. Defined.

(** The entry with its deadline cut to milliseconds. *)
Definition ms_entry (e : PersistedEntry) : PersistedEntry :=
  {| pkey := pkey e; pvalue := pvalue e;
     pexpiry_wall := (λ w, from_unix_ms (to_unix_ms w)) <$> pexpiry_wall e |}.

Lemma to_from_ms ms : to_unix_ms (from_unix_ms ms) = ms.
Proof. unfold to_unix_ms, from_unix_ms. apply Z.quot_mul. lia. Qed.

Lemma append_entry_app out e :
  append_entry out e = out ++ append_bytes [] (pkey e) ++ append_value [] (pvalue e) ++
    append_u8 [] (if bool_decide (is_Some (pexpiry_wall e)) then 1 else 0) ++
    match pexpiry_wall e with Some w => append_i64 [] (to_unix_ms w) | None => [] end.
Proof.
  unfold append_entry. destruct (pexpiry_wall e) as [w|].
  - rewrite (tagged_app append_i64), (put_appends (put := append_value)),
      (put_appends (put := append_bytes) out). by rewrite <- !app_assoc.
  - rewrite app_nil_r, (put_appends (put := append_u8)), (put_appends (put := append_value)),
      (put_appends (put := append_bytes) out). by rewrite <- !app_assoc.
Qed.

Lemma read_append_entry e rest :
  valid_entry e → read_entry (append_entry [] e ++ rest) = Ok (ms_entry e, rest).
Proof.
  intros (Hk & Hv & He). rewrite append_entry_app, app_nil_l, <- !app_assoc. unfold read_entry, ms_entry.
  rewrite get_put by done. cbn [bind]. rewrite get_put by done. cbn [bind].
  destruct (pexpiry_wall e) as [w|].
  - rewrite bool_decide_true by eauto. rewrite get_put by lia. cbn [bind Z.eqb negb].
    by rewrite get_put by done.
  - rewrite bool_decide_false by (intros []; done). rewrite get_put by lia. done.
Qed.

Lemma fold_append_entry es : ∀ out,
  fold_left append_entry es out = out ++ fold_left append_entry es [].
Proof.
  induction es as [|e es IH]; intros out; cbn [fold_left]; [by rewrite app_nil_r|].
  rewrite (IH (append_entry out e)), (IH (append_entry [] e)), (append_entry_app out),
    (append_entry_app []). by rewrite <- !app_assoc.
Qed.

Lemma read_entries es : ∀ rest,
  Forall valid_entry es →
  read_many read_entry (length es) (fold_left append_entry es [] ++ rest) = Ok (map ms_entry es, rest).
Proof.
  induction es as [|e es IH]; intros rest Hv; [done|]. apply Forall_cons in Hv as [He Hv].
  cbn [length read_many fold_left]. rewrite fold_append_entry, <- app_assoc, read_append_entry by done.
  cbn [bind]. by rewrite IH.
Qed.

(** ** Files *)

Lemma snapshot_content_eq off es :
  snapshot_content off es =
  snapshot_magic ++ append_u32 [] snapshot_version ++ append_u64 [] off ++
  append_u64 [] (u64 (len es)) ++ fold_left append_entry es [].
Proof.
  unfold snapshot_content. rewrite fold_append_entry, (put_appends (put := append_u64) (append_u64 _ _)),
    (put_appends (put := append_u64) (append_u32 _ _)), (put_appends (put := append_u32) snapshot_magic).
  by rewrite <- !app_assoc.
Qed.

Lemma snapshot_body_eq off es :
  snapshot_body off es = snapshot_content off es ++ append_u32 [] (crc32 (snapshot_content off es)).
Proof. unfold snapshot_body. by rewrite (put_appends (put := append_u32)). Qed.

Lemma len_snapshot_content off es : 28 <= len (snapshot_content off es).
Proof.
  rewrite snapshot_content_eq, append_u32_le, !append_u64_le.
  pose proof (len_nonneg (fold_left append_entry es [])). rewrite !len_app.
  change (len snapshot_magic) with 8. rewrite !len_nil. unfold len in *. rewrite !length_le_bytes. lia.
Qed.

(** The reader of a file made of contents and a trailer. *)
Lemma read_content_split reserved content crc :
  is_u32 crc → crc32 content ≠ crc → read_content reserved (content ++ append_u32 [] crc) = Ok None.
Proof.
  intros Hu Hne. unfold read_content.
  assert (length (content ++ append_u32 [] crc) - 4 = length content)%nat as ->
    by (rewrite append_u32_le; len_simpl; lia).
  rewrite take_length_app, drop_length_app by done.
  rewrite <- (app_nil_r (append_u32 [] crc)), get_put by done. cbn [bind].
  by replace (crc32 content =? crc) with false by lia.
Qed.

Lemma read_snapshot_body off es :
  is_u64 off → len es < 2 ^ 64 → Forall valid_entry es →
  read_content true (snapshot_body off es) =
  Ok (Some ({| wal_offset := off; entry_count := len es |}, map ms_entry es)).
Proof.
  intros Ho Hl Hv. rewrite snapshot_body_eq. unfold read_content. set (content := snapshot_content off es).
  assert (length (content ++ append_u32 [] (crc32 content)) - 4 = length content)%nat as ->
    by (rewrite append_u32_le; len_simpl; lia).
  rewrite take_length_app, drop_length_app by done.
  rewrite <- (app_nil_r (append_u32 [] (crc32 content))), get_put by apply crc32_range. cbn [bind].
  rewrite Z.eqb_refl. cbn [negb]. unfold content. rewrite snapshot_content_eq.
  change (drop 8 (snapshot_magic ++ ?l)) with l.
  rewrite get_put by (unfold is_u32, snapshot_version; lia). cbn [bind]. rewrite Z.eqb_refl. cbn [negb].
  rewrite get_put by done. cbn [bind]. pose proof (len_nonneg es).
  rewrite u64_id by (unfold is_u64; lia). rewrite get_put by (unfold is_u64; lia). cbn [bind].
  rewrite <- (app_nil_r (fold_left append_entry es [])).
  assert (Z.to_nat (len es) = length es) as -> by (unfold len; lia). by rewrite read_entries by done.
Qed.

Lemma snapshot_header_ok off es :
  bool_decide (take (length snapshot_magic) (snapshot_body off es) = snapshot_magic) = true.
Proof. apply bool_decide_true. by rewrite snapshot_body_eq, snapshot_content_eq. Qed.

Lemma len_snapshot_body_ge off es : (len (snapshot_body off es) <? 8 + 4 + 8 + 8 + 4) = false.
Proof.
  pose proof (len_snapshot_content off es). rewrite snapshot_body_eq, len_app, append_u32_le.
  change (len ([] ++ le_bytes 4 _)) with 4. lia.
Qed.

Lemma write_snapshot_ok os off es d d' :
  write_snapshot os off es d = (Ok tt, d') →
  d' = {| final_file := Some (snapshot_body off es); temp_file := None |}.
Proof.
  unfold write_snapshot, snapshot_write_all. exec_unfold.
  destruct (sys_ok os "create_directories(snapshot)"); [|done]. destruct (sys_ok os "open(snapshot tmp)"); [|done]. cbn [temp_file set_temp default from_option id].
  destruct (write_all _ _ _ _) as [[[]|e] f] eqn:E; [|done]. apply write_all_ok in E as ->.
  destruct (sys_ok os "fsync(snapshot tmp)"); [|done].
  destruct (sys_ok os "close(snapshot tmp)"); [|done].
  destruct (sys_ok os "rename snapshot"); [|done]. by intros [= <-].
Qed.

Lemma write_snapshot_cases os d off es r d' :
  write_snapshot os off es d = (r, d') →
  (r = Ok tt ∧ final_file d' = Some (snapshot_body off es)) ∨
  (is_ok r = false ∧ final_file d' = final_file d).
Proof.
  unfold write_snapshot, snapshot_write_all. exec_unfold.
  destruct (sys_ok os "create_directories(snapshot)"); [|intros [= <- <-]; by right].
  destruct (sys_ok os "open(snapshot tmp)"); [|intros [= <- <-]; by right].
  cbn [temp_file set_temp default from_option id].
  destruct (write_all _ _ _ _) as [[[]|e] f] eqn:E; [|intros [= <- <-]; by right].
  apply write_all_ok in E as ->.
  destruct (sys_ok os "fsync(snapshot tmp)"); [|intros [= <- <-]; by right].
  destruct (sys_ok os "close(snapshot tmp)"); [|intros [= <- <-]; by right].
  destruct (sys_ok os "rename snapshot"); intros [= <- <-]; [by left|by right].
Qed.

(** A file with one changed byte is still contents and a trailer that do not
    match. *)
Lemma damaged_snapshot off es i b :
  (i < length (snapshot_body off es))%nat → snapshot_body off es !! i ≠ Some b →
  ∃ content crc, <[i := b]> (snapshot_body off es) = content ++ append_u32 [] crc ∧
    is_u32 crc ∧ crc32 content ≠ crc.
Proof.
  rewrite snapshot_body_eq. set (c := snapshot_content off es). intros Hi Hb.
  pose proof (crc32_range c) as Hc. destruct (decide (i < length c)%nat) as [Hin|Hin].
  - rewrite lookup_app_l in Hb by done. rewrite insert_app_l by done.
    apply lookup_lt_is_Some in Hin as Hb0. destruct Hb0 as [b0 Hb0].
    exists (<[i := b]> c), (crc32 c). split_and!; [done|done|]. intros Heq.
    rewrite <- (take_drop_middle c _ _ Hb0) in Heq at 2.
    rewrite insert_take_drop in Heq by done. apply crc32_single_byte in Heq. congruence.
  - rewrite lookup_app_r in Hb by lia. rewrite insert_app_r_alt by lia.
    destruct (u32_of_bytes (<[(i - length c)%nat := b]> (append_u32 [] (crc32 c)))) as (crc & Hcrc & Hu).
    { by rewrite length_insert. }
    exists c, crc. rewrite Hcrc. split_and!; [done|done|]. intros Heq.
    rewrite Heq, <- Hcrc in Hb. apply Hb. apply list_lookup_insert_eq.
    rewrite length_app, append_u32_le in Hi. rewrite append_u32_le. len_simpl. lia.
Qed.
End Codecs.

(** ** Claims *)

(** C23. A snapshot is read back: the WAL offset, the number of entries and
    every entry in order, with the same key and value and with its deadline
    cut to whole milliseconds; no temporary file is left. *)
Theorem snapshot_roundtrip `{PlatformOk} os d off entries d' :
  is_u64 off → len entries < 2 ^ 64 → Forall valid_entry entries →
  write_snapshot os off entries d = (Ok tt, d') →
  read_snapshot calm d' = Some ({| wal_offset := off; entry_count := len entries |}, map ms_entry entries) ∧
  temp_file d' = None.
Proof.
  intros Ho Hl Hv E. apply write_snapshot_ok in E as ->. split; [|done].
  unfold read_snapshot. cbn [final_file calm sys_ok negb orb].
  rewrite snapshot_header_ok, len_snapshot_body_ge. cbn [negb orb].
  by rewrite read_snapshot_body by done.
Qed.

(** Writing a snapshot is atomic, wherever it stops: the snapshot file is
    the complete new one when the write returns, and untouched when it throws
    - on a failed open, write, sync, close or rename. *)
Theorem snapshot_write_atomic `{PlatformOk} os d off entries r d' :
  write_snapshot os off entries d = (r, d') →
  (r = Ok tt ∧ final_file d' = Some (snapshot_body off entries)) ∨
  (is_ok r = false ∧ final_file d' = final_file d).
Proof. apply write_snapshot_cases. Qed.

(** C31. A snapshot in which any single byte has changed - in the header, an
    entry or the checksum - is refused. *)
Theorem snapshot_corruption_refused `{PlatformOk} os off entries i b tmp :
  (i < length (snapshot_body off entries))%nat → snapshot_body off entries !! i ≠ Some b →
  read_snapshot os {| final_file := Some (<[i := b]> (snapshot_body off entries)); temp_file := tmp |} = None.
Proof.
  intros Hi Hb. unfold read_snapshot. cbn [final_file].
  cond_case; [done|]. cond_case; [done|].
  destruct (damaged_snapshot off entries i b Hi Hb) as (content & crc & -> & Hu & Hne).
  by rewrite read_content_split.
Qed.

(** ** The hypotheses at a concrete snapshot *)

Definition demo_entries : list PersistedEntry :=
  [ {| pkey := str "name"; pvalue := VString (str "ada"); pexpiry_wall := None |};
    {| pkey := str "tags"; pvalue := VSet {[str "x"; str "y"]}; pexpiry_wall := Some 1700000000123456 |};
    {| pkey := str "n"; pvalue := VInt (-7); pexpiry_wall := None |};
    {| pkey := str "l"; pvalue := VList [str "a"; str "a"]; pexpiry_wall := Some 1700000001000000 |} ].

Definition no_files : SnapshotFiles := {| final_file := None; temp_file := None |}.

Lemma snapshot_roundtrip_witness :
  read_snapshot calm (snd (@write_snapshot demo_platform calm 42 demo_entries no_files)) =
  Some ({| wal_offset := 42; entry_count := 4 |},
        [ {| pkey := str "name"; pvalue := VString (str "ada"); pexpiry_wall := None |};
          {| pkey := str "tags"; pvalue := VSet {[str "x"; str "y"]}; pexpiry_wall := Some 1700000000123000 |};
          {| pkey := str "n"; pvalue := VInt (-7); pexpiry_wall := None |};
          {| pkey := str "l"; pvalue := VList [str "a"; str "a"]; pexpiry_wall := Some 1700000001000000 |} ]).
Proof.
  etransitivity.
  - apply (proj1 (@snapshot_roundtrip demo_platform demo_platform_ok calm no_files 42 demo_entries
      (snd (@write_snapshot demo_platform calm 42 demo_entries no_files))
      ltac:(split; [done|reflexivity]) ltac:(reflexivity)
      ltac:(apply (bool_decide_unpack _); vm_compute; exact I) ltac:(vm_compute; reflexivity))).
  - vm_compute. reflexivity.
Defined.

(** The rename fails: the old file stays. *)
Lemma snapshot_write_atomic_witness :
  let os := {| sys_ok := λ op, negb (String.eqb op "rename snapshot"); os_writes := λ _, [wrote 7; wrote_all] |} in
  let old := {| final_file := Some (str "old"); temp_file := None |} in
  final_file (snd (@write_snapshot demo_platform os 42 demo_entries old)) = Some (str "old").
Proof.
  intros os old.
  destruct (@snapshot_write_atomic demo_platform demo_platform_ok os old 42 demo_entries
    (fst (@write_snapshot demo_platform os 42 demo_entries old))
    (snd (@write_snapshot demo_platform os 42 demo_entries old)) ltac:(by destruct (write_snapshot _ _ _ _)))
    as [[E _]|[_ E]]; [vm_compute in E; discriminate|exact E].
Defined.

Lemma snapshot_corruption_refused_witness :
  read_snapshot calm {| final_file := Some (<[30%nat := Byte.xff]> (@snapshot_body demo_platform 42 demo_entries));
                        temp_file := None |} = None.
Proof.
  apply (@snapshot_corruption_refused demo_platform demo_platform_ok).
  - vm_compute. lia.
  - vm_compute. discriminate.
Defined.
