(* ===== verification/Engine.v ===== *)
(** * The persistence engine

    [include/novacache/persistence/engine.hpp] and
    [src/persistence/engine.cpp].  The engine's mutex serialises its
    operations, so that each one is a computation on the whole [World]: the
    log, the snapshot files, the store it is given and its own fields.  A null
    [wal_] is a flag; the file of the log outlives the writer. *)

From S2P Require Import Prelude Binary Disk Wal Store Snapshot.

Inductive FsyncMode := always | everysec | none.

#[export] Instance FsyncMode_eq_decision : EqDecision FsyncMode.
Proof. solve_decision. Defined.

Record PersistenceConfig := {
  data_dir : bytes;
  fsync : FsyncMode;
  snapshot_interval_seconds : Z;
}.

Record World := {
  wal_null : bool;
  wal_ : WalWriter;
  snapshots : SnapshotFiles;
  store : Store;
  fsync_thread : bool;
  next_snapshot_at_ : Z;
}.

Definition set_wal (w : WalWriter) (s : World) : World :=
  {| wal_null := wal_null s; wal_ := w; snapshots := snapshots s; store := store s;
     fsync_thread := fsync_thread s; next_snapshot_at_ := next_snapshot_at_ s |}.
Definition set_snapshots (d : SnapshotFiles) (s : World) : World :=
  {| wal_null := wal_null s; wal_ := wal_ s; snapshots := d; store := store s;
     fsync_thread := fsync_thread s; next_snapshot_at_ := next_snapshot_at_ s |}.
Definition set_store (st : Store) (s : World) : World :=
  {| wal_null := wal_null s; wal_ := wal_ s; snapshots := snapshots s; store := st;
     fsync_thread := fsync_thread s; next_snapshot_at_ := next_snapshot_at_ s |}.
Definition set_thread (b : bool) (s : World) : World :=
  {| wal_null := wal_null s; wal_ := wal_ s; snapshots := snapshots s; store := store s;
     fsync_thread := b; next_snapshot_at_ := next_snapshot_at_ s |}.
Definition set_next (t : Z) (s : World) : World :=
  {| wal_null := wal_null s; wal_ := wal_ s; snapshots := snapshots s; store := store s;
     fsync_thread := fsync_thread s; next_snapshot_at_ := t |}.
(** [wal_.reset()]: the writer's destructor closes the file. *)
Definition reset_wal (s : World) : World :=
  {| wal_null := true; wal_ := set_fd false (wal_ s); snapshots := snapshots s; store := store s;
     fsync_thread := fsync_thread s; next_snapshot_at_ := next_snapshot_at_ s |}.

(** A call on [*wal_]. *)
Definition wal_call {A} (m : Exec WalWriter A) : Exec World A :=
  do! null := gets wal_null in
  if null then raise (undefined_behaviour "null WalWriter") else zoom wal_ set_wal m.

Definition with_store {A} (f : Store → A * Store) : Exec World A :=
  λ s, let '(a, st) := f (store s) in (Ok a, set_store st s).

Section Engine.
Context `{Platform} (config : PersistenceConfig).

(** When [durable_expire] computes a value that does not fit into 64 bits. *)
Definition durable_expire_overflows (clk : Clock) (st : Store) (key : bytes) (ttl : Z) : bool :=
  if ttl >? 0 then
    let w := wall (clk 0%nat) + seconds_to_wall ttl in
    negb (forallb (λ z, bool_decide (is_i64 z)) [seconds_to_wall ttl; w]) ||
    expire_at_overflows (later 1 clk) st key (from_unix_ms (to_unix_ms w))
  else expire_at_overflows (later 1 clk) st key (from_unix_ms (to_unix_ms (wall (clk 0%nat)))).

(** [PersistenceEngine::PersistenceEngine] on the files of the data directory:
    [steady] is the reading of the steady clock. *)
Definition new_engine (os : Os) (steady : Z) (wal_bytes : bytes) (d : SnapshotFiles) (st : Store) : result World :=
  match data_dir config with
  | [] => throw invalid_argument "persistence data_dir must not be empty"
  | _ :: _ =>
      if negb (sys_ok os "create_directories(data)") then throw filesystem_error "create_directories(data)"
      else Ok {| wal_null := false; wal_ := new_wal wal_bytes; snapshots := d; store := st;
            fsync_thread := false;
            next_snapshot_at_ :=
              if snapshot_interval_seconds config >? 0
              then steady + snapshot_interval_seconds config * 1000000000 else steady |}
  end.

(** ** Mutations *)

Definition durability_action (os : Os) : Exec World unit :=
  if bool_decide (fsync config = always) then wal_call (sync os) else ret tt.

Definition durable_set (os : Os) (clk : Clock) (key v : bytes) : Exec World unit :=
  do! _ := wal_call (append os op_set (encode_set_payload key v None)) in
  durability_action os ;;
  with_store (λ st, (tt, set clk st key (VString v) None)).

Definition durable_del (os : Os) (clk : Clock) (keys : list bytes) : Exec World Z :=
  do! _ := wal_call (append os op_del (encode_del_payload keys)) in
  durability_action os ;;
  with_store (λ st, del_many clk st keys).

Definition durable_expire (os : Os) (clk : Clock) (key : bytes) (ttl : Z) : Exec World bool :=
  let expiry_ms :=
    if ttl >? 0 then to_unix_ms (wall (clk 0%nat) + seconds_to_wall ttl)
    else to_unix_ms (wall (clk 0%nat)) in
  do! _ := wal_call (append os op_expire (encode_expire_payload key expiry_ms)) in
  durability_action os ;;
  with_store (λ st, expire_at (later 1 clk) st key (Some (from_unix_ms expiry_ms))).

(** ** Recovery *)

Definition apply_record (clk : Clock) (st : Store) (record : WalRecord) : result Store :=
  let view := payload record in
  if opcode record =? op_set then
    let! (key, view) := read_bytes view in
    let! (v, view) := read_bytes view in
    let! (flag, view) := read_u8 view in
    if negb (flag =? 0)
    then let! (ms, _) := read_i64 view in
         Ok (set clk st key (VString v) (Some (from_unix_ms ms)))
    else Ok (set clk st key (VString v) None)
  else if opcode record =? op_del then
    let! (count, view) := read_u32 view in
    let! (keys, _) := read_many read_bytes (Z.to_nat count) view in
    Ok (snd (del_many clk st keys))
  else if opcode record =? op_expire then
    let! (key, view) := read_bytes view in
    let! (ms, _) := read_i64 view in
    Ok (snd (expire_at clk st key (Some (from_unix_ms ms))))
  else throw runtime_error "unknown WAL opcode during recovery".

(** The two loops of [recover_into]; [clks i] is the clock of the [i]-th entry
    or record. *)
Fixpoint import_entries (clks : nat → Clock) (i : nat) (entries : list PersistedEntry) (st : Store) : Store :=
  match entries with
  | [] => st
  | entry :: entries' => import_entries clks (S i) entries' (import_snapshot_entry (clks i) st entry)
  end.

Fixpoint replay_records (clks : nat → Clock) (i : nat) (snapshot_offset : Z) (records : list WalRecord)
    : Exec World unit :=
  match records with
  | [] => ret tt
  | record :: records' =>
      if offset record <=? snapshot_offset then replay_records clks (S i) snapshot_offset records'
      else
        do! st := gets store in
        do! st' := lift (apply_record (clks i) st record) in
        modify (set_store st') ;;
        replay_records clks (S i) snapshot_offset records'
  end.

Definition start_fsync_thread : Exec World unit := modify (set_thread true).
Definition stop_fsync_thread : Exec World unit := modify (set_thread false).

Definition recover_into (os : Os) (import_clks replay_clks : nat → Clock) : Exec World unit :=
  modify (λ s, set_store (clear (store s)) s) ;;
  do! loaded := gets (λ s, read_snapshot os (snapshots s)) in
  let snapshot_offset := match loaded with Some (header, _) => wal_offset header | None => 0 end in
  let entries := match loaded with Some (_, entries) => entries | None => [] end in
  modify (λ s, set_store (import_entries import_clks 0 entries (store s)) s) ;;
  do! records := wal_call (open_and_recover os) in
  replay_records replay_clks 0 snapshot_offset records ;;
  if bool_decide (fsync config = everysec) then start_fsync_thread else ret tt.

(** ** Snapshots *)

Definition export_write_truncate (os : Os) (clk : Clock) : Exec World unit :=
  (if bool_decide (fsync config = none) then ret tt else wal_call (sync os)) ;;
  do! entries := with_store (export_snapshot_entries clk) in
  do! offset := wal_call wal_last_offset in
  zoom snapshots set_snapshots (write_snapshot os offset entries) ;;
  wal_call (truncate_after os offset).

(** [steady] is the reading of the steady clock after the snapshot. *)
Definition snapshot_now (os : Os) (clk : Clock) (steady : Z) : Exec World unit :=
  export_write_truncate os clk ;;
  if snapshot_interval_seconds config >? 0
  then modify (set_next (steady + snapshot_interval_seconds config * 1000000000))
  else ret tt.

Definition maybe_snapshot (os : Os) (clk : Clock) (steady_now steady_after : Z) : Exec World unit :=
  if snapshot_interval_seconds config <=? 0 then ret tt
  else
    do! next := gets next_snapshot_at_ in
    if steady_now <? next then ret tt else snapshot_now os clk steady_after.

Definition shutdown (os : Os) (clk : Clock) : Exec World unit :=
  stop_fsync_thread ;;
  do! null := gets wal_null in
  if null then ret tt else export_write_truncate os clk.

(** [catch (...) {}] around a call: it catches every exception, but neither
    undefined behaviour nor the end of the process. *)
Definition ignore_errors {S A} (m : Exec S A) : Exec S unit := λ s,
  match m s with
  | (Throw (undefined_behaviour what), s') => (Throw (undefined_behaviour what), s')
  | (Throw terminate, s') => (Throw terminate, s')
  | (_, s') => (Ok tt, s')
  end.

Definition abandon (os : Os) : Exec World unit :=
  stop_fsync_thread ;;
  do! null := gets wal_null in
  (if negb null && bool_decide (fsync config = always)
   then ignore_errors (wal_call (sync os)) else ret tt) ;;
  modify reset_wal.

(** One round of the background thread. *)
Definition fsync_round (os : Os) : Exec World unit :=
  do! running := gets fsync_thread in
  if running then ignore_errors (wal_call (sync os)) else ret tt.

Definition last_offset : Exec World Z :=
  do! null := gets wal_null in if null then ret 0 else wal_call wal_last_offset.

(** [PersistenceEngine::~PersistenceEngine]. *)
Definition destroy_engine : Exec World unit := stop_fsync_thread.
End Engine.

(** A store that no engine persists has no log; its world is the store alone. *)
Definition volatile_world (st : Store) : World :=
  {| wal_null := true; wal_ := new_wal []; snapshots := {| final_file := None; temp_file := None |};
     store := st; fsync_thread := false; next_snapshot_at_ := 0 |}.

(** ** The files of the data directory

    The model keeps the log, the snapshot and the temporary snapshot apart: their
    paths are different. *)

(** [path{dir} / name], for a name that is a plain file name. *)
Definition path_append (dir name : bytes) : bytes :=
  match last dir with
  | None => name
  | Some c => if bool_decide (c = "/"%byte) then dir ++ name else dir ++ str "/" ++ name
  end.

Definition wal_path (dir : bytes) : bytes := path_append dir (str "append.ncwal").
Definition snapshot_path (dir : bytes) : bytes := path_append dir (str "dump.ncs").

Lemma path_append_inj dir name name' : path_append dir name = path_append dir name' → name = name'.
Proof.
  unfold path_append. destruct (last dir); [case_bool_decide|done]; intros Heq.
  - by apply app_inv_head in Heq.
  - by do 2 apply app_inv_head in Heq.
Qed.

Lemma path_append_assoc dir name suffix : path_append dir name ++ suffix = path_append dir (name ++ suffix).
Proof. unfold path_append. destruct (last dir); [case_bool_decide|done]; by rewrite <- ?app_assoc. Qed.

Theorem data_files_distinct dir :
  wal_path dir ≠ snapshot_path dir ∧ wal_path dir ≠ snapshot_path dir ++ str ".tmp" ∧
  snapshot_path dir ≠ snapshot_path dir ++ str ".tmp".
Proof.
  unfold wal_path, snapshot_path. rewrite path_append_assoc. split_and!; intros Heq%path_append_inj; by vm_compute in Heq.
Qed.
