(* ===== verification/EngineSpec.v ===== *)
(** * What persistence promises

    The persistent state is a map from keys to a value and a wall-clock
    deadline.  A mutation acts on it at a wall-clock time; a recovery acts on it
    with all the mutations of the log at the time of the restart.  The lemmas
    here compare the two and relate the map to the store. *)

From S2P Require Import Prelude Binary Disk Wal WalCorrect Store StoreInv StoreSpec.
From S2P Require Import StoreCorrect StoreTheorems Snapshot SnapshotCorrect Engine.

Abbreviation PMap := (gmap bytes (Value * option Z)).

(** ** Mutations *)

(** The mutations of the log, with the deadline of an [EXPIRE] in milliseconds. *)
Inductive Mut :=
| MSet (k v : bytes)
| MDel (ks : list bytes)
| MExpire (k : bytes) (ms : Z).

#[export] Instance Mut_eq_decision : EqDecision Mut.
Proof. solve_decision. Defined.

Definition mut_opcode (m : Mut) : WalOpcode :=
  match m with MSet _ _ => op_set | MDel _ => op_del | MExpire _ _ => op_expire end.

Definition mut_payload (m : Mut) : bytes :=
  match m with
  | MSet k v => encode_set_payload k v None
  | MDel ks => encode_del_payload ks
  | MExpire k ms => encode_expire_payload k ms
  end.

(** The log has the mutation's record. *)
Definition records (r : WalRecord) (m : Mut) : Prop :=
  opcode r = mut_opcode m ∧ payload r = mut_payload m.

(** The sizes that the frames of the log can hold. *)
Definition valid_mut (m : Mut) : Prop :=
  len (mut_payload m) < 2 ^ 32 - 18 ∧
  match m with MExpire _ ms => is_i64 ms | _ => True end.

#[export] Instance valid_mut_dec m : Decision (valid_mut m).
Proof. unfold valid_mut. destruct m; apply _. Defined.

(** ** The map *)

Definition alive (now : Z) (c : Value * option Z) : bool :=
  match snd c with Some w => now <? w | None => true end.

(** The map when the wall clock reads [now]. *)
Definition age (now : Z) (m : PMap) : PMap := filter (λ p, alive now p.2 = true) m.

Definition p_put (now : Z) (m : PMap) (k : bytes) (c : Value * option Z) : PMap :=
  if alive now c then <[k := c]> m else delete k m.

Definition p_apply (now : Z) (m : PMap) (u : Mut) : PMap :=
  match u with
  | MSet k v => <[k := (VString v, None)]> m
  | MDel ks => filter (λ p, p.1 ∉ ks) m
  | MExpire k ms =>
      match m !! k with
      | None => m
      | Some (v, _) => p_put now m k (v, Some (from_unix_ms ms))
      end
  end.

(** The map after timed mutations, each one applied at its own time. *)
Fixpoint p_live (m : PMap) (us : list (Z * Mut)) : PMap :=
  match us with
  | [] => m
  | (now, u) :: us' => p_live (p_apply now (age now m) u) us'
  end.

(** The map after the same mutations, all applied at the time of the restart. *)
Definition p_replay (now : Z) (m : PMap) (us : list Mut) : PMap := fold_left (p_apply now) us m.

(** The recovered map has no entry that was not there. *)
Definition p_import (now : Z) (es : list PersistedEntry) (m : PMap) : PMap :=
  fold_left (λ m e, p_put now m (pkey e) (pvalue e, pexpiry_wall e)) es m.

(** *** Replay against the live execution *)

Lemma age_lookup now m k : age now m !! k = c ← m !! k; if alive now c then Some c else None.
Proof.
  unfold age. rewrite map_lookup_filter. destruct (m !! k) as [c|]; [|done]. simpl.
  destruct (alive now c); [by rewrite option_guard_True|by rewrite option_guard_False].
Qed.

Lemma age_some now m k c : age now m !! k = Some c ↔ m !! k = Some c ∧ alive now c = true.
Proof.
  unfold age. by rewrite map_lookup_filter_Some.
Qed.

Lemma alive_mono now now' c : now <= now' → alive now' c = true → alive now c = true.
Proof. unfold alive. destruct (snd c); [lia|done]. Qed.

Lemma age_age now now' m : now <= now' → age now' (age now m) = age now' m.
Proof.
  intros Hle. apply map_eq. intros k. apply option_eq. intros c. rewrite !age_some.
  naive_solver eauto using alive_mono.
Qed.

(** One mutation keeps the replayed map inside the live one. *)
Lemma apply_sub now now' mr ml u :
  now <= now' → mr ⊆ age now' ml →
  p_apply now' mr u ⊆ age now' (p_apply now (age now ml) u).
Proof.
  intros Hle Hsub. apply map_subseteq_spec. intros k c. rewrite age_some.
  assert (∀ k c, mr !! k = Some c → ml !! k = Some c ∧ alive now' c = true) as Hin.
  { intros k' c' Hc. by apply age_some, (lookup_weaken _ _ _ _ Hc Hsub). }
  assert (∀ k c, mr !! k = Some c → age now ml !! k = Some c) as Hin'.
  { intros k' c' Hc. apply Hin in Hc as [? ?]. apply age_some. eauto using alive_mono. }
  destruct u as [k0 v|ks|k0 ms]; cbn [p_apply].
  - rewrite !lookup_insert. case_decide; [by intros [= <-]|]. intros Hc.
    split; [by apply Hin'|by apply (Hin k)].
  - rewrite !map_lookup_filter_Some. intros [Hc ?]. split; [split; [by apply Hin'|done]|by apply (Hin k)].
  - destruct (mr !! k0) as [[v0 w0]|] eqn:E0.
    + rewrite (Hin' _ _ E0). unfold p_put. destruct (alive now' (v0, Some (from_unix_ms ms))) eqn:Ea.
      * rewrite (alive_mono _ _ _ Hle Ea), !lookup_insert. case_decide; [by intros [= <-]|].
        intros Hc. split; [by apply Hin'|by apply (Hin k)].
      * rewrite lookup_delete_Some. intros [Hk Hc].
        split; [|by apply (Hin k)]. destruct (alive now _); [rewrite lookup_insert_ne|rewrite lookup_delete_ne];
          first [done|by apply Hin'].
    + intros Hc. assert (k ≠ k0) as Hk by (intros ->; congruence). split; [|by apply (Hin k)].
      destruct (age now ml !! k0) as [[v0 w0]|]; [|by apply Hin']. unfold p_put.
      destruct (alive now _); [rewrite lookup_insert_ne|rewrite lookup_delete_ne]; first [done|by apply Hin'].
Qed.

Lemma replay_sub now' us : ∀ mr ml,
  Forall (λ u, u.1 <= now') us → mr ⊆ age now' ml →
  p_replay now' mr us.*2 ⊆ age now' (p_live ml us).
Proof.
  induction us as [|[now u] us IH]; intros mr ml Hle Hsub; [done|].
  apply Forall_cons in Hle as [Hnow Hle]. cbn [p_live fmap list_fmap p_replay fold_left snd].
  apply IH; [done|]. by apply apply_sub.
Qed.

(** *** When nothing is lost *)

(** [D] holds the keys whose current deadline is due at [now]; no [EXPIRE]
    follows such a deadline before a [SET] or a [DEL] of the key. *)
Fixpoint settled (now : Z) (D : gset bytes) (us : list Mut) : Prop :=
  match us with
  | [] => True
  | MSet k _ :: us' => settled now (D ∖ {[k]}) us'
  | MDel ks :: us' => settled now (D ∖ list_to_set ks) us'
  | MExpire k ms :: us' =>
      (k ∉ D) ∧ settled now (if from_unix_ms ms <=? now then D ∪ {[k]} else D) us'
  end.

Definition due_keys (now : Z) (m : PMap) : gset bytes :=
  dom (filter (λ p, alive now p.2 = false) m).

(** The dead keys of the live map are among [D]. *)
Definition dead_in (now : Z) (m : PMap) (D : gset bytes) : Prop :=
  ∀ k c, m !! k = Some c → alive now c = false → k ∈ D.

Lemma dead_in_due now m : dead_in now m (due_keys now m).
Proof.
  intros k c Hc Ha. apply elem_of_dom. exists c. by apply map_lookup_filter_Some.
Qed.

Lemma dead_in_age now now' m D : dead_in now' m D → dead_in now' (age now m) D.
Proof. intros Hd k c [Hc _]%age_some. by apply Hd. Qed.

Lemma age_insert now m k c : alive now c = true → age now (<[k := c]> m) = <[k := c]> (age now m).
Proof. intros Ha. unfold age. rewrite map_filter_insert. by rewrite decide_True. Qed.

Lemma age_delete now m k : age now (delete k m) = delete k (age now m).
Proof. unfold age. apply map_filter_delete. Qed.

Lemma age_insert_dead now m k c : alive now c = false → age now (<[k := c]> m) = delete k (age now m).
Proof.
  intros Ha. unfold age. rewrite map_filter_insert, decide_False by (simpl; congruence).
  by rewrite map_filter_delete.
Qed.

Lemma age_filter_keys now m (ks : list bytes) :
  age now (filter (λ p, p.1 ∉ ks) m) = filter (λ p, p.1 ∉ ks) (age now m).
Proof.
  apply map_eq. intros k. apply option_eq. intros c.
  rewrite age_some, !map_lookup_filter_Some, age_some. naive_solver.
Qed.

Definition settle (now : Z) (D : gset bytes) (u : Mut) : gset bytes :=
  match u with
  | MSet k _ => D ∖ {[k]}
  | MDel ks => D ∖ list_to_set ks
  | MExpire k ms => if from_unix_ms ms <=? now then D ∪ {[k]} else D
  end.

Lemma apply_eq now now' ml u D :
  now <= now' → dead_in now' ml D → (match u with MExpire k _ => k ∉ D | _ => True end) →
  p_apply now' (age now' ml) u = age now' (p_apply now (age now ml) u) ∧
  dead_in now' (p_apply now (age now ml) u) (settle now' D u).
Proof.
  intros Hle HD Hu. pose proof (dead_in_age now now' ml D HD) as HD'.
  destruct u as [k v|ks|k ms]; cbn [p_apply settle].
  - split; [by rewrite age_insert, age_age|]. intros k' c Hc Ha.
    apply lookup_insert_Some in Hc as [[_ <-]|[Hk Hc]]; [done|]. specialize (HD' k' c Hc Ha). set_solver.
  - split; [by rewrite age_filter_keys, age_age|]. intros k' c [Hc Hk]%map_lookup_filter_Some Ha.
    specialize (HD' k' c Hc Ha). set_solver.
  - destruct (ml !! k) as [[v w]|] eqn:E.
    + assert (alive now' (v, w) = true) as Ha.
      { destruct (alive now' (v, w)) eqn:Ea; [done|]. by destruct Hu; eapply HD. }
      rewrite (proj2 (age_some now' ml k (v, w))) by done.
      rewrite (proj2 (age_some now ml k (v, w))) by eauto using alive_mono.
      unfold p_put. destruct (alive now' (v, Some (from_unix_ms ms))) eqn:Ea'.
      * rewrite (alive_mono _ _ _ Hle Ea'). split; [by rewrite age_insert, age_age|].
        unfold alive in Ea'. cbn [snd] in Ea'. replace (from_unix_ms ms <=? now') with false by lia.
        intros k' c Hc Hd. apply lookup_insert_Some in Hc as [[_ <-]|[Hk Hc]]; [|by eapply HD'].
        unfold alive in Hd. cbn [snd] in Hd. lia.
      * unfold alive in Ea'. cbn [snd] in Ea'. replace (from_unix_ms ms <=? now') with true by lia.
        destruct (alive now (v, Some (from_unix_ms ms))).
        -- split; [rewrite age_insert_dead, age_age by (first [done|unfold alive; cbn; lia]); done|].
           intros k' c Hc Hd. apply lookup_insert_Some in Hc as [[<- _]|[_ Hc]]; [set_solver|].
           specialize (HD' k' c Hc Hd). set_solver.
        -- split; [by rewrite age_delete, age_age|]. intros k' c [_ Hc]%lookup_delete_Some Hd.
           specialize (HD' k' c Hc Hd). set_solver.
    + assert (∀ t, age t ml !! k = None) as Hn by (intros t; by rewrite age_lookup, E).
      rewrite !Hn. split; [by rewrite age_age|]. intros k' c Hc Hd.
      specialize (HD' k' c Hc Hd). destruct (_ <=? _); set_solver.
Qed.

Lemma settled_cons now D u us :
  settled now D (u :: us) ↔ (match u with MExpire k _ => k ∉ D | _ => True end) ∧ settled now (settle now D u) us.
Proof. destruct u; cbn [settled settle]; naive_solver. Qed.

Lemma replay_eq now' us : ∀ ml D,
  Forall (λ u, u.1 <= now') us → dead_in now' ml D → settled now' D us.*2 →
  p_replay now' (age now' ml) us.*2 = age now' (p_live ml us).
Proof.
  induction us as [|[now u] us IH]; intros ml D Hle HD Hs; [done|].
  apply Forall_cons in Hle as [Hnow Hle]. cbn [p_live fmap list_fmap p_replay fold_left snd] in *.
  apply settled_cons in Hs as [Hu Hs]. destruct (apply_eq now now' ml u D Hnow HD Hu) as [Heq HD'].
  rewrite Heq. by apply (IH _ (settle now' D u)).
Qed.

(** ** The map and the store *)

(** The two clocks of a process advance together: [z] is their difference. *)
Definition tick_ok (z : Z) (t : Tick) : Prop := mono t = wall_to_mono (wall t) + z.

Definition pcell (c : Cell) : Value * option Z := (cell_value c, cell_wall c).

(** The monotonic deadlines are the wall-clock ones on the other clock. *)
Definition coherent (z : Z) (m : gmap bytes Cell) : Prop :=
  ∀ k c, m !! k = Some c → cell_deadline c = (λ w, wall_to_mono w + z) <$> cell_wall c.

(** At the instant [t], the store holds the map [m]. *)
Definition stands `{Platform} (z : Z) (t : Tick) (s : Store) (m : PMap) : Prop :=
  wf s ∧ coherent z (view (mono t) s) ∧ pcell <$> view (mono t) s = m.

Lemma coherent_insert z m k c :
  coherent z m → cell_deadline c = (λ w, wall_to_mono w + z) <$> cell_wall c → coherent z (<[k := c]> m).
Proof. intros Hm Hc k' c' [[_ <-]|[_ H]]%lookup_insert_Some; eauto. Qed.

Lemma coherent_delete z m k : coherent z m → coherent z (delete k m).
Proof. intros Hm k' c' [_ H]%lookup_delete_Some. eauto. Qed.

Lemma coherent_filter z m (P : bytes * Cell → Prop) `{!∀ x, Decision (P x)} :
  coherent z m → coherent z (filter P m).
Proof. intros Hm k' c' [Hk _]%map_lookup_filter_Some. eauto. Qed.

(** The deadline that [set] and [expire_at] compute. *)
Lemma deadline_coherent z t w :
  tick_ok z t → mono t + wall_to_mono (w - wall t) = wall_to_mono w + z.
Proof. unfold tick_ok, wall_to_mono. lia. Qed.

Section Bridge.
Context `{PO : PlatformOk} (z : Z).

Lemma stands_later t t' s m :
  tick_ok z t → tick_ok z t' → mono t <= mono t' → stands z t s m → stands z t' s (age (wall t') m).
Proof.
  intros Ht Ht' Hle (Hwf & Hc & <-). unfold stands. rewrite (view_later (mono t) (mono t') s Hle).
  split; [done|]. split; [by apply coherent_filter|]. unfold expire_view, age.
  apply map_eq. intros k. rewrite lookup_fmap, !map_lookup_filter, lookup_fmap.
  destruct (view (mono t) s !! k) as [c|] eqn:E; [|done]. cbn [fmap option_fmap option_map mbind option_bind].
  assert (alive (wall t') (pcell c) = negb (cell_due (mono t') c)) as Ha.
  { unfold alive, pcell, cell_due. cbn [snd]. rewrite (Hc k c E).
    destruct (cell_wall c) as [w|]; [|done]. cbn. unfold tick_ok, wall_to_mono in *. lia. }
  cbn [snd]. rewrite Ha. destruct (cell_due (mono t') c); cbn [negb].
  - by rewrite !option_guard_False.
  - by rewrite !option_guard_True.
Qed.

Lemma stands_clear t s : wf s → stands z t (clear s) ∅.
Proof.
  intros Hwf. destruct (clear_refines (mono t) s Hwf) as [Hc Hv].
  split; [done|]. rewrite Hv. split; [by intros k c ?|]. apply fmap_empty.
Qed.

Lemma stands_put t s m k v w :
  tick_ok z t → stands z t s m → stands z t (set (frozen t) s k v w) (p_put (wall t) m k (v, w)).
Proof.
  intros Ht (Hwf & Hc & <-). destruct (set_refines (frozen t) s k v w Hwf) as [Hwf' Hv].
  cbn [frozen] in Hv. split; [done|]. change (frozen t 0%nat) with t in Hv. rewrite Hv.
  unfold spec_set, p_put, alive. cbn [snd]. change (frozen t 1%nat) with t.
  destruct w as [w|]; [|split; [by apply coherent_insert|by rewrite fmap_insert]].
  rewrite Z.leb_antisym. destruct (wall t <? w); cbn [negb].
  - split; [|by rewrite fmap_insert]. apply coherent_insert; [done|]. cbn. f_equal.
    change (frozen t 0%nat) with t. by apply deadline_coherent.
  - split; [by apply coherent_delete|]. by rewrite fmap_delete.
Qed.

Lemma stands_del t s m ks :
  stands z t s m → stands z t (snd (del_many (frozen t) s ks)) (filter (λ p, p.1 ∉ ks) m).
Proof.
  intros (Hwf & Hc & <-). destruct (del_many_refines (frozen t) s ks Hwf) as (s' & -> & Hwf' & Hv).
  change (frozen t 0%nat) with t in Hv. cbn [snd]. split; [done|]. rewrite Hv. unfold spec_delete_all.
  split; [by apply coherent_filter|]. by rewrite map_filter_fmap.
Qed.

Lemma stands_expire t s m k ms :
  tick_ok z t → stands z t s m →
  stands z t (snd (expire_at (frozen t) s k (Some (from_unix_ms ms)))) (p_apply (wall t) m (MExpire k ms)).
Proof.
  intros Ht (Hwf & Hc & <-).
  destruct (expire_at_refines (frozen t) s k (Some (from_unix_ms ms)) Hwf) as (s' & -> & Hwf' & Hv).
  change (frozen t 0%nat) with t in Hv. cbn [snd]. split; [done|]. rewrite Hv. clear Hv Hwf' s'.
  unfold spec_expire_at. cbn [p_apply]. rewrite lookup_fmap.
  destruct (view (mono t) s !! k) as [c|] eqn:E; cbn [fmap option_fmap option_map snd]; [|done].
  unfold pcell at 2, p_put, alive. cbn [snd]. change (frozen t 1%nat) with t.
  rewrite Z.leb_antisym. destruct (wall t <? from_unix_ms ms) eqn:Ew; cbn [negb snd].
  - unfold spec_put, cell_due, timed_cell. cbn [cell_deadline].
    replace (_ <=? _) with false by (unfold frozen, wall_to_mono; lia).
    split; [|by rewrite fmap_insert]. apply coherent_insert; [done|]. cbn. f_equal.
    by apply (deadline_coherent z t).
  - split; [by apply coherent_delete|]. by rewrite fmap_delete.
Qed.

Lemma stands_import t es : ∀ i s m,
  tick_ok z t → stands z t s m →
  stands z t (import_entries (λ _, frozen t) i es s) (p_import (wall t) es m).
Proof.
  induction es as [|e es IH]; intros i s m Ht Hs; [done|]. cbn [import_entries p_import fold_left].
  apply IH; [done|]. by apply stands_put.
Qed.

(** ** Replay of a record *)

Lemma len_payload_set k v :
  len (encode_set_payload k v None) = 9 + len k + len v.
Proof.
  unfold encode_set_payload, append_bytes, append_u8. rewrite !append_u32_le. len_solve.
Qed.

Lemma len_payload_expire k ms : len (encode_expire_payload k ms) = 12 + len k.
Proof.
  unfold encode_expire_payload, append_i64, append_bytes. rewrite append_u32_le, append_u64_le. len_solve.
Qed.

Lemma len_payload_del (ks : list bytes) :
  len (encode_del_payload ks) = 4 + foldr (λ k n, 4 + len k + n) 0 ks.
Proof.
  unfold encode_del_payload. rewrite (put_many append_bytes _ _), append_u32_le, len_app.
  change (len ([] ++ le_bytes 4 _)) with 4. f_equal.
  induction ks as [|k ks IH]; [done|]. cbn [fold_left foldr]. rewrite (put_many append_bytes _ _), len_app, IH.
  unfold append_bytes. rewrite append_u32_le. len_solve.
Qed.

Lemma del_payload_bounds (ks : list bytes) :
  let n := foldr (λ k n, 4 + len k + n) 0 ks in len ks <= n ∧ Forall (λ k, len k <= n) ks.
Proof.
  induction ks as [|k ks [IH1 IH2]]; [done|]. cbn [foldr]. pose proof (len_nonneg k). pose proof (len_nonneg ks).
  rewrite len_cons. split; [lia|]. constructor; [lia|]. eapply Forall_impl; [exact IH2|]. cbn. lia.
Qed.

(** What the mutation's record does when it is replayed. *)
Lemma stands_apply_record t s m r u :
  tick_ok z t → valid_mut u → records r u → stands z t s m →
  ∃ s', apply_record (frozen t) s r = Ok s' ∧ stands z t s' (p_apply (wall t) m u).
Proof.
  intros Ht [Hl Hu] [Ho Hp] Hs. unfold apply_record. rewrite Ho, Hp.
  destruct u as [k v|ks|k ms]; cbn [mut_opcode mut_payload] in *.
  - cbn [Z.eqb op_set Pos.eqb]. rewrite len_payload_set in Hl.
    pose proof (len_nonneg k). pose proof (len_nonneg v). unfold encode_set_payload.
    rewrite bool_decide_false by (by intros []).
    rewrite (put_appends (put := append_u8)), (put_appends (put := append_bytes) (append_bytes _ _)), <- app_assoc.
    rewrite get_put by lia. cbn [bind]. rewrite get_put by lia. cbn [bind].
    rewrite <- (app_nil_r (append_u8 [] 0)), get_put by lia. cbn [bind Z.eqb negb].
    eexists. split; [done|]. by apply (stands_put t s m k (VString v) None).
  - cbn [Z.eqb op_set op_del Pos.eqb]. rewrite len_payload_del in Hl.
    destruct (del_payload_bounds ks) as [Hn Hk]. pose proof (len_nonneg ks).
    pose proof (get_put (put := put_counted) (get := get_counted) ks []) as E.
    rewrite app_nil_r in E. change (put_counted [] ks) with (encode_del_payload ks) in E.
    unfold get_counted in E. rewrite bind_ok in E.
    destruct E as ([n rest] & -> & E); [split; [lia|]|].
    { eapply Forall_impl; [exact Hk|]. cbn. lia. }
    cbn [bind]. rewrite E. cbn [bind]. eexists. split; [done|]. by apply stands_del.
  - cbn [Z.eqb op_set op_del op_expire Pos.eqb]. rewrite len_payload_expire in Hl.
    pose proof (len_nonneg k). unfold encode_expire_payload.
    rewrite (put_appends (put := append_i64)), get_put by lia. cbn [bind].
    rewrite <- (app_nil_r (append_i64 [] ms)), get_put by done. cbn [bind].
    eexists. split; [done|]. by apply stands_expire.
Qed.
End Bridge.
