(* ===== verification/EngineCorrect.v ===== *)
(** * Lemmas on recovery and on the life of an engine

    Recovery computes the abstract replay; a snapshot holds the abstract map;
    the invariant of a running engine. *)

From S2P Require Import Prelude Binary Disk Wal WalCorrect WalProps Store StoreInv StoreSpec.
From S2P Require Import StoreCorrect StoreTheorems Snapshot SnapshotCorrect Engine EngineSpec.

(** ** Importing a snapshot *)

Definition entry_pair (e : PersistedEntry) : bytes * (Value * option Z) :=
  (pkey e, (pvalue e, pexpiry_wall e)).

Lemma p_put_lookup now m k c k' :
  p_put now m k c !! k' = if decide (k' = k) then (if alive now c then Some c else None) else m !! k'.
Proof.
  unfold p_put. destruct (alive now c); rewrite ?lookup_insert, ?lookup_delete;
    repeat case_decide; subst; done.
Qed.

Lemma import_lookup now es : ∀ m k,
  NoDup (pkey <$> es) →
  p_import now es m !! k =
  match (list_to_map (entry_pair <$> es) : PMap) !! k with
  | Some c => if alive now c then Some c else None
  | None => m !! k
  end.
Proof.
  induction es as [|e es IH]; intros m k Hnd; [done|]. apply NoDup_cons in Hnd as [Hin Hnd].
  cbn [p_import fold_left]. change (fold_left _ es ?m0) with (p_import now es m0). rewrite IH by done.
  cbn [fmap list_fmap list_to_map foldr entry_pair uncurry fst snd].
  change (list_to_map (entry_pair e :: _)) with
    (<[pkey e := (pvalue e, pexpiry_wall e)]> (list_to_map (entry_pair <$> es) : PMap)).
  rewrite lookup_insert, p_put_lookup. repeat case_decide; subst; try done.
  rewrite (not_elem_of_list_to_map_1 (M := gmap bytes)); [done|].
  rewrite <- list_fmap_compose. done.
Qed.

Lemma import_age now es :
  NoDup (pkey <$> es) → p_import now es ∅ = age now (list_to_map (entry_pair <$> es)).
Proof.
  intros Hnd. apply map_eq. intros k. rewrite import_lookup, age_lookup by done.
  by destruct (list_to_map _ !! k).
Qed.

Lemma export_map m es :
  es ≡ₚ spec_export m →
  NoDup (pkey <$> es) ∧ (list_to_map (entry_pair <$> es) : PMap) = pcell <$> m.
Proof.
  intros Hp. assert (entry_pair <$> es ≡ₚ map_to_list (pcell <$> m)) as Hpairs.
  { rewrite Hp, map_to_list_fmap. unfold spec_export. rewrite <- list_fmap_compose.
    apply reflexive_eq, list_fmap_ext. by intros i [k c] _. }
  assert ((pkey <$> es) = (entry_pair <$> es).*1) as Hk by (by rewrite <- list_fmap_compose).
  split; [rewrite Hk, Hpairs; apply NoDup_fst_map_to_list|].
  rewrite <- (list_to_map_to_list (pcell <$> m)). apply list_to_map_proper; [|done].
  rewrite Hpairs. apply NoDup_fst_map_to_list.
Qed.

(** ** Recovery *)

(** The snapshot file holds the map [base] and stands for the records up to
    the offset [N]. *)
Definition snapshot_of `{Platform} (d : SnapshotFiles) (N : Z) (base : PMap) : Prop :=
  (final_file d = None ∧ N = 0 ∧ base = ∅) ∨
  ∃ es, final_file d = Some (snapshot_body N es) ∧ is_u64 N ∧ len es < 2 ^ 64 ∧
        Forall valid_entry es ∧ map ms_entry es = es ∧
        NoDup (pkey <$> es) ∧ base = list_to_map (entry_pair <$> es).

(** Only the snapshot file matters, not the temporary one. *)
Lemma snapshot_of_final `{Platform} d N base :
  snapshot_of d N base ↔ snapshot_of {| final_file := final_file d; temp_file := None |} N base.
Proof. done. Qed.

Section Recovery.
Context `{PO : PlatformOk} (config : PersistenceConfig) (z : Z).

Lemma read_snapshot_of d N base :
  snapshot_of d N base →
  ∃ es, (read_snapshot calm d = None ∧ es = [] ∧ N = 0 ∨
         ∃ h, read_snapshot calm d = Some (h, es) ∧ wal_offset h = N) ∧
        ∀ now, p_import now es ∅ = age now base.
Proof.
  intros [(Hd & -> & ->)|(es & Hd & HN & Hl & Hv & Hms & Hnd & ->)].
  - exists []. split; [left; unfold read_snapshot; by rewrite Hd|]. intros now.
    unfold age. by rewrite map_filter_empty.
  - exists es. split; [right|intros now; by apply import_age].
    exists {| wal_offset := N; entry_count := len es |}. split; [|done].
    unfold read_snapshot. rewrite Hd. cbn [calm sys_ok negb orb].
    rewrite snapshot_header_ok, len_snapshot_body_ge. cbn [negb orb].
    by rewrite read_snapshot_body, Hms by done.
Qed.

Lemma replay_stands t recs : ∀ i N us w m,
  tick_ok z t → Forall2 records (filter (λ r, N < offset r) recs) us → Forall valid_mut us →
  stands z t (store w) m →
  ∃ st', replay_records (λ _, frozen t) i N recs w = (Ok tt, set_store st' w) ∧
         stands z t st' (p_replay (wall t) m us).
Proof.
  induction recs as [|r recs IH]; intros i N us w m Ht Hus Hv Hs; cbn [replay_records].
  - inversion Hus; subst. exists (store w). split; [by destruct w|done].
  - destruct (offset r <=? N) eqn:Eo.
    + rewrite filter_cons_False in Hus by lia. by apply IH.
    + rewrite filter_cons_True in Hus by lia. inversion Hus as [|? u ? us' Hr Hus']; subst.
      apply Forall_cons in Hv as [Hu Hv].
      destruct (stands_apply_record z t (store w) m r u Ht Hu Hr Hs) as (st1 & E & Hs1).
      exec_unfold. rewrite E.
      destruct (IH (S i) N us' (set_store st1 w) (p_apply (wall t) m u) Ht Hus' Hv Hs1) as (st' & E' & Hs').
      exists st'. split; [|done]. cbn [set_store]. rewrite E'. done.
Qed.

(** Recovery gives the abstract replay of the records beyond the snapshot. *)
Lemma recover_stands t w N base recs wal' us :
  tick_ok z t → wf (store w) → wal_null w = false → snapshot_of (snapshots w) N base →
  open_and_recover calm (wal_ w) = (Ok recs, wal') →
  Forall2 records (filter (λ r, N < offset r) recs) us → Forall valid_mut us →
  ∃ w', recover_into config calm (λ _, frozen t) (λ _, frozen t) w = (Ok tt, w') ∧
        stands z t (store w') (p_replay (wall t) (age (wall t) base) us) ∧
        wal_ w' = wal' ∧ snapshots w' = snapshots w ∧ wal_null w' = false.
Proof.
  intros Ht Hwf Hnull Hsnap Hopen Hus Hv.
  destruct (read_snapshot_of _ _ _ Hsnap) as (es & Hread & Himp).
  set (st1 := import_entries (λ _, frozen t) 0 es (clear (store w))).
  assert (stands z t st1 (age (wall t) base)) as Hs1.
  { rewrite <- Himp. apply stands_import; [done|]. by apply stands_clear. }
  set (w1 := set_wal wal' (set_store st1 w)).
  destruct (replay_stands t recs 0 N us w1 _ Ht Hus Hv Hs1) as (st2 & E2 & Hs2).
  assert (recover_into config calm (λ _, frozen t) (λ _, frozen t) w =
    (if bool_decide (fsync config = everysec) then start_fsync_thread else ret tt) (set_store st2 w1)) as ->.
  { unfold recover_into, wal_call. exec_unfold. cbn [snapshots set_store store wal_null].
    destruct Hread as [(-> & -> & ->)|(h & -> & <-)]; rewrite Hnull; cbn [wal_ set_store]; rewrite Hopen;
      unfold w1, st1 in E2; cbn [import_entries] in E2; unfold set_store in *; cbn in E2 |- *; rewrite E2;
      by destruct (bool_decide _). }
  destruct (bool_decide _); eexists; (split; [done|]); split_and!; try done.
Qed.
End Recovery.

(** ** The life of an engine *)

(** Entries that a snapshot keeps exactly. *)
Definition storable (m : PMap) : Prop :=
  ∀ k v w, m !! k = Some (v, w) →
    let e := {| pkey := k; pvalue := v; pexpiry_wall := w |} in valid_entry e ∧ ms_entry e = e.

Lemma storable_age now m : storable m → storable (age now m).
Proof. intros Hm k v w [Hk _]%age_some. by apply Hm. Qed.

Lemma storable_apply now m u : valid_mut u → storable m → storable (p_apply now m u).
Proof.
  intros [Hl Hu] Hm. destruct u as [k v|ks|k ms]; cbn [p_apply mut_payload] in *.
  - intros k' v' w' [[<- [= <- <-]]|[_ Hk]]%lookup_insert_Some; [|by apply Hm].
    rewrite len_payload_set in Hl. pose proof (len_nonneg k). pose proof (len_nonneg v).
    split; [|done]. split_and!; cbn; [lia|lia|done].
  - intros k' v' w' [Hk _]%map_lookup_filter_Some. by apply Hm.
  - destruct (m !! k) as [[v w]|] eqn:E; [|done]. intros k' v' w'. rewrite p_put_lookup.
    case_decide as Hk; [|by apply Hm]. destruct (alive now _); [|done]. intros [= <- <-]. subst k'.
    destruct (Hm k v w E) as [(H1 & H2 & _) _]. cbn in H1, H2. split.
    + split_and!; [done|done|]. cbn. by rewrite to_from_ms.
    + unfold ms_entry. cbn. by rewrite to_from_ms.
Qed.

Section Life.
Context `{PO : PlatformOk} (config : PersistenceConfig) (z : Z).

(** The three commands have one shape. *)
Definition durable {A} (os : Os) (c : WalOpcode) (p : bytes) (f : Store → A * Store) : Exec World A :=
  do! _ := wal_call (append os c p) in
  durability_action config os ;;
  with_store f.

Lemma durable_ok {A} os c p (f : Store → A * Store) w a w' :
  wal_null w = false → durable os c p f w = (Ok a, w') →
  ∃ o wal1 wal2, append os c p (wal_ w) = (Ok o, wal1) ∧
    (if decide (fsync config = always) then sync os wal1 = (Ok tt, wal2) else wal2 = wal1) ∧
    a = fst (f (store w)) ∧ w' = set_store (snd (f (store w))) (set_wal wal2 w).
Proof.
  intros Hnull. unfold durable, durability_action, wal_call, with_store. exec_unfold. rewrite Hnull.
  destruct (append os c p (wal_ w)) as [[o|e] wal1] eqn:Ea; [|done]. cbn [set_wal wal_null wal_ store].
  case_bool_decide as Hf; cbn [set_wal wal_null wal_ store].
  - rewrite Hnull. cbn [set_wal wal_]. destruct (sync os wal1) as [[[]|e] wal2] eqn:Es; [|done].
    cbn [set_wal wal_null wal_ store]. destruct (f (store w)) as [b st] eqn:Ef. intros [= <- <-].
    exists o, wal1, wal2. by rewrite decide_True.
  - destruct (f (store w)) as [b st] eqn:Ef. intros [= <- <-].
    exists o, wal1, wal1. by rewrite decide_False.
Qed.

(** Operations that only read. *)
Definition is_read (op : Op) : bool :=
  match op with
  | OpGet _ | OpExists _ | OpExistsMany _ | OpTtl _ | OpExpiryWallTime _ | OpKeys _ => true
  | _ => false
  end.

(** [lifetime w base us t]: an engine that started on an empty data directory
    is in the state [w] at the instant [t]; its last snapshot holds the map
    [base], and the mutations [us] were acknowledged since.  Every step may
    have any outcome of its system calls with which it returns; a life in which
    an operation has thrown, and one that goes on after a restart, is none of
    these, and the theorems on a [lifetime] say nothing of them. *)
Inductive lifetime : World → PMap → list (Z * Mut) → Tick → Prop :=
| life_start os n steady st w0 clks clks' w t :
    0 <= n → new_store n = Ok st → new_engine config os steady [] no_files st = Ok w0 →
    recover_into config os clks clks' w0 = (Ok tt, w) → tick_ok z t → lifetime w ∅ [] t
| life_set os w base us t t' k v w' :
    lifetime w base us t → tick_ok z t' → mono t <= mono t' → valid_mut (MSet k v) →
    last_offset_ (wal_ w) + 1 < 2 ^ 64 →
    durable_set config os (frozen t') k v w = (Ok tt, w') →
    lifetime w' base (us ++ [(wall t', MSet k v)]) t'
| life_del os w base us t t' ks n w' :
    lifetime w base us t → tick_ok z t' → mono t <= mono t' → valid_mut (MDel ks) →
    last_offset_ (wal_ w) + 1 < 2 ^ 64 →
    durable_del config os (frozen t') ks w = (Ok n, w') →
    lifetime w' base (us ++ [(wall t', MDel ks)]) t'
| life_expire os w base us t t' k ttl b w' :
    let ms := to_unix_ms (if ttl >? 0 then wall t' + seconds_to_wall ttl else wall t') in
    lifetime w base us t → tick_ok z t' → mono t <= mono t' → valid_mut (MExpire k ms) →
    last_offset_ (wal_ w) + 1 < 2 ^ 64 →
    durable_expire config os (frozen t') k ttl w = (Ok b, w') →
    lifetime w' base (us ++ [(wall t', MExpire k ms)]) t'
| life_read w base us t t' op r st :
    lifetime w base us t → tick_ok z t' → mono t <= mono t' → is_read op = true →
    run op (frozen t') (store w) = (r, st) → lifetime (set_store st w) base us t'
| life_active_expire w base us t t' rand samples n st :
    lifetime w base us t → tick_ok z t' → mono t <= mono t' → rand_ok rand →
    active_expire_cycle rand (frozen t') (store w) samples = Some (n, st) →
    lifetime (set_store st w) base us t'
| life_fsync os w base us t w' :
    lifetime w base us t → fsync_round os w = (Ok tt, w') → lifetime w' base us t
| life_snapshot os w base us t t' steady w' :
    lifetime w base us t → tick_ok z t' → mono t <= mono t' →
    Z.of_nat (size (age (wall t') (p_live base us))) < 2 ^ 64 →
    snapshot_now config os (frozen t') steady w = (Ok tt, w') →
    lifetime w' (age (wall t') (p_live base us)) [] t'.

(** The invariant of a running engine. *)
Record life_inv (w : World) (base : PMap) (us : list (Z * Mut)) (t : Tick)
    (recs : list WalRecord) (n : nat) (N : Z) : Prop := {
  life_null : wal_null w = false;
  life_wal : wal_run (wal_ w) recs n;
  life_offset : N <= last_offset_ (wal_ w);
  life_base : snapshot_of (snapshots w) N base;
  life_records : Forall2 records (filter (λ r, N < offset r) recs) us.*2;
  life_valid : Forall valid_mut us.*2;
  life_times : Forall (λ u, u.1 <= wall t) us;
  life_tick : tick_ok z t;
  life_store : stands z t (store w) (age (wall t) (p_live base us));
  life_storable : storable (p_live base us);
  life_synced : fsync config = always → n = length recs;
}.

Lemma p_live_snoc m us now u : p_live m (us ++ [(now, u)]) = p_apply now (age now (p_live m us)) u.
Proof. revert m. induction us as [|[n' u'] us IH]; intros m; [done|]. cbn [app p_live]. apply IH. Qed.

Lemma tick_le t t' : tick_ok z t → tick_ok z t' → mono t <= mono t' → wall t <= wall t'.
Proof. unfold tick_ok, wall_to_mono. lia. Qed.

(** What the passage of time leaves. *)
Lemma life_later w base us t t' recs n N :
  life_inv w base us t recs n N → tick_ok z t' → mono t <= mono t' → life_inv w base us t' recs n N.
Proof.
  intros [H1 H2 H3 H4 H5 H6 H7 H8 H9 H10 H11] Ht Hle. pose proof (tick_le t t' H8 Ht Hle) as Hw.
  split; try done.
  - eapply Forall_impl; [exact H7|]. cbn. lia.
  - rewrite <- (age_age (wall t) (wall t')) by done. by apply (stands_later z t).
Qed.

(** A change of the store that keeps the map. *)
Lemma life_set_store w base us t recs n N st :
  life_inv w base us t recs n N → stands z t st (age (wall t) (p_live base us)) →
  life_inv (set_store st w) base us t recs n N.
Proof. intros [H1 H2 H3 H4 H5 H6 H7 H8 H9 H10 H11] Hs. by split. Qed.

Lemma apply_aged now m u :
  age now (p_apply now (age now m) u) = p_apply now (age now m) u.
Proof.
  apply map_eq. intros k. rewrite age_lookup.
  destruct (p_apply now (age now m) u !! k) as [c|] eqn:E; [|done]. cbn.
  assert (alive now c = true) as ->; [|done]. revert E. destruct u as [k0 v|ks|k0 ms]; cbn [p_apply].
  - intros [[_ <-]|[_ Hk]]%lookup_insert_Some; [done|]. by apply age_some in Hk as [_ ?].
  - intros [Hk _]%map_lookup_filter_Some. by apply age_some in Hk as [_ ?].
  - destruct (age now m !! k0) as [[v w]|]; [|by intros [_ ?]%age_some].
    rewrite p_put_lookup. case_decide; [|by intros [_ ?]%age_some].
    destruct (alive now _) eqn:Ea; [|done]. by intros [= <-].
Qed.

(** An acknowledged mutation extends the history. *)
Lemma life_durable {A} os w base us t t' u (f : Store → A * Store) a w' recs n N :
  life_inv w base us t recs n N → tick_ok z t' → mono t <= mono t' → valid_mut u →
  last_offset_ (wal_ w) + 1 < 2 ^ 64 →
  (∀ s m, stands z t' s m → stands z t' (snd (f s)) (p_apply (wall t') m u)) →
  durable os (mut_opcode u) (mut_payload u) f w = (Ok a, w') →
  ∃ recs' n', life_inv w' base (us ++ [(wall t', u)]) t' recs' n' N.
Proof.
  intros Hinv Ht Hle Hu Ho Hf E. pose proof (life_later _ _ _ _ _ _ _ _ Hinv Ht Hle) as Hinv'.
  destruct Hinv' as [H1 H2 H3 H4 H5 H6 H7 H8 H9 H10 H11].
  destruct (durable_ok os _ _ f w a w' H1 E) as (o & wal1 & wal2 & Ea & Es & _ & ->).
  pose proof (append_ok _ _ _ _ _ _ Ea) as (Ho' & _ & Hw1).
  pose proof (wal_run_inv _ _ _ H2) as Hw. destruct (inv_u64 _ _ _ Hw) as [Hlo Hhi].
  rewrite u64_id in Ho' by (unfold is_u64; lia).
  set (r := {| offset := o; opcode := mut_opcode u; payload := mut_payload u |}) in *.
  assert (wal_run wal1 (recs ++ [r]) n) as Hrun.
  { eapply run_append; [exact H2|by destruct u|apply Hu|done|exact Ea]. }
  exists (recs ++ [r]), (if decide (fsync config = always) then length (recs ++ [r]) else n).
  assert (last_offset_ wal2 = o ∧ wal_run wal2 (recs ++ [r])
            (if decide (fsync config = always) then length (recs ++ [r]) else n)) as [Hlast Hrun2].
  { destruct (decide (fsync config = always)).
    - pose proof (sync_ok _ _ _ _ Es) as [_ ->]. split; [by rewrite Hw1|]. eapply run_sync; [exact Hrun|exact Es].
    - subst wal2. split; [by rewrite Hw1|done]. }
  split; cbn [wal_null wal_ snapshots store set_store set_wal]; try done.
  - rewrite Hlast. lia.
  - rewrite filter_app, fmap_app. apply Forall2_app; [done|].
    rewrite filter_cons_True by (cbn; lia). constructor; [done|constructor].
  - rewrite fmap_app. apply Forall_app_2; [done|]. constructor; [done|constructor].
  - apply Forall_app_2; [done|]. constructor; [cbn; lia|constructor].
  - rewrite p_live_snoc, apply_aged. by apply Hf.
  - rewrite p_live_snoc. apply storable_apply; [done|]. by apply storable_age.
  - intros Ha. by rewrite decide_True.
Qed.

(** *** Snapshots *)

(** What the export leaves in the store and puts into the file. *)
Lemma export_stands t st m es st' d off :
  stands z t st m → storable m → Z.of_nat (size m) < 2 ^ 64 → is_u64 off →
  export_snapshot_entries (frozen t) st = (es, st') → final_file d = Some (snapshot_body off es) →
  stands z t st' m ∧ snapshot_of d off m.
Proof.
  intros (Hwf & Hc & Hm) Hst Hsz Hoff E Hd.
  destruct (export_refines (frozen t) st Hwf) as (es0 & st0 & E0 & Hwf' & Hv & Hp).
  rewrite E in E0. injection E0 as <- <-. change (frozen t 0%nat) with t in Hv, Hp.
  destruct (export_map _ _ Hp) as [Hnd Hmap]. rewrite Hm in Hmap. split.
  - split; [done|]. by rewrite Hv.
  - right. exists es. assert (len es = Z.of_nat (size m)) as Hl.
    { rewrite <- Hm. unfold len, spec_export in *. rewrite (Permutation_length Hp), length_fmap, length_map_to_list.
      by rewrite map_size_fmap. }
    assert (∀ e, e ∈ es → valid_entry e ∧ ms_entry e = e) as He.
    { intros e He. destruct e as [k v w]. apply (Hst k v w). rewrite <- Hmap.
      apply elem_of_list_to_map; [by rewrite <- list_fmap_compose|].
      apply list_elem_of_fmap. by exists {| pkey := k; pvalue := v; pexpiry_wall := w |}. }
    split_and!; try done; [lia| |].
    + apply Forall_forall. intros e Hin. by apply He.
    + rewrite <- (list_fmap_id es) at 2. apply list_fmap_ext. intros i e Hi.
      apply He. by eapply list_elem_of_lookup_2.
Qed.

Lemma sync_cases os w r w' : sync os w = (r, w') → (r = Ok tt ∧ w' = mark_synced w) ∨ w' = w.
Proof.
  unfold sync, ensure_open_unlocked. exec_unfold. destruct (fd_ w); [|intros [= _ <-]; by right].
  destruct (sys_ok os "fsync(WAL)"); intros [= <- <-]; [by left|by right].
Qed.

(** What a rotation leaves, wherever it stops. *)
Lemma truncate_cases os off w r w' :
  truncate_after os off w = (r, w') →
  wal_file w' = wal_file w ∨ wal_file w' `prefix_of` header_bytes.
Proof.
  unfold truncate_after, ensure_open_unlocked, write_header_unlocked, wal_write_all. exec_unfold.
  destruct (fd_ w); [|intros [= _ <-]; by left].
  destruct (sys_ok os "ftruncate(WAL rotate)"); [|intros [= _ <-]; by left].
  destruct (sys_ok os "lseek(WAL header)"); [|intros [= _ <-]; right; apply prefix_nil].
  destruct (write_all _ _ _ _) as [rw f] eqn:E.
  apply write_all_prefix in E as (d & rest & Hd & -> & _). cbn [wal_file set_file app].
  assert (d `prefix_of` header_bytes) as Hp by (by exists rest).
  destruct rw as [[]|]; [|intros [= _ <-]; by right].
  destruct (sys_ok os "lseek(WAL after header)"); [|intros [= _ <-]; by right].
  destruct (sys_ok os "fsync(WAL rotate)"); intros [= _ <-]; by right.
Qed.

(** The files after a snapshot that stopped anywhere. *)
Lemma snapshot_files os clk w r w' :
  wal_null w = false → export_write_truncate config os clk w = (r, w') →
  (final_file (snapshots w') = final_file (snapshots w) ∧ wal_file (wal_ w') = wal_file (wal_ w)) ∨
  (final_file (snapshots w') =
     Some (snapshot_body (last_offset_ (wal_ w)) (fst (export_snapshot_entries clk (store w)))) ∧
   (wal_file (wal_ w') = wal_file (wal_ w) ∨ wal_file (wal_ w') `prefix_of` header_bytes)).
Proof.
  intros Hnull.
  assert (∀ wal1 r w', wal_file wal1 = wal_file (wal_ w) → last_offset_ wal1 = last_offset_ (wal_ w) →
    (let w1 := set_wal wal1 w in
     (do! entries := with_store (export_snapshot_entries clk) in
      do! offset := wal_call wal_last_offset in
      zoom snapshots set_snapshots (write_snapshot os offset entries) ;;
      wal_call (truncate_after os offset)) w1) = (r, w') →
    (final_file (snapshots w') = final_file (snapshots w) ∧ wal_file (wal_ w') = wal_file (wal_ w)) ∨
    (final_file (snapshots w') =
       Some (snapshot_body (last_offset_ (wal_ w)) (fst (export_snapshot_entries clk (store w)))) ∧
     (wal_file (wal_ w') = wal_file (wal_ w) ∨ wal_file (wal_ w') `prefix_of` header_bytes))) as Hrest.
  { intros wal1 r1 w1' Hf Hl. unfold wal_call, with_store, wal_last_offset. exec_unfold. cbn [store set_wal].
    destruct (export_snapshot_entries clk (store w)) as [es st']. cbn [set_store set_wal wal_null fst].
    rewrite Hnull. cbn [set_store set_wal wal_ snapshots]. rewrite Hl.
    destruct (write_snapshot os (last_offset_ (wal_ w)) es (snapshots w)) as [rw d] eqn:Ew.
    destruct (write_snapshot_cases _ _ _ _ _ _ Ew) as [[-> Hd]|[Hr Hd]].
    - cbn [set_snapshots wal_null wal_ set_store set_wal]. rewrite Hnull.
      cbn [set_snapshots wal_null wal_ set_store set_wal].
      destruct (truncate_after os (last_offset_ (wal_ w)) wal1) as [rt wal2] eqn:Et. intros [= _ <-].
      cbn [snapshots set_wal set_snapshots wal_]. right. split; [done|].
      rewrite <- Hf. by apply (truncate_cases _ _ _ _ _ Et).
    - destruct rw as [[]|e]; [done|]. intros [= _ <-]. left.
      cbn [snapshots set_snapshots wal_ set_store set_wal]. done. }
  unfold export_write_truncate. rewrite exec_bind_seq.
  case_bool_decide.
  - unfold ret. intros E. apply (Hrest (wal_ w) r w'); [done|done|]. by destruct w.
  - unfold wal_call at 1. rewrite exec_bind_gets, Hnull. unfold zoom.
    destruct (sync os (wal_ w)) as [rs wal1] eqn:Es. destruct (sync_cases _ _ _ _ Es) as [[-> ->]| ->].
    + intros E. by apply (Hrest (mark_synced (wal_ w)) r w').
    + destruct rs as [[]|e]; [|intros [= _ <-]; by left].
      intros E. by apply (Hrest (wal_ w) r w').
Qed.

(** A snapshot that returns. *)
Lemma snapshot_ok os clk w w' :
  wal_null w = false → export_write_truncate config os clk w = (Ok tt, w') →
  let '(es, st) := export_snapshot_entries clk (store w) in
  let off := last_offset_ (wal_ w) in
  ∃ wal1 wal2 d, (wal1 = wal_ w ∨ sync os (wal_ w) = (Ok tt, wal1)) ∧
    write_snapshot os off es (snapshots w) = (Ok tt, d) ∧
    truncate_after os off wal1 = (Ok tt, wal2) ∧
    w' = set_wal wal2 (set_snapshots d (set_store st w)).
Proof.
  intros Hnull. unfold export_write_truncate. rewrite exec_bind_seq.
  destruct (export_snapshot_entries clk (store w)) as [es st] eqn:Ex.
  assert (∀ wal1, wal1 = wal_ w ∨ sync os (wal_ w) = (Ok tt, wal1) → last_offset_ wal1 = last_offset_ (wal_ w) →
    (do! entries := with_store (export_snapshot_entries clk) in
      do! offset := wal_call wal_last_offset in
      zoom snapshots set_snapshots (write_snapshot os offset entries) ;;
      wal_call (truncate_after os offset)) (set_wal wal1 w) = (Ok tt, w') →
    ∃ wal1 wal2 d, (wal1 = wal_ w ∨ sync os (wal_ w) = (Ok tt, wal1)) ∧
      write_snapshot os (last_offset_ (wal_ w)) es (snapshots w) = (Ok tt, d) ∧
      truncate_after os (last_offset_ (wal_ w)) wal1 = (Ok tt, wal2) ∧
      w' = set_wal wal2 (set_snapshots d (set_store st w))) as Hrest.
  { intros wal1 Hw Hl. unfold wal_call, with_store, wal_last_offset. exec_unfold. cbn [store set_wal]. rewrite Ex.
    cbn [set_store set_wal wal_null]. rewrite Hnull. cbn [set_store set_wal wal_ snapshots]. rewrite Hl.
    destruct (write_snapshot os _ es (snapshots w)) as [[[]|] d] eqn:Ew; [|done].
    cbn [set_snapshots wal_null set_store set_wal]. rewrite Hnull. cbn [set_snapshots wal_ set_store set_wal].
    destruct (truncate_after os (last_offset_ (wal_ w)) wal1) as [rt wal2] eqn:Et.
    intros [= -> <-]. by exists wal1, wal2, d. }
  case_bool_decide.
  - unfold ret. intros E. apply (Hrest (wal_ w)); [by left|done|by destruct w].
  - unfold wal_call at 1. rewrite exec_bind_gets, Hnull. unfold zoom.
    destruct (sync os (wal_ w)) as [[[]|e] wal1] eqn:Es; [|done].
    destruct (sync_ok _ _ _ _ Es) as [_ ->]. intros E.
    apply (Hrest (mark_synced (wal_ w))); [by right|done|done].
Qed.

Lemma no_newer_records w recs n :
  wal_run w recs n → filter (λ r, last_offset_ w < offset r) recs = [].
Proof.
  intros Hrun. pose proof (wal_run_inv _ _ _ Hrun) as Hw.
  pose proof (inv_increasing _ _ _ Hw) as Hi. pose proof (inv_last _ _ _ Hw) as Hl. revert Hi Hl.
  generalize 0 at 1 2 as last. generalize (last_offset_ w) as top. clear. intros top.
  induction recs as [|r recs IH]; intros last Hi Hl; [done|].
  destruct Hi as [Hr Hi]. cbn [last_of] in Hl.
  pose proof (last_of_ge _ _ Hi). rewrite filter_cons_False by lia. by apply (IH (offset r)).
Qed.

Lemma life_snapshot_inv os w base us t w' recs n N :
  life_inv w base us t recs n N → Z.of_nat (size (age (wall t) (p_live base us))) < 2 ^ 64 →
  export_write_truncate config os (frozen t) w = (Ok tt, w') →
  life_inv w' (age (wall t) (p_live base us)) [] t [] 0 (last_offset_ (wal_ w)).
Proof.
  intros [H1 H2 H3 H4 H5 H6 H7 H8 H9 H10 H11] Hsz E. pose proof (wal_run_inv _ _ _ H2) as Hw.
  pose proof (snapshot_ok os (frozen t) w w' H1 E) as Hok.
  destruct (export_snapshot_entries (frozen t) (store w)) as [es st] eqn:Ex.
  destruct Hok as (wal1 & wal2 & d & Hw1 & Ed & Et & ->).
  assert (∃ n', wal_run wal1 recs n') as [n' Hr1].
  { destruct Hw1 as [->|Es]; [eauto|]. eexists. eapply run_sync; [exact H2|exact Es]. }
  assert (last_offset_ wal1 = last_offset_ (wal_ w)) as Hl1.
  { destruct Hw1 as [->|Es]; [done|]. by destruct (sync_ok _ _ _ _ Es) as [_ ->]. }
  rewrite <- Hl1 in Et. pose proof (truncate_ok _ _ _ _ _ Et) as Hw2.
  pose proof (storable_age (wall t) _ H10) as Hst.
  destruct (export_stands t (store w) _ es st d (last_offset_ (wal_ w)) H9 Hst Hsz (inv_u64 _ _ _ Hw) Ex)
    as [Hs Hsnap]; [by rewrite (write_snapshot_ok _ _ _ _ _ Ed)|].
  split; cbn [wal_null wal_ snapshots store set_wal set_snapshots set_store p_live]; try done.
  - eapply run_rotate; [exact Hr1|exact Et].
  - rewrite Hw2. cbn. lia.
  - by rewrite age_age by lia.
Qed.

Lemma fsync_round_inv os w base us t w' recs n N :
  life_inv w base us t recs n N → fsync_round os w = (Ok tt, w') →
  ∃ n', life_inv w' base us t recs n' N.
Proof.
  intros [H1 H2 H3 H4 H5 H6 H7 H8 H9 H10 H11]. unfold fsync_round, ignore_errors, wal_call. exec_unfold.
  destruct (fsync_thread w); [|intros [= <-]; by exists n].
  rewrite H1. destruct (sync os (wal_ w)) as [r wal1] eqn:Es. intros E.
  assert (w' = set_wal wal1 w) as -> by (destruct r as [|[]]; by simplify_eq E). clear E.
  destruct (sync_cases _ _ _ _ Es) as [[-> ->]| ->].
  - exists (length recs). split; try done. eapply run_sync; [exact H2|exact Es].
  - exists n. by split.
Qed.

(** Recovery from an empty data directory. *)
Lemma recover_fresh os steady st w0 clks clks' w :
  new_engine config os steady [] no_files st = Ok w0 → recover_into config os clks clks' w0 = (Ok tt, w) →
  open_and_recover os (new_wal []) = (Ok [], wal_ w) ∧ last_offset_ (wal_ w) = 0 ∧
  wal_null w = false ∧ store w = clear st ∧ snapshots w = no_files.
Proof.
  unfold new_engine. destruct (data_dir config) as [|b dir]; [done|]. cond_case; [done|]. intros [= <-].
  unfold recover_into, wal_call. exec_unfold. cbn [store set_store snapshots wal_null wal_ import_entries read_snapshot].
  change (read_snapshot os no_files) with (@None (SnapshotHeader * list PersistedEntry)). cbn [import_entries].
  destruct (open_and_recover os (new_wal [])) as [[recs|] wal1] eqn:Eo; [|done].
  pose proof (open_calm _ _ _ _ Eo) as Eo'. unfold new_wal in Eo'. rewrite open_short in Eo' by done.
  injection Eo' as <- <-. cbn [replay_records]. unfold ret. intros E.
  by destruct (bool_decide _); injection E as <-.
Qed.

Lemma life_start_inv os steady st w0 clks clks' w t :
  wf st → new_engine config os steady [] no_files st = Ok w0 →
  recover_into config os clks clks' w0 = (Ok tt, w) → tick_ok z t →
  life_inv w ∅ [] t [] 0 0.
Proof.
  intros Hwf Hnew Hrec Ht. destruct (recover_fresh _ _ _ _ _ _ _ Hnew Hrec) as (Eo & Hlast & Hnull & Hst & Hfiles).
  assert (stands z t (clear st) (age (wall t) ∅)) as Hs.
  { unfold age. rewrite map_filter_empty. by apply stands_clear. }
  assert (storable ∅) as He by (intros k v w1 Hk; by rewrite lookup_empty in Hk).
  split; cbn; rewrite ?Hst; try done; [by eapply run_create|by rewrite Hlast|].
  left. by rewrite Hfiles.
Qed.

(** Reads and background deletion do not change the map. *)
Lemma read_stands t op s m r s' :
  is_read op = true → stands z t s m → run op (frozen t) s = (r, s') → stands z t s' m.
Proof.
  intros Hr (Hwf & Hc & Hm) E. destruct (run_refines_spec op (frozen t) s Hwf) as (s1 & E1 & Hwf1 & Hv).
  rewrite E in E1. injection E1 as _ <-.
  assert (view (mono t) s' = view (mono t) s) as Hsame.
  { destruct op as [| | | | | | | | | |p|]; try done. cbn [op_now] in Hv. change (frozen t 0%nat) with t in Hv.
    rewrite Hv. cbn [spec]. by case_bool_decide. }
  split; [done|]. by rewrite Hsame.
Qed.

Lemma lifetime_inv w base us t : lifetime w base us t → ∃ recs n N, life_inv w base us t recs n N.
Proof.
  induction 1 as [os n steady st w0 clks clks' w t Hn Hst He Er Ht
    |os w base us t t' k v w' _ (recs & n & N & Hi) Ht Hle Hu Ho E
    |os w base us t t' ks c w' _ (recs & n & N & Hi) Ht Hle Hu Ho E
    |os w base us t t' k ttl b w' ms _ (recs & n & N & Hi) Ht Hle Hu Ho E
    |w base us t t' op r st _ (recs & n & N & Hi) Ht Hle Hr E
    |w base us t t' rand samples c st _ (recs & n & N & Hi) Ht Hle Hr E
    |os w base us t w' _ (recs & n & N & Hi) E
    |os w base us t t' steady w' _ (recs & n & N & Hi) Ht Hle Hsz E].
  - exists [], 0%nat, 0. eapply life_start_inv; [by eapply wf_new|done|exact Er|done].
  - destruct (life_durable os w base us t t' (MSet k v) (λ st, (tt, set (frozen t') st k (VString v) None))
      tt w' recs n N) as (recs' & n' & Hi'); [done..| |exact E|eauto].
    intros s m Hs. by apply (stands_put z t' s m k (VString v) None).
  - destruct (life_durable os w base us t t' (MDel ks) (λ st, del_many (frozen t') st ks) c w' recs n N)
      as (recs' & n' & Hi'); [done..| |exact E|eauto].
    intros s m Hs. by apply stands_del.
  - destruct (life_durable os w base us t t' (MExpire k ms)
      (λ st, expire_at (later 1 (frozen t')) st k (Some (from_unix_ms ms))) b w' recs n N)
      as (recs' & n' & Hi'); [done..| | |eauto].
    2: { unfold durable_expire in E. rewrite <- E. unfold ms. by destruct (ttl >? 0). }
    intros s m Hs. by apply (stands_expire z t' s m k ms).
  - exists recs, n, N. pose proof (life_later _ _ _ _ _ _ _ _ Hi Ht Hle) as Hi'.
    apply life_set_store; [done|]. eapply read_stands; [done|apply Hi'|exact E].
  - exists recs, n, N. pose proof (life_later _ _ _ _ _ _ _ _ Hi Ht Hle) as Hi'.
    apply life_set_store; [done|]. destruct (life_store _ _ _ _ _ _ _ Hi') as (Hwf & Hc & Hm).
    destruct (active_expire_ok rand (frozen t') (store w) samples Hr Hwf) as (n1 & s1 & E1 & Hwf1 & Hv & _).
    rewrite E in E1. injection E1 as _ <-. change (frozen t' 0%nat) with t' in Hv.
    split; [done|]. by rewrite Hv.
  - destruct (fsync_round_inv _ _ _ _ _ _ _ _ _ Hi E) as [n' Hi']. eauto.
  - pose proof (life_later _ _ _ _ _ _ _ _ Hi Ht Hle) as Hi'. revert E. unfold snapshot_now.
    rewrite exec_bind_seq. destruct (export_write_truncate config os (frozen t') w) as [[[]|] w1] eqn:E; [|done].
    pose proof (life_snapshot_inv _ _ _ _ _ _ _ _ _ Hi' Hsz E) as Hi1. unfold modify, ret.
    destruct (snapshot_interval_seconds config >? 0); intros [= <-]; [|eauto].
    exists [], 0%nat, (last_offset_ (wal_ w)). by destruct Hi1; split.
Qed.
End Life.
