(* ===== verification/EngineProps.v ===== *)
(** * Properties of persistence

    What survives a crash, an interrupted snapshot and a clean shutdown; and
    how acknowledged writes are lost otherwise. *)

From S2P Require Import Prelude Binary Disk Wal WalCorrect WalProps Store StoreInv StoreSpec.
From S2P Require Import StoreCorrect StoreTheorems Snapshot SnapshotCorrect Engine EngineSpec.
From S2P Require Import EngineCorrect.

(** The map [m] is what the history [base], [us] leaves at the time [now]: it
    has no entry that the history does not have, and it has all of them unless
    an [EXPIRE] superseded a deadline that is due by now. *)
Definition faithful (now : Z) (base : PMap) (us : list (Z * Mut)) (m : PMap) : Prop :=
  m ⊆ age now (p_live base us) ∧
  (settled now (due_keys now base) us.*2 → m = age now (p_live base us)).

Lemma replay_faithful now base us :
  Forall (λ u, u.1 <= now) us → faithful now base us (p_replay now (age now base) us.*2).
Proof.
  intros Hle. split; [by apply replay_sub|]. intros Hs. eapply replay_eq; [done|apply dead_in_due|done].
Qed.

Lemma filter_take_prefix {A} (P : A → Prop) `{!∀ x, Decision (P x)} (l : list A) m :
  ∃ j, (j <= length (filter P l))%nat ∧ filter P (take m l) = take j (filter P l) ∧
       (m = length l → j = length (filter P l)).
Proof.
  assert (filter P l = filter P (take m l) ++ filter P (drop m l)) as Hf
    by (by rewrite <- filter_app, take_drop).
  exists (length (filter P (take m l))). split_and!.
  - rewrite Hf, length_app. lia.
  - by rewrite Hf, take_app_length.
  - intros ->. by rewrite take_ge.
Qed.

Section Claims.
Context `{PO : PlatformOk} (config : PersistenceConfig).

(** ** Restarting *)

(** What the constructor makes of the files. *)
Lemma new_engine_ok os steady wal_bytes d st w0 :
  new_engine config os steady wal_bytes d st = Ok w0 →
  store w0 = st ∧ wal_null w0 = false ∧ snapshots w0 = d ∧ wal_ w0 = new_wal wal_bytes.
Proof. unfold new_engine. destruct (data_dir config); [done|]. destruct (negb _); [done|]. by intros [= <-]. Qed.

(** Recovery after a restart, from the files that are left. *)
Lemma restart_faithful z t os0 steady wal_bytes d st w0 N base recs wal' us :
  tick_ok z t → wf st → new_engine config os0 steady wal_bytes d st = Ok w0 → snapshot_of d N base →
  open_and_recover calm (new_wal wal_bytes) = (Ok recs, wal') →
  Forall2 records (filter (λ r, N < offset r) recs) us.*2 → Forall valid_mut us.*2 →
  Forall (λ u, u.1 <= wall t) us →
  ∃ w1 m, recover_into config calm (λ _, frozen t) (λ _, frozen t) w0 = (Ok tt, w1) ∧
          stands z t (store w1) m ∧ faithful (wall t) base us m.
Proof.
  intros Ht Hwf Hnew Hd Ho Hus Hv Hle. apply new_engine_ok in Hnew as (<- & Hnull & <- & Hw).
  rewrite <- Hw in Ho.
  destruct (recover_stands config z t w0 N base recs wal' us.*2) as (w1 & E & Hs & _); [done..|].
  eexists w1, _. split; [exact E|]. split; [exact Hs|]. by apply replay_faithful.
Qed.

(** The files of a running engine after a crash. *)
Lemma crash_files z w base us t recs n N c :
  life_inv config z w base us t recs n N → crash_image (wal_ w) c →
  ∃ j recs' wal', (j <= length us)%nat ∧ (fsync config = always → j = length us) ∧
    open_and_recover calm (new_wal c) = (Ok recs', wal') ∧
    Forall2 records (filter (λ r, N < offset r) recs') (take j us).*2.
Proof.
  intros [H1 H2 H3 H4 H5 H6 H7 H8 H9 H10 H11] [Hc1 Hc2].
  destruct (wal_run_inv _ _ _ H2) as [_ I2 I3 I4 _ _ I7 I8 I9].
  rewrite I2 in Hc2. destruct (recover_prefix recs n c c I3 I4 I7) as (m & s' & Hm & Eo & _);
    [intros Hn; etrans; [by apply I9|done]|done|].
  destruct (filter_take_prefix (λ r, N < offset r) recs m) as (j & Hj & Hf & Hall).
  pose proof (Forall2_length _ _ _ H5) as Hlen. rewrite length_fmap in Hlen.
  exists j, (take m recs). eexists. split_and!; [lia| |exact Eo|].
  - intros Ha. specialize (H11 Ha). rewrite <- Hlen. apply Hall. lia.
  - rewrite Hf, fmap_take. by apply Forall2_take.
Qed.

(** A crash of a running engine and a restart from its files. *)
Lemma crash_restart z w base us t c n' st' os0 steady w0 z' t' :
  lifetime config z w base us t → crash_image (wal_ w) c →
  0 <= n' → new_store n' = Ok st' → new_engine config os0 steady c (snapshots w) st' = Ok w0 →
  tick_ok z' t' → wall t <= wall t' →
  ∃ j w1 m, (j <= length us)%nat ∧ (fsync config = always → j = length us) ∧
    recover_into config calm (λ _, frozen t') (λ _, frozen t') w0 = (Ok tt, w1) ∧
    stands z' t' (store w1) m ∧ faithful (wall t') base (take j us) m.
Proof.
  intros Hlife Hc Hn Hst Hnew Ht' Hle. destruct (lifetime_inv _ _ _ _ _ _ Hlife) as (recs & n & N & Hi).
  destruct (crash_files z w base us t recs n N c Hi Hc) as (j & recs' & wal' & Hj & Hall & Eo & Hr).
  destruct Hi as [H1 H2 H3 H4 H5 H6 H7 H8 H9 H10 H11].
  edestruct (restart_faithful z' t' os0 steady c (snapshots w) st' w0 N base recs' wal' (take j us))
    as (w1 & m & E & Hs & Hf); [done|by eapply wf_new|done|done|done|done| | |].
  - rewrite fmap_take. by apply Forall_take.
  - apply Forall_take. eapply Forall_impl; [exact H7|]. cbn. lia.
  - by exists j, w1, m.
Qed.

Lemma no_loss_image w recs n : wal_run w recs n → crash_image w (wal_file w).
Proof. intros Hr%wal_run_inv. split; [apply Hr|done]. Qed.

End Claims.

(** ** Claims *)

(** C3. Crash recovery. Take a life of an engine that began on an empty data
    directory - commands, reads, lazy and active expiry, background syncs and
    snapshots, of which every one returned, whose mutations fit the format of the
    log ([valid_mut]) and in which the two clocks advance together ([lifetime]) -
    and a crash after one of these operations that keeps at least the synced part
    of the log and any part from the front of the rest. Restarting at any time
    that is not earlier succeeds, when the constructor of the engine does, and
    gives a map that is faithful to the acknowledged history, cut at some point:
    nothing is invented, and a key that is recovered has its last value and
    deadline; with [fsync = always] the history is not cut at all. The map is the
    whole of that history unless an [EXPIRE] superseded a deadline that is due at
    the restart ([faithful]). A life after a restart with a snapshot is not
    covered: [restart_forgets_write]. *)
Theorem engine_crash_recovery `{PlatformOk} config z w base us t c n' st' os0 steady w0 z' t' :
  lifetime config z w base us t → crash_image (wal_ w) c →
  0 <= n' → new_store n' = Ok st' → new_engine config os0 steady c (snapshots w) st' = Ok w0 →
  tick_ok z' t' → wall t <= wall t' →
  stands z t (store w) (age (wall t) (p_live base us)) ∧
  ∃ j w1 m, (j <= length us)%nat ∧ (fsync config = always → j = length us) ∧
    recover_into config calm (λ _, frozen t') (λ _, frozen t') w0 = (Ok tt, w1) ∧
    stands z' t' (store w1) m ∧ faithful (wall t') base (take j us) m.
Proof.
  intros Hlife Hc Hn Hst Hnew Ht' Hle. split; [|by eapply crash_restart].
  destruct (lifetime_inv _ _ _ _ _ _ Hlife) as (recs & n & N & Hi). apply Hi.
Qed.

(** C18. Snapshots are safe to interrupt, for an engine whose life began on an
    empty data directory, with every earlier operation returned, mutations that
    fit the format of the log, clocks that advance together ([lifetime]), and
    fewer than 2^64 keys: whatever system call of a snapshot fails, and if the
    process ends there, the files that are left - the old snapshot with the whole
    log, the new snapshot with the log it includes, or the new snapshot with an
    empty or half-written log - are recovered to the same history at any time that
    is not earlier. What goes on after a rotation that failed is another matter:
    [failed_rotation_drops_acknowledged_write]. *)
Theorem snapshot_interruption_harmless `{PlatformOk} config z w base us t os r w' n' st' os0 steady w0 z' t' :
  lifetime config z w base us t →
  Z.of_nat (size (age (wall t) (p_live base us))) < 2 ^ 64 →
  export_write_truncate config os (frozen t) w = (r, w') →
  0 <= n' → new_store n' = Ok st' →
  new_engine config os0 steady (wal_file (wal_ w')) (snapshots w') st' = Ok w0 →
  tick_ok z' t' → wall t <= wall t' →
  ∃ w1 m, recover_into config calm (λ _, frozen t') (λ _, frozen t') w0 = (Ok tt, w1) ∧
    stands z' t' (store w1) m ∧ faithful (wall t') base us m.
Proof.
  intros Hlife Hsz E Hn Hst Hnew Ht' Hle. destruct (lifetime_inv _ _ _ _ _ _ Hlife) as (recs & n & N & Hi).
  pose proof Hi as [H1 H2 H3 H4 H5 H6 H7 H8 H9 H10 H11]. pose proof (wf_new _ _ Hn Hst) as Hwf.
  assert (Forall (λ u, u.1 <= wall t') us) as H7' by (eapply Forall_impl; [exact H7|]; cbn; lia).
  destruct (wal_reopen (wal_ w) recs n H2) as [_ Ereopen].
  destruct (snapshot_files config os (frozen t) w r w' H1 E) as [[Hd Hf]|[Hd Hf]].
  - assert (snapshot_of (snapshots w') N base) as Hsnap by (by rewrite snapshot_of_final, Hd, <- snapshot_of_final).
    eapply (restart_faithful config z' t'); [done|done|done|exact Hsnap| |done|done|done].
    rewrite Hf. exact Ereopen.
  - destruct (export_snapshot_entries (frozen t) (store w)) as [es st] eqn:Ex.
    destruct (export_stands z t (store w) _ es st (snapshots w') (last_offset_ (wal_ w)) H9
      (storable_age _ _ H10) Hsz (inv_u64 _ _ _ (wal_run_inv _ _ _ H2)) Ex Hd) as [_ Hsnap].
    assert (∃ recs' wal', open_and_recover calm (new_wal (wal_file (wal_ w'))) = (Ok recs', wal') ∧
      filter (λ r, last_offset_ (wal_ w) < offset r) recs' = []) as (recs' & wal' & Eo & Hnone).
    { destruct Hf as [->|Hp]; [eexists _, _; split; [exact Ereopen|by eapply no_newer_records]|].
      destruct (open_header_part _ Hp) as [wal' Eo]. eexists [], wal'. by split. }
    edestruct (restart_faithful config z' t') with (us := [] : list (Z * Mut)) as (w1 & m & Er & Hs & Hsub & Heq);
      [done|done|exact Hnew|exact Hsnap|exact Eo|rewrite Hnone; constructor|constructor|constructor|].
    exists w1, m. split_and!; [done|done|]. cbn [p_live fmap list_fmap] in *.
    rewrite age_age in Hsub, Heq by done. split; [done|]. intros _. by apply Heq.
Qed.

(** C20. A clean shutdown loses nothing, for an engine whose life began on an
    empty data directory, with every operation returned, mutations that fit the
    format of the log, clocks that advance together ([lifetime]), and fewer than
    2^64 keys: after a shutdown that returns, a restart at any time that is not
    earlier recovers exactly the live keys of the moment of the shutdown that are
    still alive, with their values and deadlines. *)
Theorem shutdown_restart_exact `{PlatformOk} config z w base us t os w' n' st' os0 steady w0 z' t' :
  lifetime config z w base us t →
  Z.of_nat (size (age (wall t) (p_live base us))) < 2 ^ 64 →
  shutdown config os (frozen t) w = (Ok tt, w') →
  0 <= n' → new_store n' = Ok st' →
  new_engine config os0 steady (wal_file (wal_ w')) (snapshots w') st' = Ok w0 →
  tick_ok z' t' → wall t <= wall t' →
  ∃ w1, recover_into config calm (λ _, frozen t') (λ _, frozen t') w0 = (Ok tt, w1) ∧
        stands z' t' (store w1) (age (wall t') (p_live base us)).
Proof.
  intros Hlife Hsz E Hn Hst Hnew Ht' Hle. destruct (lifetime_inv _ _ _ _ _ _ Hlife) as (recs & n & N & Hi).
  assert (life_inv config z (set_thread false w) base us t recs n N) as Hi' by (by destruct Hi; split).
  revert E. unfold shutdown, stop_fsync_thread. rewrite exec_bind_seq. unfold modify.
  rewrite exec_bind_gets. cbn [set_thread wal_null]. rewrite (life_null _ _ _ _ _ _ _ _ _ Hi). intros E.
  pose proof (life_snapshot_inv _ _ _ _ _ _ _ _ _ _ _ Hi' Hsz E) as [H1 H2 H3 H4 H5 H6 H7 H8 H9 H10 H11].
  destruct (wal_reopen _ _ _ H2) as [_ Eo].
  edestruct (restart_faithful config z' t') with (us := [] : list (Z * Mut)) as (w1 & m & Er & Hs & _ & Heq);
    [done|by eapply wf_new|exact Hnew|exact H4|exact Eo|exact H5|exact H6|constructor|].
  exists w1. split; [done|]. rewrite Heq in Hs; [|done]. cbn [p_live] in Hs. by rewrite age_age in Hs.
Qed.

(** ** Two defects *)

(** The engine after a shutdown that returned and a restart on its files. *)
Lemma shutdown_restart_files `{PlatformOk} config z w base us t os w' st os1 steady w0 z1 t1 w1 :
  lifetime config z w base us t → Z.of_nat (size (age (wall t) (p_live base us))) < 2 ^ 64 →
  shutdown config os (frozen t) w = (Ok tt, w') → wf st →
  new_engine config os1 steady (wal_file (wal_ w')) (snapshots w') st = Ok w0 →
  tick_ok z1 t1 → recover_into config calm (λ _, frozen t1) (λ _, frozen t1) w0 = (Ok tt, w1) →
  snapshot_of (snapshots w1) (last_offset_ (wal_ w)) (age (wall t) (p_live base us)) ∧
  wal_null w1 = false ∧ wf (store w1) ∧ last_offset_ (wal_ w1) = 0 ∧ wal_run (wal_ w1) [] 0.
Proof.
  intros Hlife Hsz E Hwf Hnew Ht1 Er. destruct (lifetime_inv _ _ _ _ _ _ Hlife) as (recs & n & N & Hi).
  assert (life_inv config z (set_thread false w) base us t recs n N) as Hi' by (by destruct Hi; split).
  revert E. unfold shutdown, stop_fsync_thread. rewrite exec_bind_seq. unfold modify.
  rewrite exec_bind_gets. cbn [set_thread wal_null]. rewrite (life_null _ _ _ _ _ _ _ _ _ Hi). intros E.
  pose proof (life_snapshot_inv _ _ _ _ _ _ _ _ _ _ _ Hi' Hsz E) as [H1 H2 H3 H4 H5 H6 H7 H8 H9 H10 H11].
  destruct (wal_reopen _ _ _ H2) as [_ Eo].
  apply new_engine_ok in Hnew as (Hst & Hnull & Hsn & Hw).
  edestruct (recover_stands config z1 t1 w0 (last_offset_ (wal_ w)) (age (wall t) (p_live base us)))
    as (w1' & Er' & Hs & Hwal & Hsn' & Hnull'); [done|by rewrite Hst|done|by rewrite Hsn|by rewrite Hw|constructor|constructor|].
  rewrite Er in Er'. injection Er' as <-. rewrite Hsn', Hsn. split_and!; [done|done|apply Hs|by rewrite Hwal|].
  rewrite Hwal. eapply (run_crash calm _ [] 0 (wal_file (wal_ w')) []); [exact H2| |exact Eo].
  split; [apply (inv_synced _ _ _ (wal_run_inv _ _ _ H2))|done].
Qed.

(** C33. A defect, in general.  Recovery leaves the log's offset at that of its last
    record, and not at that of the snapshot, so that after a shutdown and a restart
    the offsets start again at 1.  Whatever an engine that began on an empty data
    directory has done before - one record in its life is enough - the first [SET]
    that is acknowledged after the restart is in the store, whatever its key and
    value and also with [fsync = always], and the next recovery takes its record
    for one that the snapshot includes: it succeeds and gives the map of the
    moment of the shutdown. *)
Theorem restart_forgets_write `{PlatformOk} config z w base us t os w' n1 st1 os1 steady1 w0 z1 t1 w1
    os2 t2 k v w2 n2 st2 os3 steady2 w3 z3 t3 :
  lifetime config z w base us t → Z.of_nat (size (age (wall t) (p_live base us))) < 2 ^ 64 →
  0 < last_offset_ (wal_ w) → shutdown config os (frozen t) w = (Ok tt, w') →
  0 <= n1 → new_store n1 = Ok st1 →
  new_engine config os1 steady1 (wal_file (wal_ w')) (snapshots w') st1 = Ok w0 →
  tick_ok z1 t1 → recover_into config calm (λ _, frozen t1) (λ _, frozen t1) w0 = (Ok tt, w1) →
  valid_mut (MSet k v) → durable_set config os2 (frozen t2) k v w1 = (Ok tt, w2) →
  0 <= n2 → new_store n2 = Ok st2 →
  new_engine config os3 steady2 (wal_file (wal_ w2)) (snapshots w2) st2 = Ok w3 →
  tick_ok z3 t3 → wall t <= wall t3 →
  cell_value <$> view (mono t2) (store w2) !! k = Some (VString v) ∧
  (fsync config = always → wal_synced (wal_ w2) = wal_file (wal_ w2)) ∧
  ∃ w4, recover_into config calm (λ _, frozen t3) (λ _, frozen t3) w3 = (Ok tt, w4) ∧
    stands z3 t3 (store w4) (age (wall t3) (p_live base us)).
Proof.
  intros Hlife Hsz Hpos E Hn1 Hst1 Hnew1 Ht1 Er Hv Eset Hn2 Hst2 Hnew2 Ht3 Hle.
  destruct (shutdown_restart_files config z w base us t os w' st1 os1 steady1 w0 z1 t1 w1)
    as (Hsnap & Hnull & Hwf & Hlast & Hrun); try done; [exact (wf_new _ _ Hn1 Hst1)|].
  set (u := MSet k v) in *. set (f := λ st, (tt, set (frozen t2) st k (VString v) None)).
  destruct (durable_ok config os2 (mut_opcode u) (mut_payload u) f w1 tt w2 Hnull Eset)
    as (o & wal1 & wal2 & Ea & Es & _ & ->).
  assert (wal_run wal1 [{| offset := o; opcode := mut_opcode u; payload := mut_payload u |}] 0) as Hrun1.
  { eapply (run_append os2 _ [] 0); [exact Hrun|done|apply Hv|lia|exact Ea]. }
  destruct (append_ok _ _ _ _ _ _ Ea) as (Ho & _ & _). rewrite Hlast in Ho. change (u64 (0 + 1)) with 1 in Ho.
  assert (∃ m, wal_run wal2 [{| offset := o; opcode := mut_opcode u; payload := mut_payload u |}] m) as [m Hrun2].
  { case_decide; [eexists; eapply run_sync; [exact Hrun1|exact Es]|subst wal2; by eexists]. }
  destruct (wal_reopen _ _ _ Hrun2) as [_ Eo]. cbn [wal_ store snapshots set_store set_wal snd f] in *. split_and!.
  - destruct (set_refines (frozen t2) (store w1) k (VString v) None Hwf) as [_ Hview].
    change (mono (frozen t2 0%nat)) with (mono t2) in Hview. rewrite Hview. cbn [spec_set]. by rewrite lookup_insert_eq.
  - intros Ha. rewrite decide_True in Es by done. by destruct (sync_ok _ _ _ _ Es) as [_ ->].
  - edestruct (restart_faithful config z3 t3) with (us := [] : list (Z * Mut)) as (w4 & m4 & Er4 & Hs & _ & Heq);
      [exact Ht3|exact (wf_new _ _ Hn2 Hst2)|exact Hnew2|exact Hsnap|exact Eo| |constructor|constructor|].
    + rewrite filter_cons_False by (cbn [offset]; lia). constructor.
    + exists w4. split; [done|]. rewrite Heq in Hs; [|done]. cbn [p_live] in Hs. by rewrite age_age in Hs.
Qed.

(** An [EXPIRE] of a live key with a deadline to come. *)
Lemma p_apply_extend now m k v d ms :
  m !! k = Some (v, d) → now < from_unix_ms ms →
  p_apply now m (MExpire k ms) = <[k := (v, Some (from_unix_ms ms))]> m.
Proof.
  intros E Hlt. cbn [p_apply]. rewrite E. unfold p_put.
  replace (alive now _) with true by (unfold alive; cbn [snd]; lia). done.
Qed.

Lemma p_apply_extended now m k v d ms :
  m !! k = Some (v, d) → now < from_unix_ms ms →
  p_apply now m (MExpire k ms) !! k = Some (v, Some (from_unix_ms ms)).
Proof. intros E Hlt. rewrite (p_apply_extend _ _ _ _ _ _ E Hlt). apply lookup_insert_eq. Qed.

(** An [EXPIRE] of a live key with a deadline that has passed. *)
Lemma p_apply_late now m k v d ms :
  m !! k = Some (v, d) → from_unix_ms ms <= now → p_apply now m (MExpire k ms) = delete k m.
Proof.
  intros E Hle. cbn [p_apply]. rewrite E. unfold p_put.
  replace (alive now _) with false by (unfold alive; cbn [snd]; lia). done.
Qed.

(** C34. A defect, in general.  Recovery replays an [EXPIRE] whose deadline has
    passed by deleting the key, also when a later [EXPIRE] had extended the
    deadline.  Whatever an engine that began on an empty data directory has done
    before: when the last three commands set a key, gave it a deadline and, before
    that deadline, gave it a later one, and the process dies with everything
    synced and restarts between the two deadlines, then the key is still alive by
    the history that was acknowledged, and the map that is recovered does not have
    it. *)
Theorem replay_forgets_extension `{PlatformOk} config z w base us t k v a ms1 b ms2 c n' st' os0 steady w0 z' t' :
  let history := us ++ [(a, MSet k v); (b, MExpire k ms1); (c, MExpire k ms2)] in
  lifetime config z w base history t →
  a <= b → b <= c → c < from_unix_ms ms1 → from_unix_ms ms1 <= wall t' → wall t' < from_unix_ms ms2 →
  0 <= n' → new_store n' = Ok st' →
  new_engine config os0 steady (wal_file (wal_ w)) (snapshots w) st' = Ok w0 → tick_ok z' t' →
  age (wall t') (p_live base history) !! k = Some (VString v, Some (from_unix_ms ms2)) ∧
  ∃ w1 m, recover_into config calm (λ _, frozen t') (λ _, frozen t') w0 = (Ok tt, w1) ∧
    stands z' t' (store w1) m ∧ m !! k = None.
Proof.
  intros history Hlife Hab Hbc Hc Ht1 Ht2 Hn Hst Hnew Ht'. split.
  - apply age_some. split; [|unfold alive; cbn [snd]; lia]. unfold history.
    change [(a, MSet k v); (b, MExpire k ms1); (c, MExpire k ms2)]
      with ([(a, MSet k v)] ++ [(b, MExpire k ms1)] ++ [(c, MExpire k ms2)]).
    rewrite !app_assoc, !p_live_snoc. set (m0 := p_apply a _ (MSet k v)).
    assert (age b m0 !! k = Some (VString v, None)) as Hm0.
    { apply age_some. split; [|done]. apply lookup_insert_eq. }
    rewrite (p_apply_extend b _ k (VString v) None ms1 Hm0) by lia.
    apply p_apply_extended with (v := VString v) (d := Some (from_unix_ms ms1)); [|lia].
    apply age_some. split; [apply lookup_insert_eq|unfold alive; cbn [snd]; lia].
  - destruct (lifetime_inv _ _ _ _ _ _ Hlife) as (recs & n & N & [H1 H2 H3 H4 H5 H6 H7 H8 H9 H10 H11]).
    destruct (wal_reopen _ _ _ H2) as [_ Eo].
    apply new_engine_ok in Hnew as (Hst0 & Hnull & Hsn & Hw).
    edestruct (recover_stands config z' t' w0 N base recs) as (w1 & Er & Hs & _);
      [done|rewrite Hst0; exact (wf_new _ _ Hn Hst)|done|by rewrite Hsn|by rewrite Hw|exact H5|exact H6|].
    eexists w1, _. split; [exact Er|]. split; [exact Hs|]. unfold history, p_replay. rewrite fmap_app, fold_left_app.
    cbn [fmap list_fmap fold_left snd].
    rewrite (p_apply_late (wall t') _ k (VString v) None ms1) by (exact Ht1 || apply lookup_insert_eq). cbn [p_apply]. by rewrite !lookup_delete_eq.
Qed.

(** ** Concrete executions *)

Definition demo_config : PersistenceConfig :=
  {| data_dir := str "data"; fsync := always; snapshot_interval_seconds := 0 |}.

Definition demo_z : Z := - 1700000000000000000.

(** A process that starts on the files of the data directory: construction and
    recovery, on a store with one shard. *)
Definition boot (wal_bytes : bytes) (d : SnapshotFiles) (t : Tick) : option World :=
  match new_engine demo_config calm 0 wal_bytes d (demo_store 1) with
  | Ok w =>
      match @recover_into demo_platform demo_config calm (λ _, frozen t) (λ _, frozen t) w with
      | (Ok tt, w') => Some w'
      | _ => None
      end
  | Throw _ => None
  end.

(** The process dies, and another one starts on the same files. *)
Definition reboot (w : World) (t : Tick) : option World := boot (wal_file (wal_ w)) (snapshots w) t.

(** A command that was acknowledged. *)
Definition acked {A} (r : result A * World) : option World :=
  match r with (Ok _, w) => Some w | (Throw _, _) => None end.

Definition stored_value (w : World) (t : Tick) (k : bytes) : option Value :=
  fst (@get demo_platform (frozen t) (store w) k).

(** The defect of [restart_forgets_write], run.  Recovery leaves the log's offset at that of its last record,
    and not at that of the snapshot: after a shutdown and a restart the offsets
    start again at 1.  A write that is then acknowledged, and synced, is taken
    for one that the snapshot includes, and the next recovery drops it. *)
Theorem restart_drops_acknowledged_write :
  (w1 ← boot [] no_files (demo_tick 0);
   w2 ← acked (@durable_set demo_platform demo_config calm (frozen (demo_tick 1)) (str "k") (str "old") w1);
   w3 ← acked (@shutdown demo_platform demo_config calm (frozen (demo_tick 2)) w2);
   w4 ← reboot w3 (demo_tick 3);
   w5 ← acked (@durable_set demo_platform demo_config calm (frozen (demo_tick 4)) (str "k") (str "new") w4);
   w6 ← reboot w5 (demo_tick 5);
   Some (stored_value w5 (demo_tick 5) (str "k"), stored_value w6 (demo_tick 5) (str "k")))
  = Some (Some (VString (str "new")), Some (VString (str "old"))).
Proof. vm_compute. reflexivity. Qed.

(** The defect of [replay_forgets_extension], run.  Recovery replays an [EXPIRE] whose deadline has passed by
    deleting the key, also when a later [EXPIRE] had extended the deadline: the
    key is live when the process dies, and absent after the restart. *)
Theorem replay_drops_extended_key :
  (w1 ← boot [] no_files (demo_tick 0);
   w2 ← acked (@durable_set demo_platform demo_config calm (frozen (demo_tick 1)) (str "k") (str "v") w1);
   w3 ← acked (@durable_expire demo_platform demo_config calm (frozen (demo_tick 2)) (str "k") 10 w2);
   w4 ← acked (@durable_expire demo_platform demo_config calm (frozen (demo_tick 3)) (str "k") 100 w3);
   w5 ← reboot w4 (demo_tick 30);
   Some (stored_value w4 (demo_tick 30) (str "k"), stored_value w5 (demo_tick 30) (str "k")))
  = Some (Some (VString (str "v")), None).
Proof. vm_compute. reflexivity. Qed.

(** The header of the rotated log is cut short, as on a full disk. *)
Definition full_disk : Os :=
  {| sys_ok := λ _, true;
     os_writes := λ site, if String.eqb site "header" then [wrote 3; write_failed] else [wrote_all] |}.

(** A defect.  A snapshot whose rotation of the log fails leaves a log without
    its header, and the server, which ignores the exception, goes on appending to
    it: a write that is then acknowledged, and synced, is in a file that the next
    recovery does not take for a log and empties. *)
Theorem failed_rotation_drops_acknowledged_write :
  (w1 ← boot [] no_files (demo_tick 0);
   w2 ← acked (@durable_set demo_platform demo_config calm (frozen (demo_tick 1)) (str "k") (str "old") w1);
   w3 ← acked (ignore_errors (@snapshot_now demo_platform demo_config full_disk (frozen (demo_tick 2)) 0) w2);
   w4 ← acked (@durable_set demo_platform demo_config calm (frozen (demo_tick 3)) (str "k") (str "new") w3);
   w5 ← reboot w4 (demo_tick 4);
   Some (stored_value w4 (demo_tick 4) (str "k"), stored_value w5 (demo_tick 4) (str "k")))
  = Some (Some (VString (str "new")), Some (VString (str "old"))).
Proof. vm_compute. reflexivity. Qed.

(** *** The hypotheses of the claims *)

Definition demo_base_world : World :=
  {| wal_null := false;
     wal_ := {| fd_ := true; last_offset_ := 0; wal_file := log []; wal_synced := [] |};
     snapshots := no_files; store := clear (demo_store 1); fsync_thread := false;
     next_snapshot_at_ := 0 |}.

(** The world after one acknowledged [SET]. *)
Definition demo_world : World :=
  default demo_base_world
    (acked (@durable_set demo_platform demo_config calm (frozen (demo_tick 1)) (str "k") (str "v") demo_base_world)).

Lemma demo_tick_ok s : tick_ok demo_z (demo_tick s).
Proof. unfold tick_ok, demo_tick, wall_to_mono, demo_z. cbn. lia. Qed.

Lemma demo_lifetime :
  @lifetime demo_platform demo_config demo_z demo_world ∅
    [(wall (demo_tick 1), MSet (str "k") (str "v"))] (demo_tick 1).
Proof.
  apply (life_set demo_config demo_z calm demo_base_world ∅ [] (demo_tick 0) (demo_tick 1)).
  - apply (life_start demo_config demo_z calm 1 0 (demo_store 1)
      {| wal_null := false; wal_ := new_wal []; snapshots := no_files; store := demo_store 1;
         fsync_thread := false; next_snapshot_at_ := 0 |} (λ _, frozen (demo_tick 0)) (λ _, frozen (demo_tick 0)));
      [lia|reflexivity|reflexivity|vm_compute; reflexivity|apply demo_tick_ok].
  - apply demo_tick_ok.
  - vm_compute. discriminate.
  - apply (bool_decide_unpack _). vm_compute. exact I.
  - reflexivity.
  - vm_compute. reflexivity.
Qed.

Lemma engine_crash_recovery_witness :
  ∃ w0 w1 m, new_engine demo_config calm 0 (wal_file (wal_ demo_world)) (snapshots demo_world) (demo_store 1) = Ok w0 ∧
    @recover_into demo_platform demo_config calm (λ _, frozen (demo_tick 9)) (λ _, frozen (demo_tick 9)) w0
      = (Ok tt, w1) ∧
    @stands demo_platform demo_z (demo_tick 9) (store w1) m ∧ m = {[ str "k" := (VString (str "v"), None) ]}.
Proof.
  destruct (new_engine demo_config calm 0 (wal_file (wal_ demo_world)) (snapshots demo_world) (demo_store 1))
    as [w0|e] eqn:Hnew; [|discriminate].
  destruct (@engine_crash_recovery demo_platform demo_platform_ok demo_config demo_z demo_world ∅ _ (demo_tick 1)
    (wal_file (wal_ demo_world)) 1 (demo_store 1) calm 0 w0 demo_z (demo_tick 9) demo_lifetime)
    as (_ & j & w1 & m & _ & Hall & E & Hs & _ & Heq).
  - vm_compute. split; exists []; reflexivity.
  - lia.
  - reflexivity.
  - exact Hnew.
  - apply demo_tick_ok.
  - vm_compute. discriminate.
  - exists w0, w1, m. split; [reflexivity|]. split; [exact E|]. split; [exact Hs|].
    rewrite (Hall eq_refl) in Heq. rewrite Heq; [vm_compute; reflexivity|exact I].
Defined.

(** The rename of the snapshot succeeds and the truncation of the log fails. *)
Lemma snapshot_interruption_harmless_witness :
  let os := {| sys_ok := λ op, negb (String.eqb op "ftruncate(WAL rotate)"); os_writes := λ _, [wrote_all] |} in
  let w' := snd (@export_write_truncate demo_platform demo_config os (frozen (demo_tick 1)) demo_world) in
  ∃ w0 w1 m, new_engine demo_config calm 0 (wal_file (wal_ w')) (snapshots w') (demo_store 1) = Ok w0 ∧
    @recover_into demo_platform demo_config calm (λ _, frozen (demo_tick 9)) (λ _, frozen (demo_tick 9)) w0
      = (Ok tt, w1) ∧ @stands demo_platform demo_z (demo_tick 9) (store w1) m.
Proof.
  intros os w'.
  destruct (new_engine demo_config calm 0 (wal_file (wal_ w')) (snapshots w') (demo_store 1)) as [w0|e] eqn:Hnew;
    [|discriminate].
  destruct (@snapshot_interruption_harmless demo_platform demo_platform_ok demo_config demo_z demo_world ∅ _
    (demo_tick 1) os (fst (@export_write_truncate demo_platform demo_config os (frozen (demo_tick 1)) demo_world))
    w' 1 (demo_store 1) calm 0 w0 demo_z (demo_tick 9) demo_lifetime) as (w1 & m & E & Hs & _).
  - vm_compute. reflexivity.
  - unfold w'. by destruct (export_write_truncate _ _ _ _).
  - lia.
  - reflexivity.
  - exact Hnew.
  - apply demo_tick_ok.
  - vm_compute. discriminate.
  - exists w0, w1, m. split; [reflexivity|]. split; [exact E|exact Hs].
Defined.

Lemma shutdown_restart_exact_witness :
  let w' := snd (@shutdown demo_platform demo_config calm (frozen (demo_tick 1)) demo_world) in
  ∃ w0 w1, new_engine demo_config calm 0 (wal_file (wal_ w')) (snapshots w') (demo_store 1) = Ok w0 ∧
    @recover_into demo_platform demo_config calm (λ _, frozen (demo_tick 9)) (λ _, frozen (demo_tick 9)) w0
      = (Ok tt, w1) ∧
    @stands demo_platform demo_z (demo_tick 9) (store w1) {[ str "k" := (VString (str "v"), None) ]}.
Proof.
  intros w'.
  destruct (new_engine demo_config calm 0 (wal_file (wal_ w')) (snapshots w') (demo_store 1)) as [w0|e] eqn:Hnew;
    [|discriminate].
  destruct (@shutdown_restart_exact demo_platform demo_platform_ok demo_config demo_z demo_world ∅ _
    (demo_tick 1) calm w' 1 (demo_store 1) calm 0 w0 demo_z (demo_tick 9) demo_lifetime) as (w1 & E & Hs).
  - vm_compute. reflexivity.
  - vm_compute. reflexivity.
  - lia.
  - reflexivity.
  - exact Hnew.
  - apply demo_tick_ok.
  - vm_compute. discriminate.
  - exists w0, w1. split; [reflexivity|]. split; [exact E|].
    match type of Hs with stands _ _ _ ?m => replace m with
      ({[ str "k" := (VString (str "v"), None) ]} : PMap) in Hs by (vm_compute; reflexivity) end.
    exact Hs.
Defined.

(** A value out of a result that is known to be [Ok]. *)
Definition made {A} (d : A) (r : result A) : A := match r with Ok x => x | Throw _ => d end.

(** A shutdown and a restart after one acknowledged [SET], then another [SET] of
    the same key: the next recovery brings back the first value. *)
Lemma restart_forgets_write_witness :
  let w' := snd (@shutdown demo_platform demo_config calm (frozen (demo_tick 1)) demo_world) in
  let w0 := made demo_world (new_engine demo_config calm 0 (wal_file (wal_ w')) (snapshots w') (demo_store 1)) in
  let w1 := snd (@recover_into demo_platform demo_config calm (λ _, frozen (demo_tick 3)) (λ _, frozen (demo_tick 3)) w0) in
  let w2 := snd (@durable_set demo_platform demo_config calm (frozen (demo_tick 4)) (str "k") (str "new") w1) in
  let w3 := made demo_world (new_engine demo_config calm 0 (wal_file (wal_ w2)) (snapshots w2) (demo_store 1)) in
  cell_value <$> view (mono (demo_tick 4)) (store w2) !! str "k" = Some (VString (str "new")) ∧
  wal_synced (wal_ w2) = wal_file (wal_ w2) ∧
  ∃ w4, @recover_into demo_platform demo_config calm (λ _, frozen (demo_tick 5)) (λ _, frozen (demo_tick 5)) w3
          = (Ok tt, w4) ∧
    @stands demo_platform demo_z (demo_tick 5) (store w4) {[ str "k" := (VString (str "v"), None) ]}.
Proof.
  intros w' w0 w1 w2 w3.
  destruct (@restart_forgets_write demo_platform demo_platform_ok demo_config demo_z demo_world ∅ _ (demo_tick 1)
    calm w' 1 (demo_store 1) calm 0 w0 demo_z (demo_tick 3) w1 calm (demo_tick 4) (str "k") (str "new") w2
    1 (demo_store 1) calm 0 w3 demo_z (demo_tick 5) demo_lifetime) as (Hget & Hsync & w4 & E & Hs).
  - vm_compute. reflexivity.
  - vm_compute. reflexivity.
  - vm_compute. reflexivity.
  - lia.
  - reflexivity.
  - vm_compute. reflexivity.
  - apply demo_tick_ok.
  - vm_compute. reflexivity.
  - apply (bool_decide_unpack _). vm_compute. exact I.
  - vm_compute. reflexivity.
  - lia.
  - reflexivity.
  - vm_compute. reflexivity.
  - apply demo_tick_ok.
  - vm_compute. discriminate.
  - split; [exact Hget|]. split; [exact (Hsync eq_refl)|]. exists w4. split; [exact E|].
    match type of Hs with stands _ _ _ ?m => replace m with
      ({[ str "k" := (VString (str "v"), None) ]} : PMap) in Hs by (vm_compute; reflexivity) end.
    exact Hs.
Defined.

(** The key gets ten seconds, then a hundred, and the process restarts after
    thirty. *)
Definition demo_expired (s ttl : Z) (w : World) : World :=
  snd (@durable_expire demo_platform demo_config calm (frozen (demo_tick s)) (str "k") ttl w).

Definition demo_extended : World := demo_expired 3 100 (demo_expired 2 10 demo_world).

Definition demo_deadline (s : Z) : Z := to_unix_ms (wall (demo_tick s)).

Lemma demo_extended_lifetime :
  @lifetime demo_platform demo_config demo_z demo_extended ∅
    [(wall (demo_tick 1), MSet (str "k") (str "v")); (wall (demo_tick 2), MExpire (str "k") (demo_deadline 12));
     (wall (demo_tick 3), MExpire (str "k") (demo_deadline 103))] (demo_tick 3).
Proof.
  pose proof (@life_expire demo_platform demo_config demo_z calm demo_world ∅ _ (demo_tick 1) (demo_tick 2)
    (str "k") 10 true (demo_expired 2 10 demo_world) demo_lifetime (demo_tick_ok 2)) as H1.
  cbv zeta in H1. replace (to_unix_ms _) with (demo_deadline 12) in H1 by (vm_compute; reflexivity).
  assert (H2 := λ a b c d, @life_expire demo_platform demo_config demo_z calm _ ∅ _ (demo_tick 2) (demo_tick 3)
    (str "k") 100 true demo_extended (H1 a b c d) (demo_tick_ok 3)).
  cbv zeta in H2. replace (to_unix_ms _) with (demo_deadline 103) in H2 by (vm_compute; reflexivity).
  apply H2; first [vm_compute; discriminate | vm_compute; reflexivity
    | apply (bool_decide_unpack _); vm_compute; exact I].
Qed.

Lemma replay_forgets_extension_witness :
  let w0 := made demo_world
    (new_engine demo_config calm 0 (wal_file (wal_ demo_extended)) (snapshots demo_extended) (demo_store 1)) in
  ∃ w1 m, @recover_into demo_platform demo_config calm (λ _, frozen (demo_tick 30)) (λ _, frozen (demo_tick 30)) w0
            = (Ok tt, w1) ∧
    @stands demo_platform demo_z (demo_tick 30) (store w1) m ∧ m !! str "k" = None.
Proof.
  intros w0.
  refine (proj2 (@replay_forgets_extension demo_platform demo_platform_ok demo_config demo_z demo_extended ∅ [] (demo_tick 3)
    (str "k") (str "v") (wall (demo_tick 1)) (demo_deadline 12) (wall (demo_tick 2)) (demo_deadline 103)
    (wall (demo_tick 3)) 1 (demo_store 1) calm 0 w0 demo_z (demo_tick 30) demo_extended_lifetime _ _ _ _ _ _ _ _ _)).
  - vm_compute. discriminate.
  - vm_compute. discriminate.
  - vm_compute. reflexivity.
  - vm_compute. discriminate.
  - vm_compute. reflexivity.
  - lia.
  - reflexivity.
  - vm_compute. reflexivity.
  - apply demo_tick_ok.
Defined.
