(* ===== verification/Stats.v ===== *)
(** * Statistics

    [include/novacache/server/stats.hpp] and [src/server/stats.cpp]: nine
    64-bit counters that wrap around, and the text of [INFO]. *)

From S2P Require Import Prelude CharConv.

Record Stats := {
  accepted_connections_ : Z;
  active_connections_ : Z;
  total_commands_ : Z;
  command_errors_ : Z;
  bytes_in_ : Z;
  bytes_out_ : Z;
  stat_expired_keys_ : Z;
  evicted_keys_ : Z;
  used_memory_ : Z;
}.

Definition new_stats : Stats :=
  {| accepted_connections_ := 0; active_connections_ := 0; total_commands_ := 0; command_errors_ := 0;
     bytes_in_ := 0; bytes_out_ := 0; stat_expired_keys_ := 0; evicted_keys_ := 0; used_memory_ := 0 |}.

Definition on_accept (s : Stats) : Stats :=
  {| accepted_connections_ := u64 (accepted_connections_ s + 1);
     active_connections_ := u64 (active_connections_ s + 1);
     total_commands_ := total_commands_ s; command_errors_ := command_errors_ s;
     bytes_in_ := bytes_in_ s; bytes_out_ := bytes_out_ s; stat_expired_keys_ := stat_expired_keys_ s;
     evicted_keys_ := evicted_keys_ s; used_memory_ := used_memory_ s |}.

Definition on_disconnect (s : Stats) : Stats :=
  {| accepted_connections_ := accepted_connections_ s;
     active_connections_ := u64 (active_connections_ s - 1);
     total_commands_ := total_commands_ s; command_errors_ := command_errors_ s;
     bytes_in_ := bytes_in_ s; bytes_out_ := bytes_out_ s; stat_expired_keys_ := stat_expired_keys_ s;
     evicted_keys_ := evicted_keys_ s; used_memory_ := used_memory_ s |}.

Definition on_command (error : bool) (s : Stats) : Stats :=
  {| accepted_connections_ := accepted_connections_ s; active_connections_ := active_connections_ s;
     total_commands_ := u64 (total_commands_ s + 1);
     command_errors_ := if error then u64 (command_errors_ s + 1) else command_errors_ s;
     bytes_in_ := bytes_in_ s; bytes_out_ := bytes_out_ s; stat_expired_keys_ := stat_expired_keys_ s;
     evicted_keys_ := evicted_keys_ s; used_memory_ := used_memory_ s |}.

Definition add_bytes_in (n : Z) (s : Stats) : Stats :=
  {| accepted_connections_ := accepted_connections_ s; active_connections_ := active_connections_ s;
     total_commands_ := total_commands_ s; command_errors_ := command_errors_ s;
     bytes_in_ := u64 (bytes_in_ s + n); bytes_out_ := bytes_out_ s;
     stat_expired_keys_ := stat_expired_keys_ s; evicted_keys_ := evicted_keys_ s;
     used_memory_ := used_memory_ s |}.

Definition add_bytes_out (n : Z) (s : Stats) : Stats :=
  {| accepted_connections_ := accepted_connections_ s; active_connections_ := active_connections_ s;
     total_commands_ := total_commands_ s; command_errors_ := command_errors_ s;
     bytes_in_ := bytes_in_ s; bytes_out_ := u64 (bytes_out_ s + n);
     stat_expired_keys_ := stat_expired_keys_ s; evicted_keys_ := evicted_keys_ s;
     used_memory_ := used_memory_ s |}.

Definition add_expired_keys (n : Z) (s : Stats) : Stats :=
  {| accepted_connections_ := accepted_connections_ s; active_connections_ := active_connections_ s;
     total_commands_ := total_commands_ s; command_errors_ := command_errors_ s;
     bytes_in_ := bytes_in_ s; bytes_out_ := bytes_out_ s;
     stat_expired_keys_ := u64 (stat_expired_keys_ s + n); evicted_keys_ := evicted_keys_ s;
     used_memory_ := used_memory_ s |}.

Definition add_evicted (n : Z) (s : Stats) : Stats :=
  {| accepted_connections_ := accepted_connections_ s; active_connections_ := active_connections_ s;
     total_commands_ := total_commands_ s; command_errors_ := command_errors_ s;
     bytes_in_ := bytes_in_ s; bytes_out_ := bytes_out_ s; stat_expired_keys_ := stat_expired_keys_ s;
     evicted_keys_ := u64 (evicted_keys_ s + n); used_memory_ := used_memory_ s |}.

Definition set_used_memory (n : Z) (s : Stats) : Stats :=
  {| accepted_connections_ := accepted_connections_ s; active_connections_ := active_connections_ s;
     total_commands_ := total_commands_ s; command_errors_ := command_errors_ s;
     bytes_in_ := bytes_in_ s; bytes_out_ := bytes_out_ s; stat_expired_keys_ := stat_expired_keys_ s;
     evicted_keys_ := evicted_keys_ s; used_memory_ := n |}.

(** [name:value] and the end of the line; [operator<<] prints a number in
    decimal. *)
(** The readings of the counters. *)
Definition accepted_connections (s : Stats) : Z := accepted_connections_ s.
Definition active_connections (s : Stats) : Z := active_connections_ s.
Definition total_commands (s : Stats) : Z := total_commands_ s.
Definition command_errors (s : Stats) : Z := command_errors_ s.
Definition bytes_in (s : Stats) : Z := bytes_in_ s.
Definition bytes_out (s : Stats) : Z := bytes_out_ s.
Definition stat_expired_keys (s : Stats) : Z := stat_expired_keys_ s.
Definition evicted_keys (s : Stats) : Z := evicted_keys_ s.
Definition used_memory (s : Stats) : Z := used_memory_ s.

Definition info_line (name : string) (value : bytes) : bytes := str name ++ value ++ crlf.

Definition render_info (s : Stats) (version : bytes) (tcp_port worker_count shard_count : Z) : bytes :=
  str "# Server" ++ crlf ++
  info_line "novacache_version:" version ++
  info_line "tcp_port:" (to_chars tcp_port) ++
  str "io_threads:1" ++ crlf ++
  info_line "worker_threads:" (to_chars worker_count) ++
  info_line "shard_count:" (to_chars shard_count) ++
  crlf ++
  str "# Clients" ++ crlf ++
  info_line "connected_clients:" (to_chars (active_connections_ s)) ++
  info_line "total_connections_received:" (to_chars (accepted_connections_ s)) ++
  crlf ++
  str "# Stats" ++ crlf ++
  info_line "total_commands_processed:" (to_chars (total_commands_ s)) ++
  info_line "total_error_replies:" (to_chars (command_errors_ s)) ++
  info_line "total_net_input_bytes:" (to_chars (bytes_in_ s)) ++
  info_line "total_net_output_bytes:" (to_chars (bytes_out_ s)) ++
  info_line "expired_keys:" (to_chars (stat_expired_keys_ s)) ++
  info_line "evicted_keys:" (to_chars (evicted_keys_ s)) ++
  crlf ++
  str "# Memory" ++ crlf ++
  info_line "used_memory:" (to_chars (used_memory_ s)).

(** ** Connections *)

(** Accepts ([true]) and disconnects ([false]), in order; no more disconnects
    than accepts at any point. *)
Fixpoint balanced (open : Z) (events : list bool) : Prop :=
  match events with
  | [] => True
  | true :: es => balanced (open + 1) es
  | false :: es => 0 < open ∧ balanced (open - 1) es
  end.

Definition connection_event (s : Stats) (accept : bool) : Stats :=
  if accept then on_accept s else on_disconnect s.

Definition opened (events : list bool) : Z := len (filter (λ b, b = true) events).
Definition closed (events : list bool) : Z := len (filter (λ b, b = false) events).

Lemma connection_counts events : ∀ s open total,
  active_connections_ s = open → accepted_connections_ s = total →
  0 <= open → 0 <= total → open + len events < 2 ^ 64 → total + len events < 2 ^ 64 → balanced open events →
  active_connections_ (fold_left connection_event events s) = open + opened events - closed events ∧
  accepted_connections_ (fold_left connection_event events s) = total + opened events.
Proof.
  induction events as [|b events IH]; intros s open total Ho Ht H1 H2 H3 H4 Hb.
  - cbn. unfold opened, closed. rewrite !filter_nil, len_nil. lia.
  - rewrite len_cons in H3, H4. pose proof (len_nonneg events). unfold opened, closed in *.
    destruct b; cbn [fold_left connection_event balanced] in *.
    + destruct (IH (on_accept s) (open + 1) (total + 1)) as [-> ->]; try lia; [| |done|];
        try (cbn; rewrite ?Ho, ?Ht; apply u64_id; unfold is_u64; lia).
      rewrite filter_cons_True, filter_cons_False, len_cons by done. lia.
    + destruct Hb as [Hpos Hb].
      destruct (IH (on_disconnect s) (open - 1) total) as [-> ->]; try lia; [|done|done|];
        try (cbn; rewrite ?Ho, ?Ht; apply u64_id; unfold is_u64; lia).
      rewrite (filter_cons_False (λ b, b = true)), (filter_cons_True (λ b, b = false)), len_cons by done. lia.
Qed.

(** The connection counters never go wrong: after any sequence of accepts
    and disconnects, with no more disconnects than accepts at any point,
    [connected_clients] is the number of open connections - the unsigned
    counter never wraps below zero - and [total_connections_received] is the
    number of accepts. *)
Theorem connection_counters_exact events :
  balanced 0 events → len events < 2 ^ 64 →
  let s := fold_left connection_event events new_stats in
  active_connections_ s = opened events - closed events ∧ accepted_connections_ s = opened events.
Proof.
  intros Hb Hl s. unfold s. destruct (connection_counts events new_stats 0 0) as [-> ->]; try done; lia.
Qed.

Lemma connection_counters_exact_witness :
  active_connections_ (fold_left connection_event [true; true; false; true] new_stats) = 2.
Proof.
  rewrite (proj1 (connection_counters_exact [true; true; false; true] ltac:(cbn; lia) ltac:(reflexivity))).
  reflexivity.
Defined.
