(* ===== verification/Registry.v ===== *)
(** * The command registry

    [include/novacache/commands/registry.hpp] and
    [src/commands/registry.cpp]: the table of commands, their handlers and the
    dispatch of a request.  A handler runs on the [CommandContext]; the
    environment gives the readings of the clocks and the outcomes of the system
    calls of the one command. *)

From S2P Require Import Prelude CharConv Resp Disk Store Engine Stats.

Definition wrong_arity : bytes := str "ERR wrong number of arguments".
Definition invalid_integer : bytes := str "ERR value is not an integer or out of range".
Definition wrong_type : bytes := str "WRONGTYPE Operation against a key holding the wrong kind of value".

(** ** Helpers *)

Definition upper (c : byte) : byte :=
  if (97 <=? byte_val c) && (byte_val c <=? 122) then byte_of (byte_val c - 97 + 65) else c.

Definition normalize (name : bytes) : bytes := map upper name.

Definition parse_int64 (text : bytes) : option Z :=
  match text with
  | [] => None
  | c :: _ =>
      if bool_decide (c = "+"%byte) then None
      else match from_chars_i64 text with
           | fc_ok value ptr => if bool_decide (ptr = length text) then Some value else None
           | _ => None
           end
  end.

(** [steady_clock::time_point::max()] in nanoseconds. *)
Definition steady_max : Z := 2 ^ 63 - 1.

Definition expiration_is_representable (steady seconds : Z) : bool :=
  if seconds <=? 0 then true
  else seconds <=? mono_to_seconds (steady_max - steady).

(** [arguments[index]]: reading outside the vector has no defined meaning. *)
Definition arg (arguments : list bytes) (index : nat) : result bytes :=
  match arguments !! index with
  | Some a => Ok a
  | None => Throw (undefined_behaviour "vector index out of range")
  end.

(** ** The context *)

Inductive CommandAccess := read_only | write.

#[export] Instance CommandAccess_eq_decision : EqDecision CommandAccess.
Proof. solve_decision. Defined.

Record CommandMetadata := {
  name : bytes;
  minimum_arity : Z;
  maximum_arity : Z;
  access : CommandAccess;
  persistent : bool;
  replicated : bool;
}.

(** The store is a part of the engine's world; [persistence] tells whether the
    pointer to the engine is set. *)
Record CommandContext := {
  world : World;
  persistence : bool;
  stats : option Stats;
  version : bytes;
  tcp_port : Z;
  worker_count : Z;
}.

Definition set_world (w : World) (c : CommandContext) : CommandContext :=
  {| world := w; persistence := persistence c; stats := stats c; version := version c;
     tcp_port := tcp_port c; worker_count := worker_count c |}.

Record Env := { env_os : Os; env_clk : Clock; env_steady : Z }.

Abbreviation Handler := (Env → list bytes → Exec CommandContext RespValue).

Abbreviation Commands := (gmap bytes (CommandMetadata * Handler)).

Section Registry.
Context `{Platform} (config : PersistenceConfig).

Definition on_store {A} (f : Store → A * Store) : Exec CommandContext A := zoom world set_world (with_store f).
Definition on_engine {A} (m : Exec World A) : Exec CommandContext A := zoom world set_world m.

(** ** Handlers *)

Definition ping : Handler := λ env arguments,
  if len arguments =? 1 then ret (SimpleString (str "PONG"))
  else do! message := lift (arg arguments 1) in ret (BulkString (Some message)).

Definition echo : Handler := λ env arguments,
  do! message := lift (arg arguments 1) in ret (BulkString (Some message)).

Definition cmd_set : Handler := λ env arguments,
  do! key := lift (arg arguments 1) in
  do! v := lift (arg arguments 2) in
  do! durable := gets persistence in
  (if durable then on_engine (durable_set config (env_os env) (env_clk env) key v)
   else on_store (λ st, (tt, set (env_clk env) st key (VString v) None))) ;;
  ret (SimpleString (str "OK")).

Definition cmd_get : Handler := λ env arguments,
  do! key := lift (arg arguments 1) in
  do! v := on_store (λ st, get (env_clk env) st key) in
  ret match v with
      | None => BulkString None
      | Some (VString string) => BulkString (Some string)
      | Some _ => Error wrong_type
      end.

Definition cmd_del : Handler := λ env arguments,
  let keys := tail arguments in
  do! durable := gets persistence in
  do! removed :=
    (if durable then on_engine (durable_del config (env_os env) (env_clk env) keys)
     else on_store (λ st, del_many (env_clk env) st keys)) in
  ret (Integer (i64 removed)).

Definition cmd_exists : Handler := λ env arguments,
  do! count := on_store (λ st, exists_many (env_clk env) st (tail arguments)) in
  ret (Integer (i64 count)).

(** Signed overflow in the computation of a deadline. *)
Definition deadline_overflow : exn := undefined_behaviour "signed overflow of a deadline".

Definition cmd_expire : Handler := λ env arguments,
  do! text := lift (arg arguments 2) in
  match parse_int64 text with
  | Some seconds =>
      if negb (expiration_is_representable (env_steady env) seconds) then ret (Error invalid_integer)
      else
        do! key := lift (arg arguments 1) in
        do! overflows := gets (λ c,
          (if persistence c then durable_expire_overflows else expire_overflows)
            (env_clk env) (store (world c)) key seconds) in
        if overflows then raise deadline_overflow else
        do! durable := gets persistence in
        do! changed :=
          (if durable then on_engine (durable_expire config (env_os env) (env_clk env) key seconds)
           else on_store (λ st, expire (env_clk env) st key seconds)) in
        ret (Integer (if changed then 1 else 0))
  | None => ret (Error invalid_integer)
  end.

Definition cmd_ttl : Handler := λ env arguments,
  do! key := lift (arg arguments 1) in
  do! seconds := on_store (λ st, ttl (env_clk env) st key) in
  ret (Integer seconds).

Definition cmd_keys : Handler := λ env arguments,
  do! pattern := lift (arg arguments 1) in
  do! result := on_store (λ st, keys (env_clk env) st pattern) in
  ret match keys_status result with
      | keys_ok => Array (Some (map (λ key, BulkString (Some key)) (keys_keys result)))
      | _ => Error (str "ERR unsupported pattern")
      end.

Definition info : Handler := λ env arguments,
  do! c := gets id in
  ret match stats c with
      | None => BulkString (Some [])
      | Some s =>
          BulkString (Some (render_info s (version c) (tcp_port c) (worker_count c)
            (shard_count (store (world c)))))
      end.

(** ** The table *)

(** [emplace] keeps an entry that is already there. *)
Definition add (commands : Commands) (nm : string) (minimum maximum : Z) (acc : CommandAccess)
    (handler : Handler) : Commands :=
  let key := normalize (str nm) in
  let mutating := bool_decide (acc = write) in
  match commands !! key with
  | Some _ => commands
  | None =>
      <[key := ({| name := str nm; minimum_arity := minimum; maximum_arity := maximum; access := acc;
                   persistent := mutating; replicated := mutating |}, handler)]> commands
  end.

Definition size_max : Z := 2 ^ 64 - 1.

(** [Registry::Registry]. *)
Definition commands_ : Commands :=
  let c := add ∅ "PING" 1 2 read_only ping in
  let c := add c "ECHO" 2 2 read_only echo in
  let c := add c "SET" 3 3 write cmd_set in
  let c := add c "GET" 2 2 read_only cmd_get in
  let c := add c "DEL" 2 size_max write cmd_del in
  let c := add c "EXISTS" 2 size_max read_only cmd_exists in
  let c := add c "EXPIRE" 3 3 write cmd_expire in
  let c := add c "TTL" 2 2 read_only cmd_ttl in
  let c := add c "KEYS" 2 2 read_only cmd_keys in
  let c := add c "INFO" 1 2 read_only info in
  c.

Definition metadata (nm : bytes) : option CommandMetadata := fst <$> commands_ !! normalize nm.

(** ** Dispatch *)

Fixpoint extract_items (items : list RespValue) : option (list bytes) :=
  match items with
  | [] => Some []
  | BulkString (Some a) :: items' => a' ← extract_items items'; Some (a :: a')
  | _ :: _ => None
  end.

Definition extract_arguments (request : RespValue) : option (list bytes) :=
  match request with
  | Array (Some ((_ :: _) as items)) => extract_items items
  | _ => None
  end.

Definition execute (env : Env) (request : RespValue) : Exec CommandContext RespValue :=
  match extract_arguments request with
  | None => ret (Error (str "ERR Protocol error"))
  | Some arguments =>
      do! first := lift (arg arguments 0) in
      match commands_ !! normalize first with
      | None => ret (Error (str "ERR unknown command"))
      | Some (meta, handler) =>
          if (len arguments <? minimum_arity meta) || (len arguments >? maximum_arity meta)
          then ret (Error wrong_arity)
          else handler env arguments
      end
  end.

(** The overload on a store: no engine, no statistics. *)
Definition store_context (st : Store) : CommandContext :=
  {| world := volatile_world st; persistence := false; stats := None; version := str "0.1.0"; tcp_port := 0;
     worker_count := 0 |}.

Definition execute_on_store (env : Env) (request : RespValue) : Exec Store RespValue := λ st,
  let '(r, c) := execute env request (store_context st) in (r, store (world c)).

Definition dispatch (env : Env) (request : RespValue) : Exec CommandContext RespValue := execute env request.
End Registry.
