(* ===== verification/RegistryProps.v ===== *)
(** * Properties of the command registry

    [interpret] reads a request as a command without the table of handlers;
    the registry implements it on the abstract map.  Every reply can be
    encoded, malformed requests change nothing, and a mutation is acknowledged
    only when it is in the log. *)

From S2P Require Import Prelude CharConv Resp Disk Wal WalCorrect WalProps Store StoreInv.
From S2P Require Import StoreSpec StoreCorrect StoreTheorems Snapshot SnapshotCorrect Engine.
From S2P Require Import EngineSpec EngineCorrect Stats Registry.

(** ** Commands *)

Inductive Action :=
| Answer (r : RespValue)
| Run (op : Op) (render : Reply → RespValue)
| Info.

Definition render_ok (r : Reply) : RespValue := SimpleString (str "OK").

Definition render_value (r : Reply) : RespValue :=
  match r with
  | RValue None => BulkString None
  | RValue (Some (VString s)) => BulkString (Some s)
  | _ => Error wrong_type
  end.

Definition render_count (r : Reply) : RespValue := Integer (match r with RInt n => i64 n | _ => 0 end).
Definition render_ttl (r : Reply) : RespValue := Integer (match r with RInt n => n | _ => 0 end).
Definition render_bool (r : Reply) : RespValue := Integer (match r with RBool true => 1 | _ => 0 end).

Definition render_keys (r : Reply) : RespValue :=
  match r with
  | RKeys keys_ok ks => Array (Some (map (λ k, BulkString (Some k)) ks))
  | _ => Error (str "ERR unsupported pattern")
  end.

(** The command that a name and its arguments denote. *)
Definition command (steady : Z) (nm : bytes) (args : list bytes) : Action :=
  let arity := Answer (Error wrong_arity) in
  if decide (nm = str "PING") then
    match args with
    | [] => Answer (SimpleString (str "PONG"))
    | [m] => Answer (BulkString (Some m))
    | _ => arity
    end
  else if decide (nm = str "ECHO") then match args with [m] => Answer (BulkString (Some m)) | _ => arity end
  else if decide (nm = str "SET") then
    match args with [k; v] => Run (OpSet k (VString v) None) render_ok | _ => arity end
  else if decide (nm = str "GET") then match args with [k] => Run (OpGet k) render_value | _ => arity end
  else if decide (nm = str "DEL") then
    match args with [] => arity | ks => if len ks <? size_max then Run (OpDelMany ks) render_count else arity end
  else if decide (nm = str "EXISTS") then
    match args with [] => arity | ks => if len ks <? size_max then Run (OpExistsMany ks) render_count else arity end
  else if decide (nm = str "EXPIRE") then
    match args with
    | [k; text] =>
        match parse_int64 text with
        | Some seconds =>
            if expiration_is_representable steady seconds then Run (OpExpire k seconds) render_bool
            else Answer (Error invalid_integer)
        | None => Answer (Error invalid_integer)
        end
    | _ => arity
    end
  else if decide (nm = str "TTL") then match args with [k] => Run (OpTtl k) render_ttl | _ => arity end
  else if decide (nm = str "KEYS") then match args with [p] => Run (OpKeys p) render_keys | _ => arity end
  else if decide (nm = str "INFO") then match args with [] | [_] => Info | _ => arity end
  else Answer (Error (str "ERR unknown command")).

Definition interpret (steady : Z) (request : RespValue) : Action :=
  match extract_arguments request with
  | Some (nm :: args) => command steady (normalize nm) args
  | _ => Answer (Error (str "ERR Protocol error"))
  end.

(** The mutation that the request stands for in the log. *)
Definition mutation_of (steady wall_now : Z) (request : RespValue) : option Mut :=
  match interpret steady request with
  | Run (OpSet k (VString v) None) _ => Some (MSet k v)
  | Run (OpDelMany ks) _ => Some (MDel ks)
  | Run (OpExpire k seconds) _ =>
      Some (MExpire k (to_unix_ms (if seconds >? 0 then wall_now + seconds_to_wall seconds else wall_now)))
  | _ => None
  end.

(** ** The table *)

Lemma extract_items_length items : ∀ args, extract_items items = Some args → length args = length items.
Proof.
  induction items as [|i items IH]; intros args; cbn [extract_items]; [by intros [= <-]|].
  destruct i as [| | |[a|]|]; try done. destruct (extract_items items) as [a'|]; [|done].
  intros [= <-]. cbn [length]. f_equal. by apply IH.
Qed.

Lemma extract_nonempty request args : extract_arguments request = Some args → args ≠ [].
Proof.
  destruct request as [| | | |[[|i items]|]]; try done.
  change (extract_arguments _) with (extract_items (i :: items)). intros E.
  apply (extract_items_length (i :: items)) in E. destruct args; [discriminate E|done].
Qed.

Section Table.
Context `{Platform} (config : PersistenceConfig).

Lemma add_lookup_ne c nm lo hi acc h n :
  n ≠ normalize (str nm) → add c nm lo hi acc h !! n = c !! n.
Proof.
  intros Hn. unfold add. destruct (c !! normalize (str nm)); [done|]. by rewrite lookup_insert_ne.
Qed.

Lemma add_lookup_eq c nm lo hi acc h :
  c !! normalize (str nm) = None →
  add c nm lo hi acc h !! normalize (str nm) =
  Some ({| name := str nm; minimum_arity := lo; maximum_arity := hi; access := acc;
           persistent := bool_decide (acc = write); replicated := bool_decide (acc = write) |}, h).
Proof. intros Hn. unfold add. rewrite Hn. apply lookup_insert_eq. Qed.

(** An entry of the table, by its arity and handler. *)
Definition entry_is (nm : bytes) (lo hi : Z) (h : Handler) : Prop :=
  ∃ meta, commands_ config !! nm = Some (meta, h) ∧ minimum_arity meta = lo ∧ maximum_arity meta = hi.

Ltac table_entry :=
  eexists; split;
    [unfold commands_; repeat (rewrite add_lookup_ne by (vm_compute; discriminate));
     apply (add_lookup_eq _); repeat (rewrite add_lookup_ne by (vm_compute; discriminate)); apply lookup_empty
    |done].

Lemma entry_ping : entry_is (str "PING") 1 2 ping.
Proof. table_entry. Qed.
Lemma entry_echo : entry_is (str "ECHO") 2 2 echo.
Proof. table_entry. Qed.
Lemma entry_set : entry_is (str "SET") 3 3 (cmd_set config).
Proof. table_entry. Qed.
Lemma entry_get : entry_is (str "GET") 2 2 cmd_get.
Proof. table_entry. Qed.
Lemma entry_del : entry_is (str "DEL") 2 size_max (cmd_del config).
Proof. table_entry. Qed.
Lemma entry_exists : entry_is (str "EXISTS") 2 size_max cmd_exists.
Proof. table_entry. Qed.
Lemma entry_expire : entry_is (str "EXPIRE") 3 3 (cmd_expire config).
Proof. table_entry. Qed.
Lemma entry_ttl : entry_is (str "TTL") 2 2 cmd_ttl.
Proof. table_entry. Qed.
Lemma entry_keys : entry_is (str "KEYS") 2 2 cmd_keys.
Proof. table_entry. Qed.
Lemma entry_info : entry_is (str "INFO") 1 2 info.
Proof. table_entry. Qed.

Lemma entry_unknown n :
  n ∉ map str ["PING"; "ECHO"; "SET"; "GET"; "DEL"; "EXISTS"; "EXPIRE"; "TTL"; "KEYS"; "INFO"] →
  commands_ config !! n = None.
Proof.
  cbn [map]. intros Hn. rewrite !not_elem_of_cons in Hn. unfold commands_.
  repeat (rewrite add_lookup_ne by (intros ->; naive_solver)). apply lookup_empty.
Qed.

(** Dispatch to a handler of the table. *)
Lemma execute_entry env request ctx nm args lo hi h :
  extract_arguments request = Some (nm :: args) → entry_is (normalize nm) lo hi h →
  execute config env request ctx =
  if (len (nm :: args) <? lo) || (len (nm :: args) >? hi) then (Ok (Error wrong_arity), ctx)
  else h env (nm :: args) ctx.
Proof.
  intros E (meta & Hm & <- & <-). unfold execute. rewrite E.
  change (arg (nm :: args) 0) with (Ok nm). unfold lift, exec_bind. cbv beta iota.
  rewrite Hm. by destruct (_ || _).
Qed.
End Table.

(** The context with another store. *)
Definition put_store (st : Store) (c : CommandContext) : CommandContext := set_world (set_store st (world c)) c.

Section Execute.
Context `{Platform} (config : PersistenceConfig).

(** The operations whose arithmetic can overflow: a command sets no deadline but
    with [EXPIRE]. *)
Definition op_overflows (persists : bool) (op : Op) (clk : Clock) (st : Store) : bool :=
  match op with
  | OpExpire k seconds => (if persists then durable_expire_overflows else expire_overflows) clk st k seconds
  | _ => false
  end.

(** A command on the store, through the engine when there is one. *)
Definition perform (env : Env) (op : Op) : Exec CommandContext Reply :=
  do! overflows := gets (λ c, op_overflows (persistence c) op (env_clk env) (store (world c))) in
  if overflows then raise deadline_overflow else
  do! durable := gets persistence in
  match durable, op with
  | true, OpSet k (VString v) None =>
      on_engine (durable_set config (env_os env) (env_clk env) k v) ;; ret RNothing
  | true, OpDelMany ks =>
      do! n := on_engine (durable_del config (env_os env) (env_clk env) ks) in ret (RInt n)
  | true, OpExpire k seconds =>
      do! b := on_engine (durable_expire config (env_os env) (env_clk env) k seconds) in ret (RBool b)
  | _, _ => on_store (run op (env_clk env))
  end.

(** What [execute] does with a request that denotes the action. *)
Definition executes (env : Env) (request : RespValue) (ctx : CommandContext) (a : Action) : Prop :=
  match a with
  | Answer r => execute config env request ctx = (Ok r, ctx)
  | Run op render =>
      execute config env request ctx = (do! r := perform env op in ret (render r)) ctx
  | Info => execute config env request ctx = info env [] ctx
  end.

(** Decides the arity check for a list of known shape. *)
Ltac arity :=
  cond_case;
    [ first [done | exfalso; unfold size_max in *; len_simpl; lia]
    | first [exfalso; unfold size_max in *; len_simpl; lia | idtac] ].

(** Runs a handler down to its operation on the store. *)
Ltac run_handler :=
  exec_unfold; unfold perform, on_store, with_store; exec_unfold; cbn [op_overflows];
  repeat match goal with
  | |- context [arg ?l ?i] => let x := eval cbn in (arg l i) in change (arg l i) with x
  end; cbv beta iota.

Lemma execute_interpret env request ctx :
  executes env request ctx (interpret (env_steady env) request).
Proof.
  unfold interpret.
  destruct (extract_arguments request) as [[|nm args]|] eqn:E.
  - by destruct (extract_nonempty _ _ E).
  - assert (∀ n lo hi h, normalize nm = n → entry_is config n lo hi h →
      execute config env request ctx =
      if (len (nm :: args) <? lo) || (len (nm :: args) >? hi) then (Ok (Error wrong_arity), ctx)
      else h env (nm :: args) ctx) as Hx.
    { intros n lo hi h <- He. by apply execute_entry. }
    unfold command, executes.
    case_decide as Hn1.
    { rewrite (Hx _ _ _ _ Hn1 (entry_ping config)). destruct args as [|m [|m' args]]; by arity. }
    case_decide as Hn2.
    { rewrite (Hx _ _ _ _ Hn2 (entry_echo config)). destruct args as [|m [|m' args]]; by arity. }
    case_decide as Hn3.
    { rewrite (Hx _ _ _ _ Hn3 (entry_set config)). destruct args as [|k [|v [|x args]]]; arity.
      unfold cmd_set. run_handler. destruct (persistence ctx); [|done].
      by destruct (on_engine _ ctx) as [[] ?]. }
    case_decide as Hn4.
    { rewrite (Hx _ _ _ _ Hn4 (entry_get config)). destruct args as [|k [|x args]]; arity.
      unfold cmd_get. run_handler. destruct (persistence ctx); cbn [run]; by destruct (get _ _ _) as [[[]|] st]. }
    case_decide as Hn5.
    { rewrite (Hx _ _ _ _ Hn5 (entry_del config)). destruct args as [|k args]; [by arity|].
      destruct (len (k :: args) <? size_max) eqn:Hs; arity; try done. unfold cmd_del. run_handler. cbn [run tail].
      destruct (persistence ctx); [by destruct (on_engine _ ctx) as [[] ?]|by destruct (del_many _ _ _)]. }
    case_decide as Hn6.
    { rewrite (Hx _ _ _ _ Hn6 (entry_exists config)). destruct args as [|k args]; [by arity|].
      destruct (len (k :: args) <? size_max) eqn:Hs; arity; try done. unfold cmd_exists. run_handler. cbn [run tail].
      destruct (persistence ctx); by destruct (exists_many _ _ _). }
    case_decide as Hn7.
    { rewrite (Hx _ _ _ _ Hn7 (entry_expire config)).
      destruct args as [|k [|text [|x args]]]; arity. unfold cmd_expire. run_handler.
      destruct (parse_int64 text) as [seconds|]; [|done].
      destruct (expiration_is_representable _ _); cbn [negb op_overflows]; [|done].
      destruct ((if persistence ctx then _ else _) _ _ _ _); [done|].
      destruct (persistence ctx); [by destruct (on_engine _ ctx) as [[[]|] ?]|].
      cbn [run]. by destruct (expire _ _ _ _) as [[] ?]. }
    case_decide as Hn8.
    { rewrite (Hx _ _ _ _ Hn8 (entry_ttl config)). destruct args as [|k [|x args]]; arity.
      unfold cmd_ttl. run_handler. destruct (persistence ctx); cbn [run]; by destruct (ttl _ _ _). }
    case_decide as Hn9.
    { rewrite (Hx _ _ _ _ Hn9 (entry_keys config)). destruct args as [|k [|x args]]; arity.
      unfold cmd_keys. run_handler.
      destruct (persistence ctx); cbn [run]; by destruct (keys _ _ _) as [[[] ?] ?]. }
    case_decide as Hn10.
    { rewrite (Hx _ _ _ _ Hn10 (entry_info config)). destruct args as [|k [|x args]]; by arity. }
    unfold execute. rewrite E. change (arg (nm :: args) 0) with (Ok nm). unfold lift, exec_bind. cbv beta iota.
    rewrite entry_unknown; [done|]. cbn [map]. rewrite !not_elem_of_cons.
    split_and!; try done. apply not_elem_of_nil.
  - unfold executes, execute. by rewrite E.
Qed.

End Execute.

(** ** Replies *)

Definition action_safe (a : Action) : Prop :=
  match a with
  | Answer r => line_safe r = true
  | Run _ render => ∀ r, line_safe (render r) = true
  | Info => True
  end.

Lemma render_value_safe r : line_safe (render_value r) = true.
Proof. by destruct r as [|[[]|]| | | |]. Qed.

Lemma render_keys_safe r : line_safe (render_keys r) = true.
Proof.
  destruct r as [| | | | |[] ks]; try done. cbn [render_keys line_safe].
  induction ks as [|k ks IH]; [done|]. by cbn [map forallb line_safe].
Qed.

Lemma interpret_safe steady request : action_safe (interpret steady request).
Proof.
  unfold interpret. destruct (extract_arguments request) as [[|nm args]|]; [done| |done].
  unfold command.
  repeat case_decide; try done;
    repeat match goal with
    | |- action_safe (match ?l with _ => _ end) => destruct l
    | |- action_safe (if ?c then _ else _) => destruct c
    end; try done; intros r; first [apply render_value_safe|apply render_keys_safe|done].
Qed.

(** ** The log *)

(** What a command does to the log, when it returns. *)
Lemma durable_logged `{PlatformOk} {A} config os u (f : Store → A * Store) w a w' :
  wal_null w = false → durable config os (mut_opcode u) (mut_payload u) f w = (Ok a, w') →
  let r := {| offset := u64 (last_offset_ (wal_ w) + 1); opcode := mut_opcode u; payload := mut_payload u |} in
  wal_file (wal_ w') = wal_file (wal_ w) ++ record_image r ∧
  (fsync config = always → wal_synced (wal_ w') = wal_file (wal_ w')).
Proof.
  intros Hnull E r. destruct (durable_ok config os _ _ f w a w' Hnull E) as (o & wal1 & wal2 & Ea & Es & _ & ->).
  destruct (append_ok _ _ _ _ _ _ Ea) as (-> & _ & ->). cbn [wal_ set_store set_wal].
  case_decide as Hf.
  - destruct (sync_ok _ _ _ _ Es) as [_ ->]. done.
  - subst wal2. done.
Qed.

Lemma expire_ms_if (seconds wall_now : Z) :
  to_unix_ms (if seconds >? 0 then wall_now + seconds_to_wall seconds else wall_now) =
  if seconds >? 0 then to_unix_ms (wall_now + seconds_to_wall seconds) else to_unix_ms wall_now.
Proof. by destruct (seconds >? 0). Qed.

(** The engine's commands through the registry. *)
Lemma on_engine_ok {A} (m : Exec World A) c a c' :
  on_engine m c = (Ok a, c') → ∃ w', m (world c) = (Ok a, w') ∧ c' = set_world w' c.
Proof. unfold on_engine, zoom. destruct (m (world c)) as [r w'] eqn:E. intros [= -> <-]. eauto. Qed.

(** ** The commands as operations on the map *)

(** The operation on the map that a command stands for.  With persistence, the
    deadline of an [EXPIRE] is computed before it is logged, in milliseconds,
    with the first reading of the clock. *)
Definition effective (persists : bool) (op : Op) (clk : Clock) : Op * Clock :=
  match persists, op with
  | true, OpExpire k seconds =>
      (OpExpireAt k (Some (from_unix_ms (if seconds >? 0 then to_unix_ms (wall (clk 0%nat) + seconds_to_wall seconds)
                                         else to_unix_ms (wall (clk 0%nat))))), later 1 clk)
  | _, _ => (op, clk)
  end.

Section Perform.
Context `{PO : PlatformOk} (config : PersistenceConfig) (persists : bool).

(** A logged operation changes the store when it returns, and only then. *)
Lemma durable_store {A} os c p (f : Store → A * Store) w r w' :
  durable config os c p f w = (r, w') →
  match r with Ok a => f (store w) = (a, store w') | Throw _ => store w' = store w end.
Proof.
  unfold durable, durability_action, wal_call, with_store. exec_unfold. destruct (wal_null w); [by intros [= <- <-]|].
  destruct (append os c p (wal_ w)) as [[o|e] wal1]; [|by intros [= <- <-]]. cbn [set_wal wal_null wal_ store].
  destruct (bool_decide _); cbn [wal_null set_wal wal_ store].
  - destruct (wal_null w); [by intros [= <- <-]|]. cbn [wal_ set_wal].
    destruct (sync os wal1) as [[[]|e] wal2]; [|by intros [= <- <-]]. cbn [store set_wal].
    destruct (f (store w)) as [a st]. by intros [= <- <-].
  - destruct (f (store w)) as [a st]. by intros [= <- <-].
Qed.

Lemma perform_run env op ctx r ctx' :
  persistence ctx = persists → perform config env op ctx = (r, ctx') →
  let '(op', clk) := effective persists op (env_clk env) in
  match r with
  | Ok reply => run op' clk (store (world ctx)) = (reply, store (world ctx'))
  | Throw _ => store (world ctx') = store (world ctx)
  end.
Proof.
  intros Hp. unfold perform. rewrite exec_bind_gets. destruct (op_overflows _ _ _ _).
  { intros [= <- <-]. by destruct (effective _ _ _). }
  rewrite exec_bind_gets, Hp.
  assert (on_store (run op (env_clk env)) ctx = (r, ctx') →
    match r with
    | Ok reply => run op (env_clk env) (store (world ctx)) = (reply, store (world ctx'))
    | Throw _ => store (world ctx') = store (world ctx)
    end) as Hread.
  { unfold on_store, with_store, zoom. destruct (run op (env_clk env) _). by intros [= <- <-]. }
  assert (∀ A os c p (f : Store → A * Store) (g : A → Reply),
    (do! a := on_engine (durable config os c p f) in ret (g a)) ctx = (r, ctx') →
    match r with
    | Ok reply => ∃ a, f (store (world ctx)) = (a, store (world ctx')) ∧ reply = g a
    | Throw _ => store (world ctx') = store (world ctx)
    end) as Hdur.
  { intros A os c p f g. unfold on_engine, zoom, exec_bind.
    destruct (durable config os c p f (world ctx)) as [[a|e] w'] eqn:E; apply durable_store in E.
    - intros [= <- <-]. by exists a.
    - by intros [= <- <-]. }
  destruct persists; [|exact Hread].
  destruct op as [k [v| | |] [w|]|k|k|ks|k|ks|k seconds|k w|k|k|pat|]; try exact Hread; cbn [effective].
  - intros E. apply (Hdur unit _ _ _ _ (λ _, RNothing)) in E. destruct r; [|done].
    destruct E as ([] & E & ->). cbn [run]. apply (f_equal snd) in E. cbn [snd] in E. by rewrite <- E.
  - intros E. apply (Hdur _ _ _ _ _ RInt) in E. destruct r; [|done]. destruct E as (n & E & ->).
    cbn [run]. by rewrite E.
  - intros E. apply (Hdur _ _ _ _ _ RBool) in E. destruct r; [|done]. destruct E as (b & E & ->).
    cbn [run]. by rewrite E.
Qed.

(** Without an engine, only an overflow keeps a command from returning. *)
Lemma perform_throws env op ctx e ctx' :
  persistence ctx = false → perform config env op ctx = (Throw e, ctx') →
  op_overflows false op (env_clk env) (store (world ctx)) = true.
Proof.
  intros Hp. unfold perform. rewrite exec_bind_gets, Hp. destruct (op_overflows _ _ _ _); [done|].
  rewrite exec_bind_gets, Hp. unfold on_store, with_store, zoom. by destruct (run _ _ _).
Qed.
End Perform.

(** ** Claims *)

(** C8. The commands implement the abstract map, with and without persistence,
    on every store that satisfies its invariant.
    A request that denotes no command on the store is answered with the reply it
    denotes - for [INFO] with some text, which is not specified here - and leaves
    the context unchanged.  For one that denotes a command, the store's invariant
    is kept and, when [execute] returns, its reply is the one the command gives
    on the map of live keys and the map afterwards is the command's result; when
    it throws - which without persistence happens only when the deadline of an
    [EXPIRE] overflows - the store is unchanged. *)
Theorem registry_refines_store `{PlatformOk} config env request ctx r ctx' :
  wf (store (world ctx)) → execute config env request ctx = (r, ctx') →
  wf (store (world ctx')) ∧
  match interpret (env_steady env) request with
  | Answer a => r = Ok a ∧ ctx' = ctx
  | Info => (∃ text, r = Ok (BulkString (Some text))) ∧ ctx' = ctx
  | Run op render =>
      let '(op', clk) := effective (persistence ctx) op (env_clk env) in
      let now := op_now op' clk in
      match r with
      | Ok reply =>
          let '(a, m) := spec op' clk (view now (store (world ctx))) in
          reply = render a ∧ view now (store (world ctx')) = m
      | Throw _ =>
          store (world ctx') = store (world ctx) ∧
          (persistence ctx = false → op_overflows false op (env_clk env) (store (world ctx)) = true)
      end
  end.
Proof.
  intros Hwf E. pose proof (execute_interpret config env request ctx) as Hx.
  destruct (interpret (env_steady env) request) as [a|op render|]; cbn [executes] in Hx; rewrite Hx in E.
  - by injection E as <- <-.
  - unfold exec_bind in E. destruct (perform config env op ctx) as [r1 c1] eqn:Ep.
    pose proof (perform_throws config env op ctx) as Ht. rewrite Ep in Ht.
    apply (perform_run config (persistence ctx)) in Ep; [|done].
    destruct (effective (persistence ctx) op (env_clk env)) as [op' clk].
    destruct r1 as [a|e]; injection E as <- <-.
    + destruct (run_refines_spec op' clk (store (world ctx)) Hwf) as (s' & E' & Hwf' & Hv).
      rewrite E' in Ep. injection Ep as <- <-. split; [done|].
      cbv zeta. destruct (spec op' clk (view _ (store (world ctx)))) as [a m]. by cbn [fst snd] in *.
    + rewrite Ep. split; [done|]. split; [done|]. intros Hp. by eapply Ht.
  - revert E. unfold info. exec_unfold. intros [= <- <-]. split; [done|]. split; [|done].
    destruct (stats ctx); by eexists.
Qed.

(** A request that is no command is answered with an error and changes
    nothing: one that is not a non-empty array of bulk strings, one whose name
    is not in the table, one whose number of arguments is out of the command's
    bounds; and the name is compared without regard to case. *)
Theorem bad_requests_change_nothing `{Platform} config env request ctx :
  (extract_arguments request = None →
     execute config env request ctx = (Ok (Error (str "ERR Protocol error")), ctx)) ∧
  (∀ nm args, extract_arguments request = Some (nm :: args) →
     match metadata config nm with
     | None => execute config env request ctx = (Ok (Error (str "ERR unknown command")), ctx)
     | Some meta =>
         ¬ (minimum_arity meta <= len (nm :: args) <= maximum_arity meta) →
         execute config env request ctx = (Ok (Error wrong_arity), ctx)
     end) ∧
  (∀ nm nm', normalize nm = normalize nm' → metadata config nm = metadata config nm').
Proof.
  split_and!.
  - intros E. unfold execute. by rewrite E.
  - intros nm args E. unfold metadata. destruct (commands_ config !! normalize nm) as [[meta h]|] eqn:Hc.
    + cbn. intros Har. rewrite (execute_entry config env request ctx nm args _ _ h E)
        by (exists meta; done).
      replace ((len (nm :: args) <? minimum_arity meta) || (len (nm :: args) >? maximum_arity meta))
        with true by lia. done.
    + cbn. unfold execute. rewrite E. change (arg (nm :: args) 0) with (Ok nm). unfold lift, exec_bind.
      cbv beta iota. by rewrite Hc.
  - intros nm nm' E. unfold metadata. by rewrite E.
Qed.

(** C32. Every reply can be sent: whatever the request, and with or without
    persistence, the reply that [execute] returns is encoded without an
    exception - no error or status text ever contains a line break. *)
Theorem replies_encode `{PlatformOk} config env request ctx reply ctx' :
  execute config env request ctx = (Ok reply, ctx') →
  encode reply = Ok (wire reply).
Proof.
  intros E. unfold encode. rewrite append_encoded_spec.
  assert (line_safe reply = true) as ->; [|done].
  pose proof (execute_interpret config env request ctx) as Hx.
  pose proof (interpret_safe (env_steady env) request) as Hs.
  destruct (interpret (env_steady env) request) as [r|op render|]; cbn [executes action_safe] in Hx, Hs;
    rewrite Hx in E.
  - by injection E as <- _.
  - apply exec_bind_ok in E as (r & c1 & _ & E2). injection E2 as <- _. apply Hs.
  - revert E. unfold info. exec_unfold. destruct (stats (id ctx)); by intros [= <- _].
Qed.

(** C19. Write-ahead: with persistence, a command that returns has appended
    exactly the record of the mutation it denotes to the log - and synced it,
    with [fsync = always] - and a command that denotes none has not touched the
    log. *)
Theorem acknowledged_write_is_logged `{PlatformOk} config env request ctx reply ctx' :
  persistence ctx = true → wal_null (world ctx) = false →
  execute config env request ctx = (Ok reply, ctx') →
  let log_before := wal_ (world ctx) in
  let log_after := wal_ (world ctx') in
  match mutation_of (env_steady env) (wall (env_clk env 0%nat)) request with
  | None => log_after = log_before
  | Some u =>
      wal_file log_after = wal_file log_before ++
        record_image {| offset := u64 (last_offset_ log_before + 1); opcode := mut_opcode u;
                        payload := mut_payload u |} ∧
      (fsync config = always → wal_synced log_after = wal_file log_after)
  end.
Proof.
  intros Hp Hnull E. pose proof (execute_interpret config env request ctx) as Hx.
  unfold mutation_of.
  destruct (interpret (env_steady env) request) as [r|op render|]; cbn [executes] in Hx; rewrite Hx in E.
  - by injection E as _ <-.
  - apply exec_bind_ok in E as (r & c1 & E1 & E2). injection E2 as _ <-.
    revert E1. unfold perform. rewrite exec_bind_gets. destruct (op_overflows _ _ _ _); [done|]. rewrite exec_bind_gets, Hp.
    assert (on_store (run op (env_clk env)) ctx = (Ok r, c1) → wal_ (world c1) = wal_ (world ctx)) as Hread.
    { unfold on_store, with_store, zoom. destruct (run op (env_clk env) _). by intros [= _ <-]. }
    destruct op as [k [v| | |] [w|]|k|k|ks|k|ks|k seconds|k w|k|k|pat|]; try exact Hread.
    + intros (a & c2 & E1 & E2)%exec_bind_ok. injection E2 as _ <-.
      apply on_engine_ok in E1 as (w' & E1 & ->). by apply (durable_logged _ _ (MSet k v) _ _ _ _ Hnull E1).
    + intros (a & c2 & E1 & E2)%exec_bind_ok. injection E2 as _ <-.
      apply on_engine_ok in E1 as (w' & E1 & ->). by apply (durable_logged _ _ (MDel ks) _ _ _ _ Hnull E1).
    + intros (a & c2 & E1 & E2)%exec_bind_ok. injection E2 as _ <-.
      apply on_engine_ok in E1 as (w' & E1 & ->). cbv zeta. rewrite expire_ms_if.
      apply (durable_logged _ _ (MExpire k _) _ _ _ _ Hnull E1).
  - revert E. unfold info. exec_unfold. destruct (stats (id ctx)); by intros [= _ <-].
Qed.

(** A time of the wall clock cut to milliseconds. *)
Lemma cut_millis w : 0 <= w → 0 <= from_unix_ms (to_unix_ms w) <= w.
Proof.
  intros Hw. unfold from_unix_ms, to_unix_ms. rewrite Z.quot_div_nonneg by lia.
  pose proof (Z.mul_div_le w 1000 ltac:(lia)). pose proof (Z.div_pos w 1000). lia.
Qed.

(** C37. The lifetime check of [EXPIRE] does its work, with and without
    persistence: when the check accepts the lifetime at some instant [latest] that
    the steady clock has not passed when the store reads it (which is after the
    check), no step of the computation of the deadline leaves the range of a
    signed 64-bit integer - as long as the wall clock reads less than [2 ^ 53]
    microseconds (the year 2255) and has not gone back between its first reading
    and that of the store.  Without the condition on [latest] it can:
    [expire_deadline_overflows]. *)
Theorem expire_in_range `{Platform} clk st k seconds latest :
  expiration_is_representable latest seconds = true →
  0 <= mono (clk 3%nat) <= latest → latest <= steady_max →
  (∀ i, 0 <= wall (clk i) < 2 ^ 53) → wall (clk 0%nat) <= wall (clk 4%nat) →
  expire_overflows clk st k seconds = false ∧ durable_expire_overflows clk st k seconds = false.
Proof.
  intros Hrep Hm Hl Hw Hback. pose proof (Hw 0%nat). pose proof (Hw 4%nat).
  assert (0 < seconds → seconds * 1000000000 <= steady_max - latest) as Hroom.
  { revert Hrep. unfold expiration_is_representable, mono_to_seconds. cond_case; [lia|].
    rewrite Z.quot_div_nonneg by lia. pose proof (Z.mul_div_le (steady_max - latest) 1000000000 ltac:(lia)). lia. }
  set (room := if seconds >? 0 then seconds_to_wall seconds else 0).
  assert (0 <= room ∧ room * 1000 <= steady_max - latest) as Hr.
  { unfold room, seconds_to_wall. cond_case; lia. }
  assert (∀ w, 0 <= w <= wall (clk 0%nat) + room → expire_at_overflows (later 1 clk) st k w = false) as Hat.
  { intros w Hle. unfold expire_at_overflows, later. cbn [Nat.add]. destruct (find st k) as [e|]; [|done].
    destruct (_ || _); [done|]. apply negb_false_iff. cbn [forallb]. unfold wall_to_mono, steady_max in *.
    rewrite !bool_decide_true by (unfold is_i64; lia). done. }
  assert (0 < seconds → negb (forallb (λ z, bool_decide (is_i64 z))
    [seconds_to_wall seconds; wall (clk 0%nat) + seconds_to_wall seconds]) = false) as Hfit.
  { intros Hpos. specialize (Hroom Hpos). apply negb_false_iff. cbn [forallb]. unfold seconds_to_wall, steady_max in *.
    rewrite !bool_decide_true by (unfold is_i64; lia). done. }
  split.
  - unfold expire_overflows. destruct (seconds <=? 0) eqn:E; [apply Hat; lia|].
    rewrite Hfit by lia. apply Hat. unfold room. replace (seconds >? 0) with true by lia. unfold seconds_to_wall. lia.
  - unfold durable_expire_overflows. pose proof (cut_millis (wall (clk 0%nat) + room)) as Hcut. revert Hcut Hat Hr.
    unfold room. destruct (seconds >? 0) eqn:E; intros Hcut Hat Hr; [rewrite Hfit by lia; apply Hat, Hcut; lia|].
    rewrite Z.add_0_r in Hcut. apply Hat. lia.
Qed.

(** A defect at the edge.  The store reads the clock again, after the check: the
    longest lifetime that the check lets through gives a deadline outside the
    range when the steady clock has advanced by as much as the check has left. *)
Theorem expire_deadline_overflows `{Platform} clk st k e steady seconds :
  find st k = Some e → expires_at e = None → is_i64 seconds →
  expiration_is_representable steady seconds = true → 0 < seconds →
  wall (clk 2%nat) = wall (clk 0%nat) → wall (clk 4%nat) = wall (clk 0%nat) →
  steady_max - seconds * 1000000000 < mono (clk 3%nat) →
  op_overflows false (OpExpire k seconds) clk st = true.
Proof.
  intros Hf He Hs _ Hpos Hw2 Hw4 Hm. cbn [op_overflows]. unfold expire_overflows.
  replace (seconds <=? 0) with false by lia. apply orb_true_iff. right. unfold expire_at_overflows, later. cbn [Nat.add].
  rewrite Hf. unfold is_expired. rewrite He, Hw2, Hw4. cbn [orb].
  replace (wall (clk 0%nat) + seconds_to_wall seconds <=? wall (clk 0%nat)) with false by (unfold seconds_to_wall; lia).
  apply negb_true_iff. cbn [forallb]. unfold seconds_to_wall, wall_to_mono, steady_max in *.
  rewrite (bool_decide_false (is_i64 (mono (clk 3%nat) + _))) by (unfold is_i64; lia). by rewrite !andb_false_r.
Qed.

(** ** The hypotheses at concrete requests *)

Definition request (args : list string) : RespValue :=
  Array (Some (map (λ a, BulkString (Some (str a))) args)).

Definition demo_env : Env := {| env_os := calm; env_clk := frozen (demo_tick 0); env_steady := 0 |}.

Definition demo_config : PersistenceConfig :=
  {| data_dir := str "data"; fsync := always; snapshot_interval_seconds := 0 |}.

Definition demo_context (durable : bool) : CommandContext :=
  {| world := {| wal_null := false;
                 wal_ := {| fd_ := true; last_offset_ := 0; wal_file := log []; wal_synced := [] |};
                 snapshots := no_files; store := demo_store 2; fsync_thread := false; next_snapshot_at_ := 0 |};
     persistence := durable; stats := None; version := str "0.1.0"; tcp_port := 6379; worker_count := 4 |}.

Lemma registry_refines_store_witness :
  let c' := snd (@execute demo_platform demo_config demo_env (request ["set"; "k"; "v"]) (demo_context true)) in
  fst (@execute demo_platform demo_config demo_env (request ["set"; "k"; "v"]) (demo_context true)) =
    Ok (SimpleString (str "OK")) ∧ @wf demo_platform (store (world c')).
Proof.
  intros c'. destruct (@execute demo_platform demo_config demo_env (request ["set"; "k"; "v"]) (demo_context true))
    as [r c] eqn:E. destruct (@registry_refines_store demo_platform demo_platform_ok demo_config demo_env
    (request ["set"; "k"; "v"]) (demo_context true) r c (demo_store_wf 2 ltac:(done)) E) as [Hwf Hr].
  split; [|exact Hwf]. cbn [fst]. assert (is_ok r = true) as Hok.
  { replace r with (fst (r, c)) by reflexivity. rewrite <- E. vm_compute. reflexivity. }
  assert (interpret (env_steady demo_env) (request ["set"; "k"; "v"]) =
          Run (OpSet (str "k") (VString (str "v")) None) render_ok) as Hi by (vm_compute; reflexivity).
  rewrite Hi in Hr. destruct r as [a|e]; [|discriminate Hok]. destruct Hr as [-> _]. reflexivity.
Defined.

Lemma replies_encode_witness :
  encode (Error (str "ERR unknown command")) = Ok (wire (Error (str "ERR unknown command"))).
Proof.
  apply (@replies_encode demo_platform demo_platform_ok demo_config demo_env (request ["NOPE"])
    (demo_context true) (Error (str "ERR unknown command")) (demo_context true)).
  vm_compute. reflexivity.
Defined.

Lemma acknowledged_write_is_logged_witness :
  let c' := snd (@execute demo_platform demo_config demo_env (request ["SET"; "k"; "v"]) (demo_context true)) in
  wal_file (wal_ (world c')) =
    log [{| offset := 1; opcode := op_set; payload := encode_set_payload (str "k") (str "v") None |}] ∧
  wal_synced (wal_ (world c')) = wal_file (wal_ (world c')).
Proof.
  intros c'.
  destruct (@acknowledged_write_is_logged demo_platform demo_platform_ok demo_config demo_env
    (request ["SET"; "k"; "v"]) (demo_context true) (SimpleString (str "OK")) c') as [E S].
  - reflexivity.
  - reflexivity.
  - vm_compute. reflexivity.
  - split; [rewrite E; vm_compute; reflexivity|apply S; reflexivity].
Defined.

Lemma expire_in_range_witness :
  let st := @set demo_platform (frozen (demo_tick 0)) (demo_store 2) (str "k") (VString (str "v")) None in
  @expire_overflows demo_platform (frozen (demo_tick 0)) st (str "k") 3600 = false ∧
  @durable_expire_overflows demo_platform (frozen (demo_tick 0)) st (str "k") 3600 = false.
Proof.
  intros st. apply (@expire_in_range demo_platform (frozen (demo_tick 0)) st (str "k") 3600 1000000000).
  - reflexivity.
  - unfold frozen, demo_tick. cbn. lia.
  - unfold steady_max. lia.
  - intros i. unfold frozen, demo_tick. cbn. lia.
  - reflexivity.
Defined.
