(* ===== verification/ThreadPool.v ===== *)
(** * The worker pool

    [include/novacache/util/thread_pool.hpp] and [src/util/thread_pool.cpp].
    The critical sections are functions on the fields that the mutex protects;
    [pool_step] interleaves them.  The condition variable is modelled: a worker
    whose predicate does not hold falls asleep, and only a notification - or a
    spurious wake-up, on which no theorem relies - makes it check again.  The
    notifications are steps of their own, since [try_submit] and [shutdown] send
    them after they have released the mutex. *)

From S2P Require Import Prelude.

Section Pool.
Context {Job : Type}.

(** ** Fields and critical sections *)

Record ThreadPool := {
  max_queue_size_ : nat;
  jobs_ : list Job;
  stopping_ : bool;
}.

(** [ThreadPool::ThreadPool]: the pool and the number of workers it starts. *)
Definition new_pool (thread_count max_queue_size : nat) : result (ThreadPool * nat) :=
  if bool_decide (thread_count = 0%nat)
  then throw invalid_argument "thread pool requires at least one worker"
  else if bool_decide (max_queue_size = 0%nat)
  then throw invalid_argument "thread pool queue limit must be positive"
  else Ok ({| max_queue_size_ := max_queue_size; jobs_ := []; stopping_ := false |}, thread_count).

Definition set_jobs (l : list Job) (p : ThreadPool) : ThreadPool :=
  {| max_queue_size_ := max_queue_size_ p; jobs_ := l; stopping_ := stopping_ p |}.

(** The section of [try_submit]; [notify_one] follows it when the job was taken. *)
Definition try_submit (p : ThreadPool) (job : Job) : bool * ThreadPool :=
  if stopping_ p || (max_queue_size_ p <=? length (jobs_ p))%nat then (false, p)
  else (true, set_jobs (jobs_ p ++ [job]) p).

(** The first section of [shutdown]: [false] when another call was first;
    [notify_all] follows it otherwise. *)
Definition shutdown_begin (p : ThreadPool) : bool * ThreadPool :=
  if stopping_ p then (false, p)
  else (true, {| max_queue_size_ := max_queue_size_ p; jobs_ := jobs_ p; stopping_ := true |}).

(** Its last section, after the workers were joined. *)
Definition shutdown_end (p : ThreadPool) : ThreadPool := set_jobs [] p.

(** The predicate of the wait. *)
Definition wake (p : ThreadPool) : bool := stopping_ p || negb (bool_decide (jobs_ p = [])).

(** The section of [worker_main] after the wait: [None] ends the worker. *)
Definition worker_section (p : ThreadPool) : result (option Job * ThreadPool) :=
  if stopping_ p && bool_decide (jobs_ p = []) then Ok (None, p)
  else match jobs_ p with
       | [] => Throw (undefined_behaviour "front of an empty queue")
       | job :: rest => Ok (Some job, set_jobs rest p)
       end.

Definition queued_jobs (p : ThreadPool) : nat := length (jobs_ p).
Definition accepting (p : ThreadPool) : bool := negb (stopping_ p).

(** ** Executions *)

(** A worker: about to check the predicate of its wait, asleep in the wait,
    running a job, ended. *)
Inductive Worker := checking | sleeping | running (job : Job) | exited.

#[local] Instance sleeping_dec (w : Worker) : Decision (sleeping = w).
Proof. destruct w; first [by left | by right]. Defined.

(** [cv_.notify_one()]: some worker that sleeps checks again, when there is one. *)
Inductive notify_one : list Worker → list Worker → Prop :=
| notify_sleeper ws i : ws !! i = Some sleeping → notify_one ws (<[i := checking]> ws)
| notify_nobody ws : sleeping ∉ ws → notify_one ws ws.

(** [cv_.notify_all()]. *)
Definition notify_all (ws : list Worker) : list Worker :=
  map (λ w, match w with sleeping => checking | _ => w end) ws.

(** The pool with its workers; the calls of [try_submit] and of [shutdown] that
    have left their section and not yet sent their notification; and what
    happened so far: the jobs accepted, in order, those started, in order, and
    those finished. *)
Record System := MkSystem {
  pool : ThreadPool;
  workers : list Worker;
  owed_one : nat;
  owed_all : nat;
  accepted : list Job;
  started : list Job;
  finished : list Job;
}.

(** The steps of the workers and the notifications that are owed. *)
Inductive worker_step : System → System → Prop :=
| step_take p ws o a acc st fin i job p' :
    ws !! i = Some checking → wake p = true → worker_section p = Ok (Some job, p') →
    worker_step (MkSystem p ws o a acc st fin)
      (MkSystem p' (<[i := running job]> ws) o a acc (st ++ [job]) fin)
| step_exit p ws o a acc st fin i p' :
    ws !! i = Some checking → wake p = true → worker_section p = Ok (None, p') →
    worker_step (MkSystem p ws o a acc st fin) (MkSystem p' (<[i := exited]> ws) o a acc st fin)
| step_sleep p ws o a acc st fin i :
    ws !! i = Some checking → wake p = false →
    worker_step (MkSystem p ws o a acc st fin) (MkSystem p (<[i := sleeping]> ws) o a acc st fin)
| step_finish p ws o a acc st fin i job :
    ws !! i = Some (running job) →
    worker_step (MkSystem p ws o a acc st fin) (MkSystem p (<[i := checking]> ws) o a acc st (fin ++ [job]))
| step_notify_one p ws o a acc st fin ws' :
    notify_one ws ws' → worker_step (MkSystem p ws (S o) a acc st fin) (MkSystem p ws' o a acc st fin)
| step_notify_all p ws o a acc st fin :
    worker_step (MkSystem p ws o (S a) acc st fin) (MkSystem p (notify_all ws) o a acc st fin).

(** A worker wakes up without a notification. *)
Inductive spurious_step : System → System → Prop :=
| step_spurious p ws o a acc st fin i :
    ws !! i = Some sleeping →
    spurious_step (MkSystem p ws o a acc st fin) (MkSystem p (<[i := checking]> ws) o a acc st fin).

Inductive pool_step : System → System → Prop :=
| step_submit p ws o a acc st fin job b p' :
    try_submit p job = (b, p') →
    pool_step (MkSystem p ws o a acc st fin)
      (MkSystem p' ws (if b then S o else o) a (if b then acc ++ [job] else acc) st fin)
| step_stop p ws o a acc st fin b p' :
    shutdown_begin p = (b, p') →
    pool_step (MkSystem p ws o a acc st fin) (MkSystem p' ws o (if b then S a else a) acc st fin)
| step_worker s s' : worker_step s s' → pool_step s s'
| step_wakes s s' : spurious_step s s' → pool_step s s'.

Definition initial (p : ThreadPool) (thread_count : nat) : System :=
  MkSystem p (replicate thread_count checking) 0 0 [] [] [].

(** The states of a pool before [shutdown] returns. *)
Definition pool_reachable (thread_count max_queue_size : nat) (s : System) : Prop :=
  ∃ p, new_pool thread_count max_queue_size = Ok (p, thread_count) ∧
       rtc pool_step (initial p thread_count) s.

(** ** The invariant *)

Definition running_jobs (ws : list Worker) : list Job :=
  omap (λ w, match w with running j => Some j | _ => None end) ws.

(** A worker that will look at the queue without being notified. *)
Definition awake (w : Worker) : Prop := match w with checking | running _ => True | sleeping | exited => False end.

Record pool_inv (thread_count : nat) (max : nat) (s : System) : Prop := {
  inv_max : max_queue_size_ (pool s) = max;
  inv_bound : (length (jobs_ (pool s)) <= max)%nat;
  inv_fifo : accepted s = started s ++ jobs_ (pool s);
  inv_done : started s ≡ₚ finished s ++ running_jobs (workers s);
  inv_workers : length (workers s) = thread_count ∧ (0 < thread_count)%nat;
  inv_exit : exited ∈ workers s → stopping_ (pool s) = true ∧ jobs_ (pool s) = [];
  (** No notification of [try_submit] is lost. *)
  inv_awake : jobs_ (pool s) ≠ [] → (0 < owed_one s)%nat ∨ Exists awake (workers s);
  (** Nor is the one of [shutdown]. *)
  inv_stop : stopping_ (pool s) = true → owed_all s = 0%nat → sleeping ∉ workers s;
}.

Lemma running_insert ws i w w' :
  ws !! i = Some w →
  running_jobs (<[i := w']> ws) ++ running_jobs [w] ≡ₚ running_jobs ws ++ running_jobs [w'].
Proof.
  intros Hi. rewrite <- (take_drop_middle ws i w Hi) at 2. rewrite insert_take_drop by (by eapply lookup_lt_Some).
  unfold running_jobs. rewrite !omap_app. cbn [omap list_omap].
  destruct w, w'; cbn; rewrite ?app_nil_r; solve_Permutation.
Qed.

Lemma elem_of_insert (ws : list Worker) i w x : x ∈ <[i := w]> ws → w = x ∨ x ∈ ws.
Proof.
  intros [j Hj]%list_elem_of_lookup. destruct (decide (i = j)) as [->|Hne].
  - destruct (decide (j < length ws)%nat) as [Hl|Hl].
    + rewrite list_lookup_insert_eq in Hj by done. injection Hj as ->. by left.
    + rewrite list_insert_ge in Hj by lia. right. by eapply list_elem_of_lookup_2.
  - rewrite list_lookup_insert_ne in Hj by done. right. by eapply list_elem_of_lookup_2.
Qed.

Lemma Exists_insert ws i w w' : ws !! i = Some w → awake w' → Exists awake (<[i := w']> ws).
Proof.
  intros Hi Hw. apply Exists_exists. exists w'. split; [|done].
  by eapply list_elem_of_insert, lookup_lt_Some.
Qed.

Lemma Exists_keep ws i w w' : ws !! i = Some w → ¬ awake w → Exists awake ws → Exists awake (<[i := w']> ws).
Proof.
  intros Hi Hw [x [[j Hj]%list_elem_of_lookup Hx]]%Exists_exists. apply Exists_exists. exists x. split; [|done].
  apply list_elem_of_lookup. exists j. rewrite list_lookup_insert_ne; [done|]. intros ->. congruence.
Qed.

Lemma notify_all_running ws : running_jobs (notify_all ws) = running_jobs ws.
Proof.
  unfold running_jobs. induction ws as [|[] ws IH]; cbn; [done|exact IH..| |exact IH]. f_equal. exact IH.
Qed.

Lemma elem_of_notify_all x ws : x ∈ notify_all ws → x ≠ sleeping ∧ (x ∈ ws ∨ x = checking).
Proof. intros ([] & -> & Hw)%list_elem_of_fmap; auto. Qed.

Lemma Exists_notify_all ws : Exists awake ws → Exists awake (notify_all ws).
Proof. induction 1 as [[] ws Hw|w ws _ IH]; cbn; try done; by constructor. Qed.

(** What the section after the wait does. *)
Lemma worker_section_cases p :
  wake p = true →
  (jobs_ p = [] ∧ stopping_ p = true ∧ worker_section p = Ok (None, p)) ∨
  ∃ job rest, jobs_ p = job :: rest ∧ worker_section p = Ok (Some job, set_jobs rest p).
Proof.
  unfold wake, worker_section. destruct (jobs_ p) as [|job rest] eqn:E.
  - rewrite bool_decide_true by done. destruct (stopping_ p); [by left|done].
  - intros _. right. exists job, rest. rewrite bool_decide_false by done. by rewrite andb_false_r.
Qed.

Lemma wake_false p : wake p = false → stopping_ p = false ∧ jobs_ p = [].
Proof. unfold wake. destruct (stopping_ p); [done|]. cbn. intros E. case_bool_decide; done. Qed.

(** A worker goes from [w] to [w'] and the queue stays as it is. *)
Lemma worker_moves n max p ws o a acc st fin i w w' o' :
  pool_inv n max (MkSystem p ws o a acc st fin) → ws !! i = Some w →
  running_jobs [w] = running_jobs [w'] →
  (w' = exited → stopping_ p = true ∧ jobs_ p = []) →
  (w' = sleeping → stopping_ p = false) →
  awake w' ∨ jobs_ p = [] → (o' <= o)%nat →
  pool_inv n max (MkSystem p (<[i := w']> ws) o' a acc st fin).
Proof.
  intros [H1 H2 H3 H4 H5 H6 H7 H8] Hi Hr He Hsl Haw Ho. pose proof (running_insert _ _ _ w' Hi) as Hp. rewrite Hr in Hp.
  apply Permutation_app_inv_r in Hp. cbn [pool workers owed_one owed_all accepted started finished] in *.
  split; cbn [pool workers owed_one owed_all accepted started finished]; try done.
  - by rewrite Hp.
  - by rewrite length_insert.
  - intros [E|Hin]%elem_of_insert; auto.
  - intros Hj. right. destruct Haw as [Haw| ?]; [|done]. by eapply Exists_insert.
  - intros Hst Ha [E|Hin]%elem_of_insert; [by rewrite (Hsl E) in Hst|by apply H8].
Qed.

Lemma take_inv n max p ws o a acc st fin i job rest :
  pool_inv n max (MkSystem p ws o a acc st fin) → ws !! i = Some checking → jobs_ p = job :: rest →
  pool_inv n max (MkSystem (set_jobs rest p) (<[i := running job]> ws) o a acc (st ++ [job]) fin).
Proof.
  intros [H1 H2 H3 H4 H5 H6 H7 H8] Hi Hj. pose proof (running_insert _ _ _ (running job) Hi) as Hr. cbn in Hr.
  rewrite app_nil_r in Hr. cbn [pool workers owed_one owed_all accepted started finished] in *. rewrite Hj in *.
  split; cbn [pool workers owed_one owed_all accepted started finished jobs_ set_jobs max_queue_size_ stopping_ length] in *.
  - done.
  - lia.
  - by rewrite H3, <- app_assoc.
  - rewrite Hr, H4. by rewrite app_assoc.
  - by rewrite length_insert.
  - intros [E|Hin]%elem_of_insert; [done|]. by apply H6 in Hin as [_ ?].
  - intros _. right. by eapply Exists_insert.
  - intros Hst Ha [E|Hin]%elem_of_insert; [done|by apply H8].
Qed.

Lemma finish_inv n max p ws o a acc st fin i job :
  pool_inv n max (MkSystem p ws o a acc st fin) → ws !! i = Some (running job) →
  pool_inv n max (MkSystem p (<[i := checking]> ws) o a acc st (fin ++ [job])).
Proof.
  intros [H1 H2 H3 H4 H5 H6 H7 H8] Hi. pose proof (running_insert _ _ _ checking Hi) as Hr. cbn in Hr.
  rewrite app_nil_r in Hr. cbn [pool workers owed_one owed_all accepted started finished] in *.
  split; cbn [pool workers owed_one owed_all accepted started finished]; try done.
  - rewrite H4, <- Hr. solve_Permutation.
  - by rewrite length_insert.
  - intros [E|Hin]%elem_of_insert; [done|]. by apply H6.
  - intros Hj. right. by eapply Exists_insert.
  - intros Hst Ha [E|Hin]%elem_of_insert; [done|by apply H8].
Qed.

Lemma notify_all_inv n max p ws o a acc st fin :
  pool_inv n max (MkSystem p ws o (S a) acc st fin) → pool_inv n max (MkSystem p (notify_all ws) o a acc st fin).
Proof.
  intros [H1 H2 H3 H4 H5 H6 H7 H8]. cbn [pool workers owed_one owed_all accepted started finished] in *.
  split; cbn [pool workers owed_one owed_all accepted started finished]; try done.
  - by rewrite notify_all_running.
  - unfold notify_all. by rewrite length_map.
  - intros [_ [Hin|?]]%elem_of_notify_all; [by apply H6|done].
  - intros [?|?]%H7; [by left|right; by apply Exists_notify_all].
  - intros _ _ [? _]%elem_of_notify_all. done.
Qed.

(** With nobody asleep, somebody will look at the queue. *)
Lemma nobody_sleeps n max p ws o a acc st fin :
  pool_inv n max (MkSystem p ws o a acc st fin) → sleeping ∉ ws → jobs_ p ≠ [] → Exists awake ws.
Proof.
  intros [_ _ _ _ [H5 H5'] H6 _ _] Hno Hj. cbn [workers pool] in *. destruct ws as [|w ws]; [cbn in *; lia|].
  constructor. destruct w; try done; [destruct Hno; left|]. destruct H6 as [_ ?]; [left|done].
Qed.

Lemma worker_step_inv n max s s' : worker_step s s' → pool_inv n max s → pool_inv n max s'.
Proof.
  intros Hst Hinv. destruct Hst as [p ws o a acc st fin i job p' Hi Hw Hs|p ws o a acc st fin i p' Hi Hw Hs
    |p ws o a acc st fin i Hi Hw|p ws o a acc st fin i job Hi|p ws o a acc st fin ws' Hn|p ws o a acc st fin].
  - destruct (worker_section_cases _ Hw) as [(_ & _ & E)|(j & rest & Hj & E)]; rewrite E in Hs; [done|].
    injection Hs as -> <-. by eapply take_inv.
  - destruct (worker_section_cases _ Hw) as [(Hj & Hst & E)|(j & rest & Hj & E)]; rewrite E in Hs; [|done].
    injection Hs as <-. eapply worker_moves; eauto; done.
  - apply wake_false in Hw as [Hst Hj]. eapply worker_moves; eauto; done.
  - by eapply finish_inv.
  - destruct Hn as [ws i Hi|ws Hno].
    + eapply worker_moves; eauto; [done..|by left].
    + pose proof (nobody_sleeps _ _ _ _ _ _ _ _ _ Hinv Hno) as Haw. destruct Hinv as [H1 H2 H3 H4 H5 H6 H7 H8].
      split; cbn [pool workers owed_one owed_all accepted started finished] in *; auto.
  - by apply notify_all_inv.
Qed.

Lemma pool_step_inv n max s s' : pool_step s s' → pool_inv n max s → pool_inv n max s'.
Proof.
  intros [p ws o a acc st fin job b p' E|p ws o a acc st fin b p' E|s1 s2 Hst|s1 s2 [p ws o a acc st fin i Hi]] Hi';
    [| |by eapply worker_step_inv|eapply worker_moves; eauto; [done..|by left]].
  - revert E. unfold try_submit. destruct (stopping_ p) eqn:Es; cbn [orb]; [by intros [= <- <-]|].
    destruct (max_queue_size_ p <=? length (jobs_ p))%nat eqn:El; intros [= <- <-]; [done|].
    destruct Hi' as [H1 H2 H3 H4 H5 H6 H7 H8].
    split; cbn [pool workers owed_one owed_all accepted started finished jobs_ set_jobs max_queue_size_ stopping_] in *;
      try done.
    + rewrite length_app. cbn [length]. lia.
    + by rewrite H3, app_assoc.
    + intros Hin. apply H6 in Hin as [? _]. congruence.
    + left. lia.
  - revert E. unfold shutdown_begin. destruct (stopping_ p) eqn:Es; intros [= <- <-]; [done|].
    destruct Hi' as [H1 H2 H3 H4 H5 H6 H7 H8]. split; cbn in *; try done.
    intros Hin. apply H6 in Hin as [? _]. congruence.
Qed.

Lemma running_checking n : running_jobs (replicate n checking) = [].
Proof. by induction n. Qed.

Lemma reachable_inv n max s : pool_reachable n max s → pool_inv n max s.
Proof.
  intros (p & Hp & Hsteps). unfold new_pool in Hp. do 2 (case_bool_decide; [done|]). injection Hp as <-.
  remember (initial _ n) as s0. assert (pool_inv n max s0) as Hinit.
  { subst. split; cbn; try done; [lia| |split; [apply length_replicate|lia]|].
    - by rewrite running_checking.
    - by intros [? _]%elem_of_replicate. }
  clear Heqs0. induction Hsteps as [|x y z Hst _ IH]; [done|]. apply IH. by eapply pool_step_inv.
Qed.

(** ** Progress *)

(** A pool in which no worker moves and no notification is owed. *)
Definition at_rest (s : System) : Prop := ∀ s', ¬ worker_step s s'.

(** Every worker then sleeps or has ended. *)
Lemma rest_workers s : at_rest s → owed_one s = 0%nat ∧ owed_all s = 0%nat ∧ ¬ Exists awake (workers s).
Proof.
  destruct s as [p ws o a acc st fin]. intros Hrest. cbn. split_and!.
  - destruct o as [|o]; [done|]. destruct (decide (Exists (eq sleeping) ws)) as [Hs|Hno].
    + apply Exists_exists in Hs as (w & [i Hi]%list_elem_of_lookup & <-).
      edestruct Hrest. apply step_notify_one. by apply (notify_sleeper ws i).
    + edestruct Hrest. apply step_notify_one, notify_nobody. intros Hin. apply Hno, Exists_exists. by eexists.
  - destruct a as [|a]; [done|]. edestruct Hrest. apply step_notify_all.
  - intros [w [[i Hi]%list_elem_of_lookup Hw]]%Exists_exists. destruct w as [| |job|]; try done.
    + destruct (wake p) eqn:Ew; [|edestruct Hrest; by eapply step_sleep].
      destruct (worker_section_cases _ Ew) as [(_ & _ & E)|(j & rest & _ & E)];
        edestruct Hrest; [by eapply step_exit|by eapply step_take].
    + edestruct Hrest. by eapply step_finish.
Qed.

Lemma nobody_awake ws : ¬ Exists awake ws → running_jobs ws = [].
Proof.
  induction ws as [|w ws IH]; intros Hno; [done|]. assert (running_jobs ws = []) as IH' by (apply IH; intros H; apply Hno; by constructor).
  destruct w; try exact IH'; destruct Hno; by constructor.
Qed.

(** All the work is done in such a state. *)
Lemma rest_done n max s : pool_inv n max s → at_rest s → jobs_ (pool s) = [] ∧ accepted s ≡ₚ finished s.
Proof.
  intros Hi Hrest. destruct (rest_workers s Hrest) as (Ho & _ & Hno).
  assert (jobs_ (pool s) = []) as Hj.
  { destruct (jobs_ (pool s)) as [|j js] eqn:E; [done|]. destruct (inv_awake _ _ _ Hi) as [?|?]; [by rewrite E|lia|done]. }
  split; [done|]. rewrite (inv_fifo _ _ _ Hi), Hj, app_nil_r, (inv_done _ _ _ Hi).
  by rewrite (nobody_awake _ Hno), app_nil_r.
Qed.

(** ** Bounds on the number of steps *)

Definition sum_of (weight : Worker → nat) (ws : list Worker) : nat := sum_list_with weight ws.

Lemma sum_insert weight ws i w w' :
  ws !! i = Some w → (sum_of weight (<[i := w']> ws) + weight w = sum_of weight ws + weight w')%nat.
Proof.
  unfold sum_of. revert i. induction ws as [|x ws IH]; intros [|i] Hi; simpl in *; [done|done| |].
  - injection Hi as ->. lia.
  - specialize (IH _ Hi). lia.
Qed.

(** What is left to do while jobs may still come: no step but a spurious wake-up
    or a new job makes it grow. *)
Definition effort_weight (w : Worker) : nat := match w with checking => 1 | running _ => 2 | sleeping | exited => 0 end.
Definition effort (s : System) : nat :=
  (2 * length (jobs_ (pool s)) + sum_of effort_weight (workers s) + 2 * owed_one s
   + (1 + length (workers s)) * owed_all s)%nat.

Lemma effort_notify_all ws : (sum_of effort_weight (notify_all ws) <= sum_of effort_weight ws + length ws)%nat.
Proof. unfold sum_of, notify_all. induction ws as [|[] ws IH]; simpl in *; lia. Qed.

(** What is left to do once the pool is stopping, spurious wake-ups included. *)
Definition work_weight (w : Worker) : nat := match w with checking => 1 | running _ | sleeping => 2 | exited => 0 end.
Definition work (s : System) : nat :=
  (3 * length (jobs_ (pool s)) + sum_of work_weight (workers s) + owed_one s + owed_all s)%nat.

Lemma work_notify_all ws : (sum_of work_weight (notify_all ws) <= sum_of work_weight ws)%nat.
Proof. unfold sum_of, notify_all. induction ws as [|[] ws IH]; simpl in *; lia. Qed.

Lemma worker_step_bounds s s' :
  worker_step s s' →
  (effort s' < effort s)%nat ∧ (stopping_ (pool s) = true → (work s' < work s)%nat).
Proof.
  unfold effort, work. intros [p ws o a acc st fin i job p' Hi Hw Hs|p ws o a acc st fin i p' Hi Hw Hs
    |p ws o a acc st fin i Hi Hw|p ws o a acc st fin i job Hi|p ws o a acc st fin ws' Hn|p ws o a acc st fin];
    cbn [pool workers owed_one owed_all].
  - destruct (worker_section_cases _ Hw) as [(_ & _ & E)|(j & rest & Hj & E)]; rewrite E in Hs; [done|].
    injection Hs as -> <-. pose proof (sum_insert effort_weight _ _ _ (running job) Hi).
    pose proof (sum_insert work_weight _ _ _ (running job) Hi). rewrite Hj, length_insert.
    cbn [effort_weight work_weight jobs_ set_jobs length] in *. lia.
  - destruct (worker_section_cases _ Hw) as [(_ & _ & E)|(j & rest & Hj & E)]; rewrite E in Hs; [|done].
    injection Hs as <-. pose proof (sum_insert effort_weight _ _ _ exited Hi).
    pose proof (sum_insert work_weight _ _ _ exited Hi). rewrite length_insert. cbn [effort_weight work_weight] in *. lia.
  - apply wake_false in Hw as [-> _]. pose proof (sum_insert effort_weight _ _ _ sleeping Hi).
    rewrite length_insert. cbn [effort_weight] in *. split; [lia|done].
  - pose proof (sum_insert effort_weight _ _ _ checking Hi). pose proof (sum_insert work_weight _ _ _ checking Hi).
    rewrite length_insert. cbn [effort_weight work_weight] in *. lia.
  - destruct Hn as [ws i Hi|ws Hno]; [|lia]. pose proof (sum_insert effort_weight _ _ _ checking Hi).
    pose proof (sum_insert work_weight _ _ _ checking Hi). rewrite length_insert.
    cbn [effort_weight work_weight] in *. lia.
  - pose proof (effort_notify_all ws). pose proof (work_notify_all ws). unfold notify_all at 2. rewrite length_map. lia.
Qed.

Lemma spurious_step_work s s' : spurious_step s s' → (work s' < work s)%nat.
Proof.
  intros [p ws o a acc st fin i Hi]. unfold work. cbn [pool workers owed_one owed_all].
  pose proof (sum_insert work_weight _ _ _ checking Hi). cbn [work_weight] in *. lia.
Qed.

(** Nobody sleeps through a shutdown. *)
Lemma rest_stopped n max s :
  pool_inv n max s → stopping_ (pool s) = true → at_rest s → Forall (eq exited) (workers s).
Proof.
  intros Hi Hst Hrest. destruct (rest_workers s Hrest) as (_ & Ha & Hno). apply Forall_forall. intros w Hw.
  destruct w as [| |job|]; try done.
  - destruct Hno. apply Exists_exists. by eexists.
  - by destruct (inv_stop _ _ _ Hi Hst Ha).
  - destruct Hno. apply Exists_exists. by eexists.
Qed.
End Pool.

Arguments ThreadPool : clear implicits.
Arguments System : clear implicits.
Arguments Worker : clear implicits.

(** ** Claims *)

(** C36. The pool works: in every reachable state the queue holds at most
    [max_queue_size] jobs, the jobs were started in the order in which they were
    accepted, each one once, and those not yet started are exactly the ones in
    the queue.  And it does not stall: no notification is lost, so that when
    neither a worker nor a call that owes a notification can move - without
    counting on spurious wake-ups - every job ever accepted has run to its end;
    a state in which that is the case comes after at most [effort] steps unless
    jobs are added. *)
Theorem pool_never_stalls {Job} n max (s : System Job) :
  pool_reachable n max s →
  ((length (jobs_ (pool s)) <= max)%nat ∧ accepted s = started s ++ jobs_ (pool s) ∧
   started s ≡ₚ finished s ++ running_jobs (workers s)) ∧
  (∀ s', worker_step s s' → (effort s' < effort s)%nat) ∧
  ((∀ s', ¬ worker_step s s') → jobs_ (pool s) = [] ∧ accepted s ≡ₚ finished s).
Proof.
  intros Hr%reachable_inv. split; [split_and!; apply Hr|]. split.
  - intros s' Hs. by apply worker_step_bounds.
  - by apply (rest_done n max).
Qed.

(** C21. Shutdown drains the pool.  Once [stopping_] is set, no job is accepted;
    the workers and the owed notifications take at most [work] more steps,
    spurious wake-ups included; when none of them can move - without counting on
    spurious wake-ups - all the workers have ended, so that the joins of
    [shutdown] return: [notify_all] has reached every worker that slept; and
    then every job that was ever accepted has run to its end, so that the jobs
    which [shutdown] throws away are none. *)
Theorem pool_shutdown_drains {Job} n max (s : System Job) :
  pool_reachable n max s → stopping_ (pool s) = true →
  (∀ job, try_submit (pool s) job = (false, pool s)) ∧
  (∀ s', worker_step s s' ∨ spurious_step s s' → (work s' < work s)%nat) ∧
  ((∀ s', ¬ worker_step s s') → Forall (eq exited) (workers s)) ∧
  (Forall (eq exited) (workers s) → jobs_ (pool s) = [] ∧ accepted s ≡ₚ finished s).
Proof.
  intros Hr Hst. pose proof (reachable_inv _ _ _ Hr) as Hi. split_and!.
  - intros job. unfold try_submit. by rewrite Hst.
  - intros s' [Hs|Hs]; [by apply worker_step_bounds|by apply spurious_step_work].
  - by apply (rest_stopped n max).
  - intros Hall. destruct (inv_workers _ _ _ Hi) as [Hl Hn]. assert (exited ∈ workers s) as Hin.
    { destruct (workers s) as [|w ws]; [cbn in Hl; lia|]. apply Forall_cons in Hall as [<- _]. left. }
    destruct (inv_exit _ _ _ Hi Hin) as [_ Hj]. split; [done|].
    rewrite (inv_fifo _ _ _ Hi), Hj, app_nil_r, (inv_done _ _ _ Hi).
    rewrite (nobody_awake (workers s)), app_nil_r; [done|].
    intros [w [Hw Haw]]%Exists_exists. rewrite Forall_forall in Hall. by rewrite <- (Hall w Hw) in Haw.
Qed.

(** ** The hypotheses at a concrete pool *)

(** Two workers and room for two jobs.  The second worker has fallen asleep
    before the first job came; the first one runs that job, a second job waits
    with its notification still owed, and shutdown begins or not. *)
Definition demo_state (stop : bool) : System nat :=
  MkSystem {| max_queue_size_ := 2; jobs_ := [8%nat]; stopping_ := stop |} [running 7%nat; sleeping]
    2 (if stop then 1 else 0)%nat [7; 8]%nat [7%nat] [].

Lemma demo_state_reachable stop : pool_reachable 2 2 (demo_state stop).
Proof.
  eexists. split; [reflexivity|].
  eapply rtc_l; [apply step_worker; eapply (step_sleep _ _ _ _ _ _ _ 1); reflexivity|].
  eapply rtc_l; [eapply (step_submit _ _ _ _ _ _ _ 7%nat); reflexivity|].
  eapply rtc_l; [apply step_worker; eapply (step_take _ _ _ _ _ _ _ 0); reflexivity|].
  eapply rtc_l; [eapply (step_submit _ _ _ _ _ _ _ 8%nat); reflexivity|].
  destruct stop; [|apply rtc_refl].
  eapply rtc_l; [eapply step_stop; reflexivity|]. apply rtc_refl.
Qed.

Lemma pool_never_stalls_witness :
  accepted (demo_state false) = started (demo_state false) ++ jobs_ (pool (demo_state false)) ∧
  effort (demo_state false) = 8%nat.
Proof.
  split; [|reflexivity]. destruct (pool_never_stalls 2 2 _ (demo_state_reachable false)) as [(_ & H & _) _]. exact H.
Defined.

Lemma pool_shutdown_drains_witness :
  try_submit (pool (demo_state true)) 9%nat = (false, pool (demo_state true)) ∧ work (demo_state true) = 10%nat.
Proof.
  split; [|reflexivity]. apply (pool_shutdown_drains 2 2 _ (demo_state_reachable true) eq_refl).
Defined.
