(* ===== verification/Socket.v ===== *)
(** * Sockets

    [include/novacache/net/socket.hpp] and [src/net/socket.cpp]: how the results
    of the non-blocking calls are interpreted.  The successive results of a
    system call are a list that the calls consume; a list that ends stands for
    a socket that has nothing more to give, for which the call would block. *)

From S2P Require Import Prelude.

Inductive IoStatus := io_ok | would_block | closed.

#[export] Instance IoStatus_eq_decision : EqDecision IoStatus.
Proof. solve_decision. Defined.

Record IoResult := { io_status : IoStatus; io_bytes : Z }.

(** The values of [errno] that the code distinguishes; [EWOULDBLOCK] is
    [EAGAIN] on the target platform. *)
Inductive Errno := EINTR | EAGAIN | EOTHER.

(** The results of [recv(2)]: the bytes it stored, none at the end of the
    stream, or an error. *)
Inductive SysRecv := recv_data (data : bytes) | recv_error (e : Errno).

(** The results of [send(2)]: how many bytes it took, or an error. *)
Inductive SysSend := send_count (n : nat) | send_error (e : Errno).

(** The results of [accept(2)]. *)
Inductive SysAccept := accept_ok | accept_error (e : Errno).

(** [try_receive] with a buffer that is not empty; the bytes it stored in the
    buffer are the second part of the result. *)
Fixpoint try_receive (calls : list SysRecv) : result (IoResult * bytes) * list SysRecv :=
  match calls with
  | [] => (Ok ({| io_status := would_block; io_bytes := 0 |}, []), [])
  | recv_data [] :: calls' => (Ok ({| io_status := closed; io_bytes := 0 |}, []), calls')
  | recv_data data :: calls' => (Ok ({| io_status := io_ok; io_bytes := len data |}, data), calls')
  | recv_error EINTR :: calls' => try_receive calls'
  | recv_error EAGAIN :: calls' => (Ok ({| io_status := would_block; io_bytes := 0 |}, []), calls')
  | recv_error EOTHER :: calls' => (Throw (system_error "recv"), calls')
  end.

(** [send(2)] takes no more bytes than it is given. *)
Fixpoint try_send (data : bytes) (calls : list SysSend) : result IoResult * list SysSend :=
  match data with
  | [] => (Ok {| io_status := io_ok; io_bytes := 0 |}, calls)
  | _ :: _ =>
      match calls with
      | [] => (Ok {| io_status := would_block; io_bytes := 0 |}, [])
      | send_count 0 :: calls' => (Ok {| io_status := closed; io_bytes := 0 |}, calls')
      | send_count n :: calls' =>
          (Ok {| io_status := io_ok; io_bytes := Z.min (Z.of_nat n) (len data) |}, calls')
      | send_error EINTR :: calls' => try_send data calls'
      | send_error EAGAIN :: calls' => (Ok {| io_status := would_block; io_bytes := 0 |}, calls')
      | send_error EOTHER :: calls' => (Throw (system_error "send"), calls')
      end
  end.

(** [try_accept]: whether a connection was accepted.  [configured] is the
    outcome of [configure_no_sigpipe] on the new descriptor, which is closed
    again when that throws. *)
Fixpoint try_accept (configured : bool) (calls : list SysAccept) : result bool * list SysAccept :=
  match calls with
  | [] => (Ok false, [])
  | accept_ok :: calls' =>
      (if configured then Ok true else Throw (system_error "setsockopt(SO_NOSIGPIPE)"), calls')
  | accept_error EINTR :: calls' => try_accept configured calls'
  | accept_error EAGAIN :: calls' => (Ok false, calls')
  | accept_error EOTHER :: calls' => (Throw (system_error "accept"), calls')
  end.

(** [receive]: a call that would block is an error. *)
Definition receive_blocking (calls : list SysRecv) : result bytes * list SysRecv :=
  let '(r, calls') := try_receive calls in
  (let! (io, data) := r in
   match io_status io with
   | io_ok | closed => Ok data
   | would_block => Throw (system_error "recv")
   end, calls').

(** [send_all], and the bytes that were sent; one call of [try_send] per unit
    of fuel, each of which takes a result of [send(2)] off the list or ends the
    loop. *)
Fixpoint send_all_fuel (fuel : nat) (data : bytes) (calls : list SysSend)
    : result unit * bytes * list SysSend :=
  match fuel, data with
  | _, [] => (Ok tt, [], calls)
  | O, _ :: _ => (Throw (undefined_behaviour "out of fuel"), [], calls)
  | S fuel', _ :: _ =>
      let '(r, calls') := try_send data calls in
      match r with
      | Throw e => (Throw e, [], calls')
      | Ok io =>
          if bool_decide (io_status io = io_ok) && (io_bytes io >? 0)
          then let n := Z.to_nat (io_bytes io) in
               let '(r', sent, calls'') := send_all_fuel fuel' (drop n data) calls' in
               (r', take n data ++ sent, calls'')
          else (Throw (system_error "send"), [], calls')
      end
  end.

Definition send_all (data : bytes) (calls : list SysSend) : result unit * bytes * list SysSend :=
  send_all_fuel (S (length data)) data calls.

(** ** What the results mean *)

(** A call consumes results of the system, and data that was received came out
    of them. *)
Definition recv_total (calls : list SysRecv) : nat :=
  sum_list_with (λ c, match c with recv_data d => length d | _ => 0%nat end) calls.

Lemma recv_total_cons c calls :
  recv_total (c :: calls) = (match c with recv_data d => length d | _ => 0 end + recv_total calls)%nat.
Proof. done. Qed.

Lemma try_receive_spec calls r calls' :
  try_receive calls = (r, calls') →
  match r with
  | Ok (io, data) =>
      match io_status io with
      | io_ok => data ≠ [] ∧ io_bytes io = len data ∧ (length calls' < length calls)%nat ∧
                 (length data + recv_total calls' <= recv_total calls)%nat
      | _ => data = [] ∧ (length calls' <= length calls)%nat ∧ (recv_total calls' <= recv_total calls)%nat
      end
  | Throw e => e = system_error "recv"
  end.
Proof.
  revert r calls'. induction calls as [|c calls IH]; intros r calls'; cbn [try_receive].
  { by intros [= <- <-]. }
  destruct c as [[|b data]|[]].
  - intros [= <- <-]. cbn [io_status io_bytes length]; rewrite recv_total_cons. split; [done|]. cbn; lia.
  - intros [= <- <-]. cbn [io_status io_bytes length]; rewrite recv_total_cons. split; [done|]. split; [done|]. cbn; lia.
  - intros E. specialize (IH _ _ E). destruct r as [[io data]|e]; [|done]. cbn [length]; rewrite recv_total_cons.
    destruct (io_status io).
    + destruct IH as (? & ? & ? & ?). split; [done|]. split; [done|]. cbn; lia.
    + destruct IH as (? & ? & ?). split; [done|]. cbn; lia.
    + destruct IH as (? & ? & ?). split; [done|]. cbn; lia.
  - intros [= <- <-]. cbn [io_status io_bytes length]; rewrite recv_total_cons. split; [done|]. cbn; lia.
  - by intros [= <- <-].
Qed.

Lemma try_send_spec data calls r calls' :
  data ≠ [] → try_send data calls = (r, calls') →
  match r with
  | Ok io =>
      match io_status io with
      | io_ok => 0 < io_bytes io <= len data ∧ (length calls' < length calls)%nat
      | closed => send_count 0 ∈ calls ∧ (length calls' <= length calls)%nat
      | would_block => io_bytes io = 0 ∧ (length calls' <= length calls)%nat
      end
  | Throw e => e = system_error "send"
  end ∧ calls' ⊆ calls.
Proof.
  intros Hne. destruct data as [|b data]; [done|]. clear Hne. revert r calls'.
  induction calls as [|c calls IH]; intros r calls'; cbn [try_send].
  { intros [= <- <-]. split; [cbn; lia|set_solver]. }
  destruct c as [[|n]|[]].
  - intros [= <- <-]. cbn. split; [|set_solver]. split; [set_solver|lia].
  - intros [= <- <-]. cbn. split; [|set_solver]. len_solve.
  - intros E. destruct (IH _ _ E) as [IH' Hs]. split; [|set_solver]. destruct r as [io|e]; [|done]. cbn.
    destruct (io_status io).
    + destruct IH'. lia.
    + lia.
    + destruct IH'. split; [set_solver|lia].
  - intros [= <- <-]. cbn. split; [lia|set_solver].
  - intros [= <- <-]. split; [done|set_solver].
Qed.

Lemma send_all_fuel_spec fuel : ∀ data calls r sent calls',
  (length data < fuel)%nat → send_all_fuel fuel data calls = (r, sent, calls') →
  ∃ rest, data = sent ++ rest ∧ (r = Ok tt ↔ rest = []) ∧
          (∀ e, r = Throw e → e = system_error "send").
Proof.
  induction fuel as [|fuel IH]; intros data calls r sent calls' Hf; [lia|].
  destruct data as [|b data]; cbn [send_all_fuel].
  { intros [= <- <- <-]. exists []. split; [done|]. split; [done|]. by intros e [=]. }
  set (d := b :: data) in *. assert (d ≠ []) as Hd by done. clearbody d.
  assert (∀ e, e = system_error "send" → ∃ rest, d = [] ++ rest ∧ (@Throw unit e = Ok tt ↔ rest = []) ∧
            (∀ e', @Throw unit e = Throw e' → e' = system_error "send")) as Hstop.
  { intros e ->. exists d. split; [done|]. split; [done|]. by intros e' [= <-]. }
  destruct (try_send d calls) as [[io|e] c1] eqn:E; destruct (try_send_spec _ _ _ _ Hd E) as [Hs _];
    [|intros [= <- <- <-]; by apply Hstop].
  case_bool_decide as Hio; cbn [andb]; [|intros [= <- <- <-]; by apply Hstop].
  rewrite Hio in Hs. cond_case; [|lia].
  destruct (send_all_fuel fuel _ c1) as [[r' s'] c2] eqn:E2. intros [= <- <- <-].
  apply IH in E2 as (rest & Hr & Hok & He); [|len_solve].
  exists rest. split; [|done]. by rewrite <- app_assoc, <- Hr, take_drop.
Qed.

Lemma try_accept_spec configured calls r calls' :
  try_accept configured calls = (r, calls') →
  (length calls' <= length calls)%nat ∧
  match r with
  | Ok true => (length calls' < length calls)%nat
  | Ok false => True
  | Throw e => ∃ operation, e = system_error operation
  end.
Proof.
  revert r calls'. induction calls as [|c calls IH]; intros r calls'; cbn [try_accept]; [by intros [= <- <-]|].
  destruct c as [|[]].
  - intros [= <- <-]. cbn. destruct configured; (split; [lia|]); [lia|by eexists].
  - intros E. destruct (IH _ _ E) as [Hl Hr]. cbn. split; [lia|]. destruct r as [[]|]; [lia|done|done].
  - intros [= <- <-]. cbn. split; [lia|done].
  - intros [= <- <-]. cbn. split; [lia|by eexists].
Qed.
