(* ===== verification/Connect.v ===== *)
(** * Making sockets

    The rest of [src/net/socket.cpp]: [connect] and [listen], which try the
    addresses that [getaddrinfo] gives one after the other, and the small calls
    on a socket.  The state is the set of the open descriptors of the process;
    what the kernel answers for an address is part of the address. *)

From S2P Require Import Prelude CharConv Disk Socket.

(** The values of [errno] on the BSD systems that the code is for. *)
Definition E_INTR : Z := 4.
Definition E_ADDRNOTAVAIL : Z := 49.
Definition E_ISCONN : Z := 56.
Definition E_CONNREFUSED : Z := 61.

(** An address and what the kernel answers: the descriptor of [socket(2)] or its
    error, whether [SO_NOSIGPIPE] can be set, the successive results of
    [connect(2)] ([None] when it succeeds), and the errors of [SO_REUSEADDR], of
    [bind(2)] and of [listen(2)], if any. *)
Record Address := {
  ad_socket : Z + Z;
  ad_configured : bool;
  ad_connects : list (option Z);
  ad_reuse : option Z;
  ad_bind : option Z;
  ad_listen : option Z;
}.

Abbreviation Descriptors := (gset Z).

Definition fd_open (fd : Z) : Exec Descriptors unit := modify (λ o, o ∪ {[ fd ]}).
Definition fd_close (fd : Z) : Exec Descriptors unit := modify (λ o, o ∖ {[ fd ]}).

(** ** Addresses *)

Inductive Family := AF_UNSPEC | AF_INET | AF_INET6 | AF_OTHER.

Definition SOCK_STREAM : Z := 1.
Definition IPPROTO_TCP : Z := 6.
Definition AI_PASSIVE : Z := 1.

(** The fields of [addrinfo] that are hints. *)
Record Hints := { ai_family : Family; ai_socktype : Z; ai_protocol : Z; ai_flags : Z }.

(** [getaddrinfo] of a node, a service and hints: the text of its error, or the
    addresses. *)
Abbreviation Resolver := (option bytes → bytes → Hints → string + list Address).

(** [AddressInfo::AddressInfo]; [freeaddrinfo] is called when the object ends. *)
Definition address_info (getaddrinfo : Resolver) (host service : bytes) (flags : Z) : result (list Address) :=
  let hints := {| ai_family := AF_UNSPEC; ai_socktype := SOCK_STREAM; ai_protocol := IPPROTO_TCP; ai_flags := flags |} in
  let node := match host with [] => None | _ :: _ => Some host end in
  match getaddrinfo node service hints with
  | inl message => Throw (runtime_error ("getaddrinfo: " ++ message))
  | inr addresses => Ok addresses
  end.

(** ** Connecting and listening *)

(** [create_descriptor]: a descriptor or the error. *)
Definition create_descriptor (a : Address) : Exec Descriptors (Z + Z) :=
  match ad_socket a with
  | inr e => ret (inr e)
  | inl fd =>
      fd_open fd ;;
      if ad_configured a then ret (inl fd)
      else fd_close fd ;; raise (system_error "setsockopt(SO_NOSIGPIPE)")
  end.

(** The inner loop of [connect]: the error, if any.  A list of results that ends
    stands for a connection that is refused. *)
Fixpoint connect_calls (calls : list (option Z)) : option Z :=
  match calls with
  | [] => Some E_CONNREFUSED
  | None :: _ => None
  | Some e :: calls' =>
      if e =? E_INTR then connect_calls calls' else if e =? E_ISCONN then None else Some e
  end.

(** The loop over the addresses: the descriptor, or the last error. *)
Fixpoint connect_loop (addresses : list Address) (last_error : Z) : Exec Descriptors (Z + Z) :=
  match addresses with
  | [] => ret (inr last_error)
  | a :: addresses' =>
      do! d := create_descriptor a in
      match d with
      | inr e => connect_loop addresses' e
      | inl fd =>
          match connect_calls (ad_connects a) with
          | None => ret (inl fd)
          | Some e => fd_close fd ;; connect_loop addresses' e
          end
      end
  end.

(** [connect] on the addresses of the host. *)
Definition connect_any (addresses : list Address) : Exec Descriptors Z :=
  do! d := connect_loop addresses E_CONNREFUSED in
  match d with inl fd => ret fd | inr _ => raise (system_error "connect") end.

Definition socket_connect (getaddrinfo : Resolver) (host : bytes) (port : Z) : Exec Descriptors Z :=
  do! addresses := lift (address_info getaddrinfo host (to_chars port) 0) in connect_any addresses.

(** The three calls that make a descriptor listen: the first error. *)
Definition listen_calls (a : Address) : option Z :=
  match ad_reuse a with
  | Some e => Some e
  | None => match ad_bind a with Some e => Some e | None => ad_listen a end
  end.

Fixpoint listen_loop (addresses : list Address) (last_error : Z) : Exec Descriptors (Z + Z) :=
  match addresses with
  | [] => ret (inr last_error)
  | a :: addresses' =>
      do! d := create_descriptor a in
      match d with
      | inr e => listen_loop addresses' e
      | inl fd =>
          match listen_calls a with
          | None => ret (inl fd)
          | Some e => fd_close fd ;; listen_loop addresses' e
          end
      end
  end.

Definition listen_any (addresses : list Address) : Exec Descriptors Z :=
  do! d := listen_loop addresses E_ADDRNOTAVAIL in
  match d with inl fd => ret fd | inr _ => raise (system_error "bind/listen") end.

Definition socket_listen (getaddrinfo : Resolver) (host : bytes) (port backlog : Z) : Exec Descriptors Z :=
  if backlog <=? 0 then raise (invalid_argument "socket backlog must be positive")
  else do! addresses := lift (address_info getaddrinfo host (to_chars port) AI_PASSIVE) in listen_any addresses.

(** [accept] on a blocking socket. *)
Fixpoint accept_blocking (configured : bool) (calls : list SysAccept) : result unit * list SysAccept :=
  match calls with
  | [] => (Throw (system_error "accept"), [])
  | accept_ok :: calls' =>
      (if configured then Ok tt else Throw (system_error "setsockopt(SO_NOSIGPIPE)"), calls')
  | accept_error EINTR :: calls' => accept_blocking configured calls'
  | accept_error _ :: calls' => (Throw (system_error "accept"), calls')
  end.

Definition O_NONBLOCK : Z := 4.

(** [set_nonblocking] with the flags that [F_GETFL] gave: those that it sets. *)
Definition set_nonblocking (enabled : bool) (flags : option Z) (set_ok : bool) : result Z :=
  match flags with
  | None => throw system_error "fcntl(F_GETFL)"
  | Some flags =>
      let updated := if enabled then Z.lor flags O_NONBLOCK else Z.land flags (Z.lnot O_NONBLOCK) in
      if set_ok then Ok updated else throw system_error "fcntl(F_SETFL)"
  end.

(** [local_port] of the address that [getsockname] gave: its family and the two
    bytes of its port in network order. *)
Definition local_port (name : option (Family * byte * byte)) : result Z :=
  match name with
  | None => throw system_error "getsockname"
  | Some ((AF_OTHER | AF_UNSPEC), _, _) => throw runtime_error "socket has an unsupported address family"
  | Some (_, high, low) => Ok (byte_val high * 256 + byte_val low)
  end.

(** ** No descriptor is lost *)

(** The descriptors that the kernel gives are not in use. *)
Fixpoint fresh_sockets (addresses : list Address) (o : Descriptors) : Prop :=
  match addresses with
  | [] => True
  | a :: addresses' => (∀ fd, ad_socket a = inl fd → fd ∉ o) ∧ fresh_sockets addresses' o
  end.

(** An address that works, by the calls [attempt] after the descriptor is made. *)
Definition works (attempt : Address → option Z) (a : Address) : bool :=
  match ad_socket a with inl _ => ad_configured a && bool_decide (attempt a = None) | inr _ => false end.

(** The outcome of a loop over addresses: the descriptor of the first address
    that works is the only one left open, and otherwise none is. *)
Definition tries (attempt : Address → option Z) (addresses : list Address) (o : Descriptors)
    (r : result (Z + Z)) (o' : Descriptors) : Prop :=
  match r with
  | Ok (inl fd) => o' = o ∪ {[ fd ]} ∧
      ∃ before a after, addresses = before ++ a :: after ∧ ad_socket a = inl fd ∧ works attempt a = true ∧
        Forall (λ b, works attempt b = false) before
  | Ok (inr _) => o' = o ∧ Forall (λ b, works attempt b = false) addresses
  | Throw e => o' = o ∧ e = system_error "setsockopt(SO_NOSIGPIPE)"
  end.

Lemma tries_cons attempt a addresses o r o' :
  works attempt a = false → tries attempt addresses o r o' → tries attempt (a :: addresses) o r o'.
Proof.
  intros Ha. destruct r as [[fd|e]|e]; cbn [tries].
  - intros (-> & before & b & after & -> & Hs & Hb & Hbefore). split; [done|].
    exists (a :: before), b, after. split; [done|]. split; [done|]. split; [done|]. by constructor.
  - intros [-> Hall]. split; [done|]. by constructor.
  - done.
Qed.

Section Loops.
Context (attempt : Address → option Z) (loop : list Address → Z → Exec Descriptors (Z + Z)).
Hypothesis loop_nil : ∀ e, loop [] e = ret (inr e).
Hypothesis loop_cons : ∀ a addresses e, loop (a :: addresses) e =
  do! d := create_descriptor a in
  match d with
  | inr e => loop addresses e
  | inl fd => match attempt a with None => ret (inl fd) | Some e => fd_close fd ;; loop addresses e end
  end.

Lemma loop_tries addresses : ∀ e o r o',
  fresh_sockets addresses o → loop addresses e o = (r, o') → tries attempt addresses o r o'.
Proof.
  induction addresses as [|a addresses IH]; intros e o r o'.
  { rewrite loop_nil. intros _ [= <- <-]. by split. }
  intros [Hfd Hfresh]. rewrite loop_cons. unfold create_descriptor, fd_open, fd_close.
  destruct (ad_socket a) as [fd|e'] eqn:Es.
  - specialize (Hfd fd eq_refl). unfold exec_bind, modify, ret, raise.
    assert ((o ∪ {[fd]}) ∖ {[fd]} = o) as Hback by set_solver.
    destruct (ad_configured a) eqn:Ec; rewrite ?Hback; [|by intros [= <- <-]].
    destruct (attempt a) as [e'|] eqn:Ea; rewrite ?Hback.
    + intros E. apply tries_cons; [by unfold works; rewrite Es, Ec, Ea|]. by eapply IH.
    + intros [= <- <-]. split; [done|]. exists [], a, addresses. split; [done|]. split; [done|].
      split; [by unfold works; rewrite Es, Ec, Ea|done].
  - unfold exec_bind, ret. intros E. apply tries_cons; [by unfold works; rewrite Es|]. by eapply IH.
Qed.
End Loops.

(** When [attempt] is what a loop tries, every call succeeded for the address it
    stops at. *)
Lemma works_attempt attempt a : works attempt a = true → ad_configured a = true ∧ attempt a = None.
Proof. unfold works. destruct (ad_socket a); [|done]. by intros [? ?%bool_decide_eq_true]%andb_true_iff. Qed.

Lemma address_info_fresh (getaddrinfo : Resolver) host service flags addresses o :
  (∀ node service hints l, getaddrinfo node service hints = inr l → fresh_sockets l o) →
  address_info getaddrinfo host service flags = Ok addresses → fresh_sockets addresses o.
Proof.
  intros Hf. unfold address_info. destruct (getaddrinfo _ _ _) as [m|l] eqn:E; [done|]. intros [= <-]. by eapply Hf.
Qed.

(** C28. Making a socket loses no descriptor, whatever the kernel answers: when
    [connect] or [listen] returns, the descriptor it returns is the one more that
    is open, and it belongs to the first address of the host for which every call
    succeeded - [socket], [SO_NOSIGPIPE], and [connect], or [SO_REUSEADDR],
    [bind] and [listen]; when it throws, the descriptors open are those that were open
    before. *)
Theorem sockets_leak_nothing (getaddrinfo : Resolver) host port o :
  (∀ node service hints l, getaddrinfo node service hints = inr l → fresh_sockets l o) →
  (∀ r o', socket_connect getaddrinfo host port o = (r, o') →
     match r with
     | Ok fd => o' = o ∪ {[ fd ]} ∧ ∃ before a after,
         address_info getaddrinfo host (to_chars port) 0 = Ok (before ++ a :: after) ∧ ad_socket a = inl fd ∧
         ad_configured a = true ∧ connect_calls (ad_connects a) = None ∧
         Forall (λ b, works (λ a, connect_calls (ad_connects a)) b = false) before
     | Throw _ => o' = o
     end) ∧
  (∀ backlog r o', socket_listen getaddrinfo host port backlog o = (r, o') →
     match r with
     | Ok fd => 0 < backlog ∧ o' = o ∪ {[ fd ]} ∧ ∃ before a after,
         address_info getaddrinfo host (to_chars port) AI_PASSIVE = Ok (before ++ a :: after) ∧
         ad_socket a = inl fd ∧ ad_configured a = true ∧ listen_calls a = None ∧
         Forall (λ b, works listen_calls b = false) before
     | Throw _ => o' = o
     end).
Proof.
  intros Hfresh. split.
  - intros r o'. unfold socket_connect, connect_any, exec_bind, lift.
    destruct (address_info getaddrinfo host _ 0) as [addresses|e] eqn:Ea; [|by intros [= <- <-]].
    apply (address_info_fresh _ _ _ _ _ o Hfresh) in Ea as Hfr.
    destruct (connect_loop addresses _ o) as [r1 o1] eqn:E.
    apply (loop_tries (λ a, connect_calls (ad_connects a)) connect_loop) in E; [|done|done|done].
    destruct r1 as [[fd|e]|e]; cbn [tries] in E; intros [= <- <-]; [|apply E..].
    destruct E as (-> & before & a & after & -> & Hs & [Hc Ha]%works_attempt & Hb). split; [done|].
    by exists before, a, after.
  - intros backlog r o'. unfold socket_listen, listen_any, exec_bind, lift. cond_case; [by intros [= <- <-]|].
    destruct (address_info getaddrinfo host _ AI_PASSIVE) as [addresses|e] eqn:Ea; [|by intros [= <- <-]].
    apply (address_info_fresh _ _ _ _ _ o Hfresh) in Ea as Hfr.
    destruct (listen_loop addresses _ o) as [r1 o1] eqn:E. apply (loop_tries listen_calls listen_loop) in E; [|done|done|done].
    destruct r1 as [[fd|e]|e]; cbn [tries] in E; intros [= <- <-]; [|apply E..].
    destruct E as (-> & before & a & after & -> & Hs & [Hc Ha]%works_attempt & Hb). split; [lia|]. split; [done|].
    by exists before, a, after.
Qed.

(** Two addresses, of which the second accepts after an interruption. *)
Definition demo_addresses : list Address := [
  {| ad_socket := inl 5; ad_configured := true; ad_connects := [Some E_CONNREFUSED]; ad_reuse := None;
     ad_bind := Some E_ADDRNOTAVAIL; ad_listen := None |};
  {| ad_socket := inl 6; ad_configured := true; ad_connects := [Some E_INTR; None]; ad_reuse := None;
     ad_bind := None; ad_listen := None |}].

(** A resolver that knows these addresses for every host. *)
Definition demo_resolver : Resolver := λ _ _ _, inr demo_addresses.

Lemma sockets_leak_nothing_witness :
  socket_connect demo_resolver (str "localhost") 6379 {[ 0; 1; 2 ]} = (Ok 6, {[ 0; 1; 2 ]} ∪ {[ 6 ]}).
Proof.
  assert (∀ node service hints l, demo_resolver node service hints = inr l → fresh_sockets l {[ 0; 1; 2 ]}) as Hf.
  { intros node service hints l [= <-]. split; [|split; [|done]]; intros fd [= <-]; set_solver. }
  destruct (socket_connect demo_resolver (str "localhost") 6379 {[ 0; 1; 2 ]}) as [r o'] eqn:E.
  assert (r = Ok 6) as -> by (apply (f_equal fst) in E; vm_compute in E; by symmetry).
  destruct (proj1 (sockets_leak_nothing demo_resolver (str "localhost") 6379 {[ 0; 1; 2 ]} Hf) _ _ E) as [-> _]. reflexivity.
Defined.
