(* ===== verification/Ownership.v ===== *)
(** * The ownership of descriptors

    The rest of the class [Socket] of [src/net/socket.cpp]: an object owns the
    descriptor that it holds.  The state is what the objects that are alive hold
    and which descriptors the process has open; [closes] records the calls of
    [close(2)] that the objects make, with their outcome. *)

From S2P Require Import Prelude Disk Socket Connect.

Record Sockets := MkSockets {
  objects : gmap nat Z;
  descriptors : Descriptors;
  closes : list (Z * bool);
}.

Definition set_objects (m : gmap nat Z) (s : Sockets) : Sockets := MkSockets m (descriptors s) (closes s).

(** [close(2)]: it fails on a descriptor that is not open. *)
Definition sys_close (fd : Z) (s : Sockets) : Sockets :=
  MkSockets (objects s) (descriptors s ∖ {[ fd ]}) (closes s ++ [(fd, bool_decide (fd ∈ descriptors s))]).

(** What the object [x] holds.  Using an object that is not alive has no defined
    meaning. *)
Definition descriptor_ (x : nat) : Exec Sockets Z := λ s,
  match objects s !! x with
  | Some fd => (Ok fd, s)
  | None => (Throw (undefined_behaviour "object out of its lifetime"), s)
  end.

Definition store_descriptor (x : nat) (fd : Z) : Exec Sockets unit := modify (λ s, set_objects (<[x := fd]> (objects s)) s).

(** [std::exchange(other.descriptor_, -1)]. *)
Definition exchange (x : nat) : Exec Sockets Z := do! fd := descriptor_ x in store_descriptor x (-1) ;; ret fd.

(** [Socket{}] and [Socket{descriptor}], for a new object [x]. *)
Definition construct_empty (x : nat) : Exec Sockets unit := store_descriptor x (-1).
Definition construct_owner (x : nat) (fd : Z) : Exec Sockets unit := store_descriptor x fd.

Definition move_construct (x other : nat) : Exec Sockets unit :=
  do! fd := exchange other in store_descriptor x fd.

Definition close_socket (x : nat) : Exec Sockets unit :=
  do! fd := descriptor_ x in
  if 0 <=? fd then modify (sys_close fd) ;; store_descriptor x (-1) else ret tt.

Definition move_assign (x other : nat) : Exec Sockets unit :=
  if (x =? other)%nat then ret tt
  else close_socket x ;; do! fd := exchange other in store_descriptor x fd.

(** The destructor, after which the object is not alive. *)
Definition destroy_socket (x : nat) : Exec Sockets unit :=
  close_socket x ;; modify (λ s, set_objects (delete x (objects s)) s).

Definition native_handle (x : nat) : Exec Sockets Z := descriptor_ x.
Definition socket_bool (x : nat) : Exec Sockets bool := do! fd := descriptor_ x in ret (0 <=? fd).

(** [shutdown] calls [shutdown(2)], whose result is ignored, on the descriptor
    that is given back, if any; the descriptor stays open. *)
Definition socket_shutdown (x : nat) : Exec Sockets (option Z) :=
  do! fd := descriptor_ x in ret (if 0 <=? fd then Some fd else None).

(** ** The programs that use sockets

    A program makes a socket from a descriptor that the kernel has just given it,
    moves its sockets, and destroys the objects that are alive. *)
Inductive SocketOp :=
| op_default (x : nat)
| op_open (x : nat) (fd : Z)
| op_move (x other : nat)
| op_assign (x other : nat)
| op_destroy (x : nat)
| op_shutdown (x : nat).

(** The objects of an operation are alive, or new; a descriptor that the kernel
    gives is not in use. *)
Definition op_allowed (op : SocketOp) (s : Sockets) : Prop :=
  match op with
  | op_default x => objects s !! x = None
  | op_open x fd => objects s !! x = None ∧ 0 <= fd ∧ fd ∉ descriptors s
  | op_move x other => objects s !! x = None ∧ is_Some (objects s !! other)
  | op_assign x other => is_Some (objects s !! x) ∧ is_Some (objects s !! other)
  | op_destroy x | op_shutdown x => is_Some (objects s !! x)
  end.

Definition run_op (op : SocketOp) : Exec Sockets unit :=
  match op with
  | op_default x => construct_empty x
  | op_open x fd =>
      modify (λ s, MkSockets (objects s) ({[ fd ]} ∪ descriptors s) (closes s)) ;; construct_owner x fd
  | op_move x other => move_construct x other
  | op_assign x other => move_assign x other
  | op_destroy x => destroy_socket x
  | op_shutdown x => do! _ := socket_shutdown x in ret tt
  end.

Inductive socket_step (s : Sockets) : Sockets → Prop :=
| step_op op s' : op_allowed op s → run_op op s = (Ok tt, s') → socket_step s s'.

Definition no_sockets : Sockets := MkSockets ∅ ∅ [].

(** ** Every descriptor has one owner *)

Record owned (s : Sockets) : Prop := {
  ow_open : ∀ x fd, objects s !! x = Some fd → 0 <= fd → fd ∈ descriptors s;
  ow_owner : ∀ fd, fd ∈ descriptors s → 0 <= fd ∧ ∃ x, objects s !! x = Some fd;
  ow_one : ∀ x y fd, objects s !! x = Some fd → objects s !! y = Some fd → 0 <= fd → x = y;
  ow_closes : Forall (λ c, c.2 = true) (closes s);
}.

(** A new or empty object that holds no descriptor. *)
Lemma owned_empty x s :
  owned s → (∀ fd, objects s !! x = Some fd → fd < 0) → owned (set_objects (<[x := -1]> (objects s)) s).
Proof.
  intros [H1 H2 H3 H4] Hx. split; cbn [objects descriptors closes set_objects]; try done.
  - intros y fd [[_ <-]|[_ Hy]]%lookup_insert_Some Hfd; [lia|by eapply H1].
  - intros fd (Hfd & y & Hy)%H2. split; [done|]. exists y. rewrite lookup_insert_ne; [done|].
    intros ->. specialize (Hx fd Hy). lia.
  - intros y z fd [[_ Ey]|[_ Hy]]%lookup_insert_Some [[_ Ez]|[_ Hz]]%lookup_insert_Some Hfd; [lia..|]. by eapply H3.
Qed.

(** An object that holds none takes the descriptor of another one. *)
Lemma owned_move x other fd s :
  owned s → x ≠ other → objects s !! other = Some fd → (∀ fd, objects s !! x = Some fd → fd < 0) →
  owned (set_objects (<[x := fd]> (<[other := -1]> (objects s))) s).
Proof.
  intros [H1 H2 H3 H4] Hne Hother Hx. split; cbn [objects descriptors closes set_objects]; try done.
  - intros y f [[_ <-]|[_ [[_ <-]|[_ Hy]]%lookup_insert_Some]]%lookup_insert_Some Hf; [by eapply H1|lia|by eapply H1].
  - intros f (Hf & y & Hy)%H2. split; [done|]. destruct (decide (y = other)) as [->|Hy1].
    + exists x. rewrite lookup_insert_eq. congruence.
    + exists y. rewrite !lookup_insert_ne; [done|done|]. intros ->. specialize (Hx f Hy). lia.
  - assert (∀ y f, <[x := fd]> (<[other := -1]> (objects s)) !! y = Some f → 0 <= f →
      ∃ y', objects s !! y' = Some f ∧ y = if decide (y' = other) then x else y') as Horigin.
    { intros y f [[<- <-]|[Hy1 [[_ Ef]|[Hy2 Hy]]%lookup_insert_Some]]%lookup_insert_Some Hf; [|lia|].
      - exists other. by rewrite decide_True.
      - exists y. by rewrite decide_False. }
    intros y z f Hy Hz Hf. apply Horigin in Hy as (y' & Hy & ->); [|done]. apply Horigin in Hz as (z' & Hz & ->); [|done].
    by rewrite (H3 y' z' f Hy Hz Hf).
Qed.

Lemma close_socket_owned x fd s :
  owned s → objects s !! x = Some fd →
  ∃ s', close_socket x s = (Ok tt, s') ∧ owned s' ∧ (∃ fd', objects s' !! x = Some fd' ∧ fd' < 0) ∧
    (∀ y, y ≠ x → objects s' !! y = objects s !! y).
Proof.
  intros Ho Hx. destruct Ho as [H1 H2 H3 H4] eqn:EH. clear EH. unfold close_socket, exec_bind, descriptor_. rewrite Hx.
  destruct (Z.leb_spec 0 fd) as [Hfd|Hfd].
  2: { exists s. split; [done|]. split; [done|]. split; [by exists fd|done]. }
  eexists. split; [reflexivity|]. unfold sys_close, store_descriptor, set_objects. cbn [objects descriptors closes].
  split; [|split; [exists (-1); rewrite lookup_insert_eq; split; [done|lia]|intros y Hy; by rewrite lookup_insert_ne]].
  split; cbn [objects descriptors closes].
  - intros y f [[_ <-]|[Hy1 Hy]]%lookup_insert_Some Hf; [lia|]. apply elem_of_difference. split; [by eapply H1|].
    rewrite elem_of_singleton. intros ->. apply Hy1. by eapply H3.
  - intros f [Hin Hne]%elem_of_difference. apply H2 in Hin as (Hf & y & Hy). split; [done|]. exists y.
    rewrite lookup_insert_ne; [done|]. intros ->. apply Hne, elem_of_singleton. congruence.
  - intros y z f [[_ Ey]|[Hy1 Hy]]%lookup_insert_Some [[_ Ez]|[Hz1 Hz]]%lookup_insert_Some Hf; [lia..|]. by eapply H3.
  - apply Forall_app. split; [done|]. apply Forall_singleton, bool_decide_eq_true. by eapply H1.
Qed.

Lemma owned_open x fd s :
  owned s → objects s !! x = None → 0 <= fd → fd ∉ descriptors s →
  owned (MkSockets (<[x := fd]> (objects s)) ({[ fd ]} ∪ descriptors s) (closes s)).
Proof.
  intros [H1 H2 H3 H4] Hx Hfd Hn.
  assert (∀ y f, objects s !! y = Some f → 0 <= f → f ≠ fd) as Hnew by (intros y f Hy Hf ->; by eapply Hn, H1).
  split; cbn [objects descriptors closes]; try done.
  - intros y f [[_ <-]|[_ Hy]]%lookup_insert_Some Hf; [set_solver|]. apply elem_of_union_r. by eapply H1.
  - intros f [->%elem_of_singleton|Hin]%elem_of_union; [split; [done|]; exists x; by rewrite lookup_insert_eq|].
    apply H2 in Hin as (Hf & y & Hy). split; [done|]. exists y. rewrite lookup_insert_ne; [done|congruence].
  - intros y z f [[Hy1 Hy2]|[Hy1 Hy]]%lookup_insert_Some [[Hz1 Hz2]|[Hz1 Hz]]%lookup_insert_Some Hf; [congruence| | |by eapply H3].
    + subst. by destruct (Hnew z f Hz Hf).
    + subst. by destruct (Hnew y f Hy Hf).
Qed.

Lemma owned_delete x s :
  owned s → (∀ fd, objects s !! x = Some fd → fd < 0) → owned (set_objects (delete x (objects s)) s).
Proof.
  intros [H1 H2 H3 H4] Hx. split; cbn [objects descriptors closes set_objects]; try done.
  - intros y fd [_ Hy]%lookup_delete_Some Hfd. by eapply H1.
  - intros fd (Hfd & y & Hy)%H2. split; [done|]. exists y. rewrite lookup_delete_ne; [done|].
    intros ->. specialize (Hx fd Hy). lia.
  - intros y z fd [_ Hy]%lookup_delete_Some [_ Hz]%lookup_delete_Some Hfd. by eapply H3.
Qed.

(** An operation whose objects are in their lifetimes returns, and keeps the
    ownership. *)
Lemma run_op_owned op s : owned s → op_allowed op s → ∃ s', run_op op s = (Ok tt, s') ∧ owned s'.
Proof.
  intros Ho. destruct op as [x|x fd|x other|x other|x|x]; cbn [run_op op_allowed].
  - intros Hx. eexists. split; [reflexivity|]. apply owned_empty; [done|congruence].
  - intros (Hx & Hfd & Hn). eexists. split; [reflexivity|]. exact (owned_open x fd s Ho Hx Hfd Hn).
  - intros (Hx & fd & Hother). unfold move_construct, exchange, exec_bind, descriptor_. rewrite Hother.
    eexists. split; [reflexivity|]. apply (owned_move x other fd s); [done|intros ->; congruence|done|congruence].
  - intros ([fd Hx] & [fd' Hother]). unfold move_assign. destruct (Nat.eqb_spec x other) as [_|Hne]; [by eexists|].
    destruct (close_socket_owned x fd s Ho Hx) as (s1 & E & Ho1 & (fd1 & Hx1 & Hneg) & Hsame).
    rewrite exec_bind_seq, E. unfold exchange, exec_bind, descriptor_. rewrite (Hsame other), Hother by done.
    eexists. split; [reflexivity|]. apply (owned_move x other fd' s1); [done|done|by rewrite Hsame|].
    intros f Hf. rewrite Hx1 in Hf. by injection Hf as <-.
  - intros [fd Hx]. destruct (close_socket_owned x fd s Ho Hx) as (s1 & E & Ho1 & (fd1 & Hx1 & Hneg) & _).
    unfold destroy_socket. rewrite exec_bind_seq, E. eexists. split; [reflexivity|]. apply owned_delete; [done|].
    intros f Hf. rewrite Hx1 in Hf. by injection Hf as <-.
  - intros [fd Hx]. unfold socket_shutdown, exec_bind, descriptor_. rewrite Hx. by eexists.
Qed.

Lemma socket_reachable_owned s : rtc socket_step no_sockets s → owned s.
Proof.
  intros Hs. assert (owned no_sockets) as Hinit by (split; cbn; set_solver).
  induction Hs as [|s1 s2 s3 [op s2' Hop E] _ IH]; [done|]. apply IH.
  destruct (run_op_owned op s1 Hinit Hop) as (s' & E' & Ho'). rewrite E in E'. by injection E' as <-.
Qed.

(** C27. Descriptors are owned: however a program makes, moves, assigns (also to
    themselves), shuts down and destroys its sockets, every operation returns,
    every open descriptor is held by exactly one of them, no descriptor is closed
    twice or after it was given to another socket, and when no socket is left,
    no descriptor is open. *)
Theorem descriptors_have_one_owner s :
  rtc socket_step no_sockets s →
  (∀ op, op_allowed op s → ∃ s', run_op op s = (Ok tt, s')) ∧
  (∀ fd, fd ∈ descriptors s ↔ 0 <= fd ∧ exists! x, objects s !! x = Some fd) ∧
  Forall (λ c, c.2 = true) (closes s) ∧
  (objects s = ∅ → descriptors s = ∅).
Proof.
  intros Hs%socket_reachable_owned. destruct Hs as [H1 H2 H3 H4] eqn:EH. clear EH. split_and!; [| |done|].
  - intros op Hop. destruct (run_op_owned op s Hs Hop) as (s' & E & _). by exists s'.
  - intros fd. split.
    + intros (Hfd & x & Hx)%H2. split; [done|]. exists x. split; [done|]. intros y Hy. by eapply H3.
    + intros (Hfd & x & Hx & _). by eapply H1.
  - intros He. apply set_eq. intros fd. split; [|set_solver]. intros (_ & x & Hx)%H2. rewrite He, lookup_empty in Hx. done.
Qed.

(** ** Witness *)

(** The client's socket: connected, moved out of [connect], and destroyed after
    the shell of the moved object. *)
Definition demo_moved : Sockets := MkSockets {[ 2%nat := 6 ]} {[ 6 ]} [].

Lemma demo_moved_reachable : rtc socket_step no_sockets demo_moved.
Proof.
  eapply rtc_l; [eapply (step_op _ (op_open 1 6)); [cbn; split; [done|split; [lia|set_solver]]|reflexivity]|].
  eapply rtc_l; [eapply (step_op _ (op_move 2 1)); [cbn; split; [done|by eexists]|reflexivity]|].
  eapply rtc_l; [eapply (step_op _ (op_destroy 1)); [cbn; by eexists|reflexivity]|].
  match goal with |- rtc _ ?a _ => replace a with demo_moved by (vm_compute; reflexivity) end. apply rtc_refl.
Qed.

Lemma descriptors_have_one_owner_witness : exists! x, objects demo_moved !! x = Some 6.
Proof.
  destruct (descriptors_have_one_owner demo_moved demo_moved_reachable) as (_ & H & _ & _).
  apply (H 6). cbn. set_solver.
Defined.
