(* ===== verification/Reactor.v ===== *)
(** * The reactor

    [include/novacache/net/reactor.hpp] and [src/net/reactor.cpp]: the interests
    registered with kqueue and the merging of the events it delivers.  The
    state is what the kernel holds - the filters of each descriptor - and the
    reactor's own table [registered_]. *)

From S2P Require Import Prelude Disk.

(** ** Interests *)

(** [Interest] is an enumeration over [std::uint8_t] with bitwise operators. *)
Abbreviation Interest := Z (only parsing).
Definition interest_none : Interest := 0.
Definition interest_read : Interest := 1.
Definition interest_write : Interest := 2.

Definition interest_or (left right : Interest) : Interest := Z.lor left right.
Definition interest_and (left right : Interest) : Interest := Z.land left right.

(** The compound assignments, on the variable that they change. *)
Definition interest_or_assign (right : Interest) : Exec Interest unit := modify (λ left, interest_or left right).
Definition interest_and_assign (right : Interest) : Exec Interest unit := modify (λ left, interest_and left right).

Definition has_interest (value flag : Interest) : bool := negb (interest_and value flag =? interest_none).


(** ** The kernel queue *)

Inductive Filter := EVFILT_READ | EVFILT_WRITE.

#[export] Instance Filter_eq_decision : EqDecision Filter.
Proof. solve_decision. Defined.
#[export] Instance Filter_countable : Countable Filter.
Proof.
  refine (inj_countable' (λ f, match f with EVFILT_READ => true | EVFILT_WRITE => false end)
    (λ b, if b then EVFILT_READ else EVFILT_WRITE) _). by intros [].
Defined.

(** [EV_ADD | EV_CLEAR] or [EV_DELETE]. *)
Record Change := { ch_fd : Z; ch_filter : Filter; ch_add : bool }.

Inductive KevError := ENOENT | KEV_OTHER.

#[export] Instance KevError_eq_decision : EqDecision KevError.
Proof. solve_decision. Defined.

(** [kevent(2)] with a list of changes and no room for events: the changes are
    made in order up to the first one that fails.  Deleting a filter that is not
    there fails with [ENOENT]; [fails] is the index of a change that fails for
    another reason. *)
Fixpoint kevent_changes (fails : option nat) (changes : list Change) (filters : gset (Z * Filter))
    : option KevError * gset (Z * Filter) :=
  match changes with
  | [] => (None, filters)
  | c :: changes' =>
      let key := (ch_fd c, ch_filter c) in
      if bool_decide (fails = Some 0%nat) then (Some KEV_OTHER, filters)
      else if ch_add c then kevent_changes (pred <$> fails) changes' ({[ key ]} ∪ filters)
      else if bool_decide (key ∈ filters) then kevent_changes (pred <$> fails) changes' (filters ∖ {[ key ]})
      else (Some ENOENT, filters)
  end.

(** ** The reactor *)

(** [kq_] tells whether the queue is open, and [triggered] whether the event
    [EVFILT_USER] of the wake-ups is pending on it. *)
Record Reactor := {
  kq_ : bool;
  filters : gset (Z * Filter);
  triggered : bool;
  registered_ : gmap Z Interest;
}.

Definition new_reactor : Reactor := {| kq_ := true; filters := ∅; triggered := false; registered_ := ∅ |}.

Definition set_filters (f : gset (Z * Filter)) (r : Reactor) : Reactor :=
  {| kq_ := kq_ r; filters := f; triggered := triggered r; registered_ := registered_ r |}.
Definition set_registered (m : gmap Z Interest) (r : Reactor) : Reactor :=
  {| kq_ := kq_ r; filters := filters r; triggered := triggered r; registered_ := m |}.
Definition set_triggered (b : bool) (r : Reactor) : Reactor :=
  {| kq_ := kq_ r; filters := filters r; triggered := b; registered_ := registered_ r |}.

(** The constructor, with the outcomes of [kqueue(2)] and of the registration of
    [EVFILT_USER]; the queue is closed again when the second one fails. *)
Definition create_reactor (queue user_event : bool) : result Reactor :=
  if negb queue then throw system_error "kqueue"
  else if negb user_event then throw system_error "kevent(EVFILT_USER ADD)"
  else Ok new_reactor.

(** The destructor: [close(2)] of the queue discards what is registered on it. *)
Definition destroy_reactor (r : Reactor) : Reactor :=
  if kq_ r then {| kq_ := false; filters := ∅; triggered := false; registered_ := registered_ r |} else r.

(** [NOTE_TRIGGER] on the event of the wake-ups. *)
Definition wakeup (fails : option nat) : Exec Reactor unit :=
  if bool_decide (fails = Some 0%nat) then raise (system_error "kevent(NOTE_TRIGGER)")
  else modify (set_triggered true).

(** One call of [kevent(2)] on the queue. *)
Definition kevent (fails : option nat) (changes : list Change) : Exec Reactor (option KevError) :=
  λ r, let '(e, f) := kevent_changes fails changes (filters r) in (Ok e, set_filters f r).

(** The lambda [ensure]: the change that one flag needs. *)
Definition ensure (fd : Z) (interest previous flag : Interest) (filter : Filter) : list Change :=
  let want := has_interest interest flag in
  let had := has_interest previous flag in
  if want && negb had then [{| ch_fd := fd; ch_filter := filter; ch_add := true |}]
  else if negb want && had then [{| ch_fd := fd; ch_filter := filter; ch_add := false |}]
  else [].

Definition apply_interest (fails : option nat) (fd : Z) (interest : Interest) : Exec Reactor unit :=
  do! previous := gets (λ r, default interest_none (registered_ r !! fd)) in
  let changes := ensure fd interest previous interest_read EVFILT_READ ++
                 ensure fd interest previous interest_write EVFILT_WRITE in
  (match changes with
   | [] => ret tt
   | _ :: _ =>
       do! e := kevent fails changes in
       match e with None => ret tt | Some _ => raise (system_error "kevent(apply)") end
   end) ;;
  modify (λ r, set_registered
    (if interest =? interest_none then delete fd (registered_ r) else <[fd := interest]> (registered_ r)) r).

Definition reactor_add (fails : option nat) (fd : Z) (interest : Interest) : Exec Reactor unit :=
  apply_interest fails fd interest.
Definition reactor_modify (fails : option nat) (fd : Z) (interest : Interest) : Exec Reactor unit :=
  apply_interest fails fd interest.

Definition delete_filter (fails : option nat) (fd : Z) (filter : Filter) : Exec Reactor unit :=
  do! e := kevent fails [{| ch_fd := fd; ch_filter := filter; ch_add := false |}] in
  match e with
  | None | Some ENOENT => ret tt
  | Some KEV_OTHER => raise (system_error "kevent(DELETE)")
  end.

Definition reactor_remove (fails_read fails_write : option nat) (fd : Z) : Exec Reactor unit :=
  delete_filter fails_read fd EVFILT_READ ;;
  delete_filter fails_write fd EVFILT_WRITE ;;
  modify (λ r, set_registered (delete fd (registered_ r)) r).

(** [close(2)] of a descriptor takes its filters off the queue. *)
Definition kernel_close (fd : Z) (r : Reactor) : Reactor :=
  set_filters (filters r ∖ {[ (fd, EVFILT_READ); (fd, EVFILT_WRITE) ]}) r.

(** ** Waiting *)

(** An event of the queue: [None] is the filter [EVFILT_USER] of a wake-up. *)
Record Kevent := {
  ev_ident : Z;
  ev_filter : option Filter;
  ev_error : bool;
  ev_eof : bool;
}.

Record FiredEvent := {
  fd : Z;
  ready : Interest;
  error : bool;
  hangup : bool;
}.

Definition fresh_slot (ident : Z) : FiredEvent :=
  {| fd := ident; ready := interest_none; error := false; hangup := false |}.

(** The assignments to [slot]. *)
Definition merge_event (e : Kevent) (slot : FiredEvent) : FiredEvent :=
  {| fd := fd slot;
     ready := match ev_filter e with
              | Some EVFILT_READ => interest_or (ready slot) interest_read
              | Some EVFILT_WRITE => interest_or (ready slot) interest_write
              | None => ready slot
              end;
     error := error slot || ev_error e;
     hangup := hangup slot || ev_eof e |}.

(** The search for the slot of the descriptor, or the next free one. *)
Fixpoint place_event (e : Kevent) (out : list FiredEvent) : list FiredEvent :=
  match out with
  | [] => [merge_event e (fresh_slot (ev_ident e))]
  | slot :: out' =>
      if fd slot =? ev_ident e then merge_event e slot :: out' else slot :: place_event e out'
  end.

(** The loop over the events of one [kevent(wait)]; [out] is as long as the
    array of events that the kernel filled. *)
Definition merge_events (events : list Kevent) : list FiredEvent :=
  fold_left (λ out e, match ev_filter e with None => out | Some _ => place_event e out end) events [].

(** The results of [kevent(2)] with room for events: those that are ready, a
    signal, or another error. *)
Inductive SysWait := wait_ready (events : list Kevent) | wait_interrupted | wait_failed.

(** The call is repeated after a signal.  The kernel returns at most as many
    events as there is room for. *)
Fixpoint kevent_wait (capacity : nat) (calls : list SysWait) : result (list Kevent) * list SysWait :=
  match calls with
  | [] => (Ok [], [])
  | wait_ready events :: calls' => (Ok (take capacity events), calls')
  | wait_interrupted :: calls' => kevent_wait capacity calls'
  | wait_failed :: calls' => (throw system_error "kevent(wait)", calls')
  end.

(** [tv_sec] and [tv_nsec] of a number of milliseconds. *)
Definition timespec_of (timeout : Z) : Z * Z := (Z.quot timeout 1000, Z.rem timeout 1000 * 1000000).

(** [kevent(2)] refuses a time that is negative or not normalized. *)
Definition timespec_valid (ts : Z * Z) : bool := (0 <=? ts.1) && (0 <=? ts.2) && (ts.2 <? 1000000000).

(** The event of the wake-ups is reset when it is returned ([EV_CLEAR]). *)
Definition clear_user (events : list Kevent) (r : Reactor) : Reactor :=
  if existsb (λ e, bool_decide (ev_filter e = None)) events then set_triggered false r else r.

(** [wait] on an array of [capacity] events. *)
Definition wait (capacity : nat) (timeout : option Z) (calls : list SysWait)
    : Exec Reactor (list FiredEvent * list SysWait) :=
  match capacity with
  | O => ret ([], calls)
  | S _ =>
      match timeout with
      | Some t => if timespec_valid (timespec_of t) then ret tt else raise (system_error "kevent(wait)")
      | None => ret tt
      end ;;
      let '(r, calls') := kevent_wait capacity calls in
      do! events := lift r in
      modify (clear_user events) ;;
      ret (merge_events events, calls')
  end.

Lemma wait_throws capacity timeout calls r e r' :
  wait capacity timeout calls r = (Throw e, r') → e = system_error "kevent(wait)".
Proof.
  assert (∀ n l e l', kevent_wait n l = (Throw e, l') → e = system_error "kevent(wait)") as Hk.
  { intros n l e0 l'. induction l as [|[] l IH]; cbn [kevent_wait]; [done|done|done|by intros [= <- _]]. }
  unfold wait. destruct capacity as [|n]; [done|].
  assert (∀ r, (let '(res, calls') := kevent_wait (S n) calls in
      do! events := lift res in modify (clear_user events) ;; ret (merge_events events, calls')) r = (Throw e, r') →
    e = system_error "kevent(wait)") as Hgo.
  { intros r0. destruct (kevent_wait (S n) calls) as [[events|e0] calls'] eqn:E; cbn; [done|].
    intros [= <- _]. by eapply Hk. }
  destruct timeout as [t|]; [|apply Hgo]. rewrite exec_bind_seq.
  destruct (timespec_valid _); [apply Hgo|]. by intros [= <- _].
Qed.

(** ** The table mirrors the kernel *)

Definition flag_of (f : Filter) : Interest :=
  match f with EVFILT_READ => interest_read | EVFILT_WRITE => interest_write end.

Definition registered_interest (r : Reactor) (fd : Z) : Interest :=
  default interest_none (registered_ r !! fd).

(** The kernel watches a descriptor exactly for the interest in the table. *)
Definition mirrors (r : Reactor) : Prop :=
  ∀ fd f, (fd, f) ∈ filters r ↔ has_interest (registered_interest r fd) (flag_of f) = true.


(** What a list of changes does to the filters when no call fails. *)
Lemma ensure_effect fd interest previous f filters0 rest :
  ((fd, f) ∈ filters0 ↔ has_interest previous (flag_of f) = true) →
  ∃ filters1, kevent_changes None (ensure fd interest previous (flag_of f) f ++ rest) filters0 =
              kevent_changes None rest filters1 ∧
    (∀ fd' f', (fd', f') ≠ (fd, f) → (fd', f') ∈ filters1 ↔ (fd', f') ∈ filters0) ∧
    ((fd, f) ∈ filters1 ↔ has_interest interest (flag_of f) = true).
Proof.
  intros Hm. unfold ensure.
  destruct (has_interest interest (flag_of f)) eqn:Hw, (has_interest previous (flag_of f)) eqn:Hh;
    cbn [negb andb app kevent_changes ch_fd ch_filter ch_add].
  - exists filters0. naive_solver.
  - rewrite bool_decide_eq_false_2 by done. eexists. split; [done|]. set_solver.
  - rewrite bool_decide_eq_false_2, bool_decide_eq_true_2 by naive_solver.
    eexists. split; [done|]. set_solver.
  - exists filters0. naive_solver.
Qed.

(** A call that fails for no reason of its own makes all the changes. *)
Lemma apply_changes fd interest r :
  mirrors r →
  ∃ filters1, kevent_changes None (ensure fd interest (registered_interest r fd) interest_read EVFILT_READ ++
                ensure fd interest (registered_interest r fd) interest_write EVFILT_WRITE) (filters r)
              = (None, filters1) ∧
    (∀ fd' f, fd' ≠ fd → (fd', f) ∈ filters1 ↔ (fd', f) ∈ filters r) ∧
    (∀ f, (fd, f) ∈ filters1 ↔ has_interest interest (flag_of f) = true).
Proof.
  intros Hm.
  destruct (ensure_effect fd interest (registered_interest r fd) EVFILT_READ (filters r)
    (ensure fd interest (registered_interest r fd) interest_write EVFILT_WRITE)) as (f1 & E1 & Ho1 & Hf1);
    [apply Hm|].
  destruct (ensure_effect fd interest (registered_interest r fd) EVFILT_WRITE f1 [])
    as (f2 & E2 & Ho2 & Hf2); [rewrite Ho1 by done; apply Hm|].
  exists f2. cbn [flag_of] in E1, E2. rewrite app_nil_r in E2. rewrite E1, E2. split; [done|]. split.
  - intros fd' f Hne. rewrite Ho2, Ho1 by congruence. done.
  - intros []; [rewrite Ho2 by done|]; done.
Qed.

(** A call that fails and one that does not agree when it returns normally. *)
Lemma kevent_changes_ok fails changes : ∀ f f',
  kevent_changes fails changes f = (None, f') → kevent_changes None changes f = (None, f').
Proof.
  revert fails. induction changes as [|c changes IH]; intros fails f f'; cbn [kevent_changes]; [done|].
  rewrite (bool_decide_eq_false_2 (None = _)) by done. case_bool_decide; [done|].
  cbn [fmap option_fmap option_map]. destruct (ch_add c); [apply IH|]. case_bool_decide; [apply IH|done].
Qed.

Lemma apply_interest_ok fails fd interest r r' :
  apply_interest fails fd interest r = (Ok tt, r') →
  ∃ f, kevent_changes None (ensure fd interest (registered_interest r fd) interest_read EVFILT_READ ++
         ensure fd interest (registered_interest r fd) interest_write EVFILT_WRITE) (filters r) = (None, f) ∧
       r' = {| kq_ := kq_ r; filters := f; triggered := triggered r; registered_ :=
                 if interest =? interest_none then delete fd (registered_ r)
                 else <[fd := interest]> (registered_ r) |}.
Proof.
  unfold apply_interest. rewrite exec_bind_gets. fold (registered_interest r fd).
  destruct (_ ++ _) as [|c cs] eqn:Ec; cbn zeta.
  - rewrite exec_bind_seq. cbn. intros [= <-]. exists (filters r). by destruct r.
  - rewrite exec_bind_seq, exec_bind_seq. unfold kevent.
    destruct (kevent_changes fails (c :: cs) (filters r)) as [[e|] f] eqn:E; [done|].
    cbn. intros [= <-]. exists f. by apply kevent_changes_ok in E.
Qed.

Lemma apply_interest_throws fails fd interest r r' e :
  apply_interest fails fd interest r = (Throw e, r') → ∃ operation, e = system_error operation.
Proof.
  unfold apply_interest. rewrite exec_bind_gets. cbn zeta. rewrite exec_bind_seq.
  destruct (_ ++ _) as [|c cs]; [done|]. rewrite exec_bind_seq. unfold kevent.
  destruct (kevent_changes _ _ _) as [[e'|] fs]; cbn; [intros [= <- _]; by eexists|by intros [=]].
Qed.

Lemma registered_update q b r f fd interest fd' :
  registered_interest {| kq_ := q; filters := f; triggered := b; registered_ :=
      if interest =? interest_none then delete fd (registered_ r)
      else <[fd := interest]> (registered_ r) |} fd'
  = if fd' =? fd then interest else registered_interest r fd'.
Proof.
  unfold registered_interest. cbn [registered_].
  destruct (Z.eqb_spec fd' fd) as [->|Hne].
  - cond_case; [rewrite lookup_delete_eq; unfold interest_none in *; cbn; lia|by rewrite lookup_insert_eq].
  - cond_case; [by rewrite lookup_delete_ne by done|by rewrite lookup_insert_ne by done].
Qed.

Lemma apply_interest_mirrors fails fd interest r r' :
  mirrors r → apply_interest fails fd interest r = (Ok tt, r') →
  mirrors r' ∧ registered_interest r' fd = interest ∧
  (∀ fd', fd' ≠ fd → registered_interest r' fd' = registered_interest r fd').
Proof.
  intros Hm (f' & Ef' & ->)%apply_interest_ok. destruct (apply_changes fd interest r Hm) as (f & Ef & Ho & Hf).
  assert (f' = f) as -> by congruence. split_and!.
  - intros fd' g. rewrite registered_update. cbn [filters].
    destruct (Z.eqb_spec fd' fd) as [->|Hne]; [apply Hf|]. rewrite Ho by done. apply Hm.
  - rewrite registered_update. by rewrite Z.eqb_refl.
  - intros fd' Hne. rewrite registered_update. by destruct (Z.eqb_spec fd' fd).
Qed.

Lemma apply_interest_returns fd interest r : mirrors r → ∃ r1, apply_interest None fd interest r = (Ok tt, r1).
Proof.
  intros Hm. destruct (apply_changes fd interest r Hm) as (f & Ef & _).
  unfold apply_interest. rewrite exec_bind_gets. fold (registered_interest r fd).
  destruct (_ ++ _) as [|c cs]; cbn zeta; [by eexists|].
  rewrite exec_bind_seq, exec_bind_seq. unfold kevent. rewrite Ef. by eexists.
Qed.

Lemma reactor_remove_mirrors fails fails' fd r r' :
  mirrors r → reactor_remove fails fails' fd r = (Ok tt, r') →
  mirrors r' ∧ registered_ r' !! fd = None ∧ (∀ f, (fd, f) ∉ filters r') ∧
  (∀ fd', fd' ≠ fd → registered_interest r' fd' = registered_interest r fd').
Proof.
  intros Hm.
  assert (∀ x g s s', delete_filter x fd g s = (Ok tt, s') →
    filters s' = filters s ∖ {[ (fd, g) ]} ∧ registered_ s' = registered_ s) as Hdel.
  { intros x g s s'. unfold delete_filter. rewrite exec_bind_seq. unfold kevent.
    cbn [kevent_changes ch_fd ch_filter ch_add]. repeat case_bool_decide; cbn; [done| |].
    - intros [= <-]. by split.
    - intros [= <-]. split; [|done]. set_solver. }
  unfold reactor_remove. rewrite exec_bind_ok. intros ([] & r1 & E1 & E).
  rewrite exec_bind_ok in E. destruct E as ([] & r2 & E2 & E). injection E as <-.
  apply Hdel in E1 as [F1 R1], E2 as [F2 R2]. unfold mirrors, registered_interest in *.
  cbn [set_registered filters registered_]. rewrite R2, R1, F2, F1. split_and!.
  - intros fd' g. destruct (decide (fd' = fd)) as [->|Hne].
    + rewrite lookup_delete_eq. destruct g; set_solver.
    + rewrite lookup_delete_ne by done. rewrite <- Hm. set_solver.
  - apply lookup_delete_eq.
  - intros []; set_solver.
  - intros fd' Hne. by rewrite lookup_delete_ne.
Qed.

Lemma reactor_remove_returns fd r : ∃ r', reactor_remove None None fd r = (Ok tt, r').
Proof.
  assert (∀ g r, ∃ r', delete_filter None fd g r = (Ok tt, r')) as Hdel.
  { intros g r0. unfold delete_filter, exec_bind, kevent. cbn [kevent_changes ch_fd ch_filter ch_add].
    rewrite (bool_decide_eq_false_2 (None = _)) by done. case_bool_decide; by eexists. }
  unfold reactor_remove. destruct (Hdel EVFILT_READ r) as [r1 E1]. destruct (Hdel EVFILT_WRITE r1) as [r2 E2].
  unfold exec_bind. rewrite E1, E2. by eexists.
Qed.

(** The reactor's table is the kernel's: [add] and [modify], when they
    return, leave the descriptor registered for exactly the interest given and
    every other descriptor as it was, and they do return when no call to the
    kernel fails; [remove] takes the descriptor off both. *)
Theorem reactor_mirrors_kernel fails fails' fd interest r r' :
  mirrors r →
  (apply_interest fails fd interest r = (Ok tt, r') →
     mirrors r' ∧ registered_interest r' fd = interest ∧
     (∀ fd', fd' ≠ fd → registered_interest r' fd' = registered_interest r fd')) ∧
  (∃ r1, apply_interest None fd interest r = (Ok tt, r1)) ∧
  (reactor_remove fails fails' fd r = (Ok tt, r') →
     mirrors r' ∧ registered_ r' !! fd = None ∧ (∀ f, (fd, f) ∉ filters r') ∧
     (∀ fd', fd' ≠ fd → registered_interest r' fd' = registered_interest r fd')).
Proof.
  intros Hm. split_and!; [by apply apply_interest_mirrors|by apply apply_interest_returns|by apply reactor_remove_mirrors].
Qed.

Lemma reactor_mirrors_kernel_witness :
  ∃ r1, apply_interest None 7 interest_read new_reactor = (Ok tt, r1) ∧ mirrors new_reactor ∧
    mirrors r1 ∧ registered_interest r1 7 = interest_read.
Proof.
  assert (mirrors new_reactor) as Hm.
  { intros fd f. unfold registered_interest. cbn [new_reactor filters registered_].
    rewrite lookup_empty. destruct f; set_solver. }
  destruct (reactor_mirrors_kernel None None 7 interest_read new_reactor new_reactor Hm) as (_ & [r1 E] & _).
  exists r1. split; [done|]. split; [done|].
  destruct (reactor_mirrors_kernel None None 7 interest_read new_reactor r1 Hm) as (H & _ & _).
  destruct (H E) as (? & ? & _). done.
Defined.

(** A call of [remove] that fails leaves the entry of its descriptor in the table.
    When the error is ignored and the descriptor is closed and given out again,
    [add] takes the entry for what the kernel watches: it returns and the kernel
    watches nothing. *)
Theorem failed_remove_deafens :
  let '(added, r1) := reactor_add None 7 interest_read new_reactor in
  let '(removed, r2) := reactor_remove (Some 0%nat) None 7 r1 in
  let '(again, r3) := reactor_add None 7 interest_read (kernel_close 7 r2) in
  added = Ok tt ∧ removed = Throw (system_error "kevent(DELETE)") ∧ again = Ok tt ∧
  elements (filters r3) = [] ∧ registered_interest r3 7 = interest_read.
Proof. vm_compute. done. Qed.

(** ** Merging *)













