(* ===== verification/ServerCommands.v ===== *)
(** * What commands leave alone

    A command and a snapshot, whether they return or throw, keep the store well
    formed and do not touch the statistics. *)

From S2P Require Import Prelude Resp Disk Wal Store StoreInv StoreSpec StoreCorrect StoreTheorems.
From S2P Require Import Snapshot Engine Stats Registry.

(** An exception that C++ code can throw and catch: no undefined behaviour and
    not the end of the process. *)
Definition exception (e : exn) : Prop :=
  match e with undefined_behaviour _ | terminate => False | _ => True end.

(** [m] keeps [P], and what it throws is an exception. *)
Definition preserves {S A} (P : S → Prop) (m : Exec S A) : Prop :=
  ∀ s, P s → P (snd (m s)) ∧ ∀ e, fst (m s) = Throw e → exception e.

Section Rules.
Context {S : Type} (P : S → Prop).

Lemma preserves_ret {A} (a : A) : preserves P (ret a).
Proof. by intros s. Qed.
Lemma preserves_gets {A} (f : S → A) : preserves P (gets f).
Proof. by intros s. Qed.
Lemma preserves_raise {A} e : exception e → preserves P (@raise S A e).
Proof. by intros He s Hs; split; [|intros ? [= <-]]. Qed.
Lemma preserves_lift {A} (a : A) : preserves P (lift (Ok a)).
Proof. by intros s. Qed.
Lemma preserves_modify f : (∀ s, P s → P (f s)) → preserves P (modify f).
Proof. by intros Hf s ?%Hf. Qed.
Lemma preserves_bind {A B} (m : Exec S A) (k : A → Exec S B) :
  preserves P m → (∀ a, preserves P (k a)) → preserves P (exec_bind m k).
Proof.
  intros Hm Hk s Hs. unfold exec_bind. destruct (Hm s Hs) as [HP He].
  destruct (m s) as [[a|e] s']; [by apply Hk|]. split; [done|]. intros e' [= <-]. by apply He.
Qed.
Lemma preserves_zoom {T A} (get : S → T) (put : T → S → S) (P' : T → Prop) (m : Exec T A) :
  (∀ s, P s → P' (get s)) → (∀ s t, P s → P' t → P (put t s)) → preserves P' m → preserves P (zoom get put m).
Proof.
  intros Hg Hp Hm s Hs. unfold zoom. destruct (Hm (get s) (Hg s Hs)) as [HP He].
  destruct (m (get s)) as [r t]. split; [by apply Hp|done].
Qed.
(** What [catch (...) {}] leaves of such a computation. *)
Lemma ignored {A} (m : Exec S A) s :
  (∀ e, fst (m s) = Throw e → exception e) → ignore_errors m s = (Ok tt, snd (m s)).
Proof.
  intros He. unfold ignore_errors. destruct (m s) as [[a|e] s']; [done|].
  specialize (He e eq_refl). by destruct e.
Qed.
Lemma preserves_ignore {A} (m : Exec S A) : preserves P m → preserves P (ignore_errors m).
Proof.
  intros Hm s Hs. by rewrite ignored; destruct (Hm s Hs).
Qed.
Lemma preserves_sys os operation : preserves P (sys os operation).
Proof. unfold sys. destruct (sys_ok os operation); [apply preserves_ret|by apply preserves_raise]. Qed.

Lemma preserves_fs os operation : preserves P (fs os operation).
Proof. unfold fs. destruct (sys_ok os operation); [apply preserves_ret|by apply preserves_raise]. Qed.

(** A result of the pure error monad. *)
Lemma preserves_result {A} (r : result A) : (∀ e, r = Throw e → exception e) → preserves P (lift r).
Proof. by intros He s Hs. Qed.

(** A part that only runs with [b], on which more is known then. *)
Lemma preserves_when {A B} (b : S → bool) (m m' : Exec S A) (k : A → Exec S B) :
  preserves (λ s, P s ∧ b s = true) m → preserves P m' → (∀ a, preserves P (k a)) →
  preserves P (do! c := gets b in do! a := (if c then m else m') in k a).
Proof.
  intros Hm Hm' Hk s Hs. rewrite exec_bind_gets. destruct (b s) eqn:Eb; [|by apply preserves_bind].
  unfold exec_bind. destruct (Hm s (conj Hs Eb)) as [[HP _] He].
  destruct (m s) as [[a|e] s']; [by apply Hk|]. split; [done|]. intros e' [= <-]. by apply He.
Qed.
End Rules.

#[export] Hint Resolve preserves_ret preserves_gets preserves_raise preserves_lift preserves_ignore
  preserves_sys preserves_fs : nova.
#[export] Hint Extern 1 (exception _) => exact Logic.I : nova.

Ltac preserve :=
  repeat first
    [ solve [auto with nova]
    | match goal with |- preserves _ (exec_bind (gets persistence) _) => apply preserves_when; [| |intros ?] end
    | match goal with |- preserves _ (exec_bind _ _) => apply preserves_bind; [|intros ?] end
    | match goal with |- preserves _ (match ?x with _ => _ end) => destruct x end
    | match goal with |- preserves _ (let '(_, _) := ?x in _) => destruct x end ].

(** ** The files *)

Lemma write_all_throws short calls : ∀ file pending e,
  fst (write_all short calls file pending) = Throw e → exception e.
Proof.
  induction calls as [|c calls IH]; intros file [|b pending] e; cbn [write_all]; try done.
  - by intros [= <-].
  - destruct c as [|[|n]| |]; [by apply IH|by intros [= <-]|by apply IH|by apply IH|by intros [= <-]].
Qed.

Lemma wal_write_all_ok os site data : preserves (λ _, True) (wal_write_all os site data).
Proof.
  intros w _. unfold wal_write_all.
  pose proof (write_all_throws "short write to WAL" (os_writes os site) (wal_file w) data) as Ht.
  destruct (write_all _ _ _ _) as [r f]. by split.
Qed.

Lemma snapshot_write_all_ok os data : preserves (λ _, True) (snapshot_write_all os data).
Proof.
  intros d _. unfold snapshot_write_all.
  pose proof (write_all_throws "short write to snapshot" (os_writes os "snapshot")
    (default [] (temp_file d)) data) as Ht.
  destruct (write_all _ _ _ _) as [r f]. by split.
Qed.

Lemma modify_ok {S} (f : S → S) : preserves (λ _, True) (modify f).
Proof. by apply preserves_modify. Qed.

#[local] Hint Resolve wal_write_all_ok snapshot_write_all_ok modify_ok : nova.

Lemma ensure_open_ok : preserves (λ _, True) ensure_open_unlocked.
Proof. unfold ensure_open_unlocked. preserve. Qed.
#[local] Hint Resolve ensure_open_ok : nova.
Lemma append_safe os code data : preserves (λ _, True) (append os code data).
Proof. unfold append. preserve. Qed.
Lemma sync_safe os : preserves (λ _, True) (sync os).
Proof. unfold sync. preserve. Qed.
Lemma truncate_after_ok os n : preserves (λ _, True) (truncate_after os n).
Proof. unfold truncate_after, write_header_unlocked. preserve. Qed.
#[local] Hint Resolve append_safe sync_safe truncate_after_ok : nova.

Section Commands.
Context `{PO : PlatformOk} (config : PersistenceConfig).

Lemma write_snapshot_safe os n entries : preserves (λ _, True) (write_snapshot os n entries).
Proof. unfold write_snapshot. preserve. Qed.
#[local] Hint Resolve write_snapshot_safe : nova.

(** ** The engine *)

(** The world of an engine that is in use. *)
Definition world_ok (w : World) : Prop := wf (store w) ∧ wal_null w = false.

Lemma wal_call_ok {A} (m : Exec WalWriter A) : preserves (λ _, True) m → preserves world_ok (wal_call m).
Proof.
  intros Hm w Hw. unfold wal_call. rewrite exec_bind_gets, (proj2 Hw).
  exact (preserves_zoom world_ok wal_ set_wal (λ _, True) m (λ _ _, Logic.I) (λ _ _ Hs _, Hs) Hm w Hw).
Qed.

Lemma with_store_ok {A} (f : Store → A * Store) :
  (∀ st, wf st → wf (snd (f st))) → preserves world_ok (with_store f).
Proof. intros Hf w [Hw Hn]. unfold with_store. specialize (Hf _ Hw). by destruct (f (store w)). Qed.

Lemma get_wf clk k st : wf st → wf (snd (get clk st k)).
Proof. intros Hst. by destruct (get_refines clk st k Hst) as (s' & -> & ? & _). Qed.
Lemma set_wf clk k v w st : wf st → wf (snd (tt, set clk st k v w)).
Proof. intros Hst. by apply set_refines. Qed.
Lemma del_many_wf clk ks st : wf st → wf (snd (del_many clk st ks)).
Proof. intros Hst. by destruct (del_many_refines clk st ks Hst) as (s' & -> & ? & _). Qed.
Lemma exists_many_wf clk ks st : wf st → wf (snd (exists_many clk st ks)).
Proof. intros Hst. by destruct (exists_many_refines clk st ks Hst) as (s' & -> & ? & _). Qed.
Lemma expire_at_wf clk k w st : wf st → wf (snd (expire_at clk st k w)).
Proof. intros Hst. by destruct (expire_at_refines clk st k w Hst) as (s' & -> & ? & _). Qed.
Lemma expire_wf clk k t st : wf st → wf (snd (expire clk st k t)).
Proof. intros Hst. unfold expire. destruct (t <=? 0); by apply expire_at_wf. Qed.
Lemma ttl_wf clk k st : wf st → wf (snd (ttl clk st k)).
Proof. intros Hst. by destruct (ttl_refines clk st k Hst) as (s' & -> & ? & _). Qed.
Lemma keys_wf clk p st : wf st → wf (snd (keys clk st p)).
Proof.
  intros Hst. destruct (keys_refines clk st p Hst) as (s' & E & ? & _).
  cbn [run] in E. destruct (keys clk st p) as [r s1]. apply (f_equal snd) in E. cbn in E. by subst s1.
Qed.
Lemma export_wf clk st : wf st → wf (snd (export_snapshot_entries clk st)).
Proof. intros Hst. by destruct (export_refines clk st Hst) as (es & s' & -> & ? & _). Qed.

#[local] Hint Resolve wal_call_ok with_store_ok get_wf set_wf del_many_wf exists_many_wf expire_at_wf
  expire_wf ttl_wf keys_wf export_wf : nova.

Lemma durable_set_ok os clk k v : preserves world_ok (durable_set config os clk k v).
Proof. unfold durable_set, durability_action. preserve. Qed.
Lemma durable_del_ok os clk ks : preserves world_ok (durable_del config os clk ks).
Proof. unfold durable_del, durability_action. preserve. Qed.
Lemma durable_expire_ok os clk k t : preserves world_ok (durable_expire config os clk k t).
Proof. unfold durable_expire, durability_action. preserve. Qed.

Lemma export_write_truncate_ok os clk : preserves world_ok (export_write_truncate config os clk).
Proof. 
  unfold export_write_truncate, wal_last_offset. preserve.
  apply (preserves_zoom _ _ _ (λ _, True)); [done|done|auto with nova].
Qed.
#[local] Hint Resolve export_write_truncate_ok : nova.

Lemma maybe_snapshot_ok os clk t t' : preserves world_ok (maybe_snapshot config os clk t t').
Proof. unfold maybe_snapshot, snapshot_now. preserve. by apply preserves_modify. Qed.

Lemma fsync_round_ok os : preserves world_ok (fsync_round os).
Proof. unfold fsync_round. preserve. Qed.

(** ** The context of a command *)

(** The store and the engine, as the commands find and leave them. *)
Definition parts_ok (c : CommandContext) : Prop :=
  wf (store (world c)) ∧ (persistence c = true → wal_null (world c) = false).

Definition context_ok (st : option Stats) (c : CommandContext) : Prop := stats c = st ∧ parts_ok c.

Lemma on_engine_safe {A} st (m : Exec World A) :
  preserves world_ok m → preserves (λ c, context_ok st c ∧ persistence c = true) (on_engine m).
Proof. unfold on_engine. apply preserves_zoom; unfold context_ok, parts_ok, world_ok; naive_solver. Qed.

Lemma on_store_ok {A} st (f : Store → A * Store) :
  (∀ s, wf s → wf (snd (f s))) → preserves (context_ok st) (on_store f).
Proof.
  intros Hf c (Hst & Hwf & Hn). unfold on_store, with_store, zoom. specialize (Hf _ Hwf).
  by destruct (f (store (world c))).
Qed.

#[local] Hint Resolve on_engine_safe on_store_ok durable_set_ok durable_del_ok durable_expire_ok : nova.

(** The arguments that the arity promises are there. *)
Lemma arg_there args i : Z.of_nat i < len args → ∃ a, arg args i = Ok a.
Proof.
  intros Hi. unfold arg, len in *. destruct (lookup_lt_is_Some_2 args i) as [a ->]; [lia|]. by eexists.
Qed.

(** What a command may throw: an exception, or the overflow of a deadline. *)
Definition raised (e : exn) : Prop := exception e ∨ e = deadline_overflow.

(** [m] keeps [P], and what it throws is what a command may throw. *)
Definition commands {A} (P : CommandContext → Prop) (m : Exec CommandContext A) : Prop :=
  ∀ c, P c → P (snd (m c)) ∧ ∀ e, fst (m c) = Throw e → raised e.

Lemma preserves_commands {A} P (m : Exec CommandContext A) : preserves P m → commands P m.
Proof. intros Hm c Hc. destruct (Hm c Hc) as [? He]. split; [done|]. intros e E. left. by apply He. Qed.

Lemma commands_lift {A B} P (a : A) (k : A → Exec CommandContext B) :
  commands P (k a) → commands P (exec_bind (lift (Ok a)) k).
Proof. done. Qed.
Lemma commands_gets {A B} P (f : CommandContext → A) (k : A → Exec CommandContext B) :
  (∀ a, commands P (k a)) → commands P (exec_bind (gets f) k).
Proof. intros Hk c Hc. rewrite exec_bind_gets. by apply Hk. Qed.

(** A property of all the handlers of a table, for the arguments they accept. *)
Definition handles (st : option Stats) (p : CommandMetadata * Handler) : Prop :=
  ∀ env args, minimum_arity p.1 <= len args → commands (context_ok st) (p.2 env args).

Lemma add_handles (st : option Stats) (c : Commands) nm minimum maximum acc handler :
  map_Forall (λ _ p, handles st p) c →
  (∀ env args, minimum <= len args → commands (context_ok st) (handler env args)) →
  map_Forall (λ _ p, handles st p) (add c nm minimum maximum acc handler).
Proof.
  intros Hc Hh. unfold add. destruct (c !! _) as [p|]; [done|]. by apply map_Forall_insert_2.
Qed.

Ltac known_args :=
  repeat match goal with |- context [arg ?l ?i] =>
    let a := fresh "a" in let E := fresh in
    destruct (arg_there l i) as [a E]; [lia|]; rewrite E; clear E end.

Lemma expire_context (st : option Stats) env args : 3 <= len args → commands (context_ok st) (cmd_expire config env args).
Proof.
  intros Hlen. unfold cmd_expire. known_args. apply commands_lift.
  destruct (parse_int64 _) as [seconds|]; [|apply preserves_commands; auto with nova].
  destruct (expiration_is_representable _ _); cbn [negb]; [|apply preserves_commands; auto with nova].
  apply commands_lift. apply commands_gets. intros [|].
  - intros c Hc. split; [done|]. intros e [= <-]. by right.
  - apply preserves_commands. preserve.
Qed.

Lemma commands_context (st : option Stats) : map_Forall (λ _ p, handles st p) (commands_ config).
Proof.
  unfold commands_. repeat apply add_handles; [apply map_Forall_empty|intros env args Hlen..].
  7: by apply expire_context.
  all: apply preserves_commands.
  - unfold ping. cond_case; [auto with nova|]. known_args. preserve.
  - unfold echo. known_args. preserve.
  - unfold cmd_set. known_args. preserve.
  - unfold cmd_get. known_args. preserve.
  - unfold cmd_del. preserve.
  - unfold cmd_exists. preserve.
  - unfold cmd_ttl. known_args. preserve.
  - unfold cmd_keys. known_args. preserve.
  - unfold info. preserve.
Qed.

Lemma extract_arguments_cons request args : extract_arguments request = Some args → 0 < len args.
Proof.
  destruct request as [| | | |[[|v items]|]]; cbn [extract_arguments extract_items]; try done.
  destruct v as [| | |[a|]|]; try done. destruct (extract_items items); [|done]. cbn. intros [= <-].
  rewrite len_cons. pose proof (len_nonneg l). lia.
Qed.

Lemma execute_context env request st : commands (context_ok st) (execute config env request).
Proof.
  unfold execute. destruct (extract_arguments request) as [args|] eqn:Ea; [|apply preserves_commands; auto with nova].
  apply extract_arguments_cons in Ea. destruct (arg_there args 0 Ea) as [nm ->].
  apply commands_lift.
  destruct (commands_ config !! normalize nm) as [[meta handler]|] eqn:E; [|apply preserves_commands; auto with nova].
  cond_case; [apply preserves_commands; auto with nova|]. apply (commands_context st _ _ E env args). cbn. lia.
Qed.

Lemma snapshot_context os clk t t' st :
  preserves (λ c, context_ok st c ∧ persistence c = true)
    (zoom world set_world (maybe_snapshot config os clk t t')).
Proof. apply on_engine_safe, maybe_snapshot_ok. Qed.

Lemma fsync_context os st :
  preserves (λ c, context_ok st c ∧ persistence c = true) (zoom world set_world (fsync_round os)).
Proof. apply on_engine_safe, fsync_round_ok. Qed.
End Commands.
