(* ===== verification/Server.v ===== *)
(** * The server

    [include/novacache/server/server.hpp] and [src/server/server.cpp]: the
    connections and their strands of commands, on the I/O thread, and the
    workers that run the commands.

    The I/O thread is a computation on [Server].  Whatever it does not decide
    itself is in the [Script]: the results of its system calls, the readings of
    its clocks, and the turns that the workers take before each of its accesses
    to the state it shares with them (the queue of the pool and the
    completions).  What happened, in the order in which it happened, is
    recorded in [trace]. *)

From S2P Require Import Prelude Resp Parser Disk Wal Store Snapshot Engine Stats Registry.
From S2P Require Import ThreadPool Socket Reactor.

(** ** Data *)

Record ServerConfig := {
  cfg_workers : nat;
  cfg_shards : Z;
  cfg_max_connections : Z;
  cfg_worker_queue_limit : nat;
  cfg_max_output_buffer_bytes : Z;
  cfg_active_expiry_hz : Z;
  cfg_idle_timeout : Z;
  cfg_parser_limits : ParserLimits;
  cfg_persistence_enabled : bool;
  cfg_persistence : PersistenceConfig;
}.

Record QueuedCommand := { qc_sequence : Z; qc_request : RespValue }.

(** The captures of a strand's job. *)
Record Job := { job_connection : Z; job_item : QueuedCommand }.

Record Completion := {
  c_connection : Z;
  c_sequence : Z;
  c_payload : bytes;
  c_error : bool;
}.

(** Identifiers and sequence numbers are 64 bits wide, which no execution
    exhausts: they are unbounded here. *)
Record Connection := MkConnection {
  id_ : Z;
  interest : Interest;
  output : bytes;
  parser : Parser;
  next_request_seq : Z;
  next_response_seq : Z;
  pending_responses : gmap Z bytes;
  command_queue : list QueuedCommand;
  strand_running : bool;
  inflight : Z;
  read_closed : bool;
  closing : bool;
  last_activity : Z;
}.

Definition new_connection (i : Z) (limits : ParserLimits) (now : Z) : Connection :=
  MkConnection i interest_read [] (new_parser limits) 0 0 ∅ [] false 0 false false now.

Definition set_interest (i : Interest) (c : Connection) : Connection :=
  MkConnection (id_ c) i (output c) (parser c) (next_request_seq c) (next_response_seq c)
    (pending_responses c) (command_queue c) (strand_running c) (inflight c) (read_closed c) (closing c)
    (last_activity c).
Definition set_output (o : bytes) (c : Connection) : Connection :=
  MkConnection (id_ c) (interest c) o (parser c) (next_request_seq c) (next_response_seq c)
    (pending_responses c) (command_queue c) (strand_running c) (inflight c) (read_closed c) (closing c)
    (last_activity c).
Definition set_parser (p : Parser) (c : Connection) : Connection :=
  MkConnection (id_ c) (interest c) (output c) p (next_request_seq c) (next_response_seq c)
    (pending_responses c) (command_queue c) (strand_running c) (inflight c) (read_closed c) (closing c)
    (last_activity c).
(** The pending responses and the number of the next one. *)
Definition set_pending (m : gmap Z bytes) (next : Z) (c : Connection) : Connection :=
  MkConnection (id_ c) (interest c) (output c) (parser c) (next_request_seq c) next m
    (command_queue c) (strand_running c) (inflight c) (read_closed c) (closing c) (last_activity c).
Definition set_inflight (n : Z) (c : Connection) : Connection :=
  MkConnection (id_ c) (interest c) (output c) (parser c) (next_request_seq c) (next_response_seq c)
    (pending_responses c) (command_queue c) (strand_running c) n (read_closed c) (closing c)
    (last_activity c).
(** The queue and the flag of the strand. *)
Definition set_strand (q : list QueuedCommand) (running : bool) (c : Connection) : Connection :=
  MkConnection (id_ c) (interest c) (output c) (parser c) (next_request_seq c) (next_response_seq c)
    (pending_responses c) q running (inflight c) (read_closed c) (closing c) (last_activity c).
(** [read_closed] and [closing]. *)
Definition set_closed (r cl : bool) (c : Connection) : Connection :=
  MkConnection (id_ c) (interest c) (output c) (parser c) (next_request_seq c) (next_response_seq c)
    (pending_responses c) (command_queue c) (strand_running c) (inflight c) r cl (last_activity c).
Definition touch (now : Z) (c : Connection) : Connection :=
  MkConnection (id_ c) (interest c) (output c) (parser c) (next_request_seq c) (next_response_seq c)
    (pending_responses c) (command_queue c) (strand_running c) (inflight c) (read_closed c) (closing c)
    now.

(** A worker: waiting for a job, running one, about to deliver its completion,
    about to wake the reactor up, ended. *)
Inductive Thread :=
| t_waiting
| t_running (job : Job)
| t_delivering (c : Completion)
| t_waking
| t_exited.

(** What the surroundings of the I/O thread will do, in order. *)
Record Script := MkScript {
  recvs : list SysRecv;
  sends : list SysSend;
  accepts : list SysAccept;
  oks : list bool;
  kevs : list (option nat);
  waits : list SysWait;
  stops : list bool;
  turns : list (list nat);
  nows : list Z;
  envs : list Env;
  rands : list (nat → nat → nat → nat);
}.

(** What has happened: accepted and closed connections, the bytes received and
    sent, the commands executed with their responses. *)
Inductive Happened :=
| did_accept (i : Z)
| did_recv (i : Z) (data : bytes)
| did_exec (i : Z) (request response : RespValue)
| did_send (i : Z) (data : bytes)
| did_close (i : Z).

Record Server := MkServer {
  connections_ : gmap Z Connection;
  completions_ : list Completion;
  workers_ : @ThreadPool Job;
  threads : list Thread;
  reactor_ : Reactor;
  context : CommandContext;
  next_connection_id_ : Z;
  next_expiry_tick_ : Z;
  script : Script;
  trace : list Happened;
}.

Definition set_connections (m : gmap Z Connection) (s : Server) : Server :=
  MkServer m (completions_ s) (workers_ s) (threads s) (reactor_ s) (context s) (next_connection_id_ s)
    (next_expiry_tick_ s) (script s) (trace s).
Definition set_completions (l : list Completion) (s : Server) : Server :=
  MkServer (connections_ s) l (workers_ s) (threads s) (reactor_ s) (context s) (next_connection_id_ s)
    (next_expiry_tick_ s) (script s) (trace s).
Definition set_pool (p : @ThreadPool Job) (t : list Thread) (s : Server) : Server :=
  MkServer (connections_ s) (completions_ s) p t (reactor_ s) (context s) (next_connection_id_ s)
    (next_expiry_tick_ s) (script s) (trace s).
Definition set_reactor (r : Reactor) (s : Server) : Server :=
  MkServer (connections_ s) (completions_ s) (workers_ s) (threads s) r (context s) (next_connection_id_ s)
    (next_expiry_tick_ s) (script s) (trace s).
Definition set_context (c : CommandContext) (s : Server) : Server :=
  MkServer (connections_ s) (completions_ s) (workers_ s) (threads s) (reactor_ s) c (next_connection_id_ s)
    (next_expiry_tick_ s) (script s) (trace s).
Definition set_next_id (n : Z) (s : Server) : Server :=
  MkServer (connections_ s) (completions_ s) (workers_ s) (threads s) (reactor_ s) (context s) n
    (next_expiry_tick_ s) (script s) (trace s).
Definition set_expiry_tick (t : Z) (s : Server) : Server :=
  MkServer (connections_ s) (completions_ s) (workers_ s) (threads s) (reactor_ s) (context s)
    (next_connection_id_ s) t (script s) (trace s).
Definition set_script (x : Script) (s : Server) : Server :=
  MkServer (connections_ s) (completions_ s) (workers_ s) (threads s) (reactor_ s) (context s)
    (next_connection_id_ s) (next_expiry_tick_ s) x (trace s).
Definition happen (h : Happened) (s : Server) : Server :=
  MkServer (connections_ s) (completions_ s) (workers_ s) (threads s) (reactor_ s) (context s)
    (next_connection_id_ s) (next_expiry_tick_ s) (script s) (trace s ++ [h]).

(** What the platform leaves open to the server: the order in which
    [connections_] is iterated and the descriptors that [accept(2)] gives, of
    which [POSIX] says that they are not in use. *)
Class Kernel := {
  conn_order : gmap Z Connection → list (Z * Connection);
  new_descriptor : gset Z → Z;
}.

Class KernelOk `{Kernel} := {
  conn_order_perm m : conn_order m ≡ₚ map_to_list m;
  new_descriptor_fresh X : new_descriptor X ∉ X;
}.

(** ** The script *)

Definition with_recvs (l : list SysRecv) (x : Script) : Script :=
  MkScript l (sends x) (accepts x) (oks x) (kevs x) (waits x) (stops x) (turns x) (nows x) (envs x) (rands x).
Definition with_sends (l : list SysSend) (x : Script) : Script :=
  MkScript (recvs x) l (accepts x) (oks x) (kevs x) (waits x) (stops x) (turns x) (nows x) (envs x) (rands x).
Definition with_accepts (l : list SysAccept) (x : Script) : Script :=
  MkScript (recvs x) (sends x) l (oks x) (kevs x) (waits x) (stops x) (turns x) (nows x) (envs x) (rands x).
Definition with_oks (l : list bool) (x : Script) : Script :=
  MkScript (recvs x) (sends x) (accepts x) l (kevs x) (waits x) (stops x) (turns x) (nows x) (envs x) (rands x).
Definition with_kevs (l : list (option nat)) (x : Script) : Script :=
  MkScript (recvs x) (sends x) (accepts x) (oks x) l (waits x) (stops x) (turns x) (nows x) (envs x) (rands x).
Definition with_waits (l : list SysWait) (x : Script) : Script :=
  MkScript (recvs x) (sends x) (accepts x) (oks x) (kevs x) l (stops x) (turns x) (nows x) (envs x) (rands x).
Definition with_stops (l : list bool) (x : Script) : Script :=
  MkScript (recvs x) (sends x) (accepts x) (oks x) (kevs x) (waits x) l (turns x) (nows x) (envs x) (rands x).
Definition with_turns (l : list (list nat)) (x : Script) : Script :=
  MkScript (recvs x) (sends x) (accepts x) (oks x) (kevs x) (waits x) (stops x) l (nows x) (envs x) (rands x).
Definition with_nows (l : list Z) (x : Script) : Script :=
  MkScript (recvs x) (sends x) (accepts x) (oks x) (kevs x) (waits x) (stops x) (turns x) l (envs x) (rands x).
Definition with_envs (l : list Env) (x : Script) : Script :=
  MkScript (recvs x) (sends x) (accepts x) (oks x) (kevs x) (waits x) (stops x) (turns x) (nows x) l (rands x).
Definition with_rands (l : list (nat → nat → nat → nat)) (x : Script) : Script :=
  MkScript (recvs x) (sends x) (accepts x) (oks x) (kevs x) (waits x) (stops x) (turns x) (nows x) (envs x) l.

(** The next item of a part of the script, or what stands for the end of it. *)
Definition pop {A} (end_ : A) (get : Script → list A) (put : list A → Script → Script) : Exec Server A :=
  λ s, (Ok (default end_ (head (get (script s)))),
        set_script (put (tail (get (script s))) (script s)) s).

Definition default_env : Env :=
  {| env_os := calm; env_clk := frozen {| mono := 0; wall := 0 |}; env_steady := 0 |}.

Definition pop_ok : Exec Server bool := pop true oks with_oks.
Definition pop_kev : Exec Server (option nat) := pop None kevs with_kevs.
Definition pop_turns : Exec Server (list nat) := pop [] turns with_turns.
Definition pop_env : Exec Server Env := pop default_env envs with_envs.
Definition pop_rand : Exec Server (nat → nat → nat → nat) := pop (λ _ _ _, 0%nat) rands with_rands.

(** [steady_clock::now()]. *)
Definition steady_now : Exec Server Z := pop 0 nows with_nows.

(** [stopping_.load()]: the flag is set at the latest when the script ends. *)
Definition stopping : Exec Server bool := pop true stops with_stops.

(** [connection.socket.try_receive(buffer)]. *)
Definition socket_receive (i : Z) : Exec Server (IoResult * bytes) := λ s,
  let '(r, rest) := try_receive (recvs (script s)) in
  let s1 := set_script (with_recvs rest (script s)) s in
  (r, match r with
      | Ok (_, data) => if bool_decide (data = []) then s1 else happen (did_recv i data) s1
      | Throw _ => s1
      end).

(** [connection.socket.try_send(data)]. *)
Definition socket_send (i : Z) (data : bytes) : Exec Server IoResult := λ s,
  let '(r, rest) := try_send data (sends (script s)) in
  let s1 := set_script (with_sends rest (script s)) s in
  (r, match r with
      | Ok io => if io_bytes io >? 0 then happen (did_send i (take (Z.to_nat (io_bytes io)) data)) s1 else s1
      | Throw _ => s1
      end).

(** [listener_.try_accept()]. *)
Definition listener_accept : Exec Server bool :=
  do! configured := pop_ok in
  λ s, let '(r, rest) := try_accept configured (accepts (script s)) in
       (r, set_script (with_accepts rest (script s)) s).

(** A system call that throws when it fails. *)
Definition checked (operation : string) : Exec Server unit :=
  do! ok := pop_ok in if ok then ret tt else raise (system_error operation).

(** ** Shared pieces *)

Definition set_stats (st : Stats) (c : CommandContext) : CommandContext :=
  {| world := world c; persistence := persistence c; stats := Some st; version := version c;
     tcp_port := tcp_port c; worker_count := worker_count c |}.

(** A call on [stats_]. *)
Definition on_stats (f : Stats → Stats) : Exec Server unit :=
  modify (λ s, match stats (context s) with
               | Some st => set_context (set_stats (f st) (context s)) s
               | None => s
               end).

Definition on_reactor {A} (m : Exec Reactor A) : Exec Server A := zoom reactor_ set_reactor m.

(** A reference to a connection is its descriptor; using it after the
    connection was erased has no defined meaning. *)
Definition connection (f : Z) : Exec Server Connection := λ s,
  match connections_ s !! f with
  | Some c => (Ok c, s)
  | None => (Throw (undefined_behaviour "dangling connection"), s)
  end.

Definition update (f : Z) (g : Connection → Connection) : Exec Server unit :=
  modify (λ s, set_connections (alter g f (connections_ s)) s).

(** [connections_.contains(fd)]. *)
Definition contains (f : Z) : Exec Server bool := gets (λ s, bool_decide (is_Some (connections_ s !! f))).

(** An exception that leaves the function of a thread ends the process;
    undefined behaviour is not an exception. *)
Definition terminating {S A} (m : Exec S A) : Exec S A := λ s,
  match m s with
  | (Throw (undefined_behaviour what), s') => (Throw (undefined_behaviour what), s')
  | (Throw _, s') => (Throw terminate, s')
  | r => r
  end.

Definition out_of_fuel {S A} : Exec S A := raise (undefined_behaviour "out of fuel").

Definition protocol_error : result bytes := encode (Error (str "ERR Protocol error")).

Definition is_command_request (request : RespValue) : bool :=
  match request with
  | Array (Some ((_ :: _) as items)) =>
      forallb (λ item, match item with BulkString (Some _) => true | _ => false end) items
  | _ => false
  end.

Definition response_is_error (v : RespValue) : bool := match v with Error _ => true | _ => false end.

Definition default_worker_count (hardware configured : nat) : nat :=
  if (0 <? configured)%nat then configured else if (hardware =? 0)%nat then 2%nat else hardware.

Section Loop.
Context `{Platform} `{Kernel} (config : ServerConfig) (listener : Z).

(** ** Workers *)

(** The first part of a job, up to its completion.  It is one turn.  For the
    commands that change or read single keys nothing is lost by that: they take
    effect in one critical section of the store, at clocks that they may have read
    before it, and the script may give the commands clocks in any order.  For
    [KEYS], which visits the shards in one critical section each, the
    interleavings with other commands are not those of the program; they are the
    subject of [StoreShared], and linearizability is not claimed for it. *)
Definition run_command (job : Job) : Exec Server Completion :=
  let item := job_item job in
  do! env := pop_env in
  do! response := zoom context set_context (execute (cfg_persistence config) env (qc_request item)) in
  modify (happen (did_exec (job_connection job) (qc_request item) response)) ;;
  do! text := lift (encode response) in
  ret {| c_connection := job_connection job; c_sequence := qc_sequence item; c_payload := text;
         c_error := response_is_error response |}.

(** The second part: the completion is queued. *)
Definition deliver (c : Completion) : Exec Server unit :=
  modify (λ s, set_completions (completions_ s ++ [c]) s).

(** The third part: the reactor is woken up. *)
Definition wake_reactor : Exec Server unit :=
  do! fails := pop_kev in ignore_errors (on_reactor (wakeup fails)).

Definition set_thread_state (i : nat) (t : Thread) : Exec Server unit :=
  modify (λ s, set_pool (workers_ s) (<[i := t]> (threads s)) s).

(** One round of the engine's [everysec] thread. *)
Definition fsync_turn : Exec Server unit :=
  do! persistent := gets (λ s, persistence (context s)) in
  if persistent then
    do! env := pop_env in zoom context set_context (zoom world set_world (fsync_round (env_os env)))
  else ret tt.

(** One step of [worker_main] on worker [i]; the other numbers stand for the
    engine's thread.  A worker that waits may take its turn whenever the condition
    of its wait holds, whether it was notified or not, so that the runs of the
    model include those of the program; that the notifications do reach the
    workers is shown in [ThreadPool]. *)
Definition thread_turn (i : nat) : Exec Server unit := λ s,
  match threads s !! i with
  | Some t_waiting =>
      if wake (workers_ s) then
        match worker_section (workers_ s) with
        | Ok (Some job, p) => (Ok tt, set_pool p (<[i := t_running job]> (threads s)) s)
        | Ok (None, p) => (Ok tt, set_pool p (<[i := t_exited]> (threads s)) s)
        | Throw e => (Throw e, s)
        end
      else (Ok tt, s)
  | Some (t_running job) => (do! c := terminating (run_command job) in set_thread_state i (t_delivering c)) s
  | Some (t_delivering c) => (deliver c ;; set_thread_state i t_waking) s
  | Some t_waking => (wake_reactor ;; set_thread_state i t_waiting) s
  | Some t_exited => (Ok tt, s)
  | None => fsync_turn s
  end.

Fixpoint thread_turns (ts : list nat) : Exec Server unit :=
  match ts with [] => ret tt | i :: ts' => thread_turn i ;; thread_turns ts' end.

(** The turns of the workers before the I/O thread enters a critical section. *)
Definition yield : Exec Server unit := do! ts := pop_turns in thread_turns ts.

(** ** Strands *)

Definition queue_saturated : Exec Server bool :=
  yield ;; gets (λ s, (cfg_worker_queue_limit config <=? queued_jobs (workers_ s))%nat).

Definition submit (job : Job) : Exec Server bool :=
  yield ;; λ s, let '(b, p) := try_submit (workers_ s) job in (Ok b, set_pool p (threads s) s).

Definition launch_strand (f : Z) : Exec Server unit :=
  do! c := connection f in
  match command_queue c with
  | [] => update f (set_strand [] false)
  | item :: queue =>
      update f (set_strand queue true) ;;
      let job := {| job_connection := id_ c; job_item := item |} in
      do! submitted := submit job in
      if submitted then ret tt
      else do! completion := run_command job in yield ;; deliver completion ;; wake_reactor
  end.

Definition enqueue_command (f : Z) (request : RespValue) : Exec Server unit :=
  do! c := connection f in
  let item := {| qc_sequence := next_request_seq c; qc_request := request |} in
  update f (λ c, MkConnection (id_ c) (interest c) (output c) (parser c) (next_request_seq c + 1)
    (next_response_seq c) (pending_responses c) (command_queue c ++ [item]) (strand_running c)
    (inflight c + 1) (read_closed c) (closing c) (last_activity c)) ;;
  if strand_running c then ret tt else launch_strand f.

(** The answer to a malformed request: the connection is read no more. *)
Definition reject (f : Z) : Exec Server unit :=
  do! text := lift protocol_error in
  update f (λ c, set_closed true true (set_output (output c ++ text) c)).

(** ** Reading *)

Fixpoint queue_parsed_commands (fuel : nat) (f : Z) : Exec Server unit :=
  match fuel with
  | O => out_of_fuel
  | S fuel' =>
      do! saturated := queue_saturated in
      do! c := connection f in
      if saturated && (inflight c >? 0) then ret tt
      else
        let '(result, p) := next (parser c) in
        update f (set_parser p) ;;
        match result_status result, result_value result with
        | incomplete, _ => ret tt
        | complete, Some request =>
            if is_command_request request
            then enqueue_command f request ;; queue_parsed_commands fuel' f
            else reject f
        | _, _ => reject f
        end
  end.

(** The branch of [read_connection] for the end of the stream. *)
Definition read_end (f : Z) (c : Connection) : Exec Server unit :=
  update f (set_closed true (closing c)) ;;
  if negb (buffered_bytes (parser c) =? 0)
  then do! text := lift protocol_error in
       update f (λ c, set_closed true true (set_output (output c ++ text) c))
  else if (inflight c =? 0) && bool_decide (output c = [])
  then update f (set_closed true true)
  else ret tt.

(** The branch for bytes that were received; [more] is the next iteration. *)
Definition read_data (f : Z) (c : Connection) (n : Z) (data : bytes) (more : Exec Server unit) : Exec Server unit :=
  on_stats (add_bytes_in n) ;;
  do! now := steady_now in
  update f (touch now) ;;
  let '(fed, p) := feed (parser c) data in
  update f (set_parser p) ;;
  if negb (bool_decide (fed = incomplete)) then reject f
  else
    queue_parsed_commands (S (length (buffer_ p))) f ;;
    do! c' := connection f in
    if closing c' then ret tt else more.

(** The loop of [read_connection]: every iteration takes a result of
    [recv(2)] off the script, or ends. *)
Fixpoint read_loop (fuel : nat) (f : Z) : Exec Server unit :=
  match fuel with
  | O => out_of_fuel
  | S fuel' =>
      do! saturated := queue_saturated in
      if saturated then ret tt
      else
        do! c := connection f in
        do! (io, data) := socket_receive (id_ c) in
        match io_status io with
        | would_block => ret tt
        | closed => read_end f c
        | io_ok => read_data f c (io_bytes io) data (read_loop fuel' f)
        end
  end.

Definition read_connection (f : Z) : Exec Server unit :=
  do! c := connection f in
  if read_closed c || closing c then ret tt
  else do! n := gets (λ s, length (recvs (script s))) in read_loop (S n) f.

(** ** Writing *)

Fixpoint write_loop (fuel : nat) (f : Z) : Exec Server unit :=
  match fuel with
  | O => out_of_fuel
  | S fuel' =>
      do! c := connection f in
      if bool_decide (output c = []) then ret tt
      else
        do! io := socket_send (id_ c) (output c) in
        if bool_decide (io_status io = would_block) then ret tt
        else if bool_decide (io_status io = closed) || (io_bytes io =? 0)
        then update f (λ c, set_closed (read_closed c) true (set_output [] c))
        else
          on_stats (add_bytes_out (io_bytes io)) ;;
          update f (λ c, set_output (drop (Z.to_nat (io_bytes io)) (output c)) c) ;;
          do! now := steady_now in
          update f (touch now) ;;
          write_loop fuel' f
  end.

Definition write_connection (f : Z) : Exec Server unit :=
  do! n := gets (λ s, length (sends (script s))) in write_loop (S n) f.

(** ** Interests and the end of a connection *)

Definition compute_interest (f : Z) : Exec Server Interest :=
  do! c := connection f in
  do! want_read :=
    (if read_closed c || closing c then ret false
     else do! saturated := queue_saturated in
          ret (negb saturated && (len (output c) <? cfg_max_output_buffer_bytes config))) in
  ret (interest_or (if want_read then interest_read else interest_none)
                   (if bool_decide (output c = []) then interest_none else interest_write)).

(** [connection.interest] follows [interest], in the kernel too. *)
Definition apply_computed (f : Z) (i : Interest) : Exec Server unit :=
  do! c := connection f in
  if i =? interest c then ret tt
  else update f (set_interest i) ;;
       do! fails := pop_kev in on_reactor (reactor_modify fails f i).

Definition update_interest (f : Z) : Exec Server unit :=
  do! i := compute_interest f in
  do! c := connection f in
  let enabling_read := has_interest i interest_read && negb (has_interest (interest c) interest_read) in
  apply_computed f i ;;
  if enabling_read
  then read_connection f ;;
       do! i' := compute_interest f in apply_computed f i'
  else ret tt.

Definition close_connection (f : Z) : Exec Server unit :=
  do! found := gets (λ s, connections_ s !! f) in
  match found with
  | None => ret tt
  | Some c =>
      do! fails_read := pop_kev in
      do! fails_write := pop_kev in
      ignore_errors (on_reactor (reactor_remove fails_read fails_write f)) ;;
      modify (λ s, set_connections (delete f (connections_ s)) s) ;;
      on_reactor (modify (kernel_close f)) ;;
      modify (happen (did_close (id_ c))) ;;
      on_stats on_disconnect
  end.

(** The end of the handlers: close a connection that is done, or go on. *)
Definition close_or_update (f : Z) : Exec Server unit :=
  do! c := connection f in
  if closing c && bool_decide (output c = []) && (inflight c =? 0) then close_connection f
  else update_interest f.

(** ** Completions *)

(** The loop that moves the responses that are next in order to the output. *)
Fixpoint flush_responses (fuel : nat) (c : Connection) : Connection :=
  match fuel with
  | O => c
  | S fuel' =>
      match pending_responses c !! next_response_seq c with
      | None => c
      | Some text =>
          if (len (output c) >? cfg_max_output_buffer_bytes config) ||
             (len text >? cfg_max_output_buffer_bytes config - len (output c))
          then set_closed true true (set_pending ∅ (next_response_seq c) c)
          else flush_responses fuel'
                 (set_pending (delete (next_response_seq c) (pending_responses c)) (next_response_seq c + 1)
                    (set_output (output c ++ text) c))
      end
  end.

(** The search for the connection of a completion. *)
Definition find_connection (i : Z) (m : gmap Z Connection) : option (Z * Connection) :=
  head (filter (λ p, id_ p.2 = i) (conn_order m)).

(** [emplace] keeps a response that is already there. *)
Definition add_response (k : Z) (text : bytes) (m : gmap Z bytes) : gmap Z bytes :=
  match m !! k with Some _ => m | None => <[k := text]> m end.

Definition apply_completion (completion : Completion) : Exec Server unit :=
  do! found := gets (λ s, find_connection (c_connection completion) (connections_ s)) in
  match found with
  | None => ret tt
  | Some (f, _) =>
      on_stats (on_command (c_error completion)) ;;
      update f (λ c, set_pending
        (add_response (c_sequence completion) (c_payload completion) (pending_responses c))
        (next_response_seq c) c) ;;
      update f (λ c, set_inflight (if inflight c >? 0 then inflight c - 1 else inflight c) c) ;;
      update f (λ c, flush_responses (S (size (pending_responses c))) c) ;;
      do! now := steady_now in
      update f (touch now) ;;
      do! c := connection f in
      (if bool_decide (output c = []) then ret tt else write_connection f) ;;
      do! present := contains f in
      if negb present then ret tt
      else
        do! c := connection f in
        (match command_queue c with
         | _ :: _ => launch_strand f
         | [] => update f (set_strand [] false)
         end) ;;
        close_or_update f
  end.

Fixpoint apply_completions (local : list Completion) : Exec Server unit :=
  match local with
  | [] => ret tt
  | c :: local' => apply_completion c ;; apply_completions local'
  end.

Fixpoint drain_loop (fuel : nat) : Exec Server unit :=
  match fuel with
  | O => out_of_fuel
  | S fuel' =>
      yield ;;
      do! local := gets completions_ in
      modify (set_completions []) ;;
      match local with
      | [] => ret tt
      | _ :: _ => apply_completions local ;; drain_loop fuel'
      end
  end.

(** The completions that can still come: those on the way, the commands that
    wait, and at most one for each byte that is buffered or still to be
    received.  Every round of the loop applies at least one. *)
Definition thread_work (t : Thread) : nat :=
  match t with t_running _ | t_delivering _ => 1 | t_waiting | t_waking | t_exited => 0 end.

Definition connection_work (c : Connection) : nat := length (command_queue c) + length (buffer_ (parser c)).

Definition pending_work (s : Server) : nat :=
  length (completions_ s) + length (jobs_ (workers_ s)) + sum_list_with thread_work (threads s) +
  sum_list_with (λ p, connection_work p.2) (map_to_list (connections_ s)) + recv_total (recvs (script s)).

Definition drain_completions : Exec Server unit :=
  do! n := gets pending_work in drain_loop (S n).

(** ** Accepting *)

(** The body of the loop of [accept_ready] after a connection was accepted. *)
Definition add_connection : Exec Server unit :=
  checked "fcntl(F_GETFL)" ;;
  checked "fcntl(F_SETFL)" ;;
  do! i := gets next_connection_id_ in
  modify (set_next_id (i + 1)) ;;
  do! now := steady_now in
  do! f := gets (λ s, new_descriptor (dom (connections_ s) ∪ {[ listener ]})) in
  do! fails := pop_kev in
  on_reactor (reactor_add fails f interest_read) ;;
  modify (λ s, set_connections (<[f := new_connection i (cfg_parser_limits config) now]> (connections_ s)) s) ;;
  modify (happen (did_accept i)) ;;
  on_stats on_accept ;;
  read_connection f ;;
  drain_completions ;;
  do! present := contains f in
  if present then close_or_update f else ret tt.

Fixpoint accept_loop (fuel : nat) : Exec Server unit :=
  match fuel with
  | O => out_of_fuel
  | S fuel' =>
      do! stop := stopping in
      if stop then ret tt
      else
        do! full := gets (λ s, cfg_max_connections config <=? Z.of_nat (size (connections_ s))) in
        if full then ret tt
        else
          do! accepted := listener_accept in
          if negb accepted then ret tt
          else add_connection ;; accept_loop fuel'
  end.

Definition accept_ready : Exec Server unit :=
  do! n := gets (λ s, length (accepts (script s))) in accept_loop (S n).

(** ** Events *)

Definition handle_connection_event (event : FiredEvent) : Exec Server unit :=
  let f := fd event in
  do! present := contains f in
  if negb present then ret tt
  else if error event then close_connection f
  else
    do! present1 :=
      (if has_interest (ready event) interest_read || hangup event
       then read_connection f ;; drain_completions ;; contains f
       else ret true) in
    if negb present1 then ret tt
    else
      do! present2 :=
        (if has_interest (ready event) interest_write then write_connection f ;; contains f else ret true) in
      if negb present2 then ret tt else close_or_update f.

Fixpoint handle_events (events : list FiredEvent) : Exec Server unit :=
  match events with
  | [] => ret tt
  | event :: events' =>
      (if fd event =? listener then accept_ready else handle_connection_event event) ;;
      handle_events events'
  end.

(** ** Housekeeping *)

(** [store_.active_expire_cycle(20)]. *)
Definition expire_cycle : Exec Server Z :=
  do! env := pop_env in
  do! rand := pop_rand in
  λ s, match active_expire_cycle rand (env_clk env) (store (world (context s))) 20 with
       | None => (Throw (undefined_behaviour "iterator past the end"), s)
       | Some (n, st) => (Ok n, set_context (set_world (set_store st (world (context s))) (context s)) s)
       end.

Definition run_active_expiry : Exec Server unit :=
  if cfg_active_expiry_hz config <=? 0 then ret tt
  else
    do! now := steady_now in
    do! tick := gets next_expiry_tick_ in
    if now <? tick then ret tt
    else
      let interval := Z.quot 1000 (Z.max 1 (cfg_active_expiry_hz config)) * 1000000 in
      modify (set_expiry_tick (now + interval)) ;;
      do! expired := expire_cycle in
      if expired >? 0 then on_stats (add_expired_keys expired) else ret tt.

Fixpoint close_all (fds : list Z) : Exec Server unit :=
  match fds with [] => ret tt | f :: fds' => close_connection f ;; close_all fds' end.

Definition close_idle_connections : Exec Server unit :=
  if cfg_idle_timeout config <=? 0 then ret tt
  else
    do! now := steady_now in
    let deadline := now - cfg_idle_timeout config * 1000000000 in
    do! idle := gets (λ s, map fst (filter (λ p, last_activity p.2 < deadline ∧ inflight p.2 = 0)
                                      (conn_order (connections_ s)))) in
    close_all idle.

(** The timeout of the wait, in milliseconds. *)
Definition wait_timeout : Exec Server Z :=
  if cfg_active_expiry_hz config >? 0 then
    do! now := steady_now in
    do! tick := gets next_expiry_tick_ in
    ret (if tick <=? now then 0 else Z.quot (tick - now) 1000000)
  else ret 100.

(** [reactor_->wait(events, timeout)] with the array of 64 events. *)
Definition kernel_wait (timeout : Z) : Exec Server (list FiredEvent) := λ s,
  match wait 64 (Some timeout) (waits (script s)) (reactor_ s) with
  | (Ok (events, rest), r) => (Ok events, set_reactor r (set_script (with_waits rest (script s)) s))
  | (Throw e, r) => (Throw e, set_reactor r s)
  end.

(** The workers go on until the wait. *)
Definition reactor_wait (timeout : Z) : Exec Server (list FiredEvent) := yield ;; kernel_wait timeout.

(** [persistence_->maybe_snapshot(store_)], whose errors are ignored. *)
Definition snapshot_step : Exec Server unit :=
  do! env := pop_env in
  do! now := steady_now in
  do! after := steady_now in
  ignore_errors (zoom context set_context (zoom world set_world
    (maybe_snapshot (cfg_persistence config) (env_os env) (env_clk env) now after))).

Definition take_snapshot : Exec Server unit :=
  do! persistent := gets (λ s, persistence (context s)) in
  if persistent then snapshot_step else ret tt.

(** ** The loop *)

(** An iteration that was not stopped before its events. *)
Definition iterate (events : list FiredEvent) : Exec Server unit :=
  drain_completions ;;
  handle_events events ;;
  drain_completions ;;
  run_active_expiry ;;
  close_idle_connections ;;
  take_snapshot ;;
  do! memory := gets (λ s, approximate_memory (store (world (context s)))) in
  on_stats (set_used_memory memory).

(** The loop ends when the flag is set, at the latest with the script. *)
Fixpoint run_loop (fuel : nat) : Exec Server unit :=
  match fuel with
  | O => out_of_fuel
  | S fuel' =>
      do! stop := stopping in
      if stop then ret tt
      else
        do! timeout := wait_timeout in
        do! events := reactor_wait timeout in
        do! stop' := stopping in
        if stop' then ret tt
        else iterate events ;; run_loop fuel'
  end.

(** [workers_->shutdown()]: a worker is joined when it has ended.  Until then it
    takes its turns, between which the others may take theirs. *)
Fixpoint join_thread (fuel : nat) (i : nat) : Exec Server unit :=
  match fuel with
  | O => out_of_fuel
  | S fuel' =>
      yield ;;
      do! t := gets (λ s, threads s !! i) in
      match t with
      | None | Some t_exited => ret tt
      | Some _ => thread_turn i ;; join_thread fuel' i
      end
  end.

Fixpoint join_threads (indices : list nat) : Exec Server unit :=
  match indices with
  | [] => ret tt
  | i :: indices' =>
      do! n := gets (λ s, length (jobs_ (workers_ s))) in
      join_thread (5 + 4 * n) i ;; join_threads indices'
  end.

Definition shutdown_workers : Exec Server unit :=
  do! first := (λ s, let '(b, p) := shutdown_begin (workers_ s) in (Ok b, set_pool p (threads s) s)) in
  if negb first then ret tt
  else
    do! n := gets (λ s, length (threads s)) in
    join_threads (seq 0 n) ;;
    modify (λ s, set_pool (shutdown_end (workers_ s)) [] s).

Definition run : Exec Server unit :=
  do! n := gets (λ s, length (stops (script s))) in
  run_loop (S n) ;;
  do! fds := gets (λ s, map fst (conn_order (connections_ s))) in
  close_all fds ;;
  shutdown_workers.
End Loop.

(** ** From other threads *)

(** [stop] when [stopping_] is [already]; the new value of the flag.  The reactor
    is woken up; the result of [shutdown(2)] on the listener is ignored, and what
    it does to the calls of [accept(2)] is in the script. *)
Definition stop (already : bool) : Exec Server bool :=
  if already then ret true else wake_reactor ;; ret true.

(** [worker_count], [bound_port] and [stats]. *)
Definition server_worker_count (s : Server) : nat := length (threads s).
Definition bound_port (s : Server) : Z := tcp_port (context s).
Definition server_stats (s : Server) : option Stats := stats (context s).

(** ** Construction and destruction *)

Section Lifetime.
Context `{Platform} (config : ServerConfig) (listener : Z).

(** The store and the engine after the constructor's body: the engine recovers
    the store from the files. *)
Definition initial_world (steady : Z) (wal_bytes : bytes) (files : SnapshotFiles) (os : Os)
    (import_clks replay_clks : nat → Clock) (st : Store) : result World :=
  if cfg_persistence_enabled config then
    match data_dir (cfg_persistence config) with
    | [] => throw invalid_argument "persistence requires --data-dir"
    | _ :: _ =>
        let! w0 := new_engine (cfg_persistence config) os steady wal_bytes files st in
        let '(r, w1) := recover_into (cfg_persistence config) os import_clks replay_clks w0 in
        let! _ := r in Ok w1
    end
  else Ok (volatile_world st).

(** [Server::Server] on a listener that is open, with the files of the data
    directory; [import_clks] and [replay_clks] are the clocks of the recovery. *)
Definition new_server (hardware : nat) (bound_port : Z) (steady now : Z) (ver : bytes)
    (wal_bytes : bytes) (files : SnapshotFiles) (os : Os) (import_clks replay_clks : nat → Clock)
    (add_fails : option nat) (queue user_event nonblocking : bool) (x : Script) : result Server :=
  let! reactor0 := create_reactor queue user_event in
  let! st := new_store (cfg_shards config) in
  let! (p, n) := new_pool (default_worker_count hardware (cfg_workers config)) (cfg_worker_queue_limit config) in
  let! w := initial_world steady wal_bytes files os import_clks replay_clks st in
  if negb nonblocking then throw system_error "fcntl(F_SETFL)"
  else
    let '(r, reactor) := reactor_add add_fails listener interest_read reactor0 in
    let! _ := r in
    Ok {| connections_ := ∅; completions_ := []; workers_ := p; threads := replicate n t_waiting;
          reactor_ := reactor;
          context := {| world := w; persistence := cfg_persistence_enabled config; stats := Some new_stats;
                        version := ver; tcp_port := bound_port; worker_count := Z.of_nat n |};
          next_connection_id_ := 1; next_expiry_tick_ := now; script := x; trace := [] |}.

(** The body of [Server::~Server] after [stop].  When [run] threw, workers may be
    running meanwhile; what they then do to the engine is not modelled. *)
Definition destroy_server (os : Os) (clk : Clock) : Exec Server unit :=
  do! persistent := gets (λ s, persistence (context s)) in
  if persistent then
    ignore_errors (zoom context set_context (zoom world set_world (shutdown (cfg_persistence config) os clk))) ;;
    modify (λ s, set_context (set_world (reset_wal (world (context s)))
      {| world := world (context s); persistence := false; stats := stats (context s);
         version := version (context s); tcp_port := tcp_port (context s);
         worker_count := worker_count (context s) |}) s)
  else ret tt.
End Lifetime.
