(* ===== verification/ServerFollows.v ===== *)
(** * What every step of the server does

    A relation between states that is kept by the few primitive steps of the
    server is kept by all of its methods.  [Steps] lists the primitive steps;
    the methods are walked through once, for every such relation.  What holds
    when a method throws ([R']) may be weaker than what holds when it returns. *)

From S2P Require Import Prelude Resp Parser Disk Wal Store Snapshot Engine Stats Registry.
From S2P Require Import ThreadPool Socket Reactor Server.

Section Follows.
Context `{Platform} `{Kernel} (config : ServerConfig) (listener : Z).
Context (R R' : relation Server).

(** Whatever the outcome, [m] leads to a related state. *)
Definition follows {A} (m : Exec Server A) : Prop :=
  ∀ s, match m s with (Ok _, s') => R s s' | (Throw _, s') => R' s s' end.

(** The relations of a computation and of the exceptions that leave it. *)
Class Outcomes : Prop := {
  out_preorder :: PreOrder R;
  out_throw s s' : R s s' → R' s s';
  out_after s1 s2 s3 : R s1 s2 → R' s2 s3 → R' s1 s3;
}.
Context `{!Outcomes}.

(** The primitive steps. *)
Class Steps : Prop := {
  steps_script s x : envs x = envs (script s) → rands x = rands (script s) →
    kevs x `suffix_of` kevs (script s) → R s (set_script x s);
  steps_event s h : (∀ i q r, h ≠ did_exec i q r) → R s (happen h s);
  steps_connections s m : R s (set_connections m s);
  steps_drained s : R s (set_completions [] s);
  steps_pool s p : R s (set_pool p (threads s) s);
  steps_reactor s r : triggered r = triggered (reactor_ s) → R s (set_reactor r s);
  steps_stats s st : R s (set_context (set_stats st (context s)) s);
  steps_next_id s n : R s (set_next_id n s);
  steps_tick s t : R s (set_expiry_tick t s);
  steps_turn i : follows (thread_turn config i);
  steps_command job : follows (run_command config job);
  steps_deliver c : follows (deliver c ;; wake_reactor);
  steps_expire : follows expire_cycle;
  steps_snapshot s : persistence (context s) = true →
    match snapshot_step config s with (Ok _, s') => R s s' | (Throw _, s') => R' s s' end;
}.
Context `{!Steps}.

(** ** Rules *)

Lemma throw_refl s : R' s s.
Proof. by apply out_throw. Qed.
#[local] Hint Resolve throw_refl : core.

Lemma tail_suffix {A} (l : list A) : tail l `suffix_of` l.
Proof. destruct l as [|a l]; [done|]. by exists [a]. Qed.

(** A computation that leads to a related state by itself. *)
Lemma follows_any {A} (m : Exec Server A) : (∀ s, R s (snd (m s))) → follows m.
Proof. intros Hm s. specialize (Hm s). destruct (m s) as [[a|e] s']; [done|by apply out_throw]. Qed.

Lemma follows_ret {A} (a : A) : follows (ret a).
Proof. by apply follows_any. Qed.
Lemma follows_gets {A} (f : Server → A) : follows (gets f).
Proof. by apply follows_any. Qed.
Lemma follows_raise {A} e : follows (@raise Server A e).
Proof. by apply follows_any. Qed.
Lemma follows_lift {A} (r : result A) : follows (lift r).
Proof. by apply follows_any. Qed.
Lemma follows_connection f : follows (connection f).
Proof. apply follows_any. intros s. unfold connection. by destruct (connections_ s !! f). Qed.
Lemma follows_modify g : (∀ s, R s (g s)) → follows (modify g).
Proof. intros Hg. by apply follows_any. Qed.
Lemma follows_bind {A B} (m : Exec Server A) (k : A → Exec Server B) :
  follows m → (∀ a, follows (k a)) → follows (exec_bind m k).
Proof.
  intros Hm Hk s. unfold exec_bind. specialize (Hm s). destruct (m s) as [[a|e] s1]; [|done].
  specialize (Hk a s1). destruct (k a s1) as [[b|e] s2]; [by etrans|by eapply out_after].
Qed.

Lemma follows_pop {A} (end_ : A) get put :
  (∀ x, let y := put (tail (get x)) x in
     envs y = envs x ∧ rands y = rands x ∧ kevs y `suffix_of` kevs x) → follows (pop end_ get put).
Proof. intros Hp. apply follows_any. intros s. apply steps_script; apply Hp. Qed.

Lemma follows_update f g : follows (update f g).
Proof. apply follows_any. intros s. apply steps_connections. Qed.
Lemma follows_on_stats f : follows (on_stats f).
Proof. apply follows_any. intros s. unfold on_stats, modify. cbn. destruct (stats (context s)); [apply steps_stats|done]. Qed.
Lemma reactor_step {A} (m : Exec Reactor A) s : keeps triggered m → R s (snd (on_reactor m s)).
Proof.
  intros Hm. unfold on_reactor, zoom. specialize (Hm (reactor_ s)). destruct (m (reactor_ s)) as [a r].
  by apply steps_reactor.
Qed.
Lemma follows_on_reactor {A} (m : Exec Reactor A) : keeps triggered m → follows (on_reactor m).
Proof. intros Hm. apply follows_any. intros s. by apply reactor_step. Qed.
Lemma follows_ignore_reactor {A} (m : Exec Reactor A) : keeps triggered m → follows (ignore_errors (on_reactor m)).
Proof.
  intros Hm. apply follows_any. intros s. pose proof (reactor_step m s Hm) as Hs. unfold ignore_errors.
  by destruct (on_reactor m s) as [[a|[]] s'].
Qed.

#[local] Hint Resolve follows_ret follows_gets follows_raise follows_lift follows_connection
  follows_update follows_on_stats steps_turn steps_command steps_deliver steps_expire : nova.
#[local] Hint Extern 2 (follows (modify _)) =>
  (apply follows_modify; intros ?; first [apply steps_connections|apply steps_drained|apply steps_next_id
     |apply steps_tick|apply steps_event; by intros ???]) : nova.
#[local] Hint Extern 1 (follows (pop _ _ _)) =>
  (apply follows_pop; intros x; cbn; split_and!; [done|done|first [done|apply tail_suffix]]) : nova.

Ltac follow :=
  repeat first
    [ solve [auto with nova]
    | match goal with |- follows (exec_bind _ _) => apply follows_bind; [|intros ?] end
    | match goal with |- follows (match ?x with _ => _ end) => destruct x end
    | match goal with |- follows (let '(_, _) := ?x in _) => destruct x end ].

(** ** The methods *)

Lemma follows_thread_turns ts : follows (thread_turns config ts).
Proof. induction ts as [|i ts IH]; cbn [thread_turns]; follow. Qed.
#[local] Hint Resolve follows_thread_turns : nova.
Lemma follows_yield : follows (yield config).
Proof. unfold yield, pop_turns. follow. Qed.
#[local] Hint Resolve follows_yield : nova.
Lemma follows_saturated : follows (queue_saturated config).
Proof. unfold queue_saturated. follow. Qed.
Lemma follows_submit job : follows (submit config job).
Proof.
  unfold submit. follow. apply follows_any. intros s. destruct (try_submit (workers_ s) job). apply steps_pool.
Qed.
Lemma follows_receive i : follows (socket_receive i).
Proof.
  apply follows_any. intros s. unfold socket_receive. destruct (try_receive _) as [r rest].
  assert (R s (set_script (with_recvs rest (script s)) s)) as Hs by (by apply steps_script).
  destruct r as [[io data]|e]; [|done]. cbn [snd]. case_bool_decide; [done|]. etrans; [exact Hs|].
  by apply steps_event.
Qed.
Lemma follows_send i data : follows (socket_send i data).
Proof.
  apply follows_any. intros s. unfold socket_send. destruct (try_send _ _) as [r rest].
  assert (R s (set_script (with_sends rest (script s)) s)) as Hs by (by apply steps_script).
  destruct r as [io|e]; [|done]. cbn [snd]. cond_case; [|done]. etrans; [exact Hs|]. by apply steps_event.
Qed.
Lemma follows_accept : follows listener_accept.
Proof.
  unfold listener_accept, pop_ok. follow. apply follows_any. intros s. destruct (try_accept _ _). by apply steps_script.
Qed.
Lemma follows_checked operation : follows (checked operation).
Proof. unfold checked, pop_ok. follow. Qed.
Lemma follows_now : follows steady_now.
Proof. unfold steady_now. follow. Qed.
Lemma follows_stopping : follows stopping.
Proof. unfold stopping. follow. Qed.
#[local] Hint Resolve follows_saturated follows_submit follows_receive follows_send follows_accept follows_checked
  follows_now follows_stopping : nova.

Lemma follows_inline job :
  follows (do! completion := run_command config job in yield config ;; deliver completion ;; wake_reactor).
Proof. follow. Qed.
#[local] Hint Resolve follows_inline : nova.
Lemma follows_launch f : follows (launch_strand config f).
Proof. unfold launch_strand. follow. Qed.
#[local] Hint Resolve follows_launch : nova.
Lemma follows_enqueue f request : follows (enqueue_command config f request).
Proof. unfold enqueue_command. follow. Qed.
Lemma follows_reject f : follows (reject f).
Proof. unfold reject. follow. Qed.
#[local] Hint Resolve follows_enqueue follows_reject : nova.
Lemma follows_queue_parsed fuel f : follows (queue_parsed_commands config fuel f).
Proof. induction fuel as [|fuel IH]; cbn [queue_parsed_commands]; unfold out_of_fuel; follow. Qed.
#[local] Hint Resolve follows_queue_parsed : nova.
Lemma follows_read_end f c : follows (read_end f c).
Proof. unfold read_end. follow. Qed.
Lemma follows_read_data f c n data more : follows more → follows (read_data config f c n data more).
Proof. intros Hm. unfold read_data. follow. Qed.
#[local] Hint Resolve follows_read_end follows_read_data : nova.
Lemma follows_read_loop fuel f : follows (read_loop config fuel f).
Proof. induction fuel as [|fuel IH]; cbn [read_loop]; unfold out_of_fuel; follow. Qed.
#[local] Hint Resolve follows_read_loop : nova.
Lemma follows_read f : follows (read_connection config f).
Proof. unfold read_connection. follow. Qed.
Lemma follows_write_loop fuel f : follows (write_loop fuel f).
Proof. induction fuel as [|fuel IH]; cbn [write_loop]; unfold out_of_fuel; follow. Qed.
#[local] Hint Resolve follows_read follows_write_loop : nova.
Lemma follows_write f : follows (write_connection f).
Proof. unfold write_connection. follow. Qed.
#[local] Hint Resolve follows_write : nova.

Lemma kevent_keeps fails changes : keeps triggered (kevent fails changes).
Proof. intros r. unfold kevent. by destruct (kevent_changes _ _ _). Qed.
#[local] Hint Resolve kevent_keeps : nova.

Lemma follows_apply_interest fails f i : follows (on_reactor (reactor_modify fails f i)).
Proof. apply follows_on_reactor. unfold reactor_modify, apply_interest. keep. Qed.
Lemma follows_remove fails fails' f : follows (ignore_errors (on_reactor (reactor_remove fails fails' f))).
Proof. apply follows_ignore_reactor. unfold reactor_remove, delete_filter. keep. Qed.
Lemma follows_kernel_close f : follows (on_reactor (modify (kernel_close f))).
Proof. by apply follows_on_reactor. Qed.
#[local] Hint Resolve follows_apply_interest follows_remove follows_kernel_close : nova.

Lemma follows_compute f : follows (compute_interest config f).
Proof. unfold compute_interest. follow. Qed.
Lemma follows_apply f i : follows (apply_computed f i).
Proof. unfold apply_computed, pop_kev. follow. Qed.
#[local] Hint Resolve follows_compute follows_apply : nova.
Lemma follows_update_interest f : follows (update_interest config f).
Proof. unfold update_interest. follow. Qed.
Lemma follows_close f : follows (close_connection f).
Proof. unfold close_connection, pop_kev. follow. Qed.
#[local] Hint Resolve follows_update_interest follows_close : nova.
Lemma follows_close_or_update f : follows (close_or_update config f).
Proof. unfold close_or_update. follow. Qed.
#[local] Hint Resolve follows_close_or_update : nova.
Lemma follows_apply_completion c : follows (apply_completion config c).
Proof. unfold apply_completion, contains. follow. Qed.
#[local] Hint Resolve follows_apply_completion : nova.
Lemma follows_apply_completions l : follows (apply_completions config l).
Proof. induction l as [|c l IH]; cbn [apply_completions]; follow. Qed.
#[local] Hint Resolve follows_apply_completions : nova.
Lemma follows_drain_loop fuel : follows (drain_loop config fuel).
Proof. induction fuel as [|fuel IH]; cbn [drain_loop]; unfold out_of_fuel; follow. Qed.
#[local] Hint Resolve follows_drain_loop : nova.
Lemma follows_drain : follows (drain_completions config).
Proof. unfold drain_completions. follow. Qed.
#[local] Hint Resolve follows_drain : nova.
Lemma follows_add_connection : follows (add_connection config listener).
Proof.
  unfold add_connection, pop_kev, contains, reactor_add. follow.
Qed.
#[local] Hint Resolve follows_add_connection : nova.
Lemma follows_accept_loop fuel : follows (accept_loop config listener fuel).
Proof. induction fuel as [|fuel IH]; cbn [accept_loop]; unfold out_of_fuel; follow. Qed.
#[local] Hint Resolve follows_accept_loop : nova.
Lemma follows_event event : follows (handle_connection_event config event).
Proof. unfold handle_connection_event, contains. follow. Qed.
#[local] Hint Resolve follows_event : nova.
Lemma follows_events events : follows (handle_events config listener events).
Proof. induction events as [|e events IH]; cbn [handle_events]; unfold accept_ready; follow. Qed.
Lemma follows_close_all fds : follows (close_all fds).
Proof. induction fds as [|f fds IH]; cbn [close_all]; follow. Qed.
#[local] Hint Resolve follows_events follows_close_all : nova.
Lemma follows_expiry : follows (run_active_expiry config).
Proof. unfold run_active_expiry. follow. Qed.
Lemma follows_idle : follows (close_idle_connections config).
Proof. unfold close_idle_connections. follow. Qed.
Lemma follows_take_snapshot : follows (take_snapshot config).
Proof.
  intros s. unfold take_snapshot, exec_bind, gets.
  destruct (persistence (context s)) eqn:Hp; [by apply steps_snapshot|exact (follows_ret tt s)].
Qed.
#[local] Hint Resolve follows_expiry follows_idle follows_take_snapshot : nova.

(** An iteration without its first round of completions. *)
Lemma follows_after_drain events :
  follows (handle_events config listener events ;; drain_completions config ;; run_active_expiry config ;;
    close_idle_connections config ;; take_snapshot config ;;
    do! memory := gets (λ s, approximate_memory (store (world (context s)))) in on_stats (set_used_memory memory)).
Proof. follow. Qed.

Lemma follows_iterate events : follows (iterate config listener events).
Proof. unfold iterate. follow. Qed.
Lemma follows_timeout : follows (wait_timeout config).
Proof. unfold wait_timeout. follow. Qed.
#[local] Hint Resolve follows_iterate follows_timeout : nova.

(** The parts that wait for events and join the workers. *)
Section Whole.
Context (Hwait : ∀ timeout, follows (kernel_wait timeout)).
Context (Hjoined : ∀ s p, R s (set_pool p [] s)).

Lemma follows_wait timeout : follows (reactor_wait config timeout).
Proof. unfold reactor_wait. follow. Qed.
#[local] Hint Resolve follows_wait : nova.
Lemma follows_run_loop fuel : follows (run_loop config listener fuel).
Proof. induction fuel as [|fuel IH]; cbn [run_loop]; unfold out_of_fuel; follow. Qed.
Lemma follows_join_thread fuel i : follows (join_thread config fuel i).
Proof. induction fuel as [|fuel IH]; cbn [join_thread]; unfold out_of_fuel; follow. Qed.
#[local] Hint Resolve follows_run_loop follows_join_thread : nova.
Lemma follows_join_threads l : follows (join_threads config l).
Proof. induction l as [|i l IH]; cbn [join_threads]; follow. Qed.
#[local] Hint Resolve follows_join_threads : nova.
Lemma follows_shutdown : follows (shutdown_workers config).
Proof.
  unfold shutdown_workers. apply follows_bind; [|intros first].
  - apply follows_any. intros s. destruct (shutdown_begin (workers_ s)). apply steps_pool.
  - follow. apply follows_modify. intros s. apply Hjoined.
Qed.
#[local] Hint Resolve follows_shutdown : nova.
Lemma follows_run : follows (run config listener).
Proof. unfold run. follow. Qed.
End Whole.
End Follows.
