(* ===== verification/ServerHistory.v ===== *)
(** * The history of a server

    What a run of the server does to the store and the engine, as a sequence of
    labelled steps: the commands in the order of their execution, expiry cycles,
    snapshots and background syncs.  Every method of the server, whatever its
    outcome, extends the history of the state it starts from. *)

From S2P Require Import Prelude Resp Disk Wal Store StoreTheorems Snapshot Engine Stats Registry ThreadPool.
From S2P Require Import Socket Reactor Server ServerFollows.

(** ** Steps *)

(** A step, with the environment it was taken in.  Environments that were read
    for nothing are steps of their own. *)
Inductive Step :=
| st_event (h : Happened)
| st_exec (env : Env) (i : Z) (request response : RespValue)
| st_failed (env : Env) (request : RespValue)
| st_expire (env : Env) (rand : nat → nat → nat → nat)
| st_snapshot (env : Env) (returned : bool)
| st_fsync (env : Env)
| st_unused (env : Env).

Definition is_exec (h : Happened) : bool := match h with did_exec _ _ _ => true | _ => false end.

(** What the trace shows of a step. *)
Definition event_of (l : Step) : option Happened :=
  match l with
  | st_event h => Some h
  | st_exec _ i q r => Some (did_exec i q r)
  | _ => None
  end.

Definition env_of (l : Step) : option Env :=
  match l with
  | st_event _ => None
  | st_exec e _ _ _ | st_failed e _ | st_expire e _ | st_snapshot e _ | st_fsync e | st_unused e => Some e
  end.

Definition step_rand_ok (l : Step) : Prop := match l with st_expire _ rand => rand_ok rand | _ => True end.

Section Steps.
Context `{Platform} (config : PersistenceConfig) (durable : bool).

Inductive step : World → Step → World → Prop :=
| step_event w h : is_exec h = false → step w (st_event h) w
| step_exec ctx env i request response ctx' :
    persistence ctx = durable → execute config env request ctx = (Ok response, ctx') →
    step (world ctx) (st_exec env i request response) (world ctx')
| step_failed ctx env request e ctx' :
    persistence ctx = durable → execute config env request ctx = (Throw e, ctx') →
    step (world ctx) (st_failed env request) (world ctx')
| step_expire w env rand n st :
    active_expire_cycle rand (env_clk env) (store w) 20 = Some (n, st) →
    step w (st_expire env rand) (set_store st w)
| step_snapshot w env now after r w' :
    durable = true → maybe_snapshot config (env_os env) (env_clk env) now after w = (r, w') →
    step w (st_snapshot env (is_ok r)) w'
| step_fsync w env r w' :
    durable = true → fsync_round (env_os env) w = (r, w') → step w (st_fsync env) w'
| step_unused w env : step w (st_unused env) w.

Inductive steps : World → list Step → World → Prop :=
| steps_nil w : steps w [] w
| steps_cons w l w1 ls w' : step w l w1 → steps w1 ls w' → steps w (l :: ls) w'.

Lemma steps_app w ls w1 ls' w' : steps w ls w1 → steps w1 ls' w' → steps w (ls ++ ls') w'.
Proof. induction 1; [done|]. intros Hs. econstructor; eauto. Qed.

Lemma steps_one w l w' : step w l w' → steps w [l] w'.
Proof. intros Hl. econstructor; [done|constructor]. Qed.

(** The state after a part of the steps. *)
Lemma steps_split w ls ls' w' : steps w (ls ++ ls') w' → ∃ w1, steps w ls w1 ∧ steps w1 ls' w'.
Proof.
  revert w. induction ls as [|l ls IH]; intros w Hs; [exists w; split; [constructor|done]|].
  inversion Hs as [|? ? w1 ? ? Hl Hr]; subst. destruct (IH _ Hr) as (w2 & H1 & H2).
  exists w2. split; [by econstructor|done].
Qed.
End Steps.

(** ** The history of a computation *)

Section History.
Context `{Platform} `{Kernel} (config : ServerConfig) (listener : Z).

(** [ls] leads from [s] to [s']. *)
Record leads_by (s : Server) (ls : list Step) (s' : Server) : Prop := {
  lb_steps : steps (cfg_persistence config) (persistence (context s)) (world (context s)) ls (world (context s'));
  lb_durable : persistence (context s') = persistence (context s);
  lb_trace : trace s' = trace s ++ omap event_of ls;
  lb_envs : envs (script s') ≠ [] → envs (script s) = omap env_of ls ++ envs (script s');
  lb_rands : Forall rand_ok (rands (script s)) →
    Forall step_rand_ok ls ∧ Forall rand_ok (rands (script s'));
}.

(** Commands that return, and a command that throws. *)
Definition succeeded (l : Step) : Prop := match l with st_failed _ _ => False | _ => True end.

(** The history of a computation that returns has no command that failed; when
    one fails, it is the last step. *)
Definition history (s s' : Server) : Prop := ∃ ls, leads_by s ls s' ∧ Forall succeeded ls.
Definition cut_history (s s' : Server) : Prop :=
  ∃ ls last, leads_by s (ls ++ last) s' ∧ Forall succeeded ls ∧ (length last <= 1)%nat.

Lemma leads_by_trans s1 ls s2 ls' s3 : leads_by s1 ls s2 → leads_by s2 ls' s3 → leads_by s1 (ls ++ ls') s3.
Proof.
  intros [H1 H2 H3 H4 H5] [H1' H2' H3' H4' H5']. split.
  - rewrite H2 in H1'. by eapply steps_app.
  - congruence.
  - by rewrite H3', H3, omap_app, app_assoc.
  - intros Hne. specialize (H4' Hne). rewrite H4; [rewrite H4', omap_app; by rewrite app_assoc|].
    rewrite H4'. by destruct (omap env_of ls'), (envs (script s3)).
  - intros Hr. destruct (H5 Hr) as [Hl Hr2]. destruct (H5' Hr2) as [Hl' Hr3].
    split; [by apply Forall_app_2|done].
Qed.

Lemma leads_by_refl s : leads_by s [] s.
Proof. split; try done; [constructor|by rewrite app_nil_r]. Qed.

#[global] Instance history_outcomes : Outcomes history cut_history.
Proof.
  split.
  - split.
    + intros s. exists []. split; [apply leads_by_refl|constructor].
    + intros s1 s2 s3 (ls & H1 & H2) (ls' & H1' & H2'). exists (ls ++ ls').
      split; [by eapply leads_by_trans|by apply Forall_app_2].
  - intros s s' (ls & H1 & H2). exists ls, []. rewrite app_nil_r. split_and!; [done|done|cbn; lia].
  - intros s1 s2 s3 (ls & H1 & H2) (ls' & last & H1' & H2' & H3'). exists (ls ++ ls'), last.
    rewrite <- app_assoc. split_and!; [by eapply leads_by_trans|by apply Forall_app_2|done].
Qed.

Lemma history_cut s s' : history s s' → cut_history s s'.
Proof. apply (out_throw history cut_history). Qed.

(** A step that leaves the store, the engine and the trace alone. *)
Lemma leads_by_same s s' :
  world (context s') = world (context s) → persistence (context s') = persistence (context s) →
  trace s' = trace s → envs (script s') = envs (script s) → rands (script s') = rands (script s) →
  leads_by s [] s'.
Proof.
  intros Hw Hp Ht He Hr. split; rewrite ?Hw, ?Ht, ?He, ?Hr; try done; [constructor|by rewrite app_nil_r].
Qed.

Lemma history_same s s' :
  world (context s') = world (context s) → persistence (context s') = persistence (context s) →
  trace s' = trace s → envs (script s') = envs (script s) → rands (script s') = rands (script s) →
  history s s'.
Proof. intros. exists []. split; [by apply leads_by_same|constructor]. Qed.

(** A step with the next environment. *)
Lemma leads_by_env s s' l :
  step (cfg_persistence config) (persistence (context s)) (world (context s)) l (world (context s')) →
  persistence (context s') = persistence (context s) →
  trace s' = trace s ++ omap event_of [l] → env_of l = Some (default default_env (head (envs (script s)))) →
  envs (script s') = tail (envs (script s)) →
  (Forall rand_ok (rands (script s)) → step_rand_ok l ∧ Forall rand_ok (rands (script s'))) →
  leads_by s [l] s'.
Proof.
  intros Hs Hp Ht He Hes Hr. split; try done.
  - by apply steps_one.
  - rewrite Hes. cbn [omap list_omap]. rewrite He. by destruct (envs (script s)) as [|e [|e' es]].
  - intros [Hl Hr']%Hr. split; [by constructor|done].
Qed.

Lemma history_env s s' l :
  succeeded l →
  step (cfg_persistence config) (persistence (context s)) (world (context s)) l (world (context s')) →
  persistence (context s') = persistence (context s) →
  trace s' = trace s ++ omap event_of [l] → env_of l = Some (default default_env (head (envs (script s)))) →
  envs (script s') = tail (envs (script s)) →
  (Forall rand_ok (rands (script s)) → step_rand_ok l ∧ Forall rand_ok (rands (script s'))) →
  history s s'.
Proof. intros. exists [l]. split; [by apply leads_by_env|by constructor]. Qed.

(** A property of all the handlers of the table. *)
Lemma add_all (P : Handler → Prop) (c : Commands) nm lo hi acc h :
  map_Forall (λ _ p, P p.2) c → P h → map_Forall (λ _ (p : CommandMetadata * Handler), P p.2) (add c nm lo hi acc h).
Proof. intros Hc Hh. unfold add. destruct (c !! _); [done|]. by apply map_Forall_insert_2. Qed.

Lemma execute_persistence env request : keeps persistence (execute (cfg_persistence config) env request).
Proof.
  assert (map_Forall (λ _ (p : CommandMetadata * Handler), ∀ args, keeps persistence (p.2 env args))
    (commands_ (cfg_persistence config))) as Hall.
  { unfold commands_. repeat apply (add_all (λ h, ∀ args, keeps persistence (h env args)));
      try apply map_Forall_empty; intros args;
      unfold ping, echo, cmd_set, cmd_get, cmd_del, cmd_exists, cmd_expire, cmd_ttl, cmd_keys, info, on_store, on_engine;
      keep. }
  unfold execute. destruct (extract_arguments request) as [args|]; [|done]. apply keeps_bind; [done|]. intros nm.
  destruct (commands_ _ !! _) as [[meta h]|] eqn:E; [|done]. cond_case; [done|]. by apply (Hall _ _ E).
Qed.

Lemma history_command job : follows history cut_history (run_command config job).
Proof.
  intros s. unfold run_command, pop_env, pop, exec_bind, zoom, modify, lift. cbn [script set_script context].
  set (env := default default_env _).
  pose proof (execute_persistence env (qc_request (job_item job)) (context s)) as Hp.
  destruct (execute _ env _ (context s)) as [[r|e] ctx] eqn:E; cbn [snd] in Hp.
  - set (s' := happen _ _). assert (history s s') as Hh.
    { eapply (history_env _ _ (st_exec env (job_connection job) (qc_request (job_item job)) r)); try done.
      by econstructor. }
    destruct (encode r); [done|by apply history_cut].
  - exists [], [st_failed env (qc_request (job_item job))]. split_and!; [|constructor|done].
    eapply leads_by_env; try done; cbn; [by econstructor|by rewrite app_nil_r].
Qed.

Lemma history_fsync : follows history cut_history fsync_turn.
Proof.
  apply (follows_any history cut_history). intros s. unfold fsync_turn, pop_env, pop, exec_bind, gets.
  destruct (persistence (context s)) eqn:Hp; [|done].
  unfold zoom. cbn [context set_script]. destruct (fsync_round _ _) as [r w] eqn:E.
  eapply (history_env _ _ (st_fsync _)); try done; cbn; [by econstructor|by rewrite app_nil_r].
Qed.

Lemma history_wake s : history s (snd (wake_reactor s)).
Proof.
  unfold wake_reactor, pop_kev, pop, exec_bind, ignore_errors, on_reactor, zoom, wakeup.
  destruct (bool_decide _); by apply history_same.
Qed.

Lemma history_turn i : follows history cut_history (thread_turn config i).
Proof.
  intros s. unfold thread_turn. destruct (threads s !! i) as [[|job|c| |]|].
  - destruct (wake (workers_ s)); [|done]. destruct (worker_section _) as [[[j|] p]|e]; [by apply history_same..|].
    by apply history_cut.
  - unfold exec_bind, terminating, set_thread_state, modify. pose proof (history_command job s) as Hc.
    destruct (run_command config job s) as [[c|e] s1]; [|by destruct e]. etrans; [exact Hc|]. by apply history_same.
  - by apply history_same.
  - unfold exec_bind, set_thread_state, modify. pose proof (history_wake s) as Hw. destruct (wake_reactor s) as [[[]|e] s1].
    + etrans; [exact Hw|]. by apply history_same.
    + by apply history_cut.
  - done.
  - apply history_fsync.
Qed.

Lemma history_expire : follows history cut_history expire_cycle.
Proof.
  apply (follows_any history cut_history). intros s.
  unfold expire_cycle, pop_env, pop_rand, pop, exec_bind. cbn [script set_script context].
  set (env := default default_env _). set (rand := default _ _).
  assert (Forall rand_ok (rands (script s)) → rand_ok rand ∧ Forall rand_ok (tail (rands (script s)))) as Hr.
  { intros Hr. unfold rand. cbn [with_envs rands]. destruct (rands (script s)) as [|x xs].
    - split; [intros ????; cbn; lia|done].
    - by apply Forall_cons in Hr. }
  destruct (active_expire_cycle rand (env_clk env) _ 20) as [[n st]|] eqn:E.
  - eapply (history_env _ _ (st_expire env rand)); try done; cbn; [by econstructor|by rewrite app_nil_r].
  - eapply (history_env _ _ (st_unused env)); try done; cbn; [constructor|by rewrite app_nil_r|].
    intros ?%Hr. split; [done|tauto].
Qed.

Lemma history_snapshot s : persistence (context s) = true → history s (snd (snapshot_step config s)).
Proof.
  intros Hp. unfold snapshot_step, pop_env, steady_now, pop, exec_bind. cbn [script set_script context].
  unfold ignore_errors, zoom. cbn [context set_script].
  destruct (maybe_snapshot _ _ _ _ _ _) as [r w] eqn:E.
  assert (history s (set_context (set_world w (context s)) (set_script
    (with_nows (tail (tail (nows (script s)))) (with_envs (tail (envs (script s))) (script s))) s))) as Hh.
  { eapply (history_env _ _ (st_snapshot _ (is_ok r))); try done; cbn;
      [by econstructor|by rewrite app_nil_r]. }
  by destruct r as [a|[]].
Qed.

#[global] Instance history_steps : Steps config history cut_history.
Proof.
  split; try (intros; by apply history_same).
  - intros s h Hh. exists [st_event h]. split; [|by constructor].
    split; try done; [|split; [by constructor|done]].
    apply steps_one. constructor. destruct h; try done. by destruct (Hh i request response).
  - apply history_turn.
  - apply history_command.
  - intros c. apply (follows_any history cut_history). intros s. unfold exec_bind, deliver, modify.
    etrans; [|apply history_wake]. by apply history_same.
  - apply history_expire.
  - intros s Hp. pose proof (history_snapshot s Hp) as Hh. destruct (snapshot_step config s) as [[a|e] s']; [done|].
    by apply history_cut.
Qed.

Lemma history_wait timeout : follows history cut_history (kernel_wait timeout).
Proof.
  apply (follows_any history cut_history). intros s. unfold kernel_wait.
  destruct (wait _ _ _ _) as [[[events rest]|e] r]; by apply history_same.
Qed.

(** The whole of [run] has a history. *)
Lemma history_run s :
  match run config listener s with (Ok _, s') => history s s' | (Throw _, s') => cut_history s s' end.
Proof.
  apply (follows_run config listener history cut_history); [apply history_wait|]. intros s1 p. by apply history_same.
Qed.

(** As a sequence of steps, of which only the last may be a command that throws. *)
Lemma run_steps s r s' :
  run config listener s = (r, s') →
  ∃ ls last, leads_by s (ls ++ last) s' ∧ Forall succeeded ls ∧ (length last <= 1)%nat ∧ (r = Ok tt → last = []).
Proof.
  intros E. pose proof (history_run s) as Hh. rewrite E in Hh. destruct r as [[]|e].
  - destruct Hh as (ls & H1 & H2). exists ls, []. rewrite app_nil_r. split_and!; [done|done|cbn; lia|done].
  - destruct Hh as (ls & last & H1 & H2 & H3). by exists ls, last.
Qed.
End History.
