(* ===== verification/ServerInv.v ===== *)
(** * The invariant of the server

    What a connection's fields say about its history: which requests were
    decoded, which of them were executed, in which order, and which responses
    were sent.  The history is read off the trace; [View] is the part of the
    state that concerns one connection identifier. *)

From S2P Require Import Prelude Resp Parser ParserCorrect Disk Store StoreInv StoreTheorems Engine.
From S2P Require Import Stats Registry ServerCommands.
From S2P Require Import ThreadPool Socket Reactor Server.

(** ** Histories *)

(** The commands executed for a connection, with their responses. *)
Definition executed (i : Z) (tr : list Happened) : list (RespValue * RespValue) :=
  omap (λ h, match h with did_exec j q r => if j =? i then Some (q, r) else None | _ => None end) tr.

(** The bytes received on a connection and the bytes sent on it. *)
Definition received (i : Z) (tr : list Happened) : bytes :=
  concat (omap (λ h, match h with did_recv j d => if j =? i then Some d else None | _ => None end) tr).
Definition sent (i : Z) (tr : list Happened) : bytes :=
  concat (omap (λ h, match h with did_send j d => if j =? i then Some d else None | _ => None end) tr).

Lemma executed_app i tr tr' : executed i (tr ++ tr') = executed i tr ++ executed i tr'.
Proof. apply omap_app. Qed.
Lemma received_app i tr tr' : received i (tr ++ tr') = received i tr ++ received i tr'.
Proof. unfold received. by rewrite omap_app, concat_app. Qed.
Lemma sent_app i tr tr' : sent i (tr ++ tr') = sent i tr ++ sent i tr'.
Proof. unfold sent. by rewrite omap_app, concat_app. Qed.

(** The text of a response on the wire. *)
Definition text_of (v : RespValue) : bytes := match encode v with Ok t => t | Throw _ => [] end.
Definition texts (log : list (RespValue * RespValue)) : list bytes := map (λ p, text_of p.2) log.

Definition error_text : bytes := text_of (Error (str "ERR Protocol error")).

(** The first [r] responses in order, with the answer to a malformed request
    after the first [k] of them. *)
Definition reply_stream (ts : list bytes) (k : nat) (err : bytes) (r : nat) : bytes :=
  concat (take k ts) ++ err ++ concat (drop k (take r ts)).

(** ** Views *)

Record View := {
  v_exec : list (RespValue * RespValue);
  v_jobs : list Job;
  v_done : list Completion;
  v_recv : bytes;
  v_sent : bytes;
}.

Definition thread_jobs (ts : list Thread) : list Job :=
  omap (λ t, match t with t_running j => Some j | _ => None end) ts.
Definition thread_done (ts : list Thread) : list Completion :=
  omap (λ t, match t with t_delivering c => Some c | _ => None end) ts.

(** What the I/O thread holds in its local variables: jobs it is about to run,
    completions that it took off the queue, and a connection whose strand it is
    about to continue. *)
Record Hold := {
  h_jobs : list Job;
  h_done : list Completion;
  h_strand : option Z;
}.

Definition empty_hand : Hold := {| h_jobs := []; h_done := []; h_strand := None |}.

Definition hold_job (j : Job) (h : Hold) : Hold :=
  {| h_jobs := j :: h_jobs h; h_done := h_done h; h_strand := h_strand h |}.
Definition hold_done (c : Completion) (h : Hold) : Hold :=
  {| h_jobs := h_jobs h; h_done := c :: h_done h; h_strand := h_strand h |}.

Definition all_jobs (h : Hold) (s : Server) : list Job :=
  jobs_ (workers_ s) ++ thread_jobs (threads s) ++ h_jobs h.
Definition all_done (h : Hold) (s : Server) : list Completion :=
  thread_done (threads s) ++ completions_ s ++ h_done h.

Definition conn_view (h : Hold) (s : Server) (i : Z) : View :=
  {| v_exec := executed i (trace s);
     v_jobs := filter (λ j, job_connection j = i) (all_jobs h s);
     v_done := filter (λ c, c_connection c = i) (all_done h s);
     v_recv := received i (trace s); v_sent := sent i (trace s) |}.

Definition tokens (v : View) : nat := length (v_jobs v) + length (v_done v).

Definition job_requests (v : View) : list RespValue := map (λ j, qc_request (job_item j)) (v_jobs v).

(** ** What the trace shows of a connection *)

Definition requests_of (limits : ParserLimits) (rcv : bytes) : list RespValue := (decode limits rcv).1.1.

(** The commands executed for a connection are the first ones that the bytes
    received on it decode to, in order; the bytes sent on it are a part, from
    the front, of the responses to these commands, in order, possibly with one
    answer to a malformed request among them. *)
Definition connection_safe (limits : ParserLimits) (tr : list Happened) (i : Z) : Prop :=
  (executed i tr).*1 `prefix_of` requests_of limits (received i tr) ∧
  ∃ k err r, (k <= r <= length (executed i tr))%nat ∧ (err = [] ∨ err = error_text) ∧
    sent i tr `prefix_of` reply_stream (texts (executed i tr)) k err r.

Definition trace_safe (limits : ParserLimits) (tr : list Happened) : Prop := ∀ i, connection_safe limits tr i.

Lemma trace_safe_nil limits : trace_safe limits [].
Proof.
  intros i. split; [apply prefix_nil|]. exists 0%nat, [], 0%nat. split; [cbn; lia|]. split; [by left|done].
Qed.

(** ** The invariant of a connection *)

(** What the decoder of [limits] makes of the bytes [rcv] so far: the requests
    [reqs], with [buffer] left to be decoded, whatever comes next. *)
Definition decoded (limits : ParserLimits) (rcv buffer : bytes) (reqs : list RespValue) : Prop :=
  ∀ rest, decode limits (rcv ++ rest) =
    let '(ws, st, r) := decode limits (buffer ++ rest) in (reqs ++ ws, st, r).

(** What holds for every identifier, of an open connection or not. *)
Record id_ok (limits : ParserLimits) (v : View) : Prop := {
  id_strand : (tokens v <= 1)%nat;
  id_jobs : Forall (λ j, qc_sequence (job_item j) = len (v_exec v)) (v_jobs v);
  id_done : Forall (λ c, ∃ log q r, v_exec v = log ++ [(q, r)] ∧ c_sequence c = len log ∧
                                    encode r = Ok (c_payload c)) (v_done v);
  id_encodes : Forall (λ p, is_ok (encode p.2) = true) (v_exec v);
  id_requests : (v_exec v).*1 ++ job_requests v `prefix_of` requests_of limits (v_recv v);
  id_sent : ∃ k err r rest, (k <= r <= length (v_exec v))%nat ∧ (err = [] ∨ err = error_text) ∧
              v_sent v ++ rest = reply_stream (texts (v_exec v)) k err r;
}.

(** The number of responses that the I/O thread has been given. *)
Definition applied (v : View) : Z := len (v_exec v) - len (v_done v).

(** What the fields of an open connection say. *)
Record conn_ok (limits : ParserLimits) (max_output : Z) (v : View) (c : Connection) : Prop := {
  co_request_seq : next_request_seq c = len (v_exec v) + len (v_jobs v) + len (command_queue c);
  co_queue : map qc_sequence (command_queue c) =
             seqZ (len (v_exec v) + len (v_jobs v)) (len (command_queue c));
  co_inflight : inflight c = len (v_jobs v) + len (v_done v) + len (command_queue c);
  co_response_seq : 0 <= next_response_seq c <= applied v;
  co_pending : next_response_seq c = applied v → pending_responses c = ∅;
  co_choked : next_response_seq c < applied v →
              closing c = true ∧ pending_responses c !! next_response_seq c = None;
  co_parser : limits_ (parser c) = limits ∧ (closing c = false → buffer_oversized_ (parser c) = false);
  co_stream : let reqs := (v_exec v).*1 ++ job_requests v ++ map qc_request (command_queue c) in
    if closing c then reqs `prefix_of` requests_of limits (v_recv v)
    else decoded limits (v_recv v) (buffer_ (parser c)) reqs;
  co_output : ∃ k err, (k <= Z.to_nat (next_response_seq c))%nat ∧
    (err = [] ∨ err = error_text ∧ closing c = true) ∧
    v_sent v ++ output c = reply_stream (texts (v_exec v)) k err (Z.to_nat (next_response_seq c));
  co_bound : len (output c) <= max_output + (if closing c then len error_text else 0);
}.

(** The strand of a connection is running exactly when a command of it is on
    its way, and a connection whose strand is not running has none waiting. *)
Definition strand_ok (v : View) (c : Connection) : Prop :=
  tokens v = (if strand_running c then 1%nat else 0%nat) ∧
  (strand_running c = false → command_queue c = []).

(** ** The invariant of the server *)

Record inv `{Platform} (config : ServerConfig) (h : Hold) (s : Server) : Prop := {
  inv_ids : ∀ i, id_ok (cfg_parser_limits config) (conn_view h s i);
  inv_conns : ∀ f c, connections_ s !! f = Some c →
    conn_ok (cfg_parser_limits config) (cfg_max_output_buffer_bytes config) (conn_view h s (id_ c)) c;
  inv_strands : ∀ f c, connections_ s !! f = Some c → h_strand h ≠ Some f → strand_ok (conn_view h s (id_ c)) c;
  inv_hand : ∀ f, h_strand h = Some f →
    ∃ c, connections_ s !! f = Some c ∧ tokens (conn_view h s (id_ c)) = 0%nat;
  inv_range : ∀ f c, connections_ s !! f = Some c → 1 <= id_ c < next_connection_id_ s;
  inv_unique : ∀ f f' c c', connections_ s !! f = Some c → connections_ s !! f' = Some c' →
    id_ c = id_ c' → f = f';
  inv_fresh : ∀ i, next_connection_id_ s <= i → conn_view h s i = Build_View [] [] [] [] [];
  inv_next : 1 <= next_connection_id_ s;
  inv_size : Z.of_nat (size (connections_ s)) <= cfg_max_connections config;
  inv_stats : ∃ st, stats (context s) = Some st ∧
    active_connections_ st = u64 (Z.of_nat (size (connections_ s))) ∧
    accepted_connections_ st = u64 (next_connection_id_ s - 1);
  inv_store : parts_ok (context s);
  inv_sends : send_count 0 ∉ sends (script s);
  inv_rands : Forall rand_ok (rands (script s));
}.

(** ** What is left to do *)

Definition connections_work (m : gmap Z Connection) : nat :=
  sum_list_with (λ p, connection_work p.2) (map_to_list m).

(** The measure of the loops: [pending_work] and what the I/O thread holds. *)
Definition work (h : Hold) (s : Server) : nat := pending_work s + length (h_jobs h) + length (h_done h).

(** Nothing is added to the work or to the script, and the pool goes on. *)
Record shrinks (h : Hold) (s : Server) (h' : Hold) (s' : Server) : Prop := {
  sh_work : (work h' s' <= work h s)%nat;
  sh_recvs : (length (recvs (script s')) <= length (recvs (script s)))%nat;
  sh_sends : (length (sends (script s')) <= length (sends (script s)))%nat;
  sh_accepts : (length (accepts (script s')) <= length (accepts (script s)))%nat;
  sh_stops : (length (stops (script s')) <= length (stops (script s)))%nat;
  sh_pool : stopping_ (workers_ s') = stopping_ (workers_ s);
}.

(** From [s] with [h] in hand, the state [s'] with [h'] in hand is reached, with
    the same connections open. *)
Definition leads `{Platform} (config : ServerConfig) (h : Hold) (s : Server) (h' : Hold) (s' : Server) : Prop :=
  inv config h' s' ∧ shrinks h s h' s' ∧ dom (connections_ s') = dom (connections_ s).

Lemma shrinks_refl h s : shrinks h s h s.
Proof. by split. Qed.

Lemma shrinks_trans h1 s1 h2 s2 h3 s3 : shrinks h1 s1 h2 s2 → shrinks h2 s2 h3 s3 → shrinks h1 s1 h3 s3.
Proof. intros [] []. split; first [lia|congruence]. Qed.

Lemma connections_work_insert m f c c' :
  m !! f = Some c →
  (connections_work (<[f := c']> m) + connection_work c = connections_work m + connection_work c')%nat.
Proof.
  intros Hf. unfold connections_work.
  rewrite <- (insert_id m f c Hf) at 2. rewrite <- !(insert_delete_eq m).
  rewrite !map_to_list_insert by apply lookup_delete_eq. cbn. lia.
Qed.

Lemma connections_work_delete m f c :
  m !! f = Some c → (connections_work (delete f m) + connection_work c = connections_work m)%nat.
Proof.
  intros Hf. unfold connections_work. rewrite <- (insert_id m f c Hf) at 2.
  rewrite <- (insert_delete_eq m), map_to_list_insert by apply lookup_delete_eq. cbn. lia.
Qed.

Lemma connections_work_new m f c :
  m !! f = None → (connections_work (<[f := c]> m) = connection_work c + connections_work m)%nat.
Proof. intros Hf. unfold connections_work. by rewrite map_to_list_insert. Qed.

(** ** Threads *)

Lemma thread_jobs_insert ts i t t' :
  ts !! i = Some t →
  thread_jobs [t] ++ thread_jobs (<[i := t']> ts) ≡ₚ thread_jobs [t'] ++ thread_jobs ts.
Proof.
  intros Hi. rewrite <- (take_drop_middle ts i t Hi) at 2.
  rewrite insert_take_drop by (by eapply lookup_lt_Some). unfold thread_jobs.
  rewrite !omap_app. cbn [omap list_omap]. destruct t, t'; cbn; solve_Permutation.
Qed.

Lemma thread_done_insert ts i t t' :
  ts !! i = Some t →
  thread_done [t] ++ thread_done (<[i := t']> ts) ≡ₚ thread_done [t'] ++ thread_done ts.
Proof.
  intros Hi. rewrite <- (take_drop_middle ts i t Hi) at 2.
  rewrite insert_take_drop by (by eapply lookup_lt_Some). unfold thread_done.
  rewrite !omap_app. cbn [omap list_omap]. destruct t, t'; cbn; solve_Permutation.
Qed.

Lemma thread_work_insert ts i t t' :
  ts !! i = Some t →
  (sum_list_with thread_work (<[i := t']> ts) + thread_work t = sum_list_with thread_work ts + thread_work t')%nat.
Proof.
  intros Hi. rewrite <- (take_drop_middle ts i t Hi) at 2.
  rewrite insert_take_drop by (by eapply lookup_lt_Some). rewrite !sum_list_with_app. cbn. lia.
Qed.

(** ** Frames *)

Lemma short_perm {A} (l k : list A) : l ≡ₚ k → (length k <= 1)%nat → l = k.
Proof.
  intros Hp Hk. destruct k as [|x [|y k]]; [|by apply Permutation_singleton_r in Hp|cbn in Hk; lia].
  by apply Permutation_nil_r in Hp.
Qed.

(** Jobs and completions that move between places do not change a view. *)
Lemma conn_view_same limits h s h' s' i :
  id_ok limits (conn_view h s i) → all_jobs h' s' ≡ₚ all_jobs h s → all_done h' s' ≡ₚ all_done h s →
  trace s' = trace s → conn_view h' s' i = conn_view h s i.
Proof.
  intros [Hs _ _ _ _ _] Hj Hd Ht. unfold tokens, conn_view in *. cbn [v_jobs v_done] in Hs. rewrite Ht. f_equal.
  - apply short_perm; [by rewrite Hj|lia].
  - apply short_perm; [by rewrite Hd|lia].
Qed.

(** A change of the parts that no view depends on. *)
Lemma inv_frame `{Platform} config h s h' s' :
  inv config h s →
  all_jobs h' s' ≡ₚ all_jobs h s → all_done h' s' ≡ₚ all_done h s → h_strand h' = h_strand h →
  trace s' = trace s → connections_ s' = connections_ s → next_connection_id_ s' = next_connection_id_ s →
  (∃ st st', stats (context s) = Some st ∧ stats (context s') = Some st' ∧
     active_connections_ st' = active_connections_ st ∧ accepted_connections_ st' = accepted_connections_ st) →
  parts_ok (context s') → sends (script s') ⊆ sends (script s) → rands (script s') ⊆ rands (script s) →
  inv config h' s'.
Proof.
  intros [I1 I2 I3 I4 I5 I6 I7 I8 I9 I10 I11 I12 I13] Hj Hd Hh Ht Hc Hn (st & st' & E & E' & Ha & Hb) Hwf Hs Hr.
  assert (∀ i, conn_view h' s' i = conn_view h s i) as Hv by (intros i; by eapply conn_view_same).
  split; rewrite ?Hc, ?Hn, ?Hh; try done.
  - intros i. rewrite Hv. apply I1.
  - intros f c Hf. rewrite Hv. by eapply I2.
  - intros f c Hf. rewrite Hv. by eapply I3.
  - intros f (c & ? & ?)%I4. exists c. by rewrite Hv.
  - intros i Hi. rewrite Hv. by apply I7.
  - destruct I10 as (st0 & E0 & ? & ?). exists st'. assert (st0 = st) as -> by congruence. split_and!; congruence.
  - intros Hin. by apply I12, Hs.
  - rewrite Forall_forall in I13 |- *. auto.
Qed.

(** The same, for a change of the script alone. *)
Lemma inv_script `{Platform} config h s x :
  inv config h s → sends x ⊆ sends (script s) → rands x ⊆ rands (script s) → inv config h (set_script x s).
Proof.
  intros Hi Hs Hr. destruct (inv_stats _ _ _ Hi) as (st & E & _ & _).
  eapply inv_frame; [exact Hi|done|done|done|done|done|done|by exists st, st|apply Hi|done|done].
Qed.

(** An update of one connection that its view allows. *)
Lemma inv_update `{Platform} config h s f c c' strand :
  inv config h s → connections_ s !! f = Some c → id_ c' = id_ c →
  conn_ok (cfg_parser_limits config) (cfg_max_output_buffer_bytes config) (conn_view h s (id_ c)) c' →
  (h_strand h = None ∨ h_strand h = Some f) → (strand = None ∨ strand = Some f) →
  (if bool_decide (strand = Some f) then tokens (conn_view h s (id_ c)) = 0%nat else strand_ok (conn_view h s (id_ c)) c') →
  inv config {| h_jobs := h_jobs h; h_done := h_done h; h_strand := strand |}
    (set_connections (<[f := c']> (connections_ s)) s).
Proof.
  intros [I1 I2 I3 I4 I5 I6 I7 I8 I9 I10 I11 I12 I13] Hf Hid Hok Hh Hst Hs.
  set (h' := {| h_jobs := _ |}). set (s' := set_connections _ s).
  assert (∀ i, conn_view h' s' i = conn_view h s i) as Hv by done.
  assert (size (connections_ s') = size (connections_ s)) as Hsz
    by (by apply map_size_insert_Some; rewrite Hf).
  assert (∀ f0 c0, connections_ s' !! f0 = Some c0 →
            (f0 = f ∧ c0 = c') ∨ (f0 ≠ f ∧ connections_ s !! f0 = Some c0)) as Hl.
  { intros f0 c0. cbn. rewrite lookup_insert_Some. naive_solver. }
  split; try done.
  - intros f0 c0 [[-> ->]|[? Hc]]%Hl; rewrite Hv; [by rewrite Hid|by eapply I2].
  - intros f0 c0 [[-> ->]|[? Hc]]%Hl Hne; rewrite Hv.
    + rewrite bool_decide_eq_false_2 in Hs by done. by rewrite Hid.
    + eapply I3; [done|]. destruct Hh as [->| ->]; congruence.
  - cbn. intros f0 ->. destruct Hst as [|[= ->]]; [done|]. rewrite bool_decide_eq_true_2 in Hs by done.
    exists c'. rewrite lookup_insert_eq, Hid. by split.
  - intros f0 c0 [[-> ->]|[? Hc]]%Hl; [rewrite Hid|]; by eapply I5.
  - intros f0 f1 c0 c1 [[-> ->]|[? Hc]]%Hl [[-> ->]|[? Hc']]%Hl; rewrite ?Hid; try done.
    + by apply I6.
    + by apply I6.
    + by apply I6.
  - by rewrite Hsz.
  - destruct I10 as (st & ? & ? & ?). exists st. by rewrite Hsz.
Qed.

(** ** Safety of the trace *)

Lemma inv_safe `{Platform} config h s : inv config h s → trace_safe (cfg_parser_limits config) (trace s).
Proof.
  intros Hi i. destruct (inv_ids _ _ _ Hi i) as [_ _ _ _ Hr (k & err & r & rest & Hk & Herr & Hs)]. split.
  - etrans; [|exact Hr]. by apply prefix_app_r.
  - exists k, err, r. split; [done|]. split; [done|]. exists rest. symmetry. exact Hs.
Qed.
