(* ===== verification/ServerSteps.v ===== *)
(** * The steps of the server preserve its invariant

    One lemma per function of the I/O thread and of the workers, in the program
    logic [wp]: the invariant is kept, nothing is added to the work that is left,
    and only a failed system call or a command throws. *)

From S2P Require Import Prelude Resp Parser ParserCorrect Disk Store StoreInv StoreTheorems Engine.
From S2P Require Import Stats Registry ServerCommands ThreadPool Socket Reactor Server ServerInv.

(** What a step may throw: an exception, or the end of the process when a command
    threw on a worker; undefined behaviour only when the deadline of an [EXPIRE]
    overflows.  The trace is safe and the store and the engine are in order all
    the same. *)
Definition expected (e : exn) : Prop :=
  match e with undefined_behaviour _ => e = deadline_overflow | _ => True end.

Definition permitted `{Platform} (config : ServerConfig) (e : exn) (s : Server) : Prop :=
  expected e ∧ trace_safe (cfg_parser_limits config) (trace s) ∧ parts_ok (context s).

Lemma inv_permitted `{Platform} config h s s' e :
  inv config h s → trace s' = trace s → context s' = context s → expected e → permitted config e s'.
Proof. intros Hi Ht Hc He. split; [done|]. rewrite Ht, Hc. split; [by eapply inv_safe|apply Hi]. Qed.

Lemma exception_expected e : exception e → expected e.
Proof. by destruct e. Qed.

Lemma raised_expected e : raised e → expected e.
Proof. intros [?| ->]; [by apply exception_expected|done]. Qed.

Lemma encode_throws v e : encode v = Throw e → exception e.
Proof. unfold encode. rewrite append_encoded_spec. destruct (line_safe v); [done|]. by intros [= <-]. Qed.

Ltac server_simpl :=
  cbn [set_pool set_jobs set_completions set_script set_context set_connections set_reactor set_next_id
       set_expiry_tick happen jobs_ completions_ reactor_ next_connection_id_ workers_ threads connections_ script trace context hold_job hold_done h_jobs h_done h_strand] in *.

Section Workers.
Context `{PO : PlatformOk} `{KO : KernelOk} (config : ServerConfig).

Abbreviation I := (inv config).
Abbreviation W := (wp (permitted config)).

(** ** The script *)

Lemma wp_pop {A} (end_ : A) get put h s (Q : A → Server → Prop) :
  I h s →
  (let x := script s in let y := put (tail (get x)) x in
   recvs y = recvs x ∧ sends y = sends x ∧ accepts y = accepts x ∧ rands y ⊆ rands x ∧
   (length (stops y) <= length (stops x))%nat) →
  (∀ a s', leads config h s h s' → connections_ s' = connections_ s →
           trace s' = trace s → recvs (script s') = recvs (script s) → sends (script s') = sends (script s) →
           Q a s') →
  W (pop end_ get put) Q s.
Proof.
  intros Hi (R1 & R2 & R3 & R4 & R5) HQ. unfold wp, pop.
  apply HQ; try done. split_and!; [|split; cbn; [|by rewrite ?R1, ?R2, ?R3..|]|done].
  - apply inv_script; [done|by rewrite R2|done].
  - unfold work, pending_work. cbn. by rewrite R1.
  - done.
Qed.

(** ** Executing a command *)

Lemma all_jobs_hold j h s : all_jobs (hold_job j h) s ≡ₚ j :: all_jobs h s.
Proof. unfold all_jobs. cbn. solve_Permutation. Qed.
Lemma all_done_hold c h s : all_done (hold_done c h) s ≡ₚ c :: all_done h s.
Proof. unfold all_done. cbn. solve_Permutation. Qed.

(** The view after the execution of the one job it has. *)
Definition after_exec (v : View) (q r : RespValue) (c : Completion) : View :=
  {| v_exec := v_exec v ++ [(q, r)]; v_jobs := []; v_done := [c]; v_recv := v_recv v; v_sent := v_sent v |}.

Lemma reply_stream_app ts ts' k err r :
  (k <= r <= length ts)%nat → reply_stream (ts ++ ts') k err r = reply_stream ts k err r.
Proof. intros Hr. unfold reply_stream. by rewrite !take_app_le by lia. Qed.

Lemma texts_app l l' : texts (l ++ l') = texts l ++ texts l'.
Proof. apply map_app. Qed.
Lemma length_texts l : length (texts l) = length l.
Proof. apply length_map. Qed.

(** The view of a connection of which the I/O thread or a worker has a job. *)
Lemma view_of_job limits h s job :
  id_ok limits (conn_view (hold_job job h) s (job_connection job)) →
  filter (λ j, job_connection j = job_connection job) (all_jobs h s) = [] ∧
  v_jobs (conn_view (hold_job job h) s (job_connection job)) = [job] ∧
  v_done (conn_view (hold_job job h) s (job_connection job)) = [].
Proof.
  intros [Ht _ _ _ _ _]. unfold tokens in Ht. cbn [conn_view v_jobs v_done] in *.
  assert (filter (λ j, job_connection j = job_connection job) (all_jobs (hold_job job h) s) ≡ₚ
    job :: filter (λ j, job_connection j = job_connection job) (all_jobs h s)) as Hp.
  { rewrite all_jobs_hold, filter_cons_True by done. done. }
  rewrite Hp in Ht. cbn in Ht. destruct (filter _ (all_jobs h s)) as [|] eqn:E; [|cbn in Ht; lia].
  split; [done|]. split; [by apply short_perm|]. apply nil_length_inv. lia.
Qed.

Lemma id_ok_exec limits v job q r text :
  id_ok limits v → v_jobs v = [job] → v_done v = [] → qc_request (job_item job) = q → encode r = Ok text →
  id_ok limits (after_exec v q r
    {| c_connection := job_connection job; c_sequence := qc_sequence (job_item job); c_payload := text;
       c_error := response_is_error r |}).
Proof.
  intros [H1 H2 H3 H4 H5 H6] Hj Hd Hq He. split; cbn [after_exec v_exec v_jobs v_done v_recv v_sent tokens].
  - unfold tokens. cbn. lia.
  - constructor.
  - constructor; [|constructor]. exists (v_exec v), q, r. rewrite Hj in H2. by apply Forall_cons in H2 as [H2 _].
  - apply Forall_app. split; [done|]. constructor; [|constructor]. cbn [snd]. by rewrite He.
  - unfold job_requests in *. rewrite Hj in H5. cbn in *. rewrite fmap_app, app_nil_r. cbn. by subst q.
  - destruct H6 as (k & err & n & rest & Hk & Herr & Hs). exists k, err, n, rest. split_and!; [lia|len_solve|done|].
    rewrite texts_app, reply_stream_app by (rewrite length_texts; lia). done.
Qed.

Lemma conn_ok_exec limits max v c job q r d :
  conn_ok limits max v c → v_jobs v = [job] → v_done v = [] → qc_request (job_item job) = q →
  conn_ok limits max (after_exec v q r d) c.
Proof.
  intros [H1 H2 H3 H4 H5 H6 H7 H8 H9 H10] Hj Hd Hq. unfold applied, job_requests in *. rewrite Hj, Hd in *.
  assert (len (v_exec v ++ [(q, r)]) = len (v_exec v) + 1) as El by len_solve.
  split; unfold applied, job_requests;
    cbn [after_exec v_exec v_jobs v_done v_recv v_sent]; rewrite ?El; try done; change (len [job]) with 1 in *;
    change (len [d]) with 1; change (len (@nil Job)) with 0 in *; change (len (@nil Completion)) with 0 in *;
    rewrite ?Z.add_0_r, ?Z.sub_0_r in *.
  - done.
  - done.
  - lia.
  - intros E. apply H5. lia.
  - intros E. apply H6. lia.
  - rewrite fmap_app, <- app_assoc. by subst q.
  - destruct H9 as (k & err & Hk & Herr & Hs). exists k, err. split_and!; [done|done|].
    rewrite texts_app, reply_stream_app; [done|]. rewrite length_texts. len_solve.
Qed.

(** The completion of a job. *)
Definition completion_of (job : Job) (r : RespValue) (text : bytes) : Completion :=
  {| c_connection := job_connection job; c_sequence := qc_sequence (job_item job); c_payload := text;
     c_error := response_is_error r |}.

Lemma view_exec limits h s job r text i :
  id_ok limits (conn_view (hold_job job h) s (job_connection job)) →
  conn_view (hold_done (completion_of job r text) h)
    (happen (did_exec (job_connection job) (qc_request (job_item job)) r) s) i =
  if decide (i = job_connection job)
  then after_exec (conn_view (hold_job job h) s i) (qc_request (job_item job)) r (completion_of job r text)
  else conn_view (hold_job job h) s i.
Proof.
  intros Hok. destruct (view_of_job _ _ _ _ Hok) as (Hj & _ & Hd). unfold conn_view, after_exec.
  cbn [happen trace]. rewrite executed_app, received_app, sent_app. cbn [v_done conn_view] in Hd.
  unfold received at 2, sent at 2. cbn [omap list_omap concat app]. rewrite !app_nil_r. unfold executed at 2.
  cbn [omap list_omap].
  assert (∀ i, filter (λ c, c_connection c = i) (all_done (hold_done (completion_of job r text) h)
      (happen (did_exec (job_connection job) (qc_request (job_item job)) r) s)) ≡ₚ
    filter (λ c, c_connection c = i) (completion_of job r text :: all_done h s)) as Hp
    by (intros j; by rewrite all_done_hold).
  destruct (decide (i = job_connection job)) as [->|Hne].
  - rewrite Z.eqb_refl. cbn [v_exec v_recv v_sent]. f_equal; [exact Hj|].
    specialize (Hp (job_connection job)). rewrite filter_cons_True in Hp by done.
    change (all_done h s) with (all_done (hold_job job h) s) in Hp. rewrite Hd in Hp. by apply short_perm.
  - destruct (Z.eqb_spec (job_connection job) i) as [|_]; [done|]. rewrite app_nil_r. f_equal.
    + unfold all_jobs. cbn. rewrite !filter_app. by rewrite (filter_cons_False _ job) by done.
    + unfold all_done. cbn. rewrite !filter_app. by rewrite (filter_cons_False _ (completion_of _ _ _)) by (cbn; done).
Qed.

Lemma inv_exec h s job r text :
  I (hold_job job h) s → encode r = Ok text →
  I (hold_done (completion_of job r text) h)
    (happen (did_exec (job_connection job) (qc_request (job_item job)) r) s).
Proof.
  intros [I1 I2 I3 I4 I5 I6 I7 I8 I9 I10 I11 I12 I13] He.
  pose proof (λ i, view_exec _ _ _ _ r text i (I1 (job_connection job))) as Hv.
  destruct (view_of_job _ _ _ _ (I1 (job_connection job))) as (_ & Hj & Hd).
  split; try done.
  - intros i. rewrite Hv. case_decide as Hi; [subst i|done]. by eapply id_ok_exec.
  - intros f c Hf. rewrite Hv. case_decide as Hi; [|by eapply I2]. eapply conn_ok_exec; [by eapply I2|..|done];
      rewrite Hi; done.
  - intros f c Hf Hne. rewrite Hv. specialize (I3 f c Hf Hne). case_decide as Hi; [|done].
    destruct I3 as [Ht Hq]. split; [|done]. rewrite <- Ht. unfold tokens. rewrite Hi, Hj, Hd. done.
  - intros f Hf. destruct (I4 f Hf) as (c & Hc & Ht). exists c. split; [done|]. rewrite Hv. case_decide as Hi; [|done].
    exfalso. revert Ht. unfold tokens. rewrite Hi, Hj. cbn. lia.
  - intros i Hi. rewrite Hv. case_decide as Hij; [|by apply I7]. specialize (I7 i Hi). subst i. rewrite I7 in Hj. done.
Qed.

Lemma work_exec h s job r text hp :
  work (hold_done (completion_of job r text) h) (happen hp s) = work (hold_job job h) s.
Proof. unfold work, pending_work. cbn. lia. Qed.

(** The trace is safe after a command ran, even if its response cannot be sent. *)
Lemma exec_safe h s job r :
  I (hold_job job h) s →
  trace_safe (cfg_parser_limits config)
    (trace s ++ [did_exec (job_connection job) (qc_request (job_item job)) r]).
Proof.
  intros Hi i. destruct (inv_ids _ _ _ Hi i) as [_ _ _ _ Hr (k & err & n & rest & Hk & Herr & Hs)].
  destruct (view_of_job _ _ _ _ (inv_ids _ _ _ Hi (job_connection job))) as (_ & Hj & _).
  unfold connection_safe. set (e := did_exec _ _ _). rewrite executed_app, received_app, sent_app.
  assert (received i [e] = []) as -> by done. assert (sent i [e] = []) as -> by done. rewrite !app_nil_r.
  assert (executed i [e] = if job_connection job =? i then [(qc_request (job_item job), r)] else []) as ->
    by (unfold executed, e; cbn [omap list_omap]; by destruct (job_connection job =? i)). clear e.
  destruct (Z.eqb_spec (job_connection job) i) as [<-|Hne]; rewrite ?app_nil_r.
  - split.
    + unfold job_requests in Hr. cbn [conn_view v_jobs v_exec v_recv] in Hr, Hj. rewrite Hj in Hr. cbn in Hr.
      by rewrite fmap_app.
    + exists k, err, n. cbn [conn_view v_exec v_sent] in *. split; [len_solve|]. split; [done|].
      rewrite texts_app, reply_stream_app by (rewrite length_texts; lia). by exists rest.
  - split; [etrans; [|exact Hr]; by apply prefix_app_r|]. exists k, err, n. split; [done|]. split; [done|].
    exists rest. symmetry. exact Hs.
Qed.

(** A state with another context that commands may leave. *)
Lemma inv_context h s ctx :
  I h s → context_ok (stats (context s)) ctx → I h (set_context ctx s).
Proof.
  intros Hi [Hst Hwf]. destruct (inv_stats _ _ _ Hi) as (st & E & _ & _).
  eapply inv_frame; [exact Hi|done..| |done|done|done]. exists st, st. cbn. by rewrite Hst.
Qed.

(** A step that leaves the connections and the bytes to be received alone. *)
Definition quiet (h : Hold) (s : Server) (h' : Hold) (s' : Server) : Prop :=
  leads config h s h' s' ∧ connections_ s' = connections_ s ∧ recvs (script s') = recvs (script s).

Lemma quiet_trans h1 s1 h2 s2 h3 s3 : quiet h1 s1 h2 s2 → quiet h2 s2 h3 s3 → quiet h1 s1 h3 s3.
Proof.
  intros [(_ & Hs & Hd) [Hc Hr]] [(Hi' & Hs' & Hd') [Hc' Hr']].
  unfold quiet, leads. split_and!; [done|by eapply shrinks_trans|congruence..].
Qed.

(** A step that moves jobs and completions and changes nothing else. *)
Lemma quiet_frame h s h' s' :
  I h s → all_jobs h' s' ≡ₚ all_jobs h s → all_done h' s' ≡ₚ all_done h s → h_strand h' = h_strand h →
  trace s' = trace s → connections_ s' = connections_ s → next_connection_id_ s' = next_connection_id_ s →
  context s' = context s → script s' = script s → stopping_ (workers_ s') = stopping_ (workers_ s) →
  (work h' s' <= work h s)%nat → quiet h s h' s'.
Proof.
  intros Hi Hj Hd Hh Ht Hc Hn Hx Hs Hp Hw. destruct (inv_stats _ _ _ Hi) as (st & E & _ & _).
  unfold quiet, leads. split_and!; [|split; by rewrite ?Hs|by rewrite Hc|done|by rewrite Hs].
  eapply inv_frame; [exact Hi|done..| | |by rewrite Hs|by rewrite Hs].
  - exists st, st. by rewrite Hx.
  - rewrite Hx. apply Hi.
Qed.

Lemma run_command_ok job h s :
  I (hold_job job h) s →
  W (run_command config job) (λ c s', quiet (hold_job job h) s (hold_done c h) s' ∧
       workers_ s' = workers_ s ∧ threads s' = threads s) s.
Proof.
  intros Hi. apply wp_run. split.
  - intros c s'. unfold run_command. rewrite exec_bind_ok. intros (env & s1 & E1 & E).
    apply exec_bind_ok in E as (r & s2 & E2 & E). apply exec_bind_ok in E as ([] & s3 & E3 & E).
    apply exec_bind_ok in E as (text & s4 & E4 & E). injection E as <- <-. injection E3 as <-.
    unfold lift in E4. injection E4 as He <-.
    assert (I (hold_job job h) s1) as Hi1 by (injection E1 as _ <-; by apply inv_script).
    unfold zoom in E2. destruct (execute _ env _ (context s1)) as [r0 ctx] eqn:Ex. injection E2 as -> <-.
    pose proof (execute_context (cfg_persistence config) env (qc_request (job_item job)) (stats (context s1))
      (context s1)) as Hc. rewrite Ex in Hc. destruct (Hc (conj eq_refl (inv_store _ _ _ Hi1))) as [Hctx _].
    assert (script s1 = with_envs (tail (envs (script s))) (script s) ∧ connections_ s1 = connections_ s ∧
      workers_ s1 = workers_ s ∧ threads s1 = threads s ∧ completions_ s1 = completions_ s) as (Hs1 & Hs2 & Hs3 & Hs4 & Hs5)
      by (by injection E1 as _ <-).
    unfold quiet, leads. cbn [happen set_context connections_ script workers_ threads].
    split_and!; [|split|by rewrite Hs2|done|by rewrite Hs1|done|done].
    + apply (inv_exec h (set_context ctx s1)); [by apply inv_context|done].
    + change (hold_done _ h) with (hold_done (completion_of job r text) h). rewrite work_exec.
      unfold work, pending_work. cbn [set_context completions_ workers_ threads connections_ script].
      rewrite Hs1, Hs2, Hs3, Hs4, Hs5. cbn [with_envs recvs]. done.
    + cbn [happen set_context script]. by rewrite Hs1.
    + cbn [happen set_context script]. by rewrite Hs1.
    + cbn [happen set_context script]. by rewrite Hs1.
    + cbn [happen set_context script]. by rewrite Hs1.
    + cbn [happen set_context workers_]. by rewrite Hs3.
  - intros e s'. unfold run_command, exec_bind, zoom, modify, lift, pop_env, pop. server_simpl.
    set (env := default default_env _).
    pose proof (execute_context (cfg_persistence config) env (qc_request (job_item job)) (stats (context s))
      (context s) (conj eq_refl (inv_store _ _ _ Hi))) as [[_ Hctx] Hx].
    destruct (execute _ _ _ (context s)) as [[r|e'] ctx]; server_simpl.
    + destruct (encode r) eqn:Ee; [done|]. intros [= <- <-].
      split; [by eapply exception_expected, encode_throws|]. split; [by apply (exec_safe h s job r)|done].
    + intros [= <- <-]. split; [by apply raised_expected, Hx|]. split; [exact (inv_safe config _ s Hi)|done].
Qed.

(** ** The turns of the workers *)

Lemma run_command_threads job p ts s :
  run_command config job (set_pool p ts s) =
  let '(r, s') := run_command config job s in (r, set_pool p ts s').
Proof.
  unfold run_command, pop_env, pop, exec_bind, zoom, modify, lift, ret. cbn [set_pool context script set_script].
  destruct (execute _ _ _ (context s)) as [[r|e] ctx]; [|done]. by destruct (encode r).
Qed.

(** What a worker that goes from [t] to [t'] means for the jobs, the
    completions and the work. *)
Ltac thread_moves Hi :=
  match type of Hi with ?ts !! ?i = Some ?t =>
    match goal with |- context [<[i := ?t']> ts] =>
      pose proof (thread_jobs_insert ts i t t' Hi) as Htj; pose proof (thread_done_insert ts i t t' Hi) as Htd;
      pose proof (thread_work_insert ts i t t' Hi) as Htw;
      cbn [thread_jobs thread_done omap list_omap app thread_work] in Htj, Htd, Htw
    end
  end.

(** A pop that touches no part of the script that the invariant speaks of. *)
Lemma pop_quiet {A} (end_ : A) get put h s :
  I h s →
  (let x := script s in let y := put (tail (get x)) x in
   recvs y = recvs x ∧ sends y = sends x ∧ accepts y = accepts x ∧ rands y ⊆ rands x ∧
   (length (stops y) <= length (stops x))%nat) →
  W (pop end_ get put) (λ _ s', quiet h s h s' ∧ trace s' = trace s) s.
Proof. intros Hi Hp. eapply wp_pop; [done|done|]. intros a s' Hl Hc Ht Hr Hs. done. Qed.

Lemma quiet_refl h s : I h s → quiet h s h s.
Proof. intros Hi. by apply quiet_frame. Qed.

(** The round of the engine's thread. *)
Lemma fsync_turn_ok h s : I h s → W (fsync_turn) (λ _ s', quiet h s h s') s.
Proof.
  intros Hi. unfold fsync_turn. apply wp_bind, wp_gets.
  destruct (persistence (context s)) eqn:Hp; [|by apply wp_ret, quiet_refl].
  unfold pop_env. eapply (wp_seq _ _ _ (λ _ s', quiet h s h s' ∧ context s' = context s)).
  { unfold wp, pop. split; [|done]. pose proof (pop_quiet default_env envs with_envs h s Hi) as Hq.
    unfold wp, pop in Hq. by apply Hq. }
  intros env s1 [Hq1 Hc1]. pose proof (proj1 (proj1 Hq1)) as Hi1.
  destruct (fsync_context (env_os env) (stats (context s1)) (context s1)) as [[Hctx _] He];
    [split; [split; [done|apply Hi1]|by rewrite Hc1]|].
  unfold wp, zoom at 1. destruct (zoom world set_world (fsync_round _) (context s1)) as [[[]|e] ctx].
  - eapply quiet_trans; [exact Hq1|]. unfold quiet, leads. split_and!; [by apply inv_context|by split|done..].
  - specialize (He e eq_refl). split; [by apply exception_expected|].
    split; [exact (inv_safe config _ _ Hi1)|]. cbn. apply Hctx.
Qed.

Lemma wake_reactor_ok h s : I h s → W wake_reactor (λ _ s', quiet h s h s' ∧
  threads s' = threads s ∧ workers_ s' = workers_ s) s.
Proof.
  intros Hi. unfold wake_reactor, pop_kev.
  eapply (wp_seq _ _ _ (λ _ s', quiet h s h s' ∧ threads s' = threads s ∧ workers_ s' = workers_ s)).
  { unfold wp, pop. split; [|done]. pose proof (pop_quiet None kevs with_kevs h s Hi) as Hq.
    unfold wp, pop in Hq. by apply Hq. }
  intros fails s1 (Hq1 & Ht1 & Hw1). unfold wp, ignore_errors, on_reactor, zoom, wakeup.
  destruct (bool_decide _); unfold raise, modify; cbn [fst snd]; (split; [|done]);
    (eapply quiet_trans; [exact Hq1|]); apply quiet_frame; try done; apply Hq1.
Qed.

Lemma thread_turn_ok i h s : I h s → W (thread_turn config i) (λ _ s', quiet h s h s') s.
Proof.
  intros Hi. unfold wp, thread_turn. destruct (threads s !! i) as [[|job|c| |]|] eqn:Et;
    [| | | |by apply quiet_frame|by apply fsync_turn_ok].
  - destruct (wake (workers_ s)) eqn:Hwake; [|by apply quiet_frame].
    destruct (worker_section_cases _ Hwake) as [(Hj & _ & ->)|(job & rest & Hj & ->)]; thread_moves Et;
      (apply quiet_frame; [done| | |done..|]);
      unfold all_jobs, all_done, work, pending_work; server_simpl; rewrite ?Htj, ?Htd, ?Hj;
      first [lia|solve_Permutation|cbn [length]; lia].
  - set (s0 := set_pool (workers_ s) (<[i := t_waiting]> (threads s)) s).
    assert (quiet h s (hold_job job h) s0) as Hq.
    { unfold s0. thread_moves Et. apply quiet_frame; [done| | |done..|];
        unfold all_jobs, all_done, work, pending_work; server_simpl; rewrite <- ?Htj, ?Htd;
        first [solve_Permutation|cbn [length]; lia]. }
    pose proof (run_command_ok job h s0 (proj1 (proj1 Hq))) as Hr. unfold exec_bind, terminating.
    replace (run_command config job s) with (let '(r, s') := run_command config job s0 in
        (r, set_pool (workers_ s) (threads s) s'))
      by (rewrite <- run_command_threads; by destruct s).
    unfold wp in Hr. destruct (run_command config job s0) as [[c|e] s1];
      [|destruct Hr as [He Hr]; destruct e; by split].
    destruct Hr as (Hq1 & Hw1 & Ht1). cbn. eapply quiet_trans; [exact Hq|]. eapply quiet_trans; [exact Hq1|].
    thread_moves Et. pose proof (thread_jobs_insert _ _ _ t_waiting Et) as Htj'.
    pose proof (thread_done_insert _ _ _ t_waiting Et) as Htd'.
    pose proof (thread_work_insert _ _ _ t_waiting Et) as Htw'. cbn in Htj', Htd', Htw'.
    apply quiet_frame; [apply Hq1| | |done..|cbn; by rewrite Hw1|]; unfold all_jobs, all_done, work, pending_work; server_simpl;
      rewrite ?Hw1, ?Ht1; unfold s0; server_simpl.
    + rewrite <- Htj' in Htj. apply Permutation_cons_inv in Htj. by rewrite Htj.
    + rewrite Htd, Htd'. solve_Permutation.
    + cbn [length]. lia.
  - cbn. thread_moves Et. apply quiet_frame; [done| | |done..|]; unfold all_jobs, all_done, work, pending_work;
      server_simpl; rewrite ?Htj.
    + done.
    + rewrite <- Htd. solve_Permutation.
    + len_simpl. lia.
  - change (W (wake_reactor ;; set_thread_state i t_waiting) (λ _ s', quiet h s h s') s).
    eapply wp_seq; [by apply wake_reactor_ok|]. intros [] s1 (Hq1 & Ht1 & Hw1). rewrite <- Ht1 in Et.
    apply wp_modify. thread_moves Et. eapply quiet_trans; [exact Hq1|]. apply quiet_frame; [apply Hq1| | |done..|];
      unfold all_jobs, all_done, work, pending_work; server_simpl; rewrite ?Htj, ?Htd; [done|done|lia].
Qed.

Lemma thread_turns_ok ts : ∀ h s, I h s → W (thread_turns config ts) (λ _ s', quiet h s h s') s.
Proof.
  induction ts as [|i ts IH]; intros h s Hi; cbn [thread_turns]; [by apply wp_ret, quiet_refl|].
  eapply wp_seq; [by apply thread_turn_ok|]. intros [] s1 Hq1.
  eapply wp_mono; [apply IH, Hq1|]. intros [] s2 Hq2. by eapply quiet_trans.
Qed.

Lemma yield_ok h s : I h s → W (yield config) (λ _ s', quiet h s h s') s.
Proof.
  intros Hi. unfold yield, pop_turns. eapply wp_seq; [by apply pop_quiet|].
  intros ts s1 [Hq1 _]. eapply wp_mono; [apply thread_turns_ok, Hq1|]. intros [] s2 Hq2. by eapply quiet_trans.
Qed.

Lemma queue_saturated_ok h s : I h s → W (queue_saturated config) (λ _ s', quiet h s h s') s.
Proof. intros Hi. unfold queue_saturated. eapply wp_seq; [by apply yield_ok|]. by intros [] s1 Hq. Qed.

Lemma submit_ok job h s :
  I (hold_job job h) s →
  W (submit config job) (λ b s', quiet (hold_job job h) s (if b then h else hold_job job h) s') s.
Proof.
  intros Hi. unfold submit. eapply wp_seq; [by apply yield_ok|]. intros [] s1 Hq.
  unfold wp, try_submit. cond_case; (eapply quiet_trans; [exact Hq|]); apply quiet_frame; try done; try apply Hq.
  - unfold all_jobs. server_simpl. solve_Permutation.
  - unfold work, pending_work. server_simpl. len_simpl. lia.
Qed.

Lemma deliver_ok c h s : I (hold_done c h) s → W (deliver c) (λ _ s', quiet (hold_done c h) s h s') s.
Proof.
  intros Hi. unfold deliver. apply wp_modify, quiet_frame; try done.
  - unfold all_done. server_simpl. solve_Permutation.
  - unfold work, pending_work. server_simpl. len_simpl. lia.
Qed.

(** A job that runs on the I/O thread. *)
Lemma run_inline_ok job h s :
  I (hold_job job h) s →
  W (do! c := run_command config job in yield config ;; deliver c ;; wake_reactor)
    (λ _ s', quiet (hold_job job h) s h s') s.
Proof.
  intros Hi. eapply wp_seq; [by apply run_command_ok|]. intros c s1 [Hq1 _].
  eapply wp_seq; [apply yield_ok, Hq1|]. intros [] s2 Hq2.
  eapply wp_seq; [apply deliver_ok, Hq2|]. intros [] s3 Hq3.
  eapply wp_mono; [apply wake_reactor_ok, Hq3|]. intros [] s4 [Hq4 _].
  eapply quiet_trans; [exact Hq1|]. eapply quiet_trans; [exact Hq2|]. by eapply quiet_trans.
Qed.
End Workers.
