(* ===== verification/ServerConn.v ===== *)
(** * Reading, writing and the strands of a connection

    The functions of the I/O thread that work on one connection: launching its
    strand, decoding its requests, receiving and sending. *)

From S2P Require Import Prelude Resp Parser ParserCorrect Disk Store StoreInv StoreTheorems Engine.
From S2P Require Import Stats Registry ServerCommands ThreadPool Socket Reactor Server ServerInv ServerSteps.

(** ** Decoding *)

Lemma decoded_feed limits rcv buffer reqs data :
  decoded limits rcv buffer reqs → decoded limits (rcv ++ data) (buffer ++ data) reqs.
Proof. intros Hd rest. rewrite <- !app_assoc. apply Hd. Qed.

Lemma decoded_next limits rcv buffer reqs v :
  let r := parse_value limits buffer 0 in
  decoded limits rcv buffer reqs → val_status r = complete → val_value r = Some v →
  decoded limits rcv (drop (Z.to_nat (val_consumed r)) buffer) (reqs ++ [v]).
Proof.
  intros r Hd Hst Hv rest. rewrite Hd, (decode_eq limits (buffer ++ rest)). cbn zeta.
  rewrite (parse_value_app limits buffer) by (fold r; by rewrite Hst). fold r. rewrite Hst, Hv.
  destruct (parse_value_good limits buffer 0 Hst) as [_ Hc]. fold r in Hc.
  rewrite drop_app_le by len_solve. destruct (decode limits (drop _ buffer ++ rest)) as [[ws st] r0].
  by rewrite <- app_assoc.
Qed.

Lemma decoded_prefix limits rcv buffer reqs : decoded limits rcv buffer reqs → reqs `prefix_of` requests_of limits rcv.
Proof.
  intros Hd. unfold requests_of. specialize (Hd []). rewrite !app_nil_r in Hd. rewrite Hd.
  destruct (decode limits buffer) as [[ws st] r]. by exists ws.
Qed.

Lemma decoded_start limits : decoded limits [] [] [].
Proof. intros rest. change ([] ++ rest) with rest. by destruct (decode limits rest) as [[ws st] r]. Qed.

Lemma requests_of_app limits a b : requests_of limits a `prefix_of` requests_of limits (a ++ b).
Proof.
  unfold requests_of. rewrite decode_app. destruct (decode limits a) as [[vs st] rest]. case_bool_decide; [|done].
  destruct (decode limits (rest ++ b)) as [[ws st'] rest']. by exists ws.
Qed.

(** ** Updates of a connection *)

Section Connection.
Context `{PO : PlatformOk} `{KO : KernelOk} (config : ServerConfig).

Abbreviation I := (inv config).
Abbreviation W := (wp (permitted config)).
Abbreviation C := (conn_ok (cfg_parser_limits config) (cfg_max_output_buffer_bytes config)).

Lemma leads_trans h1 s1 h2 s2 h3 s3 : leads config h1 s1 h2 s2 → leads config h2 s2 h3 s3 → leads config h1 s1 h3 s3.
Proof.
  intros (_ & Hs & Hd) (Hi' & Hs' & Hd'). split; [done|]. split; [by eapply shrinks_trans|congruence].
Qed.

Lemma leads_refl h s : I h s → leads config h s h s.
Proof. intros Hi. split; [done|]. split; [apply shrinks_refl|done]. Qed.

Definition with_strand (strand : option Z) (h : Hold) : Hold :=
  {| h_jobs := h_jobs h; h_done := h_done h; h_strand := strand |}.

Lemma alter_known (m : gmap Z Connection) f g c : m !! f = Some c → alter g f m = <[f := g c]> m.
Proof.
  intros Hf. apply map_eq. intros j. destruct (decide (j = f)) as [->|Hne].
  - by rewrite lookup_alter_eq, Hf, lookup_insert_eq.
  - by rewrite lookup_alter_ne, lookup_insert_ne by done.
Qed.

(** Replacing a connection adds nothing when it adds no work. *)
Lemma shrinks_update h s f c c' :
  connections_ s !! f = Some c → (connection_work c' <= connection_work c)%nat →
  shrinks h s h (set_connections (<[f := c']> (connections_ s)) s).
Proof.
  intros Hf Hw. split; try done. unfold work, pending_work. server_simpl.
  pose proof (connections_work_insert _ _ _ c' Hf) as He. unfold connections_work in He. lia.
Qed.

Lemma dom_update (s : Server) f c c' :
  connections_ s !! f = Some c → dom (<[f := c']> (connections_ s)) = dom (connections_ s).
Proof. intros Hf. rewrite dom_insert_L. apply elem_of_dom_2 in Hf. set_solver. Qed.

Lemma replace_leads h s f c c' strand :
  I h s → connections_ s !! f = Some c → id_ c' = id_ c → C (conn_view h s (id_ c)) c' →
  (h_strand h = None ∨ h_strand h = Some f) → (strand = None ∨ strand = Some f) →
  (if bool_decide (strand = Some f) then tokens (conn_view h s (id_ c)) = 0%nat
   else strand_ok (conn_view h s (id_ c)) c') →
  (connection_work c' <= connection_work c)%nat →
  leads config h s (with_strand strand h) (set_connections (<[f := c']> (connections_ s)) s).
Proof.
  intros Hi Hf Hid Hok Hh Hst Hs Hw. split; [by eapply inv_update|]. split.
  - destruct (shrinks_update h s f c c' Hf Hw). by split.
  - by eapply dom_update.
Qed.

(** An update that leaves the strand alone. *)
Lemma update_leads h s f c c' :
  I h s → connections_ s !! f = Some c → id_ c' = id_ c → C (conn_view h s (id_ c)) c' →
  (h_strand h = None ∨ h_strand h = Some f) →
  strand_running c' = strand_running c → command_queue c' = command_queue c →
  (connection_work c' <= connection_work c)%nat →
  leads config h s h (set_connections (<[f := c']> (connections_ s)) s).
Proof.
  intros Hi Hf Hid Hok Hh Hr Hq Hw.
  replace h with (with_strand (h_strand h) h) at 2 by (by destruct h).
  eapply replace_leads; [done|done|done|done|done|done| |done]. case_bool_decide as Hc.
  - destruct (inv_hand _ _ _ Hi f Hc) as (c0 & Hf' & Ht). congruence.
  - unfold strand_ok. rewrite Hr, Hq. by eapply inv_strands.
Qed.

Lemma update_ok h s f c g :
  I h s → connections_ s !! f = Some c → id_ (g c) = id_ c → C (conn_view h s (id_ c)) (g c) →
  (h_strand h = None ∨ h_strand h = Some f) →
  strand_running (g c) = strand_running c → command_queue (g c) = command_queue c →
  (connection_work (g c) <= connection_work c)%nat →
  W (update f g) (λ _ s', leads config h s h s' ∧ connections_ s' !! f = Some (g c) ∧ script s' = script s) s.
Proof.
  intros Hi Hf Hid Hok Hh Hr Hq Hw. apply wp_modify. rewrite (alter_known _ _ _ _ Hf). split_and!.
  - by apply update_leads with c.
  - server_simpl. by rewrite lookup_insert_eq.
  - done.
Qed.

(** The time of the last activity and the interest are in no assertion. *)
Lemma conn_ok_touch v c now : C v c → C v (touch now c).
Proof. by intros []. Qed.
Lemma conn_ok_interest v c i : C v c → C v (set_interest i c).
Proof. by intros []. Qed.

Lemma connection_ok (Q : Connection → Server → Prop) f c s :
  connections_ s !! f = Some c → Q c s → W (connection f) Q s.
Proof. intros Hf HQ. unfold wp, connection. by rewrite Hf. Qed.

(** ** Strands *)

(** The I/O thread takes the first command off the queue of a connection. *)
Lemma view_pop h s f c c' item i :
  connections_ s !! f = Some c → tokens (conn_view h s (id_ c)) = 0%nat →
  conn_view (hold_job {| job_connection := id_ c; job_item := item |} (with_strand None h))
    (set_connections (<[f := c']> (connections_ s)) s) i =
  if decide (i = id_ c)
  then {| v_exec := v_exec (conn_view h s i); v_jobs := [{| job_connection := id_ c; job_item := item |}];
          v_done := v_done (conn_view h s i); v_recv := v_recv (conn_view h s i);
          v_sent := v_sent (conn_view h s i) |}
  else conn_view h s i.
Proof.
  intros Hf Ht. unfold conn_view. server_simpl. case_decide as Hi; cbn [v_exec v_jobs v_done v_recv v_sent].
  - subst i. f_equal. unfold tokens in Ht. cbn [conn_view v_jobs v_done] in Ht.
    apply short_perm; [|done]. rewrite all_jobs_hold, filter_cons_True by done.
    assert (filter (λ j, job_connection j = id_ c) (all_jobs h s) = []) as E by (apply nil_length_inv; lia).
    by rewrite <- E.
  - f_equal. unfold all_jobs. cbn. rewrite !filter_app. by rewrite (filter_cons_False _ _ (h_jobs h)) by done.
Qed.

Definition with_job (v : View) (j : Job) : View :=
  {| v_exec := v_exec v; v_jobs := [j]; v_done := v_done v; v_recv := v_recv v; v_sent := v_sent v |}.

Lemma tokens_zero v : tokens v = 0%nat → v_jobs v = [] ∧ v_done v = [].
Proof. unfold tokens. intros Ht. split; apply nil_length_inv; lia. Qed.

Lemma id_ok_pop v c item queue :
  id_ok (cfg_parser_limits config) v → C v c → tokens v = 0%nat → command_queue c = item :: queue →
  id_ok (cfg_parser_limits config) (with_job v {| job_connection := id_ c; job_item := item |}).
Proof.
  intros [H1 H2 H3 H4 H5 H6] Hc Ht Hq. destruct (tokens_zero v Ht) as [Hj Hd].
  split; cbn [with_job v_exec v_jobs v_done v_recv v_sent]; try done.
  - unfold tokens. cbn. rewrite Hd. cbn. lia.
  - constructor; [|constructor]. cbn. pose proof (co_queue _ _ _ _ Hc) as Hs. rewrite Hq, Hj in Hs.
    rewrite len_cons in Hs. cbn [map] in Hs. rewrite seqZ_cons in Hs by (pose proof (len_nonneg queue); lia).
    injection Hs as Hs _. rewrite Hs. len_solve.
  - unfold job_requests. cbn [with_job v_jobs map job_item].
    pose proof (co_stream _ _ _ _ Hc) as Hs. cbn zeta in Hs. unfold job_requests in Hs. rewrite Hj, Hq in Hs.
    cbn [map app] in Hs. etrans; [|destruct (closing c); [exact Hs|by eapply decoded_prefix]].
    apply prefix_app. apply prefix_cons, prefix_nil.
Qed.

Lemma conn_ok_pop v c item queue :
  C v c → tokens v = 0%nat → command_queue c = item :: queue →
  C (with_job v {| job_connection := id_ c; job_item := item |}) (set_strand queue true c).
Proof.
  intros [H1 H2 H3 H4 H5 H6 H7 H8 H9 H10] Ht Hq. destruct (tokens_zero v Ht) as [Hj Hd].
  unfold applied, job_requests in *. rewrite Hj, Hd, Hq in *. rewrite len_cons in *.
  change (len (@nil Job)) with 0 in *. pose proof (len_nonneg queue).
  split; unfold applied, job_requests; cbn [with_job v_exec v_jobs v_done v_recv v_sent set_strand command_queue
    next_request_seq next_response_seq inflight pending_responses closing parser output]; rewrite ?Hd;
    change (len [{| job_connection := id_ c; job_item := item |}]) with 1; try done.
  - lia.
  - cbn [map] in H2. rewrite seqZ_cons in H2 by lia. injection H2 as _ H2. rewrite H2. f_equal; lia.
Qed.

Lemma inv_pop h s f c item queue :
  I h s → h_strand h = Some f → connections_ s !! f = Some c → command_queue c = item :: queue →
  I (hold_job {| job_connection := id_ c; job_item := item |} (with_strand None h))
    (set_connections (<[f := set_strand queue true c]> (connections_ s)) s).
Proof.
  intros Hi Hh Hf Hq. pose proof Hi as [I1 I2 I3 I4 I5 I6 I7 I8 I9 I10 I11 I12 I13].
  destruct (I4 f Hh) as (c0 & Hf' & Ht). assert (c0 = c) as -> by congruence. clear Hf'.
  pose proof (λ i, view_pop h s f c (set_strand queue true c) item i Hf Ht) as Hv.
  assert (size (<[f := set_strand queue true c]> (connections_ s)) = size (connections_ s)) as Hsz
    by (apply map_size_insert_Some; by rewrite Hf).
  assert (∀ f0 c0, connections_ (set_connections (<[f := set_strand queue true c]> (connections_ s)) s) !! f0 = Some c0 →
            (f0 = f ∧ c0 = set_strand queue true c) ∨ (f0 ≠ f ∧ connections_ s !! f0 = Some c0 ∧ id_ c0 ≠ id_ c)) as Hl.
  { intros f0 c0. cbn. rewrite lookup_insert_Some. intros [[-> <-]|[Hne Hc]]; [by left|right].
    split_and!; [done|done|]. intros Hid. by destruct (Hne (I6 _ _ _ _ Hf Hc (eq_sym Hid))). }
  split; try done.
  - intros i. rewrite Hv. case_decide as Hid; [subst i|done]. apply (id_ok_pop (conn_view h s (id_ c)) c item queue); [done|by eapply I2|done|done].
  - intros f0 c0 [[-> ->]|(Hne & Hc & Hid)]%Hl; rewrite Hv.
    + rewrite decide_True by done. apply (conn_ok_pop (conn_view h s (id_ c)) c item queue); [by apply I2 with f|done|done].
    + rewrite decide_False by done. by apply I2 with f0.
  - intros f0 c0 [[-> ->]|(Hne & Hc & Hid)]%Hl _; rewrite Hv.
    + rewrite decide_True by done. destruct (tokens_zero _ Ht) as [_ Hd]. split; [|done].
      unfold tokens. cbn [v_jobs v_done]. cbn [set_strand strand_running id_]. by rewrite Hd.
    + rewrite decide_False by done. apply I3 with f0; [done|]. congruence.
  - intros f0 c0 [[-> ->]|(Hne & Hc & Hid)]%Hl; [exact (I5 _ _ Hf)|exact (I5 _ _ Hc)].
  - intros f0 f1 c0 c1 [[-> ->]|(Hne & Hc & Hid)]%Hl [[-> ->]|(Hne' & Hc' & Hid')]%Hl; cbn; try done.
    by apply I6.
  - intros i Hn. rewrite Hv. case_decide as Hid; [|by apply I7]. specialize (I5 _ _ Hf). cbn in Hn. lia.
  - server_simpl. by rewrite Hsz.
  - destruct I10 as (st & ? & ? & ?). exists st. server_simpl. by rewrite Hsz.
Qed.

(** What launching a strand leaves of the connection. *)
Definition same_input (c c' : Connection) : Prop :=
  id_ c' = id_ c ∧ parser c' = parser c ∧ closing c' = closing c ∧ read_closed c' = read_closed c ∧
  output c' = output c.

Lemma launch_strand_ok h s f c :
  I h s → h_strand h = Some f → connections_ s !! f = Some c →
  W (launch_strand config f) (λ _ s', leads config h s (with_strand None h) s' ∧
    (∃ c', connections_ s' !! f = Some c' ∧ same_input c c') ∧ recvs (script s') = recvs (script s)) s.
Proof.
  intros Hi Hh Hf. unfold launch_strand. apply wp_bind. apply (connection_ok _ f c); [done|].
  destruct (inv_hand _ _ _ Hi f Hh) as (c0 & Hf' & Ht). assert (c0 = c) as -> by congruence.
  destruct (command_queue c) as [|item queue] eqn:Hq.
  - apply wp_modify. rewrite (alter_known _ _ _ _ Hf). split_and!; [|exists (set_strand [] false c)|done].
    + eapply replace_leads; [done|done|done| |by right|by left| |].
      * destruct (inv_conns _ _ _ Hi f c Hf). rewrite Hq in *. by split.
      * by rewrite bool_decide_eq_false_2.
      * unfold connection_work. cbn [set_strand command_queue parser]. cbn [length]. lia.
    + server_simpl. by rewrite lookup_insert_eq.
  - apply wp_bind, wp_modify. rewrite (alter_known _ _ _ _ Hf).
    set (s1 := set_connections _ s). set (job := {| job_connection := _ |}).
    assert (I (hold_job job (with_strand None h)) s1) as Hi1 by (by apply inv_pop).
    assert (leads config h s (hold_job job (with_strand None h)) s1) as Hl1.
    { split; [done|]. split; [|by apply dom_update with c]. split; try done.
      unfold work, pending_work, s1. server_simpl.
      pose proof (connections_work_insert _ _ _ (set_strand queue true c) Hf) as He. unfold connections_work in He.
      unfold connection_work in He at 2 4. cbn [set_strand command_queue parser with_strand h_jobs h_done] in *.
      rewrite Hq in He. cbn [length] in *. lia. }
    assert (connections_ s1 !! f = Some (set_strand queue true c)) as Hf1 by (unfold s1; server_simpl; by rewrite lookup_insert_eq).
    assert (∀ s2, quiet config (hold_job job (with_strand None h)) s1 (with_strand None h) s2 →
      leads config h s (with_strand None h) s2 ∧ (∃ c', connections_ s2 !! f = Some c' ∧ same_input c c') ∧
      recvs (script s2) = recvs (script s)) as Hend.
    { intros s2 (Hl2 & Hc2 & Hr2). split; [by eapply leads_trans|]. rewrite Hc2, Hr2. split; [|done].
      exists (set_strand queue true c). by rewrite Hf1. }
    eapply wp_seq; [by apply submit_ok|]. intros b s2 Hq2. destruct b; [by apply wp_ret, Hend|].
    eapply wp_mono; [apply run_inline_ok, Hq2|]. intros [] s3 Hq3. apply Hend. by eapply quiet_trans.
Qed.

(** ** Requests *)

Lemma with_strand_id h : with_strand (h_strand h) h = h.
Proof. by destruct h. Qed.

Lemma next_open p :
  buffer_oversized_ p = false →
  let r := parse_value (limits_ p) (buffer_ p) 0 in
  next p = ({| result_status := val_status r; result_value := val_value r; result_message := val_message r |},
            if bool_decide (val_status r = complete)
            then {| limits_ := limits_ p; buffer_ := drop (Z.to_nat (val_consumed r)) (buffer_ p);
                    buffer_oversized_ := false |} else p).
Proof. intros Hp r. unfold next. rewrite Hp. fold r. done. Qed.

(** A request that was decoded joins the queue. *)
Definition enqueued (p : Parser) (request : RespValue) (c : Connection) : Connection :=
  MkConnection (id_ c) (interest c) (output c) p (next_request_seq c + 1) (next_response_seq c)
    (pending_responses c) (command_queue c ++ [{| qc_sequence := next_request_seq c; qc_request := request |}])
    (strand_running c) (inflight c + 1) (read_closed c) (closing c) (last_activity c).

Lemma conn_ok_enqueue v c request :
  let r := parse_value (limits_ (parser c)) (buffer_ (parser c)) 0 in
  C v c → closing c = false → val_status r = complete → val_value r = Some request →
  C v (enqueued {| limits_ := limits_ (parser c); buffer_ := drop (Z.to_nat (val_consumed r)) (buffer_ (parser c));
                   buffer_oversized_ := false |} request c).
Proof.
  intros r [H1 H2 H3 H4 H5 H6 H7 H8 H9 H10] Hcl Hst Hv.
  split; cbn [enqueued command_queue next_request_seq next_response_seq inflight pending_responses closing parser
    output limits_ buffer_ buffer_oversized_]; rewrite ?len_app; change (len [_]) with 1; try done.
  - lia.
  - rewrite map_app, H2, seqZ_app by (pose proof (len_nonneg (command_queue c)); lia). cbn [map]. do 2 f_equal.
    by rewrite <- H1.
  - lia.
  - by destruct H7.
  - rewrite Hcl in *. cbn zeta in *. destruct H7 as [Hl _]. subst r. rewrite Hl in Hst, Hv |- *.
    rewrite map_app, !app_assoc. apply decoded_next; [by rewrite <- app_assoc|done|done].
Qed.

Lemma enqueue_ok h s f c p request :
  let r := parse_value (limits_ (parser c)) (buffer_ (parser c)) 0 in
  I h s → h_strand h = None → connections_ s !! f = Some c → closing c = false →
  val_status r = complete → val_value r = Some request →
  p = {| limits_ := limits_ (parser c); buffer_ := drop (Z.to_nat (val_consumed r)) (buffer_ (parser c));
         buffer_oversized_ := false |} →
  W (update f (set_parser p) ;; enqueue_command config f request)
    (λ _ s', leads config h s h s' ∧ (∃ c', connections_ s' !! f = Some c' ∧ same_input (set_parser p c) c') ∧
             recvs (script s') = recvs (script s)) s.
Proof.
  intros r Hi Hh Hf Hcl Hst Hv Hp. apply wp_bind, wp_modify. rewrite (alter_known _ _ _ _ Hf).
  unfold enqueue_command. apply wp_bind. apply (connection_ok _ f (set_parser p c)); [server_simpl; by rewrite lookup_insert_eq|].
  apply wp_bind, wp_modify. server_simpl. rewrite (alter_known _ _ _ (set_parser p c)) by apply lookup_insert_eq.
  cbn [set_parser next_request_seq]. fold (enqueued p request c). rewrite insert_insert_eq.
  match goal with |- wp _ _ _ ?st => change st with (set_connections (<[f := enqueued p request c]> (connections_ s)) s) end.
  set (s1 := set_connections _ s).
  assert (C (conn_view h s (id_ c)) (enqueued p request c)) as Hok
    by (subst p; apply conn_ok_enqueue; [by apply Hi with f|done..]).
  assert (connection_work (enqueued p request c) <= connection_work c)%nat as Hw.
  { destruct (parse_value_good (limits_ (parser c)) (buffer_ (parser c)) 0 Hst) as [_ Hc]. fold r in Hc.
    unfold connection_work. subst p. cbn [enqueued command_queue parser buffer_]. len_solve. }
  assert (connections_ s1 !! f = Some (enqueued p request c)) as Hf1 by (unfold s1; server_simpl; by rewrite lookup_insert_eq).
  pose proof (inv_strands _ _ _ Hi f c Hf ltac:(by rewrite Hh)) as [Ht Hq].
  cbn [set_parser strand_running].
  destruct (strand_running c) eqn:Hr.
  - apply wp_ret. split; [|split; [by exists (enqueued p request c)|done]].
    rewrite <- (with_strand_id h) at 2. rewrite Hh.
    eapply replace_leads; [done|done|done|done|by left|by left| |done].
    rewrite bool_decide_eq_false_2 by done. split; cbn [enqueued strand_running]; rewrite Hr; [done|by intros [=]].
  - assert (leads config h s (with_strand (Some f) h) s1) as Hl1.
    { eapply replace_leads; [done|done|done|done|by left|by right| |done]. by rewrite bool_decide_eq_true_2. }
    eapply wp_mono; [eapply launch_strand_ok; [apply Hl1|done|done]|].
    intros [] s2 (Hl2 & (c' & Hf2 & Hsame) & Hrec). split; [|split; [exists c'; by split|by rewrite Hrec]].
    eapply leads_trans; [exact Hl1|]. replace h with (with_strand None (with_strand (Some f) h)) at 2; [done|].
    destruct h. cbn in Hh. by subst.
Qed.

(** ** Events of a connection *)

Definition with_recv (v : View) (data : bytes) : View :=
  {| v_exec := v_exec v; v_jobs := v_jobs v; v_done := v_done v; v_recv := v_recv v ++ data; v_sent := v_sent v |}.
Definition with_sent (v : View) (data : bytes) : View :=
  {| v_exec := v_exec v; v_jobs := v_jobs v; v_done := v_done v; v_recv := v_recv v; v_sent := v_sent v ++ data |}.

Lemma view_recv h s j data i :
  conn_view h (happen (did_recv j data) s) i =
  if decide (i = j) then with_recv (conn_view h s i) data else conn_view h s i.
Proof.
  unfold conn_view, with_recv. cbn [happen trace]. rewrite executed_app, received_app, sent_app.
  unfold executed at 2, received at 2, sent at 2. cbn [omap list_omap concat app]. rewrite !app_nil_r.
  case_decide as Hi.
  - subst i. rewrite Z.eqb_refl. cbn [concat app v_exec v_jobs v_done v_recv v_sent]. by rewrite app_nil_r.
  - destruct (Z.eqb_spec j i); [done|]. cbn [concat]. by rewrite app_nil_r.
Qed.

Lemma view_sent h s j data i :
  conn_view h (happen (did_send j data) s) i =
  if decide (i = j) then with_sent (conn_view h s i) data else conn_view h s i.
Proof.
  unfold conn_view, with_sent. cbn [happen trace]. rewrite executed_app, received_app, sent_app.
  unfold executed at 2, received at 2, sent at 2. cbn [omap list_omap concat app]. rewrite !app_nil_r.
  case_decide as Hi.
  - subst i. rewrite Z.eqb_refl. cbn [concat app v_exec v_jobs v_done v_recv v_sent]. by rewrite app_nil_r.
  - destruct (Z.eqb_spec j i); [done|]. cbn [concat]. by rewrite app_nil_r.
Qed.

(** Something happens on a connection, and the connection follows. *)
Lemma inv_event h s f c c' hp v' :
  I h s → connections_ s !! f = Some c → id_ c' = id_ c →
  strand_running c' = strand_running c → command_queue c' = command_queue c →
  (h_strand h = None ∨ h_strand h = Some f) →
  (∀ i, conn_view h (happen hp s) i = if decide (i = id_ c) then v' else conn_view h s i) →
  tokens v' = tokens (conn_view h s (id_ c)) →
  id_ok (cfg_parser_limits config) v' → C v' c' →
  I h (happen hp (set_connections (<[f := c']> (connections_ s)) s)).
Proof.
  intros Hi Hf Hid Hr Hq Hh Hv Ht Hok Hc. pose proof Hi as [I1 I2 I3 I4 I5 I6 I7 I8 I9 I10 I11 I12 I13].
  set (s' := happen hp _).
  assert (∀ i, conn_view h s' i = if decide (i = id_ c) then v' else conn_view h s i) as Hv' by done. clear Hv.
  assert (size (connections_ s') = size (connections_ s)) as Hsz
    by (unfold s'; server_simpl; apply map_size_insert_Some; by rewrite Hf).
  assert (∀ f0 c0, connections_ s' !! f0 = Some c0 →
            (f0 = f ∧ c0 = c') ∨ (f0 ≠ f ∧ connections_ s !! f0 = Some c0 ∧ id_ c0 ≠ id_ c)) as Hl.
  { intros f0 c0. unfold s'. cbn. rewrite lookup_insert_Some. intros [[-> <-]|[Hne Hc0]]; [by left|right].
    split_and!; [done|done|]. intros E. by destruct (Hne (I6 _ _ _ _ Hf Hc0 (eq_sym E))). }
  split; try done.
  - intros i. rewrite Hv'. by case_decide.
  - intros f0 c0 [[-> ->]|(Hne & Hc0 & Hid0)]%Hl; rewrite Hv'.
    + by rewrite Hid, decide_True.
    + rewrite decide_False by done. by apply I2 with f0.
  - intros f0 c0 [[-> ->]|(Hne & Hc0 & Hid0)]%Hl Hn; rewrite Hv'.
    + rewrite Hid, decide_True by done. destruct (I3 f c Hf Hn) as [Htk Hqq]. unfold strand_ok. by rewrite Hr, Hq, Ht.
    + rewrite decide_False by done. by apply I3 with f0.
  - intros f0 Hf0. destruct Hh as [|Hh]; [congruence|]. assert (f0 = f) as -> by congruence.
    exists c'. unfold s'. server_simpl. rewrite lookup_insert_eq, Hid. split; [done|]. fold s'. rewrite Hv', decide_True by done.
    rewrite Ht. destruct (I4 f Hh) as (c0 & ? & ?). congruence.
  - intros f0 c0 [[-> ->]|(Hne & Hc0 & Hid0)]%Hl; [rewrite Hid; exact (I5 _ _ Hf)|exact (I5 _ _ Hc0)].
  - intros f0 f1 c0 c1 [[-> ->]|(Hne & Hc0 & Hid0)]%Hl [[-> ->]|(Hne' & Hc1 & Hid1)]%Hl; rewrite ?Hid; try done.
    by apply I6.
  - intros i Hn. rewrite Hv'. case_decide as Hij; [|by apply I7]. specialize (I5 _ _ Hf). unfold s' in Hn. cbn in Hn. lia.
  - unfold s' in *. server_simpl. by rewrite Hsz.
  - destruct I10 as (st & ? & ? & ?). exists st. unfold s' in *. server_simpl. by rewrite Hsz.
Qed.

Lemma id_ok_recv v data : id_ok (cfg_parser_limits config) v → id_ok (cfg_parser_limits config) (with_recv v data).
Proof.
  intros [H1 H2 H3 H4 H5 H6]. split; try done. cbn [with_recv v_recv v_exec]. etrans; [exact H5|]. apply requests_of_app.
Qed.

(** Bytes that the parser accepted. *)
Lemma conn_ok_feed v c data now :
  C v c → closing c = false → snd (feed (parser c) data) = {| limits_ := limits_ (parser c);
    buffer_ := buffer_ (parser c) ++ data; buffer_oversized_ := false |} →
  C (with_recv v data) (set_parser (snd (feed (parser c) data)) (touch now c)).
Proof.
  intros [H1 H2 H3 H4 H5 H6 H7 H8 H9 H10] Hcl ->. split; try done.
  - by destruct H7.
  - cbn [set_parser touch closing parser buffer_ with_recv v_exec v_jobs v_recv command_queue job_requests] in *.
    rewrite Hcl in *. by apply decoded_feed.
Qed.

(** ** Malformed requests *)

Lemma protocol_error_text : protocol_error = Ok error_text.
Proof. vm_compute. reflexivity. Qed.

Lemma reply_stream_nil ts k r : (k <= r)%nat → reply_stream ts k [] r = concat (take r ts).
Proof.
  intros Hk. unfold reply_stream. cbn [app]. rewrite <- (take_drop k (take r ts)) at 2. rewrite concat_app, take_take.
  by rewrite Nat.min_l by lia.
Qed.

Definition rejected (p : Parser) (c : Connection) : Connection :=
  set_closed true true (set_output (output c ++ error_text) (set_parser p c)).

Lemma conn_ok_reject v c p data :
  C v c → closing c = false → limits_ p = limits_ (parser c) → C (with_recv v data) (rejected p c).
Proof.
  intros [H1 H2 H3 H4 H5 H6 H7 H8 H9 H10] Hcl Hp. split; try done.
  - intros Hlt. destruct (H6 Hlt). congruence.
  - destruct H7. split; [by rewrite <- H7|by intros [=]].
  - cbn [rejected set_closed set_output set_parser closing with_recv v_exec v_jobs v_recv command_queue job_requests] in *.
    rewrite Hcl in H8. etrans; [by eapply decoded_prefix|]. apply requests_of_app.
  - destruct H9 as (k & err & Hk & [->|[_ Hc]] & Hs); [|congruence].
    cbn [rejected set_closed set_output set_parser closing next_response_seq output with_recv v_sent v_exec].
    exists (Z.to_nat (next_response_seq c)), error_text. split; [done|]. split; [by right|].
    rewrite app_assoc, Hs, reply_stream_nil by done. unfold reply_stream. f_equal.
    rewrite drop_ge by (rewrite length_take; lia). cbn [concat]. by rewrite app_nil_r.
  - cbn [rejected set_closed set_output set_parser closing output]. rewrite len_app. rewrite Hcl in H10. lia.
Qed.

Lemma with_recv_nil v : with_recv v [] = v.
Proof. unfold with_recv. rewrite app_nil_r. by destruct v. Qed.

Lemma reject_ok h s f c p :
  I h s → h_strand h = None → connections_ s !! f = Some c → closing c = false →
  limits_ p = limits_ (parser c) → (length (buffer_ p) <= length (buffer_ (parser c)))%nat →
  W (update f (set_parser p) ;; reject f)
    (λ _ s', leads config h s h s' ∧ (∃ c', connections_ s' !! f = Some c' ∧ closing c' = true) ∧
             recvs (script s') = recvs (script s)) s.
Proof.
  intros Hi Hh Hf Hcl Hp Hb. unfold wp, reject, exec_bind, update, modify, lift. rewrite protocol_error_text.
  server_simpl. rewrite (alter_known _ _ _ _ Hf). rewrite (alter_known _ _ _ (set_parser p c)) by apply lookup_insert_eq.
  rewrite insert_insert_eq. fold (rejected p c).
  match goal with |- leads _ _ _ _ ?st ∧ _ => change st with (set_connections (<[f := rejected p c]> (connections_ s)) s) end.
  split; [|split; [|done]].
  - eapply update_leads; [done|done|done| |by left|done|done|].
    + rewrite <- (with_recv_nil (conn_view h s (id_ c))). apply conn_ok_reject; [by apply Hi with f|done|done].
    + unfold connection_work. cbn [rejected set_closed set_output set_parser command_queue parser]. lia.
  - exists (rejected p c). server_simpl. by rewrite lookup_insert_eq.
Qed.

Lemma leads_live h s h' s' f c :
  leads config h s h' s' → connections_ s !! f = Some c → ∃ c', connections_ s' !! f = Some c'.
Proof. intros (_ & _ & Hd) Hf%elem_of_dom_2. rewrite <- Hd in Hf. by apply elem_of_dom in Hf as [c' ?]; exists c'. Qed.

Lemma quiet_leads h s h' s' : quiet config h s h' s' → leads config h s h' s'.
Proof. by intros []. Qed.

Lemma conn_parser_id (c : Connection) : set_parser (parser c) c = c.
Proof. by destruct c. Qed.

(** ** The loops over the requests and over the reads *)

Lemma queue_parsed_commands_ok fuel f : ∀ h s c,
  I h s → h_strand h = None → connections_ s !! f = Some c → closing c = false →
  (length (buffer_ (parser c)) < fuel)%nat →
  W (queue_parsed_commands config fuel f) (λ _ s', leads config h s h s') s.
Proof.
  induction fuel as [|fuel IH]; intros h s c Hi Hh Hf Hcl Hfuel; [lia|]. cbn [queue_parsed_commands].
  eapply wp_seq; [by apply queue_saturated_ok|]. intros saturated s1 (Hl1 & Hc1 & Hr1). rewrite <- Hc1 in Hf.
  pose proof (proj1 Hl1) as Hi1. apply wp_bind. apply (connection_ok _ f c); [done|].
  cond_case; [by apply wp_ret|].
  destruct (co_parser _ _ _ _ (inv_conns _ _ _ Hi1 f c Hf)) as [Hlim Hov].
  rewrite (next_open _ (Hov Hcl)). cbn zeta. set (r := parse_value _ _ 0). cbn [result_status result_value].
  assert (∀ p, limits_ p = limits_ (parser c) → (length (buffer_ p) <= length (buffer_ (parser c)))%nat →
    W (update f (set_parser p) ;; reject f) (λ _ s', leads config h s h s') s1) as Hrej.
  { intros p Hp1 Hp2. eapply wp_mono; [by apply (reject_ok h s1 f c p)|].
    intros [] s2 (Hl2 & _). by eapply leads_trans. }
  destruct (val_status r) eqn:Hst; try (apply Hrej; done).
  - destruct (val_value r) as [request|] eqn:Hv.
    2: { apply Hrej; [done|]. cbn [bool_decide decide_rel]. rewrite bool_decide_eq_true_2 by done. cbn. len_solve. }
    rewrite bool_decide_eq_true_2 by done. destruct (parse_value_good (limits_ (parser c)) (buffer_ (parser c)) 0 Hst) as [_ Hcons].
    fold r in Hcons. destruct (is_command_request request).
    + apply wp_assoc. eapply wp_seq; [by eapply enqueue_ok|].
      intros [] s2 (Hl2 & (c' & Hf2 & Hid & Hpar & Hcl' & _) & Hr2).
      eapply wp_mono; [eapply (IH h s2 c'); [apply Hl2|done|done|by rewrite Hcl'|]|].
      * rewrite Hpar. cbn [set_parser parser buffer_]. len_solve.
      * intros [] s3 Hl3. eapply leads_trans; [exact Hl1|]. by eapply leads_trans.
    + apply Hrej; [done|]. cbn. len_solve.
  - rewrite bool_decide_eq_false_2 by done. eapply wp_seq.
    + eapply (update_ok h s1 f c (set_parser (parser c))); [done|done|done| |by left|done|done|done].
      rewrite conn_parser_id. by apply Hi1 with f.
    + intros [] s2 (Hl2 & _). apply wp_ret. by eapply leads_trans.
Qed.

(** ** Statistics *)

Lemma on_stats_ok g h s :
  I h s →
  (∀ st, active_connections_ (g st) = active_connections_ st ∧ accepted_connections_ (g st) = accepted_connections_ st) →
  W (on_stats g) (λ _ s', quiet config h s h s' ∧ trace s' = trace s) s.
Proof.
  intros Hi Hg. unfold on_stats. apply wp_modify. destruct (inv_stats _ _ _ Hi) as (st & E & _ & _). rewrite E.
  split; [|done]. split; [|done]. split; [|split; [by split|done]].
  eapply inv_frame; [exact Hi|done..| |apply Hi|done|done]. exists st, (g st). split; [done|]. split; [done|apply Hg].
Qed.

(** ** Receiving *)

Lemma conn_ok_close v c rc : C v c → C v (set_closed rc true c).
Proof.
  intros [H1 H2 H3 H4 H5 H6 H7 H8 H9 H10]. split; try done.
  - intros Hlt. by destruct (H6 Hlt).
  - destruct H7. split; [done|by intros [=]].
  - cbn [set_closed closing] in *. destruct (closing c); [done|]. by eapply decoded_prefix.
  - destruct H9 as (k & err & Hk & Herr & Hs). exists k, err. split; [done|]. split; [|done].
    destruct Herr as [->|[-> _]]; [by left|by right].
  - cbn [set_closed closing output]. pose proof (len_nonneg error_text). destruct (closing c); lia.
Qed.

Lemma conn_ok_read_closed v c rc : C v c → C v (set_closed rc (closing c) c).
Proof. by intros []. Qed.

(** The state after a result of [recv(2)] that brought nothing. *)
Lemma recv_nothing h s rest :
  I h s → (length rest <= length (recvs (script s)))%nat → (recv_total rest <= recv_total (recvs (script s)))%nat →
  leads config h s h (set_script (with_recvs rest (script s)) s).
Proof.
  intros Hi Hl Ht. split; [by apply inv_script|]. split; [|done]. split; try done.
  unfold work, pending_work. server_simpl. cbn [with_recvs recvs]. lia.
Qed.

Lemma read_end_ok h s f c :
  I h s → h_strand h = None → connections_ s !! f = Some c → closing c = false →
  W (read_end f c) (λ _ s', leads config h s h s') s.
Proof.
  intros Hi Hh Hf Hcl. unfold read_end. eapply wp_seq.
  { eapply (update_ok h s f c); [done|done|done| |by left|done..]. by apply conn_ok_read_closed, Hi with f. }
  intros [] s1 (Hl1 & Hf1 & _). cond_case; [|cond_case; [|by apply wp_ret]].
  - rewrite protocol_error_text. apply wp_bind, wp_lift.
    eapply wp_mono; [eapply update_ok; [apply Hl1|exact Hf1|done| |by left|done..]|].
    + set (x := set_closed true (closing c) c) in *.
      assert (C (with_recv (conn_view h s1 (id_ x)) []) (rejected (parser x) x)) as Hx
        by (apply conn_ok_reject; [exact (inv_conns _ _ _ (proj1 Hl1) f x Hf1)|done|done]).
      unfold rejected in Hx. by rewrite conn_parser_id, with_recv_nil in Hx.
    + intros [] s2 (Hl2 & _). by eapply leads_trans.
  - eapply wp_mono; [eapply update_ok; [apply Hl1|exact Hf1|done| |by left|done..]|].
    + apply conn_ok_close. exact (inv_conns _ _ _ (proj1 Hl1) f _ Hf1).
    + intros [] s2 (Hl2 & _). by eapply leads_trans.
Qed.

(** The state after bytes were received, without the bytes. *)
Definition after_recv (rest : list SysRecv) (st : Stats) (s : Server) : Server :=
  set_script (with_nows (tail (nows (script s))) (with_recvs rest (script s)))
    (set_context (set_stats st (context s)) s).

Lemma after_recv_inv h s rest st st' :
  I h s → stats (context s) = Some st → active_connections_ st' = active_connections_ st →
  accepted_connections_ st' = accepted_connections_ st → I h (after_recv rest st' s).
Proof.
  intros Hi E Ha Hb. eapply inv_frame; [exact Hi|done..| |apply Hi|done|done]. by exists st, st'.
Qed.

(** Bytes were received and the connection is [c'] now. *)
Lemma recv_leads h s f c c' rest st st' data :
  I h s → h_strand h = None → connections_ s !! f = Some c →
  stats (context s) = Some st → active_connections_ st' = active_connections_ st →
  accepted_connections_ st' = accepted_connections_ st →
  (length rest < length (recvs (script s)))%nat →
  (length data + recv_total rest <= recv_total (recvs (script s)))%nat →
  id_ c' = id_ c → strand_running c' = strand_running c → command_queue c' = command_queue c →
  C (with_recv (conn_view h s (id_ c)) data) c' →
  (length (buffer_ (parser c')) <= length (buffer_ (parser c)) + length data)%nat →
  let s' := happen (did_recv (id_ c) data)
    (set_connections (<[f := c']> (connections_ s)) (after_recv rest st' s)) in
  leads config h s h s' ∧ (length (recvs (script s')) < length (recvs (script s)))%nat.
Proof.
  intros Hi Hh Hf E Ha Hb Hl Ht Hid Hr Hq Hok Hbuf s'. split; [|done]. split; [|split].
  - apply (inv_event h (after_recv rest st' s) f c c' _ (with_recv (conn_view h s (id_ c)) data));
      [by eapply after_recv_inv|done|done|done|done|by left| |done|by apply id_ok_recv, Hi|done].
    intros i. rewrite view_recv. case_decide as Hi'; [by subst i|done].
  - split; try done; [|unfold s'; cbn; lia]. unfold work, pending_work, s', after_recv. server_simpl. cbn [with_nows with_recvs recvs].
    pose proof (connections_work_insert _ _ _ c' Hf) as He. unfold connections_work in He.
    assert (connection_work c' = (length (command_queue c) + length (buffer_ (parser c')))%nat) as E1
      by (unfold connection_work; by rewrite Hq).
    assert (connection_work c = (length (command_queue c) + length (buffer_ (parser c)))%nat) as E2 by done. lia.
  - unfold s'. server_simpl. by apply dom_update with c.
Qed.

Lemma read_data_ok h s f c n data rest more :
  I h s → h_strand h = None → connections_ s !! f = Some c → closing c = false →
  (length rest < length (recvs (script s)))%nat →
  (length data + recv_total rest <= recv_total (recvs (script s)))%nat →
  (∀ s' c', I h s' → connections_ s' !! f = Some c' → closing c' = false →
     (length (recvs (script s')) < length (recvs (script s)))%nat →
     W more (λ _ s'', leads config h s' h s'') s') →
  W (read_data config f c n data more) (λ _ s', leads config h s h s')
    (happen (did_recv (id_ c) data) (set_script (with_recvs rest (script s)) s)).
Proof.
  intros Hi Hh Hf Hcl Hl Ht Hmore. destruct (inv_stats _ _ _ Hi) as (st & Est & _ & _).
  pose proof (inv_conns _ _ _ Hi f c Hf) as Hok. destruct (co_parser _ _ _ _ Hok) as [_ Hov]. specialize (Hov Hcl).
  unfold read_data. apply wp_bind. unfold on_stats. apply wp_modify. server_simpl. rewrite Est.
  apply wp_bind. unfold steady_now, pop, wp at 1. set (now := default 0 _). clearbody now.
  apply wp_bind, wp_modify. server_simpl. rewrite (alter_known _ _ _ _ Hf).
  unfold feed. rewrite Hov. set (b := _ || _). destruct b eqn:Hb; cbn [negb].
  - unfold wp, reject, exec_bind, update, modify, lift. rewrite bool_decide_eq_false_2, protocol_error_text by done.
    cbn [negb]. server_simpl. set (p := {| limits_ := _ |}).
    rewrite (alter_known (<[f := touch now c]> (connections_ s)) f (set_parser p) (touch now c)) by apply lookup_insert_eq.
    rewrite insert_insert_eq.
    rewrite (alter_known _ f _ (set_parser p (touch now c))) by apply lookup_insert_eq. rewrite insert_insert_eq.
    edestruct (recv_leads h s f c (rejected p (touch now c)) rest st (add_bytes_in n st) data) as [Hgo _];
      [..|exact Hgo]; try done; [|cbn; lia].
    apply conn_ok_reject; [by apply conn_ok_touch|done|done].
  - rewrite bool_decide_eq_true_2 by done. cbn [negb]. apply wp_bind, wp_modify. server_simpl.
    rewrite (alter_known _ _ _ (touch now c)) by apply lookup_insert_eq. rewrite insert_insert_eq.
    set (p := {| limits_ := _ |}). set (c1 := set_parser p (touch now c)).
    edestruct (recv_leads h s f c c1 rest st (add_bytes_in n st) data) as [Hgo Hrec]; try done.
    + pose proof (conn_ok_feed _ _ data now Hok Hcl) as Hfeed. unfold feed in Hfeed. fold b in Hfeed.
      rewrite Hov, Hb in Hfeed. cbn [snd] in Hfeed. by apply Hfeed.
    + unfold c1, p. cbn [set_parser parser buffer_]. len_solve.
    + match goal with |- wp _ _ _ ?st0 => change st0 with (happen (did_recv (id_ c) data)
        (set_connections (<[f := c1]> (connections_ s)) (after_recv rest (add_bytes_in n st) s))); set (s1 := st0) in * end.
      assert (connections_ s1 !! f = Some c1) as Hf1 by (unfold s1; server_simpl; by rewrite lookup_insert_eq).
      eapply wp_seq; [eapply (queue_parsed_commands_ok _ f h s1 c1); [apply Hgo|done|done|done|cbn; lia]|].
      intros [] s2 Hl2. destruct (leads_live _ _ _ _ _ _ Hl2 Hf1) as [c2 Hf2].
      apply wp_bind. apply (connection_ok _ f c2); [done|]. destruct (closing c2) eqn:Hcl2.
      * apply wp_ret. by eapply leads_trans.
      * eapply wp_mono; [apply (Hmore s2 c2); [apply Hl2|done|done|]|].
        -- destruct Hl2 as (_ & [_ Hr2 _ _ _ _] & _). change ((length (recvs (script s1)) < length (recvs (script s)))%nat) in Hrec. lia.
        -- intros [] s3 Hl3. eapply leads_trans; [exact Hgo|]. by eapply leads_trans.
Qed.

Lemma read_loop_ok fuel f : ∀ h s c,
  I h s → h_strand h = None → connections_ s !! f = Some c → closing c = false →
  (length (recvs (script s)) < fuel)%nat →
  W (read_loop config fuel f) (λ _ s', leads config h s h s') s.
Proof.
  induction fuel as [|fuel IH]; intros h s c Hi Hh Hf Hcl Hfuel; [lia|]. cbn [read_loop].
  eapply wp_seq; [by apply queue_saturated_ok|]. intros saturated s1 (Hl1 & Hc1 & Hr1). rewrite <- Hc1 in Hf.
  pose proof (proj1 Hl1) as Hi1. destruct saturated; [by apply wp_ret|].
  apply wp_bind. apply (connection_ok _ f c); [done|]. apply wp_bind. unfold wp at 1, socket_receive.
  destruct (try_receive (recvs (script s1))) as [[[io data]|e] rest] eqn:E; pose proof (try_receive_spec _ _ _ E) as Hs;
    cbv beta iota in Hs; [|rewrite Hs; by eapply inv_permitted].
  destruct (io_status io) eqn:Hio.
  - destruct Hs as (Hne & Hn & Hlen & Htot). rewrite bool_decide_eq_false_2 by done.
    eapply wp_mono; [apply (read_data_ok h s1 f c (io_bytes io) data rest (read_loop config fuel f));
      [exact Hi1|exact Hh|exact Hf|exact Hcl|exact Hlen|exact Htot|]|].
    + intros s2 c2 Hi2 Hf2 Hcl2 Hr2. apply (IH h s2 c2); [done|done|done|done|]. rewrite Hr1 in Hr2. lia.
    + intros [] s2 Hl2. by eapply leads_trans.
  - destruct Hs as (-> & Hlen & Htot). apply wp_ret. eapply leads_trans; [exact Hl1|]. by apply recv_nothing.
  - destruct Hs as (-> & Hlen & Htot). cbn [bool_decide]. rewrite bool_decide_eq_true_2 by done.
    pose proof (recv_nothing h s1 rest Hi1 Hlen Htot) as Hl2.
    eapply wp_mono; [apply (read_end_ok h _ f c); [apply Hl2|exact Hh|exact Hf|exact Hcl]|].
    intros [] s2 Hl3. eapply leads_trans; [exact Hl1|]. by eapply leads_trans.
Qed.

Lemma read_connection_ok h s f c :
  I h s → h_strand h = None → connections_ s !! f = Some c →
  W (read_connection config f) (λ _ s', leads config h s h s') s.
Proof.
  intros Hi Hh Hf. unfold read_connection. apply wp_bind. apply (connection_ok _ f c); [done|].
  cond_case; [by apply wp_ret, leads_refl|]. apply wp_bind, wp_gets.
  apply (read_loop_ok _ f h s c); [done|done|done|by destruct (read_closed c), (closing c)|lia].
Qed.
End Connection.
