(* ===== verification/ServerLoop.v ===== *)
(** * Sending, completions and the event loop

    The rest of the functions of the I/O thread, up to the event loop. *)

From S2P Require Import Prelude Resp Parser ParserCorrect Disk Store StoreInv StoreTheorems Engine.
From S2P Require Import Stats Registry ServerCommands ThreadPool Socket Reactor Server ServerInv ServerSteps ServerConn.

Section Loop.
Context `{PO : PlatformOk} `{KO : KernelOk} (config : ServerConfig) (listener : Z).

Abbreviation I := (inv config).
Abbreviation W := (wp (permitted config)).
Abbreviation C := (conn_ok (cfg_parser_limits config) (cfg_max_output_buffer_bytes config)).

(** ** Sending *)

Lemma conn_ok_sent v c n :
  C v c → C (with_sent v (take n (output c))) (set_output (drop n (output c)) c).
Proof.
  intros [H1 H2 H3 H4 H5 H6 H7 H8 H9 H10]. split; try done.
  - destruct H9 as (k & err & Hk & Herr & Hs). exists k, err. split; [done|]. split; [done|].
    cbn [with_sent v_sent v_exec set_output output next_response_seq]. by rewrite <- app_assoc, take_drop.
  - cbn [set_output output closing]. len_solve.
Qed.

Lemma id_ok_sent v c n :
  id_ok (cfg_parser_limits config) v → C v c → id_ok (cfg_parser_limits config) (with_sent v (take n (output c))).
Proof.
  intros [H1 H2 H3 H4 H5 H6] Hc. split; try done.
  destruct (co_output _ _ _ _ Hc) as (k & err & Hk & Herr & Hs).
  pose proof (co_response_seq _ _ _ _ Hc) as Hr. unfold applied in Hr. pose proof (len_nonneg (v_done v)).
  exists k, err, (Z.to_nat (next_response_seq c)), (drop n (output c)). cbn [with_sent v_sent v_exec].
  split_and!; [done|len_solve|destruct Herr as [->|[-> _]]; auto|]. by rewrite <- app_assoc, take_drop.
Qed.

Definition after_send (rest : list SysSend) (st : Stats) (s : Server) : Server :=
  set_script (with_sends rest (script s)) (set_context (set_stats st (context s)) s).

Lemma send_leads h s f c rest st st' n :
  I h s → (h_strand h = None ∨ h_strand h = Some f) → connections_ s !! f = Some c →
  stats (context s) = Some st → active_connections_ st' = active_connections_ st →
  accepted_connections_ st' = accepted_connections_ st →
  (length rest < length (sends (script s)))%nat → rest ⊆ sends (script s) →
  let s' := happen (did_send (id_ c) (take n (output c)))
    (set_connections (<[f := set_output (drop n (output c)) c]> (connections_ s)) (after_send rest st' s)) in
  leads config h s h s' ∧ (length (sends (script s')) < length (sends (script s)))%nat.
Proof.
  intros Hi Hh Hf E Ha Hb Hl Hsub s'. split; [|done]. split; [|split].
  - apply (inv_event config h (after_send rest st' s) f c _ _ (with_sent (conn_view h s (id_ c)) (take n (output c)))); try done.
    + eapply inv_frame; [exact Hi|done..| |apply Hi|done|done]. by exists st, st'.
    + intros i. rewrite view_sent. case_decide as Hi'; [by subst i|done].
    + apply id_ok_sent; [apply Hi|by apply Hi with f].
    + apply conn_ok_sent. by apply Hi with f.
  - split; try done; [|unfold s'; cbn; lia]. unfold work, pending_work, s', after_send. server_simpl. cbn [with_sends recvs].
    pose proof (connections_work_insert _ _ _ (set_output (drop n (output c)) c) Hf) as He. unfold connections_work in He.
    change (connection_work (set_output (drop n (output c)) c)) with (connection_work c) in He. lia.
  - unfold s'. server_simpl. by apply dom_update with c.
Qed.

Lemma touch_ok h s f c now :
  I h s → (h_strand h = None ∨ h_strand h = Some f) → connections_ s !! f = Some c →
  W (update f (touch now)) (λ _ s', leads config h s h s' ∧ connections_ s' !! f = Some (touch now c) ∧
                                    script s' = script s) s.
Proof.
  intros Hi Hh Hf. apply (update_ok config h s f c (touch now)); try done. apply conn_ok_touch. by apply Hi with f.
Qed.

Lemma steady_now_ok h s :
  I h s → W steady_now (λ _ s', quiet config h s h s' ∧ trace s' = trace s ∧ sends (script s') = sends (script s)) s.
Proof. intros Hi. unfold steady_now. by eapply wp_pop. Qed.

Lemma write_loop_ok fuel f : ∀ h s c,
  I h s → (h_strand h = None ∨ h_strand h = Some f) → connections_ s !! f = Some c →
  (length (sends (script s)) < fuel)%nat →
  W (write_loop fuel f) (λ _ s', leads config h s h s') s.
Proof.
  induction fuel as [|fuel IH]; intros h s c Hi Hh Hf Hfuel; [lia|]. cbn [write_loop].
  apply wp_bind. apply (connection_ok config _ f c); [done|]. case_bool_decide as Hout; [by apply wp_ret, leads_refl|].
  apply wp_bind. unfold wp at 1, socket_send. destruct (try_send (output c) (sends (script s))) as [[io|e] rest] eqn:E;
    destruct (try_send_spec _ _ _ _ Hout E) as [Hs Hsub]; cbv beta iota in Hs;
    [|rewrite Hs; by eapply inv_permitted].
  destruct (io_status io) eqn:Hio.
  - destruct Hs as [Hn Hlen]. replace (io_bytes io >? 0) with true by lia.
    rewrite !bool_decide_eq_false_2 by done. replace (io_bytes io =? 0) with false by lia. cbn [orb].
    destruct (inv_stats _ _ _ Hi) as (st & Est & _ & _).
    apply wp_bind. unfold on_stats. apply wp_modify. server_simpl. rewrite Est. apply wp_bind, wp_modify. server_simpl.
    rewrite (alter_known _ _ _ _ Hf).
    edestruct (send_leads h s f c rest st (add_bytes_out (io_bytes io) st) (Z.to_nat (io_bytes io))) as [Hgo Hrec]; try done.
    match goal with |- wp _ _ _ ?st0 => change st0 with (happen (did_send (id_ c) (take (Z.to_nat (io_bytes io)) (output c)))
      (set_connections (<[f := set_output (drop (Z.to_nat (io_bytes io)) (output c)) c]> (connections_ s))
        (after_send rest (add_bytes_out (io_bytes io) st) s))) end.
    set (s1 := happen _ _) in *.
    assert (connections_ s1 !! f = Some (set_output (drop (Z.to_nat (io_bytes io)) (output c)) c)) as Hf1
      by (unfold s1; server_simpl; by rewrite lookup_insert_eq).
    eapply wp_seq; [apply steady_now_ok, Hgo|]. intros now s2 ((Hl2 & Hc2 & _) & _ & Hs2). rewrite <- Hc2 in Hf1.
    eapply wp_seq; [eapply touch_ok; [apply Hl2|done|exact Hf1]|]. intros [] s3 (Hl3 & Hf3 & Hs3).
    eapply wp_mono; [eapply IH; [apply Hl3|done|exact Hf3|rewrite Hs3, Hs2; lia]|].
    intros [] s4 Hl4. eapply leads_trans; [exact Hgo|]. eapply leads_trans; [exact Hl2|]. by eapply leads_trans.
  - destruct Hs as [Hz Hlen]. rewrite Hz. rewrite bool_decide_eq_true_2 by done. cbn [Z.gtb Z.compare].
    apply wp_ret. split; [|split; [|done]].
    + by apply inv_script.
    + split; try done.
  - destruct Hs as [Hin _]. by destruct (inv_sends _ _ _ Hi).
Qed.

Lemma write_connection_ok h s f c :
  I h s → (h_strand h = None ∨ h_strand h = Some f) → connections_ s !! f = Some c →
  W (write_connection f) (λ _ s', leads config h s h s') s.
Proof.
  intros Hi Hh Hf. unfold write_connection. apply wp_bind, wp_gets. eapply write_loop_ok; [done|done|done|lia].
Qed.

(** ** Interests *)

Lemma quiet_conn h s h' s' f c :
  quiet config h s h' s' → connections_ s !! f = Some c → connections_ s' !! f = Some c.
Proof. by intros (_ & -> & _). Qed.

Lemma compute_interest_ok h s f c :
  I h s → connections_ s !! f = Some c →
  W (compute_interest config f) (λ _ s', quiet config h s h s') s.
Proof.
  intros Hi Hf. unfold compute_interest. apply wp_bind. apply (connection_ok config _ f c); [done|].
  eapply (wp_seq _ _ _ (λ _ s', quiet config h s h s')); [|intros want s1 Hq; by apply wp_ret].
  cond_case; [by apply wp_ret, quiet_refl|]. eapply wp_seq; [by apply queue_saturated_ok|].
  intros saturated s1 Hq. by apply wp_ret.
Qed.

Lemma inv_reactor h s r : I h s → quiet config h s h (set_reactor r s).
Proof. intros Hi. by apply quiet_frame. Qed.

Lemma reactor_modify_ok h s fails f i :
  I h s → W (on_reactor (reactor_modify fails f i)) (λ _ s', quiet config h s h s') s.
Proof.
  intros Hi. unfold on_reactor, wp, zoom, reactor_modify.
  destruct (apply_interest fails f i (reactor_ s)) as [[[]|e] r] eqn:E; [by apply inv_reactor|].
  destruct (apply_interest_throws _ _ _ _ _ _ E) as [operation ->]. by eapply inv_permitted.
Qed.

Lemma pop_kev_ok h s : I h s → W pop_kev (λ _ s', quiet config h s h s' ∧ trace s' = trace s) s.
Proof. intros Hi. unfold pop_kev. by apply pop_quiet. Qed.

Lemma apply_computed_ok h s f c i :
  I h s → (h_strand h = None ∨ h_strand h = Some f) → connections_ s !! f = Some c →
  W (apply_computed f i) (λ _ s', leads config h s h s') s.
Proof.
  intros Hi Hh Hf. unfold apply_computed. apply wp_bind. apply (connection_ok config _ f c); [done|].
  cond_case; [by apply wp_ret, leads_refl|]. eapply wp_seq.
  { apply (update_ok config h s f c (set_interest i)); try done. apply conn_ok_interest. by apply Hi with f. }
  intros [] s1 (Hl1 & _). eapply wp_seq; [apply pop_kev_ok, Hl1|]. intros fails s2 [Hq2 _].
  eapply wp_mono; [apply reactor_modify_ok, Hq2|]. intros [] s3 Hq3.
  eapply leads_trans; [exact Hl1|]. apply quiet_leads. by eapply quiet_trans.
Qed.

Lemma update_interest_ok h s f c :
  I h s → h_strand h = None → connections_ s !! f = Some c →
  W (update_interest config f) (λ _ s', leads config h s h s') s.
Proof.
  intros Hi Hh Hf. unfold update_interest. eapply wp_seq; [by eapply compute_interest_ok|]. intros i s1 Hq1.
  pose proof (quiet_conn _ _ _ _ _ _ Hq1 Hf) as Hf1. apply wp_bind. apply (connection_ok config _ f c); [done|].
  eapply wp_seq; [eapply apply_computed_ok; [apply Hq1|by left|done]|]. intros [] s2 Hl2.
  assert (leads config h s h s2) as Hl02 by (eapply leads_trans; [apply quiet_leads, Hq1|exact Hl2]).
  cond_case; [|by apply wp_ret]. destruct (leads_live _ _ _ _ _ _ _ Hl2 Hf1) as [c2 Hf2].
  eapply wp_seq; [eapply read_connection_ok; [apply Hl2|done|done]|]. intros [] s3 Hl3.
  destruct (leads_live _ _ _ _ _ _ _ Hl3 Hf2) as [c3 Hf3].
  eapply wp_seq; [eapply compute_interest_ok; [apply Hl3|done]|]. intros i' s4 Hq4.
  pose proof (quiet_conn _ _ _ _ _ _ Hq4 Hf3) as Hf4.
  eapply wp_mono; [eapply apply_computed_ok; [apply Hq4|by left|done]|]. intros [] s5 Hl5.
  eapply leads_trans; [exact Hl02|]. eapply leads_trans; [exact Hl3|]. eapply leads_trans; [|exact Hl5].
  by apply quiet_leads.
Qed.

(** ** The end of a connection *)

(** From [s], with connections that may have been closed. *)
Definition closes (h : Hold) (s : Server) (h' : Hold) (s' : Server) : Prop :=
  I h' s' ∧ shrinks h s h' s' ∧ dom (connections_ s') ⊆ dom (connections_ s).

Lemma closes_trans h1 s1 h2 s2 h3 s3 : closes h1 s1 h2 s2 → closes h2 s2 h3 s3 → closes h1 s1 h3 s3.
Proof.
  intros (_ & Hs & Hd) (Hi' & Hs' & Hd'). split; [done|]. split; [by eapply shrinks_trans|set_solver].
Qed.
Lemma leads_closes h s h' s' : leads config h s h' s' → closes h s h' s'.
Proof. intros (Hi & Hs & Hd). split; [done|]. split; [done|]. by rewrite Hd. Qed.
Lemma closes_refl h s : I h s → closes h s h s.
Proof. intros Hi. by apply leads_closes, leads_refl. Qed.

(** A connection is erased and counted. *)
Lemma inv_close h s f c st :
  I h s → h_strand h = None → connections_ s !! f = Some c → stats (context s) = Some st →
  I h (set_context (set_stats (on_disconnect st) (context s))
    (happen (did_close (id_ c)) (set_connections (delete f (connections_ s)) s))).
Proof.
  intros [I1 I2 I3 I4 I5 I6 I7 I8 I9 I10 I11 I12 I13] Hh Hf Est. set (s' := set_context _ _).
  assert (∀ i, conn_view h s' i = conn_view h s i) as Hv.
  { intros i. unfold conn_view, s'. server_simpl. rewrite executed_app, received_app, sent_app.
    unfold executed at 2, received at 2, sent at 2. cbn [omap list_omap concat]. by rewrite !app_nil_r. }
  assert (∀ f0 c0, connections_ s' !! f0 = Some c0 → connections_ s !! f0 = Some c0) as Hl.
  { intros f0 c0. unfold s'. server_simpl. rewrite lookup_delete_Some. by intros []. }
  assert (size (connections_ s) = S (size (connections_ s'))) as Hsz.
  { unfold s'. server_simpl. rewrite (map_size_delete_Some _ _ (mk_is_Some _ _ Hf)).
    pose proof (map_size_ne_0_lookup_2 _ _ (mk_is_Some _ _ Hf)). lia. }
  split; try done.
  - intros i. by rewrite Hv.
  - intros f0 c0 Hc0%Hl. rewrite Hv. by apply I2 with f0.
  - intros f0 c0 Hc0%Hl Hn. rewrite Hv. by apply I3 with f0.
  - intros f0 Hf0. congruence.
  - intros f0 c0 Hc0%Hl. by apply I5 with f0.
  - intros f0 f1 c0 c1 Hc0%Hl Hc1%Hl. by apply I6.
  - intros i Hi. rewrite Hv. by apply I7.
  - unfold s' in *. server_simpl. lia.
  - destruct I10 as (st0 & E0 & Ha & Hb). assert (st0 = st) as -> by congruence.
    exists (on_disconnect st). split_and!; [done| |done].
    cbn [on_disconnect active_connections_]. rewrite Ha, Hsz. unfold u64.
    rewrite Zminus_mod_idemp_l. f_equal. lia.
Qed.

Lemma reactor_remove_ok fr fw f : preserves (λ _, True) (on_reactor (reactor_remove fr fw f)).
Proof.
  unfold on_reactor. apply (preserves_zoom _ _ _ (λ _, True)); [done|done|].
  unfold reactor_remove, delete_filter. assert (∀ fails cs, preserves (λ _, True) (kevent fails cs)) as Hk.
  { intros fails cs r _. unfold kevent. by destruct (kevent_changes _ _ _). }
  preserve. by apply preserves_modify.
Qed.

Lemma close_connection_ok h s f :
  I h s → h_strand h = None →
  W (close_connection f) (λ _ s', closes h s h s' ∧ f ∉ dom (connections_ s')) s.
Proof.
  intros Hi Hh. unfold close_connection. apply wp_bind, wp_gets.
  destruct (connections_ s !! f) as [c|] eqn:Hf.
  2: { apply wp_ret. split; [by apply closes_refl|by apply not_elem_of_dom]. }
  eapply wp_seq; [by apply pop_kev_ok|]. intros fr s1 [Hq1 _].
  eapply wp_seq; [apply pop_kev_ok, Hq1|]. intros fw s2 [Hq2 _].
  assert (quiet config h s h s2) as Hq02 by (by eapply quiet_trans). clear Hq1 Hq2.
  pose proof (quiet_conn _ _ _ _ _ _ Hq02 Hf) as Hf2.
  apply wp_bind. unfold wp at 1. rewrite ignored by (by apply reactor_remove_ok).
  unfold wp, exec_bind, on_reactor, zoom.
  destruct (reactor_remove fr fw f (reactor_ s2)) as [r0 r]. unfold on_stats, modify. cbn [snd].
  pose proof (inv_reactor h s2 (kernel_close f r) (proj1 (proj1 Hq02))) as Hq3.
  destruct (inv_stats _ _ _ (proj1 (proj1 Hq3))) as (st & Est & _ & _).
  cbn [set_reactor reactor_ set_connections happen context] in *. rewrite Est.
  pose proof (inv_close h (set_reactor (kernel_close f r) s2) f c st (proj1 (proj1 Hq3)) Hh Hf2 Est) as Hi4.
  destruct Hq02 as ((_ & Hs02 & Hd02) & Hc02 & _). split.
  - split; [exact Hi4|]. split.
    + eapply shrinks_trans; [exact Hs02|]. split; try done. unfold work, pending_work. server_simpl.
      pose proof (connections_work_delete _ _ _ Hf2) as He. unfold connections_work in He. lia.
    + cbn. rewrite Hc02. rewrite dom_delete_L. set_solver.
  - cbn. rewrite dom_delete_L. set_solver.
Qed.

Lemma close_or_update_ok h s f c :
  I h s → h_strand h = None → connections_ s !! f = Some c →
  W (close_or_update config f) (λ _ s', closes h s h s') s.
Proof.
  intros Hi Hh Hf. unfold close_or_update. apply wp_bind. apply (connection_ok config _ f c); [done|]. cond_case.
  - eapply wp_mono; [by apply close_connection_ok|]. by intros [] s1 [? _].
  - eapply wp_mono; [by eapply update_interest_ok|]. intros [] s1 Hl. by apply leads_closes.
Qed.
End Loop.
