(* ===== verification/ServerDrain.v ===== *)
(** * Completions

    How the I/O thread applies the completions that the workers deliver, and
    why [drain_completions] ends. *)

From S2P Require Import Prelude Resp Parser ParserCorrect Disk Store StoreInv StoreTheorems Engine.
From S2P Require Import Stats Registry ServerCommands ThreadPool Socket Reactor Server ServerInv ServerSteps.
From S2P Require Import ServerConn ServerLoop.

Section Drain.
Context `{PO : PlatformOk} `{KO : KernelOk} (config : ServerConfig).

Abbreviation I := (inv config).
Abbreviation W := (wp (permitted config)).
Abbreviation C := (conn_ok (cfg_parser_limits config) (cfg_max_output_buffer_bytes config)).

(** ** The search *)

Lemma find_connection_spec i m :
  match find_connection i m with
  | Some (f, c) => m !! f = Some c ∧ id_ c = i
  | None => ∀ f c, m !! f = Some c → id_ c ≠ i
  end.
Proof.
  unfold find_connection. destruct (filter _ (conn_order m)) as [|[f c] l] eqn:E; cbn [head].
  - intros f c Hf Hid.
    assert ((f, c) ∈ filter (λ p : Z * Connection, id_ p.2 = i) (conn_order m)) as Hin.
    { apply list_elem_of_filter. split; [done|]. rewrite conn_order_perm. by apply elem_of_map_to_list. }
    rewrite E in Hin. by apply elem_of_nil in Hin.
  - assert ((f, c) ∈ filter (λ p : Z * Connection, id_ p.2 = i) (conn_order m)) as Hin by (rewrite E; set_solver).
    apply list_elem_of_filter in Hin as [Hid Hin]. rewrite conn_order_perm in Hin.
    by apply elem_of_map_to_list in Hin.
Qed.

(** ** The views of a completion in hand *)

Definition without_done (v : View) : View :=
  {| v_exec := v_exec v; v_jobs := v_jobs v; v_done := []; v_recv := v_recv v; v_sent := v_sent v |}.

Lemma view_of_done limits h s d :
  id_ok limits (conn_view (hold_done d h) s (c_connection d)) →
  v_done (conn_view (hold_done d h) s (c_connection d)) = [d] ∧
  v_jobs (conn_view (hold_done d h) s (c_connection d)) = [] ∧
  (∀ i, conn_view h s i = if decide (i = c_connection d) then without_done (conn_view (hold_done d h) s i)
                          else conn_view (hold_done d h) s i).
Proof.
  intros [Ht _ _ _ _ _]. unfold tokens in Ht. cbn [conn_view v_jobs v_done] in *.
  assert (filter (λ c, c_connection c = c_connection d) (all_done (hold_done d h) s) ≡ₚ
    d :: filter (λ c, c_connection c = c_connection d) (all_done h s)) as Hp.
  { rewrite all_done_hold, filter_cons_True by done. done. }
  rewrite Hp in Ht. cbn in Ht. destruct (filter _ (all_done h s)) as [|] eqn:E; [|cbn in Ht; lia].
  split; [by apply short_perm|]. split; [apply nil_length_inv; lia|].
  intros i. unfold without_done, conn_view. cbn [v_exec v_jobs v_done v_recv v_sent]. case_decide as Hi.
  - subst i. f_equal. done.
  - f_equal. unfold all_done. cbn. rewrite !filter_app. by rewrite (filter_cons_False _ d) by done.
Qed.

Lemma id_ok_without v d :
  id_ok (cfg_parser_limits config) v → v_done v = [d] → id_ok (cfg_parser_limits config) (without_done v).
Proof.
  intros [H1 H2 H3 H4 H5 H6] Hd. split; try done.
  unfold tokens in *. cbn. lia.
Qed.

(** A completion for a connection that is closed is dropped. *)
Lemma inv_drop h s d :
  I (hold_done d h) s → (∀ f c, connections_ s !! f = Some c → id_ c ≠ c_connection d) → I h s.
Proof.
  intros [I1 I2 I3 I4 I5 I6 I7 I8 I9 I10 I11 I12 I13] Hno.
  destruct (view_of_done _ _ _ _ (I1 (c_connection d))) as (Hd & Hj & Hv).
  split; try done.
  - intros i. rewrite Hv. case_decide as Hi; [subst i; by eapply id_ok_without|apply I1].
  - intros f c Hf. rewrite Hv, decide_False by (by eapply Hno). exact (I2 _ _ Hf).
  - intros f c Hf. rewrite Hv, decide_False by (by eapply Hno). exact (I3 _ _ Hf).
  - intros f Hh. destruct (I4 f Hh) as (c & Hf & Ht). exists c. split; [done|].
    by rewrite Hv, decide_False by (by eapply Hno).
  - intros i Hi. rewrite Hv. case_decide as Hid; [|by apply I7]. specialize (I7 i Hi). subst i. by rewrite I7 in Hd.
Qed.

(** ** Applying a response *)

Definition apply_response (d : Completion) (c : Connection) : Connection :=
  let c1 := set_pending (add_response (c_sequence d) (c_payload d) (pending_responses c)) (next_response_seq c) c in
  let c2 := set_inflight (if inflight c1 >? 0 then inflight c1 - 1 else inflight c1) c1 in
  flush_responses config (S (size (pending_responses c2))) c2.

Lemma reply_stream_snoc ts k err r t :
  (k <= r)%nat → ts !! r = Some t → reply_stream ts k err (S r) = reply_stream ts k err r ++ t.
Proof.
  intros Hk Hr. unfold reply_stream. rewrite (take_S_r _ _ _ Hr), drop_app_le by (rewrite length_take; apply lookup_lt_Some in Hr; lia).
  rewrite concat_app. cbn [concat]. by rewrite app_nil_r, !app_assoc.
Qed.

(** The response that is next goes to the output, or chokes the connection. *)
Definition taken (d : Completion) (c : Connection) : Connection :=
  let c1 := set_inflight (inflight c - 1) c in
  if (len (output c) >? cfg_max_output_buffer_bytes config) ||
     (len (c_payload d) >? cfg_max_output_buffer_bytes config - len (output c))
  then set_closed true true (set_pending ∅ (next_response_seq c) c1)
  else set_pending ∅ (next_response_seq c + 1) (set_output (output c ++ c_payload d) c1).

Lemma apply_response_next d c :
  0 < inflight c → pending_responses c = ∅ → c_sequence d = next_response_seq c → apply_response d c = taken d c.
Proof.
  intros Hi Hp Hs. unfold apply_response, taken, add_response.
  cbn [set_pending set_inflight inflight pending_responses].
  rewrite Hp, lookup_empty, Hs. cond_case; [|lia]. rewrite map_size_insert, lookup_empty, map_size_empty.
  cbn [flush_responses set_pending set_inflight pending_responses next_response_seq output]. rewrite lookup_insert_eq.
  cond_case; [done|]. cbn [flush_responses set_pending set_inflight set_output pending_responses next_response_seq].
  rewrite delete_insert_eq, delete_empty. by rewrite lookup_empty.
Qed.

(** A response that is not next waits. *)
Lemma apply_response_wait d c :
  0 < inflight c → pending_responses c !! next_response_seq c = None → c_sequence d ≠ next_response_seq c →
  apply_response d c = set_inflight (inflight c - 1)
    (set_pending (add_response (c_sequence d) (c_payload d) (pending_responses c)) (next_response_seq c) c) ∧
  add_response (c_sequence d) (c_payload d) (pending_responses c) !! next_response_seq c = None.
Proof.
  intros Hi Hp Hs.
  assert (add_response (c_sequence d) (c_payload d) (pending_responses c) !! next_response_seq c = None) as Hn.
  { unfold add_response. destruct (_ !! c_sequence d); [done|]. by rewrite lookup_insert_ne. }
  split; [|done]. unfold apply_response. cbn [set_pending set_inflight inflight pending_responses]. cond_case; [|lia].
  cbn [flush_responses set_pending set_inflight pending_responses next_response_seq]. by rewrite Hn.
Qed.

Lemma conn_ok_taken v c d log q r :
  C v c → v_jobs v = [] → v_done v = [d] → v_exec v = log ++ [(q, r)] → encode r = Ok (c_payload d) →
  next_response_seq c = len log → C (without_done v) (taken d c).
Proof.
  intros [H1 H2 H3 H4 H5 H6 H7 H8 H9 H10] Hj Hd He Henc Hn.
  assert (len (v_exec v) = len log + 1) as El by (rewrite He; len_solve). pose proof (len_nonneg (command_queue c)).
  assert (applied v = len log) as Hap by (unfold applied; rewrite El, Hd; change (len [d]) with 1; lia).
  assert (applied (without_done v) = len log + 1) as Hap'
    by (unfold applied; cbn [without_done v_exec v_done]; rewrite El; change (len (@nil Completion)) with 0; lia).
  assert (inflight c - 1 = len (v_jobs v) + 0 + len (command_queue c)) as Hin
    by (rewrite H3, Hd; change (len [d]) with 1; lia).
  unfold taken. cond_case.
  - split; cbn [set_closed set_pending set_inflight next_request_seq command_queue inflight next_response_seq
      pending_responses closing parser output without_done v_exec v_jobs v_done v_recv v_sent]; rewrite ?Hap'; try done.
    + lia.
    + destruct H7. split; [done|by intros [=]].
    + cbn zeta in *. destruct (closing c); [done|]. by eapply decoded_prefix.
    + destruct H9 as (k & err & Hk & Herr & Hs). exists k, err. split; [done|]. split; [|done].
      destruct Herr as [->|[-> _]]; [by left|by right].
    + pose proof (len_nonneg error_text). destruct (closing c); lia.
  - split; cbn [set_output set_pending set_inflight next_request_seq command_queue inflight next_response_seq
      pending_responses closing parser output without_done v_exec v_jobs v_done v_recv v_sent]; rewrite ?Hap'; try done.
    + lia.
    + lia.
    + destruct H9 as (k & err & Hk & Herr & Hs). exists k, err. split; [lia|]. split; [done|].
      replace (Z.to_nat (next_response_seq c + 1)) with (S (Z.to_nat (next_response_seq c))) by lia.
      rewrite (reply_stream_snoc _ _ _ _ (c_payload d)); [by rewrite app_assoc, Hs|done|].
      rewrite He, texts_app, Hn. unfold len. rewrite Nat2Z.id. rewrite lookup_app_r by (by rewrite length_texts).
      rewrite length_texts, Nat.sub_diag. cbn [texts map lookup list_lookup snd]. unfold text_of. by rewrite Henc.
    + rewrite len_app. pose proof (len_nonneg error_text). destruct (closing c); lia.
Qed.

Lemma conn_ok_apply v c d :
  id_ok (cfg_parser_limits config) v → C v c → v_jobs v = [] → v_done v = [d] →
  C (without_done v) (apply_response d c).
Proof.
  intros Hid Hok Hj Hd. pose proof (id_done _ _ Hid) as Hdone. rewrite Hd in Hdone.
  apply Forall_cons in Hdone as [(log & q & r & He & Hs & Henc) _].
  assert (applied v = len log) as Hap by (unfold applied; rewrite He, Hd; len_solve).
  assert (0 < inflight c) as Hin.
  { rewrite (co_inflight _ _ _ _ Hok), Hd. change (len [d]) with 1. pose proof (len_nonneg (v_jobs v)).
    pose proof (len_nonneg (command_queue c)). lia. }
  destruct (co_response_seq _ _ _ _ Hok) as [Hr0 Hr].
  destruct (decide (next_response_seq c = applied v)) as [Hn|Hn].
  - rewrite apply_response_next; [|done|by eapply co_pending|congruence].
    eapply conn_ok_taken; [done..|congruence].
  - destruct (co_choked _ _ _ _ Hok ltac:(lia)) as [Hcl Hp].
    destruct (apply_response_wait d c Hin Hp ltac:(lia)) as [-> Hnone].
    destruct Hok as [H1 H2 H3 H4 H5 H6 H7 H8 H9 H10].
    assert (applied (without_done v) = len log + 1) as Hap' by (unfold applied; cbn [without_done v_exec v_done]; rewrite He; len_solve).
    split; cbn [set_pending set_inflight next_request_seq command_queue inflight next_response_seq
      pending_responses closing parser output without_done v_exec v_jobs v_done v_recv v_sent]; rewrite ?Hap'; try done.
    + rewrite H3, Hd. change (len [d]) with 1. change (len (@nil Completion)) with 0. lia.
    + lia.
    + lia.
Qed.

Lemma apply_response_fields d c :
  id_ (apply_response d c) = id_ c ∧ command_queue (apply_response d c) = command_queue c ∧
  parser (apply_response d c) = parser c.
Proof.
  unfold apply_response. set (c2 := set_inflight _ _).
  assert (id_ c2 = id_ c ∧ command_queue c2 = command_queue c ∧ parser c2 = parser c) as (<- & <- & <-) by done.
  generalize (S (size (pending_responses c2))) as fuel. clearbody c2. intros fuel. revert c2.
  induction fuel as [|fuel IH]; intros c2; cbn [flush_responses]; [done|].
  destruct (_ !! _); [|done]. cond_case; [done|]. 
  match goal with |- id_ (flush_responses _ _ ?x) = _ ∧ _ => exact (IH x) end.
Qed.

Lemma inv_apply h s f c d :
  I (hold_done d h) s → h_strand h = None → connections_ s !! f = Some c → id_ c = c_connection d →
  I (with_strand (Some f) h) (set_connections (<[f := apply_response d c]> (connections_ s)) s).
Proof.
  intros Hi Hh Hf Hid. pose proof Hi as [I1 I2 I3 I4 I5 I6 I7 I8 I9 I10 I11 I12 I13].
  destruct (view_of_done _ _ _ _ (I1 (c_connection d))) as (Hd & Hj & Hv). rewrite <- Hid in *.
  destruct (apply_response_fields d c) as (Hfid & _ & _).
  set (s' := set_connections _ s). set (h' := with_strand _ h).
  assert (∀ i, conn_view h' s' i = if decide (i = id_ c) then without_done (conn_view (hold_done d h) s i)
                                   else conn_view (hold_done d h) s i) as Hv' by (intros i; rewrite <- Hv; done).
  assert (size (connections_ s') = size (connections_ s)) as Hsz
    by (unfold s'; server_simpl; apply map_size_insert_Some; by rewrite Hf).
  assert (∀ f0 c0, connections_ s' !! f0 = Some c0 →
            (f0 = f ∧ c0 = apply_response d c) ∨ (f0 ≠ f ∧ connections_ s !! f0 = Some c0 ∧ id_ c0 ≠ id_ c)) as Hl.
  { intros f0 c0. unfold s'. cbn. rewrite lookup_insert_Some. intros [[-> <-]|[Hne Hc0]]; [by left|right].
    split_and!; [done|done|]. intros E. by destruct (Hne (I6 _ _ _ _ Hf Hc0 (eq_sym E))). }
  split; try done.
  - intros i. rewrite Hv'. case_decide as E; [subst i; by eapply id_ok_without|apply I1].
  - intros f0 c0 [[-> ->]|(Hne & Hc0 & Hid0)]%Hl; rewrite Hv'.
    + rewrite Hfid, decide_True by done. apply conn_ok_apply; [apply I1|exact (I2 _ _ Hf)|done|done].
    + rewrite decide_False by done. exact (I2 _ _ Hc0).
  - intros f0 c0 [[-> ->]|(Hne & Hc0 & Hid0)]%Hl Hn; [done|]. rewrite Hv', decide_False by done.
    apply (I3 _ _ Hc0). cbn. by rewrite Hh.
  - intros f0 [= <-]. exists (apply_response d c). unfold s'. server_simpl. rewrite lookup_insert_eq. split; [done|].
    fold s'. rewrite Hv', Hfid, decide_True by done. unfold tokens. cbn [without_done v_jobs v_done]. by rewrite Hj.
  - intros f0 c0 [[-> ->]|(Hne & Hc0 & Hid0)]%Hl; [rewrite Hfid; exact (I5 _ _ Hf)|exact (I5 _ _ Hc0)].
  - intros f0 f1 c0 c1 [[-> ->]|(Hne & Hc0 & Hid0)]%Hl [[-> ->]|(Hne' & Hc1 & Hid1)]%Hl; rewrite ?Hfid; try done.
    by apply I6.
  - intros i Hn. rewrite Hv'. case_decide as E; [|by apply I7]. specialize (I5 _ _ Hf). unfold s' in Hn. cbn in Hn. lia.
  - by rewrite Hsz.
  - destruct I10 as (st & ? & ? & ?). exists st. by rewrite Hsz.
Qed.

(** ** The functions *)

Lemma contains_ok (Q : bool → Server → Prop) f c s :
  connections_ s !! f = Some c → Q true s → W (contains f) Q s.
Proof. intros Hf HQ. unfold contains. apply wp_gets. by rewrite bool_decide_eq_true_2 by (by eexists). Qed.

(** The end of [apply_completion]: the strand goes on or ends. *)
Lemma continue_strand_ok h s f c :
  I h s → h_strand h = Some f → connections_ s !! f = Some c →
  W (match command_queue c with _ :: _ => launch_strand config f | [] => update f (set_strand [] false) end)
    (λ _ s', leads config h s (with_strand None h) s') s.
Proof.
  intros Hi Hh Hf. pose proof (launch_strand_ok config h s f c Hi Hh Hf) as Hl.
  destruct (command_queue c) as [|item queue] eqn:Hq.
  - unfold launch_strand in Hl. unfold wp, exec_bind, connection in Hl. rewrite Hf, Hq in Hl.
    apply wp_modify. unfold update, modify in Hl. by destruct Hl as [? _].
  - eapply wp_mono; [exact Hl|]. by intros [] s' [? _].
Qed.

(** The second half, with the strand in hand. *)
Lemma finish_completion_ok h s f c :
  I (with_strand (Some f) h) s → h_strand h = None → connections_ s !! f = Some c →
  W (do! now := steady_now in
     update f (touch now) ;;
     do! c := connection f in
     (if bool_decide (output c = []) then ret tt else write_connection f) ;;
     do! present := contains f in
     if negb present then ret tt
     else
       do! c := connection f in
       (match command_queue c with
        | _ :: _ => launch_strand config f
        | [] => update f (set_strand [] false)
        end) ;;
       close_or_update config f)
    (λ _ s', closes config (with_strand (Some f) h) s h s') s.
Proof.
  intros Hi Hh Hf. set (h1 := with_strand (Some f) h) in *. assert (with_strand None h1 = h) as Eh
    by (destruct h; cbn in *; by subst).
  eapply wp_seq; [by apply steady_now_ok|]. intros now s1 (Hq1 & _ & _).
  pose proof (quiet_conn _ _ _ _ _ _ _ Hq1 Hf) as Hf1.
  eapply wp_seq; [apply (touch_ok config h1 s1 f c now); [apply Hq1|by right|done]|]. intros [] s2 (Hl2 & Hf2 & _).
  apply wp_bind. apply (connection_ok config _ f (touch now c)); [done|].
  eapply (wp_seq _ _ _ (λ _ s', leads config h1 s h1 s')).
  { assert (leads config h1 s h1 s2) as Hl02 by (eapply leads_trans; [apply quiet_leads, Hq1|exact Hl2]).
    case_bool_decide; [by apply wp_ret|]. eapply wp_mono; [apply (write_connection_ok config h1 s2 f (touch now c));
      [apply Hl2|by right|done]|]. intros [] s3 Hl3. by eapply leads_trans. }
  intros [] s3 Hl3. destruct (leads_live _ _ _ _ _ _ _ Hl3 Hf) as [c3 Hf3].
  apply wp_bind. apply (contains_ok _ f c3); [done|]. cbn [negb].
  apply wp_bind. apply (connection_ok config _ f c3); [done|].
  eapply wp_seq; [apply (continue_strand_ok h1 s3 f c3); [apply Hl3|done|done]|]. intros [] s4 Hl4. rewrite Eh in Hl4.
  destruct (leads_live _ _ _ _ _ _ _ Hl4 Hf3) as [c4 Hf4].
  eapply wp_mono; [apply (close_or_update_ok config h s4 f c4); [apply Hl4|done|done]|]. intros [] s5 Hl5.
  eapply closes_trans; [|exact Hl5]. apply leads_closes. by eapply leads_trans.
Qed.

(** From [s] something was done: the work is less than before. *)
Definition progresses (h : Hold) (s : Server) (h' : Hold) (s' : Server) : Prop :=
  closes config h s h' s' ∧ (work h' s' < work h s)%nat.

Lemma apply_completion_ok h s d :
  I (hold_done d h) s → h_strand h = None →
  W (apply_completion config d) (λ _ s', progresses (hold_done d h) s h s') s.
Proof.
  intros Hi Hh. unfold apply_completion. apply wp_bind, wp_gets.
  assert (work h s < work (hold_done d h) s)%nat as Hw by (unfold work; cbn; lia).
  pose proof (find_connection_spec (c_connection d) (connections_ s)) as Hfind.
  destruct (find_connection _ _) as [[f c]|].
  2: { apply wp_ret. split; [|done]. split; [by eapply inv_drop|]. split; [split; try done; lia|done]. }
  destruct Hfind as [Hf Hid].
  eapply wp_seq; [by apply on_stats_ok|]. intros [] s1 [Hq1 _].
  pose proof (quiet_conn _ _ _ _ _ _ _ Hq1 Hf) as Hf1.
  do 3 (apply wp_bind, wp_modify). server_simpl. rewrite (alter_known _ _ _ _ Hf1).
  rewrite (alter_known (<[f := _]> (connections_ s1)) f _ _ (lookup_insert_eq _ _ _)), insert_insert_eq.
  rewrite (alter_known (<[f := _]> (connections_ s1)) f _ _ (lookup_insert_eq _ _ _)), insert_insert_eq.
  match goal with |- wp _ _ _ ?st => change st with
    (set_connections (<[f := apply_response d c]> (connections_ s1)) s1) end.
  set (s2 := set_connections _ s1).
  pose proof (inv_apply h s1 f c d (proj1 (proj1 Hq1)) Hh Hf1 Hid) as Hi2. fold s2 in Hi2.
  eapply wp_mono; [apply (finish_completion_ok h s2 f (apply_response d c)); [done|done|]|].
  { unfold s2. server_simpl. by rewrite lookup_insert_eq. }
  intros [] s3 (Hi3 & Hs3 & Hd3).
  assert (shrinks (hold_done d h) s1 (with_strand (Some f) h) s2 ∧
          (work (with_strand (Some f) h) s2 < work (hold_done d h) s1)%nat) as [Hs2 Hw2].
  { destruct (apply_response_fields d c) as (_ & Eq & Ep).
    assert (work (with_strand (Some f) h) s2 < work (hold_done d h) s1)%nat as Hlt.
    { unfold work, pending_work, s2. server_simpl. cbn [with_strand h_jobs h_done length].
      pose proof (connections_work_insert _ _ _ (apply_response d c) Hf1) as He. unfold connections_work in He.
      assert (connection_work (apply_response d c) = connection_work c) as Ew
        by (unfold connection_work; by rewrite Eq, Ep). lia. }
    split; [|done]. split; try done. lia. }
  destruct Hq1 as ((_ & Hs1 & Hd1) & _ & _). split.
  - split; [done|]. split; [by do 2 (eapply shrinks_trans; [eassumption|])|].
    rewrite Hd3. unfold s2. server_simpl. rewrite (dom_update s1 f c _ Hf1). by rewrite Hd1.
  - destruct Hs1 as [Hw1 _ _ _ _ _]. destruct Hs3 as [Hw3 _ _ _ _ _]. lia.
Qed.
End Drain.
