(* ===== verification/ServerRun.v ===== *)
(** * The event loop

    The functions of the I/O thread above [apply_completion], up to [run]. *)

From S2P Require Import Prelude Resp Parser ParserCorrect Disk Store StoreInv StoreTheorems Engine.
From S2P Require Import Stats Registry ServerCommands ThreadPool Socket Reactor Server ServerInv ServerSteps.
From S2P Require Import ServerConn ServerLoop ServerDrain.

(** The numbers of the configuration that are unsigned in the code. *)
Record config_ok (config : ServerConfig) : Prop := {
  config_connections : 0 <= cfg_max_connections config;
  config_output : 0 <= cfg_max_output_buffer_bytes config;
  config_shards : 0 <= cfg_shards config;
}.

Section Run.
Context `{PO : PlatformOk} `{KO : KernelOk} (config : ServerConfig) (listener : Z).

Abbreviation I := (inv config).
Abbreviation W := (wp (permitted config)).
Abbreviation C := (conn_ok (cfg_parser_limits config) (cfg_max_output_buffer_bytes config)).

Context (Hconfig : config_ok config).

(** ** Draining the completions *)

(** The completions that the I/O thread took off the queue. *)
Definition holding (local : list Completion) : Hold := {| h_jobs := []; h_done := local; h_strand := None |}.

Lemma progresses_trans h1 s1 h2 s2 h3 s3 :
  progresses config h1 s1 h2 s2 → closes config h2 s2 h3 s3 → progresses config h1 s1 h3 s3.
Proof.
  intros [Hc Hw] Hc'. split; [by eapply closes_trans|]. destruct Hc' as (_ & [Hw' _ _ _ _] & _). lia.
Qed.

Lemma apply_completions_ok local : ∀ s,
  I (holding local) s →
  W (apply_completions config local) (λ _ s',
    closes config (holding local) s empty_hand s' ∧
    (local ≠ [] → (work empty_hand s' < work (holding local) s)%nat)) s.
Proof.
  induction local as [|d local IH]; intros s Hi; cbn [apply_completions].
  { apply wp_ret. split; [by apply closes_refl|done]. }
  eapply wp_seq; [by apply (apply_completion_ok config (holding local) s d)|]. intros [] s1 Hp1.
  eapply wp_mono; [apply IH, Hp1|]. intros [] s2 [Hc2 _].
  pose proof (progresses_trans _ _ _ _ _ _ Hp1 Hc2) as [Hc Hw]. done.
Qed.

(** The completions change hands. *)
Lemma take_completions_ok s :
  I empty_hand s → leads config empty_hand s (holding (completions_ s)) (set_completions [] s).
Proof.
  intros Hi. apply quiet_leads, quiet_frame; try done.
  - unfold all_done. server_simpl. cbn. by rewrite app_nil_r.
  - unfold work, pending_work. server_simpl. cbn. lia.
Qed.

Lemma drain_loop_ok fuel : ∀ s,
  I empty_hand s → (work empty_hand s < fuel)%nat →
  W (drain_loop config fuel) (λ _ s', closes config empty_hand s empty_hand s') s.
Proof.
  induction fuel as [|fuel IH]; intros s Hi Hf; [lia|]. cbn [drain_loop].
  eapply wp_seq; [by apply yield_ok|]. intros [] s1 [Hl1 _]. apply wp_bind, wp_gets. apply wp_bind, wp_modify.
  pose proof (take_completions_ok s1 (proj1 Hl1)) as Hl2.
  destruct (completions_ s1) as [|d local] eqn:El.
  - apply wp_ret, leads_closes. by eapply leads_trans.
  - eapply wp_seq; [apply apply_completions_ok, Hl2|]. intros [] s3 [Hc3 Hw3]. specialize (Hw3 ltac:(done)).
    assert (closes config empty_hand s empty_hand s3) as Hc03.
    { eapply closes_trans; [|exact Hc3]. apply leads_closes. by eapply leads_trans. }
    eapply wp_mono; [apply IH; [apply Hc3|]|].
    + destruct Hl1 as (_ & [Hw1 _ _ _ _ _] & _), Hl2 as (_ & [Hw2 _ _ _ _ _] & _). lia.
    + intros [] s4 Hc4. by eapply closes_trans.
Qed.

Lemma drain_completions_ok s :
  I empty_hand s → W (drain_completions config) (λ _ s', closes config empty_hand s empty_hand s') s.
Proof.
  intros Hi. unfold drain_completions. apply wp_bind, wp_gets. apply drain_loop_ok; [done|]. unfold work. cbn. lia.
Qed.

(** ** Accepting *)

(** From [s] on, with any connections open. *)
Definition goes (s s' : Server) : Prop := I empty_hand s' ∧ shrinks empty_hand s empty_hand s'.

Lemma goes_trans s1 s2 s3 : goes s1 s2 → goes s2 s3 → goes s1 s3.
Proof. intros [_ Hs] [Hi' Hs']. split; [done|]. by eapply shrinks_trans. Qed.
Lemma goes_refl s : I empty_hand s → goes s s.
Proof. intros Hi. split; [done|apply shrinks_refl]. Qed.
Lemma closes_goes s s' : closes config empty_hand s empty_hand s' → goes s s'.
Proof. by intros (? & ? & _). Qed.
Lemma leads_goes s s' : leads config empty_hand s empty_hand s' → goes s s'.
Proof. by intros (? & ? & _). Qed.
Lemma quiet_goes s s' : quiet config empty_hand s empty_hand s' → goes s s'.
Proof. intros [Hl _]. by apply leads_goes. Qed.

Definition accepted_connection (f i now : Z) (st : Stats) (s : Server) : Server :=
  set_context (set_stats (on_accept st) (context s))
    (happen (did_accept i)
      (set_connections (<[f := new_connection i (cfg_parser_limits config) now]> (connections_ s))
        (set_next_id (i + 1) s))).

(** A connection that has no history yet. *)
Lemma conn_ok_new i now :
  C (Build_View [] [] [] [] []) (new_connection i (cfg_parser_limits config) now).
Proof.
  destruct Hconfig as [_ Hout _]. split; cbn; try done.
  - exact (decoded_start (cfg_parser_limits config)).
  - exists 0%nat, []. split; [lia|]. split; [by left|done].
  - change (len (@nil Byte.byte)) with 0. lia.
Qed.

Lemma inv_accept f now st s :
  I empty_hand s → f ∉ dom (connections_ s) → Z.of_nat (size (connections_ s)) < cfg_max_connections config →
  stats (context s) = Some st →
  I empty_hand (accepted_connection f (next_connection_id_ s) now st s).
Proof.
  intros [I1 I2 I3 I4 I5 I6 I7 I8 I9 I10 I11 I12 I13] Hf%not_elem_of_dom Hsize Est.
  set (i := next_connection_id_ s) in *. set (c := new_connection i (cfg_parser_limits config) now).
  set (s' := accepted_connection _ _ _ _ _).
  assert (∀ j, conn_view empty_hand s' j = conn_view empty_hand s j) as Hv.
  { intros j. unfold conn_view, s', accepted_connection. server_simpl. rewrite executed_app, received_app, sent_app.
    unfold executed at 2, received at 2, sent at 2. cbn [omap list_omap concat]. by rewrite !app_nil_r. }
  assert (∀ f0 c0, connections_ s' !! f0 = Some c0 →
            (f0 = f ∧ c0 = c) ∨ (f0 ≠ f ∧ connections_ s !! f0 = Some c0)) as Hl.
  { intros f0 c0. unfold s', accepted_connection. server_simpl. rewrite lookup_insert_Some. naive_solver. }
  assert (size (connections_ s') = S (size (connections_ s))) as Hsz.
  { unfold s', accepted_connection. server_simpl. by rewrite map_size_insert_None. }
  assert (conn_view empty_hand s i = Build_View [] [] [] [] []) as Hnew by (apply I7; unfold i; lia).
  split; try done.
  - intros j. by rewrite Hv.
  - intros f0 c0 [[-> ->]|[Hne Hc0]]%Hl; rewrite Hv; [|exact (I2 _ _ Hc0)]. cbn [id_ c new_connection]. rewrite Hnew. apply conn_ok_new.
  - intros f0 c0 [[-> ->]|[Hne Hc0]]%Hl Hh; rewrite Hv; [|exact (I3 _ _ Hc0 Hh)]. cbn [id_ c new_connection]. by rewrite Hnew.
  - intros f0 c0 [[-> ->]|[Hne Hc0]]%Hl; cbn; [unfold i; lia|]. specialize (I5 _ _ Hc0). unfold i. lia.
  - intros f0 f1 c0 c1 [[-> ->]|[Hne Hc0]]%Hl [[-> ->]|[Hne' Hc1]]%Hl; cbn; try done.
    + intros E. specialize (I5 _ _ Hc1). unfold i in E. lia.
    + intros E. specialize (I5 _ _ Hc0). unfold i in E. lia.
    + by apply I6.
  - intros j. cbn. intros Hj. rewrite Hv. apply I7. unfold i in Hj. lia.
  - cbn. unfold i. lia.
  - rewrite Hsz. lia.
  - destruct I10 as (st0 & E0 & Ha & Hb). assert (st0 = st) as -> by congruence.
    exists (on_accept st). split; [done|]. cbn [on_accept active_connections_ accepted_connections_].
    rewrite Ha, Hb, Hsz. unfold u64. rewrite !Zplus_mod_idemp_l. split; f_equal; cbn; unfold i; lia.
Qed.

Lemma pop_ok_ok h s : I h s → W pop_ok (λ _ s', quiet config h s h s' ∧ trace s' = trace s) s.
Proof. intros Hi. unfold pop_ok. by apply pop_quiet. Qed.

Lemma checked_ok operation h s : I h s → W (checked operation) (λ _ s', quiet config h s h s') s.
Proof.
  intros Hi. unfold checked. eapply wp_seq; [by apply pop_ok_ok|]. intros b s1 [Hq _].
  destruct b; [by apply wp_ret|]. apply wp_raise. eapply inv_permitted; [apply Hq|done..].
Qed.

(** The common end of the handlers. *)
Lemma close_if_present_ok f s0 s :
  goes s0 s →
  W (do! present := contains f in if present then close_or_update config f else ret tt) (λ _ s', goes s0 s') s.
Proof.
  intros Hg. unfold contains. apply wp_bind, wp_gets. case_bool_decide as Hp; [|by apply wp_ret].
  destruct Hp as [c Hf]. eapply wp_mono; [eapply close_or_update_ok; [apply Hg|done|done]|].
  intros [] s1 Hc. eapply goes_trans; [exact Hg|]. by apply closes_goes.
Qed.

(** The part of [accept_ready] that registers the new connection. *)
Lemma add_connection_ok s :
  I empty_hand s → Z.of_nat (size (connections_ s)) < cfg_max_connections config →
  W (add_connection config listener) (λ _ s', goes s s') s.
Proof.
  intros Hi Hsize. unfold add_connection.
  eapply wp_seq; [by apply checked_ok|]. intros [] s1 Hq1.
  eapply wp_seq; [apply checked_ok, Hq1|]. intros [] s2 Hq2.
  assert (quiet config empty_hand s empty_hand s2) as Hq by (by eapply quiet_trans). clear Hq1 Hq2.
  pose proof (proj1 (proj1 Hq)) as Hi2. rewrite <- (proj1 (proj2 Hq)) in Hsize.
  destruct (inv_stats _ _ _ Hi2) as (st & Est & _).
  apply wp_bind, wp_gets. apply wp_bind, wp_modify. apply wp_bind. unfold steady_now, pop, wp at 1.
  set (now := default 0 _). clearbody now. apply wp_bind, wp_gets. server_simpl.
  set (f := new_descriptor _). assert (f ∉ dom (connections_ s2)) as Hf.
  { pose proof (new_descriptor_fresh (dom (connections_ s2) ∪ {[ listener ]})) as Hn. unfold f. set_solver. }
  clearbody f. apply wp_bind. unfold pop_kev, pop, wp at 1. set (fails := default None _). clearbody fails.
  apply wp_bind. unfold on_reactor at 1, zoom, wp at 1. server_simpl.
  destruct (reactor_add fails f interest_read (reactor_ s2)) as [[[]|e] r] eqn:Er.
  2: { destruct (apply_interest_throws _ _ _ _ _ _ Er) as [operation ->]. eapply inv_permitted; [exact Hi2|done..]. }
  apply wp_bind, wp_modify. apply wp_bind, wp_modify. apply wp_bind. unfold on_stats. apply wp_modify. server_simpl.
  rewrite Est. set (s2' := set_reactor r (set_script (with_kevs (tail (kevs (script s2)))
    (with_nows (tail (nows (script s2))) (script s2))) s2)).
  match goal with |- wp _ _ _ ?st0 => change st0 with (accepted_connection f (next_connection_id_ s2') now st s2') end.
  assert (I empty_hand s2') as Hi2' by (eapply inv_reactor; by apply inv_script).
  pose proof (inv_accept f now st s2' Hi2' Hf Hsize Est) as Hi3. set (s3 := accepted_connection _ _ _ _ _) in *.
  assert (goes s s3) as Hg3.
  { eapply goes_trans; [by apply quiet_goes|]. split; [done|]. split; try done.
    apply not_elem_of_dom in Hf. unfold work, pending_work, s3, accepted_connection, s2'. server_simpl.
    pose proof (connections_work_new _ _ (new_connection (next_connection_id_ s2) (cfg_parser_limits config) now) Hf) as He.
    unfold connections_work in He. rewrite He. done. }
  assert (connections_ s3 !! f = Some (new_connection (next_connection_id_ s2') (cfg_parser_limits config) now)) as Hf3
    by (unfold s3, accepted_connection; server_simpl; by rewrite lookup_insert_eq).
  eapply wp_seq; [by eapply read_connection_ok|]. intros [] s4 Hl4.
  eapply wp_seq; [apply drain_completions_ok, Hl4|]. intros [] s5 Hc5.
  assert (goes s s5) as Hg5 by (do 2 (eapply goes_trans; [eassumption || by apply leads_goes|]); by apply closes_goes).
  by apply close_if_present_ok.
Qed.

(** The flag is read off the script, which gets shorter unless it is set. *)
Lemma stopping_ok s :
  I empty_hand s →
  W stopping (λ b s', goes s s' ∧ connections_ s' = connections_ s ∧ accepts (script s') = accepts (script s) ∧
    (b = false → (length (stops (script s')) < length (stops (script s)))%nat)) s.
Proof.
  intros Hi. unfold stopping, wp, pop. split; [|split; [done|split; [done|]]].
  - split; [by apply inv_script|]. split; try done. cbn. destruct (stops (script s)); cbn; lia.
  - cbn. destruct (stops (script s)); cbn; [done|lia].
Qed.

Lemma listener_accept_ok s :
  I empty_hand s →
  W listener_accept (λ b s', goes s s' ∧ connections_ s' = connections_ s ∧
    (b = true → (length (accepts (script s')) < length (accepts (script s)))%nat)) s.
Proof.
  intros Hi. unfold listener_accept. eapply wp_seq.
  { eapply (wp_and _ _ (λ _ _, True) _ (λ _ s', accepts (script s') = accepts (script s))); [by apply pop_ok_ok|done]. }
  intros configured s1 [[Hq _] Ha]. pose proof (proj1 (proj1 Hq)) as Hi1. unfold wp.
  destruct (try_accept configured (accepts (script s1))) as [r rest] eqn:E. apply try_accept_spec in E as [Hle Hr].
  destruct r as [b|e]; [|destruct Hr as [operation ->]; eapply inv_permitted; [exact Hi1|done..]]. split; [|split].
  - eapply goes_trans; [by apply quiet_goes|]. split; [by apply inv_script|]. by split.
  - apply Hq.
  - intros ->. cbn. by rewrite <- Ha.
Qed.

Lemma accept_loop_ok fuel : ∀ s,
  I empty_hand s → (length (accepts (script s)) < fuel)%nat →
  W (accept_loop config listener fuel) (λ _ s', goes s s') s.
Proof.
  induction fuel as [|fuel IH]; intros s Hi Hf; [lia|]. cbn [accept_loop].
  eapply wp_seq; [by apply stopping_ok|]. intros stop s1 (Hg1 & Hc1 & Ha1 & _).
  destruct stop; [by apply wp_ret|]. apply wp_bind, wp_gets. cond_case; [by apply wp_ret|].
  eapply wp_seq; [apply listener_accept_ok, Hg1|]. intros accepted s2 (Hg2 & Hc2 & Ha2).
  destruct accepted; cbn [negb]; [|apply wp_ret; by eapply goes_trans]. specialize (Ha2 eq_refl).
  eapply wp_seq; [apply add_connection_ok; [apply Hg2|rewrite Hc2; lia]|]. intros [] s3 Hg3.
  eapply wp_mono; [apply IH; [apply Hg3|]|].
  - destruct Hg3 as [_ [_ _ _ Ha3 _ _]]. rewrite Ha1 in Ha2. lia.
  - intros [] s4 Hg4. eapply goes_trans; [|exact Hg4]. eapply goes_trans; [|exact Hg3]. by eapply goes_trans.
Qed.

Lemma accept_ready_ok s : I empty_hand s → W (accept_ready config listener) (λ _ s', goes s s') s.
Proof. intros Hi. unfold accept_ready. apply wp_bind, wp_gets. apply accept_loop_ok; [done|lia]. Qed.

(** ** Events *)

(** A test for the connection, and what is done when it is there. *)
Lemma if_present_ok f (m : Exec Server unit) s0 s :
  goes s0 s → (∀ c, connections_ s !! f = Some c → W m (λ _ s', goes s0 s') s) →
  W (do! present := contains f in if negb present then ret tt else m) (λ _ s', goes s0 s') s.
Proof.
  intros Hg Hm. unfold contains. apply wp_bind, wp_gets. case_bool_decide as Hp; [|by apply wp_ret].
  destruct Hp as [c Hf]. by eapply Hm.
Qed.

(** A part of a handler that may be left out. *)
Lemma optional_ok (b : bool) f c (m : Exec Server unit) s0 s :
  goes s0 s → connections_ s !! f = Some c → W m (λ _ s', goes s0 s') s →
  W (if b then m ;; contains f else ret true)
    (λ present s', goes s0 s' ∧ (present = true → is_Some (connections_ s' !! f))) s.
Proof.
  intros Hg Hf Hm. destruct b; [|apply wp_ret; by split]. eapply wp_seq; [exact Hm|]. intros [] s1 Hg1.
  unfold contains. apply wp_gets. split; [done|]. by intros ?%bool_decide_eq_true.
Qed.

Lemma handle_connection_event_ok event s :
  I empty_hand s → W (handle_connection_event config event) (λ _ s', goes s s') s.
Proof.
  intros Hi. unfold handle_connection_event. pose proof (goes_refl s Hi) as Hg0.
  apply if_present_ok; [done|]. intros c Hf. destruct (error event).
  { eapply wp_mono; [by apply close_connection_ok|]. intros [] s1 [Hc _]. by apply closes_goes. }
  eapply wp_seq.
  { unshelve epose proof (optional_ok (has_interest (ready event) interest_read || hangup event) (fd event) c
      (read_connection config (fd event) ;; drain_completions config) s s Hg0 Hf _) as Hopt.
    - eapply wp_seq; [by eapply read_connection_ok|]. intros [] s1 Hl1.
      eapply wp_mono; [apply drain_completions_ok, Hl1|]. intros [] s2 Hc2.
      eapply goes_trans; [by apply leads_goes|by apply closes_goes].
    - destruct (_ || _); [|exact Hopt]. apply wp_assoc. exact Hopt. }
  intros present1 s1 [Hg1 Hp1]. destruct present1; cbn [negb]; [|by apply wp_ret]. destruct (Hp1 eq_refl) as [c1 Hf1].
  eapply wp_seq.
  { apply (optional_ok _ (fd event) c1 (write_connection (fd event)) s s1); [done|done|].
    eapply wp_mono; [eapply write_connection_ok; [apply Hg1|by left|done]|]. intros [] s2 Hl2.
    eapply goes_trans; [exact Hg1|by apply leads_goes]. }
  intros present2 s2 [Hg2 Hp2]. destruct present2; cbn [negb]; [|by apply wp_ret]. destruct (Hp2 eq_refl) as [c2 Hf2].
  eapply wp_mono; [eapply close_or_update_ok; [apply Hg2|done|done]|]. intros [] s3 Hc3.
  eapply goes_trans; [exact Hg2|by apply closes_goes].
Qed.

Lemma handle_events_ok events : ∀ s, I empty_hand s → W (handle_events config listener events) (λ _ s', goes s s') s.
Proof.
  induction events as [|event events IH]; intros s Hi; cbn [handle_events]; [by apply wp_ret, goes_refl|].
  eapply (wp_seq _ _ _ (λ _ s', goes s s')).
  - cond_case; [by apply accept_ready_ok|by apply handle_connection_event_ok].
  - intros [] s1 Hg1. eapply wp_mono; [apply IH, Hg1|]. intros [] s2 Hg2. by eapply goes_trans.
Qed.

(** ** Housekeeping *)

Lemma pop_env_ok h s : I h s → W pop_env (λ _ s', quiet config h s h s' ∧ trace s' = trace s) s.
Proof. intros Hi. unfold pop_env. by apply pop_quiet. Qed.

Lemma pop_rand_ok s : I empty_hand s → W pop_rand (λ rand s', rand_ok rand ∧ quiet config empty_hand s empty_hand s') s.
Proof.
  intros Hi. unfold pop_rand. eapply wp_mono.
  - eapply (wp_and _ _ (λ _ _, True) _ (λ rand _, rand_ok rand)).
    + apply pop_quiet; [done|]. cbn. split_and!; [done|done|done|by destruct (rands (script s)); set_solver|done].
    + unfold wp, pop. pose proof (inv_rands _ _ _ Hi) as Hr. destruct (rands (script s)) as [|r l]; cbn.
      * intros i attempt n Hn. exact Hn.
      * by apply Forall_cons in Hr as [Hr _].
  - by intros rand s1 [[Hq _] Hr].
Qed.

(** A change of the context alone. *)
Lemma context_goes s ctx :
  I empty_hand s → context_ok (stats (context s)) ctx → goes s (set_context ctx s).
Proof. intros Hi Hc. split; [by apply inv_context|by split]. Qed.

Lemma expire_ok rand clk s :
  I empty_hand s → rand_ok rand →
  W (λ s, match active_expire_cycle rand clk (store (world (context s))) 20 with
          | None => (Throw (undefined_behaviour "iterator past the end"), s)
          | Some (n, st) => (Ok n, set_context (set_world (set_store st (world (context s))) (context s)) s)
          end) (λ _ s', goes s s') s.
Proof.
  intros Hi Hr. unfold wp.
  destruct (active_expire_ok rand clk _ 20 Hr (proj1 (inv_store _ _ _ Hi))) as (n & st & -> & Hwf & _).
  apply context_goes; [done|]. destruct (inv_store _ _ _ Hi) as [_ Hn]. by split.
Qed.

Lemma expire_cycle_ok s : I empty_hand s → W expire_cycle (λ _ s', goes s s') s.
Proof.
  intros Hi. unfold expire_cycle. eapply wp_seq; [by apply pop_env_ok|]. intros env s1 [Hq1 _].
  eapply wp_seq; [apply pop_rand_ok, Hq1|]. intros rand s2 [Hr Hq2].
  eapply wp_mono; [apply expire_ok; [apply Hq2|done]|]. intros n s3 Hg3.
  eapply goes_trans; [by apply quiet_goes|]. eapply goes_trans; [by apply quiet_goes|done].
Qed.

Lemma run_active_expiry_ok s : I empty_hand s → W (run_active_expiry config) (λ _ s', goes s s') s.
Proof.
  intros Hi. unfold run_active_expiry. cond_case; [by apply wp_ret, goes_refl|].
  eapply wp_seq; [by apply steady_now_ok|]. intros now s1 (Hq1 & _). pose proof (quiet_goes _ _ Hq1) as Hg1.
  apply wp_bind, wp_gets. cond_case; [by apply wp_ret|]. apply wp_bind, wp_modify.
  set (s2 := set_expiry_tick _ s1). assert (goes s s2) as Hg2.
  { eapply goes_trans; [exact Hg1|]. apply quiet_goes. apply quiet_frame; try done. apply Hg1. }
  eapply wp_seq; [apply expire_cycle_ok, Hg2|]. intros expired s5 Hg5.
  assert (goes s s5) as Hg05 by (by eapply goes_trans).
  cond_case; [|by apply wp_ret]. eapply wp_mono; [apply (on_stats_ok config (add_expired_keys expired) empty_hand s5); [apply Hg5|done]|].
  intros [] s6 [Hq6 _]. eapply goes_trans; [exact Hg05|by apply quiet_goes].
Qed.

Lemma close_all_ok fds : ∀ s,
  I empty_hand s →
  W (close_all fds) (λ _ s', closes config empty_hand s empty_hand s' ∧ (∀ f, f ∈ fds → f ∉ dom (connections_ s'))) s.
Proof.
  induction fds as [|f fds IH]; intros s Hi; cbn [close_all].
  { apply wp_ret. split; [by apply closes_refl|set_solver]. }
  eapply wp_seq; [by apply close_connection_ok|]. intros [] s1 [Hc1 Hn1].
  eapply wp_mono; [apply IH, Hc1|]. intros [] s2 [Hc2 Hn2]. split; [by eapply closes_trans|].
  destruct Hc2 as (_ & _ & Hd2). intros f0 [->|Hf0]%elem_of_cons; [|by apply Hn2]. set_solver.
Qed.

Lemma close_idle_ok s : I empty_hand s → W (close_idle_connections config) (λ _ s', goes s s') s.
Proof.
  intros Hi. unfold close_idle_connections. cond_case; [by apply wp_ret, goes_refl|].
  eapply wp_seq; [by apply steady_now_ok|]. intros now s1 (Hq1 & _). apply wp_bind, wp_gets.
  eapply wp_mono; [apply close_all_ok, Hq1|]. intros [] s2 [Hc2 _].
  eapply goes_trans; [by apply quiet_goes|by apply closes_goes].
Qed.

Lemma take_snapshot_ok s : I empty_hand s → W (take_snapshot config) (λ _ s', goes s s') s.
Proof.
  intros Hi. unfold take_snapshot. apply wp_bind, wp_gets.
  destruct (persistence (context s)) eqn:Hp; [|by apply wp_ret, goes_refl].
  unfold snapshot_step, pop_env, steady_now, pop. do 3 (apply wp_bind; unfold wp at 1). server_simpl.
  match goal with |- wp _ (ignore_errors (zoom _ _ (zoom _ _ (maybe_snapshot _ (env_os ?e) _ ?t ?t')))) _ ?st =>
    generalize e, t, t'; intros env now after; set (s1 := st) end.
  assert (goes s s1) as Hg1 by (split; [change s1 with (set_script (script s1) s); by apply inv_script|by split]).
  pose proof (snapshot_context (cfg_persistence config) (env_os env) (env_clk env) now after (stats (context s1))) as Hpre.
  assert (context_ok (stats (context s1)) (context s1) ∧ persistence (context s1) = true) as Hc1
    by (split; [split; [done|apply Hg1]|done]).
  destruct (Hpre _ Hc1) as [[Hctx _] He]. unfold wp. rewrite ignored; unfold zoom at 1;
    destruct (zoom world set_world _ (context s1)) as [r ctx]; [|done]. cbn [snd] in Hctx |- *.
  eapply goes_trans; [exact Hg1|]. apply context_goes; [apply Hg1|done].
Qed.

(** ** The loop *)

Lemma iterate_ok events s : I empty_hand s → W (iterate config listener events) (λ _ s', goes s s') s.
Proof.
  intros Hi. unfold iterate.
  eapply wp_seq; [by apply drain_completions_ok|]. intros [] s1 Hc1%closes_goes.
  eapply wp_seq; [apply handle_events_ok, Hc1|]. intros [] s2 Hg2.
  eapply wp_seq; [apply drain_completions_ok, Hg2|]. intros [] s3 Hc3%closes_goes.
  eapply wp_seq; [apply run_active_expiry_ok, Hc3|]. intros [] s4 Hg4.
  eapply wp_seq; [apply close_idle_ok, Hg4|]. intros [] s5 Hg5.
  eapply wp_seq; [apply take_snapshot_ok, Hg5|]. intros [] s6 Hg6. apply wp_bind, wp_gets.
  eapply wp_mono; [apply (on_stats_ok config (set_used_memory _) empty_hand s6); [apply Hg6|done]|].
  intros [] s7 [Hq7%quiet_goes _]. do 5 (eapply goes_trans; [eassumption|]). by eapply goes_trans.
Qed.

Lemma wait_timeout_ok s : I empty_hand s → W (wait_timeout config) (λ _ s', goes s s') s.
Proof.
  intros Hi. unfold wait_timeout. cond_case; [|by apply wp_ret, goes_refl].
  eapply wp_seq; [by apply steady_now_ok|]. intros now s1 [Hq1 _]. apply wp_bind, wp_gets. by apply wp_ret, quiet_goes.
Qed.

Lemma kernel_wait_ok timeout s : I empty_hand s → W (kernel_wait timeout) (λ _ s', goes s s') s.
Proof.
  intros Hi. unfold wp, kernel_wait. destruct (wait _ _ _ _) as [[[events rest]|e] r] eqn:E.
  - eapply quiet_goes. pose proof (pop_quiet config tt (λ _, []) (λ _, with_waits rest) empty_hand s Hi) as Hq.
    unfold wp, pop in Hq. destruct Hq as [Hq _]; [done|]. eapply quiet_trans; [exact Hq|].
    apply quiet_frame; try done. apply Hq.
  - apply wait_throws in E as ->. split; [done|]. split; [exact (inv_safe config _ s Hi)|apply Hi].
Qed.

Lemma reactor_wait_ok timeout s : I empty_hand s → W (reactor_wait config timeout) (λ _ s', goes s s') s.
Proof.
  intros Hi. unfold reactor_wait. eapply wp_seq; [by apply yield_ok|]. intros [] s1 Hq1.
  eapply wp_mono; [apply kernel_wait_ok, Hq1|]. intros events s2 Hg2. eapply goes_trans; [by apply quiet_goes|done].
Qed.

Lemma run_loop_ok fuel : ∀ s,
  I empty_hand s → (length (stops (script s)) < fuel)%nat →
  W (run_loop config listener fuel) (λ _ s', goes s s') s.
Proof.
  induction fuel as [|fuel IH]; intros s Hi Hf; [lia|]. cbn [run_loop].
  eapply wp_seq; [by apply stopping_ok|]. intros stop s1 (Hg1 & _ & _ & Hn1).
  destruct stop; [by apply wp_ret|]. specialize (Hn1 eq_refl).
  eapply wp_seq; [apply wait_timeout_ok, Hg1|]. intros timeout s2 Hg2.
  eapply wp_seq; [apply reactor_wait_ok, Hg2|]. intros events s3 Hg3.
  eapply wp_seq; [apply stopping_ok, Hg3|]. intros stop' s4 (Hg4 & _).
  assert (goes s1 s4) as Hg14 by exact (goes_trans _ _ _ Hg2 (goes_trans _ _ _ Hg3 Hg4)).
  destruct stop'; [apply wp_ret; by eapply goes_trans|].
  eapply wp_seq; [apply iterate_ok, Hg4|]. intros [] s5 Hg5.
  assert (goes s1 s5) as Hg15 by (by eapply goes_trans).
  eapply wp_mono; [apply IH; [apply Hg15|]|].
  - destruct Hg15 as [_ [_ _ _ _ Hs _]]. lia.
  - intros [] s6 Hg6. exact (goes_trans _ _ _ Hg1 (goes_trans _ _ _ Hg15 Hg6)).
Qed.
End Run.
