(* ===== verification/ServerEnd.v ===== *)
(** * The start and the end of the server

    The state that the constructor leaves, the end of [run] and the joining of
    the workers. *)

From S2P Require Import Prelude Resp Parser ParserCorrect Disk Wal Store StoreInv StoreCorrect StoreTheorems Snapshot Engine.
From S2P Require Import Stats Registry ServerCommands ThreadPool Socket Reactor Server ServerInv ServerSteps.
From S2P Require Import ServerConn ServerLoop ServerDrain ServerRun.

(** ** Recovery leaves a well-formed store *)

Section Recovery.
Context `{PO : PlatformOk} (config : PersistenceConfig).

Lemma Ok_inj {A} (a b : A) : Ok a = Ok b → a = b.
Proof. by intros [= <-]. Qed.

Lemma apply_record_wf clk st record st' : wf st → apply_record clk st record = Ok st' → wf st'.
Proof.
  intros Hst. unfold apply_record.
  assert (∀ k v w, wf (set clk st k v w)) as Hset by (intros; by apply set_refines).
  repeat match goal with
  | |- bind ?r _ = _ → _ => destruct r as [[? ?]|]; cbn [bind]; [|done]
  | |- (if _ then _ else _) = _ → _ => cond_case
  end; intros E; try done; apply Ok_inj in E as <-; first [done|by apply del_many_wf|by apply expire_at_wf].
Qed.

Lemma import_wf clks es : ∀ i st, wf st → wf (import_entries clks i es st).
Proof.
  induction es as [|e es IH]; intros i st Hst; cbn [import_entries]; [done|]. apply IH.
  unfold import_snapshot_entry. by apply set_refines.
Qed.

Lemma replay_wf clks offset records : ∀ i w w',
  world_ok w → replay_records clks i offset records w = (Ok tt, w') → world_ok w'.
Proof.
  induction records as [|r records IH]; intros i w w' Hw; cbn [replay_records]; [by intros [= <-]|].
  cond_case; [by apply IH|]. rewrite exec_bind_gets. unfold exec_bind, lift, modify.
  destruct (apply_record (clks i) (store w) r) as [st|] eqn:E; [|done]. apply IH.
  destruct Hw as [Hw Hn]. split; [|done]. by eapply apply_record_wf.
Qed.

Lemma recover_wf os clks clks' w w' :
  world_ok w → recover_into config os clks clks' w = (Ok tt, w') → world_ok w'.
Proof.
  intros [Hw Hn]. unfold recover_into. rewrite exec_bind_ok. intros ([] & w1 & E1 & E).
  rewrite exec_bind_gets in E. apply exec_bind_ok in E as ([] & w2 & E2 & E).
  apply exec_bind_ok in E as (records & w3 & E3 & E). apply exec_bind_ok in E as ([] & w4 & E4 & E).
  injection E1 as <-. injection E2 as <-.
  match type of E3 with _ ?w2 = _ => assert (world_ok w2) as Hw2 end.
  { split; [|done]. apply import_wf. by destruct (clear_refines 0 (store w) Hw). }
  assert (world_ok w3) as Hw3.
  { revert E3. unfold wal_call. rewrite exec_bind_gets, (proj2 Hw2). unfold zoom.
    destruct (open_and_recover os _) as [r wal]. by intros [= _ <-]. }
  pose proof (replay_wf _ _ _ _ _ _ Hw3 E4) as Hw4. revert E. cond_case; by intros [= <-].
Qed.
End Recovery.

(** ** The constructor *)

Section Start.
Context `{PO : PlatformOk} (config : ServerConfig) (listener : Z).

Lemma id_ok_empty limits : id_ok limits (Build_View [] [] [] [] []).
Proof.
  split; cbn; try first [done|lia|apply prefix_nil]. exists 0%nat, [], 0%nat, []. split; [cbn; lia|]. split; [by left|done].
Qed.

Lemma thread_jobs_waiting n : thread_jobs (replicate n t_waiting) = [].
Proof. by induction n. Qed.
Lemma thread_done_waiting n : thread_done (replicate n t_waiting) = [].
Proof. by induction n. Qed.

Lemma initial_world_ok steady wal_bytes files os ic rc st w :
  wf st → initial_world config steady wal_bytes files os ic rc st = Ok w →
  wf (store w) ∧ (cfg_persistence_enabled config = true → wal_null w = false).
Proof.
  intros Hst. unfold initial_world. destruct (cfg_persistence_enabled config).
  2: { intros E. apply Ok_inj in E as <-. by split. }
  unfold new_engine. destruct (data_dir (cfg_persistence config)) as [|b dir]; [done|].
  destruct (negb _); [done|]. cbn [bind].
  set (w0 := {| wal_null := false |}).
  destruct (recover_into _ os ic rc w0) as [[[]|e] w1] eqn:E; [|done]. intros E1. apply Ok_inj in E1 as <-.
  destruct (recover_wf _ _ _ _ w0 _ (conj Hst eq_refl) E) as [Hw Hn]. by split.
Qed.

Lemma new_server_inv hardware port steady now ver wal_bytes files os ic rc fails queue user nonblocking x s :
  config_ok config → send_count 0 ∉ sends x → Forall rand_ok (rands x) →
  new_server config listener hardware port steady now ver wal_bytes files os ic rc fails queue user nonblocking x = Ok s →
  inv config empty_hand s ∧ script s = x ∧ stopping_ (workers_ s) = false.
Proof.
  intros [Hc Ho Hsh] Hsend Hrand. unfold new_server. destruct (create_reactor queue user) as [rc0|]; cbn [bind]; [|done].
  destruct (new_store (cfg_shards config)) as [st|] eqn:Est; [|done].
  cbn [bind]. apply wf_new in Est; [|done].
  destruct (new_pool _ _) as [[p n]|] eqn:Ep; [|done]. cbn [bind].
  destruct (initial_world _ _ _ _ _ _ _ _) as [w|] eqn:Ew; [|done]. cbn [bind].
  apply initial_world_ok in Ew; [|done]. cond_case; [done|].
  destruct (reactor_add _ _ _ _) as [[[]|] r]; [|done]. cbn [bind]. intros E. apply Ok_inj in E as <-.
  assert (jobs_ p = [] ∧ stopping_ p = false) as [Hp Hstop]
    by (revert Ep; unfold new_pool; do 2 (cond_case; [done|]); by intros [= <- <-]).
  split; [|done].
  set (s := {| connections_ := _ |}).
  assert (∀ i, conn_view empty_hand s i = Build_View [] [] [] [] []) as Hv.
  { intros i. unfold conn_view, all_jobs, all_done, s. cbn. by rewrite Hp, thread_jobs_waiting, thread_done_waiting. }
  split; try done.
  - intros i. rewrite Hv. apply id_ok_empty.
  - by exists new_stats.
Qed.
End Start.

(** ** Joining the workers *)

Section End.
Context `{PO : PlatformOk} `{KO : KernelOk} (config : ServerConfig) (listener : Z).

Abbreviation I := (inv config).
Abbreviation W := (wp (permitted config)).

Lemma run_command_pool job s :
  workers_ (snd (run_command config job s)) = workers_ s ∧ threads (snd (run_command config job s)) = threads s.
Proof.
  unfold run_command, pop_env, pop, exec_bind, zoom, modify, lift, ret. cbn [context script set_script].
  destruct (execute _ _ _ (context s)) as [[r|e] ctx]; [|done]. by destruct (encode r).
Qed.

Lemma wake_reactor_pool s :
  workers_ (snd (wake_reactor s)) = workers_ s ∧ threads (snd (wake_reactor s)) = threads s ∧
  fst (wake_reactor s) = Ok tt.
Proof.
  unfold wake_reactor, pop_kev, pop, exec_bind, ignore_errors, on_reactor, zoom, wakeup. cbn [script set_script].
  by destruct (bool_decide _).
Qed.

Lemma fsync_turn_pool s :
  workers_ (snd (fsync_turn s)) = workers_ s ∧ threads (snd (fsync_turn s)) = threads s.
Proof.
  unfold fsync_turn, pop_env, pop, exec_bind, zoom, gets. destruct (persistence (context s)); [|done].
  cbn [context script set_script]. by destruct (fsync_round _ _).
Qed.

(** The turns that a worker has left when the pool is stopping. *)
Definition turns_left (i : nat) (s : Server) : nat :=
  4 * length (jobs_ (workers_ s)) +
  match threads s !! i with
  | Some t_waiting => 1 | Some (t_running _) => 4 | Some (t_delivering _) => 3 | Some t_waking => 2
  | Some t_exited | None => 0
  end.

Lemma turns_left_bound i s : (turns_left i s < 5 + 4 * length (jobs_ (workers_ s)))%nat.
Proof. unfold turns_left. destruct (threads s !! i) as [[]|]; lia. Qed.

Lemma turns_left_insert p k t i s s' :
  workers_ s' = p → threads s' = <[k := t]> (threads s) → (length (jobs_ p) <= length (jobs_ (workers_ s)))%nat →
  (turns_left k s' < turns_left k s)%nat → (turns_left i s' <= turns_left i s)%nat.
Proof.
  intros Hp Ht Hj Hk. destruct (decide (i = k)) as [->|Hne]; [lia|]. unfold turns_left.
  rewrite Ht, Hp, list_lookup_insert_ne by done. lia.
Qed.

(** A turn of a worker of a pool that is stopping. *)
Lemma thread_turn_stopping k i s :
  stopping_ (workers_ s) = true →
  wp (λ _ _, True) (thread_turn config k) (λ _ s', stopping_ (workers_ s') = true ∧
    (turns_left i s' <= turns_left i s)%nat ∧
    (threads s !! k ≠ Some t_exited → is_Some (threads s !! k) → (turns_left k s' < turns_left k s)%nat)) s.
Proof.
  intros Hstop. unfold wp, thread_turn. destruct (threads s !! k) as [[|job|c| |]|] eqn:Ek; [| | | |split_and!; [done|lia|done]|].
  - assert (wake (workers_ s) = true) as Hw by (unfold wake; by rewrite Hstop). rewrite Hw.
    destruct (worker_section_cases _ Hw) as [(Hj & _ & ->)|(job & rest & Hj & ->)].
    + assert (turns_left k (set_pool (workers_ s) (<[k := t_exited]> (threads s)) s) < turns_left k s)%nat as Hlt.
      { unfold turns_left. server_simpl. rewrite list_lookup_insert_eq, Ek by (by eapply lookup_lt_Some). lia. }
      split; [done|]. split; [|done]. by eapply turns_left_insert.
    + assert (turns_left k (set_pool (set_jobs rest (workers_ s)) (<[k := t_running job]> (threads s)) s) <
              turns_left k s)%nat as Hlt.
      { unfold turns_left. server_simpl. rewrite list_lookup_insert_eq, Ek, Hj by (by eapply lookup_lt_Some). cbn. lia. }
      split; [done|]. split; [|done]. eapply turns_left_insert; [done|done| |done]. server_simpl. rewrite Hj. cbn. lia.
  - unfold exec_bind, terminating. pose proof (run_command_pool job s) as [Hp Ht].
    destruct (run_command config job s) as [[c|e] s1]; [|by destruct e]. cbn [snd] in Hp, Ht. unfold set_thread_state, modify.
    rewrite Hp, Ht. set (s2 := set_pool _ _ s1).
    assert (turns_left k s2 < turns_left k s)%nat as Hlt.
    { unfold turns_left, s2. server_simpl. rewrite list_lookup_insert_eq, Ek by (by eapply lookup_lt_Some). lia. }
    split; [done|]. split; [|done]. by apply (turns_left_insert (workers_ s) k (t_delivering c)).
  - unfold exec_bind, deliver, set_thread_state, modify. server_simpl. set (s2 := set_pool _ _ _).
    assert (turns_left k s2 < turns_left k s)%nat as Hlt.
    { unfold turns_left, s2. server_simpl. rewrite list_lookup_insert_eq, Ek by (by eapply lookup_lt_Some). lia. }
    split; [done|]. split; [|done]. by eapply turns_left_insert.
  - unfold exec_bind. pose proof (wake_reactor_pool s) as (Hp & Ht & Eok).
    destruct (wake_reactor s) as [[[]|e] s1]; [|done]. cbn [fst snd] in Hp, Ht, Eok. unfold set_thread_state, modify.
    rewrite Hp, Ht. set (s2 := set_pool _ _ s1).
    assert (turns_left k s2 < turns_left k s)%nat as Hlt.
    { unfold turns_left, s2. server_simpl. rewrite list_lookup_insert_eq, Ek by (by eapply lookup_lt_Some). lia. }
    split; [done|]. split; [|done]. by apply (turns_left_insert (workers_ s) k t_waiting).
  - pose proof (fsync_turn_pool s) as (Hp & Ht). destruct (fsync_turn s) as [[[]|e] s1]; [|done].
    cbn [snd] in Hp, Ht. unfold turns_left. rewrite Hp, Ht, Ek. split_and!; [done|lia|]. by intros _ [? [=]].
Qed.

Lemma thread_turns_stopping ts i : ∀ s,
  stopping_ (workers_ s) = true →
  wp (λ _ _, True) (thread_turns config ts) (λ _ s', stopping_ (workers_ s') = true ∧
    (turns_left i s' <= turns_left i s)%nat) s.
Proof.
  induction ts as [|k ts IH]; intros s Hs; cbn [thread_turns]; [by apply wp_ret|].
  eapply wp_seq; [by apply (thread_turn_stopping k i)|]. intros [] s1 (Hs1 & Hl1 & _).
  eapply wp_mono; [by apply IH|]. intros [] s2 [Hs2 Hl2]. split; [done|lia].
Qed.

Lemma yield_stopping i s :
  I empty_hand s → stopping_ (workers_ s) = true →
  W (yield config) (λ _ s', quiet config empty_hand s empty_hand s' ∧ stopping_ (workers_ s') = true ∧
    (turns_left i s' <= turns_left i s)%nat) s.
Proof.
  intros Hi Hs. eapply (wp_and _ _ (λ _ _, True)); [by apply yield_ok|].
  unfold yield, pop_turns, pop. apply wp_bind. unfold wp at 1. by apply (thread_turns_stopping _ i (set_script _ s)).
Qed.

Lemma join_thread_ok fuel i : ∀ s,
  I empty_hand s → stopping_ (workers_ s) = true → (turns_left i s < fuel)%nat →
  W (join_thread config fuel i)
    (λ _ s', quiet config empty_hand s empty_hand s' ∧ stopping_ (workers_ s') = true) s.
Proof.
  induction fuel as [|fuel IH]; intros s Hi Hs Hf; [lia|]. cbn [join_thread].
  eapply wp_seq; [by apply (yield_stopping i)|]. intros [] s1 (Hq1 & Hs1 & Hl1). apply wp_bind, wp_gets.
  assert (is_Some (threads s1 !! i) → threads s1 !! i ≠ Some t_exited →
    W (thread_turn config i ;; join_thread config fuel i)
      (λ _ s', quiet config empty_hand s empty_hand s' ∧ stopping_ (workers_ s') = true) s1) as Hgo.
  { intros Hsome Hne. eapply wp_seq.
    - eapply (wp_and _ _ (λ _ _, True)); [apply thread_turn_ok, Hq1|by apply (thread_turn_stopping i i)].
    - intros [] s2 (Hq2 & Hs2 & _ & Hl2). specialize (Hl2 Hne Hsome).
      eapply wp_mono; [apply IH; [apply Hq2|done|lia]|]. intros [] s3 [Hq3 Hs3]. split; [|done].
      eapply quiet_trans; [exact Hq1|]. by eapply quiet_trans. }
  destruct (threads s1 !! i) as [[]|]; first [by apply wp_ret|by apply Hgo].
Qed.

Lemma join_threads_ok indices : ∀ s,
  I empty_hand s → stopping_ (workers_ s) = true →
  W (join_threads config indices) (λ _ s', quiet config empty_hand s empty_hand s' ∧ stopping_ (workers_ s') = true) s.
Proof.
  induction indices as [|i indices IH]; intros s Hi Hs; cbn [join_threads]; [by apply wp_ret; split; [apply quiet_refl|]|].
  apply wp_bind, wp_gets. eapply wp_seq; [apply join_thread_ok; [done|done|apply turns_left_bound]|].
  intros [] s1 [Hq1 Hs1]. eapply wp_mono; [apply IH; [apply Hq1|done]|]. intros [] s2 [Hq2 Hs2]. split; [|done].
  by eapply quiet_trans.
Qed.

Lemma shutdown_workers_ok s :
  I empty_hand s → stopping_ (workers_ s) = false →
  W (shutdown_workers config) (λ _ s', (trace_safe (cfg_parser_limits config) (trace s') ∧ parts_ok (context s')) ∧
    connections_ s' = connections_ s ∧ threads s' = [] ∧ jobs_ (workers_ s') = []) s.
Proof.
  intros Hi Hs. unfold shutdown_workers. apply wp_bind. unfold shutdown_begin, wp at 1. rewrite Hs. cbn [negb].
  set (s1 := set_pool _ _ s). destruct (inv_stats _ _ _ Hi) as (st & Est & _).
  assert (I empty_hand s1) as Hi1
    by (eapply inv_frame; [exact Hi|done|done|done|done|done|done|by exists st, st|apply Hi|done|done]).
  apply wp_bind, wp_gets. eapply wp_seq; [by apply join_threads_ok|]. intros [] s2 [Hq2 _].
  apply wp_modify. pose proof (proj1 (proj1 Hq2)) as Hi2.
  split; [split; [exact (inv_safe config _ s2 Hi2)|apply Hi2]|]. split; [|done]. apply Hq2.
Qed.

(** ** The whole of [run] *)

Lemma run_ok s :
  config_ok config → I empty_hand s → stopping_ (workers_ s) = false →
  W (run config listener) (λ _ s', (trace_safe (cfg_parser_limits config) (trace s') ∧ parts_ok (context s')) ∧
    connections_ s' = ∅ ∧ threads s' = [] ∧ jobs_ (workers_ s') = []) s.
Proof.
  intros Hconfig Hi Hs. unfold run. apply wp_bind, wp_gets.
  eapply wp_seq; [apply run_loop_ok; [done|done|lia]|]. intros [] s1 [Hi1 [_ _ _ _ _ Hp1]]. apply wp_bind, wp_gets.
  eapply wp_seq; [by apply close_all_ok|]. intros [] s2 [(Hi2 & [_ _ _ _ _ Hp2] & Hd2) Hn2].
  assert (connections_ s2 = ∅) as He.
  { apply dom_empty_inv_L. apply set_eq. intros f. split; [|set_solver]. intros Hf. destruct (Hn2 f); [|done].
    apply Hd2, elem_of_dom in Hf as [c Hc]. apply list_elem_of_fmap. exists (f, c). split; [done|].
    rewrite conn_order_perm. by apply elem_of_map_to_list. }
  eapply wp_mono; [apply shutdown_workers_ok; [done|congruence]|]. intros [] s3 (Ht & Hc & Hrest).
  rewrite He in Hc. done.
Qed.
End End.
