(* ===== verification/ServerProps.v ===== *)
(** * What the server promises

    The theorems on [Server]: what a client sees, the accounting of connections
    and strands, how [run] ends, and three executions that show where the code
    falls short. *)

From S2P Require Import Prelude Resp Parser ParserCorrect Disk Wal Store StoreInv StoreTheorems Snapshot Engine.
From S2P Require Import Stats Registry ServerCommands ThreadPool Socket Reactor Server ServerInv ServerSteps.
From S2P Require Import ServerConn ServerLoop ServerDrain ServerRun ServerEnd.

(** What POSIX and the C++ library promise of the surroundings: [send(2)] of some
    bytes does not return 0, and a uniform distribution stays in its range. *)
Record admissible (x : Script) : Prop := {
  adm_sends : send_count 0 ∉ sends x;
  adm_rands : Forall rand_ok (rands x);
}.

(** The server that the constructor leaves, in the surroundings [x]. *)
Definition started `{Platform} (config : ServerConfig) (listener : Z) (x : Script) (s : Server) : Prop :=
  ∃ hardware port steady now ver wal_bytes files os ic rc fails queue user nonblocking,
    new_server config listener hardware port steady now ver wal_bytes files os ic rc fails queue user nonblocking x = Ok s.

Lemma started_inv `{PlatformOk} config listener x s :
  config_ok config → admissible x → started config listener x s →
  inv config empty_hand s ∧ script s = x ∧ stopping_ (workers_ s) = false.
Proof.
  intros Hc [Hs Hr] (hardware & port & steady & now & ver & wal & files & os & ic & rc & fails & queue & user & nb & E).
  by eapply new_server_inv.
Qed.

(** The event loop keeps the invariant. *)
Lemma run_loop_inv `{PlatformOk} `{KernelOk} config listener x s s' :
  config_ok config → admissible x → started config listener x s →
  run_loop config listener (S (length (stops x))) s = (Ok tt, s') → inv config empty_hand s'.
Proof.
  intros Hc Hx Hs E. destruct (started_inv _ _ _ _ Hc Hx Hs) as (Hi & Hsc & _).
  pose proof (run_loop_ok config listener Hc (S (length (stops x))) s Hi ltac:(rewrite Hsc; lia)) as Hr.
  unfold wp in Hr. rewrite E in Hr. apply Hr.
Qed.

Section Claims.
Context `{PO : PlatformOk} `{KO : KernelOk} (config : ServerConfig) (listener : Z).

(** C4. Every client gets its replies in the order of its requests, whatever the
    kernel, the clocks, the scheduling of the workers and the other connections
    do, and also when [run] ends with an exception: for each connection, the
    commands that were executed are the first ones that the bytes received on it
    decode to, in order and each once, and the bytes sent on it are a part, from
    the front, of the replies to these commands in that order, with at most one
    protocol error among them. *)
Theorem replies_in_order x s r s' :
  config_ok config → admissible x → started config listener x s → run config listener s = (r, s') →
  trace_safe (cfg_parser_limits config) (trace s').
Proof.
  intros Hc Hx Hs E. destruct (started_inv _ _ _ _ Hc Hx Hs) as (Hi & _ & Hp).
  pose proof (run_ok config listener s Hc Hi Hp) as Hr. unfold wp in Hr. rewrite E in Hr.
  by destruct r as [[]|e]; destruct Hr as [[]] || destruct Hr as [_ []].
Qed.

(** C11. [run] ends, and in order: either it returns, with every connection
    closed, every worker joined and no job left in the queue; or it throws an
    exception of the code; or [std::terminate] ends the process, when a command
    throws on a worker; or the deadline of an [EXPIRE] overflows.  On no execution
    does the server, on the I/O thread or on a worker, use the reference of an
    erased connection, call a null log, index past its arguments or take from an
    empty queue. *)
Theorem run_ends_defined x s r s' :
  config_ok config → admissible x → started config listener x s → run config listener s = (r, s') →
  match r with
  | Ok _ => connections_ s' = ∅ ∧ threads s' = [] ∧ jobs_ (workers_ s') = []
  | Throw e => expected e
  end.
Proof.
  intros Hc Hx Hs E. destruct (started_inv _ _ _ _ Hc Hx Hs) as (Hi & _ & Hp).
  pose proof (run_ok config listener s Hc Hi Hp) as Hr. unfold wp in Hr. rewrite E in Hr.
  by destruct r as [[]|e]; destruct Hr.
Qed.

(** C13. At the top of every iteration of the event loop, the commands of each
    connection are run one at a time: at most one is in the queue of the pool,
    on a worker or on its way back, exactly one when the strand is marked as
    running, and commands wait only while it is; the number in flight is exact,
    and the commands executed, on their way and waiting are those decoded so far,
    in order. *)
Theorem strands_serialize x s s' f c :
  config_ok config → admissible x → started config listener x s →
  run_loop config listener (S (length (stops x))) s = (Ok tt, s') → connections_ s' !! f = Some c →
  let v := conn_view empty_hand s' (id_ c) in
  (length (v_jobs v) + length (v_done v) = if strand_running c then 1 else 0)%nat ∧
  (strand_running c = false → command_queue c = []) ∧
  inflight c = len (v_jobs v) + len (v_done v) + len (command_queue c) ∧
  (executed (id_ c) (trace s')).*1 ++ job_requests v ++ map qc_request (command_queue c) `prefix_of`
    requests_of (cfg_parser_limits config) (received (id_ c) (trace s')).
Proof.
  intros Hc Hx Hs E Hf v. pose proof (run_loop_inv _ _ _ _ _ Hc Hx Hs E) as Hi.
  destruct (inv_strands _ _ _ Hi f c Hf ltac:(done)) as [Ht Hq]. pose proof (inv_conns _ _ _ Hi f c Hf) as Hok.
  split; [exact Ht|]. split; [done|]. split; [by apply (co_inflight _ _ _ _ Hok)|].
  pose proof (co_stream _ _ _ _ Hok) as Hst. cbn zeta in Hst. destruct (closing c); [done|]. by eapply decoded_prefix.
Qed.

(** C14. At the top of every iteration of the event loop the connections are
    accounted for: there are never more than [max_connections], their
    identifiers are distinct and were all given out, the counters of active and
    accepted connections are those numbers modulo 2^64, and no connection
    buffers more output than [max_output_buffer_bytes] and one protocol error,
    that excess only when it is closing. *)
Theorem connections_accounted x s s' :
  config_ok config → admissible x → started config listener x s →
  run_loop config listener (S (length (stops x))) s = (Ok tt, s') →
  Z.of_nat (size (connections_ s')) <= cfg_max_connections config ∧
  (∀ f f' c c', connections_ s' !! f = Some c → connections_ s' !! f' = Some c' → id_ c = id_ c' → f = f') ∧
  (∃ st, stats (context s') = Some st ∧ active_connections_ st = u64 (Z.of_nat (size (connections_ s'))) ∧
     accepted_connections_ st = u64 (next_connection_id_ s' - 1)) ∧
  (∀ f c, connections_ s' !! f = Some c → 1 <= id_ c < next_connection_id_ s' ∧
     len (output c) <= cfg_max_output_buffer_bytes config + (if closing c then len error_text else 0)).
Proof.
  intros Hc Hx Hs E. pose proof (run_loop_inv _ _ _ _ _ Hc Hx Hs E) as Hi.
  split; [apply Hi|]. split; [apply Hi|]. split; [apply Hi|]. intros f c Hf.
  split; [exact (inv_range _ _ _ Hi f c Hf)|]. exact (co_bound _ _ _ _ (inv_conns _ _ _ Hi f c Hf)).
Qed.

(** A connection with nothing in flight, nothing to send and no complete request
    left to decode. *)
Lemma idle_answered h s f c :
  inv config h s → connections_ s !! f = Some c → closing c = false → inflight c = 0 → output c = [] →
  val_status (parse_value (cfg_parser_limits config) (buffer_ (parser c)) 0) = incomplete →
  (executed (id_ c) (trace s)).*1 = requests_of (cfg_parser_limits config) (received (id_ c) (trace s)) ∧
  sent (id_ c) (trace s) = concat (texts (executed (id_ c) (trace s))).
Proof.
  intros Hi Hf Hcl Hin Hout Hp. destruct (inv_conns _ _ _ Hi f c Hf) as [_ _ H3 H4 _ H6 _ H8 H9 _].
  set (v := conn_view h s (id_ c)) in *. rewrite Hin in H3. cbn zeta in H8. rewrite Hcl in H8.
  pose proof (len_nonneg (v_jobs v)). pose proof (len_nonneg (v_done v)). pose proof (len_nonneg (command_queue c)).
  assert (∀ {A} (l : list A), len l <= 0 → l = []) as Hnil by (intros A l Hl; apply nil_length_inv; unfold len in Hl; lia).
  assert (v_jobs v = [] ∧ v_done v = [] ∧ command_queue c = []) as (Ej & Ed & Eq) by (split_and!; apply Hnil; lia).
  split.
  - unfold job_requests in H8. rewrite Ej, Eq in H8. cbn [map] in H8. rewrite !app_nil_r in H8.
    change (executed (id_ c) (trace s)) with (v_exec v). change (received (id_ c) (trace s)) with (v_recv v).
    specialize (H8 []). rewrite !app_nil_r in H8. unfold requests_of. rewrite H8, decode_eq. cbn zeta.
    rewrite Hp. cbn. by rewrite app_nil_r.
  - assert (next_response_seq c = applied v) as Hn.
    { destruct (decide (next_response_seq c = applied v)); [done|]. destruct H6 as [Hbad _]; [lia|]. congruence. }
    unfold applied in Hn. rewrite Ed in Hn. change (len (@nil Completion)) with 0 in Hn.
    destruct H9 as (k & err & Hk & [->|[_ Hbad]] & Hs); [|congruence]. rewrite Hout, app_nil_r in Hs.
    change (sent (id_ c) (trace s)) with (v_sent v). rewrite Hs. unfold reply_stream. cbn [app].
    assert (take (Z.to_nat (next_response_seq c)) (texts (v_exec v)) = texts (v_exec v)) as ->
      by (apply take_ge; rewrite length_texts; unfold len in Hn; lia).
    change (executed (id_ c) (trace s)) with (v_exec v). by rewrite <- concat_app, take_drop.
Qed.

(** C12. Nothing is forgotten: at the top of every iteration, a connection that is
    not closing, has nothing in flight and nothing left to send, and whose
    parser holds no complete request, has had every request that was received
    on it executed exactly once, and exactly their replies have been sent, in
    order and in full. *)
Theorem idle_connection_answered x s s' f c :
  config_ok config → admissible x → started config listener x s →
  run_loop config listener (S (length (stops x))) s = (Ok tt, s') → connections_ s' !! f = Some c →
  closing c = false → inflight c = 0 → output c = [] →
  val_status (parse_value (cfg_parser_limits config) (buffer_ (parser c)) 0) = incomplete →
  (executed (id_ c) (trace s')).*1 = requests_of (cfg_parser_limits config) (received (id_ c) (trace s')) ∧
  sent (id_ c) (trace s') = concat (texts (executed (id_ c) (trace s'))).
Proof.
  intros Hc Hx Hs E Hf. apply (idle_answered empty_hand s' f c); [|done]. by eapply run_loop_inv.
Qed.
End Claims.

(** ** Concrete executions *)

(** A kernel that gives out the descriptor above those in use. *)
Definition demo_kernel : Kernel := {|
  conn_order := map_to_list;
  new_descriptor X := foldr Z.max 0 (elements X) + 1;
|}.

Lemma demo_kernel_ok : @KernelOk demo_kernel.
Proof.
  split; [done|]. intros X HX. cbn in HX.
  assert (∀ l y, y ∈ l → y <= foldr Z.max 0 l) as Hmax.
  { intros l y. induction l as [|z l IH]; [by intros ?%elem_of_nil|]. intros [->|?%IH]%elem_of_cons; cbn; lia. }
  specialize (Hmax (elements X) _ (proj2 (elem_of_elements X _) HX)). lia.
Qed.

#[local] Existing Instance demo_platform.
#[local] Existing Instance demo_kernel.

(** One worker, and a queue of [limit] jobs. *)
Definition demo_server_config (limit : nat) : ServerConfig := {|
  cfg_workers := 1; cfg_shards := 2; cfg_max_connections := 8; cfg_worker_queue_limit := limit;
  cfg_max_output_buffer_bytes := 1000; cfg_active_expiry_hz := 0; cfg_idle_timeout := 0;
  cfg_parser_limits := default_limits; cfg_persistence_enabled := false;
  cfg_persistence := {| data_dir := []; fsync := none; snapshot_interval_seconds := 0 |};
|}.

(** A client connects to the listener, descriptor 3, and [received] arrives in
    these pieces; the workers take the turns [ts] after the first wait; the flag
    is set after [iterations] readings. *)
Definition demo_script (received : list SysRecv) (ts : list (list nat)) (iterations : nat) : Script :=
  MkScript received (replicate 4 (send_count 100)) [accept_ok] [] []
    [wait_ready [{| ev_ident := 3; ev_filter := Some EVFILT_READ; ev_error := false; ev_eof := false |}]]
    (replicate iterations false) ([] :: ts) [] [] [].

Definition demo_new (limit : nat) (x : Script) : result Server :=
  new_server (demo_server_config limit) 3 1 6379 0 0 (str "0.1.0") [] {| final_file := None; temp_file := None |}
    calm (λ _, frozen (demo_tick 0)) (λ _, frozen (demo_tick 0)) None true true true x.

(** A run of the server, or of its loop alone, from its construction. *)
Definition demo_run (limit : nat) (x : Script) : result unit * Server :=
  match demo_new limit x with
  | Ok s => run (demo_server_config limit) 3 s
  | Throw e => (Throw e, MkServer ∅ [] {| max_queue_size_ := 0; jobs_ := []; stopping_ := false |} [] new_reactor
      {| world := volatile_world (demo_store 1); persistence := false; stats := None; version := [];
         tcp_port := 0; worker_count := 0 |} 0 0 x [])
  end.

Definition demo_loop (limit : nat) (x : Script) : option (gmap Z Connection * list Happened) :=
  match demo_new limit x with
  | Ok s => match run_loop (demo_server_config limit) 3 (S (length (stops x))) s with
            | (Ok _, s') => Some (connections_ s', trace s')
            | (Throw _, _) => None
            end
  | Throw _ => None
  end.

Definition ping_request : bytes := text_of (Array (Some [BulkString (Some (str "PING"))])).
Definition pong : bytes := text_of (SimpleString (str "PONG")).

Definition demo_session : Script :=
  demo_script [recv_data (ping_request ++ ping_request)] (replicate 12 [0%nat]) 8.

Lemma demo_config_ok limit : config_ok (demo_server_config limit).
Proof. by split. Qed.
Lemma demo_admissible received ts n : admissible (demo_script received ts n).
Proof. split; [|done]. cbn. set_solver. Qed.
Lemma demo_started limit x s : demo_new limit x = Ok s → started (demo_server_config limit) 3 x s.
Proof. intros E. by do 14 eexists. Qed.

(** What is left of the connections after the loop, and what client 1 was sent. *)
Definition leftovers (limit : nat) (x : Script) : option (list (bytes * bytes * Z * Interest * bool) * bytes) :=
  match demo_loop limit x with
  | Some (m, tr) =>
      Some (map (λ p, (buffer_ (parser p.2), output p.2, inflight p.2, interest p.2, closing p.2)) (map_to_list m),
            sent 1 tr)
  | None => None
  end.

(** The answer to a malformed request overtakes the replies to the requests
    before it: a client sends [PING] and then a byte that starts no request, the
    worker runs the [PING] while the I/O thread goes on decoding, and the client
    reads the protocol error before the reply to its [PING]. *)
Theorem protocol_error_overtakes :
  let '(r, s') := demo_run 8 (demo_script [recv_data (ping_request ++ str "!" ++ crlf)]
                                [[]; []; []; []; []; [0; 0; 0]%nat] 6) in
  r = Ok tt ∧ map snd (executed 1 (trace s')) = [SimpleString (str "PONG")] ∧ sent 1 (trace s') = error_text ++ pong.
Proof. by vm_compute. Qed.

(** Pipelined requests are forgotten when the queue is full: with a queue of
    one job, a client sends three [PING]s in one packet; the first fills the
    queue, so that the other two stay in the parser, and nothing decodes them
    when the queue is empty again.  After many more iterations the connection
    waits for input with both requests complete in its buffer, nothing in flight
    and one reply sent. *)
Theorem saturation_strands_requests :
  leftovers 1 (demo_script [recv_data (ping_request ++ ping_request ++ ping_request)]
                 [[]; []; []; []; []; [0; 0; 0]%nat; []; []; [0]%nat] 60) =
  Some ([(ping_request ++ ping_request, [], 0, interest_read, false)], pong).
Proof. by vm_compute. Qed.

(** A connection whose peer has shut down its side while a command was in
    flight is never closed: the end of the stream marks it as closing only when
    nothing is in flight, and nothing does later.  After many more iterations
    the reply is sent, and the connection is still open, registered for no
    event at all. *)
Theorem half_closed_stays_open :
  leftovers 8 (demo_script [recv_data ping_request; recv_data []] [[]; []; []; []; []; []; [0; 0; 0]%nat] 60) =
  Some ([([], [], 0, interest_none, false)], pong).
Proof. by vm_compute. Qed.

(** ** Witnesses *)

Lemma demo_session_new : ∃ s, demo_new 8 demo_session = Ok s.
Proof. eexists. by vm_compute. Qed.

Lemma demo_session_sent : sent 1 (trace (snd (demo_run 8 demo_session))) = pong ++ pong.
Proof. by vm_compute. Qed.

(** The state of the client's connection after the loop. *)
Lemma demo_loop_facts :
  match demo_loop 8 demo_session with
  | Some (m, tr) =>
      match m !! 4 with
      | Some c => (closing c, inflight c, output c, val_status (parse_value default_limits (buffer_ (parser c)) 0),
                   id_ c, sent 1 tr) = (false, 0, [], incomplete, 1, pong ++ pong)
      | None => False
      end
  | None => False
  end.
Proof. vm_compute. reflexivity. Qed.

Lemma demo_loop_connection :
  ∃ s s' c, demo_new 8 demo_session = Ok s ∧
    run_loop (demo_server_config 8) 3 (S (length (stops demo_session))) s = (Ok tt, s') ∧
    connections_ s' !! 4 = Some c ∧ closing c = false ∧ inflight c = 0 ∧ output c = [] ∧
    val_status (parse_value default_limits (buffer_ (parser c)) 0) = incomplete ∧ id_ c = 1 ∧
    sent 1 (trace s') = pong ++ pong.
Proof.
  pose proof demo_loop_facts as Hfacts. unfold demo_loop in Hfacts.
  destruct (demo_new 8 demo_session) as [s|] eqn:E; [|done].
  destruct (run_loop _ 3 _ s) as [[[]|] s'] eqn:Er; [|done].
  destruct (connections_ s' !! 4) as [c|] eqn:Hf; [|done]. exists s, s', c.
  injection Hfacts as -> -> -> -> -> ->. done.
Qed.

Lemma replies_in_order_witness :
  trace_safe default_limits (trace (snd (demo_run 8 demo_session))) ∧
  sent 1 (trace (snd (demo_run 8 demo_session))) = pong ++ pong.
Proof.
  split; [|exact demo_session_sent]. destruct demo_session_new as [s E]. unfold demo_run. rewrite E.
  destruct (run (demo_server_config 8) 3 s) as [r s'] eqn:Er.
  exact (@replies_in_order demo_platform demo_platform_ok demo_kernel demo_kernel_ok (demo_server_config 8) 3
    demo_session s r s' (demo_config_ok 8) (demo_admissible _ _ _) (demo_started 8 demo_session s E) Er).
Defined.

Lemma run_ends_defined_witness :
  fst (demo_run 8 demo_session) = Ok tt ∧ connections_ (snd (demo_run 8 demo_session)) = ∅ ∧
  threads (snd (demo_run 8 demo_session)) = [].
Proof.
  assert (fst (demo_run 8 demo_session) = Ok tt) as Hr by (by vm_compute). split; [exact Hr|]. revert Hr.
  destruct demo_session_new as [s E]. unfold demo_run. rewrite E.
  destruct (run (demo_server_config 8) 3 s) as [r s'] eqn:Er.
  pose proof (@run_ends_defined demo_platform demo_platform_ok demo_kernel demo_kernel_ok (demo_server_config 8) 3
    demo_session s r s' (demo_config_ok 8) (demo_admissible _ _ _) (demo_started 8 demo_session s E) Er) as Hend.
  cbn [fst snd]. intros ->. by destruct Hend as (? & ? & _).
Defined.

Lemma strands_serialize_witness :
  ∃ s' c, connections_ s' !! 4 = Some c ∧
    inflight c = len (v_jobs (conn_view empty_hand s' (id_ c))) + len (v_done (conn_view empty_hand s' (id_ c))) +
                 len (command_queue c).
Proof.
  destruct demo_loop_connection as (s & s' & c & E & Er & Hf & _). exists s', c. split; [exact Hf|].
  exact (proj1 (proj2 (proj2 (@strands_serialize demo_platform demo_platform_ok demo_kernel demo_kernel_ok
    (demo_server_config 8) 3 demo_session s s' 4 c (demo_config_ok 8) (demo_admissible _ _ _)
    (demo_started 8 demo_session s E) Er Hf)))).
Defined.

Lemma connections_accounted_witness :
  ∃ s' c, connections_ s' !! 4 = Some c ∧ Z.of_nat (size (connections_ s')) <= 8.
Proof.
  destruct demo_loop_connection as (s & s' & c & E & Er & Hf & _). exists s', c. split; [exact Hf|].
  exact (proj1 (@connections_accounted demo_platform demo_platform_ok demo_kernel demo_kernel_ok
    (demo_server_config 8) 3 demo_session s s' (demo_config_ok 8) (demo_admissible _ _ _)
    (demo_started 8 demo_session s E) Er)).
Defined.

Lemma idle_connection_answered_witness :
  ∃ tr, concat (texts (executed 1 tr)) = pong ++ pong ∧
        (executed 1 tr).*1 = requests_of default_limits (received 1 tr).
Proof.
  destruct demo_loop_connection as (s & s' & c & E & Er & Hf & Hcl & Hin & Hout & Hp & Hid & Hsent).
  pose proof (@idle_connection_answered demo_platform demo_platform_ok demo_kernel demo_kernel_ok
    (demo_server_config 8) 3 demo_session s s' 4 c (demo_config_ok 8) (demo_admissible _ _ _)
    (demo_started 8 demo_session s E) Er Hf Hcl Hin Hout Hp) as [Hreq Hrep].
  exists (trace s'). rewrite Hid in Hreq, Hrep. rewrite <- Hrep. split; [exact Hsent|exact Hreq].
Defined.
