(* ===== verification/ServerLinear.v ===== *)
(** * The server as one map

    Whatever the interleaving of the clients, the workers and the housekeeping,
    the commands are answered as if they had been run one after the other, in
    the order of their execution, on one abstract map of cells.  The clocks are
    not assumed to be in that order: a command may have read its clock long
    before it takes its lock. *)

From S2P Require Import Prelude Resp Parser Disk Wal Store StoreInv StoreSpec StoreCorrect StoreTheorems.
From S2P Require Import StoreTimed.
From S2P Require Import Snapshot Engine EngineSpec EngineCorrect Stats Registry RegistryProps ThreadPool Socket Reactor.
From S2P Require Import ServerCommands Server ServerFollows ServerHistory ServerInv ServerEnd ServerRun ServerProps.

(** ** The specification *)

(** A command that was executed: for which connection, in which environment, and
    its reply. *)
Record Call := { call_conn : Z; call_env : Env; call_request : RespValue; call_reply : RespValue }.

(** What happens to the store, in order: a command, or something else that reads
    the clocks - an expiry cycle, a snapshot, a background sync, a command that
    throws. *)
Inductive Item := Called (c : Call) | Clocked (e : Env).

Definition item_env (i : Item) : Env := match i with Called c => call_env c | Clocked e => e end.
Definition item_call (i : Item) : option Call := match i with Called c => Some c | Clocked _ => None end.

(** The instants at which the steady clock was read in the environments [es]. *)
Definition instants_read (es : list Env) (now : Z) : Prop := ∃ e n, e ∈ es ∧ now = mono (env_clk e n).

(** [KEYS] does not take effect at one moment ([StoreShared]). *)
Definition at_once (op : Op) : bool := match op with OpKeys _ => false | _ => true end.

(** The replies are those of the map [m] of all cells, changed by each command in
    turn at its own instant; in between, cells may leave the map whose deadline
    has passed at an instant that was read before, and no others. *)
Fixpoint serves (persists : bool) (read : list Env) (items : list Item) (m : gmap bytes Cell) : Prop :=
  match items with
  | [] => True
  | Clocked e :: items' => serves persists (e :: read) items' m
  | Called c :: items' =>
      ∃ m0, fades (instants_read read) m m0 ∧
        match interpret (env_steady (call_env c)) (call_request c) with
        | Answer r => call_reply c = r ∧ serves persists (call_env c :: read) items' m0
        | Info => (∃ text, call_reply c = BulkString (Some text)) ∧ serves persists (call_env c :: read) items' m0
        | Run op render =>
            let '(op', clk) := effective persists op (env_clk (call_env c)) in
            (at_once op = true →
               call_reply c = render (fst (spec op' clk (expire_view (op_now op' clk) m0)))) ∧
            serves persists (call_env c :: read) items' (after op' clk m0)
        end
  end.

(** The commands of a trace, in order. *)
Definition executions (tr : list Happened) : list (Z * RespValue * RespValue) :=
  omap (λ h, match h with did_exec i q r => Some (i, q, r) | _ => None end) tr.

Definition item_of (l : Step) : option Item :=
  match l with
  | st_event _ => None
  | st_exec env i q r => Some (Called {| call_conn := i; call_env := env; call_request := q; call_reply := r |})
  | st_failed e _ | st_expire e _ | st_snapshot e _ | st_fsync e | st_unused e => Some (Clocked e)
  end.

Section Linear.
Context `{PO : PlatformOk} (config : PersistenceConfig) (persists : bool).

(** The store holds the cells of [m], less some that are due. *)
Definition holds (read : list Env) (st : Store) (m : gmap bytes Cell) : Prop :=
  wf st ∧ fades (instants_read read) m (cells st).

Lemma instants_read_cons e read now : instants_read read now → instants_read (e :: read) now.
Proof. intros (e' & n & Hin & ->). exists e', n. split; [by right|done]. Qed.

Lemma holds_cons e read st m : holds read st m → holds (e :: read) st m.
Proof. intros [Hwf Hf]. split; [done|]. eapply fades_weaken; [|exact Hf]. apply instants_read_cons. Qed.

(** A step whose effect is to erase what is due at its own instant. *)
Lemma holds_fades e n read st st' m :
  wf st' → fades (eq (mono (env_clk e n))) (cells st) (cells st') → holds read st m → holds (e :: read) st' m.
Proof.
  intros Hwf' Hf' [_ Hf]. split; [done|]. eapply fades_trans; [apply instants_read_cons|exact Hf|].
  eapply fades_weaken; [|exact Hf']. intros t <-. exists e, n. split; [left|done].
Qed.

(** ** Commands *)

Lemma effective_now op clk : let '(op', clk') := effective persists op clk in ∃ n, op_now op' clk' = mono (clk n).
Proof. destruct persists, op; cbn; eauto. Qed.

Lemma exec_serves ctx env i q r ctx' read m :
  persistence ctx = persists → execute config env q ctx = (Ok r, ctx') → holds read (store (world ctx)) m →
  ∃ m', holds (env :: read) (store (world ctx')) m' ∧
    ∀ items, serves persists (env :: read) items m' →
      serves persists read (Called {| call_conn := i; call_env := env; call_request := q; call_reply := r |} :: items) m.
Proof.
  intros Hp E [Hwf Hf]. cbn [serves call_env call_request call_reply].
  pose proof (execute_interpret config env q ctx) as Hx.
  destruct (interpret (env_steady env) q) as [a|op render|]; cbn [executes] in Hx; rewrite Hx in E.
  - injection E as <- <-. exists (cells (store (world ctx))). split; [by split; [|apply fades_refl]|].
    intros items Hs. exists (cells (store (world ctx))). by split.
  - apply exec_bind_ok in E as (reply & c1 & E1 & E2). injection E2 as <- <-.
    apply (perform_run config persists env op ctx) in E1; [|done]. pose proof (effective_now op (env_clk env)) as Hn.
    destruct (effective persists op (env_clk env)) as [op' clk]. destruct Hn as [n Hn].
    pose proof (run_fades op' clk _ Hwf) as Hfade. rewrite E1 in Hfade. cbn [snd] in Hfade.
    destruct (run_refines_spec op' clk _ Hwf) as (st' & E' & Hwf' & _). rewrite E' in E1. injection E1 as <- Est.
    rewrite <- Est in Hfade |- *. exists (after op' clk (cells (store (world ctx)))). split.
    + split; [done|]. eapply fades_weaken; [|exact Hfade]. intros t Ht. exists env, n. split; [left|congruence].
    + intros items Hs. exists (cells (store (world ctx))). split; [done|]. rewrite <- view_cells. by split.
  - revert E. unfold info. exec_unfold. intros [= <- <-]. exists (cells (store (world ctx))).
    split; [by split; [|apply fades_refl]|]. intros items Hs. exists (cells (store (world ctx))). split; [done|].
    split; [|done]. destruct (stats ctx); eexists; reflexivity.
Qed.

Lemma failed_store ctx env q e ctx' :
  persistence ctx = persists → execute config env q ctx = (Throw e, ctx') →
  store (world ctx') = store (world ctx).
Proof.
  intros Hp E. pose proof (execute_interpret config env q ctx) as Hx.
  destruct (interpret (env_steady env) q) as [a|op render|]; cbn [executes] in Hx; rewrite Hx in E.
  - done.
  - unfold exec_bind in E. destruct (perform config env op ctx) as [[rep|e'] c1] eqn:Ep; [done|].
    injection E as <- <-. apply (perform_run config persists) in Ep; [|done].
    by destruct (effective persists op (env_clk env)).
  - revert E. unfold info. exec_unfold. by intros [=].
Qed.

(** ** Housekeeping *)

Lemma wal_call_keeps {A} (m : Exec WalWriter A) : keeps store (wal_call m).
Proof. unfold wal_call. keep. Qed.
#[local] Hint Resolve wal_call_keeps : nova.

Lemma export_store os clk w r w' :
  export_write_truncate config os clk w = (r, w') →
  store w' = store w ∨ store w' = snd (export_snapshot_entries clk (store w)).
Proof.
  unfold export_write_truncate, exec_bind at 1.
  assert (keeps store (if bool_decide (fsync config = none) then ret tt else wal_call (sync os))) as Hsync by keep.
  specialize (Hsync w).
  destruct ((if bool_decide (fsync config = none) then ret tt else wal_call (sync os)) w) as [[[]|e] w1];
    [|intros [= <- <-]; by left].
  cbn [snd] in Hsync. unfold with_store, exec_bind at 1. rewrite Hsync.
  destruct (export_snapshot_entries clk (store w)) as [es st]. intros E. right. cbn [snd].
  set (m := do! offset := wal_call wal_last_offset in _) in E.
  assert (keeps store m) as Hm by (unfold m; keep). specialize (Hm (set_store st w1)). by rewrite E in Hm.
Qed.

Lemma snapshot_store os clk now after w r w' :
  maybe_snapshot config os clk now after w = (r, w') →
  store w' = store w ∨ store w' = snd (export_snapshot_entries clk (store w)).
Proof.
  unfold maybe_snapshot. destruct (_ <=? 0); [intros [= <- <-]; by left|]. rewrite exec_bind_gets.
  destruct (now <? _); [intros [= <- <-]; by left|]. unfold snapshot_now, exec_bind.
  destruct (export_write_truncate config os clk w) as [[[]|e] w1] eqn:Ex; apply export_store in Ex.
  - destruct (_ >? 0); by intros [= <- <-].
  - by intros [= <- <-].
Qed.

(** ** Steps *)

Lemma steps_serve w ls w' : steps config persists w ls w' → ∀ read m,
  Forall step_rand_ok ls → holds read (store w) m → serves persists read (omap item_of ls) m.
Proof.
  induction 1 as [w|w l w1 ls w' Hl Hls IH]; intros read m Hr Hs; [done|].
  apply Forall_cons in Hr as [Hrl Hr].
  destruct Hl as [w h Hh|ctx env i q r ctx' Hp E|ctx env q e ctx' Hp E|w env rand n st E|w env now after r w1 Hd E
    |w env r w1 Hd E|w env]; cbn [omap list_omap item_of].
  - by apply IH.
  - destruct (exec_serves _ _ i _ _ _ read m Hp E Hs) as (m' & Hs' & Hserve). apply Hserve. by apply IH.
  - apply IH; [done|]. apply failed_store in E; [|done]. rewrite E. by apply holds_cons.
  - apply IH; [done|]. destruct (active_expire_ok rand (env_clk env) (store w) 20 Hrl (proj1 Hs)) as (k & st' & E' & Hwf & Hv & _).
    pose proof (shrinks_active _ _ _ _ _ _ E) as Hsh. rewrite E in E'. injection E' as _ <-.
    apply (holds_fades env 0 _ (store w)); [done| |done]. apply erase_fades; try done. apply Hs.
  - apply IH; [done|]. destruct (snapshot_store _ _ _ _ _ _ _ E) as [-> | ->]; [by apply holds_cons|].
    destruct (export_refines (env_clk env) (store w) (proj1 Hs)) as (es & st' & Ex & Hwf & Hv & _).
    assert (StoreTimed.shrinks (store w) (snd (export_snapshot_entries (env_clk env) (store w)))) as Hsh by apply shrinks_sweep_shards.
    rewrite Ex in Hsh |- *. apply (holds_fades env 0 _ (store w)); [done| |done]. apply erase_fades; try done. apply Hs.
  - apply IH; [done|]. assert (store w1 = store w) as ->; [|by apply holds_cons].
    revert E. unfold fsync_round, ignore_errors, wal_call. exec_unfold. destruct (fsync_thread w); [|by intros [= <- <-]].
    destruct (wal_null w); [by intros [= <- <-]|]. destruct (sync _ _) as [[|[]] ?]; by intros [= <- <-].
  - apply IH; [done|]. by apply holds_cons.
Qed.
End Linear.

(** ** The trace *)

Definition call_event (c : Call) : Z * RespValue * RespValue := (call_conn c, call_request c, call_reply c).

Lemma steps_executions `{Platform} config persists w ls w' :
  steps config persists w ls w' →
  executions (omap event_of ls) = map call_event (omap item_call (omap item_of ls)).
Proof.
  unfold executions. induction 1 as [w|w l w1 ls w' Hl Hls IH]; [done|].
  destruct Hl as [w h Hh| | | | | | ]; cbn; try exact IH; [|by rewrite IH].
  destruct h; try done; exact IH.
Qed.

Lemma items_envs (ls : list Step) : item_env <$> omap item_of ls = omap env_of ls.
Proof. induction ls as [|[] ls IH]; cbn; first [done|exact IH|by rewrite <- IH]. Qed.

(** ** Claims *)

Section Claims.
Context `{PO : PlatformOk} `{Kernel} (config : ServerConfig) (listener : Z).

Lemma started_context x s :
  config_ok config → started config listener x s →
  trace s = [] ∧ persistence (context s) = cfg_persistence_enabled config ∧
  (cfg_persistence_enabled config = false → cells (store (world (context s))) = ∅).
Proof.
  intros [_ _ Hsh] (hardware & port & steady & now & ver & wal & files & os & ic & rc & fails & queue & user & nb & E).
  revert E. unfold new_server. destruct (create_reactor queue user) as [rc0|]; cbn [bind]; [|done].
  destruct (new_store (cfg_shards config)) as [st|] eqn:Est; [|done]. cbn [bind].
  destruct (new_pool _ _) as [[p n]|]; [|done]. cbn [bind].
  destruct (initial_world _ _ _ _ _ _ _ _) as [w|] eqn:Ew; [|done]. cbn [bind]. cond_case; [done|].
  destruct (reactor_add _ _ _ _) as [[[]|] r]; [|done]. cbn [bind]. intros E. apply Ok_inj in E as <-.
  split; [done|]. split; [done|]. intros Hp. revert Ew. unfold initial_world. rewrite Hp. intros [= <-].
  cbn. by eapply cells_new.
Qed.

(** C1. The server is linearizable, [KEYS] and [INFO] apart.  For every run - any
    clients, any cutting of their bytes into packets, any scheduling of the
    workers, any order of the readings of the clocks, with expiry cycles,
    snapshots and background syncs in between, with or without persistence, and
    also when [run] ends with an exception - the commands executed, of all the
    connections together and in the order of their execution, got the replies of
    one map of cells to which they were applied one after the other, each at the
    instant it had read; a cell leaves the map by a command or when its deadline
    has passed at an instant read before.  The map is empty at the start unless
    files were recovered.  The clocks are those that the script of the run
    supplies, in order, which must not be used up.  A turn of a worker runs a
    command to its end; all the commands but [KEYS] take effect in one critical
    section, and so nothing is lost by that.  [KEYS] visits the shards one by
    one: its reply is not claimed to be that of the map. *)
Theorem server_linearizable x s r s' :
  config_ok config → admissible x → started config listener x s →
  run config listener s = (r, s') → envs (script s') ≠ [] →
  (cfg_persistence_enabled config = false → cells (store (world (context s))) = ∅) ∧
  ∃ items, executions (trace s') = map call_event (omap item_call items) ∧
    item_env <$> items `prefix_of` envs x ∧
    serves (cfg_persistence_enabled config) [] items (cells (store (world (context s)))).
Proof.
  intros Hc Hx Hs E Hne. destruct (started_inv _ _ _ _ Hc Hx Hs) as (Hi & Hsc & _).
  destruct (started_context _ _ Hc Hs) as (Ht & Hp & Hv). split; [exact Hv|].
  destruct (run_steps config listener s r s' E) as (ls0 & last & Hls & _). set (ls := ls0 ++ last) in *.
  destruct Hls as [H1 H2 H3 H4 H5]. specialize (H4 Hne). rewrite Hsc in H4, H5. rewrite Hp in H1.
  exists (omap item_of ls). split; [|split].
  - rewrite H3, Ht. by eapply steps_executions.
  - rewrite H4, items_envs. by apply prefix_app_r.
  - eapply steps_serve; [exact H1|apply H5, Hx|]. split; [apply Hi|apply fades_refl].
Qed.
End Claims.

(** ** A run with two clients *)

#[local] Existing Instance demo_platform.
#[local] Existing Instance demo_kernel.

Definition request_text (args : list string) : bytes :=
  text_of (Array (Some (map (λ a, BulkString (Some (str a))) args))).

Definition demo_read (f : Z) : Kevent :=
  {| ev_ident := f; ev_filter := Some EVFILT_READ; ev_error := false; ev_eof := false |}.

Definition demo_envs (n : nat) : list Env :=
  map (λ i, {| env_os := calm; env_clk := frozen (demo_tick (Z.of_nat i)); env_steady := 0 |}) (seq 0 n).

(** One client sets a key, the other one reads it. *)
Definition demo_two_clients : Script :=
  MkScript [recv_data (request_text ["SET"; "k"; "v"]); recv_error EAGAIN; recv_data (request_text ["GET"; "k"])]
    (replicate 4 (send_count 100)) [accept_ok; accept_ok] [] [] [wait_ready [demo_read 3]]
    (replicate 12 false) (replicate 40 [0; 0]%nat) [] (demo_envs 8) [].

Lemma demo_two_clients_run :
  let '(r, s') := demo_run 8 demo_two_clients in
  r = Ok tt ∧ envs (script s') ≠ [] ∧
  map snd (executions (trace s')) = [SimpleString (str "OK"); BulkString (Some (str "v"))].
Proof. vm_compute. split_and!; [reflexivity|discriminate|reflexivity]. Qed.

Lemma server_linearizable_witness :
  ∃ s' items, demo_run 8 demo_two_clients = (Ok tt, s') ∧
    executions (trace s') = map call_event (omap item_call items) ∧
    map call_reply (omap item_call items) = [SimpleString (str "OK"); BulkString (Some (str "v"))] ∧
    serves false [] items ∅.
Proof.
  pose proof demo_two_clients_run as Hrun. destruct (demo_run 8 demo_two_clients) as [r s'] eqn:E.
  destruct Hrun as (-> & Hne & Hex). unfold demo_run in E.
  destruct (demo_new 8 demo_two_clients) as [s|] eqn:En; [|discriminate E].
  destruct (@server_linearizable demo_platform demo_platform_ok demo_kernel (demo_server_config 8) 3 demo_two_clients s (Ok tt) s')
    as (Hv & items & Hc & _ & Hs).
  - apply demo_config_ok.
  - split; [intros [Hs _]%elem_of_replicate; discriminate Hs|constructor].
  - by apply demo_started.
  - exact E.
  - exact Hne.
  - exists s', items. split; [reflexivity|]. split; [exact Hc|]. split.
    + rewrite Hc, map_map in Hex. exact Hex.
    + rewrite (Hv eq_refl) in Hs. exact Hs.
Defined.
