(* ===== verification/ServerDurable.v ===== *)
(** * What survives a crash of the server

    The engine of a running server lives the life that [EngineCorrect] speaks of:
    the mutations of its history are those of the commands executed, in order.
    So a crash at any moment of a run is recovered to the commands executed so
    far. *)

From S2P Require Import Prelude Resp Parser Disk Wal WalCorrect WalProps Store StoreInv StoreSpec StoreCorrect.
From S2P Require Import StoreTheorems Snapshot SnapshotCorrect Engine EngineSpec EngineCorrect EngineProps Stats Registry.
From S2P Require Import RegistryProps ThreadPool Socket Reactor ServerCommands Server ServerFollows ServerHistory.
From S2P Require Import ServerInv ServerEnd ServerRun ServerProps ServerLinear.

(** ** Histories and snapshots *)

Lemma p_live_app m us us' : p_live m (us ++ us') = p_live (p_live m us) us'.
Proof. revert m. induction us as [|[now u] us IH]; intros m; [done|]. apply IH. Qed.

(** Dropping dead entries before later mutations changes nothing. *)
Lemma p_live_age now now' m us :
  Forall (λ u, now <= u.1) us → now <= now' → age now' (p_live (age now m) us) = age now' (p_live m us).
Proof.
  intros Hus Hle. destruct us as [|[t u] us]; [by apply age_age|].
  apply Forall_cons in Hus as [Ht _]. cbn [p_live]. by rewrite age_age.
Qed.

Lemma size_p_live us : ∀ m, (size (p_live m us) <= size m + length us)%nat.
Proof.
  induction us as [|[now u] us IH]; intros m; cbn [p_live length]; [lia|]. etrans; [apply IH|].
  assert (size (age now m) <= size m)%nat by apply map_size_filter.
  assert (size (p_apply now (age now m) u) <= S (size (age now m)))%nat; [|lia].
  destruct u as [k v|ks|k ms]; cbn [p_apply].
  - rewrite map_size_insert. destruct (_ !! k); cbn; lia.
  - etrans; [apply map_size_filter|]. lia.
  - destruct (age now m !! k) as [[v w]|] eqn:E; [|lia]. unfold p_put. destruct (alive _ _).
    + rewrite map_size_insert, E. cbn. lia.
    + rewrite map_size_delete. destruct (_ !! k); cbn; lia.
Qed.

Lemma settled_mono now us : ∀ D D', D' ⊆ D → settled now D us → settled now D' us.
Proof.
  induction us as [|u us IH]; intros D D' Hsub; [done|]. rewrite !settled_cons. intros [Hu Hs]. split.
  - destruct u; set_solver.
  - eapply IH; [|exact Hs]. destruct u as [k v|ks|k ms]; cbn [settle]; [set_solver..|].
    destruct (_ <=? _); set_solver.
Qed.

Lemma settled_app now us us' : ∀ m D,
  Forall (λ u, u.1 <= now) us → dead_in now m D → settled now D (us ++ us').*2 →
  ∃ D', dead_in now (p_live m us) D' ∧ settled now D' us'.*2.
Proof.
  induction us as [|[t u] us IH]; intros m D Hle HD Hs; [by exists D|].
  apply Forall_cons in Hle as [Ht Hle]. cbn [app fmap list_fmap snd] in Hs.
  apply settled_cons in Hs as [Hu Hs]. destruct (apply_eq t now m u D Ht HD Hu) as [_ HD'].
  cbn [p_live]. by apply (IH _ (settle now D u)).
Qed.

(** A map that is faithful to what follows a snapshot is faithful to the whole
    history. *)
Lemma faithful_rebase now t0 us us' m :
  Forall (λ u, u.1 <= t0) us → Forall (λ u, t0 <= u.1) us' → t0 <= now →
  faithful now (age t0 (p_live ∅ us)) us' m → faithful now ∅ (us ++ us') m.
Proof.
  intros Hus Hus' Hle [Hsub Heq]. unfold faithful. rewrite p_live_app, <- (p_live_age t0) by done.
  split; [done|]. intros Hs. apply Heq.
  destruct (settled_app now us us' ∅ (due_keys now ∅)) as (D & HD & HsD);
    [eapply Forall_impl; [exact Hus|]; cbn; lia|apply dead_in_due|done|].
  eapply settled_mono; [|exact HsD]. intros k Hk. unfold due_keys in Hk. apply elem_of_dom in Hk as [c Hc].
  apply map_lookup_filter_Some in Hc as [Hc Ha]. apply (dead_in_age t0 now _ D HD k c Hc). cbn in Ha. done.
Qed.

(** ** The engine of a running server *)

(** The instants of the environments, which do not go back. *)
Fixpoint instants (z : Z) (t : Tick) (es : list Env) : Prop :=
  match es with
  | [] => True
  | e :: es' => ∃ t', env_clk e = frozen t' ∧ tick_ok z t' ∧ mono t <= mono t' ∧ instants z t' es'
  end.

Lemma instants_app z es es' : ∀ t, instants z t (es ++ es') → instants z t es.
Proof.
  induction es as [|e es IH]; intros t; [done|]. cbn. intros (t' & Hc & Ht & Hle & Hes). exists t'. eauto.
Qed.

(** The mutation of a step, with its time. *)
Definition mutation_step (l : Step) : option (Z * Mut) :=
  match l with
  | st_exec env _ q _ =>
      let now := wall (env_clk env 0%nat) in
      u ← mutation_of (env_steady env) now q; Some (now, u)
  | _ => None
  end.

Definition mutations (ls : list Step) : list (Z * Mut) := omap mutation_step ls.

(** A snapshot that was begun was completed. *)
Definition completed (l : Step) : Prop := match l with st_snapshot _ returned => returned = true | _ => True end.

(** The log can hold the mutation. *)
Definition step_loggable (l : Step) : Prop :=
  match mutation_step l with Some (_, u) => valid_mut u | None => True end.

(** The operations that requests denote: three mutations, and reads. *)
Lemma interpret_ops steady q op render :
  interpret steady q = Run op render →
  (∃ k v, op = OpSet k (VString v) None) ∨ (∃ ks, op = OpDelMany ks) ∨ (∃ k s, op = OpExpire k s) ∨ is_read op = true.
Proof.
  unfold interpret. destruct (extract_arguments q) as [[|nm args]|]; [done| |done]. unfold command.
  repeat case_decide; try done;
    repeat match goal with
    | |- match ?l with _ => _ end = _ → _ => destruct l
    | |- (if ?c then _ else _) = _ → _ => destruct c
    end; try done; intros [= <- _]; eauto 6.
Qed.

(** The same, for every command of a trace in every environment. *)
Definition loggable_call (e : Env) (c : Z * RespValue * RespValue) : Prop :=
  match mutation_of (env_steady e) (wall (env_clk e 0%nat)) c.1.2 with Some u => valid_mut u | None => True end.

#[export] Instance loggable_call_dec e c : Decision (loggable_call e c).
Proof. unfold loggable_call. destruct (mutation_of _ _ _); apply _. Defined.

Definition loggable (es : list Env) (tr : list Happened) : Prop :=
  Forall (λ e, Forall (loggable_call e) (executions tr)) es.

Lemma loggable_steps ls es es' tr :
  omap env_of ls ++ es' = es → omap event_of ls `prefix_of` tr → loggable es tr → Forall step_loggable ls.
Proof.
  intros He [tr' ->] Hl. apply Forall_forall. intros l Hin. unfold step_loggable, mutation_step.
  destruct l as [|env i q rep| | | | |]; try done.
  assert (env ∈ es) as Henv.
  { rewrite <- He. apply elem_of_app. left. apply list_elem_of_omap. by exists (st_exec env i q rep). }
  assert ((i, q, rep) ∈ executions (omap event_of ls ++ tr')) as Hex.
  { unfold executions. rewrite omap_app. apply elem_of_app. left. apply list_elem_of_omap.
    exists (did_exec i q rep). split; [|done]. apply list_elem_of_omap. by exists (st_exec env i q rep). }
  unfold loggable in Hl. rewrite Forall_forall in Hl. specialize (Hl env Henv). rewrite Forall_forall in Hl.
  specialize (Hl _ Hex). unfold loggable_call in Hl. cbn in Hl. by destruct (mutation_of _ _ _).
Qed.

(** Without periodic snapshots every step completes. *)
Lemma no_snapshots `{Platform} config persists w ls w' :
  snapshot_interval_seconds config <= 0 → steps config persists w ls w' → Forall completed ls.
Proof.
  intros Hi. induction 1 as [w|w l w1 ls w' Hl Hls IH]; [constructor|]. constructor; [|done].
  destruct Hl as [| | | |w env now after r w1 Hd E| |]; try done. cbn. revert E. unfold maybe_snapshot.
  replace (snapshot_interval_seconds config <=? 0) with true by lia. by intros [= <- _].
Qed.

Section Durable.
Context `{PO : PlatformOk} (config : PersistenceConfig) (z : Z).

(** The engine [w] at the instant [t], after the mutations [us]. *)
Definition engine_at (w : World) (us : list (Z * Mut)) (t : Tick) : Prop :=
  ∃ t0 us0 us1, us = us0 ++ us1 ∧ lifetime config z w (age t0 (p_live ∅ us0)) us1 t ∧ t0 <= wall t ∧
    Forall (λ u, u.1 <= t0) us0 ∧ Forall (λ u, t0 <= u.1) us1 ∧ last_offset_ (wal_ w) <= Z.of_nat (length us).

Lemma life_wait w base us t t' :
  lifetime config z w base us t → tick_ok z t' → mono t <= mono t' → lifetime config z w base us t'.
Proof.
  intros Hl Ht Hle. replace w with (set_store (store w) w) by (by destruct w).
  by apply (life_active_expire config z w base us t t' (λ _ _ _, 0%nat) 0 0); [| | |intros ????; lia|].
Qed.

Lemma life_tick_ok w base us t : lifetime config z w base us t → tick_ok z t.
Proof. intros Hl. destruct (lifetime_inv _ _ _ _ _ _ Hl) as (recs & n & N & Hi). apply Hi. Qed.

Lemma engine_wait w us t t' :
  engine_at w us t → tick_ok z t' → mono t <= mono t' → engine_at w us t'.
Proof.
  intros (t0 & us0 & us1 & -> & Hl & H0 & H1 & H2 & H3) Ht Hle.
  pose proof (tick_le z t t' (life_tick_ok _ _ _ _ Hl) Ht Hle).
  exists t0, us0, us1. split_and!; [done|by eapply life_wait|lia|done..].
Qed.

(** A step of the engine's life that changes neither the history nor the log's
    last offset. *)
Lemma engine_same w w' us t t' :
  (∀ base us, lifetime config z w base us t → lifetime config z w' base us t') →
  wall t <= wall t' → last_offset_ (wal_ w') = last_offset_ (wal_ w) → engine_at w us t → engine_at w' us t'.
Proof.
  intros Hstep Hle Hlast (t0 & us0 & us1 & -> & Hl & H0 & H1 & H2 & H3).
  exists t0, us0, us1. rewrite Hlast. split_and!; [done|by apply Hstep|lia|done..].
Qed.

(** An acknowledged mutation. *)
Lemma engine_mutation w w' us t t' u :
  (∀ base us, lifetime config z w base us t → last_offset_ (wal_ w) + 1 < 2 ^ 64 →
     lifetime config z w' base (us ++ [(wall t', u)]) t') →
  wall t <= wall t' → last_offset_ (wal_ w') = u64 (last_offset_ (wal_ w) + 1) →
  Z.of_nat (length us) + 1 < 2 ^ 64 → engine_at w us t → engine_at w' (us ++ [(wall t', u)]) t'.
Proof.
  intros Hstep Hle Hlast Hlen (t0 & us0 & us1 & -> & Hl & H0 & H1 & H2 & H3).
  destruct (lifetime_inv _ _ _ _ _ _ Hl) as (recs & n & N & Hi).
  pose proof (inv_u64 _ _ _ (wal_run_inv _ _ _ (life_wal _ _ _ _ _ _ _ _ _ Hi))) as Hu.
  exists t0, us0, (us1 ++ [(wall t', u)]). rewrite <- app_assoc. split_and!; [done|apply Hstep; [done|lia]|lia|done| |].
  - apply Forall_app_2; [done|]. constructor; [cbn; lia|constructor].
  - rewrite Hlast, u64_id by (unfold is_u64 in *; lia). rewrite !length_app in *. cbn [length]. lia.
Qed.

Lemma durable_offset {A} os c p (f : Store → A * Store) w a w' :
  wal_null w = false → durable config os c p f w = (Ok a, w') →
  last_offset_ (wal_ w') = u64 (last_offset_ (wal_ w) + 1).
Proof.
  intros Hn E. destruct (durable_ok config os c p f w a w' Hn E) as (o & wal1 & wal2 & Ea & Es & _ & ->).
  apply append_ok in Ea as (-> & _ & ->). cbn [wal_ set_store set_wal].
  case_decide; [|by subst]. by apply sync_ok in Es as [_ ->].
Qed.

(** ** One command *)

Lemma exec_life ctx env i q r ctx' us t t' :
  persistence ctx = true → execute config env q ctx = (Ok r, ctx') →
  env_clk env = frozen t' → tick_ok z t' → mono t <= mono t' →
  step_loggable (st_exec env i q r) → Z.of_nat (length us) + 1 < 2 ^ 64 → engine_at (world ctx) us t →
  engine_at (world ctx') (us ++ mutations [st_exec env i q r]) t'.
Proof.
  intros Hp E Hclk Ht Hle Hlog Hlen He. unfold mutations, step_loggable in *. cbn [omap list_omap mutation_step] in *.
  rewrite Hclk in *. change (frozen t' 0%nat) with t' in *. unfold mutation_of in *.
  assert (wal_null (world ctx) = false ∧ wall t <= wall t') as [Hnull Hw].
  { destruct He as (t0 & us0 & us1 & _ & Hl & _). destruct (lifetime_inv _ _ _ _ _ _ Hl) as (recs & n & N & Hi).
    split; [apply Hi|]. eapply tick_le; [apply Hi|done|done]. }
  pose proof (execute_interpret config env q ctx) as Hx.
  destruct (interpret (env_steady env) q) as [a|op render|] eqn:Ei; cbn [executes] in Hx; rewrite Hx in E.
  - injection E as _ <-. cbn. rewrite app_nil_r. by eapply engine_wait.
  - apply exec_bind_ok in E as (reply & c1 & E1 & E2). injection E2 as _ <-.
    revert E1. unfold perform. rewrite exec_bind_gets. destruct (op_overflows _ _ _ _); [done|].
    rewrite exec_bind_gets, Hp, Hclk.
    destruct (interpret_ops _ _ _ _ Ei) as [(k & v & ->)|[(ks & ->)|[(k & secs & ->)|Hread]]].
    + cbn. intros (a & c2 & E1 & E2)%exec_bind_ok. injection E2 as _ <-. destruct a.
      apply on_engine_ok in E1 as (w' & E1 & ->). cbn [world set_world].
      eapply engine_mutation; [|done|exact (durable_offset _ _ _ _ _ _ _ Hnull E1)|done|done].
      intros base us' Hl Ho. by eapply life_set.
    + cbn. intros (n & c2 & E1 & E2)%exec_bind_ok. injection E2 as _ <-.
      apply on_engine_ok in E1 as (w' & E1 & ->). cbn [world set_world].
      eapply engine_mutation; [|done|exact (durable_offset _ _ _ _ _ _ _ Hnull E1)|done|done].
      intros base us' Hl Ho. by eapply life_del.
    + cbn. intros (b & c2 & E1 & E2)%exec_bind_ok. injection E2 as _ <-.
      apply on_engine_ok in E1 as (w' & E1 & ->). cbn [world set_world].
      eapply engine_mutation; [|done|exact (durable_offset _ _ _ _ _ _ _ Hnull E1)|done|done].
      intros base us' Hl Ho. by eapply life_expire.
    + intros E1. assert (on_store (StoreSpec.run op (frozen t')) ctx = (Ok reply, c1)) as E2
        by (destruct op; try done; exact E1).
      unfold on_store, with_store, zoom in E2. destruct (StoreSpec.run op (frozen t') (store (world ctx))) as [rep st] eqn:Er.
      injection E2 as _ <-. cbn [world set_world].
      replace (us ++ _) with us.
      * apply (engine_same (world ctx) _ us t t'); [|exact Hw|done|exact He]. intros base us' Hl. by eapply life_read.
      * destruct op; try done; cbn; by rewrite app_nil_r.
  - revert E. unfold info. exec_unfold. intros [= _ <-]. cbn. rewrite app_nil_r. by eapply engine_wait.
Qed.

(** ** The other steps *)

Lemma fsync_life w us t os r w' : engine_at w us t → fsync_round os w = (r, w') → engine_at w' us t.
Proof.
  intros He E. assert (wal_null w = false) as Hnull.
  { destruct He as (t0 & us0 & us1 & _ & Hl & _). destruct (lifetime_inv _ _ _ _ _ _ Hl) as (recs & n & N & Hi).
    apply Hi. }
  assert (r = Ok tt ∧ last_offset_ (wal_ w') = last_offset_ (wal_ w)) as [-> Hlast].
  { revert E. unfold fsync_round, ignore_errors, wal_call. exec_unfold. destruct (fsync_thread w); [|by intros [= <- <-]].
    rewrite Hnull. pose proof (sync_safe os (wal_ w) Logic.I) as [_ Hx].
    destruct (sync os (wal_ w)) as [rs wal1] eqn:Es.
    assert (last_offset_ wal1 = last_offset_ (wal_ w)) as Hl by (by destruct (sync_cases _ _ _ _ Es) as [[_ ->]| ->]).
    destruct rs as [a|e]; [by intros [= <- <-]|]. specialize (Hx e eq_refl). destruct e; try done; by intros [= <- <-]. }
  apply (engine_same w _ us t t); [|lia|done|done]. intros base us' Hl. by eapply life_fsync.
Qed.

Lemma snapshot_life w us t t' os now after w' :
  engine_at w us t → tick_ok z t' → mono t <= mono t' → Z.of_nat (length us) < 2 ^ 64 →
  maybe_snapshot config os (frozen t') now after w = (Ok tt, w') → engine_at w' us t'.
Proof.
  intros He Ht Hle Hlen. unfold maybe_snapshot. destruct (_ <=? 0); [intros [= <-]; by eapply engine_wait|].
  rewrite exec_bind_gets. destruct (now <? _); [intros [= <-]; by eapply engine_wait|]. intros E.
  destruct He as (t0 & us0 & us1 & -> & Hl & H0 & H1 & H2 & H3).
  destruct (lifetime_inv _ _ _ _ _ _ Hl) as (recs & n & N & Hi).
  assert (wall t <= wall t') as Hw by (eapply tick_le; [apply Hi|done|done]).
  assert (age (wall t') (p_live (age t0 (p_live ∅ us0)) us1) = age (wall t') (p_live ∅ (us0 ++ us1))) as Hage
    by (rewrite p_live_app; apply p_live_age; [done|lia]).
  exists (wall t'), (us0 ++ us1), []. rewrite app_nil_r. split_and!; [done| |lia| |constructor|].
  - rewrite <- Hage. eapply life_snapshot; [exact Hl|done|done| |exact E]. rewrite Hage.
    assert (size (age (wall t') (p_live ∅ (us0 ++ us1))) <= length (us0 ++ us1))%nat; [|lia].
    etrans; [apply map_size_filter|]. etrans; [apply size_p_live|]. rewrite map_size_empty. lia.
  - pose proof (life_times _ _ _ _ _ _ _ _ _ Hi) as Htimes. apply Forall_app_2.
    + eapply Forall_impl; [exact H1|]. cbn. lia.
    + eapply Forall_impl; [exact Htimes|]. cbn. lia.
  - revert E. unfold snapshot_now. rewrite exec_bind_seq.
    destruct (export_write_truncate config os (frozen t') w) as [[[]|] w1] eqn:Ex; [|done].
    pose proof (snapshot_ok config os (frozen t') w w1 (life_null _ _ _ _ _ _ _ _ _ Hi) Ex) as Hok.
    destruct (export_snapshot_entries (frozen t') (store w)) as [es st]. destruct Hok as (wal1 & wal2 & d & _ & _ & Et & ->).
    apply truncate_ok in Et as ->. unfold modify, ret. by destruct (_ >? 0); intros [= <-].
Qed.

Lemma step_life w l w1 us t t' :
  step config true w l w1 → engine_at w us t → tick_ok z t' → mono t <= mono t' →
  (∀ e, env_of l = Some e → env_clk e = frozen t') →
  succeeded l → completed l → step_loggable l → step_rand_ok l →
  Z.of_nat (length us + length (omap env_of [l])) < 2 ^ 64 →
  engine_at w1 (us ++ mutations [l]) t'.
Proof.
  intros Hl He Ht Hle Hclk Hsucc Hret Hlog Hrand Hlen.
  destruct Hl as [w h Hh|ctx env i q r ctx' Hp E|ctx env q e ctx' Hp E|w env rand n st E|w env now after r w1 Hd E
    |w env r w1 Hd E|w env]; try done; cbn [omap list_omap env_of length] in Hlen.
  - cbn. rewrite app_nil_r. by eapply engine_wait.
  - eapply exec_life; [done|exact E|by apply Hclk|done|done|done|lia|done].
  - cbn. rewrite app_nil_r. rewrite (Hclk env eq_refl) in E.
    apply (engine_same w _ us t t'); [| |done|done].
    + intros base us' Hl. by eapply life_active_expire.
    + destruct He as (t0 & us0 & us1 & _ & Hl & _). eapply tick_le; [by eapply life_tick_ok|done|done].
  - cbn. rewrite app_nil_r. cbn in Hret. destruct r as [[]|]; [|done]. rewrite (Hclk env eq_refl) in E.
    eapply snapshot_life; [exact He|done|done|lia|exact E].
  - cbn. rewrite app_nil_r. eapply fsync_life; [|exact E]. by eapply engine_wait.
  - cbn. rewrite app_nil_r. by eapply engine_wait.
Qed.

(** A sequence of steps, each one in its environment. *)
Lemma steps_life w ls w' : steps config true w ls w' → ∀ us t,
  engine_at w us t → instants z t (omap env_of ls) → Forall succeeded ls → Forall completed ls →
  Forall step_loggable ls → Forall step_rand_ok ls → Z.of_nat (length us + length (omap env_of ls)) < 2 ^ 64 →
  ∃ t', engine_at w' (us ++ mutations ls) t' ∧
    (t' = t ∨ ∃ e, e ∈ omap env_of ls ∧ env_clk e = frozen t').
Proof.
  induction 1 as [w|w l w1 ls w' Hl Hls IH]; intros us t He Hin Hsucc Hret Hlog Hrand Hlen.
  { exists t. cbn. rewrite app_nil_r. split; [done|by left]. }
  apply Forall_cons in Hsucc as [Hsl Hsucc]. apply Forall_cons in Hret as [Hrl Hret]. apply Forall_cons in Hlog as [Hll Hlog].
  apply Forall_cons in Hrand as [Hal Hrand].
  change (l :: ls) with ([l] ++ ls) in Hlen. rewrite omap_app, length_app in Hlen.
  assert (∃ t1, tick_ok z t1 ∧ mono t <= mono t1 ∧ (∀ e, env_of l = Some e → env_clk e = frozen t1) ∧
    instants z t1 (omap env_of ls) ∧ (env_of l = None → t1 = t)) as (t1 & Ht1 & Hle & Hclk & Hin1 & Ht).
  { cbn [omap list_omap] in Hin. destruct (env_of l) as [e|] eqn:Ee.
    - destruct Hin as (t1 & Hc & Ht1 & Hle & Hin). exists t1. split_and!; [done|done| |done|done]. by intros e' [= <-].
    - exists t. split_and!; [|lia|done|done|done]. destruct He as (t0 & us0 & us1 & _ & Hlife & _).
      by eapply life_tick_ok. }
  assert (engine_at w1 (us ++ mutations [l]) t1) as He1 by (eapply step_life; try done; lia).
  destruct (IH _ _ He1 Hin1 Hsucc Hret Hlog Hrand) as (t' & He' & Ht').
  { unfold mutations. rewrite length_app. destruct l; cbn in Hlen |- *; try lia. destruct (mutation_of _ _ _); cbn; lia. }
  exists t'. split.
  - unfold mutations in *. rewrite <- app_assoc, <- omap_app in He'. exact He'.
  - cbn [omap list_omap]. destruct (env_of l) as [e|] eqn:Ee.
    + destruct Ht' as [->|(e' & Hin' & Hc')]; right.
      * exists e. split; [set_solver|by apply Hclk].
      * exists e'. split; [set_solver|done].
    + rewrite (Ht eq_refl) in Ht'. done.
Qed.
End Durable.

(** ** Claims *)

Section Claims.
Context `{PO : PlatformOk} `{Kernel} (config : ServerConfig) (listener : Z).

(** The server that the constructor leaves when the data directory is empty. *)
Definition started_fresh (x : Script) (s : Server) : Prop :=
  ∃ hardware port steady now ver os ic rc fails queue user nonblocking,
    new_server config listener hardware port steady now ver [] no_files os ic rc fails queue user nonblocking x = Ok s.

Lemma fresh_started x s : started_fresh x s → started config listener x s.
Proof.
  intros (hardware & port & steady & now & ver & os & ic & rc & fails & queue & user & nb & E). by do 14 eexists.
Qed.

Lemma fresh_engine x s z start :
  cfg_persistence_enabled config = true → config_ok config → started_fresh x s → tick_ok z start →
  engine_at (cfg_persistence config) z (world (context s)) [] start.
Proof.
  intros Hp [_ _ Hsh] (hardware & port & steady & now & ver & os & ic & rc & fails & queue & user & nb & E) Ht.
  revert E. unfold new_server. destruct (create_reactor queue user) as [rc0|]; cbn [bind]; [|done].
  destruct (new_store (cfg_shards config)) as [st|] eqn:Est; [|done]. cbn [bind].
  destruct (new_pool _ _) as [[p n]|]; [|done]. cbn [bind].
  destruct (initial_world _ _ _ _ _ _ _ _) as [w|] eqn:Ew; [|done]. cbn [bind]. cond_case; [done|].
  destruct (reactor_add _ _ _ _) as [[[]|] r]; [|done]. cbn [bind]. intros E. apply Ok_inj in E as <-. cbn [world context].
  revert Ew. unfold initial_world. rewrite Hp. destruct (data_dir (cfg_persistence config)) eqn:Ed; [done|].
  destruct (new_engine _ _ _ _ _ _) as [w0|] eqn:En; [|done]. cbn [bind].
  destruct (recover_into _ _ _ _ w0) as [[[]|] w1] eqn:Er; [|done]. cbn [bind]. intros [= <-].
  exists (wall start), [], []. split_and!; [done| |lia|constructor|constructor|].
  - cbn [p_live]. unfold age. rewrite map_filter_empty. eapply life_start; [|exact Est|exact En|exact Er|done]. done.
  - by destruct (recover_fresh _ _ _ _ _ _ _ _ En Er) as (_ & -> & _).
Qed.

(** C2. What a client was told is still there after a crash. Take a run of a
    server with persistence that started on an empty data directory, and let the
    process die between two steps of the run, after the steps [before] and before
    a step that throws and so ends the run: a command, an expiry cycle, a
    background sync and a snapshot are one step each (a crash inside an append or
    a snapshot is the subject of [wal_crash_recovery] and
    [snapshot_interruption_harmless]). The two clocks advance together during the
    run, do not go back from step to step, and a step sees one instant of them
    ([tick_ok], [instants]), the script holds more instants than the run uses and
    fewer than 2^64, the mutations fit the format of the log ([loggable]), and
    either snapshots are off or none had failed. Then a restart at a time that is
    not earlier than any of the run succeeds, and the map it recovers is faithful
    to the mutations of the commands executed before the crash, in the order of
    their execution, cut at some point - and with [fsync = always] not cut at all,
    so that every command whose reply could have been sent is there. The same is
    not true of a server that was restarted before: [restart_forgets_write]. *)
Theorem server_crash_recovery x s r s' z start :
  cfg_persistence_enabled config = true → config_ok config → admissible x → started_fresh x s →
  tick_ok z start → instants z start (envs x) → Z.of_nat (length (envs x)) < 2 ^ 64 →
  run config listener s = (r, s') → envs (script s') ≠ [] → loggable (envs x) (trace s') →
  ∃ ls, leads_by config s ls s' ∧
    ∀ before after w, ls = before ++ after → after ≠ [] ∨ r = Ok tt →
      steps (cfg_persistence config) true (world (context s)) before w →
      snapshot_interval_seconds (cfg_persistence config) <= 0 ∨ Forall completed before →
      ∀ c n' st' os0 steady w0 z' t', crash_image (wal_ w) c → 0 <= n' → new_store n' = Ok st' →
        new_engine (cfg_persistence config) os0 steady c (snapshots w) st' = Ok w0 → tick_ok z' t' →
        wall start <= wall t' → (∀ e, e ∈ envs x → wall (env_clk e 0%nat) <= wall t') →
        ∃ j w1 m, (j <= length (mutations before))%nat ∧
          (fsync (cfg_persistence config) = always → j = length (mutations before)) ∧
          recover_into (cfg_persistence config) calm (λ _, frozen t') (λ _, frozen t') w0 = (Ok tt, w1) ∧
          stands z' t' (store w1) m ∧ faithful (wall t') ∅ (take j (mutations before)) m.
Proof.
  intros Hp Hc Hx Hs Ht Hin Hlen E Hne Hlog. pose proof (fresh_started _ _ Hs) as Hst.
  destruct (started_inv _ _ _ _ Hc Hx Hst) as (_ & Hsc & _). destruct (started_context config listener _ _ Hc Hst) as (Htr & _).
  destruct (run_steps config listener s r s' E) as (ls0 & last & Hls & Hsucc & Hlast & Hok).
  exists (ls0 ++ last). split; [done|]. pose proof Hls as [_ _ H3 H4 H5]. specialize (H4 Hne). rewrite Hsc in H4, H5.
  rewrite Htr in H3. destruct (H5 (adm_rands _ Hx)) as [Hrand _]. intros before after w Heq Hafter Hw Hcomp.
  assert (Forall succeeded before) as Hsb.
  { assert (before `prefix_of` ls0) as [k ->]; [|by apply Forall_app in Hsucc as [? _]].
    destruct Hafter as [Ha|Hr]; [|rewrite (Hok Hr), app_nil_r in Heq; by exists after].
    destruct last as [|l [|]]; [rewrite app_nil_r in Heq; by exists after| |cbn in Hlast; lia].
    destruct after as [|a after _] using rev_ind; [done|]. rewrite app_assoc in Heq.
    apply app_inj_2 in Heq as [-> _]; [|done]. by exists after. }
  rewrite Heq, omap_app in H3. rewrite Heq, omap_app in H4. rewrite Heq in Hrand. apply Forall_app in Hrand as [Hrand _].
  pose proof (fresh_engine x s z start Hp Hc Hs Ht) as He.
  destruct (steps_life _ _ _ _ _ Hw [] start He) as (t & He' & Htime); [|done| | |done| |].
  { rewrite H4, <- app_assoc in Hin. by apply instants_app in Hin. }
  { destruct Hcomp as [Hi|?]; [by eapply no_snapshots|done]. }
  { eapply (loggable_steps before (envs x)); [by rewrite H4, <- app_assoc| |exact Hlog]. rewrite H3.
    by exists (omap event_of after). }
  { rewrite H4, !length_app in Hlen. cbn [length]. lia. }
  intros c n' st' os0 steady w0 z' t' Hcrash Hn Hst' Hnew Ht' Hstart Hall.
  assert (wall t <= wall t') as Hle.
  { destruct Htime as [->|(e & He0 & Hclk)]; [done|]. specialize (Hall e). rewrite Hclk in Hall. apply Hall.
    rewrite H4. set_solver. }
  destruct He' as (t0 & us0 & us1 & Hus & Hl & Ht0 & H1 & H2 & _). cbn [app] in Hus. rewrite Hus.
  destruct (crash_restart _ _ _ _ _ _ _ _ _ _ _ _ _ _ Hl Hcrash Hn Hst' Hnew Ht' Hle) as (j & w1 & m & Hj & Hj' & Er & Hm & Hf).
  exists (length us0 + j)%nat, w1, m. rewrite length_app. split_and!; [lia|intros Ha; rewrite (Hj' Ha); lia|done|done|].
  rewrite take_app_add. apply (faithful_rebase _ t0); [done|by apply Forall_take|lia|done].
Qed.
End Claims.

(** ** A run with a write *)

#[local] Existing Instance demo_platform.
#[local] Existing Instance demo_kernel.

(** The configuration of [demo_server_config] with a log that is synced at every
    write. *)
Definition demo_durable_config : ServerConfig := {|
  cfg_workers := 1; cfg_shards := 2; cfg_max_connections := 8; cfg_worker_queue_limit := 8;
  cfg_max_output_buffer_bytes := 1000; cfg_active_expiry_hz := 0; cfg_idle_timeout := 0;
  cfg_parser_limits := default_limits; cfg_persistence_enabled := true; cfg_persistence := EngineProps.demo_config;
|}.

(** One client writes a key; the engine's thread takes a turn now and then. *)
Definition demo_durable_script : Script :=
  MkScript [recv_data (request_text ["SET"; "k"; "v"])] (replicate 4 (send_count 100)) [accept_ok] [] []
    [wait_ready [demo_read 3]] (replicate 4 false) (replicate 20 [0; 7]%nat) [] (demo_envs 60) [].

Definition demo_durable_new : result Server :=
  new_server demo_durable_config 3 1 6379 0 0 (str "0.1.0") [] no_files calm (λ _, frozen (demo_tick 0))
    (λ _, frozen (demo_tick 0)) None true true true demo_durable_script.

Definition demo_durable_end : option Server :=
  match demo_durable_new with
  | Ok s => match run demo_durable_config 3 s with (Ok _, s') => Some s' | _ => None end
  | Throw _ => None
  end.

Lemma demo_instants n k : instants demo_z (demo_tick (Z.of_nat k))
  (map (λ i, {| env_os := calm; env_clk := frozen (demo_tick (Z.of_nat i)); env_steady := 0 |}) (seq k n)).
Proof.
  assert (∀ n k t, mono t <= mono (demo_tick (Z.of_nat k)) → instants demo_z t
    (map (λ i, {| env_os := calm; env_clk := frozen (demo_tick (Z.of_nat i)); env_steady := 0 |}) (seq k n))) as Hgen.
  { clear. induction n as [|n IH]; intros k t Hle; [done|]. cbn [seq map instants].
    exists (demo_tick (Z.of_nat k)). split; [done|]. split; [apply demo_tick_ok|]. split; [done|]. apply IH.
    unfold demo_tick. cbn [mono]. lia. }
  by apply Hgen.
Qed.

Lemma demo_durable_run :
  match demo_durable_end with
  | Some s' =>
      bool_decide (envs (script s') = []) = false ∧ bool_decide (loggable (demo_envs 60) (trace s')) = true ∧
      map snd (executions (trace s')) = [SimpleString (str "OK")] ∧
      wal_synced (wal_ (world (context s'))) = wal_file (wal_ (world (context s')))
  | None => False
  end.
Proof. vm_compute. split_and!; reflexivity. Qed.

Lemma server_crash_recovery_witness :
  ∃ s s' ls w0 w1 m, demo_durable_new = Ok s ∧ run demo_durable_config 3 s = (Ok tt, s') ∧
    leads_by demo_durable_config s ls s' ∧ map snd (executions (trace s')) = [SimpleString (str "OK")] ∧
    new_engine EngineProps.demo_config calm 0 (wal_synced (wal_ (world (context s')))) (snapshots (world (context s')))
      (demo_store 1) = Ok w0 ∧
    @recover_into demo_platform EngineProps.demo_config calm (λ _, frozen (demo_tick 99)) (λ _, frozen (demo_tick 99)) w0
      = (Ok tt, w1) ∧
    @stands demo_platform demo_z (demo_tick 99) (store w1) m ∧ faithful (wall (demo_tick 99)) ∅ (mutations ls) m.
Proof.
  pose proof demo_durable_run as Hrun. unfold demo_durable_end in Hrun.
  destruct demo_durable_new as [s|] eqn:Es; [|contradiction].
  destruct (run demo_durable_config 3 s) as [[[]|] s'] eqn:Er; [|contradiction].
  destruct Hrun as (Hne & Hlog & Hex & Hsync). apply bool_decide_eq_false in Hne. apply bool_decide_eq_true in Hlog.
  destruct (@server_crash_recovery demo_platform demo_platform_ok demo_kernel demo_durable_config 3 demo_durable_script
    s (Ok tt) s' demo_z (demo_tick 0)) as (ls & Hls & Hcrash).
  - reflexivity.
  - by split.
  - split; [intros [Hs _]%elem_of_replicate; discriminate Hs|constructor].
  - unfold demo_durable_new in Es. do 12 eexists. exact Es.
  - apply demo_tick_ok.
  - exact (demo_instants 60 0).
  - reflexivity.
  - exact Er.
  - exact Hne.
  - exact Hlog.
  - destruct (Hcrash ls [] (world (context s')) (eq_sym (app_nil_r ls)) (or_intror eq_refl)) with
      (c := wal_synced (wal_ (world (context s')))) (n' := 1) (st' := demo_store 1) (os0 := calm) (steady := 0)
      (w0 := {| wal_null := false; wal_ := new_wal (wal_synced (wal_ (world (context s'))));
               snapshots := snapshots (world (context s')); store := demo_store 1; fsync_thread := false;
               next_snapshot_at_ := 0 |}) (z' := demo_z) (t' := demo_tick 99)
      as (j & w1 & m & _ & Hj & Hrec & Hst & Hf).
    + destruct Hls as [H1 _ _ _ _].
      assert (persistence (context s) = true) as <-; [|exact H1].
      exact (f_equal (λ r, match r with Ok s => persistence (context s) | _ => true end) (eq_sym Es)).
    + left. done.
    + rewrite Hsync. split; [by rewrite Hsync|done].
    + done.
    + reflexivity.
    + reflexivity.
    + apply demo_tick_ok.
    + unfold demo_tick. cbn [wall]. lia.
    + intros e He. apply list_elem_of_fmap in He as (i & -> & Hi). apply elem_of_seq in Hi.
      unfold env_clk, frozen, demo_tick. cbn [wall]. lia.
    + rewrite (Hj eq_refl), firstn_all in Hf. eexists s, s', ls, _, w1, m.
      split; [reflexivity|]. split; [exact Er|]. split; [exact Hls|]. split; [exact Hex|]. split; [reflexivity|].
      split; [exact Hrec|]. split; [exact Hst|exact Hf].
Defined.
