(* ===== verification/ServerWake.v ===== *)
(** * Wake-ups

    A worker queues its completion and then wakes the reactor up, in two steps
    between which the I/O thread may do anything.  No completion is left behind:
    the I/O thread never waits for events while a completion is queued, unless
    the wake-up is pending or a worker is about to make it. *)

From S2P Require Import Prelude Resp Parser Disk Wal Store StoreTheorems Snapshot Engine Stats Registry.
From S2P Require Import ThreadPool Socket Reactor Server ServerFollows ServerInv ServerEnd ServerRun ServerProps.

(** ** The loop, one iteration at a time *)

Section Wake.
Context `{Platform} `{Kernel} (config : ServerConfig) (listener : Z).

(** What precedes the call of [kevent]: the time it may take, if the loop goes
    on. *)
Definition before_wait : Exec Server (option Z) :=
  do! stop := stopping in
  if stop then ret None else do! timeout := wait_timeout config in yield config ;; ret (Some timeout).

(** An iteration, from the wait on; whether the loop goes on. *)
Definition from_wait (timeout : Z) : Exec Server bool :=
  do! events := kernel_wait timeout in
  do! stop := stopping in
  if stop then ret false else iterate config listener events ;; ret true.

(** The states in which the loop begins an iteration. *)
Inductive loop_top (s : Server) : Server → Prop :=
| top_start : loop_top s s
| top_next s1 timeout s2 s3 :
    loop_top s s1 → before_wait s1 = (Ok (Some timeout), s2) → from_wait timeout s2 = (Ok true, s3) → loop_top s s3.

(** These are the iterations of [run_loop]. *)
Lemma run_loop_iterations fuel s :
  run_loop config listener (S fuel) s =
  (do! next := before_wait in
   match next with
   | None => ret tt
   | Some timeout => do! more := from_wait timeout in if more then run_loop config listener fuel else ret tt
   end) s.
Proof.
  cbn [run_loop]. unfold before_wait, from_wait, exec_bind. destruct (stopping s) as [[[]|] s1]; [done| |done].
  destruct (wait_timeout config s1) as [[t|] s2]; [|done]. unfold ret, reactor_wait, exec_bind.
  destruct (yield config s2) as [[[]|] s3']; [|done]. cbv beta iota.
  destruct (kernel_wait t s3') as [[events|] s3]; [|done]. destruct (stopping s3) as [[[]|] s4]; [done| |done].
  by destruct (iterate config listener events s4) as [[[]|] s5].
Qed.

(** ** The invariant *)

Definition woken (s : Server) : Prop :=
  completions_ s ≠ [] → triggered (reactor_ s) = true ∨ t_waking ∈ threads s.

Definition wakes (s : Server) : Prop := Some 0%nat ∉ kevs (script s).

(** Kept while no wake-up fails. *)
Definition stays_woken (s s' : Server) : Prop := wakes s → wakes s' ∧ (woken s → woken s').

#[local] Instance stays_woken_outcomes : Outcomes stays_woken stays_woken.
Proof.
  split; [split|done|].
  - by intros s Hs.
  - intros s1 s2 s3 H1 H2 Hs. destruct (H1 Hs) as [Hs2 Hw2]. destruct (H2 Hs2) as [Hs3 Hw3]. auto.
  - intros s1 s2 s3 H1 H2 Hs. destruct (H1 Hs) as [Hs2 Hw2]. destruct (H2 Hs2) as [Hs3 Hw3]. auto.
Qed.

Lemma woken_same s s' :
  kevs (script s') = kevs (script s) → completions_ s' = completions_ s →
  triggered (reactor_ s') = triggered (reactor_ s) → (t_waking ∈ threads s → t_waking ∈ threads s') →
  stays_woken s s'.
Proof. intros Hk Hc Ht Hth. unfold stays_woken, wakes, woken. rewrite Hk, Hc, Ht. naive_solver. Qed.

Lemma woken_done s s' :
  kevs (script s') `suffix_of` kevs (script s) → (wakes s → woken s') → stays_woken s s'.
Proof.
  intros [l Hk] Hw Hs. split; [|auto]. unfold wakes in *. rewrite Hk in Hs. set_solver.
Qed.

(** The turn of another worker does not take a wake-up away. *)
Lemma waking_other (ts : list Thread) i t t' :
  ts !! i = Some t → t ≠ t_waking → t_waking ∈ ts → t_waking ∈ <[i := t']> ts.
Proof.
  intros Hi Ht [j Hj]%list_elem_of_lookup. apply list_elem_of_lookup. exists j.
  rewrite list_lookup_insert_ne; [done|]. intros ->. congruence.
Qed.

Lemma wake_reactor_woken s : wakes s → triggered (reactor_ (snd (wake_reactor s))) = true.
Proof.
  unfold wakes, wake_reactor, pop_kev, pop, exec_bind, ignore_errors, on_reactor, zoom, wakeup. cbn [script set_script].
  intros Hs. rewrite bool_decide_eq_false_2; [done|]. destruct (kevs (script s)) as [|k l]; [done|].
  cbn. intros ->. set_solver.
Qed.

Lemma wake_reactor_kevs s : kevs (script (snd (wake_reactor s))) `suffix_of` kevs (script s).
Proof.
  unfold wake_reactor, pop_kev, pop, exec_bind, ignore_errors, on_reactor, zoom, wakeup.
  destruct (bool_decide _); apply tail_suffix.
Qed.

Lemma run_command_same job s :
  let s' := snd (run_command config job s) in
  kevs (script s') = kevs (script s) ∧ completions_ s' = completions_ s ∧ reactor_ s' = reactor_ s ∧
  threads s' = threads s.
Proof.
  unfold run_command, pop_env, pop, exec_bind, zoom, modify, lift, ret. cbn [context script set_script].
  destruct (execute _ _ _ (context s)) as [[r|e] ctx]; [|done]. by destruct (encode r).
Qed.

Lemma fsync_same s :
  let s' := snd (fsync_turn s) in
  kevs (script s') = kevs (script s) ∧ completions_ s' = completions_ s ∧ reactor_ s' = reactor_ s ∧
  threads s' = threads s.
Proof.
  unfold fsync_turn, pop_env, pop, exec_bind, zoom, gets. destruct (persistence (context s)); [|done].
  cbn [context script set_script]. by destruct (fsync_round _ _).
Qed.

Lemma turn_woken i s : stays_woken s (snd (thread_turn config i s)).
Proof.
  unfold thread_turn. destruct (threads s !! i) as [[|job|c| |]|] eqn:Ei.
  - destruct (wake (workers_ s)); [|done].
    destruct (worker_section _) as [[[j|] p]|e]; [| |done]; apply woken_same; try done; by apply (waking_other _ _ _ _ Ei).
  - unfold exec_bind, terminating. pose proof (run_command_same job s) as (Hk & Hc & Hr & Ht).
    destruct (run_command config job s) as [[c|e] s1]; cbn [snd] in *;
      [|destruct e; cbn [snd]; apply woken_same; congruence].
    apply woken_same; [done|done|by cbn; rewrite Hr|]. cbn. rewrite Ht. by apply (waking_other _ _ _ _ Ei).
  - apply woken_done; [done|]. intros _ _. right. cbn. apply list_elem_of_lookup. exists i.
    apply list_lookup_insert_eq. by eapply lookup_lt_Some.
  - unfold exec_bind. apply woken_done.
    + pose proof (wake_reactor_kevs s) as Hk. by destruct (wake_reactor s) as [[]].
    + intros Hs _. left. pose proof (wake_reactor_woken s Hs). by destruct (wake_reactor s) as [[]].
  - done.
  - pose proof (fsync_same s) as (Hk & Hc & Hr & Ht). apply woken_same; congruence.
Qed.

#[local] Instance woken_steps : Steps config stays_woken stays_woken.
Proof.
  split; try (intros; by apply woken_same).
  - intros s x _ _ [l Hk] Hs. split; [|done]. unfold wakes in *. cbn [script set_script]. rewrite Hk in Hs. set_solver.
  - intros s. apply woken_done; [done|]. intros _ Hne. by destruct Hne.
  - intros i. apply (follows_any stays_woken stays_woken), turn_woken.
  - intros job. apply (follows_any stays_woken stays_woken). intros s.
    destruct (run_command_same job s) as (Hk & Hc & Hr & Ht). apply woken_same; congruence.
  - intros c. apply (follows_any stays_woken stays_woken). intros s. unfold exec_bind, deliver, modify.
    apply woken_done; [apply (wake_reactor_kevs (set_completions _ s))|]. intros Hs _. left.
    by apply (wake_reactor_woken (set_completions _ s)).
  - apply (follows_any stays_woken stays_woken). intros s. unfold expire_cycle, pop_env, pop_rand, pop, exec_bind.
    cbn [script set_script context]. destruct (active_expire_cycle _ _ _ _) as [[n st]|]; by apply woken_same.
  - intros s _. assert (stays_woken s (snd (snapshot_step config s))) as Hs.
    { unfold snapshot_step, pop_env, steady_now, pop, exec_bind, ignore_errors, zoom. cbn [script set_script context].
      destruct (maybe_snapshot _ _ _ _ _ _) as [[a|[]] w]; by apply woken_same. }
    by destruct (snapshot_step config s) as [[]].
Qed.

(** ** The claim *)

(** The loop of [drain_completions] ends with an empty queue. *)
Lemma drain_loop_empty fuel : ∀ s s', drain_loop config fuel s = (Ok tt, s') → completions_ s' = [].
Proof.
  induction fuel as [|fuel IH]; intros s s'; [done|]. cbn [drain_loop]. intros ([] & s1 & _ & E)%exec_bind_ok.
  rewrite exec_bind_gets in E. apply exec_bind_ok in E as ([] & s2 & E2 & E). injection E2 as <-.
  destruct (completions_ s1) as [|c l]; [by injection E as <-|]. apply exec_bind_ok in E as ([] & s3 & _ & E). by apply IH in E.
Qed.

Lemma follows_ok {A} (m : Exec Server A) s a s' :
  follows stays_woken stays_woken m → m s = (Ok a, s') → stays_woken s s'.
Proof. intros Hm E. specialize (Hm s). by rewrite E in Hm. Qed.

(** An iteration establishes the invariant, whatever the wait left. *)
Lemma iteration_wakes timeout s s' : wakes s → from_wait timeout s = (Ok true, s') → wakes s' ∧ woken s'.
Proof.
  intros Hs (events & s1 & E1 & E)%exec_bind_ok. apply exec_bind_ok in E as (stop & s2 & E2 & E).
  destruct stop; [done|]. apply exec_bind_ok in E as ([] & s3 & E3 & E). injection E as <-.
  assert (wakes s1) as Hs1.
  { revert E1. unfold kernel_wait. destruct (wait _ _ _ _) as [[[ev rest]|e] r]; [|done]. by intros [= _ <-]. }
  destruct (follows_ok _ _ _ _ (follows_stopping config stays_woken stays_woken) E2 Hs1) as [Hs2 _].
  apply exec_bind_ok in E3 as ([] & s4 & E4 & E5).
  destruct (follows_ok _ _ _ _ (follows_drain config stays_woken stays_woken) E4 Hs2) as [Hs4 _].
  assert (woken s4) as Hw4.
  { unfold drain_completions in E4. rewrite exec_bind_gets in E4. apply drain_loop_empty in E4. by intros Hne. }
  destruct (follows_ok _ _ _ _ (follows_after_drain config listener stays_woken stays_woken events) E5 Hs4) as [Hs5 Hw5].
  auto.
Qed.

Lemma before_wait_woken s o s' : before_wait s = (o, s') → stays_woken s s'.
Proof.
  intros E. assert (follows stays_woken stays_woken before_wait) as Hf.
  { unfold before_wait. apply (follows_bind stays_woken stays_woken); [apply (follows_stopping config stays_woken stays_woken)|].
    intros []; [apply (follows_ret stays_woken stays_woken)|].
    apply (follows_bind stays_woken stays_woken); [apply (follows_timeout config stays_woken stays_woken)|].
    intros t. apply (follows_bind stays_woken stays_woken); [apply (follows_yield config stays_woken stays_woken)|].
    intros []. apply (follows_ret stays_woken stays_woken). }
  specialize (Hf s). rewrite E in Hf. by destruct o.
Qed.

Lemma loop_top_woken s s1 : wakes s → woken s → loop_top s s1 → wakes s1 ∧ woken s1.
Proof.
  intros Hs Hw. induction 1 as [|s1 timeout s2 s3 _ [Hs1 Hw1] E2 E3]; [done|].
  apply before_wait_woken in E2. destruct (E2 Hs1) as [Hs2 _]. by eapply iteration_wakes.
Qed.

(** The time given to [kevent] is one that it accepts. *)
Lemma before_wait_valid s timeout s' :
  before_wait s = (Ok (Some timeout), s') → timespec_valid (timespec_of timeout) = true.
Proof.
  intros (stop & s1 & _ & E)%exec_bind_ok. destruct stop; [done|]. apply exec_bind_ok in E as (t & s2 & E2 & E).
  apply exec_bind_ok in E as ([] & s3 & _ & E). injection E as <- _.
  assert (0 <= t) as Ht.
  { revert E2. unfold wait_timeout. cond_case; [|by intros [= <- _]]. intros (now & s4 & _ & E)%exec_bind_ok.
    rewrite exec_bind_gets in E. injection E as <- _. cond_case; [lia|]. apply Z.quot_pos; lia. }
  unfold timespec_valid, timespec_of. cbn [fst snd].
  pose proof (Z.quot_pos t 1000). pose proof (Z.rem_bound_pos t 1000). lia.
Qed.

Lemma started_idle x s : started config listener x s → completions_ s = [] ∧ script s = x.
Proof.
  intros (hardware & port & steady & now & ver & wal & files & os & ic & rc & fails & queue & user & nb & E).
  revert E. unfold new_server. destruct (create_reactor queue user) as [rc0|]; cbn [bind]; [|done].
  destruct (new_store (cfg_shards config)) as [st|]; [|done]. cbn [bind].
  destruct (new_pool _ _) as [[p n]|]; [|done]. cbn [bind].
  destruct (initial_world _ _ _ _ _ _ _ _) as [w|]; [|done]. cbn [bind]. cond_case; [done|].
  destruct (reactor_add _ _ _ _) as [[[]|] r]; [|done]. cbn [bind]. intros E. by apply Ok_inj in E as <-.
Qed.

(** [stop] ends a wait: the wake-up is pending when it returns. *)
Lemma stop_wakes s : wakes s → ∃ s', stop false s = (Ok true, s') ∧ triggered (reactor_ s') = true.
Proof.
  intros Hs. pose proof (wake_reactor_woken s Hs) as Ht. unfold stop, exec_bind.
  destruct (wake_reactor s) as [[[]|e] s'] eqn:E; [by exists s'|]. exfalso. revert E.
  unfold wake_reactor, pop_kev, pop, exec_bind, ignore_errors, on_reactor, zoom, wakeup. by destruct (bool_decide _).
Qed.

(** C15. No completion is left behind, whatever the scheduling: as long as the
    wake-ups of the reactor do not fail, whenever the I/O thread is about to wait
    for events while a completion is queued, the wake-up is already pending, so
    that the wait returns at once, or the worker that queued it is about to make
    it; and the time given to the kernel is always one that it accepts. *)
Theorem no_lost_wakeup x s s1 timeout s2 :
  started config listener x s → Some 0%nat ∉ kevs x → loop_top s s1 → before_wait s1 = (Ok (Some timeout), s2) →
  timespec_valid (timespec_of timeout) = true ∧
  (completions_ s2 ≠ [] → triggered (reactor_ s2) = true ∨ t_waking ∈ threads s2).
Proof.
  intros Hs Hk Htop E. split; [by eapply before_wait_valid|]. destruct (started_idle _ _ Hs) as [Hc Hsc].
  destruct (loop_top_woken s s1) as [Hs1 Hw1]; [unfold wakes; by rewrite Hsc|by intros Hne|done|].
  by destruct (before_wait_woken _ _ _ E Hs1) as [_ Hw2]; apply Hw2.
Qed.
End Wake.

(** ** Witness *)

#[local] Existing Instance demo_platform.
#[local] Existing Instance demo_kernel.

(** The worker delivers its completion while the I/O thread goes to its second
    wait: it has queued it and is about to wake the reactor up. *)
Definition demo_late : Script :=
  demo_script [recv_data ping_request] (replicate 9 [] ++ [[0; 0; 0]%nat]) 8.

Definition demo_late_state : option (Server * Server * Z * Server) :=
  match demo_new 8 demo_late with
  | Ok s =>
      match before_wait (demo_server_config 8) s with
      | (Ok (Some t), s1) =>
          match from_wait (demo_server_config 8) 3 t s1 with
          | (Ok true, s2) =>
              match before_wait (demo_server_config 8) s2 with
              | (Ok (Some t'), s3) => Some (s, s2, t', s3)
              | _ => None
              end
          | _ => None
          end
      | _ => None
      end
  | Throw _ => None
  end.

Lemma demo_late_facts :
  match demo_late_state with
  | Some (_, _, t, s3) => (t, length (completions_ s3), triggered (reactor_ s3), threads s3) = (100, 1%nat, false, [t_waking])
  | None => False
  end.
Proof. vm_compute. reflexivity. Qed.

Lemma no_lost_wakeup_witness :
  ∃ s s1 s2, loop_top (demo_server_config 8) 3 s s1 ∧ before_wait (demo_server_config 8) s1 = (Ok (Some 100), s2) ∧
    length (completions_ s2) = 1%nat ∧ (triggered (reactor_ s2) = true ∨ t_waking ∈ threads s2).
Proof.
  pose proof demo_late_facts as Hf. unfold demo_late_state in Hf. destruct (demo_new 8 demo_late) as [s|] eqn:Es; [|done].
  destruct (before_wait _ s) as [[[t|]|] s1] eqn:E1; try contradiction.
  destruct (from_wait _ 3 t s1) as [[[]|] s2] eqn:E2; try contradiction.
  destruct (before_wait _ s2) as [[[t'|]|] s3] eqn:E3; try contradiction.
  injection Hf as -> Hlen _ _. exists s, s2, s3.
  assert (loop_top (demo_server_config 8) 3 s s2) as Htop
    by exact (top_next _ _ s s t s1 s2 (top_start _ _ s) E1 E2).
  split; [exact Htop|]. split; [exact E3|]. split; [exact Hlen|].
  apply (no_lost_wakeup (demo_server_config 8) 3 demo_late s s2 100 s3).
  - by apply demo_started.
  - apply not_elem_of_nil.
  - exact Htop.
  - exact E3.
  - intros Hn. rewrite Hn in Hlen. discriminate Hlen.
Defined.
