(* ===== verification/ServerWired.v ===== *)
(** * Connections and the reactor

    The server and its reactor together: at the top of every iteration, the
    kernel watches the descriptors of the open connections and of the listener
    and no others, and it watches a connection for writing exactly when there is
    output that has not been sent, so that no output is stuck. *)

From S2P Require Import Prelude Resp Parser Disk Wal Store StoreTheorems Snapshot Engine Stats Registry.
From S2P Require Import ThreadPool Socket Reactor Server ServerFollows ServerInv ServerEnd ServerRun ServerProps ServerWake.

(** ** The invariant *)

(** What the interest of a connection says of it. *)
Definition tidy (c : Connection) : Prop :=
  has_interest (interest c) interest_write = negb (bool_decide (output c = [])) ∧
  (has_interest (interest c) interest_read = true → read_closed c = false ∧ closing c = false).

Section Wired.
Context `{Platform} `{KO : KernelOk} (config : ServerConfig) (listener : Z).

(** The table of the reactor and the connections agree; the connections outside
    [D] are tidy. *)
Record wired (D : gset Z) (s : Server) : Prop := {
  wi_kevs : Forall (λ k, k = None) (kevs (script s));
  wi_mirrors : mirrors (reactor_ s);
  wi_conns : ∀ f c, connections_ s !! f = Some c → registered_interest (reactor_ s) f = interest c;
  wi_others : ∀ f, connections_ s !! f = None → f ≠ listener → registered_interest (reactor_ s) f = interest_none;
  wi_listening : registered_interest (reactor_ s) listener = interest_read;
  wi_listener : connections_ s !! listener = None;
  wi_tidy : ∀ f c, connections_ s !! f = Some c → f ∉ D → tidy c;
}.

Lemma wired_mono D D' s : D ⊆ D' → wired D s → wired D' s.
Proof. intros Hsub [? ? ? ? ? ? Ht]. split; try done. intros f c Hf Hn. apply (Ht f c Hf). set_solver. Qed.

Lemma wired_absent D f s : connections_ s !! f = None → wired ({[f]} ∪ D) s → wired D s.
Proof.
  intros Hf [? ? ? ? ? ? Ht]. split; try done. intros f' c Hf' Hn. apply (Ht f' c Hf').
  assert (f' ≠ f) by congruence. set_solver.
Qed.

(** What the workers and the housekeeping leave alone. *)
Record still (s s' : Server) : Prop := {
  still_conns : connections_ s' = connections_ s;
  still_filters : filters (reactor_ s') = filters (reactor_ s);
  still_registered : registered_ (reactor_ s') = registered_ (reactor_ s);
  still_kevs : kevs (script s') `suffix_of` kevs (script s);
}.

#[local] Instance still_preorder : PreOrder still.
Proof.
  split; [by intros s; split|]. intros s1 s2 s3 [H1 H2 H3 H4] [H1' H2' H3' H4'].
  split; [congruence..|]. by etrans.
Qed.

Lemma wired_still D s s' : still s s' → wired D s → wired D s'.
Proof.
  intros [Hc Hf Hr [l Hk]] [H1 H2 H3 H4 H5 H6 H7]. split; unfold mirrors, registered_interest in *; rewrite ?Hc, ?Hr; try done.
  - rewrite Hk in H1. by apply Forall_app in H1 as [_ H1].
  - by rewrite Hf.
Qed.

(** A change of one connection that is not its interest. *)
Lemma wired_update D s f g :
  f ∈ D → (∀ c, interest (g c) = interest c) → wired D s → wired D (set_connections (alter g f (connections_ s)) s).
Proof.
  intros Hf Hg [H1 H2 H3 H4 H5 H6 H7]. split; cbn [connections_ reactor_ script set_connections]; try done.
  - intros f' c. rewrite lookup_alter. case_decide as He; [subst f'|by apply H3].
    intros (c0 & Hc0 & ->)%fmap_Some. rewrite Hg. by apply H3.
  - intros f' Hn. apply H4. rewrite lookup_alter in Hn. case_decide; [subst|done]. by apply fmap_None in Hn.
  - rewrite lookup_alter. case_decide; [subst|done]. by rewrite H6.
  - intros f' c Hc Hn. rewrite lookup_alter_ne in Hc by (intros ->; done). by apply (H7 f').
Qed.

(** ** Computations that keep it

    What they leave when they throw is no concern here: the exception ends the
    server. *)

Abbreviation W := (wp (λ _ _, True)).

Definition kept (D : gset Z) {A} (m : Exec Server A) : Prop := ∀ s, wired D s → W m (λ _ s', wired D s') s.

Definition stays {A} (m : Exec Server A) : Prop := ∀ s, W m (λ _ s', still s s') s.

Lemma stays_any {A} (m : Exec Server A) : (∀ s, still s (snd (m s))) → stays m.
Proof. intros Hm s. specialize (Hm s). unfold wp. by destruct (m s) as [[a|e] s']. Qed.
Lemma stays_bind {A B} (m : Exec Server A) (k : A → Exec Server B) :
  stays m → (∀ a, stays (k a)) → stays (exec_bind m k).
Proof.
  intros Hm Hk s. eapply wp_seq; [apply Hm|]. intros a s1 H1. eapply wp_mono; [apply Hk|]. intros b s2 H2.
  exact (transitivity H1 H2).
Qed.
Lemma kept_stays D {A} (m : Exec Server A) : stays m → kept D m.
Proof. intros Hm s Hs. eapply wp_mono; [apply Hm|]. intros a s' H'. exact (wired_still _ _ _ H' Hs). Qed.
Lemma kept_bind D {A B} (m : Exec Server A) (k : A → Exec Server B) :
  kept D m → (∀ a, kept D (k a)) → kept D (exec_bind m k).
Proof. intros Hm Hk s Hs. eapply wp_seq; [by apply Hm|]. intros a s1 H1. by apply Hk. Qed.

Lemma stays_ret {A} (a : A) : stays (ret a).
Proof. apply stays_any. intros s. reflexivity. Qed.
Lemma stays_gets {A} (g : Server → A) : stays (gets g).
Proof. apply stays_any. intros s. reflexivity. Qed.
Lemma stays_raise {A} e : stays (@raise Server A e).
Proof. apply stays_any. intros s. reflexivity. Qed.
Lemma stays_lift {A} (r : result A) : stays (lift r).
Proof. apply stays_any. intros s. reflexivity. Qed.
Lemma stays_connection f : stays (connection f).
Proof. apply stays_any. intros s. unfold connection. destruct (connections_ s !! f); reflexivity. Qed.
Lemma stays_on_stats g : stays (on_stats g).
Proof. apply stays_any. intros s. unfold on_stats, modify. cbn. destruct (stats (context s)); by split. Qed.
Lemma stays_pop {A} (end_ : A) get put :
  (∀ x, kevs (put (tail (get x)) x) `suffix_of` kevs x) → stays (pop end_ get put).
Proof. intros Hp. apply stays_any. intros s. split; try done. apply Hp. Qed.
Lemma stays_receive i : stays (socket_receive i).
Proof.
  apply stays_any. intros s. unfold socket_receive. destruct (try_receive _) as [[[io data]|e] rest]; [|by split].
  cbn [snd]. case_bool_decide; by split.
Qed.
Lemma stays_send i data : stays (socket_send i data).
Proof.
  apply stays_any. intros s. unfold socket_send. destruct (try_send _ _) as [[io|e] rest]; [|by split].
  cbn [snd]. cond_case; by split.
Qed.
#[local] Hint Resolve stays_ret stays_gets stays_raise stays_lift stays_connection stays_on_stats stays_receive
  stays_send : nova.
#[local] Hint Extern 1 (stays (pop _ _ _)) =>
  (apply stays_pop; intros x; cbn; first [done|apply tail_suffix]) : nova.
#[local] Hint Extern 2 (stays (modify _)) => (apply stays_any; intros ?; by split) : nova.

Ltac stay :=
  repeat first
    [ solve [auto with nova]
    | match goal with |- stays (exec_bind _ _) => apply stays_bind; [|intros ?] end
    | match goal with |- stays (match ?x with _ => _ end) => destruct x end ].

(** ** The workers *)

Lemma stays_run_command job : stays (run_command config job).
Proof.
  unfold run_command, pop_env. stay. apply stays_any. intros s. unfold zoom. destruct (execute _ _ _ (context s)); by split.
Qed.
Lemma stays_wake : stays wake_reactor.
Proof.
  unfold wake_reactor, pop_kev. stay. apply stays_any. intros s. unfold ignore_errors, on_reactor, zoom, wakeup.
  case_bool_decide; by split.
Qed.
#[local] Hint Resolve stays_run_command stays_wake : nova.
Lemma stays_fsync : stays fsync_turn.
Proof.
  unfold fsync_turn, pop_env. stay. apply stays_any. intros s. unfold zoom. destruct (fsync_round _ _); by split.
Qed.
Lemma stays_terminating {A} (m : Exec Server A) : stays m → stays (terminating m).
Proof. intros Hm s. specialize (Hm s). revert Hm. unfold wp, terminating. by destruct (m s) as [[|[]]]. Qed.
#[local] Hint Resolve stays_fsync stays_terminating : nova.
Lemma stays_turn i : stays (thread_turn config i).
Proof.
  intros s. unfold wp, thread_turn. destruct (threads s !! i) as [[|job|c| |]|].
  - destruct (wake (workers_ s)); [|reflexivity]. destruct (worker_section _) as [[[j|] p]|]; [by split..|done].
  - assert (stays (do! c := terminating (run_command config job) in set_thread_state i (t_delivering c))) as Hm; [|exact (Hm s)].
    unfold set_thread_state. stay.
  - by split.
  - assert (stays (wake_reactor ;; set_thread_state i t_waiting)) as Hm; [|exact (Hm s)]. unfold set_thread_state. stay.
  - reflexivity.
  - apply stays_fsync.
Qed.
#[local] Hint Resolve stays_turn : nova.
Lemma stays_yield : stays (yield config).
Proof.
  unfold yield, pop_turns. stay. match goal with |- stays (thread_turns _ ?ts) => induction ts end; cbn [thread_turns]; stay.
Qed.
#[local] Hint Resolve stays_yield : nova.
Lemma stays_saturated : stays (queue_saturated config).
Proof. unfold queue_saturated. stay. Qed.
Lemma stays_submit job : stays (submit config job).
Proof. unfold submit. stay. apply stays_any. intros s. destruct (try_submit (workers_ s) job); by split. Qed.
Lemma stays_deliver c : stays (deliver c).
Proof. unfold deliver. stay. Qed.
Lemma stays_now : stays steady_now.
Proof. unfold steady_now. stay. Qed.
#[local] Hint Resolve stays_saturated stays_submit stays_deliver stays_now : nova.

(** ** Reading and writing *)

Lemma kept_update D f g : f ∈ D → (∀ c, interest (g c) = interest c) → kept D (update f g).
Proof. intros Hf Hg s Hs. by apply wp_modify, wired_update. Qed.
#[local] Hint Resolve kept_stays : nova.
#[local] Hint Extern 1 (kept _ (update _ _)) => (apply kept_update; [assumption|by intros ?]) : nova.

Ltac keep_wired :=
  repeat first
    [ solve [auto with nova]
    | match goal with |- kept _ (exec_bind _ _) => apply kept_bind; [|intros ?] end
    | match goal with |- kept _ (match ?x with _ => _ end) => destruct x end
    | match goal with |- kept _ (let '(_, _) := ?x in _) => destruct x end ].

Section Touched.
Context (D : gset Z) (f : Z) (Hf : f ∈ D).

Lemma kept_launch : kept D (launch_strand config f).
Proof. unfold launch_strand. keep_wired. Qed.
#[local] Hint Resolve kept_launch : nova.
Lemma kept_enqueue request : kept D (enqueue_command config f request).
Proof. unfold enqueue_command. keep_wired. Qed.
Lemma kept_reject : kept D (reject f).
Proof. unfold reject. keep_wired. Qed.
#[local] Hint Resolve kept_enqueue kept_reject : nova.
Lemma kept_queue_parsed fuel : kept D (queue_parsed_commands config fuel f).
Proof. induction fuel as [|fuel IH]; cbn [queue_parsed_commands]; unfold out_of_fuel; keep_wired. Qed.
#[local] Hint Resolve kept_queue_parsed : nova.
Lemma kept_read_end c : kept D (read_end f c).
Proof. unfold read_end. keep_wired. Qed.
Lemma kept_read_data c n data more : kept D more → kept D (read_data config f c n data more).
Proof. intros Hm. unfold read_data. keep_wired. Qed.
#[local] Hint Resolve kept_read_end kept_read_data : nova.
Lemma kept_read_loop fuel : kept D (read_loop config fuel f).
Proof. induction fuel as [|fuel IH]; cbn [read_loop]; unfold out_of_fuel; keep_wired. Qed.
#[local] Hint Resolve kept_read_loop : nova.
Lemma kept_read : kept D (read_connection config f).
Proof. unfold read_connection. keep_wired. Qed.
Lemma kept_write_loop fuel : kept D (write_loop fuel f).
Proof. induction fuel as [|fuel IH]; cbn [write_loop]; unfold out_of_fuel; keep_wired. Qed.
#[local] Hint Resolve kept_write_loop : nova.
Lemma kept_write : kept D (write_connection f).
Proof. unfold write_connection. keep_wired. Qed.
End Touched.

(** ** Interests

    The methods that make a connection tidy again. *)

Definition cleans (f : Z) {A} (m : Exec Server A) : Prop :=
  ∀ D s, wired ({[f]} ∪ D) s → W m (λ _ s', wired D s') s.

Lemma pop_kev_none s :
  Forall (λ k, k = None) (kevs (script s)) →
  pop_kev s = (Ok None, set_script (with_kevs (tail (kevs (script s))) (script s)) s).
Proof. intros Hs. unfold pop_kev, pop. by destruct Hs as [|k l ->]. Qed.

Lemma compute_interest_tidy f s :
  W (compute_interest config f) (λ i s', still s s' ∧ ∀ c, connections_ s' !! f = Some c → tidy (set_interest i c)) s.
Proof.
  unfold compute_interest. apply wp_bind. unfold wp at 1, connection. destruct (connections_ s !! f) as [c|] eqn:Ef; [|done].
  assert (∀ b : bool, (b = true → read_closed c = false ∧ closing c = false) → tidy (set_interest
    (interest_or (if b then interest_read else interest_none)
                 (if bool_decide (output c = []) then interest_none else interest_write)) c)) as Ht.
  { intros b Hb. unfold tidy. cbn [interest output read_closed closing set_interest].
    destruct b, (bool_decide (output c = [])); cbn; auto. }
  assert (∀ b s', still s s' → (b = true → read_closed c = false ∧ closing c = false) →
    W (ret (interest_or (if b then interest_read else interest_none)
                 (if bool_decide (output c = []) then interest_none else interest_write)))
      (λ i s', still s s' ∧ ∀ c, connections_ s' !! f = Some c → tidy (set_interest i c)) s') as Hret.
  { intros b s' Hs' Hb. apply wp_ret. split; [done|]. rewrite (still_conns _ _ Hs'), Ef. intros c' [= <-]. by apply Ht. }
  destruct (read_closed c || closing c) eqn:Ec; apply wp_bind; [apply wp_ret; by apply (Hret false s)|].
  eapply wp_seq; [apply stays_saturated|]. intros sat s1 Hs1. apply wp_ret. apply (Hret _ s1 Hs1).
  intros _. by apply orb_false_elim in Ec.
Qed.

Lemma wired_apply D s f c i r x :
  wired ({[f]} ∪ D) s → connections_ s !! f = Some c → tidy (set_interest i c) → kevs x `suffix_of` kevs (script s) →
  mirrors r → registered_interest r f = i →
  (∀ f', f' ≠ f → registered_interest r f' = registered_interest (reactor_ s) f') →
  wired D (set_reactor r (set_script x (set_connections (alter (set_interest i) f (connections_ s)) s))).
Proof.
  intros [H1 H2 H3 H4 H5 H6 H7] Hc Ht [l Hk] Hm Hi Ho.
  assert (f ≠ listener) as Hl by congruence.
  split; cbn [connections_ reactor_ script set_connections set_script set_reactor]; try done.
  - rewrite Hk in H1. by apply Forall_app in H1 as [_ H1].
  - intros f' c'. rewrite lookup_alter. case_decide; [subst f'|rewrite Ho by done; by apply H3].
    rewrite Hc. by intros [= <-].
  - intros f' Hn Hne. rewrite lookup_alter in Hn. case_decide; [subst f'; by rewrite Hc in Hn|].
    rewrite Ho by done. by apply H4.
  - by rewrite Ho by done.
  - by rewrite lookup_alter_ne.
  - intros f' c'. rewrite lookup_alter. case_decide; [subst f'|intros Hf' Hn; apply (H7 f' c' Hf'); set_solver].
    rewrite Hc. by intros [= <-].
Qed.

Lemma apply_computed_wired D f i s :
  wired ({[f]} ∪ D) s → (∀ c, connections_ s !! f = Some c → tidy (set_interest i c)) →
  W (apply_computed f i) (λ _ s', wired D s') s.
Proof.
  intros Hs Ht. unfold apply_computed. apply wp_bind. unfold wp at 1, connection.
  destruct (connections_ s !! f) as [c|] eqn:Ef; [|done]. specialize (Ht c eq_refl).
  destruct (Z.eqb_spec i (interest c)) as [->|_].
  - apply wp_ret. destruct Hs as [H1 H2 H3 H4 H5 H6 H7]. split; try done. intros f' c' Hc' Hn.
    destruct (decide (f' = f)) as [->|Hne]; [|apply (H7 f' c' Hc'); set_solver].
    rewrite Ef in Hc'. injection Hc' as <-. exact Ht.
  - apply wp_bind, wp_modify. apply wp_bind. unfold wp at 1. rewrite pop_kev_none by apply (wi_kevs _ _ Hs).
    unfold wp, on_reactor, zoom. cbn [reactor_ set_script set_connections script].
    destruct (reactor_modify None f i (reactor_ s)) as [[[]|e] r] eqn:Er; [|done].
    destruct (apply_interest_mirrors _ _ _ _ _ (wi_mirrors _ _ Hs) Er) as (Hm & Hi & Ho).
    eapply wired_apply; [exact Hs|exact Ef|exact Ht| |done..]. apply tail_suffix.
Qed.

Lemma cleans_update_interest f : cleans f (update_interest config f).
Proof.
  intros D s Hs. unfold update_interest.
  assert (∀ s1, wired ({[f]} ∪ D) s1 →
    W (do! i := compute_interest config f in apply_computed f i) (λ _ s', wired D s') s1) as Hgo.
  { intros s1 Hs1. eapply wp_seq; [apply compute_interest_tidy|]. intros i s2 [Hst Ht]. cbn in Hst, Ht.
    apply apply_computed_wired; [exact (wired_still _ _ _ Hst Hs1)|exact Ht]. }
  eapply wp_seq; [apply compute_interest_tidy|]. intros i s1 [Hst Ht]. cbn in Hst, Ht. apply wp_bind.
  unfold wp at 1, connection. destruct (connections_ s1 !! f) as [c|] eqn:Ef; [|done].
  eapply wp_seq; [apply apply_computed_wired; [exact (wired_still _ _ _ Hst Hs)|by rewrite Ef in *]|].
  intros [] s2 Hs2. cond_case; [|by apply wp_ret].
  eapply wp_seq; [apply (kept_read ({[f]} ∪ D)); [set_solver|]|intros [] s3 Hs3; exact (Hgo s3 Hs3)].
  eapply wired_mono; [|exact Hs2]. set_solver.
Qed.

(** ** The end of a connection *)

Lemma mirrors_close f r : mirrors r → (∀ g, (f, g) ∉ filters r) → mirrors (kernel_close f r).
Proof.
  intros Hm Hn f' g. unfold kernel_close. cbn [filters set_filters]. change (registered_interest (set_filters _ r) f') with (registered_interest r f').
  etrans; [|apply Hm]. specialize (Hn g). set_solver.
Qed.

Lemma wired_delete D s f r x :
  wired ({[f]} ∪ D) s → f ≠ listener → mirrors r → registered_interest r f = interest_none →
  kevs x `suffix_of` kevs (script s) →
  (∀ f', f' ≠ f → registered_interest r f' = registered_interest (reactor_ s) f') →
  wired D (set_reactor r (set_script x (set_connections (delete f (connections_ s)) s))).
Proof.
  intros [H1 H2 H3 H4 H5 H6 H7] Hl Hm Hi [l Hk] Ho.
  split; cbn [connections_ reactor_ script set_connections set_script set_reactor]; try done.
  - rewrite Hk in H1. by apply Forall_app in H1 as [_ H1].
  - intros f' c' [Hne Hc']%lookup_delete_Some. rewrite Ho by done. by apply H3.
  - intros f' [<-|Hn]%lookup_delete_None Hne; [done|]. destruct (decide (f' = f)) as [->|]; [done|].
    rewrite Ho by done. by apply H4.
  - by rewrite Ho.
  - by rewrite lookup_delete_ne.
  - intros f' c' [Hne Hc']%lookup_delete_Some Hn. apply (H7 f' c' Hc'). set_solver.
Qed.

Lemma cleans_close f : cleans f (close_connection f).
Proof.
  intros D s Hs. unfold close_connection. apply wp_bind, wp_gets. cbn beta.
  destruct (connections_ s !! f) as [c|] eqn:Ef; [|apply wp_ret; by apply wired_absent with f].
  pose proof (wi_kevs _ _ Hs) as Hk.
  apply wp_bind. unfold wp at 1. rewrite pop_kev_none by done.
  apply wp_bind. unfold wp at 1. rewrite pop_kev_none by (cbn; by destruct Hk).
  cbn [script set_script kevs with_kevs].
  destruct (reactor_remove_returns f (reactor_ s)) as [r Er].
  destruct (reactor_remove_mirrors _ _ _ _ _ (wi_mirrors _ _ Hs) Er) as (Hm & Hreg & Hfil & Ho).
  apply wp_bind. unfold wp at 1, ignore_errors, on_reactor, zoom. cbn [reactor_ set_script]. rewrite Er.
  apply (wired_still _ (set_reactor (kernel_close f r) (set_script (with_kevs (tail (tail (kevs (script s)))) (script s))
    (set_connections (delete f (connections_ s)) s)))); [cbn; destruct (stats (context s)); by split|].
  apply wired_delete; [done| |by apply mirrors_close| | |done].
  - intros ->. by rewrite (wi_listener _ _ Hs) in Ef.
  - unfold registered_interest, kernel_close. cbn. by rewrite Hreg.
  - cbn. etrans; apply tail_suffix.
Qed.

Lemma cleans_close_or_update f : cleans f (close_or_update config f).
Proof.
  intros D s Hs. unfold close_or_update. apply wp_bind. unfold wp at 1, connection.
  destruct (connections_ s !! f) as [c|]; [|done]. cond_case; [by apply cleans_close|by apply cleans_update_interest].
Qed.

(** ** Completions *)

Lemma cleans_after f {A B} (m : Exec Server A) (k : A → Exec Server B) :
  (∀ D, f ∈ D → kept D m) → (∀ a, cleans f (k a)) → cleans f (exec_bind m k).
Proof.
  intros Hm Hk D s Hs. eapply wp_seq; [apply (Hm ({[f]} ∪ D)); [set_solver|exact Hs]|]. intros a s1 Hs1. by apply Hk.
Qed.

(** [m] looks whether the connection is still there. *)
Definition looks (f : Z) (m : Exec Server bool) : Prop :=
  ∀ D s, f ∈ D → wired D s → W m (λ present s', wired D s' ∧ (present = false → connections_ s' !! f = None)) s.

Lemma looks_contains f : looks f (contains f).
Proof. intros D s _ Hs. apply wp_gets. split; [done|]. case_bool_decide as Hn; [done|]. intros _. by apply eq_None_not_Some. Qed.
Lemma looks_after f {A} (m : Exec Server A) (k : A → Exec Server bool) :
  (∀ D, f ∈ D → kept D m) → (∀ a, looks f (k a)) → looks f (exec_bind m k).
Proof. intros Hm Hk D s Hf Hs. eapply wp_seq; [by apply (Hm D Hf)|]. intros a s1 Hs1. by apply Hk. Qed.
Lemma looks_true f : looks f (ret true).
Proof. intros D s _ Hs. by apply wp_ret. Qed.

Lemma cleans_present f (m : Exec Server bool) (k : Exec Server unit) :
  looks f m → cleans f k → cleans f (do! present := m in if negb present then ret tt else k).
Proof.
  intros Hm Hk D s Hs. eapply wp_seq; [apply (Hm ({[f]} ∪ D)); [set_solver|exact Hs]|].
  intros [] s1 [Hs1 Hn]; [by apply Hk|]. apply wp_ret. apply wired_absent with f; auto.
Qed.

Lemma kept_cleans D f {A} (m : Exec Server A) : cleans f m → kept D m.
Proof. intros Hm s Hs. apply Hm. eapply wired_mono; [|exact Hs]. set_solver. Qed.

Lemma flush_interest fuel c : interest (flush_responses config fuel c) = interest c.
Proof.
  revert c. induction fuel as [|fuel IH]; intros c; cbn [flush_responses]; [done|].
  destruct (pending_responses c !! _); [|done]. cond_case; [done|]. by rewrite IH.
Qed.

#[local] Hint Extern 1 (kept _ (launch_strand _ _)) => (apply kept_launch; assumption) : nova.
#[local] Hint Extern 1 (kept _ (read_connection _ _)) => (apply kept_read; assumption) : nova.
#[local] Hint Extern 1 (kept _ (write_connection _)) => (apply kept_write; assumption) : nova.
#[local] Hint Extern 1 (kept _ (update _ (λ c, flush_responses _ _ c))) =>
  (apply kept_update; [assumption|intros ?; apply flush_interest]) : nova.

Ltac clean :=
  repeat match goal with
  | |- cleans _ (exec_bind _ _) => apply cleans_after; [intros D' Hin; solve [keep_wired]|intros ?]
  end.

Lemma kept_apply_completion D c : kept D (apply_completion config c).
Proof.
  unfold apply_completion. intros s Hs. apply wp_bind, wp_gets. destruct (find_connection _ _) as [[f c0]|]; [|by apply wp_ret].
  apply (kept_cleans D f); [|done]. clean. apply cleans_present; [apply looks_contains|]. clean.
  apply cleans_close_or_update.
Qed.
Lemma kept_drain D : kept D (drain_completions config).
Proof.
  assert (∀ l, kept D (apply_completions config l)) as Hl.
  { induction l as [|c l IH]; cbn [apply_completions]; [keep_wired|]. apply kept_bind; [apply kept_apply_completion|done]. }
  assert (∀ fuel, kept D (drain_loop config fuel)) as Hloop.
  { induction fuel as [|fuel IH]; cbn [drain_loop]; unfold out_of_fuel; keep_wired. }
  unfold drain_completions. keep_wired.
Qed.
#[local] Hint Resolve kept_drain : nova.

(** ** Events *)

Lemma wired_insert D s f c r :
  wired D s → f ≠ listener → connections_ s !! f = None → tidy c → mirrors r → registered_interest r f = interest c →
  (∀ f', f' ≠ f → registered_interest r f' = registered_interest (reactor_ s) f') →
  wired D (set_connections (<[f := c]> (connections_ s)) (set_reactor r s)).
Proof.
  intros [H1 H2 H3 H4 H5 H6 H7] Hl Hn Ht Hm Hi Ho.
  split; cbn [connections_ reactor_ script set_connections set_reactor]; try done.
  - intros f' c' [[<- <-]|[Hne Hc']]%lookup_insert_Some; [done|]. rewrite Ho by done. by apply H3.
  - intros f' [Hn' Hne]%lookup_insert_None Hl'. rewrite Ho by done. by apply H4.
  - by rewrite Ho.
  - by rewrite lookup_insert_ne.
  - intros f' c' [[<- <-]|[Hne Hc']]%lookup_insert_Some; [done|]. by apply H7.
Qed.

Lemma stays_checked operation : stays (checked operation).
Proof. unfold checked, pop_ok. stay. Qed.
Lemma stays_accept : stays listener_accept.
Proof. unfold listener_accept, pop_ok. stay. apply stays_any. intros s. destruct (try_accept _ _). by split. Qed.
Lemma stays_stopping : stays stopping.
Proof. unfold stopping. stay. Qed.
#[local] Hint Resolve stays_checked stays_accept stays_stopping : nova.

Lemma kept_add_connection D : kept D (add_connection config listener).
Proof.
  unfold add_connection. do 5 (apply kept_bind; [solve [keep_wired]|intros ?]).
  intros s Hs. apply wp_bind, wp_gets. set (f := new_descriptor _).
  assert (f ∉ dom (connections_ s) ∪ {[listener]}) as Hfresh by apply new_descriptor_fresh.
  assert (connections_ s !! f = None ∧ f ≠ listener) as [Hn Hl] by (split; [apply not_elem_of_dom|]; set_solver).
  clearbody f. apply wp_bind. unfold wp at 1. rewrite pop_kev_none by apply (wi_kevs _ _ Hs).
  apply wp_bind. unfold wp at 1, on_reactor, zoom. cbn [reactor_ set_script].
  destruct (reactor_add None f interest_read (reactor_ s)) as [[[]|e] r] eqn:Er; [|done].
  destruct (apply_interest_mirrors _ _ _ _ _ (wi_mirrors _ _ Hs) Er) as (Hm & Hi & Ho).
  apply wp_bind, wp_modify.
  match goal with |- W ?m _ ?s1 => assert (cleans f m) as Hgo; [|assert (wired D s1) as Hs1] end.
  - clean. intros D' s' Hs'. apply wp_bind, wp_gets. cbn beta. case_bool_decide as Hp.
    + by apply cleans_close_or_update.
    + apply wp_ret. apply wired_absent with f; [|done]. by apply eq_None_not_Some.
  - apply (wired_insert D (set_script _ s)); [|done..].
    apply (wired_still _ s); [|done]. split; try done. apply tail_suffix.
  - apply (kept_cleans D f _ Hgo _ Hs1).
Qed.
#[local] Hint Resolve kept_add_connection : nova.

Lemma kept_accept_ready D : kept D (accept_ready config listener).
Proof.
  assert (∀ fuel, kept D (accept_loop config listener fuel)) as Hloop.
  { induction fuel as [|fuel IH]; cbn [accept_loop]; unfold out_of_fuel; keep_wired. }
  unfold accept_ready. keep_wired.
Qed.

Lemma cleans_event event : cleans (fd event) (handle_connection_event config event).
Proof.
  unfold handle_connection_event. cbn zeta. apply cleans_present; [apply looks_contains|].
  destruct (error event); [apply cleans_close|]. apply cleans_present.
  - cond_case; [|apply looks_true]. apply looks_after; [intros; keep_wired|intros _].
    apply looks_after; [intros; keep_wired|intros _]. apply looks_contains.
  - apply cleans_present; [|apply cleans_close_or_update]. cond_case; [|apply looks_true].
    apply looks_after; [intros; keep_wired|intros _]. apply looks_contains.
Qed.
Lemma kept_events D events : kept D (handle_events config listener events).
Proof.
  induction events as [|e events IH]; cbn [handle_events]; [keep_wired|].
  apply kept_bind; [|done]. cond_case; [apply kept_accept_ready|]. apply (kept_cleans D (fd e)), cleans_event.
Qed.
Lemma kept_close_all D fds : kept D (close_all fds).
Proof.
  induction fds as [|f fds IH]; cbn [close_all]; [keep_wired|].
  apply kept_bind; [|done]. apply (kept_cleans D f), cleans_close.
Qed.
#[local] Hint Resolve kept_events kept_close_all : nova.

(** ** The loop *)

Lemma stays_expire : stays expire_cycle.
Proof.
  unfold expire_cycle, pop_env, pop_rand. stay. apply stays_any. intros s.
  destruct (active_expire_cycle _ _ _ _) as [[n st]|]; by split.
Qed.
Lemma stays_snapshot : stays (snapshot_step config).
Proof.
  unfold snapshot_step, pop_env, steady_now. stay. apply stays_any. intros s. unfold ignore_errors, zoom.
  destruct (maybe_snapshot _ _ _ _ _ _) as [[u|[]] w]; by split.
Qed.
#[local] Hint Resolve stays_expire stays_snapshot : nova.

Lemma kept_iterate D events : kept D (iterate config listener events).
Proof. unfold iterate, run_active_expiry, close_idle_connections, take_snapshot. keep_wired. Qed.

Lemma stays_before_wait : stays (before_wait config).
Proof. unfold before_wait, wait_timeout. stay. Qed.
Lemma stays_kernel_wait timeout : stays (kernel_wait timeout).
Proof.
  intros s. unfold wp, kernel_wait. destruct (wait _ _ _ _) as [[[events rest]|e] r] eqn:E; [|done].
  assert (filters r = filters (reactor_ s) ∧ registered_ r = registered_ (reactor_ s)) as [Hf Hr].
  { revert E. unfold wait. rewrite exec_bind_seq. destruct (timespec_valid _); [|done]. cbn [ret].
    destruct (kevent_wait 64 _) as [[l|] rest']; [|done]. cbn. intros [= _ _ <-]. unfold clear_user. by cond_case. }
  by split.
Qed.

Lemma top_wired s s1 : loop_top config listener s s1 → wired ∅ s → wired ∅ s1.
Proof.
  induction 1 as [|s1 timeout s2 s3 _ IH E2 E3]; intros Hs; [done|]. specialize (IH Hs).
  pose proof (stays_before_wait s1) as Hw. unfold wp in Hw. rewrite E2 in Hw.
  pose proof (wired_still _ _ _ Hw IH) as Hs2.
  assert (kept ∅ (from_wait config listener timeout)) as Hk.
  { unfold from_wait. apply kept_bind; [apply kept_stays, stays_kernel_wait|intros events].
    apply kept_bind; [keep_wired|intros []; [keep_wired|]]. apply kept_bind; [apply kept_iterate|keep_wired]. }
  specialize (Hk s2 Hs2). unfold wp in Hk. by rewrite E3 in Hk.
Qed.

(** ** The claim *)

Lemma new_reactor_mirrors : mirrors new_reactor.
Proof.
  intros fd f. unfold registered_interest. cbn [new_reactor filters registered_]. rewrite lookup_empty.
  destruct f; set_solver.
Qed.

Lemma started_wired x s : started config listener x s → Forall (λ k, k = None) (kevs x) → wired ∅ s.
Proof.
  intros (hardware & port & steady & now & ver & wal & files & os & ic & rc & fails & queue & user & nb & E) Hk.
  revert E. unfold new_server, create_reactor. destruct queue, user; cbn [negb bind]; try done.
  destruct (new_store (cfg_shards config)) as [st|]; [|done]. cbn [bind].
  destruct (new_pool _ _) as [[p n]|]; [|done]. cbn [bind].
  destruct (initial_world _ _ _ _ _ _ _ _) as [w|]; [|done]. cbn [bind]. cond_case; [done|].
  destruct (reactor_add _ _ _ _) as [[[]|] r] eqn:Er; [|done]. cbn [bind]. intros E. apply Ok_inj in E as <-.
  unfold reactor_add in Er. destruct (apply_interest_mirrors _ _ _ _ _ new_reactor_mirrors Er) as (Hm & Hi & Ho).
  split; cbn [connections_ reactor_ script]; try done. intros f _ Hne. by rewrite Ho.
Qed.

(** C16. The reactor watches what the connections need: as long as no call of
    [kevent] fails, at the top of every iteration the kernel watches a connection
    for writing exactly when it has output left to send, and for reading only
    when its input is still wanted; it watches the listener for reading, and no
    descriptor that is not the listener's or an open connection's. *)
Theorem interests_follow_connections x s s1 :
  started config listener x s → Forall (λ k, k = None) (kevs x) → loop_top config listener s s1 →
  (∀ f c, connections_ s1 !! f = Some c →
     ((f, EVFILT_WRITE) ∈ filters (reactor_ s1) ↔ output c ≠ []) ∧
     ((f, EVFILT_READ) ∈ filters (reactor_ s1) → read_closed c = false ∧ closing c = false) ∧
     registered_interest (reactor_ s1) f = interest c) ∧
  (∀ f g, connections_ s1 !! f = None → (f, g) ∈ filters (reactor_ s1) ↔ f = listener ∧ g = EVFILT_READ).
Proof.
  intros Hs Hk Htop. destruct (top_wired s s1 Htop (started_wired x s Hs Hk)) as [_ Hm Hc Ho Hl _ Ht]. split.
  - intros f c Hf. destruct (Ht f c Hf) as [Hw Hr]; [set_solver|]. split_and!; [| |by apply Hc].
    + rewrite (Hm f EVFILT_WRITE), (Hc f c Hf). cbn [flag_of]. rewrite Hw. by case_bool_decide.
    + rewrite (Hm f EVFILT_READ), (Hc f c Hf). exact Hr.
  - intros f g Hf. rewrite (Hm f g). destruct (decide (f = listener)) as [->|Hne].
    + rewrite Hl. destruct g; cbn; naive_solver.
    + rewrite (Ho f Hf Hne). destruct g; cbn; naive_solver.
Qed.
End Wired.

(** ** Witness *)

#[local] Existing Instance demo_platform.
#[local] Existing Instance demo_kernel.

(** The client does not read at first: five bytes of the reply are taken, and
    the other two wait in the output buffer. *)
Definition demo_slow : Script :=
  with_sends [send_count 5; send_error EAGAIN] (demo_script [recv_data ping_request] (replicate 9 [0; 0; 0; 0]%nat) 8).

Definition demo_slow_states : option (Server * Server) :=
  match demo_new 8 demo_slow with
  | Ok s =>
      match before_wait (demo_server_config 8) s with
      | (Ok (Some t), s1) =>
          match from_wait (demo_server_config 8) 3 t s1 with
          | (Ok true, s2) => Some (s, s2)
          | _ => None
          end
      | _ => None
      end
  | Throw _ => None
  end.

Lemma demo_slow_facts :
  match demo_slow_states with
  | Some (_, s2) =>
      (λ p, (p.1, output p.2)) <$> map_to_list (connections_ s2) = [(4, drop 5 pong)]
  | None => False
  end.
Proof. vm_compute. reflexivity. Qed.

Lemma interests_follow_connections_witness :
  ∃ s s2 c, loop_top (demo_server_config 8) 3 s s2 ∧ connections_ s2 !! 4 = Some c ∧ output c = drop 5 pong ∧
    (4, EVFILT_WRITE) ∈ filters (reactor_ s2).
Proof.
  pose proof demo_slow_facts as Hf. unfold demo_slow_states in Hf. destruct (demo_new 8 demo_slow) as [s|] eqn:Es; [|done].
  destruct (before_wait _ s) as [[[t|]|] s1] eqn:E1; try contradiction.
  destruct (from_wait _ 3 t s1) as [[[]|] s2] eqn:E2; try contradiction.
  assert (loop_top (demo_server_config 8) 3 s s2) as Htop
    by exact (top_next _ _ s s t s1 s2 (top_start _ _ s) E1 E2).
  destruct (map_to_list (connections_ s2)) as [|[f c] l] eqn:Em; [discriminate Hf|].
  injection Hf as -> Hout _.
  assert (connections_ s2 !! 4 = Some c) as Hc by (apply elem_of_map_to_list; rewrite Em; apply list_elem_of_here).
  exists s, s2, c. split; [exact Htop|]. split; [exact Hc|]. split; [exact Hout|].
  destruct (@interests_follow_connections demo_platform demo_kernel demo_kernel_ok (demo_server_config 8) 3 demo_slow s s2
    (demo_started _ _ _ Es) (Forall_nil_2 _) Htop) as [Hconns _].
  apply (Hconns 4 c Hc). rewrite Hout. discriminate.
Defined.

(** ** A connection that is not heard *)

(** Two clients connect while the worker is busy elsewhere; the request of the
    first one fills the queue of one job. *)
Definition demo_two : Script :=
  with_accepts [accept_ok; accept_ok]
    (demo_script [recv_data ping_request] (replicate 14 [] ++ [[0; 0; 0; 0]%nat]) 60).

(** A connection that meets a full queue is never read again: the second
    client is accepted while the job of the first one fills the queue, so that
    its interest in reading is dropped, and nothing restores it because it has
    nothing in flight.  After many more iterations the first client has its
    reply and is being read, the queue is empty, and the second connection is
    open, registered for no event at all. *)
Theorem saturation_deafens_connection :
  match demo_new 1 demo_two with
  | Ok s =>
      let '(r, s') := run_loop (demo_server_config 1) 3 (S (length (stops demo_two))) s in
      r = Ok tt ∧ sent 1 (trace s') = pong ∧ queued_jobs (workers_ s') = 0%nat ∧
      (λ c, (id_ c, interest c, inflight c, read_closed c, closing c)) <$> connections_ s' !! 5 =
        Some (2, interest_none, 0, false, false) ∧
      elements (filters (reactor_ s')) = [(3, EVFILT_READ); (4, EVFILT_READ)]
  | Throw _ => False
  end.
Proof. vm_compute. done. Qed.
