(* ===== verification/Cli.v ===== *)
(** * The command-line client

    [apps/novacache-cli.cpp]: the parsing of its arguments, the request it sends,
    how it reads the reply and prints it.  What the program writes is a list of
    pieces of text with the stream each goes to; [what] is the text that an
    exception carries. *)

From S2P Require Import Prelude CharConv Resp Parser ParserCorrect Disk Registry Socket Connect Server.

Inductive Stream := cout | cerr.

Abbreviation Writes := (list (Stream * bytes)).

Definition newline : bytes := ["010"%byte].

(** ** Arguments *)

(** [unsigned int] is 32 bits wide. *)
Definition parse_port (text : bytes) : option Z :=
  match text with
  | [] => None
  | _ :: _ =>
      match from_chars false 0 (2 ^ 32 - 1) text with
      | fc_ok value ptr => if bool_decide (ptr = length text) && (value <=? 65535) then Some value else None
      | _ => None
      end
  end.

Definition usage : Writes :=
  [(cerr, str "usage: novacache-cli [-h host|--host host] [-p port|--port port] command [argument ...]" ++ newline)].

Definition is_one_of (argument : bytes) (names : list string) : bool :=
  existsb (λ name, bool_decide (argument = str name)) names.

(** What the arguments ask for: to end at once, or to send a command. *)
Inductive Parsed := exits (writes : Writes) (code : Z) | runs (host : bytes) (port : Z) (command : list bytes).

(** The loop over [argv] after the program's name. *)
Fixpoint parse_arguments (version : bytes) (argc : Z) (arguments : list bytes) (host : bytes) (port : Z)
    (command : list bytes) : Parsed :=
  match arguments with
  | [] => match command with [] => exits usage 2 | _ :: _ => runs host port command end
  | argument :: rest =>
      if is_one_of argument ["--version"] && (argc =? 2)
      then exits [(cout, str "novacache-cli " ++ version ++ newline)] 0
      else if is_one_of argument ["-h"; "--host"] && bool_decide (command = [])
      then match rest with
           | [] => exits usage 2
           | value :: rest' => parse_arguments version argc rest' value port command
           end
      else if is_one_of argument ["-p"; "--port"] && bool_decide (command = [])
      then match rest with
           | [] => exits usage 2
           | value :: rest' =>
               match parse_port value with
               | None => exits [(cerr, str "novacache-cli: invalid port" ++ newline)] 2
               | Some port' => parse_arguments version argc rest' host port' command
               end
           end
      else parse_arguments version argc rest host port (command ++ [argument])
  end.

Definition make_request (arguments : list bytes) : RespValue :=
  Array (Some (map (λ argument, BulkString (Some argument)) arguments)).

(** ** Printing *)

Definition render_line (text : bytes) : Writes := [(cout, text ++ newline)].

(** The loop over the items of an array, which [item] prints. *)
Definition render_items (item : RespValue → Writes * bool) (depth : nat)
    : Z → list RespValue → bool → Writes * bool :=
  fix loop index items had_error :=
    match items with
    | [] => ([], had_error)
    | value :: items' =>
        let '(w, e) := item value in
        let '(ws, e') := loop (index + 1) items' (e || had_error) in
        ((cout, replicate (depth * 2) " "%byte ++ to_chars (index + 1) ++ str ") ") :: w ++ ws, e')
    end.

(** What is printed, and whether an error was among it. *)
Fixpoint render (depth : nat) (value : RespValue) : Writes * bool :=
  match value with
  | SimpleString s => (render_line s, false)
  | Error s => ([(cerr, str "(error) " ++ s ++ newline)], true)
  | Integer z => (render_line (to_chars z), false)
  | BulkString (Some s) => (render_line s, false)
  | BulkString None | Array None => (render_line (str "(nil)"), false)
  | Array (Some []) => (render_line (str "(empty array)"), false)
  | Array (Some items) => render_items (render (S depth)) depth 0 items false
  end.

(** ** The session *)

Section Session.
Context (what : exn → bytes).

Definition complains (text : bytes) : Writes := [(cerr, str "novacache-cli: " ++ text ++ newline)].

(** The loop that reads the reply; every iteration but the last takes a result of
    [recv(2)] off the list. *)
Fixpoint read_reply (fuel : nat) (parser : Parser) (calls : list SysRecv) : Writes * Z :=
  match fuel with
  | O => (complains (str "out of fuel"), 1)
  | S fuel' =>
      let '(result, parser1) := next parser in
      match result_status result, result_value result with
      | complete, Some value =>
          let '(writes, had_error) := render 0 value in (writes, if had_error then 1 else 0)
      | incomplete, _ =>
          let '(received, calls') := receive_blocking calls in
          match received with
          | Throw e => (complains (what e), 1)
          | Ok [] => (complains (str "server closed the connection"), 1)
          | Ok ((_ :: _) as data) =>
              let '(fed, parser2) := feed parser1 data in
              if bool_decide (fed = incomplete) then read_reply fuel' parser2 calls'
              else (complains (str "server response exceeded limits"), 1)
          end
      | _, _ => (complains (str "malformed server response"), 1)
      end
  end.

(** [main] with its surroundings: the addresses of a host, the open descriptors
    and the results of the calls on the socket. *)
Definition cli_main (version : bytes) (resolve : Resolver) (fds : Descriptors)
    (sends : list SysSend) (recvs : list SysRecv) (arguments : list bytes) : Writes * Z :=
  match parse_arguments version (len arguments + 1) arguments (str "127.0.0.1") 6379 [] with
  | exits writes code => (writes, code)
  | runs host port command =>
      match fst (socket_connect resolve host port fds) with
      | Throw e => (complains (what e), 1)
      | Ok _ =>
          match encode (make_request command) with
          | Throw e => (complains (what e), 1)
          | Ok request =>
              match fst (fst (send_all request sends)) with
              | Throw e => (complains (what e), 1)
              | Ok _ => read_reply (S (length recvs)) (new_parser default_limits) recvs
              end
          end
      end
  end.
End Session.

(** ** What the client promises *)

Fixpoint has_error (v : RespValue) : bool :=
  match v with Error _ => true | Array (Some vs) => existsb has_error vs | _ => false end.

Lemma render_error v : ∀ depth, snd (render depth v) = has_error v.
Proof.
  induction v as [s|s|z|o| |vs IH] using RespValue_rect'; intros depth; try done; [by destruct o|].
  assert (∀ index had, snd (render_items (render (S depth)) depth index vs had) = existsb has_error vs || had) as Hloop.
  { induction IH as [|v vs Hv _ IHvs]; intros index had; [done|]. cbn [render_items existsb].
    specialize (Hv (S depth)). destruct (render (S depth) v) as [w e]. cbn [snd] in Hv. subst e.
    specialize (IHvs (index + 1) (has_error v || had)). fold (render_items (render (S depth)) depth).
    destruct (render_items _ _ _ vs _) as [ws e']. cbn [snd] in *. rewrite IHvs.
    by destruct (has_error v), (existsb has_error vs), had. }
  cbn [render has_error]. destruct vs as [|v0 vs0]; [done|]. rewrite Hloop. apply orb_false_r.
Qed.

(** The results of [recv(2)] on a connection that delivers bytes: interruptions
    happen, errors and the end of the stream do not. *)
Definition delivers (c : SysRecv) : Prop :=
  match c with recv_data (_ :: _) | recv_error EINTR => True | _ => False end.

Definition delivered (calls : list SysRecv) : bytes :=
  concat (map (λ c, match c with recv_data d => d | recv_error _ => [] end) calls).

Lemma receive_delivers calls :
  Forall delivers calls → delivered calls ≠ [] →
  ∃ data calls', receive_blocking calls = (Ok data, calls') ∧ data ≠ [] ∧ Forall delivers calls' ∧
    delivered calls = data ++ delivered calls' ∧ (length calls' < length calls)%nat.
Proof.
  induction 1 as [|c calls Hc Hcs IH]; [done|]. unfold receive_blocking in *. cbn [try_receive].
  destruct c as [[|b d]|[]]; try done.
  - intros _. exists (b :: d), calls. split_and!; [done|done|done|done|]. cbn. lia.
  - intros Hne. destruct (IH Hne) as (data & calls' & -> & ? & ? & Hd & ?). exists data, calls'.
    split_and!; [done|done|done|done|]. cbn. lia.
Qed.

Lemma read_reply_ok what v extra fuel : ∀ buf calls,
  fits default_limits 0 v = true → buf ++ delivered calls = wire v ++ extra →
  len (wire v ++ extra) <= max_buffer_size default_limits →
  Forall delivers calls → (length calls < fuel)%nat →
  read_reply what fuel (parser_with default_limits buf) calls =
  (fst (render 0 v), if has_error v then 1 else 0).
Proof.
  induction fuel as [|fuel IH]; intros buf calls Hfit Hbytes Hmax Hcalls Hfuel; [lia|]. cbn [read_reply].
  pose proof (parse_value_wire default_limits v 0 extra Hfit) as Hparse. rewrite <- Hbytes in Hparse.
  unfold next. cbn [buffer_oversized_ parser_with limits_ buffer_].
  destruct (decide (val_status (parse_value default_limits buf 0) = incomplete)) as [Hinc|Hdone].
  - rewrite Hinc. cbn [result_status result_value]. destruct (decide (delivered calls = [])) as [E|Hne].
    { rewrite E, app_nil_r in Hparse. by rewrite Hparse in Hinc. }
    destruct (receive_delivers calls Hcalls Hne) as (data & calls' & -> & Hdata & Hcalls' & Hd & Hlen).
    rewrite (bool_decide_eq_false_2 (incomplete = complete)) by done.
    destruct data as [|b data]; [done|]. set (d := b :: data) in *. clearbody d.
    unfold feed. cbn [parser_with buffer_oversized_ limits_ buffer_]. rewrite <- Hbytes, Hd in Hmax.
    rewrite !len_app in Hmax. pose proof (len_nonneg (delivered calls')). pose proof (len_nonneg buf). pose proof (len_nonneg d).
    cond_case; [lia|]. rewrite bool_decide_eq_true_2 by done.
    change {| limits_ := default_limits; buffer_ := ?x; buffer_oversized_ := false |} with (parser_with default_limits x).
    apply IH; [done| | |done|lia].
    + by rewrite <- app_assoc, <- Hd.
    + rewrite <- Hbytes, Hd, !len_app. lia.
  - rewrite parse_value_app in Hparse by done. rewrite Hparse. cbn [val_status val_value val_complete result_status result_value].
    rewrite <- (render_error v 0). by destruct (render 0 v).
Qed.

Lemma make_request_line_safe command : line_safe (make_request command) = true.
Proof. cbn. by induction command. Qed.

Lemma encode_request command : encode (make_request command) = Ok (wire (make_request command)).
Proof. unfold encode. by rewrite append_encoded_spec, make_request_line_safe. Qed.

Lemma extract_request command : command ≠ [] → extract_arguments (make_request command) = Some command.
Proof.
  intros Hne. destruct command as [|c command]; [done|]. clear Hne.
  assert (∀ l, extract_items (map (λ argument, BulkString (Some argument)) l) = Some l) as Hl.
  { induction l as [|x l IH]; [done|]. cbn [map extract_items]. by rewrite IH. }
  exact (Hl (c :: command)).
Qed.

Lemma is_request command : command ≠ [] → is_command_request (make_request command) = true.
Proof. destruct command as [|c command]; [done|]. intros _. cbn. by induction command. Qed.

Lemma parse_port_range text port : parse_port text = Some port → 0 <= port <= 65535.
Proof.
  unfold parse_port. destruct text as [|c text]; [done|]. destruct (from_chars _ _ _ _) as [v ptr| |] eqn:E; [|done|done].
  apply from_chars_range in E. cond_case; [|done]. intros [= <-]. lia.
Qed.

(** The loop over the arguments, by its two kinds of steps. *)
Lemma parse_arguments_spec version argc n : ∀ arguments host port command,
  (length arguments < n)%nat → 0 <= port <= 65535 →
  match parse_arguments version argc arguments host port command with
  | runs _ port' command' => command' ≠ [] ∧ 0 <= port' <= 65535
  | exits _ code => code = 2 ∨ code = 0 ∧ argc = 2 ∧ str "--version" ∈ arguments
  end.
Proof.
  induction n as [|n IH]; intros arguments host port command Hn Hport; [lia|].
  destruct arguments as [|a rest]; cbn [parse_arguments]; cbn [length] in Hn.
  { destruct command; [by left|done]. }
  assert (∀ rest' host' port' command', (length rest' <= length rest)%nat → rest' ⊆ rest → 0 <= port' <= 65535 →
    match parse_arguments version argc rest' host' port' command' with
    | runs _ port'' command'' => command'' ≠ [] ∧ 0 <= port'' <= 65535
    | exits _ code => code = 2 ∨ code = 0 ∧ argc = 2 ∧ str "--version" ∈ a :: rest
    end) as Hgo.
  { intros rest' host' port' command' Hl Hsub Hp. specialize (IH rest' host' port' command' ltac:(lia) Hp).
    destruct (parse_arguments _ _ _ _ _ _) as [w code|]; [|done].
    destruct IH as [?|(? & ? & ?)]; [by left|right]. split_and!; [done|done|set_solver]. }
  cond_case.
  { right. unfold is_one_of in Heqb. cbn in Heqb. rewrite orb_false_r in Heqb.
    apply andb_true_iff in Heqb as [->%bool_decide_eq_true ?]. split_and!; [done|lia|set_solver]. }
  cond_case.
  { destruct rest as [|x rest']; [by left|]. apply Hgo; [cbn; lia|set_solver|done]. }
  cond_case; [|apply Hgo; [done|done|done]].
  destruct rest as [|x rest']; [by left|]. destruct (parse_port x) as [p|] eqn:Ep; [|by left].
  apply Hgo; [cbn; lia|set_solver|by eapply parse_port_range].
Qed.

(** The client checks its arguments before it does anything else: what it
    goes on with is a command that is not empty and a port of 16 bits, it ends
    with status 0 only for [--version] as the one argument, and every other
    mistake ends it with status 2. *)
Theorem cli_arguments_checked version arguments :
  match parse_arguments version (len arguments + 1) arguments (str "127.0.0.1") 6379 [] with
  | runs _ port command => command ≠ [] ∧ 0 <= port <= 65535
  | exits _ code => code = 2 ∨ code = 0 ∧ arguments = [str "--version"]
  end.
Proof.
  pose proof (parse_arguments_spec version (len arguments + 1) (S (length arguments)) arguments (str "127.0.0.1") 6379 []
    ltac:(lia) ltac:(lia)) as Hs.
  destruct (parse_arguments _ _ _ _ _ _) as [w code|]; [|done].
  destruct Hs as [?|(? & Hlen & Hin)]; [by left|right]. split; [done|].
  destruct arguments as [|a [|b rest]]; [by apply elem_of_nil in Hin|by apply list_elem_of_singleton in Hin as <-|].
  rewrite !len_cons in Hlen. pose proof (len_nonneg rest). lia.
Qed.

(** C29. A session of the client is faithful in both directions, when the
    connection is made and the request is sent, request and reply are within the
    default limits of the parser (1024 elements, among others), and no more than
    16 MiB arrive: the bytes it sends are decoded, by a parser with the same
    limits and whatever follows them, to a command request with exactly the
    arguments given; and the reply that the server encodes, in however many pieces
    it arrives and however often the reading is interrupted, is what the client
    prints, and it ends with status 1 exactly when there is an error in the reply.
    For a reply beyond the limits see [cli_rejects_large_replies]. *)
Theorem cli_session_faithful what version resolve fds sends calls arguments host port command fd v reply extra :
  parse_arguments version (len arguments + 1) arguments (str "127.0.0.1") 6379 [] = runs host port command →
  fits default_limits 0 (make_request command) = true →
  fst (socket_connect resolve host port fds) = Ok fd →
  fst (fst (send_all (wire (make_request command)) sends)) = Ok tt →
  encode v = Ok reply → fits default_limits 0 v = true →
  Forall delivers calls → delivered calls = reply ++ extra → len (reply ++ extra) <= max_buffer_size default_limits →
  (∀ rest, parse_value default_limits (wire (make_request command) ++ rest) 0 =
           val_complete (make_request command) (len (wire (make_request command)))) ∧
  is_command_request (make_request command) = true ∧ extract_arguments (make_request command) = Some command ∧
  cli_main what version resolve fds sends calls arguments = (fst (render 0 v), if has_error v then 1 else 0).
Proof.
  intros Hargs Hfit Hconn Hsend Henc Hv Hcalls Hd Hlen.
  assert (command ≠ []) as Hne.
  { pose proof (parse_arguments_spec version (len arguments + 1) (S (length arguments)) arguments (str "127.0.0.1") 6379 []
      ltac:(lia) ltac:(lia)) as Hs. rewrite Hargs in Hs. apply Hs. }
  split; [intros rest; by apply parse_value_wire|]. split; [by apply is_request|]. split; [by apply extract_request|].
  unfold cli_main. rewrite Hargs, Hconn, encode_request, Hsend.
  assert (reply = wire v) as ->.
  { revert Henc. unfold encode. rewrite append_encoded_spec. destruct (line_safe v); [|done]. by intros [= <-]. }
  change (new_parser default_limits) with (parser_with default_limits []).
  apply (read_reply_ok what v extra); [done|done|done|done|lia].
Qed.

(** The client cannot read the answer to [KEYS] of a store with more than
    1024 keys: its parser has the limits of the server's, which are meant for
    requests, and the reply is reported as malformed. *)
Theorem cli_rejects_large_replies what :
  let reply := Array (Some (replicate 1025 (BulkString (Some (str "k"))))) in
  encode reply = Ok (wire reply) ∧
  read_reply what 2 (new_parser default_limits) [recv_data (wire reply)] =
  (complains (str "malformed server response"), 1).
Proof. by vm_compute. Qed.

(** ** Witnesses *)

Lemma cli_session_faithful_witness :
  cli_main (λ _, []) (str "0.1.0") demo_resolver {[ 0; 1; 2 ]} [send_count 1000]
    [recv_data (str "$1"); recv_error EINTR; recv_data (crlf ++ str "x" ++ crlf)] [str "GET"; str "key"] =
  ([(cout, str "x" ++ newline)], 0).
Proof.
  exact (proj2 (proj2 (proj2 (cli_session_faithful (λ _, []) (str "0.1.0") demo_resolver {[ 0; 1; 2 ]}
    [send_count 1000] [recv_data (str "$1"); recv_error EINTR; recv_data (crlf ++ str "x" ++ crlf)]
    [str "GET"; str "key"] (str "127.0.0.1") 6379 [str "GET"; str "key"] 6 (BulkString (Some (str "x")))
    (wire (BulkString (Some (str "x")))) [] eq_refl eq_refl eq_refl eq_refl eq_refl eq_refl
    ltac:(repeat constructor) eq_refl ltac:(vm_compute; discriminate))))).
Defined.
