(* ===== verification/Benchmark.v ===== *)
(** * The benchmark program

    [apps/novacache-benchmark.cpp] and [src/version.cpp].  The program is a stub
    that knows its version only; the text of the version is given by the build. *)

From S2P Require Import Prelude Cli.

Section Benchmark.
Context (NOVACACHE_VERSION_STRING : bytes).

Definition version : bytes := NOVACACHE_VERSION_STRING.

Definition benchmark_main (arguments : list bytes) : Writes * Z :=
  if (len arguments =? 1) && bool_decide (arguments = [str "--version"])
  then ([(cout, str "novacache-benchmark " ++ version ++ newline)], 0)
  else ([(cerr, str "novacache-benchmark: benchmark execution is not implemented yet" ++ newline ++
                str "Run with --version to verify this Phase 0 build." ++ newline)], 1).

(** The status is 0 for [--version] as the one argument, and 1 otherwise. *)
Lemma benchmark_status arguments : snd (benchmark_main arguments) = 0 ↔ arguments = [str "--version"].
Proof.
  unfold benchmark_main. destruct (decide (arguments = [str "--version"])) as [->|Hne]; [done|].
  rewrite (bool_decide_eq_false_2 (arguments = _)), andb_false_r by done. done.
Qed.
End Benchmark.
