(* ===== verification/ServerMain.v ===== *)
(** * The server program

    [apps/novacache-server.cpp]: the parsing of the command line and the whole
    of [main], from the construction of the server to its destruction. *)

From S2P Require Import Prelude CharConv Resp Parser Disk Wal Store StoreInv StoreTheorems Snapshot Engine Stats Registry.
From S2P Require Import ServerCommands ThreadPool Socket Connect Reactor Server ServerInv ServerSteps ServerRun ServerEnd ServerProps.

(** What the program writes to its two streams. *)
Inductive Stream := cout | cerr.

Abbreviation Writes := (list (Stream * bytes)).

Definition newline : bytes := ["010"%byte].

(** ** Numbers and modes *)

(** The whole of the text as an unsigned number of at most [hi]. *)
Definition parse_unsigned (hi : Z) (text : bytes) : option Z :=
  match text with
  | [] => None
  | _ :: _ =>
      match from_chars false 0 hi text with
      | fc_ok value ptr => if bool_decide (ptr = length text) then Some value else None
      | _ => None
      end
  end.

Definition parse_port (text : bytes) : option Z :=
  match parse_unsigned (2 ^ 32 - 1) text with
  | Some value => if value >? 65535 then None else Some value
  | None => None
  end.

Definition parse_size (text : bytes) : option Z := parse_unsigned (2 ^ 64 - 1) text.

Definition parse_fsync (text : bytes) : option FsyncMode :=
  if bool_decide (text = str "always") then Some always
  else if bool_decide (text = str "everysec") then Some everysec
  else if bool_decide (text = str "none") then Some none
  else None.

(** ** Options *)

Record Options := { o_host : bytes; o_port : Z; o_backlog : Z; o_server : ServerConfig }.

(** The initializers of [ServerConfig]. *)
Definition default_options : Options := {|
  o_host := str "127.0.0.1"; o_port := 6379; o_backlog := 128;
  o_server := {|
    cfg_workers := 0; cfg_shards := 16; cfg_max_connections := 10000; cfg_worker_queue_limit := 4096;
    cfg_max_output_buffer_bytes := 16 * 1024 * 1024; cfg_active_expiry_hz := 10; cfg_idle_timeout := 0;
    cfg_parser_limits := default_limits; cfg_persistence_enabled := false;
    cfg_persistence := {| data_dir := []; fsync := everysec; snapshot_interval_seconds := 300 |} |} |}.

Definition with_host (h : bytes) (o : Options) : Options :=
  {| o_host := h; o_port := o_port o; o_backlog := o_backlog o; o_server := o_server o |}.
Definition with_port (p : Z) (o : Options) : Options :=
  {| o_host := o_host o; o_port := p; o_backlog := o_backlog o; o_server := o_server o |}.
Definition with_server (c : ServerConfig) (o : Options) : Options :=
  {| o_host := o_host o; o_port := o_port o; o_backlog := o_backlog o; o_server := c |}.
Definition set_workers (n : Z) (c : ServerConfig) : ServerConfig :=
  {| cfg_workers := Z.to_nat n; cfg_shards := cfg_shards c; cfg_max_connections := cfg_max_connections c;
     cfg_worker_queue_limit := cfg_worker_queue_limit c;
     cfg_max_output_buffer_bytes := cfg_max_output_buffer_bytes c;
     cfg_active_expiry_hz := cfg_active_expiry_hz c; cfg_idle_timeout := cfg_idle_timeout c;
     cfg_parser_limits := cfg_parser_limits c; cfg_persistence_enabled := cfg_persistence_enabled c;
     cfg_persistence := cfg_persistence c |}.
Definition set_persistence (enabled : bool) (p : PersistenceConfig) (c : ServerConfig) : ServerConfig :=
  {| cfg_workers := cfg_workers c; cfg_shards := cfg_shards c; cfg_max_connections := cfg_max_connections c;
     cfg_worker_queue_limit := cfg_worker_queue_limit c;
     cfg_max_output_buffer_bytes := cfg_max_output_buffer_bytes c;
     cfg_active_expiry_hz := cfg_active_expiry_hz c; cfg_idle_timeout := cfg_idle_timeout c;
     cfg_parser_limits := cfg_parser_limits c; cfg_persistence_enabled := enabled; cfg_persistence := p |}.

Definition with_workers (n : Z) (o : Options) : Options := with_server (set_workers n (o_server o)) o.

(** The three options of persistence. *)
Definition with_data_dir (d : bytes) (o : Options) : Options :=
  let p := cfg_persistence (o_server o) in
  with_server (set_persistence true
    {| data_dir := d; fsync := fsync p; snapshot_interval_seconds := snapshot_interval_seconds p |} (o_server o)) o.
Definition with_fsync (m : FsyncMode) (o : Options) : Options :=
  let p := cfg_persistence (o_server o) in
  with_server (set_persistence (cfg_persistence_enabled (o_server o))
    {| data_dir := data_dir p; fsync := m; snapshot_interval_seconds := snapshot_interval_seconds p |} (o_server o)) o.
Definition with_interval (n : Z) (o : Options) : Options :=
  let p := cfg_persistence (o_server o) in
  with_server (set_persistence (cfg_persistence_enabled (o_server o))
    {| data_dir := data_dir p; fsync := fsync p; snapshot_interval_seconds := n |} (o_server o)) o.

(** ** The command line *)

Definition usage : Writes :=
  [(cerr, str "usage: novacache-server [-h host|--host host] [-p port|--port port] [--workers N] [--data-dir PATH] [--fsync always|everysec|none] [--snapshot-interval SECONDS]" ++ newline)].

Definition refuses (text : string) : Writes := [(cerr, str "novacache-server: " ++ str text ++ newline)].

Definition is_one_of (argument : bytes) (names : list string) : bool :=
  existsb (λ name, bool_decide (argument = str name)) names.

Inductive Parsed := exits (writes : Writes) (code : Z) | serves (o : Options).

(** The loop over [argv] after the program's name. *)
Fixpoint parse_arguments (version : bytes) (arguments : list bytes) (o : Options) : Parsed :=
  match arguments with
  | [] => serves o
  | argument :: rest =>
      if is_one_of argument ["--version"]
      then exits [(cout, str "novacache-server " ++ version ++ newline)] 0
      else if is_one_of argument ["-h"; "--host"]
      then match rest with
           | [] => exits usage 2
           | value :: rest' => parse_arguments version rest' (with_host value o)
           end
      else if is_one_of argument ["-p"; "--port"]
      then match rest with
           | [] => exits usage 2
           | value :: rest' =>
               match parse_port value with
               | None => exits (refuses "invalid port") 2
               | Some port => parse_arguments version rest' (with_port port o)
               end
           end
      else if is_one_of argument ["--workers"]
      then match rest with
           | [] => exits usage 2
           | value :: rest' =>
               match parse_size value with
               | None => exits (refuses "invalid workers") 2
               | Some workers => parse_arguments version rest' (with_workers workers o)
               end
           end
      else if is_one_of argument ["--data-dir"]
      then match rest with
           | [] => exits usage 2
           | value :: rest' => parse_arguments version rest' (with_data_dir value o)
           end
      else if is_one_of argument ["--fsync"]
      then match rest with
           | [] => exits usage 2
           | value :: rest' =>
               match parse_fsync value with
               | None => exits (refuses "invalid fsync mode") 2
               | Some mode => parse_arguments version rest' (with_fsync mode o)
               end
           end
      else if is_one_of argument ["--snapshot-interval"]
      then match rest with
           | [] => exits usage 2
           | value :: rest' =>
               match parse_size value with
               | None => exits (refuses "invalid snapshot interval") 2
               | Some interval =>
                   if interval >? 86400 * 365 then exits (refuses "invalid snapshot interval") 2
                   else parse_arguments version rest' (with_interval interval o)
               end
           end
      else exits usage 2
  end.

(** ** The program *)

(** What the program finds: the machine, the addresses of a host, the files of
    the data directory, the outcomes of the calls of the constructor and of the
    destructor, and the surroundings of [run]. *)
Record Machine := {
  m_version : bytes;
  m_hardware : nat;
  m_fds : Descriptors;
  m_resolve : Resolver;
  m_name : option (Family * byte * byte);
  m_steady : Z;
  m_now : Z;
  m_wal : bytes;
  m_snapshots : SnapshotFiles;
  m_os : Os;
  m_import_clks : nat → Clock;
  m_replay_clks : nat → Clock;
  m_add_fails : option nat;
  m_queue : bool;
  m_user_event : bool;
  m_nonblocking : bool;
  m_script : Script;
  m_end_os : Os;
  m_end_clk : Clock;
}.

Section Program.
Context `{Platform} `{Kernel} (what : exn → bytes).

(** [Server server{std::move(config)}]: the listener, its port and the server. *)
Definition construct (m : Machine) (o : Options) : result (Z * Z * Server) :=
  let! listener := fst (socket_listen (m_resolve m) (o_host o) (o_port o) (o_backlog o) (m_fds m)) in
  let! port := local_port (m_name m) in
  let! s := new_server (o_server o) listener (m_hardware m) port (m_steady m) (m_now m) (m_version m) (m_wal m)
              (m_snapshots m) (m_os m) (m_import_clks m) (m_replay_clks m) (m_add_fails m) (m_queue m) (m_user_event m)
              (m_nonblocking m)
              (m_script m) in
  Ok (listener, port, s).

(** The handler of [main] catches exceptions, not the end of the process. *)
Definition caught (e : exn) (writes : Writes) : result (Writes * Z) :=
  match e with
  | undefined_behaviour _ | terminate => Throw e
  | _ => Ok (writes ++ [(cerr, str "novacache-server: " ++ what e ++ newline)], 1)
  end.

(** [main]: what is written and the status, and what happened to the clients.
    The server is destroyed before the handler runs. *)
Definition server_main (m : Machine) (arguments : list bytes) : result (Writes * Z) * list Happened :=
  match parse_arguments (m_version m) arguments default_options with
  | exits writes code => (Ok (writes, code), [])
  | serves o =>
      match construct m o with
      | Throw e => (caught e [], [])
      | Ok (listener, port, s) =>
          let listening := [(cout, str "NovaCache listening on port " ++ to_chars port ++ newline)] in
          let '(r, s1) := run (o_server o) listener s in
          match r, fst (destroy_server (o_server o) (m_end_os m) (m_end_clk m) s1) with
          | Throw terminate, _ => (Throw terminate, trace s1)
          | Throw (undefined_behaviour u), _ => (Throw (undefined_behaviour u), trace s1)
          | _, Throw e => (Throw e, trace s1)
          | Ok _, Ok _ => (Ok (listening, 0), trace s1)
          | Throw e, Ok _ => (caught e listening, trace s1)
          end
      end
  end.
End Program.

(** ** The command line gives a configuration the server can use *)

Record options_ok (o : Options) : Prop := {
  opt_config : config_ok (o_server o);
  opt_port : 0 <= o_port o <= 65535;
  opt_backlog : 0 < o_backlog o;
  opt_interval : 0 <= snapshot_interval_seconds (cfg_persistence (o_server o)) <= 86400 * 365;
  opt_data_dir : data_dir (cfg_persistence (o_server o)) ≠ [] → cfg_persistence_enabled (o_server o) = true;
  opt_limits : cfg_parser_limits (o_server o) = default_limits;
  opt_workers : Z.of_nat (cfg_workers (o_server o)) < 2 ^ 64;
}.

Lemma default_options_ok : options_ok default_options.
Proof. by split. Qed.

Lemma parse_unsigned_range hi text v : parse_unsigned hi text = Some v → 0 <= v <= hi.
Proof.
  unfold parse_unsigned. destruct text as [|c text]; [done|]. destruct (from_chars _ _ _ _) as [x ptr| |] eqn:E; [|done|done].
  apply from_chars_range in E. cond_case; [|done]. by intros [= <-].
Qed.

Lemma parse_port_ok text port : parse_port text = Some port → 0 <= port <= 65535.
Proof.
  unfold parse_port. destruct (parse_unsigned _ text) as [v|] eqn:E; [|done]. apply parse_unsigned_range in E.
  cond_case; [done|]. intros [= <-]. lia.
Qed.

Lemma with_workers_ok o n : options_ok o → 0 <= n < 2 ^ 64 → options_ok (with_workers n o).
Proof. intros [[] ? ? ? ? ? ?] Hn. split; try done. cbn. lia. Qed.
Lemma with_interval_ok o n : options_ok o → 0 <= n <= 86400 * 365 → options_ok (with_interval n o).
Proof. intros [[] ? ? ? ? ? ?] Hn. by split. Qed.
Lemma with_port_ok o p : options_ok o → 0 <= p <= 65535 → options_ok (with_port p o).
Proof. intros [[] ? ? ? ? ? ?] Hn. by split. Qed.
Lemma with_data_dir_ok o d : options_ok o → options_ok (with_data_dir d o).
Proof. intros [[] ? ? ? ? ? ?]. by split. Qed.
Lemma with_fsync_ok o f : options_ok o → options_ok (with_fsync f o).
Proof. intros [[] ? ? ? ? ? ?]. by split. Qed.
Lemma with_host_ok o h : options_ok o → options_ok (with_host h o).
Proof. intros [[] ? ? ? ? ? ?]. by split. Qed.

#[local] Hint Resolve with_workers_ok with_interval_ok with_port_ok with_data_dir_ok with_fsync_ok with_host_ok
  parse_port_ok : nova.

Lemma parse_arguments_ok version n : ∀ arguments o,
  (length arguments < n)%nat → options_ok o →
  match parse_arguments version arguments o with
  | serves o' => options_ok o'
  | exits _ code => code = 2 ∨ code = 0 ∧ str "--version" ∈ arguments
  end.
Proof.
  induction n as [|n IH]; intros arguments o Hn Ho; [lia|].
  destruct arguments as [|a rest]; cbn [parse_arguments]; [done|]. cbn [length] in Hn. cond_case.
  { right. unfold is_one_of in Heqb. cbn in Heqb. rewrite orb_false_r in Heqb.
    apply bool_decide_eq_true in Heqb as ->. split; [done|set_solver]. }
  clear Heqb. destruct rest as [|value rest]; [repeat (cond_case; [by left|]); by left|]. cbn [length] in Hn.
  assert (∀ o', options_ok o' → match parse_arguments version rest o' with
    | serves o' => options_ok o'
    | exits _ code => code = 2 ∨ code = 0 ∧ str "--version" ∈ a :: value :: rest
    end) as Hgo.
  { intros o' Ho'. specialize (IH rest o' ltac:(lia) Ho'). destruct (parse_arguments version rest o'); [|done].
    destruct IH as [?|[? ?]]; [by left|right]. split; [done|set_solver]. }
  assert (∀ v, parse_size value = Some v → 0 <= v < 2 ^ 64) as Hsize
    by (intros v Hv; apply parse_unsigned_range in Hv; lia).
  cond_case; [by apply Hgo, with_host_ok|].
  cond_case; [destruct (parse_port value) eqn:E; [apply Hgo; eauto with nova|by left]|].
  cond_case; [destruct (parse_size value) eqn:E; [apply Hgo; auto with nova|by left]|].
  cond_case; [by apply Hgo, with_data_dir_ok|].
  cond_case; [destruct (parse_fsync value); [by apply Hgo, with_fsync_ok|by left]|].
  cond_case; [|by left]. destruct (parse_size value) as [v|] eqn:E; [|by left]. specialize (Hsize v eq_refl).
  cond_case; [by left|]. apply Hgo, with_interval_ok; [done|lia].
Qed.

Lemma server_arguments_ok version arguments :
  match parse_arguments version arguments default_options with
  | serves o => options_ok o
  | exits _ code => code = 2 ∨ code = 0 ∧ str "--version" ∈ arguments
  end.
Proof. apply (parse_arguments_ok version (S (length arguments))); [lia|exact default_options_ok]. Qed.

(** Whatever the command line, the program goes on only with a configuration
    that the server can use: a port of 16 bits, a snapshot interval that fits
    [int], a data directory only with persistence on, and the numbers that the
    server's theorems ask for; everything else ends it with status 2, or with
    status 0 for [--version]. *)
Theorem server_arguments_checked version arguments :
  match parse_arguments version arguments default_options with
  | serves o => options_ok o
  | exits _ code => code = 2 ∨ code = 0 ∧ str "--version" ∈ arguments
  end.
Proof. apply server_arguments_ok. Qed.

(** ** The whole program *)

Section Safety.
Context `{PO : PlatformOk} `{KO : KernelOk} (what : exn → bytes).

Lemma engine_shutdown_ok config os clk : preserves world_ok (shutdown config os clk).
Proof.
  unfold shutdown, stop_fsync_thread. pose proof (export_write_truncate_ok config os clk).
  apply preserves_bind; [by apply preserves_modify|intros _]. preserve.
Qed.

(** The destructor ends. *)
Lemma destroy_server_ok config os clk s : parts_ok (context s) → fst (destroy_server config os clk s) = Ok tt.
Proof.
  intros [Hwf Hn]. unfold destroy_server. rewrite exec_bind_gets. destruct (persistence (context s)); [|done].
  specialize (Hn eq_refl).
  destruct (engine_shutdown_ok (cfg_persistence config) os clk (world (context s)) (conj Hwf Hn)) as [_ He].
  unfold exec_bind. rewrite ignored; [done|]. intros e. unfold zoom.
  destruct (shutdown _ os clk (world (context s))) as [r w]. exact (He e).
Qed.

(** Making the listener throws exceptions only. *)
Lemma create_descriptor_ok a : preserves (λ _, True) (create_descriptor a).
Proof.
  unfold create_descriptor, fd_open, fd_close. destruct (ad_socket a); [|auto with nova].
  apply preserves_bind; [by apply preserves_modify|intros _]. destruct (ad_configured a); [auto with nova|].
  apply preserves_bind; [by apply preserves_modify|intros _]. auto with nova.
Qed.

Lemma listen_loop_ok addresses : ∀ e, preserves (λ _, True) (listen_loop addresses e).
Proof.
  induction addresses as [|a addresses IH]; intros e; cbn [listen_loop]; [auto with nova|].
  apply preserves_bind; [apply create_descriptor_ok|]. intros [fd|e']; [|done]. destruct (listen_calls a); [|auto with nova].
  apply preserves_bind; [by apply preserves_modify|done].
Qed.

Lemma socket_listen_ok resolve host port backlog : preserves (λ _, True) (socket_listen resolve host port backlog).
Proof.
  unfold socket_listen, listen_any. cond_case; [auto with nova|]. apply preserves_bind; [|intros addresses].
  - apply preserves_result. unfold address_info. destruct (resolve _ _ _); [by intros e [= <-]|done].
  - apply preserves_bind; [apply listen_loop_ok|]. intros [fd|e]; auto with nova.
Qed.

(** Only the recovery of a log can make the construction undefined. *)
Lemma new_server_throws config listener hardware port steady now ver wal_bytes files os ic rc fails queue user nb x e :
  new_server config listener hardware port steady now ver wal_bytes files os ic rc fails queue user nb x = Throw e →
  exception e ∨ cfg_persistence_enabled config = true.
Proof.
  unfold new_server. intros E. destruct (cfg_persistence_enabled config) eqn:Ep; [by right|left]. revert E.
  destruct (create_reactor queue user) as [r0|e1] eqn:Eq; cbn [bind].
  2: { intros [= <-]. revert Eq. unfold create_reactor. repeat cond_case; by intros [= <-]. }
  destruct (new_store _) as [st|e1] eqn:Es; cbn [bind].
  2: { intros [= <-]. revert Es. unfold new_store. cond_case; by intros [= <-]. }
  destruct (new_pool _ _) as [[p n]|e1] eqn:En; cbn [bind].
  2: { intros [= <-]. revert En. unfold new_pool. repeat cond_case; by intros [= <-]. }
  unfold initial_world. rewrite Ep. cbn [bind]. cond_case; [by intros [= <-]|].
  destruct (reactor_add _ _ _ _) as [[[]|e1] r] eqn:Er; cbn [bind]; [done|]. intros [= <-].
  unfold reactor_add in Er. by destruct (apply_interest_throws _ _ _ _ _ _ Er) as [op ->].
Qed.

Lemma construct_throws m o e :
  construct m o = Throw e → exception e ∨ cfg_persistence_enabled (o_server o) = true.
Proof.
  unfold construct. destruct (socket_listen_ok (m_resolve m) (o_host o) (o_port o) (o_backlog o) (m_fds m) Logic.I) as [_ He].
  destruct (fst _) as [listener|e1]; cbn [bind]; [|intros [= <-]; left; by apply He].
  destruct (local_port (m_name m)) as [port|e1] eqn:El; cbn [bind].
  2: { intros [= <-]. left. revert El. unfold local_port. destruct (m_name m) as [[[[] ?] ?]|]; by intros [= <-]. }
  destruct (new_server _ _ _ _ _ _ _ _ _ _ _ _ _ _ _ _ _) as [s|e1] eqn:En; cbn [bind]; [done|]. intros [= <-].
  by eapply new_server_throws.
Qed.

Lemma construct_started m o listener port s :
  construct m o = Ok (listener, port, s) → started (o_server o) listener (m_script m) s.
Proof.
  unfold construct. destruct (fst _) as [l|]; cbn [bind]; [|done]. destruct (local_port _) as [p|]; cbn [bind]; [|done].
  destruct (new_server _ _ _ _ _ _ _ _ _ _ _ _ _ _ _ _ _) as [s1|] eqn:E; cbn [bind]; [|done]. intros [= <- <- <-].
  by do 14 eexists.
Qed.

(** C10. The program as a whole is safe, whatever its command line, its files, the
    clients and the kernel do: it ends with status 0, 1 or 2, or is ended by
    [std::terminate] when a command throws on a worker, and every client is
    answered in order all along; of the kinds of undefined behaviour that the
    model has, only two are possible: one while the files are recovered at the
    start, and the overflow of the deadline of an [EXPIRE].  Not in the model: a
    worker that still runs while the server is destroyed because [run] threw. *)
Theorem server_main_safe m arguments r tr :
  admissible (m_script m) → server_main what m arguments = (r, tr) →
  trace_safe default_limits tr ∧
  match r with
  | Ok (_, code) => 0 <= code <= 2
  | Throw terminate => True
  | Throw e => e = deadline_overflow ∨
      ∃ o, parse_arguments (m_version m) arguments default_options = serves o ∧
        cfg_persistence_enabled (o_server o) = true ∧ construct m o = Throw e
  end.
Proof.
  intros Hx. unfold server_main. pose proof (server_arguments_ok (m_version m) arguments) as Ha.
  destruct (parse_arguments _ _ _) as [w code|o].
  { intros [= <- <-]. split; [apply trace_safe_nil|]. destruct Ha as [->|[-> _]]; lia. }
  destruct (construct m o) as [[[listener port] s]|e] eqn:Ec.
  2: { intros [= <- <-]. split; [apply trace_safe_nil|]. destruct (construct_throws _ _ _ Ec) as [He|Hp].
    - destruct e; cbn; try done; lia.
    - destruct e; cbn; try lia. right. by exists o. }
  pose proof (opt_config _ Ha) as Hc. pose proof (construct_started _ _ _ _ _ Ec) as Hs.
  destruct (started_inv _ _ _ _ Hc Hx Hs) as (Hi & _ & Hp).
  pose proof (run_ok (o_server o) listener s Hc Hi Hp) as Hr. unfold wp in Hr. rewrite (opt_limits _ Ha) in Hr.
  destruct (run (o_server o) listener s) as [[[]|e] s1].
  - destruct Hr as [[Ht Hparts] _]. rewrite destroy_server_ok by done. intros [= <- <-]. split; [done|lia].
  - destruct Hr as (He & Ht & Hparts). rewrite (opt_limits _ Ha) in Ht. rewrite destroy_server_ok by done.
    destruct e; try done; intros [= <- <-]; (split; [done|]); cbn; try lia; try done. by left.
Qed.
End Safety.

(** ** Witness *)

(** A machine on which one client connects and sends [PING]. *)
Definition demo_machine : Machine := {|
  m_version := str "0.1.0"; m_hardware := 2; m_fds := {[ 0; 1; 2 ]}; m_resolve := demo_resolver;
  m_name := Some (AF_INET, "027"%byte, "088"%byte); m_steady := 0; m_now := 0; m_wal := [];
  m_snapshots := {| final_file := Datatypes.None; temp_file := Datatypes.None |}; m_os := calm;
  m_import_clks := λ _, frozen (demo_tick 0); m_replay_clks := λ _, frozen (demo_tick 0);
  m_add_fails := Datatypes.None; m_queue := true; m_user_event := true; m_nonblocking := true;
  m_script := MkScript [recv_data ping_request] (replicate 4 (send_count 100)) [accept_ok] [] []
    [wait_ready [{| ev_ident := 6; ev_filter := Some EVFILT_READ; ev_error := false; ev_eof := false |}]]
    (replicate 8 false) (replicate 12 [0%nat]) [] [] [];
  m_end_os := calm; m_end_clk := frozen (demo_tick 0);
|}.

Lemma demo_main_run :
  let '(r, tr) := @server_main demo_platform demo_kernel (λ _, []) demo_machine [str "--port"; str "7000"] in
  r = Ok ([(cout, str "NovaCache listening on port 7000" ++ newline)], 0) ∧ sent 1 tr = pong.
Proof. by vm_compute. Qed.

Lemma server_main_safe_witness :
  ∃ tr, @server_main demo_platform demo_kernel (λ _, []) demo_machine [str "--port"; str "7000"] =
          (Ok ([(cout, str "NovaCache listening on port 7000" ++ newline)], 0), tr) ∧
        sent 1 tr = pong ∧ trace_safe default_limits tr.
Proof.
  pose proof demo_main_run as Hrun.
  destruct (@server_main demo_platform demo_kernel (λ _, []) demo_machine [str "--port"; str "7000"]) as [r tr] eqn:E.
  destruct Hrun as [-> Hsent]. exists tr. split; [reflexivity|]. split; [exact Hsent|].
  assert (admissible (m_script demo_machine)) as Hx 
    by (split; [intros [Hs _]%elem_of_replicate; discriminate Hs|constructor]).
  exact (proj1 (@server_main_safe demo_platform demo_platform_ok demo_kernel demo_kernel_ok (λ _, []) demo_machine
    [str "--port"; str "7000"] _ tr Hx E)).
Defined.
